(* ===== verification/_CoqProject ===== *)
-Q . S2P
Prelude.v
CoreState.v
CoreOps.v
Layout.v
RowOps.v
Shape.v
Inv.v
Chains.v
Reads.v
Alloc.v
Freelist.v
Steps.v
Insert.v
Delete.v
Lockset.v
Update.v
Clear.v
Lifecycle.v
Spec.v
Typed.v
AutoInc.v
Seqlock.v
LockOrder.v
Unique.v
UniqueSafe.v
UniqueWins.v
UniqueRace.v
UniqueFind.v
UniqueLive.v
Hash.v
Create.v
Data.v
Registry.v
DataSpec.v
RegistrySpec.v
RegistrySafe.v
Tables.v
Handler.v
HandlerSpec.v
HandlerInfo.v
Sessions.v
Buffers.v
Standalone.v
Stress.v
TornRead.v
TornCorrupt.v
Demo.v
DemoHandler.v
DemoTables.v
DemoThreads.v
DemoTests.v
DemoUnique.v
