(* ===== verification/Prelude.v ===== *)
(** * FASTMEM: a verified model of an in-memory storage engine

    FASTMEM is a storage engine for MariaDB whose tables live in memory, in fixed-size slots that
    are found through hash chains.  There is no table lock: reads copy a row between two loads of
    a sequence word, writers take spinlocks per slot and per bucket, and a position is a slot
    number with a generation.

    ** The program and its parts

    - The concurrency core, src/fm_core.h: the share of a table (chunks of slots, a freelist, one
      hash index per key, an auto-increment counter) and the operations on its rows.
    - Key callbacks, src/fm_hash.cc: hashing, comparison and packing of keys over the key segments
      of the server; the core calls them through function pointers ([FM_KEY_OPS]).
    - Row operations of a handle, src/fm_data.cc: translate positions, keys and errors between the
      server and the core.
    - The registry, src/fm_create.cc: key definitions of a new table, the list of shares by name,
      reference counts, open, close, drop and rename.
    - The handler, src/ha_fastmem.cc and src/ha_fastmem.h: what the server calls.  In a write
      statement it holds the lock of the current row from its read to its update or delete.

    ** How the code is modelled

    An operation is a function in the state monad [M]: it returns a value and a state, or is
    undefined ([Ub]: null or dangling pointers, indices out of range, double free, division by
    zero), or never ends ([Hang]: a spin on a lock that is taken).  A property "[wp m Q s]" says
    that [m] from [s] does return, with [Q].  Arithmetic is on [Z] with the wrap-around of the
    source written out ([u16], [u32], [u64], [i32]).  The allocator is a function that says which
    calls succeed, so statements cover every pattern of failures.  Loops that the source bounds
    only by the shape of a chain run on fuel: [walk_fuel] is one more than the number of slots, and
    the invariant (chains have no repetitions) makes it enough, so that a walk that ran out would
    be [Hang] and contradict [wp].  Code of the server (character sets, the hash macro, integer
    loads, struct sizes, the numbering of key types, generation of auto-increment values) is a
    parameter, with what its documentation promises as a hypothesis ([CollationLaws], [table_ok], the
    width of a load); the Demo files instantiate them all.  The routines on keys and records take
    byte lists, in which a byte past the end counts as 0 ([byte_at], [span]); Buffers lists the bytes
    that they touch of each buffer, and its [checked_call] is undefined when one is not there.

    ** Files

    - Prelude: integers, the monad, [wp] and its tactics, lists.
    - CoreState, CoreOps, RowOps: the state of a share with its address arithmetic, and every
      function of src/fm_core.h; Layout: the bytes of a chunk.
    - Shape, Inv: what row operations leave alone, and the invariant [wf] - the chain of every
      bucket holds exactly the rows that hash to it, the freelist exactly the unused slots, unique
      keys are unique, the locks taken are those in [held] - with the abstract [table] of a share.
      [KeyOpsLaws] is the interface between the core and the key callbacks.
    - Chains, Reads, Alloc, Freelist, Steps, Insert, Delete, Lockset, Update, Clear, Lifecycle: one
      operation after the other meets its contract and keeps [wf].
    - Spec: the abstract table (rows and generations under slot numbers) and the refinement.  Typed:
      every field of a share keeps its C type.
    - AutoInc: reservations of auto-increment values, alone and racing.
    - Seqlock: threads on one slot - reads, read-modify-write cycles, deletes, recycling inserts,
      clears - interleaved at single loads, stores and bytes.
    - LockOrder: the lock operations of all functions, interleaved.
    - Unique, UniqueSafe, UniqueWins, UniqueRace, UniqueFind, UniqueLive: threads that insert,
      update, delete and look up any rows of a unique key, interleaved at every lock, chain
      operation, row read and row write; their invariant, a race, what a lookup sees, and why they
      do not wait in a circle.
    - Hash: src/fm_hash.cc; its callbacks are an instance of [KeyOpsLaws].
    - Create: [fm_prepare_create_info].  Data, DataSpec: src/fm_data.cc.
    - Registry, RegistrySpec, RegistrySafe, Tables: src/fm_create.cc and the open, clone, create,
      close, drop and rename of the handler; shares and handles live in one heap, and [reg_ok] says who
      owns which block.
    - Handler, HandlerSpec: row access of the handler and the row lock; HandlerInfo: statistics.
    - Sessions: several handlers on one share, each with its cursor and row lock; the server
      interleaves their calls, and a call that meets a row lock of another session waits.  Buffers:
      the bytes of keys, records and rows that each call touches.
    - Standalone: the key callbacks of src/standalone-test/main.cpp, a second instance of
      [KeyOpsLaws], and its tests C and D as programs; Stress, TornRead, TornCorrupt: its tests
      B and A with their threads.
    - Demo, DemoHandler, DemoTables, DemoThreads, DemoTests, DemoUnique: each property applied to a
      concrete table or run.

    ** What is shown

    - Rows: every trace of commands and responses of a share is one of the abstract table
      ([engine_refines]); each operation on every branch ([insert_correct], [update_correct],
      [delete_correct], [clear_correct], [find_correct], [find_all_correct], [scan_correct],
      [dup_check_correct], the locked variants); retired positions are refused
      by read, delete and update ([stale_position_rejected]); every field keeps its C type and no lock
      is left taken ([fields_fit]), and slots do not overlap ([slots_disjoint]); creating a share,
      using and freeing it returns all memory ([init_correct], [lifecycle_no_leak]).
    - Keys: the callbacks are lawful - for keys with odd bits in the last segment at most - and
      packed keys of fixed width match their records ([key_callbacks_lawful], [make_key_matches],
      [prepare_correct]).
    - Handles and statements: [fm_write_correct], [fm_update_correct], [fm_delete_correct], round
      trips of references ([write_position_read], [scan_references], [deleted_ref_rejected]); the
      row lock ([update_row_rmw], [delete_row_rmw], [update_row_total]), index access and whole
      statements ([index_access_complete], [delete_statement_empties]); statistics
      ([info_exact]).
    - Tables: no sequence of table operations uses freed memory or leaks ([registry_safe]), for
      tables without BTREE keys and whatever allocations fail, but for those whose failure the code
      does not survive ([init_failure_undefined], [prepare_btree]); rows survive the last close
      ([close_open_rows]); a clone is a handle of the listed table of its name, or of a new one
      ([clone_table]).
    - Auto increment: when a reservation gives up and what it grants otherwise ([reserve_correct],
      [reserve_room], [counter_raised]); racing grants are disjoint in what they reserve
      ([grants_disjoint]), which is not all of a grant whose size wraps ([wrapped_grant_shared]).
    - Threads: reads are not torn while the slot is not recycled ([read_never_torn]), no update is
      lost ([no_lost_update]), statements do not deadlock ([statements_deadlock_free],
      [lockset_correct]).  Two rows never get the same unique key as long as nobody inserts or
      nobody changes a key ([unique_concurrent]), and of inserts that race for a key exactly one
      wins ([one_insert_wins]).  Under the same condition a lookup is atomic ([lookup_atomic]).
      The threads on a unique key never get stuck ([unique_no_deadlock]).
    - Sessions: with buffers in the format of the server no interleaving of calls leaves a buffer,
      is undefined or loses a lock, and a call waits for a row lock only ([sessions_safe]; what the
      routines compute depends on the listed bytes alone, [hashnr_app], [key_cmp_app]); a row read in a write statement keeps its image until the
      session updates it ([session_rmw]).
    - Tests: the tests of the repository pass - test C ([stale_pos_passes]), test D for any number
      of rows ([multikey_passes]), test B for any threads, random numbers and interleaving
      ([unique_key_passes]), test A for any interleaving in which no writer draws row 0
      ([torn_read_passes]).
    - What goes wrong is proved, too: [torn_read_recycled], [clear_frees_twice],
      [clear_delete_deadlock], [update_update_deadlock], and an insert that races with a key change
      breaks a unique key ([unique_key_race]).  Test A uses row 0 of its array as a scratch buffer
      and then breaks the unique key itself, in any run in which a writer draws row 0, and passes
      ([torn_read_corrupts]); its readers cannot notice a
      torn record ([torn_read_blind]).

    ** Bounds

    A share has at most 64 keys (MAX_KEY of the server; the lock set of an update has room for
    twice as many buckets), and its chunks hold at most 2^31 slots, the range of a slot number.
    Records are below one megabyte in [slots_disjoint].  Generations are 32-bit: a position is
    refused unless its slot was retired 2^32 times since.  A read is not torn unless the sequence
    word changes 2^32 times while it copies.

    ** Not modelled

    - C++ memory orders: all interleavings are sequentially consistent.  Seqlock takes a slot apart
      into bytes, Unique a table with one key into its locks, chain operations, row reads and row
      writes, LockOrder all functions into their lock operations, Sessions and the tests interleave
      whole calls (a call that waits has no effect before it returns, although [lock_current_row]
      gives up its old row lock before it spins).
    - Clears among the threads of Unique, and in Sessions while a row lock is held: a clear does not
      keep the invariants then, as [clear_frees_twice] and [clear_delete_deadlock] show.  Unique has
      one key; the update of several keys takes its buckets as LockOrder describes.
    - In test A two writers may read and assign the same row of the array at once, which is a data
      race in C++; here an access to the array is one step.
    - Cost functions of the optimizer (floating point), constant flag sets, the plugin declaration:
      they have no state and no branches.
    - The clocks, the random generator and the printing of the tests, the benchmarks and the
      scripts.

    ** Plan

    The functions of the engine are modelled.  What could follow: several keys in Unique, and
    weaker memory orders in Seqlock. *)

From stdpp Require Export base gmap fin_maps numbers.
From stdpp Require Export list.

#[export] Set Default Goal Selector "!".

Open Scope Z_scope.

(** * Machine integers *)

Definition u16 (x : Z) : Z := x mod 2 ^ 16.
Definition u32 (x : Z) : Z := x mod 2 ^ 32.
Definition u64 (x : Z) : Z := x mod 2 ^ 64.
Definition i32 (x : Z) : Z := (x + 2 ^ 31) mod 2 ^ 32 - 2 ^ 31.

(** * Outcomes and the state monad *)

(** [Ub] is undefined behaviour (null or out-of-range dereference, double free, read of
    uninitialised bytes); [Hang] is a loop that never leaves (a spin on a lock that is held,
    a walk of a cyclic chain). *)
Inductive outcome (A : Type) : Type :=
| Ret (a : A)
| Ub
| Hang.
Arguments Ret {A} a.
Arguments Ub {A}.
Arguments Hang {A}.

Definition M (S A : Type) : Type := S → outcome (A * S).

#[export] Instance M_ret {S} : MRet (M S) := λ A a s, Ret (a, s).
#[export] Instance M_bind {S} : MBind (M S) := λ A B f m s,
  match m s with
  | Ret (a, s') => f a s'
  | Ub => Ub
  | Hang => Hang
  end.

Definition ub {S A} : M S A := λ _, Ub.
Definition hang {S A} : M S A := λ _, Hang.
Definition get {S} : M S S := λ s, Ret (s, s).
Definition modify {S} (f : S → S) : M S () := λ s, Ret (tt, f s).
(** [unwrap o]: the dereference of a pointer that may be null. *)
Definition unwrap {S A} (o : option A) : M S A :=
  match o with Some a => mret a | None => ub end.

(** Total-correctness postconditions: [wp m Q s] says that [m] run from [s] returns. *)
Definition wp {S A} (m : M S A) (Q : A → S → Prop) (s : S) : Prop :=
  ∃ a s', m s = Ret (a, s') ∧ Q a s'.

(** * Singly linked lists threaded through an array of next fields *)

Definition FM_NULL_SLOT : Z := -1.

(** [linked next h l]: from head [h], following [next], one meets exactly the cells [l] and
    then the null index. *)
Fixpoint linked (next : Z → option Z) (h : Z) (l : list Z) : Prop :=
  match l with
  | [] => h = FM_NULL_SLOT
  | x :: l' => h = x ∧ 0 ≤ x ∧ ∃ n, next x = Some n ∧ linked next n l'
  end.

(** * Lemmas on the monad *)

Lemma bind_Ret {S A B} (m : M S A) (f : A → M S B) s a s' :
  m s = Ret (a, s') → (m ≫= f) s = f a s'.
Proof. intros H. unfold mbind, M_bind. by rewrite H. Qed.

Lemma bind_inv {S A B} (m : M S A) (f : A → M S B) s r : (m ≫= f) s = Ret r → ∃ a s1, m s = Ret (a, s1) ∧ f a s1 = Ret r.
Proof. unfold mbind, M_bind. destruct (m s) as [[a s1]| |]; [|done|done]. intros H. by exists a, s1. Qed.

Lemma wp_ret {S A} (a : A) (Q : A → S → Prop) s : Q a s → wp (mret a) Q s.
Proof. intros H. by exists a, s. Qed.

Lemma wp_bind {S A B} (m : M S A) (f : A → M S B) Q s :
  wp m (λ a s', wp (f a) Q s') s → wp (m ≫= f) Q s.
Proof.
  intros (a & s' & Hm & b & s'' & Hf & HQ). exists b, s''. split; [|done].
  by rewrite (bind_Ret _ _ _ _ _ Hm).
Qed.

Lemma wp_same {S A} (m m' : M S A) Q s : m s = m' s → wp m' Q s → wp m Q s.
Proof. unfold wp. by intros ->. Qed.
Lemma wp_mono {S A} (m : M S A) (Q R : A → S → Prop) s :
  wp m Q s → (∀ a s', Q a s' → R a s') → wp m R s.
Proof. intros (a & s' & Hm & HQ) HR. exists a, s'. auto. Qed.

Lemma wp_run {S A} (m : M S A) (Q : A → S → Prop) s a s' :
  m s = Ret (a, s') → Q a s' → wp m Q s.
Proof. intros ??. by exists a, s'. Qed.

Lemma wp_inv {S A} (m : M S A) (Q : A → S → Prop) s a s' :
  wp m Q s → m s = Ret (a, s') → Q a s'.
Proof. intros (b & t & H1 & HQ) H2. rewrite H1 in H2. by simplify_eq. Qed.

(** [wp_step H]: execute the first action, whose result is given by the equation [H]. *)
Ltac wp_step H := apply wp_bind; eapply wp_run; [eapply H|cbv beta].
(** [wp_use H]: execute the first action by its specification [H], and continue. *)
Ltac wp_use H := apply wp_bind; eapply wp_mono; [eapply H|cbv beta].

(** * Steps that may wait *)

(** [safe B m Q s]: [m] from [s] returns with [Q], or waits and [B] holds; it is not undefined. *)
Definition safe {S A} (B : Prop) (m : M S A) (Q : A → S → Prop) (s : S) : Prop :=
  match m s with Ret (a, s') => Q a s' | Ub => False | Hang => B end.

Lemma safe_wp {S A} B (m : M S A) Q s : wp m Q s → safe B m Q s.
Proof. intros (a & s' & E & H). unfold safe. by rewrite E. Qed.

Lemma safe_ret {S A} B (a : A) (Q : A → S → Prop) s : Q a s → safe B (mret a) Q s.
Proof. done. Qed.

Lemma safe_bind {S A C} B (m : M S A) (f : A → M S C) Q s : safe B m (λ a s', safe B (f a) Q s') s → safe B (m ≫= f) Q s.
Proof. unfold safe, mbind, M_bind. by destruct (m s) as [[a s']| |]. Qed.

Lemma safe_mono {S A} B (m : M S A) (Q R : A → S → Prop) s : safe B m Q s → (∀ a s', Q a s' → R a s') → safe B m R s.
Proof. unfold safe. destruct (m s) as [[a s']| |]; auto. Qed.

Lemma safe_run {S A} B (m : M S A) (Q : A → S → Prop) s a s' : m s = Ret (a, s') → Q a s' → safe B m Q s.
Proof. unfold safe. by intros ->. Qed.

Lemma safe_bind_then {S A B} P (m1 : M S B) (m2 : M S A) {C} (k : A → M S C) (Q : A → S → Prop) R s :
  safe P (m1;; m2) Q s → (∀ a s', Q a s' → safe P (k a) R s') → safe P (m1;; a ← m2; k a) R s.
Proof. unfold safe, mbind, M_bind. destruct (m1 s) as [[b s1]| |]; [|done..]. destruct (m2 s1) as [[a s2]| |]; naive_solver. Qed.

(** [safe_step H]: execute the first action by the equation [H]; [safe_use H]: by its
    specification. *)
Ltac safe_step H := apply safe_bind; eapply safe_run; [eapply H|cbv beta].
Ltac safe_use H := apply safe_bind; eapply safe_mono; [eapply H|cbv beta].

(** * Lemmas on integers *)

Lemma u32_small x : 0 ≤ x < 2 ^ 32 → u32 x = x.
Proof. intros. unfold u32. by apply Z.mod_small. Qed.

Lemma u64_small x : 0 ≤ x < 2 ^ 64 → u64 x = x.
Proof. intros. unfold u64. by apply Z.mod_small. Qed.

Lemma u16_small x : 0 ≤ x < 2 ^ 16 → u16 x = x.
Proof. intros. unfold u16. by apply Z.mod_small. Qed.

Lemma i32_small x : - 2 ^ 31 ≤ x < 2 ^ 31 → i32 x = x.
Proof. intros. unfold i32. rewrite Z.mod_small; lia. Qed.

Lemma u32_bound x : 0 ≤ u32 x < 2 ^ 32.
Proof. unfold u32. apply Z.mod_pos_bound. lia. Qed.

Lemma u64_bound x : 0 ≤ u64 x < 2 ^ 64.
Proof. unfold u64. apply Z.mod_pos_bound. lia. Qed.

(** Masking with [2^n - 1] is reduction modulo [2^n]. *)
Lemma land_pow2_mask x n : 0 ≤ n → Z.land x (2 ^ n - 1) = x mod 2 ^ n.
Proof.
  intros. replace (2 ^ n - 1) with (Z.ones n) by (rewrite Z.ones_equiv; lia).
  by apply Z.land_ones.
Qed.

Lemma land_1 x : Z.land x 1 = x mod 2.
Proof. by apply (land_pow2_mask x 1). Qed.

Lemma u32_mod2 x : u32 x mod 2 = x mod 2.
Proof. unfold u32. apply Z.mod_mod_divide. by exists (2 ^ 31). Qed.

(** * Lemmas on lists *)

(** A list of distinct integers below [n] has at most [n] elements. *)
Lemma NoDup_bounded_length (l : list Z) (n : Z) :
  NoDup l → (∀ x, x ∈ l → 0 ≤ x < n) → Z.of_nat (length l) ≤ Z.max 0 n.
Proof.
  intros Hnd Hb.
  assert (Hsub : l ⊆ seqZ 0 n) by (intros x Hx; apply elem_of_seqZ; specialize (Hb x Hx); lia).
  pose proof (submseteq_length _ _ (NoDup_submseteq _ _ Hnd Hsub)) as Hl.
  rewrite length_seqZ in Hl. lia.
Qed.

Lemma linked_ext next next' h l :
  (∀ x, x ∈ l → next' x = next x) → linked next h l → linked next' h l.
Proof.
  revert h. induction l as [|x l IH]; intros h Hn Hl; [done|].
  destruct Hl as (-> & Hx & n & Hnx & Hl). split_and!; [done|done|].
  exists n. rewrite Hn by set_solver. split; [done|]. apply IH; [|done]. set_solver.
Qed.

(** The list a head reaches is determined by the head. *)
Lemma linked_det next h l1 l2 : linked next h l1 → linked next h l2 → l1 = l2.
Proof.
  revert h l2. induction l1 as [|x l1 IH]; intros h [|y l2] H1 H2; simpl in *.
  - done.
  - destruct H2 as (-> & Hy & _). unfold FM_NULL_SLOT in *. lia.
  - destruct H1 as (-> & Hy & _). unfold FM_NULL_SLOT in *. lia.
  - destruct H1 as (-> & _ & n & Hn & H1), H2 as (<- & _ & n' & Hn' & H2).
    simplify_eq. f_equal. by eapply IH.
Qed.

Lemma linked_nonneg next h l x : linked next h l → x ∈ l → 0 ≤ x.
Proof.
  revert h. induction l as [|y l IH]; intros h Hl Hx; [by apply elem_of_nil in Hx|].
  destruct Hl as (-> & Hy & n & _ & Hl). apply elem_of_cons in Hx as [->|Hx]; [done|].
  by eapply IH.
Qed.

Lemma linked_head_null next l : linked next FM_NULL_SLOT l ↔ l = [].
Proof.
  split; [|by intros ->].
  destruct l as [|x l]; [done|]. intros (<- & Hx & _). unfold FM_NULL_SLOT in *. lia.
Qed.

Lemma linked_head_cons next h l :
  linked next h l → h ≠ FM_NULL_SLOT → ∃ n l', l = h :: l' ∧ 0 ≤ h ∧ next h = Some n ∧ linked next n l'.
Proof.
  destruct l as [|x l]; [done|]. intros (-> & Hx & n & Hn & Hl) _. by exists n, l.
Qed.

Lemma linked_suffix next h l1 x l2 :
  linked next h (l1 ++ x :: l2) → ∃ n, next x = Some n ∧ linked next n l2.
Proof.
  revert h. induction l1 as [|y l1 IH]; intros h; simpl.
  - intros (_ & _ & n & ? & ?). by exists n.
  - intros (_ & _ & n & _ & Hl). by eapply IH.
Qed.

Lemma linked_next_Some next h l x : linked next h l → x ∈ l → is_Some (next x).
Proof.
  intros Hl (l1 & l2 & ->)%list_elem_of_split. destruct (linked_suffix _ _ _ _ _ Hl) as (n & ? & _).
  by exists n.
Qed.

#[export] Hint Resolve u32_bound u64_bound : core.

Create HintDb fm discriminated.
Create Rewrite HintDb fm.
