(* ===== verification/CoreState.v ===== *)
(** State of the concurrency core (src/fm_core.h): slots, chunks, hash keys and the share,
    with the address computations of the source ([fm_slot], [fm_key_next], [fm_bucket]) as
    partial accessors, the matching updates, and the laws that relate them. *)

From S2P Require Import Prelude.

(** * Constants and codes *)

Abbreviation bytes := (list Z).

Definition FM_CHUNK_SHIFT : Z := 12.
Definition FM_CHUNK_SIZE : Z := Z.shiftl 1 FM_CHUNK_SHIFT.
Definition FM_MAX_CHANGED_KEYS : Z := 64.

Inductive fm_err :=
| FM_ERR_OK
| FM_ERR_NOT_FOUND
| FM_ERR_EOF
| FM_ERR_DELETED
| FM_ERR_DUP_KEY
| FM_ERR_FULL
| FM_ERR_NOMEM
| FM_ERR_WRONG_KEY.

Inductive fm_slot_state :=
| FM_SLOT_FREE
| FM_SLOT_ACTIVE
| FM_SLOT_DELETED
| FM_SLOT_DELETING.

#[export] Instance fm_err_eq_dec : EqDecision fm_err.
Proof. solve_decision. Defined.
#[export] Instance fm_slot_state_eq_dec : EqDecision fm_slot_state.
Proof. solve_decision. Defined.

(** * Data *)

(** The record image is part of the slot; [] stands for the uninitialised bytes that
    [alloc] returns. *)
Record FM_SLOT := mkSlot {
  state : fm_slot_state;
  wlock : Z;
  seq : Z;
  gen : Z;
  free_next : Z;
  data : bytes
}.

Definition FM_SLOT_new : FM_SLOT :=
  {| state := FM_SLOT_FREE; wlock := 0; seq := 0; gen := 0; free_next := FM_NULL_SLOT;
     data := [] |}.

Definition sizeof_FM_SLOT : Z := 16.
Definition FM_SLOT_DATA_OFFSET : Z := Z.land (sizeof_FM_SLOT + 7) (Z.lnot 7).
Definition sizeof_FM_CHUNK : Z := 16.
Definition sizeof_FM_KEY_CORE : Z := 72.
Definition sizeof_fm_i32 : Z := 4.
Definition sizeof_FM_SPIN : Z := 1.
Definition sizeof_ptr : Z := 8.

(** The callbacks; a null function pointer is [None]. *)
Record FM_KEY_OPS := mkOps {
  hash_rec : option (bytes → Z);
  hash_key : option (bytes → Z);
  cmp_rec_rec : option (bytes → bytes → Z);
  cmp_rec_key : option (bytes → bytes → Z);
  has_null_part : option (bytes → Z)
}.

Definition FM_KEY_OPS_zero : FM_KEY_OPS := mkOps None None None None None.

(** A pointer to a heap block is the block's number paired with the block's contents. *)
Record FM_KEY_CORE := mkKey {
  ops : FM_KEY_OPS;
  unique : bool;
  nbuckets : Z;
  head : option (nat * list Z);
  locks : option (nat * list Z)
}.

Record FM_CHUNK := mkChunk {
  slots : option (nat * list FM_SLOT);
  key_next : option (nat * list (nat * list Z))
}.

(** The allocator behind [FM_SHARE_CORE_OPS]: a block is named by the number of the
    allocation that returned it. *)
Record Heap := mkHeap { calls : nat; live : gset nat }.

(** [ops_alloc n size] says whether the [n]-th allocation, of [size] bytes, succeeds. *)
Record FM_SHARE_CORE := mkShare {
  ops_alloc : nat → Z → bool;
  heap : Heap;
  reclength : Z;
  slot_size : Z;
  keys : Z;
  max_records : Z;
  chunk_cap : Z;
  chunks : option (nat * list FM_CHUNK);
  chunk_cnt : Z;
  free_head : Z;
  records : Z;
  struct_mutex : Z;
  keydef : option (nat * list FM_KEY_CORE);
  auto_inc : Z;
  auto_key : Z;
  auto_key_type : Z
}.

(** * Field updates *)

Definition sl_with_state (v : fm_slot_state) (l : FM_SLOT) : FM_SLOT :=
  mkSlot v (l.(wlock)) (l.(seq)) (l.(gen)) (l.(free_next)) (l.(data)).
Definition sl_with_wlock (v : Z) (l : FM_SLOT) : FM_SLOT :=
  mkSlot (l.(state)) v (l.(seq)) (l.(gen)) (l.(free_next)) (l.(data)).
Definition sl_with_seq (v : Z) (l : FM_SLOT) : FM_SLOT :=
  mkSlot (l.(state)) (l.(wlock)) v (l.(gen)) (l.(free_next)) (l.(data)).
Definition sl_with_gen (v : Z) (l : FM_SLOT) : FM_SLOT :=
  mkSlot (l.(state)) (l.(wlock)) (l.(seq)) v (l.(free_next)) (l.(data)).
Definition sl_with_free_next (v : Z) (l : FM_SLOT) : FM_SLOT :=
  mkSlot (l.(state)) (l.(wlock)) (l.(seq)) (l.(gen)) v (l.(data)).
Definition sl_with_data (v : bytes) (l : FM_SLOT) : FM_SLOT :=
  mkSlot (l.(state)) (l.(wlock)) (l.(seq)) (l.(gen)) (l.(free_next)) v.

Definition kc_with_head (v : option (nat * list Z)) (k : FM_KEY_CORE) : FM_KEY_CORE :=
  mkKey (k.(ops)) (k.(unique)) (k.(nbuckets)) v (k.(locks)).
Definition kc_with_locks (v : option (nat * list Z)) (k : FM_KEY_CORE) : FM_KEY_CORE :=
  mkKey (k.(ops)) (k.(unique)) (k.(nbuckets)) (k.(head)) v.

Definition with_heap (v : Heap) (s : FM_SHARE_CORE) : FM_SHARE_CORE :=
  mkShare
    s.(ops_alloc) v s.(reclength) s.(slot_size) s.(keys) s.(max_records) s.(chunk_cap)
    s.(chunks) s.(chunk_cnt) s.(free_head) s.(records) s.(struct_mutex) s.(keydef)
    s.(auto_inc) s.(auto_key) s.(auto_key_type).
Definition with_chunks (v : option (nat * list FM_CHUNK)) (s : FM_SHARE_CORE) : FM_SHARE_CORE :=
  mkShare
    s.(ops_alloc) s.(heap) s.(reclength) s.(slot_size) s.(keys) s.(max_records)
    s.(chunk_cap) v s.(chunk_cnt) s.(free_head) s.(records) s.(struct_mutex) s.(keydef)
    s.(auto_inc) s.(auto_key) s.(auto_key_type).
Definition with_chunk_cnt (v : Z) (s : FM_SHARE_CORE) : FM_SHARE_CORE :=
  mkShare
    s.(ops_alloc) s.(heap) s.(reclength) s.(slot_size) s.(keys) s.(max_records)
    s.(chunk_cap) s.(chunks) v s.(free_head) s.(records) s.(struct_mutex) s.(keydef)
    s.(auto_inc) s.(auto_key) s.(auto_key_type).
Definition with_free_head (v : Z) (s : FM_SHARE_CORE) : FM_SHARE_CORE :=
  mkShare
    s.(ops_alloc) s.(heap) s.(reclength) s.(slot_size) s.(keys) s.(max_records)
    s.(chunk_cap) s.(chunks) s.(chunk_cnt) v s.(records) s.(struct_mutex) s.(keydef)
    s.(auto_inc) s.(auto_key) s.(auto_key_type).
Definition with_records (v : Z) (s : FM_SHARE_CORE) : FM_SHARE_CORE :=
  mkShare
    s.(ops_alloc) s.(heap) s.(reclength) s.(slot_size) s.(keys) s.(max_records)
    s.(chunk_cap) s.(chunks) s.(chunk_cnt) s.(free_head) v s.(struct_mutex) s.(keydef)
    s.(auto_inc) s.(auto_key) s.(auto_key_type).
Definition with_struct_mutex (v : Z) (s : FM_SHARE_CORE) : FM_SHARE_CORE :=
  mkShare
    s.(ops_alloc) s.(heap) s.(reclength) s.(slot_size) s.(keys) s.(max_records)
    s.(chunk_cap) s.(chunks) s.(chunk_cnt) s.(free_head) s.(records) v s.(keydef)
    s.(auto_inc) s.(auto_key) s.(auto_key_type).
Definition with_keydef (v : option (nat * list FM_KEY_CORE)) (s : FM_SHARE_CORE) : FM_SHARE_CORE :=
  mkShare
    s.(ops_alloc) s.(heap) s.(reclength) s.(slot_size) s.(keys) s.(max_records)
    s.(chunk_cap) s.(chunks) s.(chunk_cnt) s.(free_head) s.(records) s.(struct_mutex) v
    s.(auto_inc) s.(auto_key) s.(auto_key_type).
Definition with_auto_inc (v : Z) (s : FM_SHARE_CORE) : FM_SHARE_CORE :=
  mkShare
    s.(ops_alloc) s.(heap) s.(reclength) s.(slot_size) s.(keys) s.(max_records)
    s.(chunk_cap) s.(chunks) s.(chunk_cnt) s.(free_head) s.(records) s.(struct_mutex)
    s.(keydef) v s.(auto_key) s.(auto_key_type).

(** * Address computations *)

Definition fm_align8 (x : Z) : Z := Z.land (u32 (x + 7)) (u32 (Z.lnot 7)).

(** Array access with a C index: a negative index is out of range. *)
Definition arr_get {A} (l : list A) (i : Z) : option A :=
  if decide (0 ≤ i) then l !! Z.to_nat i else None.
Definition arr_upd {A} (f : A → A) (i : Z) (l : list A) : list A :=
  if decide (0 ≤ i) then alter f (Z.to_nat i) l else l.

Definition chunk_at (s : FM_SHARE_CORE) (c : Z) : option FM_CHUNK :=
  p ← chunks s; arr_get p.2 c.

(** [fm_slot]: [chunks[idx >> FM_CHUNK_SHIFT].slots + (idx & (FM_CHUNK_SIZE - 1)) * slot_size]. *)
Definition fm_slot (s : FM_SHARE_CORE) (idx : Z) : option FM_SLOT :=
  c ← chunk_at s (Z.shiftr idx FM_CHUNK_SHIFT);
  p ← slots c;
  arr_get p.2 (Z.land idx (FM_CHUNK_SIZE - 1)).

(** [fm_key_next]: [chunks[idx >> FM_CHUNK_SHIFT].key_next[key][idx & (FM_CHUNK_SIZE - 1)]]. *)
Definition fm_key_next (s : FM_SHARE_CORE) (key idx : Z) : option Z :=
  c ← chunk_at s (Z.shiftr idx FM_CHUNK_SHIFT);
  p ← key_next c;
  q ← arr_get p.2 key;
  arr_get q.2 (Z.land idx (FM_CHUNK_SIZE - 1)).

Definition key_at (s : FM_SHARE_CORE) (k : Z) : option FM_KEY_CORE :=
  p ← keydef s; arr_get p.2 k.

Definition head_at (s : FM_SHARE_CORE) (k b : Z) : option Z :=
  kc ← key_at s k; p ← head kc; arr_get p.2 b.

Definition lock_at (s : FM_SHARE_CORE) (k b : Z) : option Z :=
  kc ← key_at s k; p ← locks kc; arr_get p.2 b.

Definition fm_bucket (k : FM_KEY_CORE) (hash : Z) : Z := Z.land hash (nbuckets k - 1).

Definition fm_core_slot_count (s : FM_SHARE_CORE) : Z :=
  u32 (Z.shiftl (chunk_cnt s) FM_CHUNK_SHIFT).

(** The byte address that [fm_slot] computes inside a chunk, at the widths of the source:
    the 32-bit product of the slot number in the chunk and the stride. *)
Definition fm_slot_offset (s : FM_SHARE_CORE) (idx : Z) : Z :=
  u32 (Z.land idx (FM_CHUNK_SIZE - 1) * slot_size s).

(** * Updates through the same addresses *)

Definition upd_chunk (f : FM_CHUNK → FM_CHUNK) (c : Z) (s : FM_SHARE_CORE) : FM_SHARE_CORE :=
  with_chunks (prod_map id (arr_upd f c) <$> chunks s) s.

Definition upd_slot (f : FM_SLOT → FM_SLOT) (idx : Z) (s : FM_SHARE_CORE) : FM_SHARE_CORE :=
  upd_chunk (λ c, mkChunk (prod_map id (arr_upd f (Z.land idx (FM_CHUNK_SIZE - 1))) <$> slots c)
                          (key_next c))
    (Z.shiftr idx FM_CHUNK_SHIFT) s.

Definition upd_next (v key idx : Z) (s : FM_SHARE_CORE) : FM_SHARE_CORE :=
  upd_chunk (λ c, mkChunk (slots c)
      (prod_map id (arr_upd
         (prod_map id (arr_upd (λ _, v) (Z.land idx (FM_CHUNK_SIZE - 1)))) key) <$> key_next c))
    (Z.shiftr idx FM_CHUNK_SHIFT) s.

Definition upd_key (f : FM_KEY_CORE → FM_KEY_CORE) (k : Z) (s : FM_SHARE_CORE) : FM_SHARE_CORE :=
  with_keydef (prod_map id (arr_upd f k) <$> keydef s) s.

Definition upd_head (v k b : Z) (s : FM_SHARE_CORE) : FM_SHARE_CORE :=
  upd_key (λ kc, kc_with_head (prod_map id (arr_upd (λ _, v) b) <$> head kc) kc) k s.

Definition upd_lock (v k b : Z) (s : FM_SHARE_CORE) : FM_SHARE_CORE :=
  upd_key (λ kc, kc_with_locks (prod_map id (arr_upd (λ _, v) b) <$> locks kc) kc) k s.

(** The part of a key definition that no row operation changes. *)
Definition key_cfg (s : FM_SHARE_CORE) (k : Z) : option (FM_KEY_OPS * bool * Z) :=
  (λ kc, (ops kc, unique kc, nbuckets kc)) <$> key_at s k.

(** * Laws: arrays *)

Section arrays.
Context {A : Type}.
Implicit Types (l : list A) (f : A → A).

Lemma arr_get_range l i a : arr_get l i = Some a → 0 ≤ i < Z.of_nat (length l).
Proof.
  unfold arr_get. case_decide; [|done]. intros Hl%lookup_lt_Some. lia.
Qed.

Lemma arr_get_Some_range l i : 0 ≤ i < Z.of_nat (length l) → is_Some (arr_get l i).
Proof.
  intros. unfold arr_get. rewrite decide_True by lia. apply lookup_lt_is_Some. lia.
Qed.

Lemma arr_get_upd_eq l f i : arr_get (arr_upd f i l) i = f <$> arr_get l i.
Proof.
  unfold arr_get, arr_upd. case_decide; [|done]. apply list_lookup_alter_eq.
Qed.

Lemma arr_get_upd_ne l f i j : i ≠ j → arr_get (arr_upd f i l) j = arr_get l j.
Proof.
  intros. unfold arr_get, arr_upd. repeat case_decide; try done.
  apply list_lookup_alter_ne. lia.
Qed.

Lemma length_arr_upd f i l : length (arr_upd f i l) = length l.
Proof. unfold arr_upd. case_decide; [|done]. apply length_alter. Qed.

Lemma arr_get_replicate n (x : A) i : 0 ≤ i < n → arr_get (replicate (Z.to_nat n) x) i = Some x.
Proof.
  intros. unfold arr_get. rewrite decide_True by lia. apply lookup_replicate_2. lia.
Qed.
End arrays.

(** * Laws: chunk and slot numbers *)

Lemma FM_CHUNK_SIZE_eq : FM_CHUNK_SIZE = 4096.
Proof. reflexivity. Qed.

Lemma shiftr_chunk i : Z.shiftr i FM_CHUNK_SHIFT = i / 4096.
Proof. unfold FM_CHUNK_SHIFT. by rewrite Z.shiftr_div_pow2 by lia. Qed.

Lemma land_chunk i : Z.land i (FM_CHUNK_SIZE - 1) = i mod 4096.
Proof. rewrite FM_CHUNK_SIZE_eq. by apply (land_pow2_mask i 12). Qed.

Lemma chunk_addr_inj i j :
  Z.shiftr i FM_CHUNK_SHIFT = Z.shiftr j FM_CHUNK_SHIFT →
  Z.land i (FM_CHUNK_SIZE - 1) = Z.land j (FM_CHUNK_SIZE - 1) → i = j.
Proof.
  rewrite !shiftr_chunk, !land_chunk. intros.
  rewrite (Z.div_mod i 4096), (Z.div_mod j 4096) by lia. lia.
Qed.

(** * Laws: accessors after updates *)

Lemma chunk_at_upd_eq f c s : chunk_at (upd_chunk f c s) c = f <$> chunk_at s c.
Proof.
  unfold chunk_at, upd_chunk. simpl. destruct (chunks s) as [[? cs]|]; simpl; [|done].
  apply arr_get_upd_eq.
Qed.

Lemma chunk_at_upd_ne f c c' s : c ≠ c' → chunk_at (upd_chunk f c s) c' = chunk_at s c'.
Proof.
  intros. unfold chunk_at, upd_chunk. simpl. destruct (chunks s) as [[? cs]|]; simpl; [|done].
  by apply arr_get_upd_ne.
Qed.

Lemma key_at_upd_eq f k s : key_at (upd_key f k s) k = f <$> key_at s k.
Proof.
  unfold key_at, upd_key. simpl. destruct (keydef s) as [[? ks]|]; simpl; [|done].
  apply arr_get_upd_eq.
Qed.

Lemma key_at_upd_ne f k k' s : k ≠ k' → key_at (upd_key f k s) k' = key_at s k'.
Proof.
  intros. unfold key_at, upd_key. simpl. destruct (keydef s) as [[? ks]|]; simpl; [|done].
  by apply arr_get_upd_ne.
Qed.

Lemma fm_slot_upd_eq f i s : fm_slot (upd_slot f i s) i = f <$> fm_slot s i.
Proof.
  unfold fm_slot, upd_slot. rewrite chunk_at_upd_eq.
  destruct (chunk_at s _) as [[[[? sl]|] kn]|]; simpl; [|done|done]. apply arr_get_upd_eq.
Qed.

Lemma fm_slot_upd_ne f i j s : i ≠ j → fm_slot (upd_slot f i s) j = fm_slot s j.
Proof.
  intros Hij. unfold fm_slot, upd_slot.
  destruct (decide (Z.shiftr i FM_CHUNK_SHIFT = Z.shiftr j FM_CHUNK_SHIFT)) as [Hc|Hc].
  - rewrite <-Hc, chunk_at_upd_eq.
    destruct (chunk_at s _) as [[[[? sl]|] kn]|]; simpl; [|done|done].
    apply arr_get_upd_ne. intros ?. by apply Hij, chunk_addr_inj.
  - by rewrite chunk_at_upd_ne.
Qed.

Lemma fm_slot_upd_next v k i j s : fm_slot (upd_next v k i s) j = fm_slot s j.
Proof.
  unfold fm_slot, upd_next.
  destruct (decide (Z.shiftr i FM_CHUNK_SHIFT = Z.shiftr j FM_CHUNK_SHIFT)) as [Hc|Hc].
  - rewrite <-Hc, chunk_at_upd_eq. by destruct (chunk_at s _).
  - by rewrite chunk_at_upd_ne.
Qed.

Lemma fm_key_next_upd_slot f i k j s : fm_key_next (upd_slot f i s) k j = fm_key_next s k j.
Proof.
  unfold fm_key_next, upd_slot.
  destruct (decide (Z.shiftr i FM_CHUNK_SHIFT = Z.shiftr j FM_CHUNK_SHIFT)) as [Hc|Hc].
  - rewrite <-Hc, chunk_at_upd_eq. by destruct (chunk_at s _).
  - by rewrite chunk_at_upd_ne.
Qed.

Lemma fm_key_next_upd_eq v k i s : fm_key_next (upd_next v k i s) k i = (λ _, v) <$> fm_key_next s k i.
Proof.
  unfold fm_key_next, upd_next. rewrite chunk_at_upd_eq.
  destruct (chunk_at s _) as [[sl [[? kn]|]]|]; simpl; [|done|done].
  rewrite arr_get_upd_eq. destruct (arr_get kn k) as [[? nx]|]; simpl; [|done].
  apply arr_get_upd_eq.
Qed.

Lemma fm_key_next_upd_ne v k i k' j s :
  (k, i) ≠ (k', j) → fm_key_next (upd_next v k i s) k' j = fm_key_next s k' j.
Proof.
  intros Hne. unfold fm_key_next, upd_next.
  destruct (decide (Z.shiftr i FM_CHUNK_SHIFT = Z.shiftr j FM_CHUNK_SHIFT)) as [Hc|Hc];
    [|by rewrite chunk_at_upd_ne].
  rewrite <-Hc, chunk_at_upd_eq.
  destruct (chunk_at s _) as [[sl [[? kn]|]]|]; simpl; [|done|done].
  destruct (decide (k = k')) as [->|Hk]; [|by rewrite arr_get_upd_ne].
  rewrite arr_get_upd_eq. destruct (arr_get kn k') as [[? nx]|]; simpl; [|done].
  apply arr_get_upd_ne. intros ?. apply Hne. f_equal. by apply chunk_addr_inj.
Qed.

Lemma head_at_upd_eq v k b s : head_at (upd_head v k b s) k b = (λ _, v) <$> head_at s k b.
Proof.
  unfold head_at, upd_head. rewrite key_at_upd_eq.
  destruct (key_at s k) as [[o u n [[? hd]|] lk]|]; simpl; [|done|done]. apply arr_get_upd_eq.
Qed.

Lemma head_at_upd_ne v k b k' b' s :
  (k, b) ≠ (k', b') → head_at (upd_head v k b s) k' b' = head_at s k' b'.
Proof.
  intros Hne. unfold head_at, upd_head.
  destruct (decide (k = k')) as [->|Hk]; [|by rewrite key_at_upd_ne].
  rewrite key_at_upd_eq. destruct (key_at s k') as [[o u n [[? hd]|] lk]|]; simpl; [|done|done].
  apply arr_get_upd_ne. congruence.
Qed.

Lemma lock_at_upd_eq v k b s : lock_at (upd_lock v k b s) k b = (λ _, v) <$> lock_at s k b.
Proof.
  unfold lock_at, upd_lock. rewrite key_at_upd_eq.
  destruct (key_at s k) as [[o u n hd [[? lk]|]]|]; simpl; [|done|done]. apply arr_get_upd_eq.
Qed.

Lemma lock_at_upd_ne v k b k' b' s :
  (k, b) ≠ (k', b') → lock_at (upd_lock v k b s) k' b' = lock_at s k' b'.
Proof.
  intros Hne. unfold lock_at, upd_lock.
  destruct (decide (k = k')) as [->|Hk]; [|by rewrite key_at_upd_ne].
  rewrite key_at_upd_eq. destruct (key_at s k') as [[o u n hd [[? lk]|]]|]; simpl; [|done|done].
  apply arr_get_upd_ne. congruence.
Qed.

Lemma head_at_upd_lock v k b k' b' s : head_at (upd_lock v k b s) k' b' = head_at s k' b'.
Proof.
  unfold head_at, upd_lock. destruct (decide (k = k')) as [->|Hk]; [|by rewrite key_at_upd_ne].
  rewrite key_at_upd_eq. by destruct (key_at s k') as [[]|].
Qed.

Lemma lock_at_upd_head v k b k' b' s : lock_at (upd_head v k b s) k' b' = lock_at s k' b'.
Proof.
  unfold lock_at, upd_head. destruct (decide (k = k')) as [->|Hk]; [|by rewrite key_at_upd_ne].
  rewrite key_at_upd_eq. by destruct (key_at s k') as [[]|].
Qed.

Lemma key_cfg_upd_head v k b k' s : key_cfg (upd_head v k b s) k' = key_cfg s k'.
Proof.
  unfold key_cfg, upd_head. destruct (decide (k = k')) as [->|Hk]; [|by rewrite key_at_upd_ne].
  rewrite key_at_upd_eq. by destruct (key_at s k') as [[]|].
Qed.

Lemma key_cfg_upd_lock v k b k' s : key_cfg (upd_lock v k b s) k' = key_cfg s k'.
Proof.
  unfold key_cfg, upd_lock. destruct (decide (k = k')) as [->|Hk]; [|by rewrite key_at_upd_ne].
  rewrite key_at_upd_eq. by destruct (key_at s k') as [[]|].
Qed.

Lemma fm_slot_upd f i j s :
  fm_slot (upd_slot f i s) j = if decide (i = j) then f <$> fm_slot s j else fm_slot s j.
Proof. case_decide as Hd; [subst; apply fm_slot_upd_eq|by apply fm_slot_upd_ne]. Qed.

Lemma fm_key_next_upd v k i k' j s :
  fm_key_next (upd_next v k i s) k' j =
  if decide ((k, i) = (k', j)) then (λ _, v) <$> fm_key_next s k' j else fm_key_next s k' j.
Proof. case_decide as Hd; [simplify_eq; apply fm_key_next_upd_eq|by apply fm_key_next_upd_ne]. Qed.

Lemma head_at_upd v k b k' b' s :
  head_at (upd_head v k b s) k' b' =
  if decide ((k, b) = (k', b')) then (λ _, v) <$> head_at s k' b' else head_at s k' b'.
Proof. case_decide as Hd; [simplify_eq; apply head_at_upd_eq|by apply head_at_upd_ne]. Qed.

Lemma lock_at_upd v k b k' b' s :
  lock_at (upd_lock v k b s) k' b' =
  if decide ((k, b) = (k', b')) then (λ _, v) <$> lock_at s k' b' else lock_at s k' b'.
Proof. case_decide as Hd; [simplify_eq; apply lock_at_upd_eq|by apply lock_at_upd_ne]. Qed.

Lemma chunk_at_is_Some_upd f c c' s : is_Some (chunk_at (upd_chunk f c s) c') ↔ is_Some (chunk_at s c').
Proof.
  destruct (decide (c = c')) as [->|Hc]; [|by rewrite chunk_at_upd_ne].
  rewrite chunk_at_upd_eq. apply fmap_is_Some.
Qed.

Lemma key_cfg_key_at s k kc : key_at s k = Some kc → key_cfg s k = Some (ops kc, unique kc, nbuckets kc).
Proof. unfold key_cfg. by intros ->. Qed.

(** * Frame reasoning *)

(** The observations of a share that the development uses. *)
Ltac is_getter g :=
  lazymatch g with
  | fm_slot => idtac | fm_key_next => idtac | head_at => idtac | lock_at => idtac
  | key_cfg => idtac | key_at => idtac | chunk_at => idtac
  | free_head => idtac | records => idtac | struct_mutex => idtac | chunk_cnt => idtac
  | reclength => idtac | slot_size => idtac | keys => idtac | max_records => idtac
  | chunk_cap => idtac | ops_alloc => idtac | heap => idtac | auto_inc => idtac
  | auto_key => idtac | auto_key_type => idtac | chunks => idtac | keydef => idtac
  end.

(** [fm_frame]: drop the updates that an observation does not depend on. *)
Ltac fm_frame_one :=
  match goal with
  | |- context [?g (with_free_head ?v ?s)] =>
      is_getter g; first [change (g (with_free_head v s)) with (g s)
                         |change (g (with_free_head v s)) with v]
  | |- context [?g (with_records ?v ?s)] =>
      is_getter g; first [change (g (with_records v s)) with (g s)
                         |change (g (with_records v s)) with v]
  | |- context [?g (with_struct_mutex ?v ?s)] =>
      is_getter g; first [change (g (with_struct_mutex v s)) with (g s)
                         |change (g (with_struct_mutex v s)) with v]
  | |- context [?g (with_heap ?v ?s)] =>
      is_getter g; first [change (g (with_heap v s)) with (g s)
                         |change (g (with_heap v s)) with v]
  | |- context [?g (with_chunk_cnt ?v ?s)] =>
      is_getter g; first [change (g (with_chunk_cnt v s)) with (g s)
                         |change (g (with_chunk_cnt v s)) with v]
  | |- context [?g (with_auto_inc ?v ?s)] =>
      is_getter g; first [change (g (with_auto_inc v s)) with (g s)
                         |change (g (with_auto_inc v s)) with v]
  | |- context [?g (upd_slot ?f ?i ?s)] =>
      is_getter g; change (g (upd_slot f i s)) with (g s)
  | |- context [?g (upd_next ?v ?k ?i ?s)] =>
      is_getter g; change (g (upd_next v k i s)) with (g s)
  | |- context [?g (upd_head ?v ?k ?b ?s)] =>
      is_getter g; change (g (upd_head v k b s)) with (g s)
  | |- context [?g (upd_lock ?v ?k ?b ?s)] =>
      is_getter g; change (g (upd_lock v k b s)) with (g s)
  | |- context [?g (upd_chunk ?f ?c ?s)] =>
      is_getter g; change (g (upd_chunk f c s)) with (g s)
  end.

#[export] Hint Rewrite fm_slot_upd_next fm_key_next_upd_slot head_at_upd_lock lock_at_upd_head
  key_cfg_upd_head key_cfg_upd_lock : fm.

Ltac fm_frame := repeat first [progress autorewrite with fm | fm_frame_one].
