(* ===== verification/CoreOps.v ===== *)
(** Operations of the concurrency core (src/fm_core.h), one definition per function of the
    header, run by one thread with nobody else between two of its steps: a spinlock that is
    already held, and a seqlock word that stays odd, then make the operation [Hang]. *)

From S2P Require Import Prelude CoreState.

Abbreviation SM := (M FM_SHARE_CORE).

(** * Memory accesses *)

Definition deref_slot (idx : Z) : SM FM_SLOT := s ← get; unwrap (fm_slot s idx).
Definition store_slot (f : FM_SLOT → FM_SLOT) (idx : Z) : SM () :=
  _ ← deref_slot idx; modify (upd_slot f idx).
Definition deref_key (k : Z) : SM FM_KEY_CORE := s ← get; unwrap (key_at s k).
Definition deref_next (k idx : Z) : SM Z := s ← get; unwrap (fm_key_next s k idx).
Definition store_next (k idx v : Z) : SM () := _ ← deref_next k idx; modify (upd_next v k idx).
Definition deref_head (k b : Z) : SM Z := s ← get; unwrap (head_at s k b).
Definition store_head (k b v : Z) : SM () := _ ← deref_head k b; modify (upd_head v k b).

(** [memcpy] of [n] bytes out of [src]; reading past the source is undefined. *)
Definition memcpy (n : Z) (src : bytes) : option bytes :=
  if decide (n ≤ Z.of_nat (length src)) then Some (take (Z.to_nat n) src) else None.

(** * FM_SPIN *)

(** [lock]: spin on [exchange] until the old value is 0. *)
Definition wlock_lock (idx : Z) : SM () :=
  sl ← deref_slot idx;
  if decide (wlock sl = 0) then modify (upd_slot (sl_with_wlock 1) idx) else hang.
Definition wlock_unlock (idx : Z) : SM () := store_slot (sl_with_wlock 0) idx.

Definition bucket_lock (k b : Z) : SM () :=
  s ← get; v ← unwrap (lock_at s k b);
  if decide (v = 0) then modify (upd_lock 1 k b) else hang.
Definition bucket_unlock (k b : Z) : SM () :=
  s ← get; _ ← unwrap (lock_at s k b); modify (upd_lock 0 k b).

Definition struct_lock : SM () :=
  s ← get; if decide (struct_mutex s = 0) then modify (with_struct_mutex 1) else hang.
Definition struct_unlock : SM () := modify (with_struct_mutex 0).

(** * FM_SHARE_CORE_OPS: the allocator *)

Definition alloc (size : Z) : SM (option nat) := λ s,
  let n := calls (heap s) in
  if ops_alloc s n size
  then Ret (Some n, with_heap (mkHeap (S n) ({[ n ]} ∪ live (heap s))) s)
  else Ret (None, with_heap (mkHeap (S n) (live (heap s))) s).

(** Freeing a block that is not live is undefined. *)
Definition dealloc (p : nat) : SM () := λ s,
  if decide (p ∈ live (heap s))
  then Ret (tt, with_heap (mkHeap (calls (heap s)) (live (heap s) ∖ {[ p ]})) s)
  else Ub.

Definition dealloc_opt {A} (p : option (nat * A)) : SM () :=
  match p with Some q => dealloc q.1 | None => mret tt end.

(** * Share lifecycle *)

(** The fields of the share right after [memset] and the assignments that follow it. *)
Definition init_fields (alloc_ops : nat → Z → bool) (reclength_ keys_ max_records_ : Z)
    (s : FM_SHARE_CORE) : FM_SHARE_CORE :=
  let mr := if decide (max_records_ = 0) then 1 else max_records_ in
  {| ops_alloc := alloc_ops;
     heap := heap s;
     reclength := reclength_;
     slot_size := fm_align8 (u32 (FM_SLOT_DATA_OFFSET + reclength_));
     keys := keys_;
     max_records := mr;
     chunk_cap := u32 (mr + FM_CHUNK_SIZE - 1) / FM_CHUNK_SIZE;
     chunks := None;
     chunk_cnt := 0;
     free_head := FM_NULL_SLOT;
     records := 0;
     struct_mutex := 0;
     keydef := None;
     auto_inc := 0;
     auto_key := 0;
     auto_key_type := 0 |}.

Definition FM_KEY_CORE_zero : FM_KEY_CORE := mkKey FM_KEY_OPS_zero false 0 None None.

(** One iteration of the loop over the keys. *)
Definition init_key (nbuckets_ k : Z) : SM () :=
  let nb := if decide (nbuckets_ = 0) then 1024 else nbuckets_ in
  kc ← deref_key k;
  h ← alloc (sizeof_fm_i32 * nb);
  l ← alloc (sizeof_FM_SPIN * nb);
  match h, l with
  | Some ph, Some pl =>
      modify (upd_key (λ kc, mkKey (ops kc) (unique kc) nb
        (Some (ph, replicate (Z.to_nat nb) FM_NULL_SLOT))
        (Some (pl, replicate (Z.to_nat nb) 0))) k)
  | _, _ =>
      modify (upd_key (λ kc, mkKey (ops kc) (unique kc) nb
        ((λ p, (p, [])) <$> h) ((λ p, (p, [])) <$> l)) k)
  end.

Fixpoint init_keys (n : nat) (nbuckets_ k : Z) : SM () :=
  match n with
  | O => mret tt
  | S n' => init_key nbuckets_ k;; init_keys n' nbuckets_ (k + 1)
  end.

Definition fm_core_init_share (reclength_ keys_ max_records_ nbuckets_ : Z)
    (alloc_ops : nat → Z → bool) : SM () :=
  modify (init_fields alloc_ops reclength_ keys_ max_records_);;
  s ← get;
  p ← alloc (sizeof_FM_CHUNK * chunk_cap s);
  match p with
  | None => mret tt
  | Some p =>
      modify (with_chunks (Some (p, replicate (Z.to_nat (chunk_cap s)) (mkChunk None None))));;
      if decide (keys_ = 0) then mret tt else
      q ← alloc (sizeof_FM_KEY_CORE * keys_);
      match q with
      | None => mret tt
      | Some q =>
          modify (with_keydef (Some (q, replicate (Z.to_nat keys_) FM_KEY_CORE_zero)));;
          init_keys (Z.to_nat keys_) nbuckets_ 0
      end
  end.

Fixpoint dealloc_list {A} (l : list (nat * A)) : SM () :=
  match l with
  | [] => mret tt
  | p :: l' => dealloc p.1;; dealloc_list l'
  end.

(** The loop over the chunks [i < cnt]. *)
Fixpoint free_chunks (n : nat) (i : Z) : SM () :=
  match n with
  | O => mret tt
  | S n' =>
      s ← get;
      c ← unwrap (chunk_at s i);
      dealloc_opt (slots c);;
      match key_next c with
      | Some kn => dealloc_list (take (Z.to_nat (keys s)) kn.2);; dealloc kn.1
      | None => mret tt
      end;;
      free_chunks n' (i + 1)
  end.

(** The loop over the keys; [keydef[k]] is dereferenced whatever [keydef] is. *)
Fixpoint free_keys (n : nat) (k : Z) : SM () :=
  match n with
  | O => mret tt
  | S n' =>
      kc ← deref_key k;
      dealloc_opt (head kc);;
      dealloc_opt (locks kc);;
      free_keys n' (k + 1)
  end.

(** [ops_alloc] and [heap] are the allocator's behaviour and its live blocks, which the final
    [memset] of the share leaves as they are. *)
Definition fm_core_free_share : SM () :=
  s ← get;
  free_chunks (Z.to_nat (chunk_cnt s)) 0;;
  dealloc_opt (chunks s);;
  free_keys (Z.to_nat (keys s)) 0;;
  dealloc_opt (keydef s);;
  modify (λ s, {| ops_alloc := ops_alloc s; heap := heap s; reclength := 0; slot_size := 0;
    keys := 0; max_records := 0; chunk_cap := 0; chunks := None; chunk_cnt := 0;
    free_head := 0; records := 0; struct_mutex := 0; keydef := None; auto_inc := 0;
    auto_key := 0; auto_key_type := 0 |}).

(** * Seqlock-protected read *)

(** One pass of the [for (;;)] loop per unit of fuel.  With no other thread running a pass
    that continues would continue forever, so one pass decides the result. *)
Fixpoint read_row_loop (fuel : nat) (idx : Z) (check_gen : bool) (expect_gen : Z)
    (buf : bytes) : SM (fm_err * bytes) :=
  match fuel with
  | O => hang
  | S fuel' =>
      sl ← deref_slot idx;
      if decide (state sl ≠ FM_SLOT_ACTIVE) then mret (FM_ERR_DELETED, buf) else
      if check_gen && bool_decide (gen sl ≠ expect_gen) then mret (FM_ERR_DELETED, buf) else
      let s1 := seq sl in
      if decide (Z.land s1 1 ≠ 0) then read_row_loop fuel' idx check_gen expect_gen buf else
      s ← get;
      buf' ← unwrap (memcpy (reclength s) (data sl));
      sl2 ← deref_slot idx;
      if decide (seq sl2 ≠ s1) then read_row_loop fuel' idx check_gen expect_gen buf' else
      mret (FM_ERR_OK, buf')
  end.

Definition fm_core_read_row (idx : Z) (check_gen : bool) (expect_gen : Z) (buf : bytes)
    : SM (fm_err * bytes) :=
  read_row_loop 1 idx check_gen expect_gen buf.

(** * Slot allocation *)

(** The slots of a fresh chunk, and one of its chain arrays. *)
Definition fresh_slots : list FM_SLOT := replicate (Z.to_nat FM_CHUNK_SIZE) FM_SLOT_new.
Definition null_slots : list Z := replicate (Z.to_nat FM_CHUNK_SIZE) FM_NULL_SLOT.

(** The loop over the keys in [fm_core_grow_chunk]; [acc] holds the arrays allocated so far.
    A failure frees them and reports [None]. *)
Fixpoint grow_key_next (n : nat) (acc : list (nat * list Z)) : SM (option (list (nat * list Z))) :=
  match n with
  | O => mret (Some acc)
  | S n' =>
      p ← alloc (sizeof_fm_i32 * FM_CHUNK_SIZE);
      match p with
      | None => dealloc_list acc;; mret None
      | Some p => grow_key_next n' (acc ++ [(p, null_slots)])
      end
  end.

(** The block under [if (s->keys)] and the publication: the chain arrays of chunk [k], whose
    slots are the block [p].  Every failure gives back what was allocated. *)
Definition grow_chunk_keys (p : nat) (k : Z) : SM fm_err :=
  s ← get;
  q ← alloc (sizeof_ptr * keys s);
  match q with
  | None =>
      modify (upd_chunk (λ c, mkChunk (slots c) None) k);;
      dealloc p;;
      modify (upd_chunk (λ c, mkChunk None (key_next c)) k);;
      mret FM_ERR_NOMEM
  | Some q =>
      kn ← grow_key_next (Z.to_nat (keys s)) [];
      match kn with
      | None =>
          dealloc q;;
          modify (upd_chunk (λ c, mkChunk (slots c) None) k);;
          dealloc p;;
          modify (upd_chunk (λ c, mkChunk None (key_next c)) k);;
          mret FM_ERR_NOMEM
      | Some kn =>
          modify (upd_chunk (λ c, mkChunk (slots c) (Some (q, kn))) k);;
          modify (with_chunk_cnt (u32 (k + 1)));;
          mret FM_ERR_OK
      end
  end.

Definition fm_core_grow_chunk : SM fm_err :=
  s ← get;
  let k := chunk_cnt s in
  if decide (chunk_cap s ≤ k) then mret FM_ERR_FULL else
  _ ← unwrap (chunk_at s k);
  p ← alloc (slot_size s * FM_CHUNK_SIZE);
  match p with
  | None => modify (upd_chunk (λ c, mkChunk None (key_next c)) k);; mret FM_ERR_NOMEM
  | Some p =>
      modify (upd_chunk (λ c, mkChunk (Some (p, fresh_slots)) (key_next c)) k);;
      if decide (keys s = 0) then
        modify (with_chunk_cnt (u32 (k + 1)));; mret FM_ERR_OK
      else grow_chunk_keys p k
  end.

Definition fm_core_free_slot (idx : Z) : SM () :=
  s ← get;
  store_slot (sl_with_free_next (free_head s)) idx;;
  modify (with_free_head idx).

(** [for (i= end; i-- > total + 1; )] with [n] iterations left. *)
Fixpoint push_down (n : nat) (i : Z) : SM () :=
  match n with
  | O => mret tt
  | S n' => fm_core_free_slot (i32 (i - 1));; push_down n' (i - 1)
  end.

Definition fm_core_alloc_slot : SM Z :=
  s ← get;
  if decide (free_head s ≠ FM_NULL_SLOT) then
    let idx := free_head s in
    sl ← deref_slot idx;
    modify (with_free_head (free_next sl));;
    mret idx
  else
    let cnt := chunk_cnt s in
    let total := u32 (Z.shiftl cnt FM_CHUNK_SHIFT) in
    if decide (max_records s ≤ total) then mret FM_NULL_SLOT else
    if decide (Z.land total (FM_CHUNK_SIZE - 1) = 0) then
      rc ← fm_core_grow_chunk;
      if decide (rc ≠ FM_ERR_OK) then mret FM_NULL_SLOT else
      let end_ := u32 (total + FM_CHUNK_SIZE) in
      let end_ := if decide (max_records s < end_) then max_records s else end_ in
      push_down (Z.to_nat (end_ - (total + 1))) end_;;
      mret (i32 total)
    else mret (i32 total).

(** * Hash chains *)

(** A bound on the length of a chain that does not meet a slot twice. *)
Definition walk_fuel (s : FM_SHARE_CORE) : nat := S (Z.to_nat (fm_core_slot_count s)).

Arguments walk_fuel _ : simpl never.

(** The cell [link] points to: the head of a bucket, or the next field of a slot. *)
Inductive link_ptr :=
| link_head (b : Z)
| link_next (idx : Z).

Definition link_get (k : Z) (l : link_ptr) : SM Z :=
  match l with link_head b => deref_head k b | link_next i => deref_next k i end.
Definition link_set (k : Z) (l : link_ptr) (v : Z) : SM () :=
  match l with link_head b => store_head k b v | link_next i => store_next k i v end.

Fixpoint unlink_loop (fuel : nat) (k idx : Z) (link : link_ptr) : SM fm_err :=
  match fuel with
  | O => hang
  | S fuel' =>
      v ← link_get k link;
      if decide (v = FM_NULL_SLOT) then mret FM_ERR_NOT_FOUND else
      if decide (v = idx) then
        n ← deref_next k idx;
        link_set k link n;;
        mret FM_ERR_OK
      else unlink_loop fuel' k idx (link_next v)
  end.

Definition fm_core_chain_unlink (k b idx : Z) : SM fm_err :=
  s ← get; unlink_loop (walk_fuel s) k idx (link_head b).

Definition fm_core_chain_link (k b idx : Z) : SM () :=
  h ← deref_head k b;
  store_next k idx h;;
  store_head k b idx.

(** [fm_core_key_bucket] *)
Definition fm_core_key_bucket (kc : FM_KEY_CORE) (rec : bytes) : SM Z :=
  f ← unwrap (hash_rec (ops kc)); mret (fm_bucket kc (f rec)).
