(* ===== verification/Layout.v ===== *)
(** The bytes of a chunk (src/fm_core.h, [fm_slot] and [fm_core_init_share]): where the slots of a
    chunk lie in the block that holds them, with the 32-bit arithmetic of the source. *)

From S2P Require Import Prelude CoreState CoreOps.

(** Rounding up to a multiple of eight. *)
Lemma fm_align8_eq x : 0 ≤ x → x + 7 < 2 ^ 32 → fm_align8 x = (x + 7) / 8 * 8.
Proof.
  intros H0 H1. unfold fm_align8. rewrite (u32_small (x + 7)) by lia.
  change (u32 (Z.lnot 7)) with (2 ^ 32 - 1 - 7).
  assert (Hl : Z.land (x + 7) (2 ^ 32 - 1 - 7) = Z.ldiff (x + 7) 7).
  { apply Z.bits_inj'. intros n Hn. rewrite Z.land_spec, Z.ldiff_spec.
    replace (2 ^ 32 - 1 - 7) with (Z.ldiff (Z.ones 32) 7) by done. rewrite Z.ldiff_spec.
    destruct (decide (n < 32)).
    - rewrite Z.ones_spec_low by lia. done.
    - rewrite (Z.bits_above_log2 (x + 7)); [done|lia|]. destruct (decide (x + 7 = 0)) as [E|]; [rewrite E; simpl; lia|].
      apply Z.log2_lt_pow2; [lia|]. pose proof (Z.pow_le_mono_r 2 32 n). lia. }
  rewrite Hl. change 7 with (Z.ones 3) at 2. rewrite Z.ldiff_ones_r by lia. rewrite Z.shiftl_mul_pow2, Z.shiftr_div_pow2 by lia. done.
Qed.

Lemma land_chunk_mask idx : Z.land idx (FM_CHUNK_SIZE - 1) = idx mod 4096.
Proof. apply (land_pow2_mask idx 12). lia. Qed.

(** The stride between slots, for records that fit the engine. *)
Lemma slot_size_eq alloc_ops reclength_ keys_ max_records_ s : 0 ≤ reclength_ → reclength_ + 31 < 2 ^ 20 →
  slot_size (init_fields alloc_ops reclength_ keys_ max_records_ s) = (reclength_ + 23) / 8 * 8.
Proof.
  intros H0 H1. cbn [slot_size init_fields]. change FM_SLOT_DATA_OFFSET with 16. rewrite u32_small by lia.
  rewrite fm_align8_eq by lia. do 2 f_equal. lia.
Qed.

Lemma slot_offset_eq alloc_ops reclength_ keys_ max_records_ s idx : 0 ≤ reclength_ → reclength_ + 31 < 2 ^ 20 →
  fm_slot_offset (init_fields alloc_ops reclength_ keys_ max_records_ s) idx = idx mod 4096 * ((reclength_ + 23) / 8 * 8).
Proof.
  intros H0 H1. unfold fm_slot_offset. rewrite slot_size_eq, land_chunk_mask by done.
  pose proof (Z.mod_pos_bound idx 4096 ltac:(lia)). pose proof (Z.div_mod (reclength_ + 23) 8 ltac:(lia)).
  pose proof (Z.mod_pos_bound (reclength_ + 23) 8 ltac:(lia)). apply u32_small. nia.
Qed.

(** * Properties *)

(** C40: Slots do not overlap.  For records below a megabyte, the 32-bit address arithmetic of
    [fm_slot] does not wrap: every slot of a chunk starts at a multiple of eight, its header and
    record lie within the block that [fm_core_grow_chunk] allocates for the chunk, and the
    bytes of two different slots of a chunk are disjoint. *)
Theorem slots_disjoint alloc_ops reclength_ keys_ max_records_ s0 i j : 0 ≤ reclength_ → reclength_ + 31 < 2 ^ 20 →
  let s := init_fields alloc_ops reclength_ keys_ max_records_ s0 in
  let stop x := fm_slot_offset s x + FM_SLOT_DATA_OFFSET + reclength_ in
  fm_slot_offset s i mod 8 = 0 ∧ 0 ≤ fm_slot_offset s i ∧ stop i ≤ slot_size s * FM_CHUNK_SIZE ∧
  (Z.land i (FM_CHUNK_SIZE - 1) ≠ Z.land j (FM_CHUNK_SIZE - 1) → stop i ≤ fm_slot_offset s j ∨ stop j ≤ fm_slot_offset s i).
Proof.
  intros H0 H1. cbv zeta. rewrite !slot_offset_eq, slot_size_eq, !land_chunk_mask by done.
  change FM_SLOT_DATA_OFFSET with 16. change FM_CHUNK_SIZE with 4096.
  pose proof (Z.mod_pos_bound i 4096 ltac:(lia)). pose proof (Z.mod_pos_bound j 4096 ltac:(lia)).
  pose proof (Z.div_mod (reclength_ + 23) 8 ltac:(lia)). pose proof (Z.mod_pos_bound (reclength_ + 23) 8 ltac:(lia)).
  set (x := i mod 4096) in *. set (y := j mod 4096) in *. set (q := (reclength_ + 23) / 8) in *.
  split; [rewrite Z.mul_assoc; apply Z.mod_mul; lia|]. split; [nia|]. split; [nia|]. intros Hne.
  destruct (decide (x < y)); [left|right]; nia.
Qed.
