(* ===== verification/RowOps.v ===== *)
(** Row operations of the concurrency core (src/fm_core.h): scans and point lookups, insert,
    update, delete and clear, in the sequential semantics of [CoreOps]. *)

From S2P Require Import Prelude CoreState CoreOps.

(** * Scans *)

Fixpoint scan_loop (fuel : nat) (bound pos : Z) (buf : bytes) : SM (fm_err * Z * bytes) :=
  match fuel with
  | O => hang
  | S fuel' =>
      if decide (pos < bound) then
        let idx := i32 pos in
        let pos := u32 (pos + 1) in
        '(rc, buf) ← fm_core_read_row idx false 0 buf;
        if decide (rc = FM_ERR_OK) then mret (FM_ERR_OK, pos, buf)
        else scan_loop fuel' bound pos buf
      else mret (FM_ERR_EOF, pos, buf)
  end.

(** Returns the code, the new [*pos] and the buffer. *)
Definition fm_core_scan_next (pos : Z) (buf : bytes) : SM (fm_err * Z * bytes) :=
  s ← get;
  let bound := fm_core_slot_count s in
  scan_loop (S (Z.to_nat (bound - pos))) bound pos buf.

(** * Point lookups *)

Definition key_matches (kc : FM_KEY_CORE) (buf pk : bytes) : SM bool :=
  f ← unwrap (cmp_rec_key (ops kc)); mret (bool_decide (f buf pk = 0)).

Fixpoint find_loop (fuel : nat) (kc : FM_KEY_CORE) (key : Z) (pk : bytes) (h : Z) (buf : bytes)
    : SM (option Z * bytes) :=
  match fuel with
  | O => hang
  | S fuel' =>
      if decide (h = FM_NULL_SLOT) then mret (None, buf) else
      '(rc, buf) ← fm_core_read_row h false 0 buf;
      ok ← (if decide (rc = FM_ERR_OK) then key_matches kc buf pk else mret false);
      if ok : bool then mret (Some h, buf)
      else n ← deref_next key h; find_loop fuel' kc key pk n buf
  end.

(** Returns the code, [*out_idx] and the buffer. *)
Definition fm_core_find (key : Z) (pk buf : bytes) (out_idx : Z) : SM (fm_err * Z * bytes) :=
  kc ← deref_key key;
  f ← unwrap (hash_key (ops kc));
  let b := fm_bucket kc (f pk) in
  bucket_lock key b;;
  h ← deref_head key b;
  s ← get;
  '(r, buf) ← find_loop (walk_fuel s) kc key pk h buf;
  bucket_unlock key b;;
  match r with
  | Some h => mret (FM_ERR_OK, h, buf)
  | None => mret (FM_ERR_NOT_FOUND, out_idx, buf)
  end.

Fixpoint find_next_loop (fuel : nat) (kc : FM_KEY_CORE) (key : Z) (pk : bytes) (cur : Z)
    (after_cur : bool) (h : Z) (buf : bytes) : SM (option Z * bytes) :=
  match fuel with
  | O => hang
  | S fuel' =>
      if decide (h = FM_NULL_SLOT) then mret (None, buf) else
      if decide (h = cur) then
        n ← deref_next key h; find_next_loop fuel' kc key pk cur true n buf
      else if after_cur then
        '(rc, buf) ← fm_core_read_row h false 0 buf;
        ok ← (if decide (rc = FM_ERR_OK) then key_matches kc buf pk else mret false);
        if ok : bool then mret (Some h, buf)
        else n ← deref_next key h; find_next_loop fuel' kc key pk cur after_cur n buf
      else n ← deref_next key h; find_next_loop fuel' kc key pk cur after_cur n buf
  end.

Definition fm_core_find_next (key : Z) (pk : bytes) (cur : Z) (buf : bytes) (out_idx : Z)
    : SM (fm_err * Z * bytes) :=
  kc ← deref_key key;
  f ← unwrap (hash_key (ops kc));
  let b := fm_bucket kc (f pk) in
  bucket_lock key b;;
  h ← deref_head key b;
  s ← get;
  '(r, buf) ← find_next_loop (walk_fuel s) kc key pk cur false h buf;
  bucket_unlock key b;;
  match r with
  | Some h => mret (FM_ERR_OK, h, buf)
  | None => mret (FM_ERR_NOT_FOUND, out_idx, buf)
  end.

(** * Insert *)

(** The walk of [fm_core_dup_check]; [scratch] is the caller's work area. *)
Fixpoint dup_loop (fuel : nat) (kc : FM_KEY_CORE) (k : Z) (rec : bytes) (h : Z) (scratch : bytes)
    : SM fm_err :=
  match fuel with
  | O => hang
  | S fuel' =>
      if decide (h = FM_NULL_SLOT) then mret FM_ERR_OK else
      '(rc, scratch) ← fm_core_read_row h false 0 scratch;
      same ← (if decide (rc = FM_ERR_OK) then
                f ← unwrap (cmp_rec_rec (ops kc)); mret (bool_decide (f scratch rec = 0))
              else mret false);
      if same : bool then mret FM_ERR_DUP_KEY
      else n ← deref_next k h; dup_loop fuel' kc k rec n scratch
  end.

Definition has_null (kc : FM_KEY_CORE) (rec : bytes) : bool :=
  match has_null_part (ops kc) with Some f => bool_decide (f rec ≠ 0) | None => false end.

Definition fm_core_dup_check (k b : Z) (rec scratch : bytes) : SM fm_err :=
  kc ← deref_key k;
  if unique kc && negb (has_null kc rec) then
    h ← deref_head k b;
    s ← get;
    dup_loop (walk_fuel s) kc k rec h scratch
  else mret FM_ERR_OK.

(** [while (k-- > 0)]: unlink the row from the keys below [k]. *)
Fixpoint insert_rollback (k : nat) (rec : bytes) (idx : Z) : SM () :=
  match k with
  | O => mret tt
  | S k' =>
      kc ← deref_key (Z.of_nat k');
      b ← fm_core_key_bucket kc rec;
      bucket_lock (Z.of_nat k') b;;
      _ ← fm_core_chain_unlink (Z.of_nat k') b idx;
      bucket_unlock (Z.of_nat k') b;;
      insert_rollback k' rec idx
  end.

(** The [for] loop over the keys, [n] of them left; [true] when a duplicate was found and the
    keys below were rolled back. *)
Fixpoint insert_keys (n : nat) (k : nat) (rec scratch : bytes) (idx : Z) : SM bool :=
  match n with
  | O => mret false
  | S n' =>
      kc ← deref_key (Z.of_nat k);
      b ← fm_core_key_bucket kc rec;
      bucket_lock (Z.of_nat k) b;;
      dup ← (match hash_rec (ops kc) with
             | Some _ => fm_core_dup_check (Z.of_nat k) b rec scratch
             | None => mret FM_ERR_OK
             end);
      if decide (dup ≠ FM_ERR_OK) then
        bucket_unlock (Z.of_nat k) b;;
        insert_rollback k rec idx;;
        mret true
      else
        fm_core_chain_link (Z.of_nat k) b idx;;
        bucket_unlock (Z.of_nat k) b;;
        insert_keys n' (S k) rec scratch idx
  end.

(** The result of a writer: the code, [*out_idx] and [*errkey]. *)
Record insert_result := mkIns { ins_rc : fm_err; ins_idx : Z; ins_errkey : Z }.

Definition fm_core_insert_row (rec : bytes) (out_idx errkey : Z) (scratch : bytes)
    : SM insert_result :=
  struct_lock;;
  idx ← fm_core_alloc_slot;
  if decide (idx = FM_NULL_SLOT) then
    struct_unlock;;
    s ← get;
    mret (mkIns (if decide (chunk_cap s ≤ chunk_cnt s) then FM_ERR_FULL else FM_ERR_NOMEM)
            out_idx errkey)
  else
    s ← get;
    img ← unwrap (memcpy (reclength s) rec);
    store_slot (sl_with_data img) idx;;
    dup ← insert_keys (Z.to_nat (keys s)) 0 rec scratch idx;
    if dup : bool then
      fm_core_free_slot idx;;
      struct_unlock;;
      (* the loop variable has wrapped around to 2^32 - 1 here *)
      let k := u32 (0 - 1) in
      mret (mkIns FM_ERR_DUP_KEY out_idx (i32 k + 1))
    else
      store_slot (sl_with_state FM_SLOT_ACTIVE) idx;;
      modify (λ s, with_records (records s + 1) s);;
      struct_unlock;;
      mret (mkIns FM_ERR_OK idx errkey).

(** * Update *)

Definition fm_core_write_image (idx : Z) (rec : bytes) : SM () :=
  store_slot (λ sl, sl_with_seq (u32 (seq sl + 1)) sl) idx;;
  s ← get;
  img ← unwrap (memcpy (reclength s) rec);
  store_slot (sl_with_data img) idx;;
  store_slot (λ sl, sl_with_seq (u32 (seq sl + 1)) sl) idx.

(** The loop that fills [changed[]]: [k < keys && nch < FM_MAX_CHANGED_KEYS]. *)
Fixpoint collect_changed (n : nat) (k : Z) (old_rec new_rec : bytes) (changed : list Z)
    : SM (list Z) :=
  match n with
  | O => mret changed
  | S n' =>
      if decide (Z.of_nat (length changed) < FM_MAX_CHANGED_KEYS) then
        kc ← deref_key k;
        c ← (match hash_rec (ops kc) with
             | Some _ => f ← unwrap (cmp_rec_rec (ops kc)); mret (bool_decide (f old_rec new_rec ≠ 0))
             | None => mret false
             end);
        collect_changed n' (k + 1) old_rec new_rec (if c : bool then changed ++ [u16 k] else changed)
      else mret changed
  end.

Record FMB := mkFMB { fmb_key : Z; fmb_b : Z }.

#[export] Instance FMB_eq_dec : EqDecision FMB.
Proof. solve_decision. Defined.

(** Collect the old and the new bucket of every changed key. *)
Fixpoint build_lockset (changed : list Z) (old_rec new_rec : bytes) (lockset : list FMB)
    : SM (list FMB) :=
  match changed with
  | [] => mret lockset
  | k :: changed' =>
      kc ← deref_key k;
      bnew ← fm_core_key_bucket kc new_rec;
      bold ← fm_core_key_bucket kc old_rec;
      let have_new := bool_decide (mkFMB k bnew ∈ lockset) in
      let have_old := bool_decide (mkFMB k bold ∈ lockset) in
      let lockset := if have_new : bool then lockset else lockset ++ [mkFMB k bnew] in
      let lockset := if have_old : bool then lockset else lockset ++ [mkFMB k bold] in
      build_lockset changed' old_rec new_rec lockset
  end.

(** [((fm_u64)key << 32) | b] *)
Definition fmb_code (p : FMB) : Z := Z.lor (Z.shiftl (fmb_key p) 32) (fmb_b p).

(** The inner [while (j > 0)] of the insertion sort: shift the larger entries up. *)
Fixpoint sort_shift (j : nat) (vi : Z) (ls : list FMB) : nat * list FMB :=
  match j with
  | O => (O, ls)
  | S j' =>
      match ls !! j' with
      | Some p => if decide (fmb_code p ≤ vi) then (j, ls) else sort_shift j' vi (<[j:=p]> ls)
      | None => (j, ls)
      end
  end.

(** The outer loop, from index [i], with [n] iterations left. *)
Fixpoint sort_loop (n i : nat) (ls : list FMB) : list FMB :=
  match n with
  | O => ls
  | S n' =>
      match ls !! i with
      | Some v =>
          let '(j, ls') := sort_shift i (fmb_code v) ls in
          sort_loop n' (S i) (<[j:=v]> ls')
      | None => ls
      end
  end.

Definition sort_lockset (ls : list FMB) : list FMB := sort_loop (pred (length ls)) 1 ls.

(** Lock every entry that differs from the one before it. *)
Fixpoint lock_all (prev : option FMB) (ls : list FMB) : SM () :=
  match ls with
  | [] => mret tt
  | p :: ls' =>
      (if decide (prev = Some p) then mret tt else bucket_lock (fmb_key p) (fmb_b p));;
      lock_all (Some p) ls'
  end.

(** Unlock them in the opposite order. *)
Fixpoint unlock_all (prev : option FMB) (ls : list FMB) : SM () :=
  match ls with
  | [] => mret tt
  | p :: ls' =>
      unlock_all (Some p) ls';;
      (if decide (prev = Some p) then mret tt else bucket_unlock (fmb_key p) (fmb_b p))
  end.

(** The duplicate checks for the changed keys; the first key that fails. *)
Fixpoint dup_checks (changed : list Z) (new_rec scratch : bytes) : SM (option Z) :=
  match changed with
  | [] => mret None
  | k :: changed' =>
      kc ← deref_key k;
      bnew ← fm_core_key_bucket kc new_rec;
      dup ← fm_core_dup_check k bnew new_rec scratch;
      if decide (dup ≠ FM_ERR_OK) then mret (Some k) else dup_checks changed' new_rec scratch
  end.

(** Move the row from its old to its new chain, for every changed key. *)
Fixpoint relink (changed : list Z) (old_rec new_rec : bytes) (idx : Z) : SM () :=
  match changed with
  | [] => mret tt
  | k :: changed' =>
      kc ← deref_key k;
      bnew ← fm_core_key_bucket kc new_rec;
      bold ← fm_core_key_bucket kc old_rec;
      _ ← fm_core_chain_unlink k bold idx;
      fm_core_chain_link k bnew idx;;
      relink changed' old_rec new_rec idx
  end.

(** The slot is live and is still the row the caller read. *)
Definition slot_current (sl : FM_SLOT) (expect_gen : Z) : bool :=
  bool_decide (state sl = FM_SLOT_ACTIVE) && bool_decide (gen sl = expect_gen).

(** Returns the code and [*errkey]. *)
Definition fm_core_update_row (idx expect_gen : Z) (old_rec new_rec : bytes) (errkey : Z)
    (scratch : bytes) : SM (fm_err * Z) :=
  _ ← deref_slot idx;
  s ← get;
  changed ← collect_changed (Z.to_nat (keys s)) 0 old_rec new_rec [];
  if decide (changed = []) then
    wlock_lock idx;;
    sl ← deref_slot idx;
    if negb (slot_current sl expect_gen) then
      wlock_unlock idx;; mret (FM_ERR_DELETED, errkey)
    else
      fm_core_write_image idx new_rec;;
      wlock_unlock idx;;
      mret (FM_ERR_OK, errkey)
  else
    lockset ← build_lockset changed old_rec new_rec [];
    let lockset := sort_lockset lockset in
    lock_all None lockset;;
    dup ← dup_checks changed new_rec scratch;
    match dup with
    | Some k => unlock_all None lockset;; mret (FM_ERR_DUP_KEY, k + 1)
    | None =>
        wlock_lock idx;;
        sl ← deref_slot idx;
        if negb (slot_current sl expect_gen) then
          wlock_unlock idx;;
          unlock_all None lockset;;
          mret (FM_ERR_DELETED, errkey)
        else
          fm_core_write_image idx new_rec;;
          relink changed old_rec new_rec idx;;
          wlock_unlock idx;;
          unlock_all None lockset;;
          mret (FM_ERR_OK, errkey)
    end.

(** The caller holds the slot's wlock. *)
Definition fm_core_update_row_locked (idx expect_gen : Z) (old_rec new_rec : bytes) (errkey : Z)
    (scratch : bytes) : SM (fm_err * Z) :=
  sl ← deref_slot idx;
  if negb (slot_current sl expect_gen) then mret (FM_ERR_DELETED, errkey) else
  s ← get;
  changed ← collect_changed (Z.to_nat (keys s)) 0 old_rec new_rec [];
  if decide (changed = []) then
    fm_core_write_image idx new_rec;; mret (FM_ERR_OK, errkey)
  else
    lockset ← build_lockset changed old_rec new_rec [];
    let lockset := sort_lockset lockset in
    lock_all None lockset;;
    dup ← dup_checks changed new_rec scratch;
    match dup with
    | Some k => unlock_all None lockset;; mret (FM_ERR_DUP_KEY, k + 1)
    | None =>
        fm_core_write_image idx new_rec;;
        relink changed old_rec new_rec idx;;
        unlock_all None lockset;;
        mret (FM_ERR_OK, errkey)
    end.

(** * Delete *)

(** Unlink the row from the chain of every key, [n] keys left from [k]. *)
Fixpoint unlink_keys (n : nat) (k : Z) (scratch : bytes) (idx : Z) : SM () :=
  match n with
  | O => mret tt
  | S n' =>
      kc ← deref_key k;
      b ← fm_core_key_bucket kc scratch;
      bucket_lock k b;;
      _ ← fm_core_chain_unlink k b idx;
      bucket_unlock k b;;
      unlink_keys n' (k + 1) scratch idx
  end.

(** What both variants of delete do once the slot is DELETING: from the copy of the frozen
    image to the return of the slot to the freelist. *)
Definition delete_tail (idx : Z) : SM () :=
  sl ← deref_slot idx;
  s ← get;
  scratch ← unwrap (memcpy (reclength s) (data sl));
  unlink_keys (Z.to_nat (keys s)) 0 scratch idx;;
  store_slot (sl_with_state FM_SLOT_DELETED) idx;;
  store_slot (λ sl, sl_with_gen (u32 (gen sl + 1)) sl) idx;;
  modify (λ s, with_records (records s - 1) s);;
  struct_lock;;
  fm_core_free_slot idx;;
  struct_unlock.

Definition fm_core_delete_row (idx expect_gen : Z) : SM fm_err :=
  wlock_lock idx;;
  sl ← deref_slot idx;
  if negb (slot_current sl expect_gen) then
    wlock_unlock idx;; mret FM_ERR_DELETED
  else
    store_slot (sl_with_state FM_SLOT_DELETING) idx;;
    wlock_unlock idx;;
    delete_tail idx;;
    mret FM_ERR_OK.

(** The caller holds the slot's wlock. *)
Definition fm_core_delete_row_locked (idx expect_gen : Z) : SM fm_err :=
  sl ← deref_slot idx;
  if negb (slot_current sl expect_gen) then mret FM_ERR_DELETED else
  store_slot (sl_with_state FM_SLOT_DELETING) idx;;
  delete_tail idx;;
  mret FM_ERR_OK.

(** * Clear *)

Fixpoint clear_buckets (n : nat) (k b : Z) : SM () :=
  match n with
  | O => mret tt
  | S n' =>
      bucket_lock k b;;
      store_head k b FM_NULL_SLOT;;
      bucket_unlock k b;;
      clear_buckets n' k (b + 1)
  end.

Fixpoint clear_keys (n : nat) (k : Z) : SM () :=
  match n with
  | O => mret tt
  | S n' =>
      kc ← deref_key k;
      clear_buckets (Z.to_nat (nbuckets kc)) k 0;;
      clear_keys n' (k + 1)
  end.

Fixpoint clear_slots (n : nat) (i : Z) : SM () :=
  match n with
  | O => mret tt
  | S n' =>
      wlock_lock (i32 i);;
      store_slot (sl_with_state FM_SLOT_FREE) (i32 i);;
      store_slot (λ sl, sl_with_gen (u32 (gen sl + 1)) sl) (i32 i);;
      wlock_unlock (i32 i);;
      clear_slots n' (i + 1)
  end.

(** The second loop: push every slot, from [i] upwards. *)
Fixpoint push_up (n : nat) (i : Z) : SM () :=
  match n with
  | O => mret tt
  | S n' => fm_core_free_slot (i32 i);; push_up n' (i + 1)
  end.

Definition fm_core_clear : SM () :=
  struct_lock;;
  s ← get;
  clear_keys (Z.to_nat (keys s)) 0;;
  let total := u32 (Z.shiftl (chunk_cnt s) FM_CHUNK_SHIFT) in
  clear_slots (Z.to_nat total) 0;;
  modify (with_free_head FM_NULL_SLOT);;
  push_up (Z.to_nat total) 0;;
  modify (with_records 0);;
  struct_unlock.
