(* ===== verification/Shape.v ===== *)
(** The part of a share that row operations leave alone: [erase] forgets the contents of
    every array and the three mutable words, so [erase s' = erase s] says in one equation that
    the configuration, the array sizes, the block numbers and the key definitions agree. *)

From S2P Require Import Prelude CoreState.

(** Map the contents of a block, keeping its number. *)
Definition on_block {A B} (g : list A → list B) (p : nat * list A) : nat * list B := (p.1, g p.2).

Definition erase_words (p : nat * list Z) : nat * list Z := on_block (map (λ _, 0)) p.

Definition erase_chunk (c : FM_CHUNK) : FM_CHUNK :=
  mkChunk (on_block (map (λ _, FM_SLOT_new)) <$> slots c)
    (on_block (map erase_words) <$> key_next c).

Definition erase_key (k : FM_KEY_CORE) : FM_KEY_CORE :=
  mkKey (ops k) (unique k) (nbuckets k) (erase_words <$> head k) (erase_words <$> locks k).

Definition erase (s : FM_SHARE_CORE) : FM_SHARE_CORE :=
  mkShare s.(ops_alloc) s.(heap) s.(reclength) s.(slot_size) s.(keys) s.(max_records)
    s.(chunk_cap) (on_block (map erase_chunk) <$> s.(chunks)) s.(chunk_cnt) 0 0 0
    (on_block (map erase_key) <$> s.(keydef)) s.(auto_inc) s.(auto_key) s.(auto_key_type).

Section arr.
Context {A B : Type}.

Lemma fmap_arr_upd (g : A → B) (f : A → A) i (l : list A) :
  (∀ x, g (f x) = g x) → map g (arr_upd f i l) = map g l.
Proof.
  change (map g) with (fmap (M:=list) g).
  intros H. unfold arr_upd. case_decide; [|done].
  apply list_eq. intros j. rewrite !list_lookup_fmap.
  destruct (decide (j = Z.to_nat i)) as [->|Hj].
  - rewrite list_lookup_alter_eq. destruct (l !! _); simpl; [by rewrite H|done].
  - by rewrite list_lookup_alter_ne.
Qed.

Lemma arr_get_fmap (g : A → B) (l : list A) i : arr_get (map g l) i = g <$> arr_get l i.
Proof. unfold arr_get. case_decide; [apply list_lookup_fmap|done]. Qed.
End arr.

Lemma erase_upd_chunk f c s :
  (∀ x, erase_chunk (f x) = erase_chunk x) → erase (upd_chunk f c s) = erase s.
Proof.
  intros H. unfold erase, upd_chunk. simpl. destruct (chunks s) as [[p cs]|]; [|done].
  simpl. f_equal. unfold on_block. simpl. do 2 f_equal. by apply fmap_arr_upd.
Qed.

Lemma erase_upd_key f k s :
  (∀ x, erase_key (f x) = erase_key x) → erase (upd_key f k s) = erase s.
Proof.
  intros H. unfold erase, upd_key. simpl. destruct (keydef s) as [[p ks]|]; [|done].
  simpl. f_equal. unfold on_block. simpl. do 2 f_equal. by apply fmap_arr_upd.
Qed.

Lemma erase_upd_slot f i s : erase (upd_slot f i s) = erase s.
Proof.
  apply erase_upd_chunk. intros [[[p sl]|] kn]; [|done]. unfold erase_chunk, on_block; simpl.
  by rewrite fmap_arr_upd.
Qed.

Lemma erase_upd_next v k i s : erase (upd_next v k i s) = erase s.
Proof.
  apply erase_upd_chunk. intros [sl [[p kn]|]]; [|done]. unfold erase_chunk, on_block; simpl.
  do 3 f_equal. apply fmap_arr_upd. intros [q l]. unfold erase_words, on_block. simpl. by rewrite fmap_arr_upd.
Qed.

Lemma erase_upd_head v k b s : erase (upd_head v k b s) = erase s.
Proof.
  apply erase_upd_key. intros [o u n [[p h]|] l]; [|done]. unfold erase_key, erase_words, on_block; simpl.
  by rewrite fmap_arr_upd.
Qed.

Lemma erase_upd_lock v k b s : erase (upd_lock v k b s) = erase s.
Proof.
  apply erase_upd_key. intros [o u n h [[p l]|]]; [|done]. unfold erase_key, erase_words, on_block; simpl.
  by rewrite fmap_arr_upd.
Qed.

Lemma erase_with_free_head v s : erase (with_free_head v s) = erase s.
Proof. reflexivity. Qed.
Lemma erase_with_records v s : erase (with_records v s) = erase s.
Proof. reflexivity. Qed.
Lemma erase_with_struct_mutex v s : erase (with_struct_mutex v s) = erase s.
Proof. reflexivity. Qed.

#[export] Hint Rewrite erase_upd_slot erase_upd_next erase_upd_head erase_upd_lock
  erase_with_free_head erase_with_records erase_with_struct_mutex : fm.

(** * What [erase] determines *)

Section erased.
Context (s s' : FM_SHARE_CORE) (E : erase s' = erase s).
#[local] Set Default Proof Using "Type*".

Lemma erase_reclength : reclength s' = reclength s.
Proof. exact (f_equal reclength E). Qed.
Lemma erase_slot_size : slot_size s' = slot_size s.
Proof. exact (f_equal slot_size E). Qed.
Lemma erase_keys : keys s' = keys s.
Proof. exact (f_equal keys E). Qed.
Lemma erase_max_records : max_records s' = max_records s.
Proof. exact (f_equal max_records E). Qed.
Lemma erase_chunk_cap : chunk_cap s' = chunk_cap s.
Proof. exact (f_equal chunk_cap E). Qed.
Lemma erase_chunk_cnt : chunk_cnt s' = chunk_cnt s.
Proof. exact (f_equal chunk_cnt E). Qed.
Lemma erase_heap : heap s' = heap s.
Proof. exact (f_equal heap E). Qed.
Lemma erase_auto_inc : auto_inc s' = auto_inc s.
Proof. exact (f_equal auto_inc E). Qed.
Lemma erase_auto_key : auto_key s' = auto_key s.
Proof. exact (f_equal auto_key E). Qed.
Lemma erase_auto_key_type : auto_key_type s' = auto_key_type s.
Proof. exact (f_equal auto_key_type E). Qed.

Lemma chunk_at_erase c : erase_chunk <$> chunk_at s' c = erase_chunk <$> chunk_at s c.
Proof.
  assert (H : ∀ t, erase_chunk <$> chunk_at t c = chunk_at (erase t) c).
  { intros t. unfold chunk_at, erase. simpl. destruct (chunks t) as [[p cs]|]; [|done]. simpl.
    by rewrite arr_get_fmap. }
  by rewrite !H, E.
Qed.

Lemma key_at_erase k : erase_key <$> key_at s' k = erase_key <$> key_at s k.
Proof.
  assert (H : ∀ t, erase_key <$> key_at t k = key_at (erase t) k).
  { intros t. unfold key_at, erase. simpl. destruct (keydef t) as [[p ks]|]; [|done]. simpl.
    by rewrite arr_get_fmap. }
  by rewrite !H, E.
Qed.

Lemma key_cfg_erase k : key_cfg s' k = key_cfg s k.
Proof.
  pose proof (key_at_erase k) as H. unfold key_cfg.
  destruct (key_at s' k) as [[]|], (key_at s k) as [[]|]; simpl in *; naive_solver.
Qed.

Lemma erase_is_Some_slot i : is_Some (fm_slot s' i) ↔ is_Some (fm_slot s i).
Proof.
  assert (H : ∀ t, is_Some (fm_slot t i) ↔ is_Some (c ← erase_chunk <$> chunk_at t (Z.shiftr i FM_CHUNK_SHIFT);
    p ← slots c; arr_get p.2 (Z.land i (FM_CHUNK_SIZE - 1)))).
  { intros t. unfold fm_slot. destruct (chunk_at t _) as [[[[p sl]|] kn]|]; simpl; [|done|done].
    rewrite arr_get_fmap. by rewrite fmap_is_Some. }
  by rewrite !H, chunk_at_erase.
Qed.

Lemma erase_is_Some_next k i : is_Some (fm_key_next s' k i) ↔ is_Some (fm_key_next s k i).
Proof.
  assert (H : ∀ t, is_Some (fm_key_next t k i) ↔ is_Some (c ← erase_chunk <$> chunk_at t (Z.shiftr i FM_CHUNK_SHIFT);
    p ← key_next c; q ← arr_get p.2 k; arr_get q.2 (Z.land i (FM_CHUNK_SIZE - 1)))).
  { intros t. unfold fm_key_next. destruct (chunk_at t _) as [[sl [[p kn]|]]|]; simpl; [|done|done].
    rewrite arr_get_fmap. destruct (arr_get kn k) as [[q l]|]; simpl; [|done].
    rewrite arr_get_fmap. by rewrite fmap_is_Some. }
  by rewrite !H, chunk_at_erase.
Qed.

Lemma erase_is_Some_head k b : is_Some (head_at s' k b) ↔ is_Some (head_at s k b).
Proof.
  assert (H : ∀ t, is_Some (head_at t k b) ↔
    is_Some (c ← erase_key <$> key_at t k; p ← head c; arr_get p.2 b)).
  { intros t. unfold head_at. destruct (key_at t k) as [[o u n [[p h]|] l]|]; simpl; [|done|done].
    rewrite arr_get_fmap. by rewrite fmap_is_Some. }
  by rewrite !H, key_at_erase.
Qed.

Lemma erase_is_Some_lock k b : is_Some (lock_at s' k b) ↔ is_Some (lock_at s k b).
Proof.
  assert (H : ∀ t, is_Some (lock_at t k b) ↔
    is_Some (c ← erase_key <$> key_at t k; p ← locks c; arr_get p.2 b)).
  { intros t. unfold lock_at. destruct (key_at t k) as [[o u n h [[p l]|]]|]; simpl; [|done|done].
    rewrite arr_get_fmap. by rewrite fmap_is_Some. }
  by rewrite !H, key_at_erase.
Qed.

Lemma erase_is_Some_chunk c : is_Some (chunk_at s' c) ↔ is_Some (chunk_at s c).
Proof.
  rewrite <-(fmap_is_Some erase_chunk (chunk_at s' c)), <-(fmap_is_Some erase_chunk (chunk_at s c)).
  by rewrite chunk_at_erase.
Qed.
End erased.
