(* ===== verification/Inv.v ===== *)
(** The representation invariant of the core: what the arrays, chains and lists of a share
    mean, and the abstract table they stand for. *)

From S2P Require Import Prelude CoreState CoreOps RowOps Shape.

(** * What the core relies on in the key callbacks *)

Definition hash_of (o : FM_KEY_OPS) (rec : bytes) : Z :=
  match hash_rec o with Some f => f rec | None => 0 end.
Definition key_hash_of (o : FM_KEY_OPS) (pk : bytes) : Z :=
  match hash_key o with Some f => f pk | None => 0 end.
Definition same_key (o : FM_KEY_OPS) (a b : bytes) : Prop :=
  match cmp_rec_rec o with Some f => f a b = 0 | None => False end.
Definition matches_key (o : FM_KEY_OPS) (a pk : bytes) : Prop :=
  match cmp_rec_key o with Some f => f a pk = 0 | None => False end.
Definition null_key (o : FM_KEY_OPS) (a : bytes) : Prop :=
  match has_null_part o with Some f => f a ≠ 0 | None => False end.

#[export] Instance same_key_dec o a b : Decision (same_key o a b).
Proof. unfold same_key. destruct (cmp_rec_rec o); apply _. Defined.
#[export] Instance matches_key_dec o a pk : Decision (matches_key o a pk).
Proof. unfold matches_key. destruct (cmp_rec_key o); apply _. Defined.
#[export] Instance null_key_dec o a : Decision (null_key o a).
Proof. unfold null_key. destruct (has_null_part o); apply _. Defined.

(** The promise of the glue ([fm_hash.cc]) to the core: the callbacks are set, comparing
    record keys is an equivalence, and hashing and null tests respect it. *)
Class KeyOpsLaws (o : FM_KEY_OPS) : Prop := {
  laws_hash_rec : is_Some (hash_rec o);
  laws_hash_key : is_Some (hash_key o);
  laws_cmp_rec_rec : is_Some (cmp_rec_rec o);
  laws_cmp_rec_key : is_Some (cmp_rec_key o);
  laws_equiv :: Equivalence (same_key o);
  laws_hash a b : same_key o a b → hash_of o a = hash_of o b;
  laws_null a b : same_key o a b → null_key o a → null_key o b;
  laws_match a pk : matches_key o a pk → hash_of o a = key_hash_of o pk
}.

(** * Configuration *)

Definition total_slots (s : FM_SHARE_CORE) : Z := chunk_cnt s * 4096.

(** The arrays have the lengths that [fm_core_free_share] walks. *)
Definition arrays_ok (s : FM_SHARE_CORE) : Prop :=
  (∃ p cs, chunks s = Some (p, cs) ∧ Z.of_nat (length cs) = chunk_cap s) ∧
  match keydef s with Some q => Z.of_nat (length q.2) = keys s | None => keys s = 0 end ∧
  ∀ c, 0 ≤ c < chunk_cnt s → ∃ ch, chunk_at s c = Some ch ∧
    match key_next ch with Some q => Z.of_nat (length q.2) = keys s | None => keys s = 0 end.

Record static_ok (s : FM_SHARE_CORE) : Prop := {
  so_arrays : arrays_ok s;
  so_keys : 0 ≤ keys s ≤ 64;
  so_reclength : 0 ≤ reclength s;
  so_cnt : 0 ≤ chunk_cnt s ≤ chunk_cap s;
  so_cap : chunk_cap s * 4096 ≤ 2 ^ 31;
  so_max : 0 < max_records s;
  so_cap_max : (chunk_cap s - 1) * 4096 < max_records s ≤ chunk_cap s * 4096;
  so_fresh c : chunk_cnt s ≤ c < chunk_cap s → chunk_at s c = Some (mkChunk None None);
  so_slot i : is_Some (fm_slot s i) ↔ 0 ≤ i < total_slots s;
  so_next k i : 0 ≤ k < keys s → 0 ≤ i < total_slots s → is_Some (fm_key_next s k i);
  so_key k : 0 ≤ k < keys s → ∃ o u n,
    key_cfg s k = Some (o, u, 2 ^ n) ∧ 0 ≤ n < 32 ∧ KeyOpsLaws o ∧
    ∀ b, 0 ≤ b < 2 ^ n → is_Some (head_at s k b) ∧ is_Some (lock_at s k b);
  so_head k b o u nb : 0 ≤ k < keys s → key_cfg s k = Some (o, u, nb) → is_Some (head_at s k b) → 0 ≤ b < nb
}.

(** * Rows *)

Definition row_of (sl : FM_SLOT) : option bytes :=
  if decide (state sl = FM_SLOT_ACTIVE) then Some (data sl) else None.

Definition row_at (s : FM_SHARE_CORE) (i : Z) : option bytes := fm_slot s i ≫= row_of.

(** The table a share stands for: the images of the active slots. *)
Definition table (s : FM_SHARE_CORE) : gmap Z bytes :=
  list_to_map (omap (λ i, (i,.) <$> row_at s i) (seqZ 0 (total_slots s))).

(** The bucket of a record under key [k]. *)
Definition bucket_of (s : FM_SHARE_CORE) (k : Z) (rec : bytes) : Z :=
  match key_cfg s k with
  | Some (o, _, nb) => Z.land (hash_of o rec) (nb - 1)
  | None => 0
  end.

(** * Chains *)

(** [key_rep s k P]: the chain of every bucket [b] of key [k] holds, without repetition,
    exactly the slots [i] with [P b i]. *)
Definition key_rep (s : FM_SHARE_CORE) (k : Z) (P : Z → Z → Prop) : Prop :=
  ∀ b h, head_at s k b = Some h → ∃ l,
    linked (fm_key_next s k) h l ∧ NoDup l ∧ ∀ i, i ∈ l ↔ P b i.

(** Row [i] belongs to bucket [b] of key [k]. *)
Definition indexed (s : FM_SHARE_CORE) (k b i : Z) : Prop :=
  ∃ rec, row_at s i = Some rec ∧ bucket_of s k rec = b.

(** * Freelist *)

Definition free_next_at (s : FM_SHARE_CORE) (i : Z) : option Z := free_next <$> fm_slot s i.

(** The freelist holds, without repetition, only dead slots outside [X], and every dead slot
    within the row limit outside [X]. *)
Definition free_rep (s : FM_SHARE_CORE) (X : gset Z) : Prop := ∃ fl,
  linked (free_next_at s) (free_head s) fl ∧ NoDup fl ∧
  (∀ i, i ∈ fl → 0 ≤ i < total_slots s ∧ row_at s i = None ∧ i ∉ X) ∧
  (∀ i, 0 ≤ i < total_slots s → i < max_records s → row_at s i = None → i ∉ X → i ∈ fl).

(** * Heap blocks *)

Definition ptr_block {A} (p : option (nat * A)) : list nat :=
  match p with Some q => [q.1] | None => [] end.

Definition chunk_blocks (c : FM_CHUNK) : list nat :=
  ptr_block (slots c) ++
  match key_next c with Some p => map fst p.2 ++ [p.1] | None => [] end.

Definition key_blocks (kc : FM_KEY_CORE) : list nat := ptr_block (head kc) ++ ptr_block (locks kc).

Definition array_blocks {A} (f : A → list nat) (p : option (nat * list A)) : list nat :=
  match p with Some q => q.1 :: flat_map f q.2 | None => [] end.

(** The blocks a share owns. *)
Definition blocks (s : FM_SHARE_CORE) : list nat :=
  array_blocks chunk_blocks (chunks s) ++ array_blocks key_blocks (keydef s).

(** Every owned block is live and owned once; block numbers are fresh. *)
Definition heap_ok (s : FM_SHARE_CORE) : Prop :=
  NoDup (blocks s) ∧ (∀ p, p ∈ blocks s → p ∈ live (heap s)) ∧
  (∀ p, p ∈ live (heap s) → (p < calls (heap s))%nat).

(** The live blocks the share does not own. *)
Definition foreign (s : FM_SHARE_CORE) : gset nat := live (heap s) ∖ list_to_set (blocks s).

(** * Locks *)

(** The slot locks in [held] are taken; no other lock of the share is. *)
Definition locks_ok (held : gset Z) (s : FM_SHARE_CORE) : Prop :=
  struct_mutex s = 0 ∧
  (∀ k b v, lock_at s k b = Some v → v = 0) ∧
  (∀ i sl, fm_slot s i = Some sl → wlock sl = if decide (i ∈ held) then 1 else 0).

(** * The invariant between operations *)

Record slot_ok (s : FM_SHARE_CORE) (sl : FM_SLOT) : Prop := {
  sk_seq : 0 ≤ seq sl < 2 ^ 32 ∧ Z.land (seq sl) 1 = 0;
  sk_gen : 0 ≤ gen sl < 2 ^ 32;
  sk_state : state sl ≠ FM_SLOT_DELETING;
  sk_data : state sl = FM_SLOT_ACTIVE → Z.of_nat (length (data sl)) = reclength s
}.

(** No two rows agree on a unique key, rows with a NULL key part apart. *)
Definition unique_ok (s : FM_SHARE_CORE) (t : gmap Z bytes) : Prop :=
  ∀ k o nb i j a b, 0 ≤ k < keys s → key_cfg s k = Some (o, true, nb) → i ≠ j →
    t !! i = Some a → t !! j = Some b → ¬ null_key o a → ¬ same_key o a b.

Record wf (held : gset Z) (s : FM_SHARE_CORE) : Prop := {
  wf_static : static_ok s;
  wf_heap : heap_ok s;
  wf_locks : locks_ok held s;
  wf_slots i sl : fm_slot s i = Some sl → slot_ok s sl;
  wf_keys k : 0 ≤ k < keys s → key_rep s k (indexed s k);
  wf_free : free_rep s ∅;
  wf_records : records s = Z.of_nat (size (table s));
  wf_unique : unique_ok s (table s)
}.

(** * Properties of the configuration *)

Lemma arrays_ok_erase s s' : erase s' = erase s → arrays_ok s → arrays_ok s'.
Proof.
  intros E ((p & cs & Hcs & Hlen) & Hkd & Hch).
  assert (Hsz : ∀ A B (g : A → B) (o o' : option (nat * list A)),
    on_block (map g) <$> o' = on_block (map g) <$> o → length ∘ snd <$> o' = length ∘ snd <$> o).
  { intros A B g o o' H. apply (f_equal (fmap (length ∘ snd))) in H.
    destruct o as [[]|], o' as [[]|]; simpl in *; rewrite ?length_map in H; done. }
  split_and!.
  - pose proof (Hsz _ _ _ _ _ (f_equal chunks E)) as H. rewrite Hcs in H.
    destruct (chunks s') as [[p' cs']|]; [|done]. exists p', cs'. split; [done|].
    rewrite (erase_chunk_cap _ _ E). injection H. lia.
  - pose proof (Hsz _ _ _ _ _ (f_equal keydef E)) as H. rewrite (erase_keys _ _ E).
    destruct (keydef s) as [q|], (keydef s') as [q'|]; try done. injection H. lia.
  - rewrite (erase_chunk_cnt _ _ E), (erase_keys _ _ E). intros c Hc. destruct (Hch c Hc) as (ch & Hat & Hk).
    pose proof (chunk_at_erase _ _ E c) as Hce. rewrite Hat in Hce.
    destruct (chunk_at s' c) as [ch'|]; [|done]. exists ch'. split; [done|]. injection Hce as _ Hce.
    pose proof (Hsz _ _ _ _ _ Hce) as H. destruct (key_next ch), (key_next ch'); try done. injection H. lia.
Qed.

Lemma static_ok_erase s s' : erase s' = erase s → static_ok s → static_ok s'.
Proof.
  intros E H. unfold total_slots in *.
  constructor; unfold total_slots;
    rewrite ?(erase_keys _ _ E), ?(erase_reclength _ _ E), ?(erase_chunk_cnt _ _ E),
      ?(erase_chunk_cap _ _ E), ?(erase_max_records _ _ E);
    try solve [apply (so_keys _ H)|apply (so_reclength _ H)|apply (so_cnt _ H)|apply (so_cap _ H)
              |apply (so_max _ H)|apply (so_cap_max _ H)].
  - eapply arrays_ok_erase; [done|apply H].
  - intros c Hc. pose proof (chunk_at_erase _ _ E c) as He. rewrite (so_fresh _ H c Hc) in He.
    by destruct (chunk_at s' c) as [[[] []]|].
  - intros i. rewrite (erase_is_Some_slot _ _ E). apply H.
  - intros k i Hk Hi. apply (erase_is_Some_next _ _ E). by apply H.
  - intros k Hk. destruct (so_key _ H k Hk) as (o & u & n & Hc & Hn & Hl & Hb).
    exists o, u, n. rewrite (key_cfg_erase _ _ E). split; [done|]. split; [done|]. split; [done|].
    intros b Hb'. destruct (Hb b Hb').
    by rewrite (erase_is_Some_head _ _ E), (erase_is_Some_lock _ _ E).
  - intros k b o u nb. rewrite (key_cfg_erase _ _ E), (erase_is_Some_head _ _ E). apply H.
Qed.

Lemma blocks_erase_eq s : blocks (erase s) = blocks s.
Proof.
  assert (Hflat : ∀ {A} (g : A → A) (f : A → list nat) l, (∀ x, f (g x) = f x) →
    flat_map f (map g l) = flat_map f l).
  { intros A g f l Hg. induction l as [|x l IH]; simpl; [done|]. by rewrite Hg, IH. }
  unfold blocks, erase. simpl. f_equal.
  - destruct (chunks s) as [[p cs]|]; [|done]. simpl. f_equal. apply Hflat.
    intros [[[]|] [[q kn]|]]; unfold chunk_blocks; simpl; rewrite ?map_map; done.
  - destruct (keydef s) as [[p ks]|]; [|done]. simpl. f_equal. apply Hflat.
    by intros [? ? ? [[]|] [[]|]].
Qed.

Lemma heap_ok_erase s s' : erase s' = erase s → heap_ok s → heap_ok s'.
Proof.
  intros E H. unfold heap_ok. by rewrite <-(blocks_erase_eq s'), E, blocks_erase_eq, (erase_heap _ _ E).
Qed.

Lemma foreign_erase s s' : erase s' = erase s → foreign s' = foreign s.
Proof. intros E. unfold foreign. by rewrite <-(blocks_erase_eq s'), E, blocks_erase_eq, (erase_heap _ _ E). Qed.

Lemma total_slots_erase s s' : erase s' = erase s → total_slots s' = total_slots s.
Proof. intros E. unfold total_slots. by rewrite (erase_chunk_cnt _ _ E). Qed.

Lemma bucket_of_erase s s' k rec : erase s' = erase s → bucket_of s' k rec = bucket_of s k rec.
Proof. intros E. unfold bucket_of. by rewrite (key_cfg_erase _ _ E). Qed.

Lemma slot_count_total s : static_ok s → fm_core_slot_count s = total_slots s.
Proof.
  intros H. unfold fm_core_slot_count, total_slots, FM_CHUNK_SHIFT.
  destruct (so_cnt _ H). pose proof (so_cap _ H).
  rewrite Z.shiftl_mul_pow2 by lia. apply u32_small. lia.
Qed.

Lemma total_bound s : static_ok s → 0 ≤ total_slots s ≤ 2 ^ 31.
Proof. intros H. unfold total_slots. destruct (so_cnt _ H). pose proof (so_cap _ H). lia. Qed.

Lemma bucket_of_range s k rec : static_ok s → 0 ≤ k < keys s →
  is_Some (head_at s k (bucket_of s k rec)) ∧ is_Some (lock_at s k (bucket_of s k rec)).
Proof.
  intros H Hk. destruct (so_key _ H k Hk) as (o & u & n & Hc & Hn & Hl & Hb).
  apply Hb. unfold bucket_of. rewrite Hc, land_pow2_mask by lia.
  apply Z.mod_pos_bound. lia.
Qed.

(** * Properties of the table *)

Lemma row_at_Some s i rec :
  row_at s i = Some rec ↔
  ∃ sl, fm_slot s i = Some sl ∧ state sl = FM_SLOT_ACTIVE ∧ data sl = rec.
Proof.
  unfold row_at, row_of. destruct (fm_slot s i) as [sl|]; simpl; [|naive_solver].
  case_decide; naive_solver.
Qed.

Lemma row_at_slot s i sl : fm_slot s i = Some sl → row_at s i = row_of sl.
Proof. unfold row_at. by intros ->. Qed.

Lemma row_at_range s i rec : static_ok s → row_at s i = Some rec → 0 ≤ i < total_slots s.
Proof.
  intros H (sl & Hsl & _)%row_at_Some. apply (so_slot _ H). by exists sl.
Qed.

Lemma collect_NoDup {A} (f : Z → option A) a n : NoDup (omap (λ i, (i,.) <$> f i) (seqZ a n)).*1.
Proof.
  generalize (NoDup_seqZ a n). generalize (seqZ a n).
  intros js. induction js as [|j js IH]; [constructor|]. intros [Hj Hnd]%NoDup_cons. simpl.
  destruct (f j); simpl; [|by apply IH]. constructor; [|by apply IH].
  intros ([? ?] & -> & Hin)%list_elem_of_fmap. apply list_elem_of_omap in Hin as (j' & Hj' & Heq).
  destruct (f j'); simplify_eq/=. done.
Qed.

(** A partial function with finite domain, collected into a map. *)
Lemma collect_lookup {A} (f : Z → option A) n i : (∀ j a, f j = Some a → 0 ≤ j < n) →
  (list_to_map (omap (λ i, (i,.) <$> f i) (seqZ 0 n)) : gmap Z A) !! i = f i.
Proof.
  intros H. set (l := omap _ _). assert (Hnd : NoDup l.*1) by apply collect_NoDup.
  apply option_eq. intros a. rewrite <-(elem_of_list_to_map (M := gmap Z)) by done.
  unfold l. rewrite list_elem_of_omap. split.
  - intros (j & Hj & Heq). destruct (f j) eqn:Hr; simplify_eq/=. done.
  - intros Hr. exists i. rewrite Hr. split; [|done]. apply elem_of_seqZ. apply H in Hr. lia.
Qed.

Lemma table_lookup s i : static_ok s → table s !! i = row_at s i.
Proof. intros H. apply collect_lookup. intros j rec. by apply row_at_range. Qed.

(** Two shares with the same rows have the same table. *)
Lemma table_ext s s' : static_ok s → static_ok s' → (∀ i, row_at s' i = row_at s i) → table s' = table s.
Proof. intros H H' Hr. apply map_eq. intros i. by rewrite !table_lookup. Qed.

Lemma table_insert s s' i rec : static_ok s → static_ok s' →
  row_at s' i = Some rec → (∀ j, j ≠ i → row_at s' j = row_at s j) → table s' = <[i:=rec]> (table s).
Proof.
  intros H H' Hi Hr. apply map_eq. intros j. rewrite table_lookup by done.
  destruct (decide (j = i)) as [->|Hj].
  - by rewrite lookup_insert_eq.
  - rewrite lookup_insert_ne, table_lookup by done. by apply Hr.
Qed.

Lemma table_delete s s' i : static_ok s → static_ok s' →
  row_at s' i = None → (∀ j, j ≠ i → row_at s' j = row_at s j) → table s' = delete i (table s).
Proof.
  intros H H' Hi Hr. apply map_eq. intros j. rewrite table_lookup by done.
  destruct (decide (j = i)) as [->|Hj].
  - by rewrite lookup_delete_eq.
  - rewrite lookup_delete_ne, table_lookup by done. by apply Hr.
Qed.

(** * Chains as predicates *)

#[export] Instance key_rep_proper s k :
  Proper (pointwise_relation Z (pointwise_relation Z iff) ==> iff) (key_rep s k).
Proof.
  intros P Q HPQ. unfold key_rep, pointwise_relation in *.
  split; intros H b h Hh; destruct (H b h Hh) as (l & ? & ? & Hl); exists l; split_and!; try done;
    intros i; rewrite Hl; [|symmetry]; apply HPQ.
Qed.

(** [key_rep] depends only on the heads and next fields of the key. *)
Lemma key_rep_frame s s' k P :
  (∀ b, head_at s' k b = head_at s k b) → (∀ i, fm_key_next s' k i = fm_key_next s k i) →
  key_rep s k P → key_rep s' k P.
Proof.
  intros Hh Hn H b h Hb. rewrite Hh in Hb. destruct (H b h Hb) as (l & Hl & ? & ?).
  exists l. split_and!; [|done..]. eapply linked_ext; [|done]. intros x _. apply Hn.
Qed.

Lemma indexed_ext s s' k b i :
  (row_at s' i = row_at s i) → (∀ rec, bucket_of s' k rec = bucket_of s k rec) →
  indexed s' k b i ↔ indexed s k b i.
Proof. intros Hr Hb. unfold indexed. rewrite Hr. by setoid_rewrite Hb. Qed.

Lemma indexed_fun s k b b' i : indexed s k b i → indexed s k b' i → b = b'.
Proof. intros (r & Hr & <-) (r' & Hr' & <-). by simplify_eq. Qed.

Lemma indexed_range s k b i : static_ok s → indexed s k b i → 0 ≤ i < total_slots s.
Proof. intros H (r & Hr & _). by eapply row_at_range. Qed.
