(* ===== verification/Chains.v ===== *)
(** Memory accesses and locks as equations, and the correctness of the hash chains:
    [fm_core_chain_link] and [fm_core_chain_unlink] on the predicate a chain represents. *)

From S2P Require Import Prelude CoreState CoreOps RowOps Shape Inv.

(** [chains_only s s']: at most the chains (heads and next fields) differ. *)
Record chains_only (s s' : FM_SHARE_CORE) : Prop := {
  co_erase : erase s' = erase s;
  co_slot i : fm_slot s' i = fm_slot s i;
  co_lock k b : lock_at s' k b = lock_at s k b;
  co_free : free_head s' = free_head s;
  co_records : records s' = records s;
  co_mutex : struct_mutex s' = struct_mutex s
}.

(** [links_only k s s']: at most the chains of key [k] differ. *)
Record links_only (k : Z) (s s' : FM_SHARE_CORE) : Prop := {
  lo_chains : chains_only s s';
  lo_next k' i : k' ≠ k → fm_key_next s' k' i = fm_key_next s k' i;
  lo_head k' b : k' ≠ k → head_at s' k' b = head_at s k' b
}.

(** * Accesses as equations *)

Section prims.
Implicit Types s : FM_SHARE_CORE.

Lemma deref_slot_run s i sl : fm_slot s i = Some sl → deref_slot i s = Ret (sl, s).
Proof. intros H. unfold deref_slot, mbind, M_bind; simpl. by rewrite H. Qed.

Lemma store_slot_run s f i : is_Some (fm_slot s i) → store_slot f i s = Ret (tt, upd_slot f i s).
Proof. intros [sl H]. unfold store_slot. by rewrite (bind_Ret _ _ _ _ _ (deref_slot_run _ _ _ H)). Qed.

Lemma deref_key_run s k kc : key_at s k = Some kc → deref_key k s = Ret (kc, s).
Proof. intros H. unfold deref_key, mbind, M_bind; simpl. by rewrite H. Qed.

Lemma deref_next_run s k i n : fm_key_next s k i = Some n → deref_next k i s = Ret (n, s).
Proof. intros H. unfold deref_next, mbind, M_bind; simpl. by rewrite H. Qed.

Lemma store_next_run s k i v : is_Some (fm_key_next s k i) → store_next k i v s = Ret (tt, upd_next v k i s).
Proof. intros [n H]. unfold store_next. by rewrite (bind_Ret _ _ _ _ _ (deref_next_run _ _ _ _ H)). Qed.

Lemma deref_head_run s k b h : head_at s k b = Some h → deref_head k b s = Ret (h, s).
Proof. intros H. unfold deref_head, mbind, M_bind; simpl. by rewrite H. Qed.

Lemma store_head_run s k b v : is_Some (head_at s k b) → store_head k b v s = Ret (tt, upd_head v k b s).
Proof. intros [h H]. unfold store_head. by rewrite (bind_Ret _ _ _ _ _ (deref_head_run _ _ _ _ H)). Qed.

Lemma get_run {S} (t : S) : get t = Ret (t, t).
Proof. reflexivity. Qed.

Lemma modify_run {S} (f : S → S) (t : S) : modify f t = Ret (tt, f t).
Proof. reflexivity. Qed.

Lemma unwrap_run {S A} (o : option A) (a : A) (t : S) : o = Some a → unwrap o t = Ret (a, t).
Proof. by intros ->. Qed.

Lemma wlock_lock_run s i sl :
  fm_slot s i = Some sl → wlock sl = 0 → wlock_lock i s = Ret (tt, upd_slot (sl_with_wlock 1) i s).
Proof.
  intros H Hw. unfold wlock_lock. rewrite (bind_Ret _ _ _ _ _ (deref_slot_run _ _ _ H)).
  by rewrite decide_True.
Qed.

Lemma wlock_unlock_run s i :
  is_Some (fm_slot s i) → wlock_unlock i s = Ret (tt, upd_slot (sl_with_wlock 0) i s).
Proof. apply store_slot_run. Qed.

Lemma bucket_lock_run s k b : lock_at s k b = Some 0 → bucket_lock k b s = Ret (tt, upd_lock 1 k b s).
Proof. intros H. unfold bucket_lock, mbind, M_bind; simpl. by rewrite H. Qed.

Lemma bucket_unlock_run s k b :
  is_Some (lock_at s k b) → bucket_unlock k b s = Ret (tt, upd_lock 0 k b s).
Proof. intros [v H]. unfold bucket_unlock, mbind, M_bind; simpl. by rewrite H. Qed.

Lemma struct_lock_run s : struct_mutex s = 0 → struct_lock s = Ret (tt, with_struct_mutex 1 s).
Proof. intros H. unfold struct_lock, mbind, M_bind; simpl. by rewrite decide_True. Qed.

Lemma key_bucket_run s k kc rec : static_ok s → 0 ≤ k < keys s → key_at s k = Some kc →
  fm_core_key_bucket kc rec s = Ret (bucket_of s k rec, s).
Proof.
  intros H Hk Hkc. destruct (so_key _ H k Hk) as (o & u & n & Hc & Hn & Hl & Hb).
  rewrite (key_cfg_key_at _ _ _ Hkc) in Hc. simplify_eq.
  destruct (laws_hash_rec (o := ops kc)) as [f Hf].
  unfold fm_core_key_bucket, bucket_of, hash_of. rewrite (key_cfg_key_at _ _ _ Hkc), Hf. reflexivity.
Qed.

Lemma key_at_is_Some s k : static_ok s → 0 ≤ k < keys s → ∃ kc n, key_at s k = Some kc ∧
  nbuckets kc = 2 ^ n ∧ 0 ≤ n < 32 ∧ KeyOpsLaws (ops kc).
Proof.
  intros H Hk. destruct (so_key _ H k Hk) as (o & u & n & Hc & Hn & Hl & Hb).
  unfold key_cfg in Hc. destruct (key_at s k) as [kc|]; simplify_eq/=. by exists kc, n.
Qed.
End prims.

(** [wp_get]: read the state; [wp_mod]: apply a pure state update. *)
Ltac wp_get := wp_step @get_run.
Ltac wp_mod := wp_step @modify_run.

(** * Frames *)

#[export] Instance chains_only_refl : Reflexive chains_only.
Proof. intros s. by constructor. Qed.

#[export] Instance chains_only_trans : Transitive chains_only.
Proof.
  intros s1 s2 s3 [E1 S1 L1 F1 R1 M1] [E2 S2 L2 F2 R2 M2]. constructor; intros; congruence.
Qed.

#[export] Instance links_only_refl k : Reflexive (links_only k).
Proof. intros s. by constructor. Qed.

#[export] Instance links_only_trans k : Transitive (links_only k).
Proof.
  intros s1 s2 s3 [H1 H1n H1h] [H2 H2n H2h].
  constructor; [by etrans|intros; by rewrite H2n, H1n|intros; by rewrite H2h, H1h].
Qed.

Lemma chains_only_row s s' i : chains_only s s' → row_at s' i = row_at s i.
Proof. intros H. unfold row_at. by rewrite (co_slot _ _ H). Qed.

Lemma chains_only_bracket k b s s' : lock_at s k b = Some 0 →
  chains_only (upd_lock 1 k b s) s' → chains_only s (upd_lock 0 k b s').
Proof.
  intros Hl [He Hs Hk Hf Hr Hm]. rewrite erase_upd_lock in He.
  constructor; fm_frame; try done.
  intros k' b'. rewrite lock_at_upd, Hk, lock_at_upd. case_decide as Hd; [|done].
  by simplify_eq; rewrite Hl.
Qed.

Lemma links_only_bracket k b s s' : lock_at s k b = Some 0 →
  links_only k (upd_lock 1 k b s) s' → links_only k s (upd_lock 0 k b s').
Proof.
  intros Hl [Hc Hn Hh]. constructor; [by apply chains_only_bracket|..]; intros; fm_frame.
  - by rewrite Hn.
  - rewrite Hh by done. by fm_frame.
Qed.

Lemma links_only_key_rep k k' s s' P : links_only k s s' → k' ≠ k → key_rep s k' P → key_rep s' k' P.
Proof. intros [Hc Hn Hh] Hk. apply key_rep_frame; auto. Qed.

(** * Linking *)

Lemma fm_core_chain_link_run k b idx h s :
  head_at s k b = Some h → is_Some (fm_key_next s k idx) →
  fm_core_chain_link k b idx s = Ret (tt, upd_head idx k b (upd_next h k idx s)).
Proof.
  intros Hh Hn. unfold fm_core_chain_link.
  rewrite (bind_Ret _ _ _ _ _ (deref_head_run _ _ _ _ Hh)).
  rewrite (bind_Ret _ _ _ _ _ (store_next_run _ _ _ _ Hn)).
  apply store_head_run. fm_frame. by exists h.
Qed.

Lemma link_links_only k b idx h s : links_only k s (upd_head idx k b (upd_next h k idx s)).
Proof.
  constructor; [constructor|..]; intros; fm_frame; try done.
  - apply fm_key_next_upd_ne. congruence.
  - rewrite head_at_upd_ne by congruence. by fm_frame.
Qed.

(** Linking a slot that is on no chain of the key adds it to its bucket. *)
Lemma fm_core_chain_link_spec k b idx P s :
  key_rep s k P → 0 ≤ idx → (∀ b', ¬ P b' idx) →
  is_Some (head_at s k b) → is_Some (fm_key_next s k idx) →
  wp (fm_core_chain_link k b idx)
    (λ _ s', links_only k s s' ∧ key_rep s' k (λ b' i, P b' i ∨ b' = b ∧ i = idx)) s.
Proof.
  intros HP Hidx Hfresh [h Hh] Hn.
  eapply wp_run; [by apply fm_core_chain_link_run|]. split; [apply link_links_only|].
  assert (Hkeep : ∀ b' h' l, linked (fm_key_next s k) h' l → (∀ i, i ∈ l ↔ P b' i) →
    linked (fm_key_next (upd_head idx k b (upd_next h k idx s)) k) h' l).
  { intros b' h' l Hl Hin. eapply linked_ext; [|done]. intros x Hx. fm_frame.
    apply fm_key_next_upd_ne. intros [=]; subst. apply Hin in Hx. naive_solver. }
  intros b' h' Hb'. rewrite head_at_upd in Hb'. case_decide as Hd.
  - simplify_eq. revert Hb'. fm_frame. rewrite Hh. intros [= <-].
    destruct (HP b' h Hh) as (l & Hl & Hnd & Hin). exists (idx :: l). split_and!.
    + split_and!; [done|done|]. exists h. fm_frame. rewrite fm_key_next_upd_eq.
      destruct Hn as [n ->]. split; [done|]. by eapply Hkeep.
    + constructor; [|done]. rewrite Hin. naive_solver.
    + intros i. rewrite elem_of_cons, Hin. naive_solver.
  - revert Hb'. fm_frame. intros Hb'. destruct (HP b' h' Hb') as (l & Hl & Hnd & Hin).
    exists l. split_and!; [by eapply Hkeep|done|]. intros i. rewrite Hin. naive_solver.
Qed.

(** * Unlinking *)

Definition link_val (s : FM_SHARE_CORE) (k : Z) (lp : link_ptr) : option Z :=
  match lp with link_head b => head_at s k b | link_next i => fm_key_next s k i end.

Definition link_upd (k : Z) (lp : link_ptr) (v : Z) (s : FM_SHARE_CORE) : FM_SHARE_CORE :=
  match lp with link_head b => upd_head v k b s | link_next i => upd_next v k i s end.

(** The cell that points past the prefix [l1] of the chain that starts at [lp]. *)
Definition link_after (lp : link_ptr) (l1 : list Z) : link_ptr :=
  match last l1 with Some p => link_next p | None => lp end.

Lemma link_get_run s k lp v : link_val s k lp = Some v → link_get k lp s = Ret (v, s).
Proof. destruct lp; [apply deref_head_run|apply deref_next_run]. Qed.

Lemma link_set_run s k lp v : is_Some (link_val s k lp) → link_set k lp v s = Ret (tt, link_upd k lp v s).
Proof. destruct lp; [apply store_head_run|apply store_next_run]. Qed.

Lemma unlink_loop_absent k idx s l : ∀ fuel lp v,
  link_val s k lp = Some v → linked (fm_key_next s k) v l → (length l < fuel)%nat → idx ∉ l →
  unlink_loop fuel k idx lp s = Ret (FM_ERR_NOT_FOUND, s).
Proof.
  induction l as [|x l IH]; intros [|fuel] lp v Hv Hl Hf Hidx; simpl in Hf; try lia;
    simpl; rewrite (bind_Ret _ _ _ _ _ (link_get_run _ _ _ _ Hv)).
  - by rewrite decide_True.
  - destruct Hl as (-> & Hx & n & Hn & Hl). apply not_elem_of_cons in Hidx as [Hne Hidx].
    rewrite decide_False by (unfold FM_NULL_SLOT; lia). rewrite decide_False by done.
    eapply IH; [done|done|lia|done].
Qed.

Lemma unlink_loop_found k idx n s l2 l1 : ∀ fuel lp v,
  link_val s k lp = Some v → linked (fm_key_next s k) v (l1 ++ idx :: l2) →
  (length l1 < fuel)%nat → idx ∉ l1 → fm_key_next s k idx = Some n →
  unlink_loop fuel k idx lp s = Ret (FM_ERR_OK, link_upd k (link_after lp l1) n s).
Proof.
  induction l1 as [|x l1 IH]; intros [|fuel] lp v Hv Hl Hf Hidx Hn; simpl in Hf; try lia;
    simpl; rewrite (bind_Ret _ _ _ _ _ (link_get_run _ _ _ _ Hv)).
  - destruct Hl as (-> & Hx & n' & Hn' & Hl). rewrite decide_False by (unfold FM_NULL_SLOT; lia).
    rewrite decide_True by done. rewrite (bind_Ret _ _ _ _ _ (deref_next_run _ _ _ _ Hn)).
    rewrite (bind_Ret _ _ _ _ _ (link_set_run _ _ _ _ (mk_is_Some _ _ Hv))). done.
  - destruct Hl as (-> & Hx & n' & Hn' & Hl). apply not_elem_of_cons in Hidx as [Hne Hidx].
    rewrite decide_False by (unfold FM_NULL_SLOT; lia). rewrite decide_False by done.
    erewrite (IH fuel (link_next x)); [|done|done|lia|done|done].
    unfold link_after. rewrite last_cons. by destruct (last l1).
Qed.

(** Redirecting the cell before [idx] removes [idx] from the list. *)
Lemma linked_remove next next' p idx n h l0 l2 :
  linked next h ((l0 ++ [p]) ++ idx :: l2) → NoDup ((l0 ++ [p]) ++ idx :: l2) →
  next idx = Some n → next' p = Some n → (∀ x, x ≠ p → next' x = next x) →
  linked next' h ((l0 ++ [p]) ++ l2).
Proof.
  intros Hl Hnd Hn Hp Hext. revert h Hl Hnd. induction l0 as [|x l0 IH]; intros h.
  - simpl. intros (-> & Hp0 & m & Hm & -> & Hi & m' & Hm' & Hl) Hnd. simplify_eq.
    split_and!; [done|done|]. exists n. split; [done|].
    eapply linked_ext; [|done]. intros x Hx. apply Hext. intros ->.
    apply NoDup_cons in Hnd as [Hnd _]. set_solver.
  - simpl. intros (-> & Hx & m & Hm & Hl) [Hxn Hnd]%NoDup_cons.
    split_and!; [done|done|]. exists m. rewrite Hext; [|intros ->; set_solver].
    split; [done|]. by apply IH.
Qed.

Lemma link_upd_links_only k lp v s : links_only k s (link_upd k lp v s).
Proof.
  destruct lp; constructor; [constructor|..|constructor|idtac|idtac]; intros; simpl; fm_frame; try done.
  - apply head_at_upd_ne. congruence.
  - apply fm_key_next_upd_ne. congruence.
Qed.

(** The chain of bucket [b] of key [k], with the bound that makes walks terminate. *)
Lemma key_rep_walk s k P b h : static_ok s → key_rep s k P → (∀ b i, P b i → 0 ≤ i < total_slots s) →
  head_at s k b = Some h → ∃ l, linked (fm_key_next s k) h l ∧ NoDup l ∧ (∀ i, i ∈ l ↔ P b i) ∧
    (length l < walk_fuel s)%nat.
Proof.
  intros Hs HP Hb Hh. destruct (HP b h Hh) as (l & Hl & Hnd & Hin). exists l. split_and!; try done.
  unfold walk_fuel. rewrite slot_count_total by done.
  pose proof (NoDup_bounded_length l (total_slots s) Hnd) as Hlen.
  pose proof (total_bound _ Hs). specialize (Hlen ltac:(intros x Hx; by eapply Hb, Hin)). lia.
Qed.

(** Unlinking a slot that is not on the chain changes nothing and reports it. *)
Lemma fm_core_chain_unlink_absent k b idx P s :
  static_ok s → key_rep s k P → (∀ b i, P b i → 0 ≤ i < total_slots s) →
  ¬ P b idx → is_Some (head_at s k b) →
  fm_core_chain_unlink k b idx s = Ret (FM_ERR_NOT_FOUND, s).
Proof.
  intros Hs HP Hb Hn [h Hh]. destruct (key_rep_walk _ _ _ _ _ Hs HP Hb Hh) as (l & Hl & Hnd & Hin & Hf).
  unfold fm_core_chain_unlink. rewrite (bind_Ret _ _ _ _ _ (get_run _)).
  eapply unlink_loop_absent; [done|done|done|]. by rewrite Hin.
Qed.

(** Unlinking a slot of the bucket takes it off the chain, and off no other. *)
Lemma fm_core_chain_unlink_spec k b idx P s :
  static_ok s → key_rep s k P → (∀ b i, P b i → 0 ≤ i < total_slots s) →
  (∀ b b' i, P b i → P b' i → b = b') → P b idx → is_Some (head_at s k b) →
  wp (fm_core_chain_unlink k b idx)
    (λ rc s', rc = FM_ERR_OK ∧ links_only k s s' ∧ key_rep s' k (λ b' i, P b' i ∧ i ≠ idx)) s.
Proof.
  intros Hs HP Hb Hfun Hidx [h Hh].
  destruct (key_rep_walk _ _ _ _ _ Hs HP Hb Hh) as (l & Hl & Hnd & Hin & Hf).
  assert (Hil : idx ∈ l) by by apply Hin. apply list_elem_of_split in Hil as (l1 & l2 & ->).
  destruct (linked_suffix _ _ _ _ _ Hl) as (n & Hn & Hl2). rewrite length_app in Hf. simpl in Hf.
  eapply wp_run.
  { unfold fm_core_chain_unlink. rewrite (bind_Ret _ _ _ _ _ (get_run _)).
    eapply (unlink_loop_found k idx n s l2 l1 _ (link_head b)); [done|done|lia| |done].
    apply NoDup_app in Hnd as (_ & Hd & _). set_solver. }
  split; [done|]. split; [apply link_upd_links_only|].
  assert (Hlst : ∀ i, i ∈ l1 ++ l2 ↔ P b i ∧ i ≠ idx).
  { intros i. rewrite <-Hin. apply NoDup_app in Hnd as (_ & Hd & [Hi2 _]%NoDup_cons). set_solver. }
  assert (Hnd' : NoDup (l1 ++ l2)).
  { apply NoDup_app in Hnd as (? & Hd & [? ?]%NoDup_cons). apply NoDup_app. set_solver. }
  intros b' h' Hh'. destruct l1 as [|p l1 _] using rev_ind.
  - (* idx is the first of its bucket *)
    simpl in *. unfold link_after in *. simpl in *. rewrite head_at_upd in Hh'. case_decide as Hd.
    + simplify_eq. rewrite Hh in Hh'. simplify_eq/=. exists l2. split_and!; [|done|done].
      eapply linked_ext; [|done]. intros; by fm_frame.
    + destruct (HP b' h' Hh') as (l' & Hl' & ? & Hin'). exists l'. split_and!; [|done|].
      * eapply linked_ext; [|done]. intros; by fm_frame.
      * intros i. rewrite Hin'. split; [|by intros [? _]]. intros Hi. split; [done|].
        intros ->. apply Hd. f_equal. by eapply Hfun.
  - (* idx follows p *)
    unfold link_after in *. rewrite last_snoc in *. simpl in *.
    revert Hh'. fm_frame. intros Hh'. destruct (decide (b' = b)) as [->|Hbb].
    + simplify_eq. exists ((l1 ++ [p]) ++ l2). split_and!; [|done|done].
      eapply linked_remove; [done|done|done|..].
      * rewrite fm_key_next_upd_eq.
        destruct (linked_next_Some _ _ _ p Hl ltac:(set_solver)) as [m ->]. done.
      * intros x Hx. apply fm_key_next_upd_ne. congruence.
    + destruct (HP b' h' Hh') as (l' & Hl' & ? & Hin'). exists l'. split_and!; [|done|].
      * eapply linked_ext; [|done]. intros x Hx. apply fm_key_next_upd_ne. intros [=]; subst.
        apply Hbb. eapply Hfun; [by apply Hin'|]. apply Hin. set_solver.
      * intros i. rewrite Hin'. split; [|by intros [? _]]. intros Hi. split; [done|].
        intros ->. apply Hbb. by eapply Hfun.
Qed.
