(* ===== verification/Reads.v ===== *)
(** Correctness of the read side of the core (src/fm_core.h): row reads with generation
    checks, scans, exact-key lookups and their continuation, and the duplicate check.
    Every read leaves the share as it was. *)

From Stdlib Require Import Sorted.
From S2P Require Import Prelude CoreState CoreOps RowOps Shape Inv Chains.

(** * Drivers that iterate a read to its end, as the callers of the core do *)

(** [while (fm_core_scan_next(...) == FM_ERR_OK)] *)
Fixpoint scan_all (fuel : nat) (pos : Z) (buf : bytes) : SM (list (Z * bytes)) :=
  match fuel with
  | O => hang
  | S fuel' =>
      '(rc, pos, buf) ← fm_core_scan_next pos buf;
      if decide (rc = FM_ERR_OK) then
        rest ← scan_all fuel' pos buf; mret ((pos - 1, buf) :: rest)
      else mret []
  end.

(** [while (fm_core_find_next(..., cur, ...) == FM_ERR_OK) cur= idx;] *)
Fixpoint find_next_all (fuel : nat) (key : Z) (pk : bytes) (cur : Z) (buf : bytes) : SM (list Z) :=
  match fuel with
  | O => hang
  | S fuel' =>
      '(rc, idx, buf) ← fm_core_find_next key pk cur buf FM_NULL_SLOT;
      if decide (rc = FM_ERR_OK) then
        rest ← find_next_all fuel' key pk idx buf; mret (idx :: rest)
      else mret []
  end.

Definition find_all (fuel : nat) (key : Z) (pk buf : bytes) : SM (list Z) :=
  '(rc, idx, buf) ← fm_core_find key pk buf FM_NULL_SLOT;
  if decide (rc = FM_ERR_OK) then
    rest ← find_next_all fuel key pk idx buf; mret (idx :: rest)
  else mret [].

(** Slot [i] is a row whose key equals the packed key [pk]. *)
Definition row_matches (s : FM_SHARE_CORE) (o : FM_KEY_OPS) (pk : bytes) (i : Z) : Prop :=
  match row_at s i with Some rec => matches_key o rec pk | None => False end.

(** Slot [i] is a row whose key equals that of [rec]. *)
Definition row_same (s : FM_SHARE_CORE) (o : FM_KEY_OPS) (rec : bytes) (i : Z) : Prop :=
  match row_at s i with Some r => same_key o r rec | None => False end.

#[export] Instance row_matches_dec s o pk i : Decision (row_matches s o pk i).
Proof. unfold row_matches. destruct (row_at s i); apply _. Defined.
#[export] Instance row_same_dec s o rec i : Decision (row_same s o rec i).
Proof. unfold row_same. destruct (row_at s i); apply _. Defined.

(** The bucket that a packed key selects. *)
Definition key_bucket (kc : FM_KEY_CORE) (pk : bytes) : Z := fm_bucket kc (key_hash_of (ops kc) pk).

(** * Row reads *)

Lemma memcpy_all n (src : bytes) : Z.of_nat (length src) = n → memcpy n src = Some src.
Proof.
  intros. unfold memcpy. rewrite decide_True by lia. rewrite take_ge by lia. done.
Qed.

(** A read of a settled slot returns the row, or reports it deleted. *)
Lemma read_row_loop_run n s i sl cg eg buf : fm_slot s i = Some sl → slot_ok s sl →
  read_row_loop (S n) i cg eg buf s =
    Ret (match row_of sl with
         | Some rec => if cg && bool_decide (gen sl ≠ eg) then (FM_ERR_DELETED, buf) else (FM_ERR_OK, rec)
         | None => (FM_ERR_DELETED, buf)
         end, s).
Proof.
  intros Hsl [[_ Heven] _ _ Hd]. simpl.
  rewrite (bind_Ret _ _ _ _ _ (deref_slot_run _ _ _ Hsl)). unfold row_of.
  destruct (decide (state sl = FM_SLOT_ACTIVE)) as [Ha|Ha]; [|by rewrite decide_True by done].
  rewrite decide_False by tauto. destruct (cg && _); [done|].
  rewrite decide_False by lia. rewrite (bind_Ret _ _ _ _ _ (get_run _)).
  rewrite (bind_Ret _ _ _ _ _ (unwrap_run _ _ _ (memcpy_all _ _ (Hd Ha)))).
  rewrite (bind_Ret _ _ _ _ _ (deref_slot_run _ _ _ Hsl)). by rewrite decide_False by tauto.
Qed.

Lemma read_row_run s i buf : static_ok s → (∀ i sl, fm_slot s i = Some sl → slot_ok s sl) →
  0 ≤ i < total_slots s →
  fm_core_read_row i false 0 buf s =
    Ret (match row_at s i with Some rec => (FM_ERR_OK, rec) | None => (FM_ERR_DELETED, buf) end, s).
Proof.
  intros Hs Hok Hi. destruct (proj2 (so_slot _ Hs i) Hi) as [sl Hsl].
  unfold fm_core_read_row. rewrite (read_row_loop_run _ _ _ _ _ _ _ Hsl (Hok _ _ Hsl)).
  rewrite (row_at_slot _ _ _ Hsl). by destruct (row_of sl).
Qed.

(** * Restoring a lock restores the share *)

Lemma arr_upd_id {A} (f : A → A) i l a : arr_get l i = Some a → f a = a → arr_upd f i l = l.
Proof.
  unfold arr_get, arr_upd. case_decide; [|done]. intros Hl Hf.
  apply list_eq. intros j. destruct (decide (j = Z.to_nat i)) as [->|Hj].
  - rewrite list_lookup_alter_eq, Hl. simpl. by f_equal.
  - by rewrite list_lookup_alter_ne.
Qed.

Lemma arr_upd_compose {A} (f g : A → A) i l : arr_upd f i (arr_upd g i l) = arr_upd (f ∘ g) i l.
Proof.
  unfold arr_upd. case_decide; [|done]. apply list_eq. intros j.
  destruct (decide (j = Z.to_nat i)) as [->|Hj].
  - rewrite !list_lookup_alter_eq. by destruct (l !! _).
  - by rewrite !list_lookup_alter_ne.
Qed.

Lemma upd_key_compose f g k s : upd_key f k (upd_key g k s) = upd_key (f ∘ g) k s.
Proof.
  unfold upd_key, with_keydef. simpl. f_equal. destruct (keydef s) as [[p ks]|]; [|done]. simpl.
  by rewrite arr_upd_compose.
Qed.

Lemma upd_key_id f k s kc : key_at s k = Some kc → f kc = kc → upd_key f k s = s.
Proof.
  unfold key_at, upd_key. destruct s; simpl. destruct keydef as [[p ks]|]; [|done]. simpl.
  intros Hk Hf. unfold with_keydef. simpl. by rewrite (arr_upd_id _ _ _ _ Hk Hf).
Qed.

Lemma upd_lock_restore s k b : lock_at s k b = Some 0 → upd_lock 0 k b (upd_lock 1 k b s) = s.
Proof.
  unfold lock_at. intros Hl. destruct (key_at s k) as [kc|] eqn:Hk; [|done]. simpl in Hl.
  unfold upd_lock. rewrite upd_key_compose. apply (upd_key_id _ _ _ _ Hk).
  destruct kc as [o u n h [[p l]|]]; simpl in *; [|done]. unfold kc_with_locks; simpl.
  do 3 f_equal. rewrite arr_upd_compose. by apply (arr_upd_id _ _ _ _ Hl).
Qed.

(** * Walks over a chain *)

Section walks.
Context (s : FM_SHARE_CORE) (k : Z) (kc : FM_KEY_CORE).
Context (Hstatic : static_ok s) (Hslots : ∀ i sl, fm_slot s i = Some sl → slot_ok s sl).
Context (Hlaws : KeyOpsLaws (ops kc)).
#[local] Set Default Proof Using "Type*".

Lemma key_matches_run rec pk :
  key_matches kc rec pk s = Ret (bool_decide (matches_key (ops kc) rec pk), s).
Proof using Hlaws.
  destruct (laws_cmp_rec_key (o := ops kc)) as [f Hf].
  unfold key_matches. rewrite (bind_Ret _ _ _ _ _ (unwrap_run _ _ _ Hf)).
  unfold mret, M_ret. do 2 f_equal. apply bool_decide_ext. unfold matches_key. by rewrite Hf.
Qed.

Lemma find_loop_run pk l : ∀ fuel h buf,
  linked (fm_key_next s k) h l → (∀ i, i ∈ l → 0 ≤ i < total_slots s) → (length l < fuel)%nat →
  ∃ buf', find_loop fuel kc k pk h buf s =
      Ret ((snd <$> list_find (row_matches s (ops kc) pk) l, buf'), s) ∧
    ∀ n i, list_find (row_matches s (ops kc) pk) l = Some (n, i) → row_at s i = Some buf'.
Proof.
  induction l as [|x l IH]; intros [|fuel] h buf Hl Hin Hf; simpl in Hf; try lia; simpl.
  - rewrite decide_True by done. by exists buf.
  - destruct Hl as (-> & Hx & n & Hn & Hl). rewrite decide_False by (unfold FM_NULL_SLOT; lia).
    rewrite (bind_Ret _ _ _ _ _ (read_row_run _ _ _ Hstatic Hslots (Hin x ltac:(set_solver)))).
    destruct (IH fuel n (default buf (row_at s x)) Hl ltac:(set_solver) ltac:(lia)) as (buf' & Hb & Hr).
    destruct (decide (row_matches s (ops kc) pk x)) as [Hm|Hm]; unfold row_matches in Hm;
      destruct (row_at s x) as [rec|] eqn:Hrow; try done; simpl in *.
    + rewrite (bind_Ret _ _ _ _ _ (key_matches_run _ _)).
      rewrite bool_decide_true by done. exists rec. split; [done|]. intros ?? [= <- <-]. done.
    + rewrite (bind_Ret _ _ _ _ _ (key_matches_run _ _)).
      rewrite bool_decide_false by done. rewrite (bind_Ret _ _ _ _ _ (deref_next_run _ _ _ _ Hn)), Hb.
      exists buf'. destruct (list_find _ l) as [[]|]; simpl; split; try done; intros ?? [=]; naive_solver.
    + rewrite (bind_Ret _ _ _ _ _ eq_refl).
      rewrite (bind_Ret _ _ _ _ _ (deref_next_run _ _ _ _ Hn)), Hb.
      exists buf'. destruct (list_find _ l) as [[]|]; simpl; split; try done; intros ?? [=]; naive_solver.
Qed.

Lemma dup_loop_run rec l : ∀ fuel h scratch,
  linked (fm_key_next s k) h l → (∀ i, i ∈ l → 0 ≤ i < total_slots s) → (length l < fuel)%nat →
  dup_loop fuel kc k rec h scratch s =
    Ret (if decide (Exists (row_same s (ops kc) rec) l) then FM_ERR_DUP_KEY else FM_ERR_OK, s).
Proof.
  destruct (laws_cmp_rec_rec (o := ops kc)) as [f Hf].
  induction l as [|x l IH]; intros [|fuel] h buf Hl Hin Hfu; simpl in Hfu; try lia; simpl.
  - by rewrite decide_True by done.
  - destruct Hl as (-> & Hx & n & Hn & Hl). rewrite decide_False by (unfold FM_NULL_SLOT; lia).
    rewrite (bind_Ret _ _ _ _ _ (read_row_run _ _ _ Hstatic Hslots (Hin x ltac:(set_solver)))).
    pose proof (IH fuel n (default buf (row_at s x)) Hl ltac:(set_solver) ltac:(lia)) as Hrest.
    destruct (row_at s x) as [r|] eqn:Hrow; simpl in *.
    + rewrite Hf.
      rewrite (bind_Ret _ _ _ _ _ (eq_refl : _ = Ret (bool_decide (f r rec = 0), s))).
      destruct (decide (f r rec = 0)) as [Hm|Hm].
      * rewrite bool_decide_true by done. rewrite decide_True; [done|]. left.
        unfold row_same, same_key. by rewrite Hrow, Hf.
      * rewrite bool_decide_false by done. rewrite (bind_Ret _ _ _ _ _ (deref_next_run _ _ _ _ Hn)), Hrest.
        do 2 f_equal. apply decide_ext. rewrite Exists_cons. unfold row_same at 2, same_key.
        rewrite Hrow, Hf. naive_solver.
    + rewrite (bind_Ret _ _ _ _ _ eq_refl).
      rewrite (bind_Ret _ _ _ _ _ (deref_next_run _ _ _ _ Hn)), Hrest.
      do 2 f_equal. apply decide_ext. rewrite Exists_cons. unfold row_same at 2. rewrite Hrow. naive_solver.
Qed.
End walks.

(** * The continuation of an exact-key scan *)

(** What follows [cur] in a chain; nothing when [cur] is not on it. *)
Fixpoint after_slot (cur : Z) (l : list Z) : list Z :=
  match l with
  | [] => []
  | x :: l' => if decide (x = cur) then l' else after_slot cur l'
  end.

Section find_next.
Context (s : FM_SHARE_CORE) (k : Z) (kc : FM_KEY_CORE).
Context (Hstatic : static_ok s) (Hslots : ∀ i sl, fm_slot s i = Some sl → slot_ok s sl).
Context (Hlaws : KeyOpsLaws (ops kc)).
#[local] Set Default Proof Using "Type*".

(** Past [cur] the loop is the loop of [fm_core_find]. *)
Lemma find_next_loop_after pk cur l : ∀ fuel h buf,
  linked (fm_key_next s k) h l → (∀ i, i ∈ l → 0 ≤ i < total_slots s) → cur ∉ l →
  (length l < fuel)%nat →
  find_next_loop fuel kc k pk cur true h buf s = find_loop fuel kc k pk h buf s.
Proof.
  induction l as [|x l IH]; intros [|fuel] h buf Hl Hin Hcur Hf; simpl in Hf; try lia; simpl.
  - by rewrite !decide_True by done.
  - destruct Hl as (-> & Hx & n & Hn & Hl). apply not_elem_of_cons in Hcur as [Hne Hcur].
    rewrite !(decide_False (P := x = FM_NULL_SLOT)) by (unfold FM_NULL_SLOT; lia).
    rewrite decide_False by done.
    rewrite !(bind_Ret _ _ _ _ _ (read_row_run _ _ _ Hstatic Hslots (Hin x ltac:(set_solver)))).
    destruct (row_at s x) as [rec|]; simpl.
    + rewrite !(bind_Ret _ _ _ _ _ (key_matches_run _ _ Hlaws _ _)). case_bool_decide; [done|].
      rewrite !(bind_Ret _ _ _ _ _ (deref_next_run _ _ _ _ Hn)). apply IH; [done|set_solver|done|lia].
    + rewrite !(bind_Ret _ _ _ _ _ (eq_refl : (mret false : SM bool) s = Ret (false, s))).
      rewrite !(bind_Ret _ _ _ _ _ (deref_next_run _ _ _ _ Hn)). apply IH; [done|set_solver|done|lia].
Qed.

Lemma find_next_loop_run pk cur l : ∀ fuel h buf,
  linked (fm_key_next s k) h l → NoDup l → (∀ i, i ∈ l → 0 ≤ i < total_slots s) → (length l < fuel)%nat →
  ∃ buf', find_next_loop fuel kc k pk cur false h buf s =
      Ret ((snd <$> list_find (row_matches s (ops kc) pk) (after_slot cur l), buf'), s) ∧
    ∀ n i, list_find (row_matches s (ops kc) pk) (after_slot cur l) = Some (n, i) → row_at s i = Some buf'.
Proof.
  induction l as [|x l IH]; intros [|fuel] h buf Hl Hnd Hin Hf; simpl in Hf; try lia; simpl.
  - rewrite decide_True by done. by exists buf.
  - destruct Hl as (-> & Hx & n & Hn & Hl). apply NoDup_cons in Hnd as [Hxl Hnd].
    rewrite (decide_False (P := x = FM_NULL_SLOT)) by (unfold FM_NULL_SLOT; lia).
    destruct (decide (x = cur)) as [->|Hc].
    + rewrite (bind_Ret _ _ _ _ _ (deref_next_run _ _ _ _ Hn)).
      rewrite (find_next_loop_after pk cur l) by (done || lia || set_solver).
      apply find_loop_run; [done|done|done|done|set_solver|lia].
    + rewrite (bind_Ret _ _ _ _ _ (deref_next_run _ _ _ _ Hn)).
      apply IH; [done|done|set_solver|lia].
Qed.
End find_next.

(** * Lookups in a share that satisfies the invariant *)

(** Two key descriptors with the same configuration. *)
Lemma key_cfg_inv s k kc o u nb : key_at s k = Some kc → key_cfg s k = Some (o, u, nb) →
  ops kc = o ∧ unique kc = u ∧ nbuckets kc = nb.
Proof. intros H. rewrite (key_cfg_key_at _ _ _ H). by intros [=]. Qed.

(** Lookups and scans depend only on the arrays and on settled slots, not on what is in the chains. *)
Section settled.
Context (s : FM_SHARE_CORE) (Hs : static_ok s) (Hslots : ∀ i sl, fm_slot s i = Some sl → slot_ok s sl).
#[local] Set Default Proof Using "Type*".

Lemma fm_core_find_settled k kc pk buf out l : KeyOpsLaws (ops kc) → key_at s k = Some kc → lock_at s k (key_bucket kc pk) = Some 0 →
  (∃ h, head_at s k (key_bucket kc pk) = Some h ∧ linked (fm_key_next s k) h l) →
  (∀ i, i ∈ l → 0 ≤ i < total_slots s) → (length l < walk_fuel s)%nat →
  ∃ buf', fm_core_find k pk buf out s =
      Ret (match list_find (row_matches s (ops kc) pk) l with
           | Some (_, i) => (FM_ERR_OK, i, buf') | None => (FM_ERR_NOT_FOUND, out, buf') end, s) ∧
    ∀ n i, list_find (row_matches s (ops kc) pk) l = Some (n, i) → row_at s i = Some buf'.
Proof.
  intros Hlaws Hkc Hlock (h & Hh & Hl) Hin Hf. destruct (laws_hash_key (o := ops kc)) as [f Hhash]. set (b := key_bucket kc pk) in *.
  assert (Hst : static_ok (upd_lock 1 k b s)) by (eapply static_ok_erase; [apply erase_upd_lock|done]).
  assert (Hsl : ∀ i sl, fm_slot (upd_lock 1 k b s) i = Some sl → slot_ok (upd_lock 1 k b s) sl) by (intros i sl Hi; destruct (Hslots i sl Hi); by constructor).
  unfold fm_core_find. rewrite (bind_Ret _ _ _ _ _ (deref_key_run _ _ _ Hkc)).
  rewrite (bind_Ret _ _ _ _ _ (unwrap_run _ _ _ Hhash)). cbv zeta.
  replace (fm_bucket kc (f pk)) with b by (unfold b, key_bucket, key_hash_of; by rewrite Hhash).
  rewrite (bind_Ret _ _ _ _ _ (bucket_lock_run _ _ _ Hlock)).
  assert (Hh' : head_at (upd_lock 1 k b s) k b = Some h) by by fm_frame.
  rewrite (bind_Ret _ _ _ _ _ (deref_head_run _ _ _ _ Hh')), (bind_Ret _ _ _ _ _ (get_run _)).
  destruct (find_loop_run _ k kc Hst Hsl _ pk l (walk_fuel s) h buf Hl Hin Hf) as (buf' & Hrun & Hrow).
  rewrite (bind_Ret _ _ _ _ _ Hrun).
  rewrite (bind_Ret _ _ _ _ _ (bucket_unlock_run _ _ _ ltac:(rewrite lock_at_upd_eq, Hlock; by eexists))).
  rewrite upd_lock_restore by done. exists buf'. split; [|exact Hrow].
  change (list_find (row_matches (upd_lock 1 k b s) (ops kc) pk) l) with (list_find (row_matches s (ops kc) pk) l).
  by destruct (list_find _ l) as [[? ?]|].
Qed.

(** The first row at or after position [pos]. *)
Lemma scan_loop_settled fuel : ∀ pos buf, 0 ≤ pos ≤ total_slots s →
  (Z.to_nat (total_slots s - pos) < fuel)%nat →
  ∃ rc pos' buf', scan_loop fuel (total_slots s) pos buf s = Ret ((rc, pos', buf'), s) ∧
    pos ≤ pos' ≤ total_slots s ∧
    ((rc = FM_ERR_OK ∧ pos < pos' ∧ row_at s (pos' - 1) = Some buf' ∧ ∀ j, pos ≤ j < pos' - 1 → row_at s j = None)
     ∨ (rc = FM_ERR_EOF ∧ pos' = total_slots s ∧ ∀ j, pos ≤ j < total_slots s → row_at s j = None)).
Proof.
  pose proof (total_bound _ Hs) as Ht.
  induction fuel as [|fuel IH]; intros pos buf Hp Hf; [lia|]. simpl. case_decide as Hlt.
  - rewrite i32_small by lia.
    rewrite (bind_Ret _ _ _ _ _ (read_row_run s pos buf Hs Hslots ltac:(lia))).
    rewrite u32_small by lia. destruct (row_at s pos) as [rec|] eqn:Hrow.
    + rewrite decide_True by done. exists FM_ERR_OK, (pos + 1), rec.
      split_and!; [done|lia|lia|]. left. replace (pos + 1 - 1) with pos by lia.
      split_and!; [done|lia|done|lia].
    + rewrite decide_False by done.
      destruct (IH (pos + 1) buf ltac:(lia) ltac:(lia)) as (rc & pos' & buf' & Hrun & Hpos & Hcase).
      exists rc, pos', buf'. split_and!; [done|lia|lia|].
      assert (∀ j, pos ≤ j → j < pos + 1 → row_at s j = None) by (intros j ??; by replace j with pos by lia).
      destruct Hcase as [(-> & ? & ? & Hj)|(-> & ? & Hj)]; [left|right]; split_and!; try done; try lia;
        intros j ?; destruct (decide (j < pos + 1)); auto with lia.
  - exists FM_ERR_EOF, pos, buf. split_and!; [done|lia|lia|]. right. split_and!; [done|lia|lia].
Qed.

Lemma scan_next_settled pos buf : 0 ≤ pos ≤ total_slots s →
  ∃ rc pos' buf', fm_core_scan_next pos buf s = Ret ((rc, pos', buf'), s) ∧
    pos ≤ pos' ≤ total_slots s ∧
    ((rc = FM_ERR_OK ∧ pos < pos' ∧ row_at s (pos' - 1) = Some buf' ∧ ∀ j, pos ≤ j < pos' - 1 → row_at s j = None)
     ∨ (rc = FM_ERR_EOF ∧ pos' = total_slots s ∧ ∀ j, pos ≤ j < total_slots s → row_at s j = None)).
Proof.
  intros Hp. unfold fm_core_scan_next. rewrite (bind_Ret _ _ _ _ _ (get_run _)).
  rewrite slot_count_total by done. apply scan_loop_settled; [done|lia].
Qed.
End settled.

Section lookups.
Context (held : gset Z) (s : FM_SHARE_CORE) (Hwf : wf held s).
Context (k : Z) (Hk : 0 ≤ k < keys s) (kc : FM_KEY_CORE) (Hkc : key_at s k = Some kc).
#[local] Set Default Proof Using "Type*".

#[local] Instance lookups_laws : KeyOpsLaws (ops kc).
Proof.
  destruct (key_at_is_Some _ _ (wf_static _ _ Hwf) Hk) as (kc' & n & ? & ? & ? & ?). by simplify_eq.
Qed.

Lemma key_bucket_range pk : is_Some (head_at s k (key_bucket kc pk)) ∧ lock_at s k (key_bucket kc pk) = Some 0.
Proof.
  destruct (so_key _ (wf_static _ _ Hwf) _ Hk) as (o & u & n & Hc & Hn & Hl & Hb).
  destruct (key_cfg_inv _ _ _ _ _ _ Hkc Hc) as (<- & <- & Hnb).
  destruct (Hb (key_bucket kc pk)) as [Hh [v Hv]].
  { unfold key_bucket, fm_bucket. rewrite Hnb, land_pow2_mask by lia. apply Z.mod_pos_bound. lia. }
  split; [done|]. destruct (wf_locks _ _ Hwf) as (_ & Hz & _). rewrite Hv. f_equal. by eapply Hz.
Qed.

(** A row that matches the packed key is on the chain the key selects. *)
Lemma row_matches_indexed pk i : row_matches s (ops kc) pk i → indexed s k (key_bucket kc pk) i.
Proof.
  unfold row_matches. destruct (row_at s i) as [rec|] eqn:Hr; [|done]. intros Hm.
  exists rec. split; [done|]. unfold bucket_of. rewrite (key_cfg_key_at _ _ _ Hkc).
  unfold key_bucket, fm_bucket. by rewrite (laws_match _ _ Hm).
Qed.

(** The chain that the packed key selects. *)
Lemma lookup_chain pk : ∃ h l, head_at s k (key_bucket kc pk) = Some h ∧
  linked (fm_key_next s k) h l ∧ NoDup l ∧ (∀ i, i ∈ l → 0 ≤ i < total_slots s) ∧
  (length l < walk_fuel s)%nat ∧ (∀ i, row_matches s (ops kc) pk i → i ∈ l).
Proof.
  destruct (key_bucket_range pk) as [[h Hh] _].
  destruct (key_rep_walk _ _ _ _ _ (wf_static _ _ Hwf) (wf_keys _ _ Hwf k Hk)
    (λ b i, indexed_range s k b i (wf_static _ _ Hwf)) Hh) as (l & Hl & Hnd & Hin & Hf).
  exists h, l. split_and!; try done.
  - intros i Hi. apply Hin in Hi. by eapply indexed_range, Hi; apply Hwf.
  - intros i Hm. apply Hin. by apply row_matches_indexed.
Qed.

(** The walks do not see the bucket lock. *)
Lemma row_matches_lock v b pk i : row_matches (upd_lock v k b s) (ops kc) pk i ↔ row_matches s (ops kc) pk i.
Proof. reflexivity. Qed.

Lemma locked_static v b : static_ok (upd_lock v k b s).
Proof. eapply static_ok_erase; [apply erase_upd_lock|apply Hwf]. Qed.

Lemma locked_slots v b : ∀ i sl, fm_slot (upd_lock v k b s) i = Some sl → slot_ok (upd_lock v k b s) sl.
Proof. intros i sl Hsl. destruct (wf_slots _ _ Hwf i sl Hsl). by constructor. Qed.

(** [fm_core_find] in terms of the chain: the first match, and the share unchanged. *)
Lemma fm_core_find_run pk buf out l : (∃ h, head_at s k (key_bucket kc pk) = Some h ∧
    linked (fm_key_next s k) h l) → (∀ i, i ∈ l → 0 ≤ i < total_slots s) → (length l < walk_fuel s)%nat →
  ∃ buf', fm_core_find k pk buf out s =
      Ret (match list_find (row_matches s (ops kc) pk) l with
           | Some (_, i) => (FM_ERR_OK, i, buf') | None => (FM_ERR_NOT_FOUND, out, buf') end, s) ∧
    ∀ n i, list_find (row_matches s (ops kc) pk) l = Some (n, i) → row_at s i = Some buf'.
Proof.
  intros Hl Hin Hf. destruct (key_bucket_range pk) as [_ Hlock].
  by apply (fm_core_find_settled s (wf_static _ _ Hwf) (wf_slots _ _ Hwf) k kc pk buf out l _ Hkc Hlock).
Qed.

Lemma fm_core_find_next_run pk cur buf out l : (∃ h, head_at s k (key_bucket kc pk) = Some h ∧
    linked (fm_key_next s k) h l) → NoDup l → (∀ i, i ∈ l → 0 ≤ i < total_slots s) →
  (length l < walk_fuel s)%nat →
  ∃ buf', fm_core_find_next k pk cur buf out s =
      Ret (match list_find (row_matches s (ops kc) pk) (after_slot cur l) with
           | Some (_, i) => (FM_ERR_OK, i, buf') | None => (FM_ERR_NOT_FOUND, out, buf') end, s) ∧
    ∀ n i, list_find (row_matches s (ops kc) pk) (after_slot cur l) = Some (n, i) → row_at s i = Some buf'.
Proof.
  intros (h & Hh & Hl) Hnd Hin Hf. destruct (key_bucket_range pk) as [_ Hlock].
  destruct (laws_hash_key (o := ops kc)) as [f Hhash].
  unfold fm_core_find_next. rewrite (bind_Ret _ _ _ _ _ (deref_key_run _ _ _ Hkc)).
  rewrite (bind_Ret _ _ _ _ _ (unwrap_run _ _ _ Hhash)). cbv zeta.
  replace (fm_bucket kc (f pk)) with (key_bucket kc pk) by (unfold key_bucket, key_hash_of; by rewrite Hhash).
  rewrite (bind_Ret _ _ _ _ _ (bucket_lock_run _ _ _ Hlock)).
  assert (Hh' : head_at (upd_lock 1 k (key_bucket kc pk) s) k (key_bucket kc pk) = Some h) by by fm_frame.
  rewrite (bind_Ret _ _ _ _ _ (deref_head_run _ _ _ _ Hh')), (bind_Ret _ _ _ _ _ (get_run _)).
  destruct (find_next_loop_run _ k kc (locked_static 1 (key_bucket kc pk)) (locked_slots 1 (key_bucket kc pk)) _ pk cur l (walk_fuel s) h buf
    Hl Hnd Hin Hf) as (buf' & Hrun & Hrow).
  rewrite (bind_Ret _ _ _ _ _ Hrun).
  rewrite (bind_Ret _ _ _ _ _ (bucket_unlock_run _ _ _ ltac:(rewrite lock_at_upd_eq, Hlock; by eexists))).
  rewrite upd_lock_restore by done. exists buf'. split; [|exact Hrow].
  change (list_find (row_matches (upd_lock 1 k (key_bucket kc pk) s) (ops kc) pk) (after_slot cur l))
    with (list_find (row_matches s (ops kc) pk) (after_slot cur l)).
  by destruct (list_find _ (after_slot cur l)) as [[? ?]|].
Qed.
End lookups.

(** * Enumeration of all rows that match a key *)

Lemma list_find_split {A} (P : A → Prop) `{∀ x, Decision (P x)} l n x :
  list_find P l = Some (n, x) → ∃ l1 l2, l = l1 ++ x :: l2 ∧ P x ∧ filter P l = x :: filter P l2.
Proof.
  revert n. induction l as [|y l IH]; intros n; [done|]. simpl. destruct (decide (P y)) as [Hy|Hy].
  - intros [= <- <-]. exists [], l. split_and!; [done|done|]. by rewrite filter_cons_True.
  - destruct (list_find P l) as [[m z]|] eqn:Hf; [|done]. intros [= <- <-].
    destruct (IH m eq_refl) as (l1 & l2 & -> & Hx & Hl). exists (y :: l1), l2.
    split_and!; [done|done|]. by rewrite filter_cons_False.
Qed.

Lemma list_find_None_filter {A} (P : A → Prop) `{∀ x, Decision (P x)} l :
  list_find P l = None → filter P l = [].
Proof.
  intros Hn%list_find_None. induction Hn; [done|]. by rewrite filter_cons_False.
Qed.

Lemma after_slot_app cur l1 l2 : cur ∉ l1 → after_slot cur (l1 ++ cur :: l2) = l2.
Proof.
  induction l1 as [|x l1 IH]; simpl; [by rewrite decide_True|]. intros [Hx Hl]%not_elem_of_cons.
  rewrite decide_False by done. auto.
Qed.

Lemma after_slot_absent cur l : cur ∉ l → after_slot cur l = [].
Proof.
  induction l as [|x l IH]; simpl; [done|]. intros [Hx Hl]%not_elem_of_cons.
  rewrite decide_False by done. auto.
Qed.

Section enumerate.
Context (held : gset Z) (s : FM_SHARE_CORE) (Hwf : wf held s).
Context (k : Z) (Hk : 0 ≤ k < keys s) (kc : FM_KEY_CORE) (Hkc : key_at s k = Some kc).
Context (pk : bytes) (h : Z) (l : list Z).
Context (Hh : head_at s k (key_bucket kc pk) = Some h) (Hl : linked (fm_key_next s k) h l).
Context (Hnd : NoDup l) (Hin : ∀ i, i ∈ l → 0 ≤ i < total_slots s) (Hf : (length l < walk_fuel s)%nat).
#[local] Set Default Proof Using "Type*".

Lemma find_next_all_run fuel : ∀ l1 cur l2 buf, l = l1 ++ cur :: l2 → (length l2 < fuel)%nat →
  find_next_all fuel k pk cur buf s = Ret (filter (row_matches s (ops kc) pk) l2, s).
Proof.
  induction fuel as [|fuel IH]; intros l1 cur l2 buf Hsplit Hfl; [lia|]. simpl.
  destruct (fm_core_find_next_run held s Hwf k Hk kc Hkc pk cur buf FM_NULL_SLOT l
    ltac:(eauto) Hnd Hin Hf) as (buf' & Hrun & Hrow).
  rewrite (bind_Ret _ _ _ _ _ Hrun).
  assert (Hc : cur ∉ l1). { rewrite Hsplit in Hnd. apply NoDup_app in Hnd as (_ & Hd & _). set_solver. }
  rewrite Hsplit, after_slot_app in * by done.
  destruct (list_find _ l2) as [[n i]|] eqn:Hfind.
  - rewrite decide_True by done. destruct (list_find_split _ _ _ _ Hfind) as (m1 & m2 & -> & Hi & ->).
    rewrite (bind_Ret _ _ _ _ _ (IH (l1 ++ cur :: m1) i m2 buf' ltac:(by rewrite <-app_assoc)
      ltac:(rewrite length_app in Hfl; simpl in Hfl; lia))). done.
  - rewrite decide_False by done. by rewrite (list_find_None_filter _ _ Hfind).
Qed.

Lemma find_all_run buf : find_all (walk_fuel s) k pk buf s = Ret (filter (row_matches s (ops kc) pk) l, s).
Proof.
  unfold find_all.
  destruct (fm_core_find_run held s Hwf k Hk kc Hkc pk buf FM_NULL_SLOT l ltac:(eauto) Hin Hf)
    as (buf' & Hrun & Hrow).
  rewrite (bind_Ret _ _ _ _ _ Hrun). destruct (list_find _ l) as [[n i]|] eqn:Hfind.
  - rewrite decide_True by done. destruct (list_find_split _ _ _ _ Hfind) as (m1 & m2 & Hsp & Hi & Hfl).
    rewrite Hfl, (bind_Ret _ _ _ _ _ (find_next_all_run (walk_fuel s) m1 i m2 buf' Hsp
      ltac:(rewrite Hsp, length_app in Hf; simpl in Hf; lia))). done.
  - rewrite decide_False by done. by rewrite (list_find_None_filter _ _ Hfind).
Qed.
End enumerate.

(** * Scans *)

Section scans.
Context (held : gset Z) (s : FM_SHARE_CORE) (Hwf : wf held s).
#[local] Set Default Proof Using "Type*".

Lemma scan_next_run pos buf : 0 ≤ pos ≤ total_slots s →
  ∃ rc pos' buf', fm_core_scan_next pos buf s = Ret ((rc, pos', buf'), s) ∧
    pos ≤ pos' ≤ total_slots s ∧
    ((rc = FM_ERR_OK ∧ pos < pos' ∧ row_at s (pos' - 1) = Some buf' ∧ ∀ j, pos ≤ j < pos' - 1 → row_at s j = None)
     ∨ (rc = FM_ERR_EOF ∧ pos' = total_slots s ∧ ∀ j, pos ≤ j < total_slots s → row_at s j = None)).
Proof. apply scan_next_settled; apply Hwf. Qed.

(** The rows of a range of slots, in order. *)
Lemma omap_rows_none (a n : Z) : (∀ j, a ≤ j < a + n → row_at s j = None) →
  omap (λ i, (i,.) <$> row_at s i) (seqZ a n) = [].
Proof.
  intros H. assert (H' : ∀ j, j ∈ seqZ a n → row_at s j = None).
  { intros j Hj%elem_of_seqZ. apply H. lia. }
  clear H. induction (seqZ a n) as [|x l IH]; [done|]. simpl. rewrite H' by set_solver. apply IH. set_solver.
Qed.

Lemma scan_all_run fuel : ∀ pos buf, 0 ≤ pos ≤ total_slots s →
  (Z.to_nat (total_slots s - pos) < fuel)%nat →
  scan_all fuel pos buf s =
    Ret (omap (λ i, (i,.) <$> row_at s i) (seqZ pos (total_slots s - pos)), s).
Proof.
  induction fuel as [|fuel IH]; intros pos buf Hp Hf; [lia|]. simpl.
  destruct (scan_next_run pos buf Hp) as (rc & pos' & buf' & Hrun & Hpos & Hcase).
  rewrite (bind_Ret _ _ _ _ _ Hrun). destruct Hcase as [(-> & Hlt & Hrow & Hj)|(-> & -> & Hj)].
  - rewrite decide_True by done. rewrite (bind_Ret _ _ _ _ _ (IH pos' buf' ltac:(lia) ltac:(lia))).
    unfold mret, M_ret. do 2 f_equal.
    replace (total_slots s - pos) with ((pos' - 1 - pos) + (1 + (total_slots s - pos'))) by lia.
    rewrite seqZ_app, omap_app, (omap_rows_none pos) by (lia || (intros; apply Hj; lia)).
    rewrite seqZ_app, omap_app by lia. simpl.
    replace (Z.of_nat 0 + (pos + (pos' - 1 - pos))) with (pos' - 1) by lia. rewrite Hrow. simpl.
    replace (pos + (pos' - 1 - pos) + 1) with pos' by lia. done.
  - rewrite decide_False by done. unfold mret, M_ret. do 2 f_equal.
    rewrite omap_rows_none; [done|]. intros j ?. apply Hj. lia.
Qed.
End scans.

(** * The duplicate check *)

(** Some row has the key of [rec] under the unique key [k], and the check applies to [rec]. *)
Definition conflict (s : FM_SHARE_CORE) (k : Z) (rec : bytes) : Prop :=
  ∃ o nb i, key_cfg s k = Some (o, true, nb) ∧ ¬ null_key o rec ∧ row_same s o rec i.

Lemma has_null_spec kc rec : has_null kc rec = bool_decide (null_key (ops kc) rec).
Proof.
  unfold has_null. destruct (has_null_part (ops kc)) as [f|] eqn:Hf.
  - apply bool_decide_ext. unfold null_key. by rewrite Hf.
  - symmetry. apply bool_decide_false. unfold null_key. rewrite Hf. tauto.
Qed.

Lemma dup_check_run s k rec scratch :
  static_ok s → (∀ i sl, fm_slot s i = Some sl → slot_ok s sl) → 0 ≤ k < keys s →
  key_rep s k (indexed s k) →
  ∃ rc, fm_core_dup_check k (bucket_of s k rec) rec scratch s = Ret (rc, s) ∧
    (rc = FM_ERR_OK ∨ rc = FM_ERR_DUP_KEY) ∧ (rc = FM_ERR_DUP_KEY ↔ conflict s k rec).
Proof.
  intros Hs Hok Hk Hrep. destruct (key_at_is_Some _ _ Hs Hk) as (kc & n & Hkc & Hnb & Hn & Hlaws).
  unfold fm_core_dup_check. rewrite (bind_Ret _ _ _ _ _ (deref_key_run _ _ _ Hkc)), has_null_spec.
  pose proof (key_cfg_key_at _ _ _ Hkc) as Hcfg.
  destruct (unique kc) eqn:Hu; cbn [andb negb].
  2: { exists FM_ERR_OK. split_and!; [done|by left|]. split; [done|]. intros (o & nb & i & Hc & _). naive_solver. }
  case_bool_decide as Hnull; cbn [andb negb].
  { exists FM_ERR_OK. split_and!; [done|by left|]. split; [done|].
    intros (o & nb & i & Hc & Hn' & _). rewrite Hcfg in Hc. by simplify_eq. }
  destruct (bucket_of_range s k rec Hs Hk) as [[h Hh] _].
  rewrite (bind_Ret _ _ _ _ _ (deref_head_run _ _ _ _ Hh)), (bind_Ret _ _ _ _ _ (get_run _)).
  destruct (key_rep_walk _ _ _ _ _ Hs Hrep (λ b i, indexed_range s k b i Hs) Hh) as (l & Hl & Hnd & Hin & Hf).
  cbv beta. rewrite (dup_loop_run s k kc Hs Hok Hlaws rec l) by (done || (intros i Hi; by eapply indexed_range, Hin)).
  assert (Hiff : Exists (row_same s (ops kc) rec) l ↔ conflict s k rec).
  { rewrite Exists_exists. split.
    - intros (i & Hi & Hm). by exists (ops kc), (nbuckets kc), i.
    - intros (o & nb & i & Hc & _ & Hm). rewrite Hcfg in Hc. simplify_eq. exists i. split; [|done].
      apply Hin. unfold row_same in Hm. destruct (row_at s i) as [r|] eqn:Hr; [|done].
      exists r. split; [done|]. unfold bucket_of. rewrite Hcfg. by rewrite (laws_hash _ _ Hm). }
  eexists. split; [done|]. case_decide as Hd; naive_solver.
Qed.

(** Collecting by slot number lists in slot order. *)
Lemma collect_sorted {A} (f : Z → option A) a n : StronglySorted Z.lt (omap (λ i, (i,.) <$> f i) (seqZ a n)).*1.
Proof.
  assert (H : ∀ m a, StronglySorted Z.lt (omap (λ i, (i,.) <$> f i) (seqZ a (Z.of_nat m))).*1).
  { clear a n. induction m as [|m IH]; intros a; [constructor|]. rewrite seqZ_cons by lia. simpl.
    replace (Z.pred (Z.of_nat (S m))) with (Z.of_nat m) by lia. destruct (f a); simpl; [|apply IH].
    constructor; [apply IH|]. apply Forall_forall. intros y ([y' v] & -> & Hy)%list_elem_of_fmap.
    apply list_elem_of_omap in Hy as (z & Hz%elem_of_seqZ & Heq). destruct (f z); simplify_eq/=. lia. }
  destruct (decide (0 ≤ n)); [rewrite <-(Z2Nat.id n) by done; apply H|]. unfold seqZ. replace (Z.to_nat n) with O by lia. constructor.
Qed.

(** * Contracts *)

(** The rows that match a packed key, as the lookup and its continuations give them. *)
Lemma core_find_all_spec held s key pk buf o u nb :
  wf held s → 0 ≤ key < keys s → key_cfg s key = Some (o, u, nb) →
  wp (find_all (walk_fuel s) key pk buf) (λ l s', s' = s ∧ NoDup l ∧
    ∀ i, i ∈ l ↔ ∃ rec, table s !! i = Some rec ∧ matches_key o rec pk) s.
Proof.
  intros Hwf Hk Hcfg. destruct (key_at_is_Some s key (wf_static _ _ Hwf) Hk) as (kc & n & Hkc & _).
  destruct (key_cfg_inv _ _ _ _ _ _ Hkc Hcfg) as (<- & _).
  destruct (lookup_chain held s Hwf key Hk kc Hkc pk) as (h & l & Hh & Hl & Hnd & Hin & Hf & Hall).
  eapply wp_run; [by eapply find_all_run|]. split_and!; [done|by apply NoDup_filter|]. intros i.
  rewrite list_elem_of_filter, table_lookup by apply Hwf. unfold row_matches in *.
  split; [intros [Hm _]; destruct (row_at s i); [by eexists|done]|]. intros (rec & Hr & Hm).
  rewrite Hr. split; [done|]. apply Hall. by rewrite Hr.
Qed.

(** What a point lookup returns. *)
Lemma core_find_spec held s key pk buf out o u nb :
  wf held s → 0 ≤ key < keys s → key_cfg s key = Some (o, u, nb) →
  wp (fm_core_find key pk buf out) (λ r s', s' = s ∧ let '(rc, idx, rec) := r in
    (rc = FM_ERR_OK ∧ table s !! idx = Some rec ∧ matches_key o rec pk) ∨
    (rc = FM_ERR_NOT_FOUND ∧ idx = out ∧ ∀ i rec, table s !! i = Some rec → ¬ matches_key o rec pk)) s.
Proof.
  intros Hwf Hk Hcfg. pose proof (wf_static _ _ Hwf) as Hs. destruct (key_at_is_Some s key Hs Hk) as (kc & n & Hkc & _).
  destruct (key_cfg_inv _ _ _ _ _ _ Hkc Hcfg) as (<- & _).
  destruct (lookup_chain held s Hwf key Hk kc Hkc pk) as (h & l & Hh & Hl & Hnd & Hin & Hf & Hall).
  destruct (fm_core_find_run held s Hwf key Hk kc Hkc pk buf out l ltac:(eauto) Hin Hf) as (buf' & Hrun & Hrow).
  eapply wp_run; [exact Hrun|]. split; [done|]. destruct (list_find _ l) as [[j i]|] eqn:Hfind.
  - left. pose proof (Hrow _ _ eq_refl) as Hr. apply list_find_Some in Hfind as (_ & Hm & _).
    unfold row_matches in Hm. rewrite Hr in Hm. by rewrite table_lookup.
  - right. split_and!; [done..|]. intros i rec. rewrite table_lookup by done. intros Hr Hm.
    assert (Hi : row_matches s (ops kc) pk i) by (unfold row_matches; by rewrite Hr).
    apply list_find_None in Hfind. rewrite Forall_forall in Hfind. by eapply Hfind; [apply Hall|].
Qed.

(** What a scan returns. *)
Lemma core_scan_spec held s buf : wf held s →
  wp (scan_all (S (Z.to_nat (fm_core_slot_count s))) 0 buf) (λ rows s', s' = s ∧
    StronglySorted Z.lt rows.*1 ∧ ∀ i rec, (i, rec) ∈ rows ↔ table s !! i = Some rec) s.
Proof.
  intros Hwf. pose proof (wf_static _ _ Hwf) as Hs. pose proof (total_bound _ Hs) as Ht. rewrite slot_count_total by done.
  eapply wp_run; [apply (scan_all_run held s Hwf); lia|]. rewrite Z.sub_0_r. split_and!; [done|apply collect_sorted|].
  intros i rec. rewrite (elem_of_list_to_map (M := gmap Z)) by apply collect_NoDup. done.
Qed.

(** * Properties *)

(** C24: Lookups enumerate.  A client that calls [fm_core_find] and then [fm_core_find_next] from
    each result until there is none obtains every row whose key equals the packed key, each
    exactly once, and leaves the share unchanged. *)
Theorem find_all_correct held s key pk buf o u nb :
  wf held s → 0 ≤ key < keys s → key_cfg s key = Some (o, u, nb) →
  wp (find_all (walk_fuel s) key pk buf) (λ l s', s' = s ∧ NoDup l ∧
    ∀ i, i ∈ l ↔ ∃ rec, table s !! i = Some rec ∧ matches_key o rec pk) s.
Proof. apply core_find_all_spec. Qed.

(** Point lookup.  [fm_core_find] returns a row whose key equals the packed key, with its
    slot and its image, whenever there is one, and FM_ERR_NOT_FOUND with the output index
    untouched when there is none; the share is unchanged. *)
Theorem find_correct held s key pk buf out o u nb :
  wf held s → 0 ≤ key < keys s → key_cfg s key = Some (o, u, nb) →
  wp (fm_core_find key pk buf out) (λ r s', s' = s ∧ let '(rc, idx, rec) := r in
    (rc = FM_ERR_OK ∧ table s !! idx = Some rec ∧ matches_key o rec pk) ∨
    (rc = FM_ERR_NOT_FOUND ∧ idx = out ∧ ∀ i rec, table s !! i = Some rec → ¬ matches_key o rec pk)) s.
Proof. apply core_find_spec. Qed.

(** C25: Scan.  Calling [fm_core_scan_next] from position 0 until FM_ERR_EOF yields exactly the
    rows of the table, each once, in slot order, and terminates; the share is unchanged. *)
Theorem scan_correct held s buf : wf held s →
  wp (scan_all (S (Z.to_nat (fm_core_slot_count s))) 0 buf) (λ rows s', s' = s ∧
    StronglySorted Z.lt rows.*1 ∧ ∀ i rec, (i, rec) ∈ rows ↔ table s !! i = Some rec) s.
Proof. apply core_scan_spec. Qed.

(** Row read.  [fm_core_read_row] of a settled slot returns the row image when the slot
    holds a row and, if a generation is expected, has that generation; otherwise it reports
    FM_ERR_DELETED and leaves the buffer alone. *)
Theorem read_row_correct held s i check eg buf : wf held s → 0 ≤ i < total_slots s →
  wp (fm_core_read_row i check eg buf) (λ r s', s' = s ∧
    (r.1 = FM_ERR_OK ∧ table s !! i = Some r.2 ∧ (check = true → gen <$> fm_slot s i = Some eg) ∨
     r = (FM_ERR_DELETED, buf) ∧ (table s !! i = None ∨ check = true ∧ gen <$> fm_slot s i ≠ Some eg))) s.
Proof.
  intros Hwf Hi. pose proof (wf_static _ _ Hwf) as Hs. destruct (proj2 (so_slot _ Hs i) Hi) as [sl Hsl].
  eapply wp_run; [apply (read_row_loop_run _ _ _ _ _ _ _ Hsl (wf_slots _ _ Hwf _ _ Hsl))|]. split; [done|].
  rewrite table_lookup, (row_at_slot _ _ _ Hsl), Hsl by done. destruct (row_of sl) as [rec|]; [|by right; split; [|left]].
  destruct check; simpl; [case_bool_decide as Hc|]; simpl.
  - right. split; [done|]. right. split; [done|congruence].
  - left. split_and!; [done..|]. intros _. f_equal. destruct (decide (gen sl = eg)); [done|tauto].
  - left. by split_and!.
Qed.

(** Duplicate check.  [fm_core_dup_check] on the bucket of the record reports a duplicate
    exactly when some row has the same value of the unique key and the record has no NULL key
    part; it never looks at rows of other buckets in vain, since those cannot match. *)
Theorem dup_check_correct held s k rec scratch : wf held s → 0 ≤ k < keys s →
  wp (fm_core_dup_check k (bucket_of s k rec) rec scratch) (λ rc s', s' = s ∧
    (rc = FM_ERR_DUP_KEY ∧ conflict s k rec ∨ rc = FM_ERR_OK ∧ ¬ conflict s k rec)) s.
Proof.
  intros Hwf Hk. destruct (dup_check_run s k rec scratch (wf_static _ _ Hwf) (wf_slots _ _ Hwf) Hk (wf_keys _ _ Hwf k Hk)) as (rc & Hrun & Hor & Hiff).
  eapply wp_run; [exact Hrun|]. split; [done|]. destruct Hor as [-> | ->]; [right; split; [done|]|left; tauto].
  intros Hc. by apply Hiff in Hc.
Qed.
