(* ===== verification/Alloc.v ===== *)
(** Slot allocation (src/fm_core.h): growing by a chunk, the freelist, and the guarantees of
    [fm_core_alloc_slot] and [fm_core_free_slot].  A failed growth leaks nothing. *)

From S2P Require Import Prelude CoreState CoreOps RowOps Shape Inv Chains Reads.

(** Block numbers handed out so far bound the live ones. *)
Definition fresh (h : Heap) : Prop := ∀ p, p ∈ live h → (p < calls h)%nat.

(** A chain array as [fm_core_grow_chunk] leaves it. *)
Definition null_array (q : nat * list Z) : Prop :=
  q.2 = null_slots.

(** The chunk that a successful growth installs. *)
Record new_chunk (s : FM_SHARE_CORE) (h : Heap) (c : FM_CHUNK) : Prop := {
  nc_slots : ∃ p, slots c = Some (p, fresh_slots);
  nc_next : (keys s = 0 ∧ key_next c = None) ∨
    ∃ q l, key_next c = Some (q, l) ∧ Z.of_nat (length l) = keys s ∧ ∀ a, a ∈ l → null_array a;
  nc_blocks : NoDup (chunk_blocks c);
  nc_fresh p : p ∈ chunk_blocks c → p ∉ live (heap s);
  nc_live : live h = live (heap s) ∪ list_to_set (chunk_blocks c);
  nc_heap : fresh h
}.

(** The share after a successful growth. *)
Definition grown (s : FM_SHARE_CORE) (h : Heap) (c : FM_CHUNK) : FM_SHARE_CORE :=
  with_chunk_cnt (chunk_cnt s + 1) (upd_chunk (λ _, c) (chunk_cnt s) (with_heap h s)).

(** * Fresh arrays *)

Lemma fresh_slots_get i : 0 ≤ i < 4096 → arr_get fresh_slots i = Some FM_SLOT_new.
Proof. apply (arr_get_replicate 4096). Qed.

Lemma null_slots_get i : 0 ≤ i < 4096 → arr_get null_slots i = Some FM_NULL_SLOT.
Proof. apply (arr_get_replicate 4096). Qed.

#[global] Opaque fresh_slots null_slots.

(** * Allocator steps *)

Lemma alloc_run size s : ∃ r h, alloc size s = Ret (r, with_heap h s) ∧
  calls h = S (calls (heap s)) ∧
  match r with
  | Some p => p = calls (heap s) ∧ live h = {[ p ]} ∪ live (heap s)
  | None => live h = live (heap s) ∧ ops_alloc s (calls (heap s)) size = false
  end.
Proof.
  unfold alloc. destruct (ops_alloc s _ _) eqn:Ho; eexists _, _; (split; [reflexivity|]); done.
Qed.

Lemma dealloc_run p s : p ∈ live (heap s) →
  dealloc p s = Ret (tt, with_heap (mkHeap (calls (heap s)) (live (heap s) ∖ {[ p ]})) s).
Proof. intros. unfold dealloc. by rewrite decide_True. Qed.

Lemma dealloc_list_run {A} (l : list (nat * A)) : ∀ s, NoDup (map fst l) →
  (∀ p, p ∈ map fst l → p ∈ live (heap s)) →
  dealloc_list l s = Ret (tt, with_heap (mkHeap (calls (heap s)) (live (heap s) ∖ list_to_set (map fst l))) s).
Proof.
  induction l as [|[p a] l IH]; intros s Hnd Hin; simpl.
  - unfold mret, M_ret. do 2 f_equal. destruct s as [? [c lv]]; simpl. unfold with_heap; simpl.
    do 2 f_equal. set_solver.
  - apply NoDup_cons in Hnd as [Hp Hnd]. simpl in *.
    rewrite (bind_Ret _ _ _ _ _ (dealloc_run p s ltac:(set_solver))).
    rewrite IH; [|done|fm_frame; simpl; set_solver].
    fm_frame. simpl. do 2 f_equal. unfold with_heap; simpl. do 2 f_equal. set_solver.
Qed.

Lemma grow_key_next_run n : ∀ acc s, fresh (heap s) → NoDup (map fst acc) →
  (∀ p, p ∈ map fst acc → p ∈ live (heap s)) →
  ∃ r h, grow_key_next n acc s = Ret (r, with_heap h s) ∧ fresh h ∧
    (calls (heap s) ≤ calls h)%nat ∧
    match r with
    | None => live h = live (heap s) ∖ list_to_set (map fst acc) ∧
        ∃ m sz, (calls (heap s) ≤ m)%nat ∧ ops_alloc s m sz = false
    | Some kn => ∃ new, kn = acc ++ new ∧ length new = n ∧
        (∀ a, a ∈ new → null_array a ∧ (calls (heap s) ≤ a.1)%nat) ∧ NoDup (map fst kn) ∧
        live h = list_to_set (map fst new) ∪ live (heap s)
    end.
Proof.
  induction n as [|n IH]; intros acc s Hfr Hnd Hin; simpl.
  { exists (Some acc), (heap s). split; [by destruct s|]. split_and!; [done|done|].
    exists []. rewrite app_nil_r. split_and!; [done|done|set_solver|done|set_solver]. }
  destruct (alloc_run (sizeof_fm_i32 * FM_CHUNK_SIZE) s) as (r & h & Hrun & Hc & Hr).
  rewrite (bind_Ret _ _ _ _ _ Hrun). destruct r as [p|].
  - destruct Hr as [-> Hlv]. set (a := (calls (heap s), _)).
    assert (Hp : calls (heap s) ∉ map fst acc) by (intros Hx; apply Hin, Hfr in Hx; lia).
    destruct (IH (acc ++ [a]) (with_heap h s)) as (r & h' & Hrun' & Hfr' & Hcalls & Hres).
    { fm_frame. intros q. rewrite Hlv, elem_of_union, elem_of_singleton, Hc.
      intros [->|Hq%Hfr]; lia. }
    { rewrite map_app. simpl. apply NoDup_app. split_and!; [done|set_solver|]. apply NoDup_singleton. }
    { intros q. rewrite map_app, elem_of_app. fm_frame. rewrite Hlv. simpl. set_solver. }
    exists r, h'. split; [done|]. split; [done|]. revert Hcalls Hres. fm_frame. intros Hcalls Hres.
    split; [lia|]. destruct r as [kn|].
    + destruct Hres as (new & -> & Hlen & Hnew & Hndk & Hl). exists (a :: new).
      rewrite <-app_assoc in *. split_and!; [done|by simpl; rewrite Hlen| |done|].
      * intros b [->|Hb]%elem_of_cons; [done|]. destruct (Hnew b Hb). split; [done|lia].
      * rewrite Hl, Hlv. simpl. set_solver.
    + destruct Hres as (Hl & m & sz & Hm & Ho). split.
      * rewrite Hl, map_app, Hlv. simpl. rewrite list_to_set_app_L. simpl.
        assert (calls (heap s) ∉ live (heap s)) by (intros Hx%Hfr; lia). set_solver.
      * exists m, sz. split; [lia|done].
  - destruct Hr as [Hlv Ho].
    rewrite (bind_Ret _ _ _ _ _ (dealloc_list_run acc (with_heap h s) Hnd ltac:(fm_frame; by rewrite Hlv))).
    fm_frame. eexists None, _. split; [reflexivity|]. unfold fresh. simpl. rewrite Hlv.
    split_and!; [|lia|done|].
    + intros q [Hq%Hfr _]%elem_of_difference. lia.
    + by exists (calls (heap s)), (sizeof_fm_i32 * FM_CHUNK_SIZE).
Qed.

(** * Growing *)

Lemma upd_chunk_compose f g c s : upd_chunk f c (upd_chunk g c s) = upd_chunk (f ∘ g) c s.
Proof.
  unfold upd_chunk, with_chunks. simpl. f_equal. destruct (chunks s) as [[p cs]|]; [|done]. simpl.
  by rewrite arr_upd_compose.
Qed.

Lemma arr_upd_ext {A} (f g : A → A) i l : (∀ a, arr_get l i = Some a → f a = g a) → arr_upd f i l = arr_upd g i l.
Proof.
  unfold arr_get, arr_upd. case_decide; [|done]. intros Hfg. apply list_eq. intros j.
  destruct (decide (j = Z.to_nat i)) as [->|Hj].
  - rewrite !list_lookup_alter_eq. destruct (l !! _) eqn:Hl; simpl; [|done]. f_equal. by apply Hfg.
  - by rewrite !list_lookup_alter_ne.
Qed.

Lemma upd_chunk_ext f g c s x : chunk_at s c = Some x → f x = g x → upd_chunk f c s = upd_chunk g c s.
Proof.
  unfold chunk_at, upd_chunk. intros Hx Hfg. f_equal. destruct (chunks s) as [[p cs]|]; [|done]. simpl in *.
  do 2 f_equal. apply arr_upd_ext. intros a Ha. by simplify_eq.
Qed.

Lemma upd_chunk_id f c s x : chunk_at s c = Some x → f x = x → upd_chunk f c s = s.
Proof.
  unfold chunk_at, upd_chunk. destruct s; simpl. destruct chunks as [[p cs]|]; [|done]. simpl.
  intros Hc Hf. unfold with_chunks. simpl. by rewrite (arr_upd_id _ _ _ _ Hc Hf).
Qed.

(** The share with the slots of the next chunk in place. *)
Definition with_slots (p : nat) (h : Heap) (s : FM_SHARE_CORE) : FM_SHARE_CORE :=
  upd_chunk (λ c, mkChunk (Some (p, fresh_slots)) (key_next c)) (chunk_cnt s) (with_heap h s).

Section grow_keys.
Context (s : FM_SHARE_CORE) (h : Heap) (p : nat).
Context (Hat : chunk_at s (chunk_cnt s) = Some (mkChunk None None)).
Context (Hcnt : 0 ≤ chunk_cnt s < 2 ^ 31) (Hkeys : 0 ≤ keys s).
Context (Hfr : fresh (heap s)) (Hp : p = calls (heap s)).
Context (Hcalls : calls h = S (calls (heap s))) (Hlive : live h = {[ p ]} ∪ live (heap s)).
#[local] Set Default Proof Using "Type*".

(** What an allocation attempt that gave everything back leaves. *)
Definition grow_failed (h' : Heap) : Prop :=
  live h' = live (heap s) ∧ fresh h' ∧ ∃ m sz, (calls (heap s) ≤ m)%nat ∧ ops_alloc s m sz = false.

Lemma fresh_slots_heap : fresh h.
Proof. intros q. rewrite Hlive, Hcalls, elem_of_union, elem_of_singleton, Hp. intros [->|Hq%Hfr]; lia. Qed.

(** Resetting the two fields of the chunk restores the share. *)
Lemma with_slots_back g h' : upd_chunk (λ c, mkChunk None (key_next c)) (chunk_cnt s)
  (with_heap h' (upd_chunk (λ c, mkChunk (slots c) None) (chunk_cnt s) (with_heap g (with_slots p h s)))) =
  with_heap h' s.
Proof using Hat.
  change (with_heap h' (upd_chunk ?f ?k (with_heap g (with_slots p h s))))
    with (upd_chunk f k (with_heap h' (with_slots p h s))). unfold with_slots.
  change (with_heap h' (upd_chunk ?f ?k (with_heap h s))) with (upd_chunk f k (with_heap h' s)).
  rewrite !upd_chunk_compose. by apply (upd_chunk_id _ _ (with_heap h' s) _ Hat).
Qed.

Lemma with_slots_done g q kn : upd_chunk (λ c, mkChunk (slots c) (Some (q, kn))) (chunk_cnt s)
  (with_heap g (with_slots p h s)) = upd_chunk (λ _, mkChunk (Some (p, fresh_slots)) (Some (q, kn))) (chunk_cnt s) (with_heap g s).
Proof using Hat.
  unfold with_slots. change (with_heap g (upd_chunk ?f ?k (with_heap h s))) with (upd_chunk f k (with_heap g s)).
  rewrite upd_chunk_compose. by apply (upd_chunk_ext _ _ _ (with_heap g s) _ Hat).
Qed.

(** The blocks of the finished chunk. *)
Lemma grow_keys_new_chunk h2 h3 new : calls h2 = S (calls h) → live h2 = {[ calls h ]} ∪ live h → fresh h3 →
  Z.of_nat (length new) = keys s → (∀ a, a ∈ new → null_array a ∧ (calls h2 ≤ a.1)%nat) → NoDup (map fst new) →
  live h3 = list_to_set (map fst new) ∪ live h2 →
  new_chunk s h3 (mkChunk (Some (p, fresh_slots)) (Some (calls h, new))).
Proof.
  intros Hc2 Hl2 Hfr3 Hlen Hnew Hnd Hl3.
  assert (Hge : ∀ x, x ∈ map fst new → (calls h2 ≤ x)%nat).
  { intros x ([y l] & -> & Hy)%list_elem_of_fmap. by apply Hnew in Hy as [_ ?]. }
  constructor; unfold chunk_blocks; simpl.
  - by eexists.
  - right. exists (calls h), new. split_and!; [done|done|]. intros a Ha. by apply Hnew.
  - apply NoDup_cons. split.
    + rewrite elem_of_app, list_elem_of_singleton. intros [Hx%Hge|Hx]; lia.
    + apply NoDup_app. split_and!; [done| |apply NoDup_singleton].
      intros x Hx%Hge ->%list_elem_of_singleton. lia.
  - intros x. rewrite elem_of_cons, elem_of_app, list_elem_of_singleton.
    intros Hx Hlx%Hfr. destruct Hx as [->|[Hx%Hge| ->]]; lia.
  - rewrite Hl3, Hl2, Hlive, list_to_set_app_L. set_solver.
  - done.
Qed.

Lemma grow_chunk_keys_run :
  (∃ h', grow_chunk_keys p (chunk_cnt s) (with_slots p h s) = Ret (FM_ERR_NOMEM, with_heap h' s) ∧ grow_failed h') ∨
  (∃ h' c, grow_chunk_keys p (chunk_cnt s) (with_slots p h s) = Ret (FM_ERR_OK, grown s h' c) ∧ new_chunk s h' c).
Proof.
  pose proof fresh_slots_heap as Hfr1. unfold grow_chunk_keys. rewrite (bind_Ret _ _ _ _ _ (get_run _)). cbv beta.
  set (s1 := with_slots p h s). change (keys s1) with (keys s). rewrite (u32_small (chunk_cnt s + 1)) by lia.
  destruct (alloc_run (sizeof_ptr * keys s) s1) as (r & h2 & Hrun2 & Hc2 & Hr2).
  change (heap s1) with h in *. rewrite (bind_Ret _ _ _ _ _ Hrun2). destruct r as [q|].
  2: { left. destruct Hr2 as [Hlv2 Ho]. rewrite (bind_Ret _ _ _ _ _ (modify_run _ _)).
       assert (Hin : p ∈ live h2) by (rewrite Hlv2, Hlive; set_solver).
       erewrite bind_Ret; [|apply dealloc_run; exact Hin].
       rewrite (bind_Ret _ _ _ _ _ (modify_run _ _)). unfold s1. rewrite with_slots_back. fm_frame.
       assert (p ∉ live (heap s)) by (intros Hx%Hfr; lia).
       eexists. split; [reflexivity|]. unfold grow_failed, fresh; simpl. rewrite Hlv2, Hlive, Hc2, Hcalls.
       split_and!; [set_solver| |].
       - intros x [[->%elem_of_singleton|Hx%Hfr]%elem_of_union _]%elem_of_difference; lia.
       - exists (calls h), (sizeof_ptr * keys s). split; [lia|exact Ho]. }
  destruct Hr2 as [-> Hlv2].
  assert (Hfr2 : fresh h2).
  { intros x. rewrite Hlv2, Hc2, elem_of_union, elem_of_singleton. intros [->|Hx%Hfr1]; lia. }
  destruct (grow_key_next_run (Z.to_nat (keys s)) [] (with_heap h2 s1) Hfr2 ltac:(constructor) ltac:(set_solver))
    as (r & h3 & Hrun3 & Hfr3 & Hcalls3 & Hr3).
  change (heap (with_heap h2 s1)) with h2 in *. rewrite (bind_Ret _ _ _ _ _ Hrun3).
  change (with_heap h3 (with_heap h2 s1)) with (with_heap h3 s1).
  destruct r as [kn|].
  - right. rewrite (bind_Ret _ _ _ _ _ (modify_run _ _)), (bind_Ret _ _ _ _ _ (modify_run _ _)).
    destruct Hr3 as (new & -> & Hlen & Hnew3 & Hndk & Hl3). unfold s1. rewrite with_slots_done.
    eexists h3, _. split; [reflexivity|]. apply (grow_keys_new_chunk h2 h3 new); try done. lia.
  - left. destruct Hr3 as (Hl3 & m & sz & Hm & Ho). simpl in Hl3.
    assert (Hq : calls h ∉ live h) by (intros Hx%Hfr1; lia). assert (p ≠ calls h) by lia.
    assert (p ∉ live (heap s)) by (intros Hx%Hfr; lia).
    assert (Hin1 : calls h ∈ live h3) by (rewrite Hl3, Hlv2; set_solver).
    rewrite (bind_Ret _ _ _ _ _ (dealloc_run _ (with_heap h3 s1) Hin1)).
    rewrite (bind_Ret _ _ _ _ _ (modify_run _ _)).
    assert (Hin2 : p ∈ live h3 ∖ {[ calls h ]}) by (rewrite Hl3, Hlv2, Hlive; set_solver).
    erewrite bind_Ret; [|apply dealloc_run; exact Hin2].
    rewrite (bind_Ret _ _ _ _ _ (modify_run _ _)). fm_frame.
    change (with_heap ?a (with_heap h3 s1)) with (with_heap a s1). unfold s1. rewrite with_slots_back.
    eexists. split; [reflexivity|]. unfold grow_failed, fresh; simpl. split_and!.
    + rewrite Hl3, Hlv2, Hlive. set_solver.
    + intros x [[Hx%Hfr3 _]%elem_of_difference _]%elem_of_difference. done.
    + exists m, sz. split; [lia|exact Ho].
Qed.
End grow_keys.

(** The three outcomes of [fm_core_grow_chunk]; a failure changes only the call counter of the
    allocator, so every block taken on the way has been given back. *)
Lemma grow_chunk_run s : static_ok s → fresh (heap s) →
  (chunk_cap s ≤ chunk_cnt s ∧ fm_core_grow_chunk s = Ret (FM_ERR_FULL, s)) ∨
  (chunk_cnt s < chunk_cap s ∧ ∃ h, fm_core_grow_chunk s = Ret (FM_ERR_NOMEM, with_heap h s) ∧ grow_failed s h) ∨
  (chunk_cnt s < chunk_cap s ∧ ∃ h c, fm_core_grow_chunk s = Ret (FM_ERR_OK, grown s h c) ∧ new_chunk s h c).
Proof.
  intros Hs Hfr. unfold fm_core_grow_chunk. rewrite (bind_Ret _ _ _ _ _ (get_run _)). cbv beta zeta.
  case_decide as Hfull; [by left|right].
  destruct (so_cnt _ Hs) as [Hc0 _], (so_keys _ Hs) as [Hk0 _]. pose proof (so_cap _ Hs).
  pose proof (so_fresh _ Hs (chunk_cnt s) ltac:(lia)) as Hch.
  rewrite (bind_Ret _ _ _ _ _ (unwrap_run _ _ _ Hch)).
  destruct (alloc_run (slot_size s * FM_CHUNK_SIZE) s) as (r & h & Hrun & Hc & Hr).
  rewrite (bind_Ret _ _ _ _ _ Hrun). destruct r as [p|].
  2: { left. split; [lia|]. rewrite (bind_Ret _ _ _ _ _ (modify_run _ _)).
       rewrite (upd_chunk_id _ _ (with_heap h s) _ Hch) by done. exists h.
       destruct Hr as [Hlv Ho]. split; [done|]. split_and!; [done| |by eauto].
       intros q. rewrite Hlv, Hc. intros Hq%Hfr. lia. }
  destruct Hr as [-> Hlv]. rewrite (bind_Ret _ _ _ _ _ (modify_run _ _)).
  case_decide as Hk.
  - right. split; [lia|]. rewrite (bind_Ret _ _ _ _ _ (modify_run _ _)).
    rewrite (u32_small (chunk_cnt s + 1)) by lia. eexists h, _. split.
    { unfold grown. erewrite (upd_chunk_ext _ _ _ (with_heap h s) _ Hch); reflexivity. }
    pose proof (fresh_slots_heap s h _ Hch ltac:(lia) Hk0 Hfr eq_refl Hc Hlv) as Hfr1.
    constructor; unfold chunk_blocks; simpl; [by eexists|by left|apply NoDup_singleton| |set_solver|done].
    intros q ->%list_elem_of_singleton Hx%Hfr. lia.
  - destruct (grow_chunk_keys_run s h _ Hch ltac:(lia) Hk0 Hfr eq_refl Hc Hlv) as [(h' & Hg & Hf)|(h' & c & Hg & Hn)].
    + left. split; [lia|]. by exists h'.
    + right. split; [lia|]. by exists h', c.
Qed.
