(* ===== verification/Freelist.v ===== *)
(** The freelist and [fm_core_alloc_slot] (src/fm_core.h): what allocating and freeing a slot
    does to the lists and rows of a share. *)

From S2P Require Import Prelude CoreState CoreOps RowOps Shape Inv Chains Reads Alloc.

(** A slot up to its freelist link. *)
Definition unlinked (sl : option FM_SLOT) : option FM_SLOT := sl_with_free_next 0 <$> sl.

(** [free_only s s']: at most freelist links and the freelist head differ. *)
Record free_only (s s' : FM_SHARE_CORE) : Prop := {
  fo_erase : erase s' = erase s;
  fo_slot i : unlinked (fm_slot s' i) = unlinked (fm_slot s i);
  fo_next k i : fm_key_next s' k i = fm_key_next s k i;
  fo_head k b : head_at s' k b = head_at s k b;
  fo_lock k b : lock_at s' k b = lock_at s k b;
  fo_records : records s' = records s;
  fo_mutex : struct_mutex s' = struct_mutex s
}.

(** [extends s s']: [s'] is [s] with possibly more free slots, up to freelist links. *)
Record extends (s s' : FM_SHARE_CORE) : Prop := {
  ex_static : static_ok s';
  ex_heap : heap_ok s';
  ex_reclength : reclength s' = reclength s;
  ex_keys : keys s' = keys s;
  ex_max : max_records s' = max_records s;
  ex_cap : chunk_cap s' = chunk_cap s;
  ex_records : records s' = records s;
  ex_mutex : struct_mutex s' = struct_mutex s;
  ex_auto : auto_inc s' = auto_inc s;
  ex_auto_key : auto_key s' = auto_key s;
  ex_auto_type : auto_key_type s' = auto_key_type s;
  ex_total : total_slots s ≤ total_slots s';
  ex_old i : 0 ≤ i < total_slots s → unlinked (fm_slot s' i) = unlinked (fm_slot s i);
  ex_new i : total_slots s ≤ i < total_slots s' →
    unlinked (fm_slot s' i) = Some (sl_with_free_next 0 FM_SLOT_new);
  ex_next k i : 0 ≤ i < total_slots s → fm_key_next s' k i = fm_key_next s k i;
  ex_head k b : head_at s' k b = head_at s k b;
  ex_lock k b : lock_at s' k b = lock_at s k b;
  ex_cfg k : key_cfg s' k = key_cfg s k;
  ex_foreign : foreign s' = foreign s;
  ex_alloc : ops_alloc s' = ops_alloc s
}.

(** * Slots up to their freelist link *)

Lemma unlinked_row o o' : unlinked o = unlinked o' → o ≫= row_of = o' ≫= row_of.
Proof. destruct o as [[]|], o' as [[]|]; simpl; intros; simplify_eq/=; done. Qed.

Lemma unlinked_Some o sl : unlinked o = Some sl → ∃ sl', o = Some sl' ∧ sl_with_free_next 0 sl' = sl.
Proof. destruct o; simpl; [|done]. intros [= <-]. eauto. Qed.

Lemma unlinked_is_Some o : is_Some (unlinked o) ↔ is_Some o.
Proof. apply fmap_is_Some. Qed.

Lemma unlinked_slot_ok s s' sl sl' : unlinked (Some sl') = unlinked (Some sl) →
  reclength s' = reclength s → slot_ok s sl → slot_ok s' sl'.
Proof.
  destruct sl, sl'; simpl. intros [= -> -> -> -> ->] Hr []. constructor; simpl in *; try done. by rewrite Hr.
Qed.

#[export] Instance free_only_refl : Reflexive free_only.
Proof. intros s. by constructor. Qed.

#[export] Instance free_only_trans : Transitive free_only.
Proof.
  intros s1 s2 s3 [E1 S1 N1 H1 L1 R1 M1] [E2 S2 N2 H2 L2 R2 M2]. constructor; intros; congruence.
Qed.

Lemma free_only_row s s' i : free_only s s' → row_at s' i = row_at s i.
Proof. intros H. apply unlinked_row, H. Qed.

(** * Pushing a slot on the freelist *)

Lemma free_slot_run s idx : is_Some (fm_slot s idx) →
  fm_core_free_slot idx s =
    Ret (tt, with_free_head idx (upd_slot (sl_with_free_next (free_head s)) idx s)).
Proof.
  intros H. unfold fm_core_free_slot. rewrite (bind_Ret _ _ _ _ _ (get_run _)).
  by rewrite (bind_Ret _ _ _ _ _ (store_slot_run _ _ _ H)).
Qed.

Lemma free_slot_free_only s idx v w : free_only s (with_free_head v (upd_slot (sl_with_free_next w) idx s)).
Proof.
  constructor; intros; fm_frame; try done.
  rewrite fm_slot_upd. case_decide; [|done]. by destruct (fm_slot s i).
Qed.

Lemma free_slot_linked s idx fl : is_Some (fm_slot s idx) → 0 ≤ idx → idx ∉ fl →
  linked (free_next_at s) (free_head s) fl →
  linked (free_next_at (with_free_head idx (upd_slot (sl_with_free_next (free_head s)) idx s))) idx (idx :: fl).
Proof.
  intros [sl Hsl] Hidx Hn Hl. split_and!; [done|done|]. exists (free_head s). unfold free_next_at at 1.
  fm_frame. rewrite fm_slot_upd_eq, Hsl. split; [done|]. eapply linked_ext; [|done].
  intros x Hx. unfold free_next_at. fm_frame. rewrite fm_slot_upd_ne; [done|]. intros ->. done.
Qed.

(** The loop that puts a fresh chunk on the freelist. *)
Lemma push_down_spec n : ∀ i s fl, linked (free_next_at s) (free_head s) fl → Z.of_nat n ≤ i ≤ 2 ^ 31 →
  (∀ j, i - Z.of_nat n ≤ j < i → is_Some (fm_slot s j) ∧ j ∉ fl) →
  wp (push_down n i) (λ _ s', free_only s s' ∧
    linked (free_next_at s') (free_head s') (seqZ (i - Z.of_nat n) (Z.of_nat n) ++ fl)) s.
Proof.
  induction n as [|n IH]; intros i s fl Hl Hi Hj.
  { apply wp_ret. split; [done|]. by rewrite seqZ_nil by lia. }
  simpl. rewrite i32_small by lia. destruct (Hj (i - 1) ltac:(lia)) as [Hs Hni].
  wp_step (free_slot_run _ _ Hs). eapply wp_mono.
  { apply (IH (i - 1) _ ((i - 1) :: fl)); [by apply free_slot_linked; [..|lia|done|done]|lia|].
    intros j ?. destruct (Hj j ltac:(lia)) as [Hsj Hnj]. split; [|set_solver by lia].
    fm_frame. rewrite fm_slot_upd. case_decide; [|done]. by rewrite fmap_is_Some. }
  intros _ s' [Hfo Hl']. split; [etrans; [apply free_slot_free_only|done]|].
  replace (i - Z.of_nat (S n)) with (i - 1 - Z.of_nat n) by lia.
  replace (Z.of_nat (S n)) with (Z.of_nat n + 1) by lia. rewrite seqZ_app by lia.
  rewrite <-app_assoc. simpl.
  replace (Z.of_nat 0 + (i - 1 - Z.of_nat n + Z.of_nat n)) with (i - 1) by lia. done.
Qed.

(** * The grown share *)

Section grown.
Context (s : FM_SHARE_CORE) (h : Heap) (c : FM_CHUNK).
Context (Hs : static_ok s) (Hcap : chunk_cnt s < chunk_cap s) (Hc : new_chunk s h c).
#[local] Set Default Proof Using "Type*".

Lemma grown_total : total_slots (grown s h c) = total_slots s + 4096.
Proof. unfold total_slots, grown. fm_frame. lia. Qed.

Lemma chunk_at_grown x :
  chunk_at (grown s h c) x = if decide (x = chunk_cnt s) then Some c else chunk_at s x.
Proof.
  unfold grown. fm_frame. case_decide as Hx.
  - subst. rewrite chunk_at_upd_eq. fm_frame. by rewrite (so_fresh _ Hs) by (pose proof (so_cnt _ Hs); lia).
  - by rewrite chunk_at_upd_ne.
Qed.

(** The chunk number of an index of the new chunk. *)
Lemma in_new_chunk i : Z.shiftr i FM_CHUNK_SHIFT = chunk_cnt s ↔ total_slots s ≤ i < total_slots s + 4096.
Proof. rewrite shiftr_chunk. unfold total_slots. split; [intros <-|]; intros; Z.to_euclidean_division_equations; lia. Qed.

Lemma fm_slot_grown i : fm_slot (grown s h c) i =
  if decide (total_slots s ≤ i < total_slots s + 4096) then Some FM_SLOT_new else fm_slot s i.
Proof.
  unfold fm_slot. rewrite chunk_at_grown, (decide_ext _ _ _ _ (in_new_chunk i)).
  case_decide as Hi; [|done]. simpl. destruct (nc_slots _ _ _ Hc) as [p ->]. simpl.
  apply fresh_slots_get. rewrite land_chunk. apply Z.mod_pos_bound. lia.
Qed.

Lemma fm_key_next_grown_old k i : ¬ (total_slots s ≤ i < total_slots s + 4096) →
  fm_key_next (grown s h c) k i = fm_key_next s k i.
Proof.
  intros Hi. unfold fm_key_next. rewrite chunk_at_grown, decide_False; [done|]. by rewrite in_new_chunk.
Qed.

Lemma fm_key_next_grown_new k i : 0 ≤ k < keys s → total_slots s ≤ i < total_slots s + 4096 →
  is_Some (fm_key_next (grown s h c) k i).
Proof.
  intros Hk Hi. unfold fm_key_next. rewrite chunk_at_grown, decide_True by by apply in_new_chunk. simpl.
  destruct (nc_next _ _ _ Hc) as [[? _]|(q & l & -> & Hlen & Hl)]; [lia|]. simpl.
  destruct (arr_get_Some_range l k ltac:(lia)) as [a Ha]. rewrite Ha. simpl.
  assert (Hin : a ∈ l). { unfold arr_get in Ha. case_decide; [|done]. by eapply list_elem_of_lookup_2. }
  rewrite (Hl a Hin). rewrite null_slots_get; [done|]. rewrite land_chunk. apply Z.mod_pos_bound. lia.
Qed.

Lemma grown_arrays : arrays_ok (grown s h c).
Proof.
  destruct (so_arrays _ Hs) as ((p & cs & Hcs & Hlen) & Hkd & Hch). split_and!.
  - unfold grown, upd_chunk. simpl. rewrite Hcs. eexists _, _. split; [done|]. by rewrite length_arr_upd.
  - exact Hkd.
  - intros x Hx. rewrite chunk_at_grown. case_decide as Hd.
    + exists c. split; [done|]. destruct (nc_next _ _ _ Hc) as [[Hk ->]|(q & l & -> & Hl & _)]; done.
    + apply Hch. change (chunk_cnt (grown s h c)) with (chunk_cnt s + 1) in Hx. lia.
Qed.

Lemma grown_static : static_ok (grown s h c).
Proof.
  destruct (so_cnt _ Hs). constructor; try apply Hs.
  - apply grown_arrays.
  - unfold grown. fm_frame. lia.
  - intros x Hx. unfold grown in Hx. change (chunk_cnt s + 1 ≤ x < chunk_cap s) in Hx.
    rewrite chunk_at_grown, decide_False by lia. apply (so_fresh _ Hs). lia.
  - intros i. rewrite fm_slot_grown, grown_total. pose proof (total_bound _ Hs).
    case_decide as Hi; [split; [lia|done]|]. rewrite (so_slot _ Hs). lia.
  - intros k i Hk. rewrite grown_total. intros Hi. change (keys (grown s h c)) with (keys s) in Hk.
    destruct (decide (total_slots s ≤ i)).
    + apply fm_key_next_grown_new; lia.
    + rewrite fm_key_next_grown_old by lia. apply (so_next _ Hs); lia.
Qed.

Lemma blocks_grown : blocks (grown s h c) ≡ₚ chunk_blocks c ++ blocks s.
Proof.
  assert (Hcnt := so_cnt _ Hs). assert (Hat := so_fresh _ Hs (chunk_cnt s) ltac:(lia)).
  unfold blocks, grown, chunk_at in *. simpl. destruct (chunks s) as [[p cs]|]; [|done]. simpl in *.
  unfold arr_get, arr_upd in *. case_decide; [|done].
  rewrite <-(take_drop_middle _ _ _ Hat) at 2. rewrite <-(take_drop_middle _ _ _ Hat) at 1.
  assert (Hlt := lookup_lt_Some _ _ _ Hat).
  rewrite alter_app_r_alt by (rewrite length_take; lia).
  rewrite length_take, Nat.min_l, Nat.sub_diag by lia. simpl.
  rewrite !flat_map_app. simpl. unfold chunk_blocks at 4. simpl. solve_Permutation.
Qed.
End grown.

(** * Consequences of [extends] *)

Lemma row_at_out s i : static_ok s → ¬ (0 ≤ i < total_slots s) → row_at s i = None.
Proof.
  intros H Hi. destruct (row_at s i) as [r|] eqn:Hr; [|done]. by apply (row_at_range _ _ _ H) in Hr.
Qed.

Lemma extends_row s s' i : static_ok s → extends s s' → row_at s' i = row_at s i.
Proof.
  intros Hs H. destruct (decide (0 ≤ i < total_slots s)) as [Hi|Hi].
  { apply unlinked_row. by apply (ex_old _ _ H). }
  rewrite (row_at_out s) by done. destruct (decide (total_slots s ≤ i < total_slots s')) as [Hn|Hn].
  - destruct (unlinked_Some _ _ (ex_new _ _ H i Hn)) as ([] & Hsl & Heq). simplify_eq/=.
    unfold row_at. by rewrite Hsl.
  - apply row_at_out; [apply H|]. pose proof (ex_total _ _ H). lia.
Qed.

Lemma extends_bucket s s' k rec : extends s s' → bucket_of s' k rec = bucket_of s k rec.
Proof. intros H. unfold bucket_of. by rewrite (ex_cfg _ _ H). Qed.

(** What is known of a slot carries over, provided it also holds of a fresh one. *)
Lemma extends_slot s s' i sl (R : Z → FM_SLOT → Prop) : extends s s' → fm_slot s' i = Some sl →
  (total_slots s ≤ i → ∀ v, R i (sl_with_free_next v FM_SLOT_new)) →
  (∀ sl0 v, fm_slot s i = Some sl0 → R i (sl_with_free_next v sl0)) → R i sl.
Proof.
  intros H Hsl Hnew Hold.
  assert (Hi : 0 ≤ i < total_slots s') by (apply (so_slot _ (ex_static _ _ H)); by exists sl).
  assert (Hsame : ∀ sl0, unlinked (Some sl) = unlinked (Some sl0) → sl = sl_with_free_next (free_next sl) sl0).
  { intros [] ?. destruct sl; by simplify_eq/=. }
  destruct (decide (i < total_slots s)) as [Hlt|Hlt].
  - pose proof (ex_old _ _ H i ltac:(lia)) as Ho. rewrite Hsl in Ho.
    destruct (unlinked_Some _ _ (eq_sym Ho)) as (sl0 & Hsl0 & _). rewrite Hsl0 in Ho.
    rewrite (Hsame _ Ho). by apply Hold.
  - pose proof (ex_new _ _ H i ltac:(lia)) as Ho. rewrite Hsl in Ho. rewrite (Hsame _ Ho). apply Hnew. lia.
Qed.

Lemma slot_ok_fresh s v : slot_ok s (sl_with_free_next v FM_SLOT_new).
Proof. constructor; simpl; [split; [lia|done]|lia|done|done]. Qed.

Lemma extends_slots_ok s s' : extends s s' → (∀ i sl, fm_slot s i = Some sl → slot_ok s sl) →
  ∀ i sl, fm_slot s' i = Some sl → slot_ok s' sl.
Proof.
  intros H Hok i sl Hsl. apply (extends_slot s s' i sl (λ _, slot_ok s') H Hsl).
  - intros. apply slot_ok_fresh.
  - intros sl0 v Hsl0. eapply (unlinked_slot_ok s s' sl0); [by destruct sl0|apply H|]. by eapply Hok.
Qed.

Lemma extends_key_rep s s' k : static_ok s → extends s s' →
  key_rep s k (indexed s k) → key_rep s' k (indexed s' k).
Proof.
  intros Hs H Hrep b hd Hh. rewrite (ex_head _ _ H) in Hh. destruct (Hrep b hd Hh) as (l & Hl & Hnd & Hin).
  exists l. split_and!; [|done|].
  - eapply linked_ext; [|done]. intros x Hx. apply (ex_next _ _ H).
    apply Hin in Hx. by eapply indexed_range.
  - intros i. rewrite Hin. symmetry. apply indexed_ext; [by apply extends_row|].
    intros. by apply extends_bucket.
Qed.

(** Growing and filling the freelist of a share whose freelist is empty. *)
Lemma grown_extends s h c s' : static_ok s → heap_ok s → chunk_cnt s < chunk_cap s → new_chunk s h c →
  free_only (grown s h c) s' → extends s s'.
Proof.
  intros Hs Hh Hcap Hc F. pose proof (fo_erase _ _ F) as E.
  assert (Ht : total_slots s' = total_slots s + 4096).
  { by rewrite (total_slots_erase _ _ E), (grown_total s h c). }
  constructor; rewrite ?(erase_reclength _ _ E), ?(erase_keys _ _ E), ?(erase_max_records _ _ E),
    ?(erase_chunk_cap _ _ E), ?(fo_records _ _ F), ?(fo_mutex _ _ F), ?(erase_auto_inc _ _ E),
    ?(erase_auto_key _ _ E), ?(erase_auto_key_type _ _ E), ?Ht; try done.
  - eapply static_ok_erase; [done|by apply grown_static].
  - apply (heap_ok_erase (grown s h c)); [done|]. destruct Hh as (Hnd & Hin & Hfr).
    pose proof (blocks_grown s h c Hs Hcap Hc) as Hp. split_and!.
    + rewrite Hp. apply NoDup_app. split_and!; [apply Hc| |done].
      intros x Hx Hx'. by eapply (nc_fresh _ _ _ Hc x Hx), Hin.
    + intros p. rewrite Hp, elem_of_app. change (heap (grown s h c)) with h.
      rewrite (nc_live _ _ _ Hc). intros [Hx|Hx%Hin]; set_solver.
    + apply Hc.
  - lia.
  - intros i Hi. rewrite (fo_slot _ _ F), (fm_slot_grown s h c) by done. by rewrite decide_False by lia.
  - intros i Hi. rewrite (fo_slot _ _ F), (fm_slot_grown s h c) by done. by rewrite decide_True by lia.
  - intros k i Hi. rewrite (fo_next _ _ F). apply fm_key_next_grown_old; (done || lia).
  - intros. rewrite (fo_head _ _ F). reflexivity.
  - intros. rewrite (fo_lock _ _ F). reflexivity.
  - intros. rewrite (key_cfg_erase _ _ E). reflexivity.
  - rewrite (foreign_erase _ _ E). unfold foreign. rewrite (blocks_grown s h c Hs Hcap Hc), list_to_set_app_L.
    change (heap (grown s h c)) with h. rewrite (nc_live _ _ _ Hc).
    assert (Hd : ∀ x, x ∈ chunk_blocks c → x ∉ live (heap s)) by apply Hc. set_solver.
  - exact (f_equal ops_alloc E).
Qed.

Lemma extends_refl s : static_ok s → heap_ok s → extends s s.
Proof. intros. constructor; try done; lia. Qed.

Lemma extends_with_heap s h : static_ok s → heap_ok s → live h = live (heap s) → fresh h →
  extends s (with_heap h s).
Proof.
  intros Hs (Hnd & Hin & Hfr) Hl Hf. constructor; try done; try lia.
  - destruct Hs. by constructor.
  - split_and!; [done| |done]. intros p Hp. fm_frame. rewrite Hl. by apply Hin.
  - intros i Hi. change (total_slots (with_heap h s)) with (total_slots s) in Hi. lia.
  - unfold foreign. fm_frame. by rewrite Hl.
Qed.

Lemma extends_with_free_head s v : static_ok s → heap_ok s → extends s (with_free_head v s).
Proof.
  intros Hs Hh. constructor; try done; try lia.
  - destruct Hs. by constructor.
  - intros i Hi. change (total_slots (with_free_head v s)) with (total_slots s) in Hi. lia.
Qed.

(** * Allocating a slot *)

(** What [fm_core_alloc_slot] promises: a dead slot taken off the freelist, or none when the
    rows have reached the limit or an allocation has failed. *)
Definition alloc_post (s : FM_SHARE_CORE) (idx : Z) (s' : FM_SHARE_CORE) : Prop :=
  extends s s' ∧
  ((idx = FM_NULL_SLOT ∧ free_rep s' ∅ ∧
     (∀ i, 0 ≤ i < Z.min (total_slots s) (max_records s) → is_Some (row_at s i)) ∧
     ((chunk_cap s' ≤ chunk_cnt s' ∧ max_records s ≤ total_slots s) ∨
      (chunk_cnt s' < chunk_cap s' ∧ ∃ m sz, (calls (heap s) ≤ m)%nat ∧ ops_alloc s m sz = false))) ∨
   (0 ≤ idx < total_slots s' ∧ row_at s idx = None ∧ free_rep s' {[ idx ]})).

Lemma free_rep_empty s : free_rep s ∅ → free_head s = FM_NULL_SLOT →
  ∀ i, 0 ≤ i < Z.min (total_slots s) (max_records s) → is_Some (row_at s i).
Proof.
  intros (fl & Hl & _ & _ & Hall) Hnull i Hi. rewrite Hnull, linked_head_null in Hl. subst.
  destruct (row_at s i) eqn:Hr; [done|]. specialize (Hall i ltac:(lia) ltac:(lia) Hr ltac:(set_solver)).
  set_solver.
Qed.

(** Taking the first slot of a nonempty freelist. *)
Lemma alloc_slot_pop s : static_ok s → heap_ok s → free_rep s ∅ → free_head s ≠ FM_NULL_SLOT →
  wp fm_core_alloc_slot (alloc_post s) s.
Proof.
  intros Hs Hh (fl & Hl & Hnd & Hin & Hall) Hhd. unfold fm_core_alloc_slot. wp_get.
  rewrite decide_True by done. cbv zeta.
  destruct (linked_head_cons _ _ _ Hl Hhd) as (n & fl' & -> & Hge & Hn & Hl').
  apply NoDup_cons in Hnd as [Hx Hnd]. destruct (Hin (free_head s) ltac:(set_solver)) as (Hr & Hrow & _).
  unfold free_next_at in Hn. destruct (fm_slot s (free_head s)) as [sl|] eqn:Hsl; simplify_eq/=.
  wp_step (deref_slot_run _ _ _ Hsl). wp_mod. apply wp_ret.
  split; [by apply extends_with_free_head|]. right. split; [done|]. split; [done|].
  exists fl'. split_and!; [done|done| |].
  - intros i Hi. destruct (Hin i ltac:(set_solver)) as (? & ? & _). split; [done|]. split; [done|].
    intros ->%elem_of_singleton. done.
  - intros i Hi Hm Hri Hni. specialize (Hall i Hi Hm Hri ltac:(set_solver)). set_solver.
Qed.

(** Refilling an empty freelist with a fresh chunk. *)
Lemma alloc_slot_grow s h c : static_ok s → heap_ok s → free_rep s ∅ → free_head s = FM_NULL_SLOT →
  chunk_cnt s < chunk_cap s → total_slots s < max_records s → new_chunk s h c →
  wp (push_down (Z.to_nat (Z.min (total_slots s + 4096) (max_records s) - (total_slots s + 1)))
        (Z.min (total_slots s + 4096) (max_records s)))
     (λ _, alloc_post s (total_slots s)) (grown s h c).
Proof.
  intros Hs Hh Hfree Hhd Hcap Hmax Hc. pose proof (free_rep_empty _ Hfree Hhd) as Hfull.
  pose proof (total_bound _ Hs) as Ht. pose proof (total_bound _ (grown_static s h c Hs Hcap Hc)) as Ht'.
  rewrite (grown_total s h c) in Ht' by done.
  eapply wp_mono.
  { apply (push_down_spec _ _ _ []); [done|lia|]. intros j ?. split; [|set_solver].
    rewrite (fm_slot_grown s h c) by done. by rewrite decide_True by lia. }
  intros _ s' [F Hl]. pose proof (grown_extends s h c s' Hs Hh Hcap Hc F) as Hext. split; [done|]. right.
  assert (Htot : total_slots s' = total_slots s + 4096).
  { by rewrite (total_slots_erase _ _ (fo_erase _ _ F)), (grown_total s h c). }
  split; [lia|]. split; [apply row_at_out; [done|lia]|].
  rewrite app_nil_r in Hl. eexists. split; [exact Hl|]. split; [apply NoDup_seqZ|]. split.
  - intros i Hi%elem_of_seqZ. rewrite (extends_row s) by done.
    split; [lia|]. split; [apply row_at_out; [done|lia]|]. intros ?%elem_of_singleton. lia.
  - intros i Hi Hm. rewrite (extends_row s) by done. rewrite (ex_max _ _ Hext) in Hm.
    intros Hr Hni%not_elem_of_singleton. apply elem_of_seqZ.
    destruct (decide (i < total_slots s)); [|lia].
    destruct (Hfull i ltac:(lia)) as [? ?]. congruence.
Qed.

Lemma alloc_slot_spec s : static_ok s → heap_ok s → free_rep s ∅ → wp fm_core_alloc_slot (alloc_post s) s.
Proof.
  intros Hs Hh Hfree. destruct (decide (free_head s = FM_NULL_SLOT)) as [Hhd|Hhd];
    [|by apply alloc_slot_pop].
  pose proof (free_rep_empty _ Hfree Hhd) as Hfull. pose proof (total_bound _ Hs) as Ht.
  destruct (so_cnt _ Hs). pose proof (so_cap_max _ Hs). pose proof (so_cap _ Hs).
  unfold fm_core_alloc_slot. wp_get. rewrite decide_False by tauto. cbv zeta.
  change (u32 (Z.shiftl (chunk_cnt s) FM_CHUNK_SHIFT)) with (fm_core_slot_count s).
  rewrite slot_count_total by done. case_decide as Hmax.
  { apply wp_ret. split; [by apply extends_refl|]. left. split_and!; [done..|].
    left. unfold total_slots in Hmax. split; [lia|done]. }
  rewrite decide_True by (rewrite land_chunk; unfold total_slots; apply Z.mod_mul; lia).
  assert (Hroom : chunk_cnt s < chunk_cap s) by (unfold total_slots in *; lia).
  destruct (grow_chunk_run s Hs (proj2 (proj2 Hh))) as [[? _]|[(_ & h & Hrun & Hl & Hf & Hm)|(_ & h & c & Hrun & Hc)]];
    [lia|..]; wp_step Hrun.
  - rewrite decide_True by done. apply wp_ret. split; [by apply extends_with_heap|]. left. split_and!; [done..|].
    right. split; [done|exact Hm].
  - rewrite decide_False by tauto. rewrite FM_CHUNK_SIZE_eq, i32_small, u32_small by (unfold total_slots in *; lia).
    replace (if decide (max_records s < total_slots s + 4096) then max_records s else total_slots s + 4096)
      with (Z.min (total_slots s + 4096) (max_records s)) by (case_decide; lia).
    wp_use (alloc_slot_grow s h c); try done; [lia|]. intros _ s' Hpost. by apply wp_ret.
Qed.

(** * Properties *)

(** Slot allocation.  [fm_core_alloc_slot] either hands out a slot that holds no row and is
    from then on off the freelist - popped, or the first of a chunk it has just allocated -
    or fails, and then every slot within the row limit holds a row, and either no chunk may be
    added or an allocation failed.  Existing slots and chains are untouched. *)
Theorem alloc_slot_correct s : static_ok s → heap_ok s → free_rep s ∅ →
  wp fm_core_alloc_slot (λ idx s', static_ok s' ∧ heap_ok s' ∧ foreign s' = foreign s ∧
    (∀ i, 0 ≤ i < total_slots s → row_at s' i = row_at s i) ∧
    (idx = FM_NULL_SLOT ∧ free_rep s' ∅ ∧
       (∀ i, 0 ≤ i < Z.min (total_slots s) (max_records s) → is_Some (row_at s i)) ∧
       (max_records s ≤ total_slots s ∨ ∃ m sz, (calls (heap s) ≤ m)%nat ∧ ops_alloc s m sz = false) ∨
     0 ≤ idx < total_slots s' ∧ row_at s idx = None ∧ free_rep s' {[ idx ]})) s.
Proof.
  intros Hs Hh Hf. eapply wp_mono; [by apply alloc_slot_spec|]. intros idx s' [E Hcase].
  split_and!; [apply E|apply E|apply E|intros i Hi; apply unlinked_row, E, Hi|]. clear -Hcase. naive_solver.
Qed.
