(* ===== verification/Steps.v ===== *)
(** What the writers have in common: the configuration they keep, generations, and how the
    freelist, the uniqueness of keys and the row count follow the table. *)

From S2P Require Import Prelude CoreState CoreOps RowOps Shape Inv Chains Reads Alloc Freelist.

(** The part of a share that no writer changes. *)
Record same_config (s s' : FM_SHARE_CORE) : Prop := {
  sc_reclength : reclength s' = reclength s;
  sc_keys : keys s' = keys s;
  sc_max : max_records s' = max_records s;
  sc_cap : chunk_cap s' = chunk_cap s;
  sc_auto : auto_inc s' = auto_inc s;
  sc_auto_key : auto_key s' = auto_key s;
  sc_auto_type : auto_key_type s' = auto_key_type s;
  sc_foreign : foreign s' = foreign s;
  sc_cfg k : key_cfg s' k = key_cfg s k;
  sc_alloc : ops_alloc s' = ops_alloc s
}.

Definition gen_at (s : FM_SHARE_CORE) (i : Z) : option Z := gen <$> fm_slot s i.

Lemma gen_at_is_Some s i : static_ok s → 0 ≤ i < total_slots s → is_Some (gen_at s i).
Proof. intros Hs Hi. apply fmap_is_Some. by apply (so_slot _ Hs). Qed.

#[export] Instance same_config_refl : Reflexive same_config.
Proof. intros s. by constructor. Qed.

#[export] Instance same_config_trans : Transitive same_config.
Proof. intros s1 s2 s3 [] []. constructor; intros; congruence. Qed.

Lemma same_config_erase s s' : erase s' = erase s → same_config s s'.
Proof.
  intros E. constructor; [by apply erase_reclength|by apply erase_keys|by apply erase_max_records
    |by apply erase_chunk_cap|by apply erase_auto_inc
    |by apply erase_auto_key|by apply erase_auto_key_type|by apply foreign_erase| |by apply (f_equal ops_alloc) in E]. intros k. by apply key_cfg_erase.
Qed.

Lemma same_config_extends s s' : extends s s' → same_config s s'.
Proof. intros []. by constructor. Qed.

Lemma same_config_bucket s s' k rec : same_config s s' → bucket_of s' k rec = bucket_of s k rec.
Proof. intros H. unfold bucket_of. by rewrite (sc_cfg _ _ H). Qed.

(** * Conflicts and uniqueness *)

Lemma conflict_ext s s' k rec : (∀ i, row_at s' i = row_at s i) → (∀ k, key_cfg s' k = key_cfg s k) →
  conflict s' k rec ↔ conflict s k rec.
Proof. intros Hr Hc. unfold conflict, row_same. setoid_rewrite Hc. by setoid_rewrite Hr. Qed.

Lemma conflict_table s k rec : static_ok s → conflict s k rec ↔
  ∃ o nb i r, key_cfg s k = Some (o, true, nb) ∧ ¬ null_key o rec ∧ table s !! i = Some r ∧ same_key o r rec.
Proof.
  intros Hs. unfold conflict, row_same. split.
  - intros (o & nb & i & Hc & Hn & Hr). destruct (row_at s i) as [r|] eqn:Hri; [|done].
    exists o, nb, i, r. by rewrite table_lookup.
  - intros (o & nb & i & r & Hc & Hn & Hri & Hr). rewrite table_lookup in Hri by done.
    exists o, nb, i. by rewrite Hri.
Qed.

Lemma unique_ok_ext s s' t : keys s' = keys s → (∀ k, key_cfg s' k = key_cfg s k) → unique_ok s t → unique_ok s' t.
Proof. intros Hk Hc H k o nb i j a b. rewrite Hk, Hc. apply H. Qed.

(** Storing a record that agrees with no other row on a unique key keeps keys unique. *)
Lemma unique_ok_insert s t idx rec : static_ok s → unique_ok s (delete idx t) →
  (∀ k o nb j b, 0 ≤ k < keys s → key_cfg s k = Some (o, true, nb) → j ≠ idx → t !! j = Some b →
    ¬ null_key o rec → ¬ same_key o b rec) → unique_ok s (<[idx:=rec]> t).
Proof.
  intros Hs Hu Hnew k o nb i j a b Hk Hc Hij Ha Hb Hn Hsame.
  assert (Hlaws : KeyOpsLaws o).
  { destruct (so_key _ Hs k Hk) as (o' & u & n & Hc' & _ & Hl & _). by simplify_eq. }
  apply lookup_insert_Some in Ha as [[-> <-]|[Hi Ha]]; apply lookup_insert_Some in Hb as [Hb|Hb].
  - destruct Hb as [-> _]. done.
  - destruct Hb as [Hj Hb]. apply (Hnew k o nb j b); done.
  - destruct Hb as [-> <-]. apply (Hnew k o nb i a); try done. intros Hn'. apply Hn.
    eapply laws_null; [|done]. by symmetry.
  - destruct Hb as [Hj Hb]. by eapply (Hu k o nb i j a b); rewrite ?lookup_delete_ne.
Qed.

Lemma unique_ok_delete s t idx : unique_ok s t → unique_ok s (delete idx t).
Proof.
  intros H k o nb i j a b Hk Hc Hij [_ Ha]%lookup_delete_Some [_ Hb]%lookup_delete_Some. by eapply H.
Qed.

(** A table with a row at every index below [n] has at least [n] rows. *)
Lemma table_full (t : gmap Z bytes) n : (∀ i, 0 ≤ i < n → is_Some (t !! i)) → n ≤ Z.of_nat (size t).
Proof.
  intros H. rewrite <-size_dom.
  assert (Hsub : list_to_set (seqZ 0 n) ⊆ dom t).
  { intros i Hi%elem_of_list_to_set%elem_of_seqZ. apply elem_of_dom, H. lia. }
  apply subseteq_size in Hsub. rewrite size_list_to_set, length_seqZ in Hsub by apply NoDup_seqZ. lia.
Qed.

(** * The freelist across a change of rows *)

Lemma free_rep_ext s s' X Y :
  total_slots s' = total_slots s → max_records s' = max_records s → free_head s' = free_head s →
  (∀ i, free_next_at s' i = free_next_at s i) →
  (∀ i, 0 ≤ i < total_slots s → row_at s' i = None ∧ i ∉ Y ↔ row_at s i = None ∧ i ∉ X) →
  free_rep s X → free_rep s' Y.
Proof.
  intros Ht Hm Hh Hn Hr (fl & Hl & Hnd & Hin & Hall). exists fl. rewrite Ht, Hm, Hh. split_and!.
  - eapply linked_ext; [|done]. intros. apply Hn.
  - done.
  - intros i Hi. destruct (Hin i Hi) as [Hi' Hri]. split; [done|]. by apply Hr.
  - intros i Hi Hmx Hri HY. destruct (proj1 (Hr i Hi) (conj Hri HY)). by apply Hall.
Qed.

(** Returning a dead slot to the freelist. *)
Lemma free_rep_push s idx : static_ok s → 0 ≤ idx < total_slots s → row_at s idx = None →
  free_rep s {[ idx ]} →
  free_rep (with_free_head idx (upd_slot (sl_with_free_next (free_head s)) idx s)) ∅.
Proof.
  intros Hs Hi Hrow (fl & Hl & Hnd & Hin & Hall).
  assert (Hidx : idx ∉ fl) by (intros Hx; destruct (Hin _ Hx); set_solver).
  set (s' := with_free_head _ _).
  assert (F : free_only s s') by apply free_slot_free_only.
  exists (idx :: fl). split_and!.
  - apply free_slot_linked; [by apply Hs|lia|done|done].
  - by constructor.
  - intros i Hx. rewrite (free_only_row _ _ _ F). split; [|split; [|set_solver]].
    + apply elem_of_cons in Hx as [->|Hx]; [done|]. by apply (Hin i Hx).
    + apply elem_of_cons in Hx as [->|Hx]; [done|]. by apply (Hin i Hx).
  - intros i Hi' Hmx Hri _. rewrite (free_only_row _ _ _ F) in Hri.
    destruct (decide (i = idx)); [set_solver|]. apply elem_of_cons. right. apply Hall; [done..|set_solver].
Qed.

(** * Generic frames *)

Lemma slot_ok_reclength s s' sl : reclength s' = reclength s → slot_ok s sl → slot_ok s' sl.
Proof. intros Hr []. constructor; try done. by rewrite Hr. Qed.

Lemma chains_only_slots_ok s s' : chains_only s s' → (∀ i sl, fm_slot s i = Some sl → slot_ok s sl) →
  ∀ i sl, fm_slot s' i = Some sl → slot_ok s' sl.
Proof.
  intros C H i sl Hsl. rewrite (co_slot _ _ C) in Hsl. eapply slot_ok_reclength; [|by eapply H].
  apply erase_reclength, C.
Qed.

Lemma chains_only_static s s' : chains_only s s' → static_ok s → static_ok s'.
Proof. intros C. apply static_ok_erase, C. Qed.

Lemma chains_only_bucket s s' k rec : chains_only s s' → bucket_of s' k rec = bucket_of s k rec.
Proof. intros C. apply bucket_of_erase, C. Qed.

Lemma chains_only_indexed s s' k b i : chains_only s s' → indexed s' k b i ↔ indexed s k b i.
Proof.
  intros C. apply indexed_ext; [by apply chains_only_row|]. intros. by apply chains_only_bucket.
Qed.

Lemma chains_only_conflict s s' k rec : chains_only s s' → conflict s' k rec ↔ conflict s k rec.
Proof.
  intros C. apply conflict_ext; [intros; by apply chains_only_row|]. intros. apply key_cfg_erase, C.
Qed.

Lemma chains_only_free_rep s s' X : chains_only s s' → free_rep s X → free_rep s' X.
Proof.
  intros C. apply free_rep_ext; [apply total_slots_erase, C|apply erase_max_records, C|apply C|..].
  - intros i. unfold free_next_at. by rewrite (co_slot _ _ C).
  - intros i _. by rewrite (chains_only_row _ _ _ C).
Qed.

(** Taking a bucket lock is invisible to rows, chains and configuration. *)
Lemma lock_invisible v k b s : static_ok s → (∀ i sl, fm_slot s i = Some sl → slot_ok s sl) →
  static_ok (upd_lock v k b s) ∧
  (∀ i sl, fm_slot (upd_lock v k b s) i = Some sl → slot_ok (upd_lock v k b s) sl) ∧
  (∀ k' rec, bucket_of (upd_lock v k b s) k' rec = bucket_of s k' rec).
Proof.
  intros Hs Hok. split_and!.
  - eapply static_ok_erase; [apply erase_upd_lock|done].
  - intros i sl Hsl. destruct (Hok i sl Hsl). by constructor.
  - intros. apply bucket_of_erase, erase_upd_lock.
Qed.

Lemma indexed_lock v k' b' s k b i : indexed (upd_lock v k' b' s) k b i ↔ indexed s k b i.
Proof. apply indexed_ext; [done|]. intros. apply bucket_of_erase, erase_upd_lock. Qed.

Lemma key_rep_ext s s' k (P Q : Z → Z → Prop) :
  (∀ b, head_at s' k b = head_at s k b) → (∀ i, fm_key_next s' k i = fm_key_next s k i) →
  (∀ b i, Q b i ↔ P b i) → key_rep s k P → key_rep s' k Q.
Proof. intros Hh Hn HPQ H. eapply key_rep_proper; [exact HPQ|]. by eapply key_rep_frame. Qed.

(** * Consecutive writes to one slot *)

Lemma upd_chunk_ext_all f g c s : (∀ x, chunk_at s c = Some x → f x = g x) → upd_chunk f c s = upd_chunk g c s.
Proof.
  unfold chunk_at, upd_chunk. intros Hfg. f_equal. destruct (chunks s) as [[p cs]|]; [|done]. simpl in *.
  do 2 f_equal. by apply arr_upd_ext.
Qed.

Lemma upd_slot_ext f g i s : (∀ sl, fm_slot s i = Some sl → f sl = g sl) → upd_slot f i s = upd_slot g i s.
Proof.
  intros H. apply upd_chunk_ext_all. intros [sls kn] Hc. unfold fm_slot in H. rewrite Hc in H. simpl in *.
  f_equal. destruct sls as [[q sls]|]; [|done]. simpl in *. do 2 f_equal. by apply arr_upd_ext.
Qed.

Lemma upd_slot_compose f g i s : upd_slot f i (upd_slot g i s) = upd_slot (f ∘ g) i s.
Proof.
  unfold upd_slot. rewrite upd_chunk_compose. apply upd_chunk_ext_all. intros [[[p sl]|] kn] _; [|done].
  simpl. by rewrite arr_upd_compose.
Qed.

Lemma upd_slot_id f i s sl : fm_slot s i = Some sl → f sl = sl → upd_slot f i s = s.
Proof.
  unfold fm_slot, upd_slot. intros Hsl Hf. destruct (chunk_at s _) as [[sls kn]|] eqn:Hc; [|done]. simpl in Hsl.
  eapply upd_chunk_id; [exact Hc|]. simpl. destruct sls as [[p sls]|]; [|done]. simpl in *.
  by rewrite (arr_upd_id _ _ _ _ Hsl Hf).
Qed.

(** A lock that is taken and released leaves no trace. *)
Lemma wlock_restore s i sl : fm_slot s i = Some sl → wlock sl = 0 →
  upd_slot (sl_with_wlock 0) i (upd_slot (sl_with_wlock 1) i s) = s.
Proof. intros Hsl Hw. rewrite upd_slot_compose. eapply upd_slot_id; [done|]. destruct sl. simpl in *. by subst. Qed.
