(* ===== verification/Insert.v ===== *)
(** [fm_core_insert_row] (src/fm_core.h): linking a new row into every key with rollback on a
    duplicate, and the guarantees of an insert on each of its four outcomes. *)

From S2P Require Import Prelude CoreState CoreOps RowOps Shape Inv Chains Reads Alloc Freelist Steps.

(** * The loop over the keys *)

Section linking.
Context (s0 : FM_SHARE_CORE) (idx : Z) (rec : bytes).
Context (Hstatic : static_ok s0) (Hslots : ∀ i sl, fm_slot s0 i = Some sl → slot_ok s0 sl).
Context (Hlocks : ∀ k b v, lock_at s0 k b = Some v → v = 0).
Context (Hidx : 0 ≤ idx < total_slots s0) (Hdead : row_at s0 idx = None).
#[local] Set Default Proof Using "Type*".

(** The slots on bucket [b] of key [k] once the new row is linked under the keys below [m]. *)
Definition linked_upto (m k b i : Z) : Prop :=
  indexed s0 k b i ∨ (k < m ∧ b = bucket_of s0 k rec ∧ i = idx).

(** The state of the loop: only chains differ from [s0], and they hold the new row exactly for
    the keys below [m]. *)
Definition linking (m : Z) (s : FM_SHARE_CORE) : Prop :=
  chains_only s0 s ∧ ∀ k, 0 ≤ k < keys s0 → key_rep s k (linked_upto m k).

Lemma linked_upto_idx m k b : linked_upto m k b idx ↔ k < m ∧ b = bucket_of s0 k rec.
Proof.
  unfold linked_upto, indexed. rewrite Hdead. split; [|naive_solver].
  intros [(? & ? & _)|(? & ? & _)]; done.
Qed.

Lemma linked_upto_range m k b i : linked_upto m k b i → 0 ≤ i < total_slots s0.
Proof. intros [?|(_ & _ & ->)]; [|done]. by eapply indexed_range. Qed.

Lemma linked_upto_fun m k b b' i : linked_upto m k b i → linked_upto m k b' i → b = b'.
Proof.
  intros H H'. destruct (decide (i = idx)) as [->|Hi].
  - apply linked_upto_idx in H, H'. by destruct H as [_ ->], H' as [_ ->].
  - destruct H as [H|(_ & _ & ?)], H' as [H'|(_ & _ & ?)]; try done. by eapply indexed_fun.
Qed.

(** What is available while the bucket of key [k] is locked. *)
Lemma linking_locked m s k : linking m s → 0 ≤ k < keys s0 →
  let b := bucket_of s0 k rec in let t := upd_lock 1 k b s in
  lock_at s k b = Some 0 ∧ static_ok t ∧ key_rep t k (linked_upto m k) ∧ is_Some (head_at t k b) ∧
  is_Some (fm_key_next t k idx) ∧ total_slots t = total_slots s0 ∧
  (∀ i sl, fm_slot t i = Some sl → slot_ok t sl).
Proof.
  intros [C Hrep] Hk b t. pose proof (chains_only_static _ _ C Hstatic) as Hs.
  assert (Hks : 0 ≤ k < keys s) by by rewrite (erase_keys _ _ (co_erase _ _ C)).
  destruct (bucket_of_range s k rec Hs Hks) as [Hh [v Hv]].
  rewrite (chains_only_bucket _ _ _ _ C) in Hh, Hv. fold b in Hh, Hv.
  destruct (lock_invisible 1 k b s Hs (chains_only_slots_ok _ _ C Hslots)) as (Hst & Hsl & _).
  assert (Ht : total_slots s = total_slots s0) by apply total_slots_erase, C.
  split_and!; try done.
  - rewrite Hv. f_equal. eapply (Hlocks k b). by rewrite <-(co_lock _ _ C).
  - eapply key_rep_frame; [..|by apply Hrep]; intros; unfold t; by fm_frame.
  - unfold t. by fm_frame.
  - unfold t. fm_frame. apply Hs; [done|]. by rewrite Ht.
Qed.

(** Releasing the bucket after the chains of key [k] went from [m] to [m']. *)
Lemma linking_release m m' s k t : linking m s → 0 ≤ k < keys s0 →
  (∀ k' b i, k' ≠ k → linked_upto m' k' b i ↔ linked_upto m k' b i) →
  lock_at s k (bucket_of s0 k rec) = Some 0 →
  links_only k (upd_lock 1 k (bucket_of s0 k rec) s) t → key_rep t k (linked_upto m' k) →
  linking m' (upd_lock 0 k (bucket_of s0 k rec) t).
Proof using Type.
  intros [C Hrep] Hk Hother Hl L Ht. pose proof (links_only_bracket _ _ _ _ Hl L) as L'.
  split; [etrans; [done|apply L']|]. intros k' Hk'. destruct (decide (k' = k)) as [->|Hne].
  - eapply key_rep_frame; [..|exact Ht]; intros; by fm_frame.
  - eapply key_rep_proper; [intros b i; by apply Hother|].
    eapply links_only_key_rep; [exact L'|done|by apply Hrep].
Qed.

Lemma linking_key s m k : linking m s → 0 ≤ k < keys s0 → ∃ kc, key_at s k = Some kc ∧
  is_Some (hash_rec (ops kc)) ∧ fm_core_key_bucket kc rec s = Ret (bucket_of s0 k rec, s).
Proof.
  intros [C Hrep] Hk. pose proof (chains_only_static _ _ C Hstatic) as Hs.
  assert (Hks : 0 ≤ k < keys s) by by rewrite (erase_keys _ _ (co_erase _ _ C)).
  destruct (key_at_is_Some s k Hs Hks) as (kc & n & Hkc & _ & _ & Hlaws). exists kc.
  rewrite (key_bucket_run s k kc rec) by done. rewrite (chains_only_bucket _ _ _ _ C).
  split_and!; [done| |done]. apply Hlaws.
Qed.

(** The rollback undoes every link. *)
Lemma insert_rollback_spec m : ∀ s, linking (Z.of_nat m) s → Z.of_nat m ≤ keys s0 →
  wp (insert_rollback m rec idx) (λ _ s', linking 0 s') s.
Proof.
  induction m as [|m IH]; intros s Hlk Hm; [by apply wp_ret|]. cbn [insert_rollback].
  assert (Hk : 0 ≤ Z.of_nat m < keys s0) by lia. set (k := Z.of_nat m) in *.
  destruct (linking_key _ _ _ Hlk Hk) as (kc & Hkc & _ & Hb).
  destruct (linking_locked _ _ _ Hlk Hk) as (Hl & Hst & Hrep & Hh & Hn & Ht & _).
  wp_step (deref_key_run _ _ _ Hkc). wp_step Hb. wp_step (bucket_lock_run _ _ _ Hl).
  wp_use fm_core_chain_unlink_spec; [exact Hst|exact Hrep| | | |exact Hh|].
  { intros b i. rewrite Ht. apply linked_upto_range. }
  { intros b b' i. apply linked_upto_fun. }
  { apply linked_upto_idx. split; [lia|done]. }
  intros rc t (_ & L & Hrep'). wp_step bucket_unlock_run.
  { rewrite (co_lock _ _ (lo_chains _ _ _ L)), lock_at_upd_eq, Hl. by eexists. }
  apply IH; [|lia]. eapply linking_release; [exact Hlk|done| |done|exact L|].
  - intros k' b i Hne. unfold linked_upto. assert (k' < k ↔ k' < Z.of_nat (S m)) by lia. naive_solver.
  - eapply key_rep_proper; [|exact Hrep']. intros b i. unfold linked_upto.
    destruct (decide (i = idx)) as [->|Hi].
    + fold k. split; [|naive_solver]. intros [(? & Hr & _)|(? & _)]; [congruence|lia].
    + split; [|naive_solver]. intros [?|(? & _)]; [|lia]. split; [by left|done].
Qed.

(** The whole loop: a conflict, and every link undone; or the row linked under every key. *)
Lemma insert_keys_spec scratch n : ∀ m s, linking (Z.of_nat m) s → Z.of_nat (m + n) = keys s0 →
  wp (insert_keys n m rec scratch idx) (λ dup s',
    if dup : bool then linking 0 s' ∧ ∃ k, 0 ≤ k < keys s0 ∧ conflict s0 k rec
    else linking (keys s0) s' ∧ ∀ k, Z.of_nat m ≤ k < keys s0 → ¬ conflict s0 k rec) s.
Proof.
  induction n as [|n IH]; intros m s Hlk Hm; cbn [insert_keys].
  { apply wp_ret. rewrite <-Hm. replace (m + 0)%nat with m by lia. split; [done|lia]. }
  assert (Hk : 0 ≤ Z.of_nat m < keys s0) by lia. set (k := Z.of_nat m) in *.
  destruct (linking_key _ _ _ Hlk Hk) as (kc & Hkc & [f Hf] & Hb).
  destruct (linking_locked _ _ _ Hlk Hk) as (Hl & Hst & Hrep & Hh & Hn & Ht & Hsl).
  set (b := bucket_of s0 k rec) in *. set (t := upd_lock 1 k b s) in *.
  wp_step (deref_key_run _ _ _ Hkc). wp_step Hb. wp_step (bucket_lock_run _ _ _ Hl). rewrite Hf. fold t.
  assert (Hind : key_rep t k (indexed t k)).
  { eapply key_rep_proper; [|exact Hrep]. intros b' i. unfold linked_upto.
    unfold t. rewrite indexed_lock, (chains_only_indexed _ _ _ _ _ (proj1 Hlk)).
    split; [by left|]. intros [?|(? & _)]; [done|lia]. }
  destruct (dup_check_run t k rec scratch Hst Hsl) as (rc & Hrun & Hrc & Hcf); [|done|].
  { unfold t. fm_frame. by rewrite (erase_keys _ _ (co_erase _ _ (proj1 Hlk))). }
  assert (Hbt : bucket_of t k rec = b).
  { unfold t. rewrite (bucket_of_erase _ _ _ _ (erase_upd_lock _ _ _ _)). apply chains_only_bucket, Hlk. }
  rewrite Hbt in Hrun. wp_step Hrun.
  assert (Hcf0 : conflict t k rec ↔ conflict s0 k rec).
  { rewrite <-(chains_only_conflict _ _ _ _ (proj1 Hlk)). apply conflict_ext; [done|].
    intros k'. unfold t. by fm_frame. }
  rewrite Hcf0 in Hcf. destruct (decide (rc ≠ FM_ERR_OK)) as [Hd|Hd].
  - wp_step bucket_unlock_run; [unfold t; rewrite lock_at_upd_eq, Hl; by eexists|].
    unfold t. rewrite upd_lock_restore by done.
    wp_use (insert_rollback_spec m); [exact Hlk|lia|]. intros _ s' Hs'. apply wp_ret. split; [done|].
    exists k. split; [done|]. apply Hcf. by destruct Hrc.
  - wp_use fm_core_chain_link_spec; [exact Hrep|lia| |exact Hh|exact Hn|].
    { intros b' (? & _)%linked_upto_idx. lia. }
    intros _ t' [L Hrep']. wp_step bucket_unlock_run.
    { rewrite (co_lock _ _ (lo_chains _ _ _ L)). unfold t. rewrite lock_at_upd_eq, Hl. by eexists. }
    eapply wp_mono; [apply (IH (S m))|].
    + eapply linking_release; [exact Hlk|done| |done|exact L|].
      * intros k' b' i Hne. unfold linked_upto. assert (k' < k ↔ k' < Z.of_nat (S m)) by lia. naive_solver.
      * eapply key_rep_proper; [|exact Hrep']. intros b' i. unfold linked_upto.
        assert (k < Z.of_nat (S m)) by lia. assert (¬ k < k) by lia. naive_solver.
    + lia.
    + intros [] s'; [done|]. intros [Hs' Hno]. split; [done|]. intros k' Hk'.
      destruct (decide (k' = k)) as [->|]; [|apply Hno; lia]. rewrite <-Hcf. intros ->.
      apply Hd. done.
Qed.
End linking.

(** * The slot under construction *)

(** [placed held s idx rec s']: with the structure mutex held, [idx] was taken off the freelist of
    [s] and holds the image [rec], not yet visible; chains are not spoken of. *)
Record placed (held : gset Z) (s : FM_SHARE_CORE) (idx : Z) (rec : bytes) (s' : FM_SHARE_CORE) : Prop := {
  pl_static : static_ok s';
  pl_heap : heap_ok s';
  pl_config : same_config s s';
  pl_total : total_slots s ≤ total_slots s';
  pl_idx : 0 ≤ idx < total_slots s';
  pl_dead : row_at s idx = None;
  pl_data : ∃ sl, fm_slot s' idx = Some sl ∧ data sl = rec;
  pl_slots i sl : fm_slot s' i = Some sl → slot_ok s' sl;
  pl_wlock i sl : fm_slot s' i = Some sl → wlock sl = if decide (i ∈ held) then 1 else 0;
  pl_lock k b v : lock_at s' k b = Some v → v = 0;
  pl_row i : row_at s' i = row_at s i;
  pl_gen i : 0 ≤ i < total_slots s → gen_at s' i = gen_at s i;
  pl_free : free_rep s' {[ idx ]};
  pl_records : records s' = records s
}.

Lemma placed_chains held s idx rec s' s'' : placed held s idx rec s' → chains_only s' s'' → placed held s idx rec s''.
Proof.
  intros P C. pose proof (co_erase _ _ C) as E. pose proof (total_slots_erase _ _ E) as Ht.
  constructor; rewrite ?Ht;
    try solve [apply (pl_total _ _ _ _ _ P)|apply (pl_idx _ _ _ _ _ P)|apply (pl_dead _ _ _ _ _ P)].
  - eapply chains_only_static; [done|apply P].
  - eapply heap_ok_erase; [done|apply P].
  - etrans; [apply P|by apply same_config_erase].
  - rewrite (co_slot _ _ C). apply P.
  - eapply chains_only_slots_ok; [done|apply P].
  - intros i sl. rewrite (co_slot _ _ C). apply P.
  - intros k b v. rewrite (co_lock _ _ C). apply P.
  - intros i. rewrite (chains_only_row _ _ _ C). apply P.
  - intros i. unfold gen_at. rewrite (co_slot _ _ C). apply P.
  - eapply chains_only_free_rep; [done|apply P].
  - rewrite (co_records _ _ C). apply P.
Qed.

(** Rows and slots of [upd_slot] when the slot stays dead. *)
Lemma upd_dead_row s f idx i : row_at s idx = None → (∀ sl, row_of sl = None → row_of (f sl) = None) →
  row_at (upd_slot f idx s) i = row_at s i.
Proof.
  unfold row_at. intros Hd Hf. rewrite fm_slot_upd. case_decide as Hi; [|done]. subst.
  destruct (fm_slot s i) as [sl|]; [|done]. simpl in *. rewrite Hd. by apply Hf.
Qed.

Lemma row_of_None sl : row_of sl = None ↔ state sl ≠ FM_SLOT_ACTIVE.
Proof. unfold row_of. case_decide; naive_solver. Qed.

Lemma extends_gen s s' i : extends s s' → 0 ≤ i < total_slots s → gen_at s' i = gen_at s i.
Proof.
  intros H Hi. pose proof (ex_old _ _ H i Hi) as Ho. unfold gen_at.
  destruct (fm_slot s' i) as [[]|], (fm_slot s i) as [[]|]; simplify_eq/=; done.
Qed.

(** The locks that are held are of slots that exist. *)
Definition held_in (held : gset Z) (s : FM_SHARE_CORE) : Prop := ∀ i, i ∈ held → i < total_slots s.

Lemma held_in_empty s : held_in ∅ s.
Proof. intros i. by rewrite elem_of_empty. Qed.

(** New slots are not locked. *)
Lemma extends_wlock held s s1 i sl : wf held s → held_in held s → extends (with_struct_mutex 1 s) s1 → fm_slot s1 i = Some sl →
  wlock sl = if decide (i ∈ held) then 1 else 0.
Proof.
  intros Hwf Hin Hext Hsl. eapply (extends_slot _ _ _ _ (λ i sl, wlock sl = if decide (i ∈ held) then 1 else 0) Hext Hsl).
  - intros Hnew v. rewrite decide_False; [done|]. intros Hi%Hin. change (total_slots (with_struct_mutex 1 s)) with (total_slots s) in Hnew. lia.
  - intros sl0 v Hsl0. simpl. by destruct (wf_locks _ _ Hwf) as (_ & _ & ->%(λ H, H i sl0 Hsl0)).
Qed.

Lemma alloc_placed held s idx rec s1 : wf held s → held_in held s → Z.of_nat (length rec) = reclength s →
  extends (with_struct_mutex 1 s) s1 → 0 ≤ idx < total_slots s1 → row_at s idx = None →
  free_rep s1 {[ idx ]} → placed held s idx rec (upd_slot (sl_with_data rec) idx s1).
Proof.
  intros Hwf Hin Hlen Hext Hidx Hdead Hfree. set (s2 := upd_slot _ _ _).
  assert (Hst0 : static_ok (with_struct_mutex 1 s)) by (destruct (wf_static _ _ Hwf); by constructor).
  assert (Hrow1 : ∀ i, row_at s1 i = row_at s i) by (intros; by rewrite (extends_row _ _ _ Hst0 Hext)).
  assert (Hrow2 : ∀ i, row_at s2 i = row_at s1 i).
  { intros i. apply upd_dead_row; [by rewrite Hrow1|]. intros sl. by rewrite !row_of_None. }
  assert (Hpt : ∀ (R : Z → FM_SLOT → Prop), (∀ i sl, fm_slot s1 i = Some sl → R i sl) →
    (∀ i sl, R i sl → row_at s1 i = None → fm_slot s1 i = Some sl → R i (sl_with_data rec sl)) →
    ∀ i sl, fm_slot s2 i = Some sl → R i sl).
  { intros R H1 H2 i sl. unfold s2. rewrite fm_slot_upd. case_decide as Hd; [|by apply H1]. subst.
    destruct (fm_slot s1 i) as [sl1|] eqn:H; [|done]. intros [= <-]. apply H2; [by apply H1| |done].
    by rewrite Hrow1. }
  constructor.
  - eapply static_ok_erase; [apply erase_upd_slot|apply Hext].
  - eapply heap_ok_erase; [apply erase_upd_slot|apply Hext].
  - etrans; [|apply same_config_erase, erase_upd_slot]. by destruct (same_config_extends _ _ Hext).
  - apply (ex_total _ _ Hext).
  - done.
  - done.
  - unfold s2. rewrite fm_slot_upd_eq. destruct (proj2 (so_slot _ (ex_static _ _ Hext) idx) Hidx) as [sl ->].
    by eexists.
  - apply (Hpt (λ _, slot_ok s2)).
    + intros i sl Hsl. apply (slot_ok_reclength s1); [done|]. eapply extends_slots_ok; [exact Hext| |exact Hsl].
      intros j slj Hj. apply (slot_ok_reclength s); [done|]. by eapply Hwf.
    + intros i sl [] _ _. constructor; try done. intros _. simpl. unfold s2. fm_frame.
      by rewrite (ex_reclength _ _ Hext).
  - apply (Hpt (λ i sl, wlock sl = if decide (i ∈ held) then 1 else 0)); [|done]. intros i sl. by apply (extends_wlock held s).
  - intros k b v. unfold s2. fm_frame. rewrite (ex_lock _ _ Hext). apply (wf_locks _ _ Hwf).
  - intros i. by rewrite Hrow2.
  - intros i Hi. unfold s2, gen_at. rewrite fm_slot_upd. transitivity (gen_at s1 i).
    + unfold gen_at. case_decide; [|done]. by destruct (fm_slot s1 i).
    + by apply (extends_gen _ _ _ Hext).
  - eapply free_rep_ext; [..|exact Hfree]; try done.
    + intros i. unfold s2, free_next_at. rewrite fm_slot_upd. case_decide; [|done]. by destruct (fm_slot s1 i).
    + intros i _. by rewrite Hrow2.
  - apply Hext.
Qed.

(** The loop starts with the new row on no chain. *)
Lemma alloc_linking held s idx rec s1 : wf held s → extends (with_struct_mutex 1 s) s1 →
  placed held s idx rec (upd_slot (sl_with_data rec) idx s1) →
  linking (upd_slot (sl_with_data rec) idx s1) idx rec 0 (upd_slot (sl_with_data rec) idx s1).
Proof.
  intros Hwf Hext P. set (s2 := upd_slot _ _ _) in *. split; [done|]. intros k Hk.
  rewrite (sc_keys _ _ (pl_config _ _ _ _ _ P)) in Hk.
  assert (Hst0 : static_ok (with_struct_mutex 1 s)) by (destruct (wf_static _ _ Hwf); by constructor).
  eapply (key_rep_ext s1 s2 k); [intros; unfold s2; by fm_frame..| |].
  2: { apply (extends_key_rep _ _ k Hst0 Hext). by apply Hwf. }
  intros b i. unfold linked_upto. transitivity (indexed s2 k b i).
  - split; [|by left]. intros [?|(? & _)]; [done|lia].
  - apply indexed_ext; [|intros; apply bucket_of_erase, erase_upd_slot].
    rewrite (pl_row _ _ _ _ _ P). symmetry. apply (extends_row _ _ _ Hst0 Hext).
Qed.

(** * The two ways out of the loop *)

(** A duplicate: the slot goes back to the freelist. *)
Definition insert_undone (idx : Z) (s : FM_SHARE_CORE) : FM_SHARE_CORE :=
  with_struct_mutex 0 (with_free_head idx (upd_slot (sl_with_free_next (free_head s)) idx s)).

(** Success: the row becomes visible. *)
Definition insert_published (idx : Z) (s : FM_SHARE_CORE) : FM_SHARE_CORE :=
  with_struct_mutex 0 (with_records (records s + 1) (upd_slot (sl_with_state FM_SLOT_ACTIVE) idx s)).

Lemma table_size_bound_insert (t : gmap Z bytes) i rec : t !! i = None →
  Z.of_nat (size (<[i:=rec]> t)) = Z.of_nat (size t) + 1.
Proof. intros H. rewrite map_size_insert_None by done. lia. Qed.

Lemma insert_undone_wf held s idx rec s' : wf held s → placed held s idx rec s' →
  (∀ k, 0 ≤ k < keys s → key_rep s' k (indexed s k)) →
  wf held (insert_undone idx s') ∧ table (insert_undone idx s') = table s.
Proof.
  intros Hwf P Hkeys. set (s2 := insert_undone idx s').
  assert (F : free_only s' (with_free_head idx (upd_slot (sl_with_free_next (free_head s')) idx s')))
    by apply free_slot_free_only.
  assert (E : erase s2 = erase s') by (unfold s2, insert_undone; rewrite <-(fo_erase _ _ F); reflexivity).
  assert (Hst : static_ok s2) by (eapply static_ok_erase; [done|apply P]).
  assert (Hrow : ∀ i, row_at s2 i = row_at s i).
  { intros i. transitivity (row_at s' i); [apply (free_only_row _ _ _ F)|apply P]. }
  assert (Ht : table s2 = table s) by (apply table_ext; [apply Hwf|done|done]).
  assert (Hcfg : same_config s s2) by (etrans; [apply P|by apply same_config_erase]).
  assert (Hpt : ∀ i sl, fm_slot s2 i = Some sl → ∃ sl', fm_slot s' i = Some sl' ∧ unlinked (Some sl) = unlinked (Some sl')).
  { intros i sl Hsl. pose proof (fo_slot _ _ F i) as Hu. change (fm_slot _ i) with (fm_slot s2 i) in Hu at 1.
    rewrite Hsl in Hu. destruct (fm_slot s' i) as [sl'|]; [|done]. by exists sl'. }
  split; [|done]. constructor; rewrite ?Ht.
  - done.
  - eapply heap_ok_erase; [done|apply P].
  - split_and!; [done|..].
    + intros k b v. unfold s2, insert_undone. fm_frame. apply P.
    + intros i sl Hsl. destruct (Hpt i sl Hsl) as (sl' & Hsl' & Hu).
      rewrite <-(pl_wlock _ _ _ _ _ P i sl' Hsl'). destruct sl, sl'; by simplify_eq/=.
  - intros i sl Hsl. destruct (Hpt i sl Hsl) as (sl' & Hsl' & Hu).
    apply (unlinked_slot_ok s' s2 sl' sl Hu); [done|by eapply P].
  - rewrite (sc_keys _ _ Hcfg). intros k Hk.
    apply (key_rep_ext s' s2 k (indexed s k));
      [intros; unfold s2, insert_undone; by fm_frame..| |by apply Hkeys].
    intros b i. apply indexed_ext; [done|]. intros. by apply same_config_bucket.
  - apply (free_rep_push s'); [apply P|apply (pl_idx _ _ _ _ _ P)| |apply P].
    rewrite (pl_row _ _ _ _ _ P). apply P.
  - unfold s2, insert_undone. fm_frame. rewrite (pl_records _ _ _ _ _ P). apply Hwf.
  - eapply unique_ok_ext; [apply Hcfg|apply Hcfg|apply Hwf].
Qed.

Lemma insert_published_wf held s idx rec s' : wf held s → placed held s idx rec s' →
  (∀ k, 0 ≤ k < keys s → key_rep s' k (λ b i, indexed s k b i ∨ b = bucket_of s k rec ∧ i = idx)) →
  (∀ k, 0 ≤ k < keys s → ¬ conflict s k rec) → Z.of_nat (length rec) = reclength s →
  wf held (insert_published idx s') ∧ table (insert_published idx s') = <[idx:=rec]> (table s).
Proof.
  intros Hwf P Hkeys Hno Hlen. set (s2 := insert_published idx s').
  pose proof (wf_static _ _ Hwf) as Hst0.
  assert (E : erase s2 = erase s') by (unfold s2, insert_published; apply erase_upd_slot).
  assert (Hst : static_ok s2) by (eapply static_ok_erase; [done|apply P]).
  assert (Hslot : ∀ i, fm_slot s2 i = if decide (idx = i) then sl_with_state FM_SLOT_ACTIVE <$> fm_slot s' i else fm_slot s' i).
  { intros i. apply fm_slot_upd. }
  assert (Hself : row_at s2 idx = Some rec).
  { destruct (pl_data _ _ _ _ _ P) as (sl & Hsl & Hd). unfold row_at. rewrite Hslot, decide_True, Hsl by done.
    simpl. unfold row_of. simpl. by rewrite Hd. }
  assert (Hrow : ∀ i, i ≠ idx → row_at s2 i = row_at s i).
  { intros i Hi. unfold row_at. rewrite Hslot, decide_False by done. apply P. }
  assert (Ht : table s2 = <[idx:=rec]> (table s)) by (apply table_insert; done).
  assert (Hcfg : same_config s s2) by (etrans; [apply P|by apply same_config_erase]).
  assert (Hnone : table s !! idx = None) by (rewrite table_lookup by done; apply P).
  split; [|done]. constructor; rewrite ?Ht.
  - done.
  - eapply heap_ok_erase; [done|apply P].
  - split_and!; [done|..].
    + intros k b v. unfold s2, insert_published. fm_frame. apply P.
    + intros i sl. rewrite Hslot. case_decide; [|apply P].
      destruct (fm_slot s' i) as [sl'|] eqn:Hsl'; [|done]. intros [= <-]. apply (pl_wlock _ _ _ _ _ P i sl' Hsl').
  - intros i sl. rewrite Hslot. case_decide; [subst|intros ?; apply (slot_ok_reclength s'); [done|by eapply P]].
    destruct (pl_data _ _ _ _ _ P) as (sl' & Hsl' & Hd). rewrite Hsl'. intros [= <-].
    destruct (pl_slots _ _ _ _ _ P _ _ Hsl'). constructor; simpl; try done. intros _.
    rewrite Hd, Hlen. symmetry. apply Hcfg.
  - rewrite (sc_keys _ _ Hcfg). intros k Hk.
    eapply (key_rep_ext s' s2 k);
      [intros; unfold s2, insert_published; by fm_frame..| |by apply Hkeys].
    intros b i. unfold indexed. setoid_rewrite (same_config_bucket _ _ _ _ Hcfg).
    destruct (decide (i = idx)) as [->|Hi]; [|rewrite Hrow by done; naive_solver].
    rewrite Hself, (pl_dead _ _ _ _ _ P). naive_solver.
  - eapply free_rep_ext; [..|apply (pl_free _ _ _ _ _ P)]; try done.
    + intros i. unfold free_next_at. rewrite Hslot. case_decide; [|done]. by destruct (fm_slot s' i).
    + intros i _. destruct (decide (i = idx)) as [->|Hi]; [rewrite Hself; set_solver|].
      rewrite Hrow, (pl_row _ _ _ _ _ P) by done. set_solver.
  - rewrite table_size_bound_insert, <-(wf_records _ _ Hwf) by done. unfold s2, insert_published. fm_frame.
    by rewrite (pl_records _ _ _ _ _ P).
  - eapply unique_ok_ext; [apply Hcfg|apply Hcfg|]. apply unique_ok_insert; [done|apply unique_ok_delete, Hwf|].
    intros k o nb j b Hk Hc Hj Hb Hn Hsame. apply (Hno k Hk). apply conflict_table; [done|]. by exists o, nb, j, b.
Qed.

(** * The whole operation *)

(** What an insert promises, outcome by outcome. *)
Definition insert_outcome (s : FM_SHARE_CORE) (rec : bytes) (out_idx errkey : Z)
    (r : insert_result) (s' : FM_SHARE_CORE) : Prop :=
  match ins_rc r with
  | FM_ERR_OK =>
      0 ≤ ins_idx r < total_slots s' ∧ table s !! ins_idx r = None ∧
      table s' = <[ins_idx r := rec]> (table s) ∧ ins_errkey r = errkey ∧
      ∀ k, 0 ≤ k < keys s → ¬ conflict s k rec
  | FM_ERR_DUP_KEY =>
      table s' = table s ∧ ins_idx r = out_idx ∧ ins_errkey r = 0 ∧
      ∃ k, 0 ≤ k < keys s ∧ conflict s k rec
  | FM_ERR_FULL =>
      table s' = table s ∧ ins_idx r = out_idx ∧ ins_errkey r = errkey ∧ max_records s ≤ records s
  | FM_ERR_NOMEM =>
      table s' = table s ∧ ins_idx r = out_idx ∧ ins_errkey r = errkey ∧
      ∃ n size, (calls (heap s) ≤ n)%nat ∧ ops_alloc s n size = false
  | _ => False
  end.

Record insert_post (held : gset Z) (s : FM_SHARE_CORE) (rec : bytes) (out_idx errkey : Z)
    (r : insert_result) (s' : FM_SHARE_CORE) : Prop := {
  ip_wf : wf held s';
  ip_config : same_config s s';
  ip_total : total_slots s ≤ total_slots s';
  ip_gen i : 0 ≤ i < total_slots s → gen_at s' i = gen_at s i;
  ip_outcome : insert_outcome s rec out_idx errkey r s'
}.

(** Releasing the structure mutex of a share that only grew. *)
Lemma extends_wf held s s1 : wf held s → held_in held s → extends (with_struct_mutex 1 s) s1 → free_rep s1 ∅ →
  wf held (with_struct_mutex 0 s1) ∧ table (with_struct_mutex 0 s1) = table s.
Proof.
  intros Hwf Hin Hext Hfree.
  assert (Hst0 : static_ok (with_struct_mutex 1 s)) by (destruct (wf_static _ _ Hwf); by constructor).
  assert (Hrow : ∀ i, row_at s1 i = row_at s i) by (intros; by rewrite (extends_row _ _ _ Hst0 Hext)).
  assert (Hst : static_ok (with_struct_mutex 0 s1)) by (destruct (ex_static _ _ Hext); by constructor).
  assert (Ht : table (with_struct_mutex 0 s1) = table s) by (apply table_ext; [apply Hwf|done|done]).
  split; [|done]. constructor; rewrite ?Ht; fm_frame; rewrite ?(ex_keys _ _ Hext); fm_frame.
  - done.
  - apply Hext.
  - split_and!; [done|..].
    + intros k b v. fm_frame. rewrite (ex_lock _ _ Hext). apply (wf_locks _ _ Hwf).
    + intros i sl Hsl. exact (extends_wlock held s s1 i sl Hwf Hin Hext Hsl).
  - intros i sl Hsl. apply (slot_ok_reclength s1); [done|]. eapply extends_slots_ok; [exact Hext| |exact Hsl].
    intros j slj Hj. apply (slot_ok_reclength s); [done|]. by eapply Hwf.
  - intros k Hk. apply (extends_key_rep _ _ k Hst0 Hext). by apply Hwf.
  - exact Hfree.
  - rewrite (ex_records _ _ Hext). apply Hwf.
  - eapply unique_ok_ext; [apply Hext|apply Hext|apply Hwf].
Qed.

(** No slot was available. *)
Lemma insert_none held s rec out_idx errkey s1 : wf held s → held_in held s → alloc_post (with_struct_mutex 1 s) FM_NULL_SLOT s1 →
  insert_post held s rec out_idx errkey
    (mkIns (if decide (chunk_cap s1 ≤ chunk_cnt s1) then FM_ERR_FULL else FM_ERR_NOMEM) out_idx errkey)
    (with_struct_mutex 0 s1).
Proof.
  intros Hwf Hin [Hext [(_ & Hfree & Hfull & Hcase)|[[] _]]]; [|by unfold FM_NULL_SLOT in *; lia].
  destruct (extends_wf held s s1 Hwf Hin Hext Hfree) as [Hwf' Ht]. constructor; [done|..].
  - by destruct (same_config_extends _ _ Hext).
  - apply (ex_total _ _ Hext).
  - intros i Hi. by apply (extends_gen _ _ _ Hext).
  - unfold insert_outcome. simpl. destruct Hcase as [[Hcap Hmax]|[Hcap Hal]].
    + rewrite decide_True by done. split_and!; try done.
      rewrite (wf_records _ _ Hwf). apply table_full. intros i Hi. rewrite table_lookup by apply Hwf.
      apply Hfull. change (total_slots (with_struct_mutex 1 s)) with (total_slots s) in *.
      change (max_records (with_struct_mutex 1 s)) with (max_records s) in *. lia.
    + rewrite decide_False by lia. split_and!; done.
Qed.

Lemma insert_undone_post held s idx rec s' out_idx errkey : wf held s → placed held s idx rec s' →
  (∀ k, 0 ≤ k < keys s → key_rep s' k (indexed s k)) → (∃ k, 0 ≤ k < keys s ∧ conflict s k rec) →
  insert_post held s rec out_idx errkey (mkIns FM_ERR_DUP_KEY out_idx (i32 (u32 (0 - 1)) + 1)) (insert_undone idx s').
Proof.
  intros Hwf P Hkeys Hc. destruct (insert_undone_wf held s idx rec s' Hwf P Hkeys) as [Hw Ht]. constructor.
  - done.
  - etrans; [apply P|]. apply same_config_erase.
    exact (fo_erase _ _ (free_slot_free_only s' idx idx (free_head s'))).
  - apply P.
  - intros i Hi. rewrite <-(pl_gen _ _ _ _ _ P i Hi). unfold gen_at, insert_undone. fm_frame.
    rewrite fm_slot_upd. case_decide; [|done]. by destruct (fm_slot s' i).
  - done.
Qed.

Lemma insert_published_post held s idx rec s' out_idx errkey : wf held s → placed held s idx rec s' →
  (∀ k, 0 ≤ k < keys s → key_rep s' k (λ b i, indexed s k b i ∨ b = bucket_of s k rec ∧ i = idx)) →
  (∀ k, 0 ≤ k < keys s → ¬ conflict s k rec) → Z.of_nat (length rec) = reclength s →
  insert_post held s rec out_idx errkey (mkIns FM_ERR_OK idx errkey) (insert_published idx s').
Proof.
  intros Hwf P Hkeys Hno Hlen. destruct (insert_published_wf held s idx rec s' Hwf P Hkeys Hno Hlen) as [Hw Ht].
  constructor.
  - done.
  - etrans; [apply P|]. apply same_config_erase, erase_upd_slot.
  - apply P.
  - intros i Hi. rewrite <-(pl_gen _ _ _ _ _ P i Hi). unfold gen_at, insert_published. fm_frame.
    rewrite fm_slot_upd. case_decide; [|done]. by destruct (fm_slot s' i).
  - unfold insert_outcome. simpl. split; [apply (pl_idx _ _ _ _ _ P)|].
    rewrite table_lookup by apply Hwf. by rewrite (pl_dead _ _ _ _ _ P).
Qed.

Lemma insert_row_spec held s rec out_idx errkey scratch : wf held s → held_in held s → Z.of_nat (length rec) = reclength s →
  wp (fm_core_insert_row rec out_idx errkey scratch) (insert_post held s rec out_idx errkey) s.
Proof.
  intros Hwf Hin Hlen. unfold fm_core_insert_row.
  wp_step (struct_lock_run s); [apply Hwf|].
  wp_use alloc_slot_spec; [destruct (wf_static _ _ Hwf); by constructor|apply Hwf|apply Hwf|].
  intros idx s1 Hpost. case_decide as Hnull.
  { subst. wp_mod. wp_get. apply wp_ret. exact (insert_none held s rec out_idx errkey s1 Hwf Hin Hpost). }
  destruct Hpost as [Hext [(? & _)|(Hidx & Hdead & Hfree)]]; [done|].
  pose proof (alloc_placed held s idx rec s1 Hwf Hin Hlen Hext Hidx Hdead Hfree) as P.
  wp_get. wp_step @unwrap_run; [by apply memcpy_all; rewrite (ex_reclength _ _ Hext)|].
  wp_step store_slot_run; [by apply (so_slot _ (ex_static _ _ Hext))|].
  pose proof (alloc_linking held s idx rec s1 Hwf Hext P) as Hlk. change (keys s1) with (keys (upd_slot (sl_with_data rec) idx s1)).
  set (s2 := upd_slot (sl_with_data rec) idx s1) in *.
  assert (Hk : keys s2 = keys s) by apply (sc_keys _ _ (pl_config _ _ _ _ _ P)).
  assert (Hind : ∀ k b i, indexed s2 k b i ↔ indexed s k b i).
  { intros k b i. apply indexed_ext; [apply P|]. intros. apply same_config_bucket, P. }
  assert (Hb : ∀ k, bucket_of s2 k rec = bucket_of s k rec) by (intros; apply same_config_bucket, P).
  assert (Hcf : ∀ k, conflict s2 k rec ↔ conflict s k rec).
  { intros k. apply conflict_ext; [apply P|apply (pl_config _ _ _ _ _ P)]. }
  pose proof (so_keys _ (pl_static _ _ _ _ _ P)) as Hrange.
  wp_use (insert_keys_spec s2 idx rec); [apply P|apply P|apply P|apply (pl_idx _ _ _ _ _ P)| |exact Hlk|lia|].
  { by rewrite (pl_row _ _ _ _ _ P). }
  intros [] s3 [[C Hrep] Hdup]; pose proof (placed_chains _ _ _ _ _ _ P C) as P3.
  - wp_step free_slot_run; [apply (so_slot _ (pl_static _ _ _ _ _ P3)), (pl_idx _ _ _ _ _ P3)|]. wp_mod. apply wp_ret.
    apply (insert_undone_post held s idx rec s3); [done|done| |].
    + intros k Hk'. apply (key_rep_ext s3 s3 k (linked_upto s2 idx rec 0 k)); [done..| |apply Hrep; lia].
      intros b i. unfold linked_upto. rewrite Hind. split; [by left|]. intros [?|(? & _)]; [done|lia].
    + destruct Hdup as (k & Hkr & Hconf). exists k. rewrite <-Hcf, <-Hk. done.
  - wp_step store_slot_run; [apply (so_slot _ (pl_static _ _ _ _ _ P3)), (pl_idx _ _ _ _ _ P3)|]. wp_mod. wp_mod.
    apply wp_ret. apply (insert_published_post held s idx rec s3); [done|done| | |done].
    + intros k Hk'. apply (key_rep_ext s3 s3 k (linked_upto s2 idx rec (keys s2) k)); [done..| |apply Hrep; lia].
      intros b i. unfold linked_upto. rewrite Hind, Hb. assert (k < keys s2) by lia. naive_solver.
    + intros k Hk'. rewrite <-Hcf. apply Hdup. lia.
Qed.

(** * Properties *)

(** C2: Insert.  On a well-formed share, whatever slot locks are held, [fm_core_insert_row] returns
    and leaves a well-formed share in which generations of existing slots did not move.  Success
    stores the record in a slot that held no row; a duplicate is reported exactly for a record
    that conflicts with a row under a unique key; a full table only at the row limit; out of
    memory only after a failed allocation; and a failed insert leaves the table unchanged. *)
Theorem insert_correct held s rec out_idx errkey scratch :
  wf held s → held_in held s → Z.of_nat (length rec) = reclength s →
  wp (fm_core_insert_row rec out_idx errkey scratch) (λ r s',
    wf held s' ∧ (∀ i, 0 ≤ i < total_slots s → gen_at s' i = gen_at s i) ∧
    (ins_rc r = FM_ERR_OK ∧ table s !! ins_idx r = None ∧ table s' = <[ins_idx r := rec]> (table s) ∧
        (∀ k, 0 ≤ k < keys s → ¬ conflict s k rec) ∨
     ins_rc r = FM_ERR_DUP_KEY ∧ table s' = table s ∧ ins_idx r = out_idx ∧ (∃ k, 0 ≤ k < keys s ∧ conflict s k rec) ∨
     ins_rc r = FM_ERR_FULL ∧ table s' = table s ∧ ins_idx r = out_idx ∧ max_records s ≤ Z.of_nat (size (table s)) ∨
     ins_rc r = FM_ERR_NOMEM ∧ table s' = table s ∧ ins_idx r = out_idx ∧
        (∃ n size, (calls (heap s) ≤ n)%nat ∧ ops_alloc s n size = false))) s.
Proof.
  intros Hwf Hin Hlen. eapply wp_mono; [by apply insert_row_spec|]. intros r s' [Hwf' _ _ Hg Hout].
  split_and!; [done..|]. unfold insert_outcome in Hout. destruct (ins_rc r); try done.
  - left. by destruct Hout as (_ & ? & ? & _ & ?).
  - right; left. by destruct Hout as (? & ? & _ & ?).
  - do 2 right; left. destruct Hout as (? & ? & _ & ?). by rewrite <-(wf_records _ _ Hwf).
  - do 3 right. by destruct Hout as (? & ? & _ & ?).
Qed.
