(* ===== verification/Delete.v ===== *)
(** [fm_core_delete_row] and its locked variant (src/fm_core.h): taking a row off every chain
    and returning its slot. *)

From S2P Require Import Prelude CoreState CoreOps RowOps Shape Inv Chains Reads Alloc Freelist Steps Insert.

(** * The loop over the keys *)

Section unlinking.
Context (held : gset Z) (s : FM_SHARE_CORE) (Hwf : wf held s).
Context (idx : Z) (rec : bytes) (Hrow : row_at s idx = Some rec).
(** The loop runs from [s0], where the slot is no longer active. *)
Context (s0 : FM_SHARE_CORE) (Herase : erase s0 = erase s).
Context (Hlocks : ∀ k b v, lock_at s0 k b = Some v → v = 0).
#[local] Set Default Proof Using "Type*".

Definition unlinking (m : Z) (t : FM_SHARE_CORE) : Prop :=
  chains_only s0 t ∧ ∀ k, 0 ≤ k < keys s → key_rep t k (λ b i, indexed s k b i ∧ (k < m → i ≠ idx)).

Lemma unlink_keys_spec n : ∀ m t, unlinking m t → 0 ≤ m → m + Z.of_nat n = keys s →
  wp (unlink_keys n m rec idx) (λ _ t', unlinking (keys s) t') t.
Proof.
  induction n as [|n IH]; intros m t [C Hrep] Hm Hn; cbn [unlink_keys].
  { apply wp_ret. replace (keys s) with m by lia. done. }
  assert (Hk : 0 ≤ m < keys s) by lia.
  assert (E : erase t = erase s) by by rewrite (co_erase _ _ C).
  pose proof (static_ok_erase _ _ E (wf_static _ _ Hwf)) as Hst.
  assert (Hkt : 0 ≤ m < keys t) by by rewrite (erase_keys _ _ E).
  destruct (key_at_is_Some t m Hst Hkt) as (kc & nb & Hkc & _).
  destruct (bucket_of_range t m rec Hst Hkt) as [Hh [v Hv]].
  wp_step (deref_key_run _ _ _ Hkc). wp_step (key_bucket_run t m kc rec Hst Hkt Hkc).
  assert (Hb : bucket_of t m rec = bucket_of s m rec) by by apply bucket_of_erase.
  rewrite Hb in *. set (b := bucket_of s m rec) in *.
  assert (v = 0) as ->. { apply (Hlocks m b). by rewrite <-(co_lock _ _ C). }
  wp_step (bucket_lock_run _ _ _ Hv).
  wp_use (fm_core_chain_unlink_spec m b idx (λ b i, indexed s m b i ∧ (m < m → i ≠ idx))).
  { eapply static_ok_erase; [apply erase_upd_lock|done]. }
  { eapply key_rep_frame; [..|by apply Hrep]; intros; by fm_frame. }
  { intros b' i [Hi _]. change (total_slots (upd_lock 1 m b t)) with (total_slots t).
    rewrite (total_slots_erase _ _ E). eapply indexed_range; [apply Hwf|done]. }
  { intros b1 b2 i [H1 _] [H2 _]. by eapply indexed_fun. }
  { split; [by exists rec|lia]. }
  { by fm_frame. }
  intros rc t' (_ & L & Hrep'). wp_step bucket_unlock_run.
  { rewrite (co_lock _ _ (lo_chains _ _ _ L)), lock_at_upd_eq, Hv. by eexists. }
  pose proof (links_only_bracket _ _ _ _ Hv L) as L'. apply IH; [|lia|lia].
  split; [etrans; [exact C|apply L']|]. intros k Hk'. destruct (decide (k = m)) as [->|Hne].
  - eapply key_rep_ext; [..|exact Hrep']; try (intros; by fm_frame).
    intros b' i. assert (m < m + 1) by lia. assert (¬ m < m) by lia. naive_solver.
  - eapply key_rep_proper; [|eapply links_only_key_rep; [exact L'|done|by apply Hrep]].
    intros b' i. assert (k < m + 1 ↔ k < m) by lia. naive_solver.
Qed.
End unlinking.

(** * Returning the slot *)

Definition delete_slot (sl : FM_SLOT) : FM_SLOT :=
  sl_with_gen (u32 (gen sl + 1)) (sl_with_state FM_SLOT_DELETED sl).

(** The share at the end of a delete, from the share [t] at the end of the loop. *)
Definition delete_done (idx : Z) (t : FM_SHARE_CORE) : FM_SHARE_CORE :=
  let u := with_records (records t - 1) (upd_slot delete_slot idx t) in
  with_struct_mutex 0 (with_free_head idx (upd_slot (sl_with_free_next (free_head t)) idx u)).

(** What deleting row [idx] promises. *)
Record delete_post (held : gset Z) (s : FM_SHARE_CORE) (idx : Z) (s' : FM_SHARE_CORE) : Prop := {
  dp_wf : wf held s';
  dp_config : same_config s s';
  dp_total : total_slots s' = total_slots s;
  dp_table : table s' = delete idx (table s);
  dp_gen i : gen_at s' i = if decide (i = idx) then (λ g, u32 (g + 1)) <$> gen_at s i else gen_at s i
}.

(** The freed slot is the only change to the freelist. *)
Lemma delete_done_free held s idx rec t : wf held s → row_at s idx = Some rec →
  chains_only (upd_slot (sl_with_state FM_SLOT_DELETING) idx s) t → free_rep (delete_done idx t) ∅.
Proof.
  intros Hwf Hrow C. set (u := with_records (records t - 1) (upd_slot delete_slot idx t)).
  assert (E : erase u = erase s).
  { transitivity (erase t); [apply erase_upd_slot|]. by rewrite (co_erase _ _ C), erase_upd_slot. }
  apply (free_rep_push u).
  - eapply static_ok_erase; [done|apply Hwf].
  - rewrite (total_slots_erase _ _ E). eapply row_at_range; [apply Hwf|done].
  - unfold row_at, u. fm_frame. rewrite fm_slot_upd, decide_True by done. by destruct (fm_slot t idx).
  - eapply free_rep_ext; [..|apply (wf_free _ _ Hwf)].
    + by apply total_slots_erase.
    + by apply erase_max_records.
    + exact (co_free _ _ C).
    + intros i. unfold free_next_at, u. fm_frame. rewrite fm_slot_upd, (co_slot _ _ C), fm_slot_upd.
      case_decide; [|done]. by destruct (fm_slot s i).
    + intros i _. unfold row_at at 1, u. fm_frame. rewrite fm_slot_upd, (co_slot _ _ C), fm_slot_upd.
      case_decide as Hd; [subst; rewrite Hrow; set_solver|]. unfold row_at. set_solver.
Qed.

Lemma delete_done_post held s idx rec t : wf held s → row_at s idx = Some rec →
  chains_only (upd_slot (sl_with_state FM_SLOT_DELETING) idx s) t →
  (∀ k, 0 ≤ k < keys s → key_rep t k (λ b i, indexed s k b i ∧ i ≠ idx)) →
  delete_post held s idx (delete_done idx t).
Proof.
  intros Hwf Hrow C Hkeys. set (s' := delete_done idx t).
  assert (E : erase s' = erase s).
  { transitivity (erase t); [etrans; apply erase_upd_slot|]. by rewrite (co_erase _ _ C), erase_upd_slot. }
  pose proof (static_ok_erase _ _ E (wf_static _ _ Hwf)) as Hst.
  assert (Hidx : 0 ≤ idx < total_slots s) by (eapply row_at_range; [apply Hwf|done]).
  assert (Hslot : ∀ i, fm_slot s' i = if decide (idx = i) then sl_with_free_next (free_head s) ∘ delete_slot <$> fm_slot s i else fm_slot s i).
  { intros i. unfold s', delete_done. fm_frame. rewrite fm_slot_upd. fm_frame. rewrite fm_slot_upd, (co_slot _ _ C), fm_slot_upd, (co_free _ _ C). case_decide; [|done].
    by destruct (fm_slot s i). }
  assert (Hdead : row_at s' idx = None).
  { unfold row_at. rewrite Hslot, decide_True by done. by destruct (fm_slot s idx). }
  assert (Hother : ∀ i, i ≠ idx → row_at s' i = row_at s i).
  { intros i Hi. unfold row_at. by rewrite Hslot, decide_False by done. }
  assert (Ht : table s' = delete idx (table s)) by (apply table_delete; [apply Hwf|done..]).
  pose proof (same_config_erase _ _ E) as Hcfg.
  constructor; [|done|by apply total_slots_erase|done|].
  2: { intros i. unfold gen_at. rewrite Hslot. repeat case_decide; try congruence. by destruct (fm_slot s i). }
  constructor; rewrite ?Ht.
  - done.
  - eapply heap_ok_erase; [done|apply Hwf].
  - destruct (wf_locks _ _ Hwf) as (Hm & Hl & Hw). split_and!; [done|..].
    + intros k b v. unfold s', delete_done. fm_frame. rewrite (co_lock _ _ C). fm_frame. apply Hl.
    + intros i sl. rewrite Hslot. case_decide; [|by apply Hw]. destruct (fm_slot s i) as [sl'|] eqn:Hsl'; [|done].
      intros [= <-]. by apply (Hw i sl').
  - intros i sl. rewrite Hslot. case_decide.
    2: { intros Hsl. apply (slot_ok_reclength s); [apply Hcfg|by eapply Hwf]. }
    destruct (fm_slot s i) as [sl'|] eqn:Hsl'; [|done]. intros [= <-]. destruct (wf_slots _ _ Hwf _ _ Hsl').
    by constructor; simpl.
  - rewrite (sc_keys _ _ Hcfg). intros k Hk.
    eapply (key_rep_ext t s' k); [intros; unfold s', delete_done; by fm_frame..| |by apply Hkeys].
    intros b i. unfold indexed. setoid_rewrite (same_config_bucket _ _ _ _ Hcfg).
    destruct (decide (i = idx)) as [->|Hi]; [rewrite Hdead; naive_solver|]. rewrite Hother by done. naive_solver.
  - by eapply delete_done_free.
  - rewrite map_size_delete_Some by (rewrite table_lookup; [by eexists|apply Hwf]).
    unfold s', delete_done. fm_frame. rewrite (co_records _ _ C). fm_frame. rewrite (wf_records _ _ Hwf).
    assert (size (table s) ≠ 0%nat); [|lia]. rewrite map_size_non_empty_iff. intros Hemp.
    apply (f_equal (.!! idx)) in Hemp. rewrite table_lookup, Hrow in Hemp by apply Hwf. done.
  - eapply unique_ok_ext; [apply Hcfg|apply Hcfg|]. apply unique_ok_delete, Hwf.
Qed.

(** From the copy of the frozen image to the end, the slot being DELETING. *)
Lemma delete_tail_spec held s idx rec : wf held s → row_at s idx = Some rec →
  wp (delete_tail idx) (λ _, delete_post held s idx) (upd_slot (sl_with_state FM_SLOT_DELETING) idx s).
Proof.
  intros Hwf Hrow. set (s0 := upd_slot _ _ _).
  destruct (proj1 (row_at_Some _ _ _) Hrow) as (sl & Hsl & Hst & Hd).
  assert (Hsl0 : fm_slot s0 idx = Some (sl_with_state FM_SLOT_DELETING sl)).
  { unfold s0. by rewrite fm_slot_upd_eq, Hsl. }
  unfold delete_tail. wp_step (deref_slot_run _ _ _ Hsl0). wp_get.
  wp_step @unwrap_run; [by apply memcpy_all, (sk_data _ _ (wf_slots _ _ Hwf _ _ Hsl))|]. simpl. rewrite Hd.
  destruct (wf_locks _ _ Hwf) as (Hm & Hl & _). destruct (so_keys _ (wf_static _ _ Hwf)).
  wp_use (unlink_keys_spec held s Hwf idx rec Hrow s0 (erase_upd_slot _ _ _)).
  { intros k b v. unfold s0. fm_frame. apply Hl. }
  { split; [done|]. intros k Hk. eapply key_rep_ext; [..|by apply (wf_keys _ _ Hwf)];
      try (intros; unfold s0; by fm_frame). intros b i. split; [tauto|]. intros ?. split; [done|lia]. }
  { done. }
  { unfold s0. fm_frame. lia. }
  intros _ t [C Hkeys].
  assert (Hsome : is_Some (fm_slot t idx)) by (rewrite (co_slot _ _ C), Hsl0; by eexists).
  wp_step store_slot_run; [exact Hsome|].
  wp_step store_slot_run; [by rewrite fm_slot_upd_eq, fmap_is_Some|]. rewrite upd_slot_compose.
  wp_mod. wp_step struct_lock_run; [fm_frame; by rewrite (co_mutex _ _ C)|].
  wp_step free_slot_run; [fm_frame; by rewrite fm_slot_upd_eq, fmap_is_Some|].
  eapply wp_run; [apply modify_run|]. apply (delete_done_post held s idx rec t Hwf Hrow C).
  intros k Hk. eapply key_rep_proper; [|by apply Hkeys]. intros b i. assert (k < keys s) by lia. naive_solver.
Qed.

(** The result of a delete, from the current content of the slot. *)
Definition delete_outcome (held : gset Z) (s : FM_SHARE_CORE) (idx expect_gen : Z) (rc : fm_err)
    (s' : FM_SHARE_CORE) : Prop :=
  (rc = FM_ERR_OK ∧ is_Some (table s !! idx) ∧ gen_at s idx = Some expect_gen ∧ delete_post held s idx s') ∨
  (rc = FM_ERR_DELETED ∧ (table s !! idx = None ∨ gen_at s idx ≠ Some expect_gen) ∧ s' = s).

Lemma slot_current_row s idx sl eg : static_ok s → fm_slot s idx = Some sl →
  if slot_current sl eg then table s !! idx = Some (data sl) ∧ gen_at s idx = Some eg
  else table s !! idx = None ∨ gen_at s idx ≠ Some eg.
Proof.
  intros Hs Hsl. unfold slot_current, gen_at. rewrite table_lookup, (row_at_slot _ _ _ Hsl), Hsl by done.
  unfold row_of. simpl. repeat case_bool_decide; repeat case_decide; naive_solver.
Qed.

Lemma delete_row_locked_spec held s idx eg : wf held s → 0 ≤ idx < total_slots s →
  wp (fm_core_delete_row_locked idx eg) (delete_outcome held s idx eg) s.
Proof.
  intros Hwf Hidx. destruct (proj2 (so_slot _ (wf_static _ _ Hwf) idx) Hidx) as [sl Hsl].
  pose proof (slot_current_row s idx sl eg (wf_static _ _ Hwf) Hsl) as Hcur.
  unfold fm_core_delete_row_locked. wp_step (deref_slot_run _ _ _ Hsl).
  destruct (slot_current sl eg); cbn [negb]; [|apply wp_ret; by right]. destruct Hcur as [Ht Hg].
  wp_step store_slot_run; [by eexists|]. pose proof Ht as Hr. rewrite table_lookup in Hr by apply Hwf.
  wp_use (delete_tail_spec held s idx (data sl) Hwf Hr). intros _ s' Hp. apply wp_ret. left. split_and!; eauto.
Qed.

Lemma delete_row_spec held s idx eg : wf held s → 0 ≤ idx < total_slots s → idx ∉ held →
  wp (fm_core_delete_row idx eg) (delete_outcome held s idx eg) s.
Proof.
  intros Hwf Hidx Hheld. destruct (proj2 (so_slot _ (wf_static _ _ Hwf) idx) Hidx) as [sl Hsl].
  pose proof (slot_current_row s idx sl eg (wf_static _ _ Hwf) Hsl) as Hcur.
  assert (Hw : wlock sl = 0).
  { destruct (wf_locks _ _ Hwf) as (_ & _ & Hw). by rewrite (Hw _ _ Hsl), decide_False. }
  unfold fm_core_delete_row. wp_step (wlock_lock_run _ _ _ Hsl Hw).
  wp_step deref_slot_run; [by rewrite fm_slot_upd_eq, Hsl|].
  change (slot_current (sl_with_wlock 1 sl) eg) with (slot_current sl eg).
  destruct (slot_current sl eg); cbn [negb].
  - destruct Hcur as [Ht Hg]. wp_step store_slot_run; [by rewrite fm_slot_upd_eq, Hsl; eexists|].
    wp_step wlock_unlock_run; [by rewrite !fm_slot_upd_eq, Hsl; eexists|]. rewrite !upd_slot_compose.
    rewrite (upd_slot_ext _ (sl_with_state FM_SLOT_DELETING)).
    2: { intros sl' Hsl'. assert (sl' = sl) as -> by congruence. destruct sl. simpl in *. by subst. }
    pose proof Ht as Hr. rewrite table_lookup in Hr by apply Hwf.
    wp_use (delete_tail_spec held s idx (data sl) Hwf Hr). intros _ s' Hp. apply wp_ret. left. split_and!; eauto.
  - wp_step wlock_unlock_run; [by rewrite fm_slot_upd_eq, Hsl; eexists|]. rewrite (wlock_restore _ _ _ Hsl Hw).
    apply wp_ret. by right.
Qed.

Lemma delete_outcome_cases held s idx eg rc s' : wf held s → delete_outcome held s idx eg rc s' →
  wf held s' ∧
  (rc = FM_ERR_OK ∧ is_Some (table s !! idx) ∧ gen_at s idx = Some eg ∧ table s' = delete idx (table s) ∧
     (∀ i, gen_at s' i = if decide (i = idx) then Some (u32 (eg + 1)) else gen_at s i) ∨
   rc = FM_ERR_DELETED ∧ (table s !! idx = None ∨ gen_at s idx ≠ Some eg) ∧ s' = s).
Proof.
  intros Hwf [(-> & ? & Hg & [? _ _ ? Hgen])|(-> & ? & ->)]; (split; [done|]); [left|by right].
  split_and!; [done..|]. intros i. rewrite Hgen. case_decide; [subst; by rewrite Hg|done].
Qed.

(** * Properties *)

(** C4: Delete.  [fm_core_delete_row] at a current position removes the row - from the table, and
    by the invariant from the chains of all keys - advances the generation of the slot alone,
    and returns the slot to the freelist; at a stale position it reports FM_ERR_DELETED and
    changes nothing.  No lock is left behind. *)
Theorem delete_correct held s idx eg : wf held s → 0 ≤ idx < total_slots s → idx ∉ held →
  wp (fm_core_delete_row idx eg) (λ rc s', wf held s' ∧
    (rc = FM_ERR_OK ∧ is_Some (table s !! idx) ∧ gen_at s idx = Some eg ∧ table s' = delete idx (table s) ∧
       (∀ i, gen_at s' i = if decide (i = idx) then Some (u32 (eg + 1)) else gen_at s i) ∨
     rc = FM_ERR_DELETED ∧ (table s !! idx = None ∨ gen_at s idx ≠ Some eg) ∧ s' = s)) s.
Proof.
  intros Hwf Hi Hh. eapply wp_mono; [by apply delete_row_spec|]. intros rc s' Hout. by apply (delete_outcome_cases held s).
Qed.

(** The delete under a lock the caller already holds.  [fm_core_delete_row_locked] behaves
    the same whatever slot locks are held, that of [idx] included, and releases none of them. *)
Theorem delete_locked_correct held s idx eg : wf held s → 0 ≤ idx < total_slots s →
  wp (fm_core_delete_row_locked idx eg) (λ rc s', wf held s' ∧
    (rc = FM_ERR_OK ∧ is_Some (table s !! idx) ∧ gen_at s idx = Some eg ∧ table s' = delete idx (table s) ∧
       (∀ i, gen_at s' i = if decide (i = idx) then Some (u32 (eg + 1)) else gen_at s i) ∨
     rc = FM_ERR_DELETED ∧ (table s !! idx = None ∨ gen_at s idx ≠ Some eg) ∧ s' = s)) s.
Proof.
  intros Hwf Hi. eapply wp_mono; [by apply delete_row_locked_spec|]. intros rc s' Hout. by apply (delete_outcome_cases held s).
Qed.
