(* ===== verification/Lockset.v ===== *)
(** The lock set of a key-changing update (src/fm_core.h): collecting the buckets, the
    insertion sort, and locking them in ascending order, each of them once. *)

From Stdlib Require Import Sorted.
From S2P Require Import Prelude CoreState CoreOps RowOps Shape Inv Chains Reads Alloc Freelist Steps.

(** * The insertion sort *)

Definition code_le (p q : FMB) : Prop := fmb_code p ≤ fmb_code q.

(** The inner loop splits the sorted prefix at the place of [v]. *)
Lemma sort_shift_spec vi pre : ∀ x post, ∃ pre1 pre2 y,
  sort_shift (length pre) vi (pre ++ x :: post) = (length pre1, pre1 ++ y :: pre2 ++ post) ∧
  pre = pre1 ++ pre2 ∧ Forall (λ p, vi < fmb_code p) pre2 ∧
  (∀ p, last pre1 = Some p → fmb_code p ≤ vi).
Proof.
  induction pre as [|p pre IH] using rev_ind; intros x post.
  { exists [], [], x. split_and!; done. }
  rewrite length_app, Nat.add_comm. simpl. rewrite <-app_assoc. simpl.
  rewrite (list_lookup_middle pre _ p) by done. case_decide as Hle.
  - exists (pre ++ [p]), [], x. rewrite <-app_assoc, app_nil_r, length_app, Nat.add_comm. simpl.
    split_and!; [done..|]. intros q. rewrite last_snoc. by intros [= <-].
  - rewrite insert_app_r_alt by lia. replace (S (length pre) - length pre)%nat with 1%nat by lia. simpl.
    destruct (IH p (p :: post)) as (pre1 & pre2 & y & -> & -> & Hall & Hlast).
    exists pre1, (pre2 ++ [p]), y. rewrite <-!app_assoc. split_and!; [done..| |done].
    apply Forall_app. split; [done|]. constructor; [lia|done].
Qed.

Lemma StronglySorted_app_inv_l {A} (R : A → A → Prop) l1 l2 : StronglySorted R (l1 ++ l2) → StronglySorted R l1.
Proof.
  induction l1 as [|x l1 IH]; [constructor|]. simpl. intros [Hs Hf]%StronglySorted_inv.
  constructor; [by apply IH|]. by apply Forall_app in Hf as [? _].
Qed.

Lemma StronglySorted_app_between {A} (R : A → A → Prop) l1 l2 x y :
  StronglySorted R (l1 ++ l2) → x ∈ l1 → y ∈ l2 → R x y.
Proof.
  induction l1 as [|z l1 IH]; [set_solver|]. simpl. intros [Hs Hf]%StronglySorted_inv Hx Hy.
  apply elem_of_cons in Hx as [->|Hx]; [|by apply IH]. rewrite Forall_forall in Hf. apply Hf. set_solver.
Qed.

Lemma StronglySorted_app {A} (R : A → A → Prop) l1 l2 : StronglySorted R l1 → StronglySorted R l2 →
  (∀ x y, x ∈ l1 → y ∈ l2 → R x y) → StronglySorted R (l1 ++ l2).
Proof.
  induction l1 as [|z l1 IH]; [done|]. simpl. intros [Hs Hf]%StronglySorted_inv H2 H12.
  constructor; [apply IH; [done|done|set_solver]|]. rewrite Forall_forall in *.
  intros y [Hy|Hy]%elem_of_app; [by apply Hf|]. apply H12; set_solver.
Qed.

Lemma sort_loop_spec n : ∀ pre post, length post = n → StronglySorted code_le pre →
  StronglySorted code_le (sort_loop n (length pre) (pre ++ post)) ∧
  sort_loop n (length pre) (pre ++ post) ≡ₚ pre ++ post.
Proof.
  induction n as [|n IH]; intros pre post Hn Hs.
  { destruct post; [|done]. simpl. by rewrite app_nil_r. }
  destruct post as [|v post]; [done|]. simpl in Hn. cbn [sort_loop].
  rewrite (list_lookup_middle pre _ v) by done.
  destruct (sort_shift_spec (fmb_code v) pre v post) as (pre1 & pre2 & y & -> & -> & Hall & Hlast).
  rewrite insert_app_r_alt, Nat.sub_diag by done. simpl.
  replace (S (length (pre1 ++ pre2))) with (length (pre1 ++ v :: pre2)) by (rewrite !length_app; simpl; lia).
  rewrite (app_comm_cons pre2 post v), app_assoc.
  destruct (IH (pre1 ++ v :: pre2) post) as [Hsorted Hperm]; [lia| |].
  - assert (Hlow : ∀ x, x ∈ pre1 → code_le x v).
    { intros x Hx. destruct (last pre1) as [p|] eqn:Hp; [|apply last_None in Hp; subst; set_solver].
      pose proof (Hlast p eq_refl) as Hle. apply last_Some in Hp as [pre' ->]. unfold code_le.
      apply elem_of_app in Hx as [Hx| ->%list_elem_of_singleton]; [|done].
      pose proof (StronglySorted_app_between _ _ _ x p (StronglySorted_app_inv_l _ _ _ Hs) Hx ltac:(set_solver)).
      unfold code_le in *. lia. }
    assert (Hs2 : StronglySorted code_le pre2).
    { clear -Hs. induction pre1 as [|z pre1 IH]; [done|]. apply IH. by inversion Hs. }
    apply StronglySorted_app; [by eapply StronglySorted_app_inv_l| |].
    + constructor; [done|]. eapply Forall_impl; [exact Hall|]. intros q Hq. unfold code_le. cbv beta in Hq. lia.
    + intros x z Hx [->|Hz]%elem_of_cons; [by apply Hlow|]. by eapply StronglySorted_app_between.
  - split; [done|]. rewrite Hperm. solve_Permutation.
Qed.

(** The sort sorts. *)
Lemma sort_lockset_spec ls : StronglySorted code_le (sort_lockset ls) ∧ sort_lockset ls ≡ₚ ls.
Proof.
  unfold sort_lockset. destruct ls as [|p ls]; [by split; constructor|]. simpl.
  apply (sort_loop_spec _ [p] ls); [done|]. by repeat constructor.
Qed.

(** * Codes of key and bucket *)

Definition fmb_ok (p : FMB) : Prop := 0 ≤ fmb_key p < 2 ^ 16 ∧ 0 ≤ fmb_b p < 2 ^ 32.

Lemma fmb_code_eq p : fmb_ok p → fmb_code p = fmb_key p * 2 ^ 32 + fmb_b p.
Proof.
  intros [Hk Hb]. unfold fmb_code. rewrite <-Z.add_lor_land, Z.shiftl_mul_pow2 by lia.
  assert (Z.land (fmb_key p * 2 ^ 32) (fmb_b p) = 0) as ->; [|lia].
  apply Z.bits_inj'. intros n Hn. rewrite Z.land_spec, Z.bits_0.
  destruct (decide (n < 32)).
  - by rewrite Z.mul_pow2_bits_low by lia.
  - rewrite (Z.bits_above_log2 (fmb_b p) n), andb_false_r; [done|lia|].
    destruct (decide (fmb_b p = 0)) as [->|]; [simpl; lia|]. assert (Z.log2 (fmb_b p) < 32); [|lia].
    apply Z.log2_lt_pow2; lia.
Qed.

Lemma fmb_code_inj p q : fmb_ok p → fmb_ok q → fmb_code p = fmb_code q → p = q.
Proof.
  intros Hp Hq. rewrite !fmb_code_eq by done. destruct p as [k b], q as [k' b'], Hp, Hq. simpl in *.
  intros ?. assert (k = k') by lia. f_equal; lia.
Qed.

(** * Changed keys and their buckets *)

(** Key [k] tells the two images apart. *)
Definition changed_key (s : FM_SHARE_CORE) (old_rec new_rec : bytes) (k : Z) : Prop :=
  match key_cfg s k with Some (o, _, _) => ¬ same_key o old_rec new_rec | None => False end.

#[export] Instance changed_key_dec s a b k : Decision (changed_key s a b k).
Proof. unfold changed_key. destruct (key_cfg s k) as [[[]]|]; apply _. Defined.

Section lockset.
Context (s : FM_SHARE_CORE) (Hs : static_ok s) (old_rec new_rec : bytes).
#[local] Set Default Proof Using "Type*".

Lemma collect_changed_run n : ∀ k acc, 0 ≤ k → k + Z.of_nat n = keys s → Z.of_nat (length acc) ≤ k →
  collect_changed n k old_rec new_rec acc s =
    Ret (acc ++ filter (changed_key s old_rec new_rec) (seqZ k (Z.of_nat n)), s).
Proof.
  destruct (so_keys _ Hs) as [_ H64].
  induction n as [|n IH]; intros k acc Hk Hn Hacc.
  { simpl. by rewrite app_nil_r. }
  cbn [collect_changed]. rewrite decide_True by (unfold FM_MAX_CHANGED_KEYS; lia).
  destruct (key_at_is_Some s k Hs) as (kc & nb & Hkc & _ & _ & Hlaws); [lia|].
  rewrite (bind_Ret _ _ _ _ _ (deref_key_run _ _ _ Hkc)).
  destruct (laws_hash_rec (o := ops kc)) as [f Hf], (laws_cmp_rec_rec (o := ops kc)) as [g Hg]. rewrite Hf.
  assert (Hchg : changed_key s old_rec new_rec k ↔ g old_rec new_rec ≠ 0).
  { unfold changed_key, same_key. by rewrite (key_cfg_key_at _ _ _ Hkc), Hg. }
  rewrite (seqZ_cons k) by lia. replace (Z.pred (Z.of_nat (S n))) with (Z.of_nat n) by lia.
  erewrite bind_Ret; [|rewrite (bind_Ret _ _ _ _ _ (unwrap_run _ _ _ Hg)); reflexivity].
  rewrite u16_small by lia. case_bool_decide as Hc.
  - rewrite IH by (rewrite ?length_app; simpl; lia). rewrite filter_cons_True by tauto.
    by rewrite <-app_assoc.
  - rewrite IH by lia. by rewrite filter_cons_False by tauto.
Qed.

(** The buckets of the changed keys. *)
Definition involved (changed : list Z) (p : FMB) : Prop :=
  fmb_key p ∈ changed ∧
  (fmb_b p = bucket_of s (fmb_key p) new_rec ∨ fmb_b p = bucket_of s (fmb_key p) old_rec).

Lemma build_lockset_run changed : ∀ acc, (∀ k, k ∈ changed → 0 ≤ k < keys s) → ∃ ls,
  build_lockset changed old_rec new_rec acc s = Ret (ls, s) ∧
  (∀ p, p ∈ ls ↔ p ∈ acc ∨ involved changed p) ∧ (length ls ≤ length acc + 2 * length changed)%nat.
Proof.
  induction changed as [|k changed IH]; intros acc Hin; cbn [build_lockset].
  { exists acc. split_and!; [done| |simpl; lia]. intros p. unfold involved. set_solver. }
  destruct (key_at_is_Some s k Hs) as (kc & nb & Hkc & _ & _ & Hlaws); [apply Hin; set_solver|].
  rewrite (bind_Ret _ _ _ _ _ (deref_key_run _ _ _ Hkc)).
  rewrite !(bind_Ret _ _ _ _ _ (key_bucket_run s k kc _ Hs ltac:(apply Hin; set_solver) Hkc)).
  set (bn := bucket_of s k new_rec). set (bo := bucket_of s k old_rec). cbv zeta.
  set (acc1 := if bool_decide (mkFMB k bn ∈ acc) then _ else _).
  set (acc2 := if bool_decide (mkFMB k bo ∈ acc) then _ else _).
  destruct (IH acc2) as (ls & Hrun & Hls & Hlen); [intros q Hq; by apply Hin, elem_of_cons; right|]. exists ls. split_and!; [done| |].
  - intros p. rewrite Hls. assert (Hacc2 : p ∈ acc2 ↔ p ∈ acc ∨ p = mkFMB k bn ∨ p = mkFMB k bo).
    { unfold acc2, acc1. repeat case_bool_decide; set_solver. }
    rewrite Hacc2. unfold involved. rewrite elem_of_cons. destruct p as [k' b]. simpl.
    destruct (decide (k' = k)) as [->|Hne]; unfold bn, bo; naive_solver.
  - assert (length acc2 ≤ length acc + 2)%nat; [|simpl; lia].
    unfold acc2, acc1. repeat case_bool_decide; rewrite ?length_app; simpl; lia.
Qed.

Lemma involved_ok changed p : (∀ k, k ∈ changed → 0 ≤ k < keys s) → involved changed p →
  fmb_ok p ∧ is_Some (lock_at s (fmb_key p) (fmb_b p)).
Proof.
  intros Hin [Hk Hb]. specialize (Hin _ Hk). destruct (so_keys _ Hs).
  assert (Hr : ∀ rec, 0 ≤ bucket_of s (fmb_key p) rec < 2 ^ 32).
  { intros rec. destruct (so_key _ Hs _ Hin) as (o & u & n & Hc & Hn & _). unfold bucket_of. rewrite Hc.
    rewrite land_pow2_mask by lia. pose proof (Z.mod_pos_bound (hash_of o rec) (2 ^ n) ltac:(lia)).
    pose proof (Z.pow_le_mono_r 2 n 32). lia. }
  split; [split; [lia|destruct Hb as [->| ->]; apply Hr]|]. destruct Hb as [->| ->]; by apply bucket_of_range.
Qed.
End lockset.

(** * Locking *)

(** [locks_only s s']: at most bucket locks differ. *)
Record locks_only (s s' : FM_SHARE_CORE) : Prop := {
  lk_erase : erase s' = erase s;
  lk_slot i : fm_slot s' i = fm_slot s i;
  lk_next k i : fm_key_next s' k i = fm_key_next s k i;
  lk_head k b : head_at s' k b = head_at s k b;
  lk_free : free_head s' = free_head s;
  lk_records : records s' = records s;
  lk_mutex : struct_mutex s' = struct_mutex s
}.

#[export] Instance locks_only_refl : Reflexive locks_only.
Proof. intros s. by constructor. Qed.
#[export] Instance locks_only_trans : Transitive locks_only.
Proof. intros s1 s2 s3 [] []. constructor; intros; congruence. Qed.

Lemma locks_only_upd v k b s : locks_only s (upd_lock v k b s).
Proof. constructor; intros; fm_frame; try done. Qed.

(** Locking a sorted set takes each of its locks, once. *)
Lemma lock_all_spec ls : ∀ prev s (P : FMB → Prop), StronglySorted code_le ls →
  (∀ p, p ∈ ls → fmb_ok p ∧ is_Some (lock_at s (fmb_key p) (fmb_b p))) →
  match prev with
  | Some q => fmb_ok q ∧ P q ∧ (∀ p, P p → code_le p q) ∧ (∀ p, p ∈ ls → code_le q p)
  | None => ∀ p, ¬ P p
  end →
  (∀ p v, ¬ P p → lock_at s (fmb_key p) (fmb_b p) = Some v → v = 0) →
  wp (lock_all prev ls) (λ _ s', locks_only s s' ∧
    ∀ p, p ∉ ls → lock_at s' (fmb_key p) (fmb_b p) = lock_at s (fmb_key p) (fmb_b p)) s.
Proof.
  induction ls as [|p ls IH]; intros prev s P Hsort Hok Hprev Hfree; cbn [lock_all]; [by apply wp_ret|].
  apply StronglySorted_inv in Hsort as [Hsort Hall]. rewrite Forall_forall in Hall.
  destruct (Hok p (list_elem_of_here _ _)) as [Hp [v Hv]].
  case_decide as Hd.
  - subst. destruct Hprev as (Hq & HP & Hle & Hge). eapply wp_bind, wp_ret, wp_mono.
    { apply (IH _ _ P); [done|by intros q Hq'; apply Hok, elem_of_cons; right| |done].
      split; [done|]. split; [done|]. split; [done|]. intros q Hq'. apply Hge, elem_of_cons. by right. }
    intros ? s' [L Hne]. split; [done|]. intros q [_ Hq']%not_elem_of_cons. by apply Hne.
  - assert (HnP : ¬ P p).
    { intros HPp. destruct prev as [q|]; [|by apply (Hprev p)]. destruct Hprev as (Hq & HP & Hle & Hge).
      apply Hd. f_equal. apply fmb_code_inj; [done|done|].
      specialize (Hle p HPp). specialize (Hge p (list_elem_of_here _ _)). unfold code_le in *. lia. }
    rewrite (Hfree p v HnP Hv) in Hv. wp_step (bucket_lock_run _ _ _ Hv).
    eapply wp_mono; [apply (IH _ _ (λ q, P q ∨ q = p)); [done|..]|].
    + intros q Hq. destruct (Hok q (list_elem_of_further _ _ _ Hq)) as [? Hl]. split; [done|].
      rewrite lock_at_upd. case_decide; [by rewrite fmap_is_Some|done].
    + split; [done|]. split; [by right|]. split; [|done]. intros q [HPq| ->]; [|by unfold code_le].
      destruct prev as [q'|]; [|by apply Hprev in HPq]. destruct Hprev as (Hq' & HP & Hle & Hge).
      specialize (Hle q HPq). specialize (Hge p (list_elem_of_here _ _)). unfold code_le in *. lia.
    + intros q w HnPq. rewrite lock_at_upd_ne; [by apply Hfree; naive_solver|].
      intros [=]. apply HnPq. right. destruct p, q; simpl in *; congruence.
    + intros ? s' [L Hne]. split; [etrans; [apply locks_only_upd|exact L]|].
      intros q [Hqp Hq]%not_elem_of_cons. rewrite Hne, lock_at_upd_ne; [done| |done].
      intros [=]. apply Hqp. destruct p, q; simpl in *; congruence.
Qed.

(** Unlocking in the opposite order releases all of them. *)
Lemma unlock_all_spec ls : ∀ prev s, (∀ p, p ∈ ls → is_Some (lock_at s (fmb_key p) (fmb_b p))) →
  wp (unlock_all prev ls) (λ _ s', locks_only s s' ∧
    (∀ p, p ∈ ls → prev ≠ Some p → lock_at s' (fmb_key p) (fmb_b p) = Some 0) ∧
    (∀ k b, lock_at s' k b = lock_at s k b ∨ lock_at s' k b = Some 0)) s.
Proof.
  induction ls as [|p ls IH]; intros prev s Hok; cbn [unlock_all].
  { apply wp_ret. split_and!; [done|set_solver|by left]. }
  wp_use (IH (Some p)); [intros q Hq; by apply Hok, elem_of_cons; right|]. intros _ t (L & Hin & Hor).
  assert (Hp : is_Some (lock_at t (fmb_key p) (fmb_b p))).
  { destruct (Hor (fmb_key p) (fmb_b p)) as [->| ->]; [apply Hok, list_elem_of_here|by eexists]. }
  case_decide as Hd.
  - apply wp_ret. split_and!; [done| |done]. intros q [->|Hq]%elem_of_cons Hne; [done|].
    apply Hin; [done|]. congruence.
  - eapply wp_run; [by apply bucket_unlock_run|]. destruct Hp as [v Hv]. split_and!.
    + etrans; [exact L|apply locks_only_upd].
    + intros q Hq Hne. rewrite lock_at_upd. case_decide as Hqp.
      { assert (q = p) as -> by (destruct p, q; by simplify_eq/=). by rewrite Hv. }
      apply elem_of_cons in Hq as [->|Hq]; [done|]. apply Hin; [done|]. intros [= ->]. done.
    + intros k b. rewrite lock_at_upd. case_decide as Hqp; [simplify_eq; rewrite Hv; by right|]. apply Hor.
Qed.
