(* ===== verification/Update.v ===== *)
(** [fm_core_update_row] and its locked variant (src/fm_core.h): the image write, the checks
    and the moves between chains under the sorted lock set. *)

From Stdlib Require Import Sorted.
From S2P Require Import Prelude CoreState CoreOps RowOps Shape Inv Chains Reads Alloc Freelist Steps Delete Lockset.

(** * The pieces *)

(** The slot after [fm_core_write_image]. *)
Definition write_slot (rec : bytes) (sl : FM_SLOT) : FM_SLOT :=
  sl_with_seq (u32 (u32 (seq sl + 1) + 1)) (sl_with_data rec sl).

Lemma write_image_run s idx rec : is_Some (fm_slot s idx) → Z.of_nat (length rec) = reclength s →
  fm_core_write_image idx rec s = Ret (tt, upd_slot (write_slot rec) idx s).
Proof.
  intros H Hlen. unfold fm_core_write_image. erewrite bind_Ret; [|by apply store_slot_run].
  rewrite (bind_Ret _ _ _ _ _ (get_run _)). cbv beta. fm_frame.
  rewrite (bind_Ret _ _ _ _ _ (unwrap_run _ _ _ (memcpy_all _ _ Hlen))).
  erewrite bind_Ret; [|apply store_slot_run; by rewrite fm_slot_upd_eq, fmap_is_Some].
  rewrite store_slot_run by by rewrite !fm_slot_upd_eq, !fmap_is_Some. by rewrite !upd_slot_compose.
Qed.

Lemma write_slot_seq rec sl : 0 ≤ seq sl < 2 ^ 32 ∧ Z.land (seq sl) 1 = 0 →
  0 ≤ seq (write_slot rec sl) < 2 ^ 32 ∧ Z.land (seq (write_slot rec sl)) 1 = 0.
Proof.
  intros [Hr He]. split; [apply u32_bound|]. simpl. rewrite land_1 in *.
  rewrite u32_mod2, <-Zplus_mod_idemp_l, u32_mod2, Zplus_mod_idemp_l.
  replace (seq sl + 1 + 1) with (seq sl + 1 * 2) by lia. by rewrite Z.mod_add by lia.
Qed.

Lemma dup_checks_run t rec scratch changed : static_ok t →
  (∀ i sl, fm_slot t i = Some sl → slot_ok t sl) →
  (∀ k, 0 ≤ k < keys t → key_rep t k (indexed t k)) → (∀ k, k ∈ changed → 0 ≤ k < keys t) →
  ∃ r, dup_checks changed rec scratch t = Ret (r, t) ∧
    match r with
    | Some k => k ∈ changed ∧ conflict t k rec
    | None => ∀ k, k ∈ changed → ¬ conflict t k rec
    end.
Proof.
  intros Hs Hok Hrep Hin. induction changed as [|k changed IH]; cbn [dup_checks].
  { exists None. split; [done|]. set_solver. }
  assert (Hk : 0 ≤ k < keys t) by apply Hin, list_elem_of_here.
  destruct (key_at_is_Some t k Hs Hk) as (kc & nb & Hkc & _).
  rewrite (bind_Ret _ _ _ _ _ (deref_key_run _ _ _ Hkc)).
  rewrite (bind_Ret _ _ _ _ _ (key_bucket_run t k kc rec Hs Hk Hkc)).
  destruct (dup_check_run t k rec scratch Hs Hok Hk (Hrep k Hk)) as (rc & Hrun & Hrc & Hcf).
  rewrite (bind_Ret _ _ _ _ _ Hrun). case_decide as Hd.
  - exists (Some k). split; [done|]. split; [apply list_elem_of_here|]. apply Hcf. by destruct Hrc.
  - destruct IH as (r & Hr & Hcase); [intros; by apply Hin, elem_of_cons; right|]. exists r. split; [done|].
    destruct r as [k'|]; [destruct Hcase; split; [apply elem_of_cons; by right|done]|].
    intros k' [->|Hk']%elem_of_cons; [|by apply Hcase]. rewrite <-Hcf. congruence.
Qed.

(** * Moving the row between chains *)

Section relinking.
Context (s : FM_SHARE_CORE) (Hs : static_ok s).
Context (idx : Z) (old_rec new_rec : bytes) (Hrow : row_at s idx = Some old_rec).
Context (t0 : FM_SHARE_CORE) (E0 : erase t0 = erase s).
#[local] Set Default Proof Using "Type*".

(** The members of bucket [b] of key [k] once the row has moved. *)
Definition moved (k b i : Z) : Prop :=
  (indexed s k b i ∧ i ≠ idx) ∨ (b = bucket_of s k new_rec ∧ i = idx).

Definition relinking (done : list Z) (t : FM_SHARE_CORE) : Prop :=
  chains_only t0 t ∧ ∀ k, 0 ≤ k < keys s →
    key_rep t k (λ b i, if decide (k ∈ done) then moved k b i else indexed s k b i).

Lemma relink_spec changed : ∀ done t, relinking done t → NoDup (changed ++ done) →
  (∀ k, k ∈ changed → 0 ≤ k < keys s) →
  wp (relink changed old_rec new_rec idx) (λ _ t', relinking (changed ++ done) t') t.
Proof.
  induction changed as [|k changed IH]; intros done t [C Hrep] Hnd Hin; cbn [relink]; [by apply wp_ret|].
  assert (Hk : 0 ≤ k < keys s) by apply Hin, list_elem_of_here.
  assert (E : erase t = erase s) by by rewrite (co_erase _ _ C).
  pose proof (static_ok_erase _ _ E Hs) as Hst. pose proof (row_at_range _ _ _ Hs Hrow) as Hidx.
  assert (Hkt : 0 ≤ k < keys t) by by rewrite (erase_keys _ _ E).
  simpl in Hnd. apply NoDup_cons in Hnd as [Hknew Hnd].
  destruct (key_at_is_Some t k Hst Hkt) as (kc & nb & Hkc & _).
  wp_step (deref_key_run _ _ _ Hkc).
  wp_step (key_bucket_run t k kc new_rec Hst Hkt Hkc). wp_step (key_bucket_run t k kc old_rec Hst Hkt Hkc).
  rewrite !(bucket_of_erase _ _ _ _ E).
  assert (Hhead : ∀ rec, is_Some (head_at t k (bucket_of s k rec))).
  { intros rec. rewrite <-(bucket_of_erase _ _ _ _ E). by apply bucket_of_range. }
  wp_use (fm_core_chain_unlink_spec k (bucket_of s k old_rec) idx (indexed s k)).
  { exact Hst. }
  { eapply key_rep_proper; [|by apply Hrep]. intros b i. rewrite decide_False; [done|]. set_solver. }
  { intros b i Hi. rewrite (total_slots_erase _ _ E). by eapply indexed_range. }
  { intros b b' i. apply indexed_fun. }
  { by exists old_rec. }
  { apply Hhead. }
  intros rc t1 (_ & L1 & Hrep1). pose proof (co_erase _ _ (lo_chains _ _ _ L1)) as E1.
  wp_use (fm_core_chain_link_spec k (bucket_of s k new_rec) idx (λ b i, indexed s k b i ∧ i ≠ idx)).
  { exact Hrep1. }
  { lia. }
  { naive_solver. }
  { by apply (erase_is_Some_head _ _ E1). }
  { apply (erase_is_Some_next _ _ E1), Hst; [done|]. by rewrite (total_slots_erase _ _ E). }
  intros _ t2 [L2 Hrep2]. eapply wp_mono; [apply (IH (k :: done))|].
  - split; [etrans; [exact C|etrans; [apply L1|apply L2]]|]. intros k' Hk'.
    destruct (decide (k' = k)) as [->|Hne].
    + eapply key_rep_proper; [|exact Hrep2]. intros b i. by rewrite decide_True by apply list_elem_of_here.
    + eapply key_rep_proper; [|eapply links_only_key_rep; [exact L2|done|];
        eapply links_only_key_rep; [exact L1|done|by apply Hrep]].
      intros b i. by rewrite (decide_ext (k' ∈ k :: done) (k' ∈ done)) by set_solver.
  - rewrite <-Permutation_middle. by constructor.
  - intros; by apply Hin, elem_of_cons; right.
  - intros _ t' [C' Hrep']. split; [done|]. intros k' Hk'. eapply key_rep_proper; [|by apply Hrep'].
    intros b i. rewrite (decide_ext (k' ∈ (k :: changed) ++ done) (k' ∈ changed ++ k :: done)); [done|].
    set_solver.
Qed.
End relinking.

(** * The share after an update *)

(** What storing [new_rec] in row [idx] promises. *)
Record update_post (held : gset Z) (s : FM_SHARE_CORE) (idx : Z) (new_rec : bytes)
    (s' : FM_SHARE_CORE) : Prop := {
  up_wf : wf held s';
  up_config : same_config s s';
  up_total : total_slots s' = total_slots s;
  up_table : table s' = <[idx := new_rec]> (table s);
  up_gen i : gen_at s' i = gen_at s i
}.

(** [rewritten]: only the image and sequence number of [idx], chains and bucket locks differ. *)
Record rewritten (s : FM_SHARE_CORE) (idx : Z) (new_rec : bytes) (s' : FM_SHARE_CORE) : Prop := {
  rw_erase : erase s' = erase s;
  rw_slot i : fm_slot s' i = if decide (idx = i) then write_slot new_rec <$> fm_slot s i else fm_slot s i;
  rw_lock k b v : lock_at s' k b = Some v → v = 0;
  rw_free : free_head s' = free_head s;
  rw_records : records s' = records s;
  rw_mutex : struct_mutex s' = 0
}.

Section update_done.
Context (held : gset Z) (s : FM_SHARE_CORE) (Hwf : wf held s).
Context (idx : Z) (old_rec new_rec : bytes) (Hrow : row_at s idx = Some old_rec).
Context (Hlen : Z.of_nat (length new_rec) = reclength s).
#[local] Set Default Proof Using "Type*".

Lemma rewritten_row s' i : rewritten s idx new_rec s' →
  row_at s' i = if decide (idx = i) then Some new_rec else row_at s i.
Proof using Hrow.
  clear Hlen.
  intros R. unfold row_at. rewrite (rw_slot _ _ _ _ R). case_decide as Hd; [|done]. subst.
  destruct (proj1 (row_at_Some _ _ _) Hrow) as (sl & Hsl & Hst & _). rewrite Hsl. simpl.
  unfold row_of. simpl. by rewrite Hst.
Qed.

(** Keys that the update leaves alone keep their bucket and their uniqueness. *)
Lemma unchanged_moved k b i : 0 ≤ k < keys s → ¬ changed_key s old_rec new_rec k →
  moved s idx new_rec k b i ↔ indexed s k b i.
Proof using Hwf Hrow.
  clear Hlen.
  intros Hk Hc. assert (Hb : bucket_of s k new_rec = bucket_of s k old_rec).
  { unfold changed_key in Hc. unfold bucket_of.
    destruct (so_key _ (wf_static _ _ Hwf) k Hk) as (o & u & n & Hcfg & _ & Hl & _). rewrite Hcfg in *.
    f_equal. apply laws_hash. symmetry. destruct (decide (same_key o old_rec new_rec)); [done|tauto]. }
  unfold moved, indexed. rewrite Hb. destruct (decide (i = idx)) as [->|Hi]; [|naive_solver].
  rewrite Hrow. naive_solver.
Qed.

Lemma update_unique : (∀ k, 0 ≤ k < keys s → changed_key s old_rec new_rec k → ¬ conflict s k new_rec) →
  unique_ok s (<[idx := new_rec]> (table s)).
Proof using Hwf Hrow.
  clear Hlen.
  intros Hno. apply unique_ok_insert; [apply Hwf|apply unique_ok_delete, Hwf|].
  intros k o nb j r Hk Hc Hj Hr Hnull Hsame.
  assert (Hl : KeyOpsLaws o).
  { destruct (so_key _ (wf_static _ _ Hwf) k Hk) as (o' & u & n & Hc' & _ & Hl & _). by simplify_eq. }
  destruct (decide (changed_key s old_rec new_rec k)) as [Hchg|Hchg].
  - apply (Hno k Hk Hchg), conflict_table; [apply Hwf|]. by exists o, nb, j, r.
  - unfold changed_key in Hchg. rewrite Hc in Hchg. apply dec_stable in Hchg.
    eapply (wf_unique _ _ Hwf k o nb j idx r old_rec); try done.
    + rewrite table_lookup by apply Hwf. done.
    + intros Hn. apply Hnull. by apply (laws_null r new_rec).
    + etrans; [exact Hsame|]. by symmetry.
Qed.

Lemma update_done_post s' : rewritten s idx new_rec s' →
  (∀ k, 0 ≤ k < keys s → key_rep s' k (moved s idx new_rec k)) →
  (∀ k, 0 ≤ k < keys s → changed_key s old_rec new_rec k → ¬ conflict s k new_rec) →
  update_post held s idx new_rec s'.
Proof.
  intros R Hkeys Hno. pose proof (rw_erase _ _ _ _ R) as E. pose proof (same_config_erase _ _ E) as Hcfg.
  pose proof (static_ok_erase _ _ E (wf_static _ _ Hwf)) as Hst.
  assert (Ht : table s' = <[idx := new_rec]> (table s)).
  { apply table_insert; [apply Hwf|done|by rewrite rewritten_row, decide_True|].
    intros j Hj. by rewrite rewritten_row, decide_False. }
  assert (Hlk : table s !! idx = Some old_rec) by (rewrite table_lookup; [done|apply Hwf]).
  constructor; [|done|by apply total_slots_erase|done|].
  2: { intros i. unfold gen_at. rewrite (rw_slot _ _ _ _ R). case_decide; [|done]. by destruct (fm_slot s i). }
  constructor; rewrite ?Ht.
  - done.
  - eapply heap_ok_erase; [done|apply Hwf].
  - split_and!; [apply R|apply R|]. intros i sl. rewrite (rw_slot _ _ _ _ R).
    destruct (wf_locks _ _ Hwf) as (_ & _ & Hw). case_decide; [|by apply Hw].
    destruct (fm_slot s i) as [sl'|] eqn:Hsl'; [|done]. intros [= <-]. by apply (Hw i sl').
  - intros i sl. rewrite (rw_slot _ _ _ _ R). case_decide.
    2: { intros Hsl. apply (slot_ok_reclength s); [apply Hcfg|by eapply Hwf]. }
    destruct (fm_slot s i) as [sl'|] eqn:Hsl'; [|done]. intros [= <-]. destruct (wf_slots _ _ Hwf _ _ Hsl').
    constructor; [by apply write_slot_seq|done|done|]. intros _. simpl. rewrite Hlen. symmetry. apply Hcfg.
  - rewrite (sc_keys _ _ Hcfg). intros k Hk. eapply key_rep_proper; [|by apply Hkeys].
    intros b i. unfold indexed, moved. setoid_rewrite (same_config_bucket _ _ _ _ Hcfg).
    rewrite rewritten_row by done. case_decide; unfold indexed; subst; naive_solver.
  - eapply free_rep_ext; [..|apply (wf_free _ _ Hwf)].
    + by apply total_slots_erase.
    + apply Hcfg.
    + apply R.
    + intros i. unfold free_next_at. rewrite (rw_slot _ _ _ _ R). case_decide; [|done]. by destruct (fm_slot s i).
    + intros i _. rewrite rewritten_row by done. case_decide; [|done]. subst. rewrite Hrow. naive_solver.
  - rewrite (rw_records _ _ _ _ R), (wf_records _ _ Hwf). by rewrite map_size_insert_Some by eauto.
  - eapply unique_ok_ext; [apply Hcfg|apply Hcfg|]. by apply update_unique.
Qed.
End update_done.

(** * The two operations *)

(** [quiet s s']: the share is observably the same. *)
Definition quiet (s s' : FM_SHARE_CORE) : Prop :=
  locks_only s s' ∧ ∀ k b, lock_at s' k b = lock_at s k b.

#[export] Instance quiet_refl : Reflexive quiet.
Proof. intros s. by split. Qed.

Lemma locks_only_row s s' i : locks_only s s' → row_at s' i = row_at s i.
Proof. intros L. unfold row_at. by rewrite (lk_slot _ _ L). Qed.

Lemma locks_only_indexed s s' k b i : locks_only s s' → indexed s' k b i ↔ indexed s k b i.
Proof. intros L. apply indexed_ext; [by apply locks_only_row|]. intros. apply bucket_of_erase, L. Qed.

Lemma locks_only_slots_ok s s' : locks_only s s' → (∀ i sl, fm_slot s i = Some sl → slot_ok s sl) →
  ∀ i sl, fm_slot s' i = Some sl → slot_ok s' sl.
Proof.
  intros L H i sl. rewrite (lk_slot _ _ L). intros Hsl. eapply slot_ok_reclength; [|by eapply H].
  apply erase_reclength, L.
Qed.

Lemma quiet_wf held s s' : wf held s → quiet s s' → wf held s' ∧ table s' = table s.
Proof.
  intros Hwf [L Hl]. pose proof (lk_erase _ _ L) as E. pose proof (same_config_erase _ _ E) as Hcfg.
  pose proof (static_ok_erase _ _ E (wf_static _ _ Hwf)) as Hst.
  assert (Ht : table s' = table s) by (apply table_ext; [apply Hwf|done|intros; by apply locks_only_row]).
  split; [|done]. destruct (wf_locks _ _ Hwf) as (Hm & Hlk & Hw). constructor; rewrite ?Ht.
  - done.
  - eapply heap_ok_erase; [done|apply Hwf].
  - split_and!; [by rewrite (lk_mutex _ _ L)|intros ???; rewrite Hl; apply Hlk|].
    intros i sl. rewrite (lk_slot _ _ L). apply Hw.
  - eapply locks_only_slots_ok; [done|apply Hwf].
  - rewrite (sc_keys _ _ Hcfg). intros k Hk. eapply key_rep_ext; [..|by apply (wf_keys _ _ Hwf)]; try apply L.
    intros b i. by apply locks_only_indexed.
  - eapply free_rep_ext; [..|apply (wf_free _ _ Hwf)]; [by apply total_slots_erase|apply Hcfg|apply L|..].
    + intros i. unfold free_next_at. by rewrite (lk_slot _ _ L).
    + intros i _. by rewrite (locks_only_row _ _ _ L).
  - rewrite (lk_records _ _ L). apply Hwf.
  - eapply unique_ok_ext; [apply Hcfg|apply Hcfg|apply Hwf].
Qed.

Definition update_outcome (held : gset Z) (s : FM_SHARE_CORE) (idx expect_gen : Z)
    (old_rec new_rec : bytes) (errkey : Z) (r : fm_err * Z) (s' : FM_SHARE_CORE) : Prop :=
  match r.1 with
  | FM_ERR_OK =>
      r.2 = errkey ∧ table s !! idx = Some old_rec ∧ gen_at s idx = Some expect_gen ∧
      update_post held s idx new_rec s' ∧
      ∀ k, 0 ≤ k < keys s → changed_key s old_rec new_rec k → ¬ conflict s k new_rec
  | FM_ERR_DUP_KEY =>
      (∃ k, r.2 = k + 1 ∧ 0 ≤ k < keys s ∧ changed_key s old_rec new_rec k ∧ conflict s k new_rec) ∧
      quiet s s'
  | FM_ERR_DELETED =>
      r.2 = errkey ∧ (table s !! idx = None ∨ gen_at s idx ≠ Some expect_gen) ∧ quiet s s'
  | _ => False
  end.

Section update.
Context (held : gset Z) (s : FM_SHARE_CORE) (Hwf : wf held s).
Context (idx : Z) (old_rec new_rec : bytes) (Hlen : Z.of_nat (length new_rec) = reclength s).
#[local] Set Default Proof Using "Type*".

Definition changed_keys : list Z := filter (changed_key s old_rec new_rec) (seqZ 0 (keys s)).

Lemma elem_of_changed_keys k : k ∈ changed_keys ↔ changed_key s old_rec new_rec k ∧ 0 ≤ k < keys s.
Proof using Type. unfold changed_keys. rewrite list_elem_of_filter, elem_of_seqZ. split; intros []; (split; [done|lia]). Qed.

Lemma collect_run : collect_changed (Z.to_nat (keys s)) 0 old_rec new_rec [] s = Ret (changed_keys, s).
Proof using Hwf.
  clear Hlen.
  pose proof (so_keys _ (wf_static _ _ Hwf)). unfold changed_keys.
  rewrite collect_changed_run; [|apply Hwf|lia|lia|simpl; lia]. by rewrite Z2Nat.id by lia.
Qed.

(** Locking, and what unlocking restores. *)
Lemma lock_phase : ∃ ls, build_lockset changed_keys old_rec new_rec [] s = Ret (ls, s) ∧
  wp (lock_all None (sort_lockset ls)) (λ _ t, locks_only s t ∧
    ∀ u, erase u = erase t → (∀ k b, lock_at u k b = lock_at t k b) →
      wp (unlock_all None (sort_lockset ls)) (λ _ u', locks_only u u' ∧
        ∀ k b v, lock_at u' k b = Some v → v = 0) u) s.
Proof using Hwf.
  clear Hlen.
  destruct (build_lockset_run s (wf_static _ _ Hwf) old_rec new_rec changed_keys []) as (ls & Hrun & Hls & _).
  { intros k Hk. by apply elem_of_changed_keys. }
  exists ls. split; [done|]. destruct (sort_lockset_spec ls) as [Hsort Hperm].
  destruct (wf_locks _ _ Hwf) as (_ & Hzero & _).
  assert (Hok : ∀ p, p ∈ sort_lockset ls → fmb_ok p ∧ is_Some (lock_at s (fmb_key p) (fmb_b p))).
  { intros p. rewrite Hperm, Hls. intros [?|Hi]; [set_solver|]. eapply involved_ok; [apply Hwf| |exact Hi].
    intros k Hk. by apply elem_of_changed_keys. }
  eapply wp_mono; [apply (lock_all_spec _ None s (λ _, False)); [done|done|tauto|intros p v _; apply Hzero]|].
  intros _ t [L Hrest]. split; [done|]. intros u Eu Hlu.
  eapply wp_mono; [apply unlock_all_spec|].
  - intros p Hp. rewrite Hlu. apply (erase_is_Some_lock _ _ (lk_erase _ _ L)). by apply Hok.
  - intros _ u' (Lu & Hin & Hor). split; [done|]. intros k b v Hv.
    destruct (decide (mkFMB k b ∈ sort_lockset ls)) as [Hp|Hp].
    + specialize (Hin _ Hp). simpl in Hin. rewrite Hin in Hv by done. congruence.
    + destruct (Hor k b) as [Ho|Ho]; [|congruence].
      specialize (Hrest _ Hp). simpl in Hrest. rewrite Ho, Hlu, Hrest in Hv. by eapply Hzero.
Qed.

(** The moves, from a state with the chains of [s]. *)
Lemma relink_phase t : row_at s idx = Some old_rec → erase t = erase s →
  (∀ k b, head_at t k b = head_at s k b) → (∀ k i, fm_key_next t k i = fm_key_next s k i) →
  wp (relink changed_keys old_rec new_rec idx) (λ _ t', chains_only t t' ∧
    ∀ k, 0 ≤ k < keys s → key_rep t' k (moved s idx new_rec k)) t.
Proof using Hwf.
  clear Hlen.
  intros Hrow E Hh Hn. eapply wp_mono.
  - apply (relink_spec s (wf_static _ _ Hwf) idx old_rec new_rec Hrow t E _ []).
    + split; [done|]. intros k Hk. eapply key_rep_ext; [apply Hh|apply Hn| |by apply (wf_keys _ _ Hwf)].
      intros b i. rewrite decide_False; [done|set_solver].
    + rewrite app_nil_r. apply NoDup_filter, NoDup_seqZ.
    + intros k Hk. by apply elem_of_changed_keys.
  - intros _ t' [C Hrep]. split; [done|]. intros k Hk. eapply key_rep_proper; [|by apply Hrep].
    intros b i. rewrite app_nil_r. case_decide as Hc; [done|].
    assert (Hn' : ¬ changed_key s old_rec new_rec k) by (intros ?; by apply Hc, elem_of_changed_keys).
    by apply (unchanged_moved held s Hwf idx old_rec new_rec Hrow).
Qed.

(** The checks, once the buckets are locked. *)
Lemma check_phase t scratch : locks_only s t →
  ∃ r, dup_checks changed_keys new_rec scratch t = Ret (r, t) ∧
    match r with
    | Some k => 0 ≤ k < keys s ∧ changed_key s old_rec new_rec k ∧ conflict s k new_rec
    | None => ∀ k, 0 ≤ k < keys s → changed_key s old_rec new_rec k → ¬ conflict s k new_rec
    end.
Proof using Hwf.
  clear Hlen.
  intros L. pose proof (lk_erase _ _ L) as E. pose proof (erase_keys _ _ E) as Hk.
  assert (Hcf : ∀ k, conflict t k new_rec ↔ conflict s k new_rec).
  { intros k. apply conflict_ext; [intros; by apply locks_only_row|]. intros. by apply key_cfg_erase. }
  destruct (dup_checks_run t new_rec scratch changed_keys) as (r & Hrun & Hr).
  - eapply static_ok_erase; [done|apply Hwf].
  - eapply locks_only_slots_ok; [done|apply Hwf].
  - intros k Hk'. rewrite Hk in Hk'. eapply key_rep_ext; [..|by apply (wf_keys _ _ Hwf)]; try apply L.
    intros b i. by apply locks_only_indexed.
  - intros k. rewrite elem_of_changed_keys, Hk. by intros [].
  - exists r. split; [done|]. destruct r as [k|].
    + destruct Hr as [[? ?]%elem_of_changed_keys ?]. by rewrite <-Hcf.
    + intros k Hk' Hc. rewrite <-Hcf. by apply Hr, elem_of_changed_keys.
Qed.

(** Nothing to move: the image write alone is the update. *)
Lemma update_fast s' : row_at s idx = Some old_rec → changed_keys = [] →
  s' = upd_slot (write_slot new_rec) idx s →
  update_post held s idx new_rec s' ∧
  ∀ k, 0 ≤ k < keys s → changed_key s old_rec new_rec k → ¬ conflict s k new_rec.
Proof.
  intros Hrow Hnil ->. assert (Hno : ∀ k, 0 ≤ k < keys s → ¬ changed_key s old_rec new_rec k).
  { intros k Hk Hc. assert (Hin : k ∈ changed_keys) by by apply elem_of_changed_keys. rewrite Hnil in Hin. set_solver. }
  split; [|intros k Hk Hc; by apply Hno in Hc].
  apply (update_done_post held s Hwf idx old_rec new_rec Hrow Hlen); [constructor| |].
  - apply erase_upd_slot.
  - intros i. apply fm_slot_upd.
  - intros k b v. fm_frame. apply (wf_locks _ _ Hwf).
  - done.
  - done.
  - apply (wf_locks _ _ Hwf).
  - intros k Hk. eapply key_rep_ext; [..|by apply (wf_keys _ _ Hwf)]; try (intros; by fm_frame).
    intros b i. apply (unchanged_moved held s Hwf idx old_rec new_rec Hrow); auto.
  - intros k Hk Hc. by apply Hno in Hc.
Qed.

(** All locks returned with nothing else touched. *)
Lemma quiet_intro s' : locks_only s s' → (∀ k b v, lock_at s' k b = Some v → v = 0) → quiet s s'.
Proof using Hwf.
  clear Hlen.
  intros L Hz. split; [done|]. intros k b. destruct (wf_locks _ _ Hwf) as (_ & Hs & _).
  pose proof (erase_is_Some_lock _ _ (lk_erase _ _ L) k b) as Hsome.
  destruct (lock_at s' k b) as [v|] eqn:H', (lock_at s k b) as [w|] eqn:H.
  - f_equal. etrans; [by eapply Hz|]. symmetry. by eapply Hs.
  - destruct (proj1 Hsome) as [? ?]; [by eexists|done].
  - destruct (proj2 Hsome) as [? ?]; [by eexists|done].
  - done.
Qed.

(** The end of a key-changing update: [t] has the locks, [u] is [t] with the image written,
    [w] has the row moved, [s'] has the locks released. *)
Lemma update_slow t f g w s' : row_at s idx = Some old_rec → locks_only s t →
  (∀ sl, fm_slot s idx = Some sl → g (f sl) = write_slot new_rec sl) →
  chains_only (upd_slot f idx t) w → (∀ k, 0 ≤ k < keys s → key_rep w k (moved s idx new_rec k)) →
  locks_only (upd_slot g idx w) s' → (∀ k b v, lock_at s' k b = Some v → v = 0) →
  (∀ k, 0 ≤ k < keys s → changed_key s old_rec new_rec k → ¬ conflict s k new_rec) →
  update_post held s idx new_rec s'.
Proof.
  intros Hrow L Hfg C Hrep L' Hz Hno.
  apply (update_done_post held s Hwf idx old_rec new_rec Hrow Hlen); [constructor| |done].
  - by rewrite (lk_erase _ _ L'), erase_upd_slot, (co_erase _ _ C), erase_upd_slot, (lk_erase _ _ L).
  - intros i. rewrite (lk_slot _ _ L'), fm_slot_upd, (co_slot _ _ C), fm_slot_upd, (lk_slot _ _ L).
    case_decide; [|done]. subst. destruct (fm_slot s i) as [sl|] eqn:Hsl; [|done]. simpl. f_equal. by apply Hfg.
  - done.
  - rewrite (lk_free _ _ L'). fm_frame. rewrite (co_free _ _ C). fm_frame. apply L.
  - rewrite (lk_records _ _ L'). fm_frame. rewrite (co_records _ _ C). fm_frame. apply L.
  - rewrite (lk_mutex _ _ L'). fm_frame. rewrite (co_mutex _ _ C). fm_frame. rewrite (lk_mutex _ _ L).
    apply (wf_locks _ _ Hwf).
  - intros k Hk. eapply key_rep_frame; [..|by apply Hrep]; intros.
    + rewrite (lk_head _ _ L'). by fm_frame.
    + rewrite (lk_next _ _ L'). by fm_frame.
Qed.
End update.

Lemma update_row_locked_spec held s idx eg old_rec new_rec errkey scratch : wf held s →
  0 ≤ idx < total_slots s → Z.of_nat (length new_rec) = reclength s →
  (∀ r, table s !! idx = Some r → gen_at s idx = Some eg → r = old_rec) →
  wp (fm_core_update_row_locked idx eg old_rec new_rec errkey scratch)
    (update_outcome held s idx eg old_rec new_rec errkey) s.
Proof.
  intros Hwf Hidx Hlen Hold. destruct (proj2 (so_slot _ (wf_static _ _ Hwf) idx) Hidx) as [sl Hsl].
  pose proof (slot_current_row s idx sl eg (wf_static _ _ Hwf) Hsl) as Hcur.
  unfold fm_core_update_row_locked. wp_step (deref_slot_run _ _ _ Hsl).
  destruct (slot_current sl eg); cbn [negb]; [|by apply wp_ret; split; [|split]].
  destruct Hcur as [Ht Hg]. rewrite (Hold _ Ht Hg) in Ht. pose proof Ht as Hrow. rewrite table_lookup in Hrow by apply Hwf.
  wp_get. wp_step (collect_run held s Hwf). case_decide as Hnil.
  - wp_step write_image_run; [by eexists|done|]. apply wp_ret.
    destruct (update_fast held s Hwf idx old_rec new_rec Hlen _ Hrow Hnil eq_refl). done.
  - destruct (lock_phase held s Hwf old_rec new_rec) as (ls & Hls & Hlock). wp_step Hls. cbv zeta. wp_use Hlock.
    intros _ t [L Hunlock].
    destruct (check_phase held s Hwf old_rec new_rec t scratch L) as ([k|] & Hrun & Hcase); wp_step Hrun.
    + wp_use Hunlock; [done|done|]. intros _ u' [Lu Hz]. apply wp_ret. split; [by exists k|].
      apply (quiet_intro held s Hwf); [by etrans|done].
    + wp_step write_image_run; [rewrite (lk_slot _ _ L); by eexists|by rewrite (erase_reclength _ _ (lk_erase _ _ L))|].
      wp_use (relink_phase held s Hwf idx old_rec new_rec); [done| |..].
      { by rewrite erase_upd_slot, (lk_erase _ _ L). }
      { intros. fm_frame. apply L. }
      { intros. fm_frame. apply L. }
      intros _ w [C Hrep]. wp_use (Hunlock w); [by rewrite (co_erase _ _ C), erase_upd_slot| |].
      { intros k b. rewrite (co_lock _ _ C). by fm_frame. }
      intros _ s' [L' Hz]. apply wp_ret. split_and!; [done..| |done].
      eapply (update_slow held s Hwf idx old_rec new_rec Hlen t _ id w); try done.
      assert (Hw : is_Some (fm_slot w idx)).
      { rewrite (co_slot _ _ C), fm_slot_upd_eq, (lk_slot _ _ L), Hsl. by eexists. }
      destruct Hw as [slw Hw]. by rewrite (upd_slot_id id _ _ _ Hw eq_refl).
Qed.

(** When no key changes and the position is current, the update is the image write, whatever the chains. *)
Lemma update_row_fast s idx sl eg old_rec new_rec errkey scratch : static_ok s → fm_slot s idx = Some sl → wlock sl = 0 →
  slot_current sl eg = true → Z.of_nat (length new_rec) = reclength s → (∀ k, 0 ≤ k < keys s → ¬ changed_key s old_rec new_rec k) →
  fm_core_update_row idx eg old_rec new_rec errkey scratch s = Ret ((FM_ERR_OK, errkey), upd_slot (write_slot new_rec) idx s).
Proof.
  intros Hs Hsl Hw Hcur Hlen Hno. destruct (so_keys _ Hs). unfold fm_core_update_row.
  rewrite (bind_Ret _ _ _ _ _ (deref_slot_run _ _ _ Hsl)), (bind_Ret _ _ _ _ _ (get_run _)).
  rewrite (bind_Ret _ _ _ _ _ (collect_changed_run s Hs old_rec new_rec (Z.to_nat (keys s)) 0 [] ltac:(lia) ltac:(lia) ltac:(simpl; lia))).
  rewrite app_nil_l, Z2Nat.id by lia. rewrite decide_True.
  2: { apply elem_of_nil_inv. intros k [Hc Hk%elem_of_seqZ]%list_elem_of_filter. by apply (Hno k); [lia|]. }
  rewrite (bind_Ret _ _ _ _ _ (wlock_lock_run _ _ _ Hsl Hw)).
  erewrite bind_Ret; [|apply deref_slot_run; by rewrite fm_slot_upd_eq, Hsl].
  change (slot_current (sl_with_wlock 1 sl) eg) with (slot_current sl eg). rewrite Hcur. cbn [negb].
  erewrite bind_Ret; [|apply write_image_run; [by rewrite fm_slot_upd_eq, Hsl; eexists|done]].
  erewrite bind_Ret; [|apply wlock_unlock_run; by rewrite !fm_slot_upd_eq, Hsl; eexists].
  rewrite !upd_slot_compose, (upd_slot_ext _ (write_slot new_rec)); [done|].
  intros sl' ?. assert (sl' = sl) as -> by congruence. destruct sl. simpl in *. by subst.
Qed.

Lemma update_row_spec held s idx eg old_rec new_rec errkey scratch : wf held s → idx ∉ held →
  0 ≤ idx < total_slots s → Z.of_nat (length new_rec) = reclength s →
  (∀ r, table s !! idx = Some r → gen_at s idx = Some eg → r = old_rec) →
  wp (fm_core_update_row idx eg old_rec new_rec errkey scratch)
    (update_outcome held s idx eg old_rec new_rec errkey) s.
Proof.
  intros Hwf Hheld Hidx Hlen Hold. destruct (proj2 (so_slot _ (wf_static _ _ Hwf) idx) Hidx) as [sl Hsl].
  pose proof (slot_current_row s idx sl eg (wf_static _ _ Hwf) Hsl) as Hcur.
  assert (Hw0 : wlock sl = 0).
  { destruct (wf_locks _ _ Hwf) as (_ & _ & Hw). by rewrite (Hw _ _ Hsl), decide_False. }
  assert (Hfg : ∀ sl', fm_slot s idx = Some sl' → sl_with_wlock 0 (write_slot new_rec (sl_with_wlock 1 sl')) = write_slot new_rec sl').
  { intros sl' ?. assert (sl' = sl) as -> by congruence. destruct sl. simpl in *. by subst. }
  unfold fm_core_update_row. wp_step (deref_slot_run _ _ _ Hsl).
  wp_get. wp_step (collect_run held s Hwf). case_decide as Hnil.
  - wp_step (wlock_lock_run _ _ _ Hsl Hw0). wp_step deref_slot_run; [by rewrite fm_slot_upd_eq, Hsl|].
    change (slot_current (sl_with_wlock 1 sl) eg) with (slot_current sl eg).
    destruct (slot_current sl eg); cbn [negb].
    + destruct Hcur as [Ht Hg]. rewrite (Hold _ Ht Hg) in Ht. pose proof Ht as Hrow.
      rewrite table_lookup in Hrow by apply Hwf.
      wp_step write_image_run; [by rewrite fm_slot_upd_eq, Hsl; eexists|done|].
      wp_step wlock_unlock_run; [by rewrite !fm_slot_upd_eq, Hsl; eexists|]. apply wp_ret.
      rewrite !upd_slot_compose, (upd_slot_ext _ (write_slot new_rec)) by exact Hfg.
      by destruct (update_fast held s Hwf idx old_rec new_rec Hlen _ Hrow Hnil eq_refl).
    + wp_step wlock_unlock_run; [by rewrite fm_slot_upd_eq, Hsl; eexists|]. rewrite (wlock_restore _ _ _ Hsl Hw0).
      apply wp_ret. by split; [|split].
  - destruct (lock_phase held s Hwf old_rec new_rec) as (ls & Hls & Hlock). wp_step Hls. cbv zeta. wp_use Hlock.
    intros _ t [L Hunlock].
    destruct (check_phase held s Hwf old_rec new_rec t scratch L) as ([k|] & Hrun & Hcase); wp_step Hrun.
    { wp_use Hunlock; [done|done|]. intros _ u' [Lu Hz]. apply wp_ret. split; [by exists k|].
      apply (quiet_intro held s Hwf); [by etrans|done]. }
    assert (Hslt : fm_slot t idx = Some sl) by by rewrite (lk_slot _ _ L).
    wp_step (wlock_lock_run _ _ _ Hslt Hw0). wp_step deref_slot_run; [by rewrite fm_slot_upd_eq, Hslt|].
    change (slot_current (sl_with_wlock 1 sl) eg) with (slot_current sl eg).
    destruct (slot_current sl eg); cbn [negb].
    + destruct Hcur as [Ht Hg]. rewrite (Hold _ Ht Hg) in Ht. pose proof Ht as Hrow.
      rewrite table_lookup in Hrow by apply Hwf.
      wp_step write_image_run; [by rewrite fm_slot_upd_eq, Hslt; eexists|rewrite Hlen; symmetry; apply (erase_reclength s t), L|].
      rewrite upd_slot_compose.
      wp_use (relink_phase held s Hwf idx old_rec new_rec); [done| |..].
      { by rewrite erase_upd_slot, (lk_erase _ _ L). }
      { intros. fm_frame. apply L. }
      { intros. fm_frame. apply L. }
      intros _ w [C Hrep]. wp_step wlock_unlock_run; [rewrite (co_slot _ _ C), fm_slot_upd_eq, Hslt; by eexists|].
      wp_use Hunlock; [by rewrite erase_upd_slot, (co_erase _ _ C), erase_upd_slot| |].
      { intros k b. fm_frame. rewrite (co_lock _ _ C). by fm_frame. }
      intros _ s' [L' Hz]. apply wp_ret. split_and!; [done..| |done].
      eapply (update_slow held s Hwf idx old_rec new_rec Hlen t _ (sl_with_wlock 0) w); try done. exact Hfg.
    + wp_step wlock_unlock_run; [by rewrite fm_slot_upd_eq, Hslt; eexists|]. rewrite (wlock_restore _ _ _ Hslt Hw0).
      wp_use Hunlock; [done|done|]. intros _ u' [Lu Hz]. apply wp_ret. split; [done|]. split; [done|].
      apply (quiet_intro held s Hwf); [by etrans|done].
Qed.

(** The outcomes, one by one. *)
(** When neither changes a key, it does not matter which old image is passed. *)
Lemma update_row_old held s : wf held s → ∀ idx eg old old' new_rec errkey scratch, changed_keys s old new_rec = [] → changed_keys s old' new_rec = [] →
  fm_core_update_row idx eg old new_rec errkey scratch s = fm_core_update_row idx eg old' new_rec errkey scratch s.
Proof.
  intros Hwf idx eg old old' new_rec errkey scratch H1 H2. unfold fm_core_update_row, mbind, M_bind, get.
  destruct (deref_slot idx s) as [[sl s1]| |] eqn:E; [|done|done]. assert (s1 = s) as -> by (unfold deref_slot, mbind, M_bind, get in E; destruct (fm_slot s idx); [by injection E|done]).
  rewrite !(collect_run held s Hwf), H1, H2. done.
Qed.

Lemma update_outcome_cases held s idx eg old_rec new_rec errkey r s' : wf held s →
  update_outcome held s idx eg old_rec new_rec errkey r s' →
  wf held s' ∧ (∀ i, gen_at s' i = gen_at s i) ∧
  (r.1 = FM_ERR_OK ∧ table s !! idx = Some old_rec ∧ gen_at s idx = Some eg ∧ table s' = <[idx := new_rec]> (table s) ∨
   r.1 = FM_ERR_DUP_KEY ∧ table s' = table s ∧
     (∃ k, r.2 = k + 1 ∧ 0 ≤ k < keys s ∧ changed_key s old_rec new_rec k ∧ conflict s k new_rec) ∨
   r.1 = FM_ERR_DELETED ∧ table s' = table s ∧ (table s !! idx = None ∨ gen_at s idx ≠ Some eg)).
Proof.
  intros Hwf Hout. unfold update_outcome in Hout.
  assert (Hq : quiet s s' → wf held s' ∧ table s' = table s ∧ ∀ i, gen_at s' i = gen_at s i).
  { intros Q. destruct (quiet_wf _ _ _ Hwf Q). split_and!; [done..|]. intros i. unfold gen_at. by rewrite (lk_slot _ _ (proj1 Q)). }
  destruct r as [[] ek]; cbn [fst snd] in *; try done.
  - destruct Hout as (_ & ? & ? & [? _ _ ? ?] & _). split_and!; [done..|]. by left.
  - destruct Hout as (_ & ? & (? & ? & ?)%Hq). split_and!; [done..|]. by do 2 right.
  - destruct Hout as (? & (? & ? & ?)%Hq). split_and!; [done..|]. right; left. by split_and!.
Qed.

(** * Properties *)

(** C3: Update.  [fm_core_update_row] at the position [(idx, eg)], given the image the row has,
    returns with a well-formed share and no lock left behind.  It replaces the row exactly when
    the position is current and no changed unique key conflicts (then the chains of all keys
    agree with the new row, by the invariant); a conflict gives FM_ERR_DUP_KEY and the number
    of the key plus one; a stale position FM_ERR_DELETED; both leave table and generations.  The
    generation 0 is compared like any other, although the comment of the function says that it
    stands for any generation. *)
Theorem update_correct held s idx eg old_rec new_rec errkey scratch :
  wf held s → idx ∉ held → 0 ≤ idx < total_slots s → Z.of_nat (length new_rec) = reclength s →
  (∀ r, table s !! idx = Some r → gen_at s idx = Some eg → r = old_rec) →
  wp (fm_core_update_row idx eg old_rec new_rec errkey scratch) (λ r s',
    wf held s' ∧ (∀ i, gen_at s' i = gen_at s i) ∧
    (r.1 = FM_ERR_OK ∧ table s !! idx = Some old_rec ∧ gen_at s idx = Some eg ∧ table s' = <[idx := new_rec]> (table s) ∨
     r.1 = FM_ERR_DUP_KEY ∧ table s' = table s ∧
       (∃ k, r.2 = k + 1 ∧ 0 ≤ k < keys s ∧ changed_key s old_rec new_rec k ∧ conflict s k new_rec) ∨
     r.1 = FM_ERR_DELETED ∧ table s' = table s ∧ (table s !! idx = None ∨ gen_at s idx ≠ Some eg))) s.
Proof.
  intros Hwf Hh Hi Hlen Hold. eapply wp_mono; [by apply update_row_spec|]. intros r s' Hout. by eapply (update_outcome_cases held s).
Qed.

(** The update under a lock the caller already holds.  [fm_core_update_row_locked] behaves
    the same whatever slot locks are held, that of [idx] included, and releases none of them. *)
Theorem update_locked_correct held s idx eg old_rec new_rec errkey scratch :
  wf held s → 0 ≤ idx < total_slots s → Z.of_nat (length new_rec) = reclength s →
  (∀ r, table s !! idx = Some r → gen_at s idx = Some eg → r = old_rec) →
  wp (fm_core_update_row_locked idx eg old_rec new_rec errkey scratch) (λ r s',
    wf held s' ∧ (∀ i, gen_at s' i = gen_at s i) ∧
    (r.1 = FM_ERR_OK ∧ table s !! idx = Some old_rec ∧ gen_at s idx = Some eg ∧ table s' = <[idx := new_rec]> (table s) ∨
     r.1 = FM_ERR_DUP_KEY ∧ table s' = table s ∧
       (∃ k, r.2 = k + 1 ∧ 0 ≤ k < keys s ∧ changed_key s old_rec new_rec k ∧ conflict s k new_rec) ∨
     r.1 = FM_ERR_DELETED ∧ table s' = table s ∧ (table s !! idx = None ∨ gen_at s idx ≠ Some eg))) s.
Proof.
  intros Hwf Hi Hlen Hold. eapply wp_mono; [by apply update_row_locked_spec|]. intros r s' Hout. by eapply (update_outcome_cases held s).
Qed.
(** The bucket locks of an update.  The lock set holds exactly the old and new buckets of
    the keys whose value changes, fits the array of 128 entries of the source, is sorted by
    (key, bucket), and two updates agree on the order of any two buckets that both need: the
    order is global, so that updates cannot deadlock on bucket locks. *)
Theorem lockset_correct held s old_rec new_rec : wf held s → ∃ changed ls,
  collect_changed (Z.to_nat (keys s)) 0 old_rec new_rec [] s = Ret (changed, s) ∧
  build_lockset changed old_rec new_rec [] s = Ret (ls, s) ∧
  Z.of_nat (length ls) ≤ 2 * FM_MAX_CHANGED_KEYS ∧
  (∀ p, p ∈ sort_lockset ls ↔ 0 ≤ fmb_key p < keys s ∧ changed_key s old_rec new_rec (fmb_key p) ∧
     (fmb_b p = bucket_of s (fmb_key p) new_rec ∨ fmb_b p = bucket_of s (fmb_key p) old_rec)) ∧
  StronglySorted code_le (sort_lockset ls) ∧
  (∀ p q, p ∈ sort_lockset ls → q ∈ sort_lockset ls → code_le p q → code_le q p → p = q).
Proof.
  intros Hwf. pose proof (wf_static _ _ Hwf) as Hs. pose proof (so_keys _ Hs) as H64.
  assert (Hin : ∀ k, k ∈ changed_keys s old_rec new_rec → 0 ≤ k < keys s) by (intros k Hk; by apply elem_of_changed_keys in Hk as [_ ?]).
  destruct (build_lockset_run s Hs old_rec new_rec _ [] Hin) as (ls & Hls & Hmem & Hlen).
  destruct (sort_lockset_spec ls) as [Hsort Hperm].
  assert (Hm : ∀ p, p ∈ sort_lockset ls ↔ involved s old_rec new_rec (changed_keys s old_rec new_rec) p).
  { intros p. rewrite Hperm, Hmem. split; [intros [[]%elem_of_nil|?]; done|by right]. }
  eexists _, ls. split; [by apply (collect_run held)|]. split; [done|]. split; [|split; [|split; [done|]]].
  - assert (length (changed_keys s old_rec new_rec) ≤ Z.to_nat (keys s))%nat.
    { unfold changed_keys. etrans; [apply length_filter|]. by rewrite length_seqZ. }
    unfold FM_MAX_CHANGED_KEYS. simpl in Hlen. lia.
  - intros p. rewrite Hm. unfold involved. rewrite elem_of_changed_keys. tauto.
  - intros p q Hp%Hm Hq%Hm H1 H2. unfold code_le in *. apply fmb_code_inj; [by eapply involved_ok..|lia].
Qed.
