(* ===== verification/Clear.v ===== *)
(** [fm_core_clear] (src/fm_core.h): emptying the chains, retiring every slot and rebuilding
    the freelist. *)

From S2P Require Import Prelude CoreState CoreOps RowOps Shape Inv Chains Reads Alloc Freelist Steps.

(** * Emptying the chains *)

Section clearing.
Context (s0 : FM_SHARE_CORE) (Hstatic : static_ok s0) (Hlocks : ∀ k b v, lock_at s0 k b = Some v → v = 0).
#[local] Set Default Proof Using "Type*".

(** The buckets [(k, b)] of which [P] holds are empty; only chains differ from [s0]. *)
Definition cleared (P : Z → Z → Prop) (s : FM_SHARE_CORE) : Prop :=
  chains_only s0 s ∧ ∀ k b h, P k b → head_at s k b = Some h → h = FM_NULL_SLOT.

Lemma clear_buckets_spec k n : ∀ b s, cleared (λ k' b', 0 ≤ k' < k ∨ k' = k ∧ b' < b) s →
  (∀ b', b ≤ b' < b + Z.of_nat n → is_Some (head_at s0 k b') ∧ is_Some (lock_at s0 k b')) →
  wp (clear_buckets n k b) (λ _, cleared (λ k' b', 0 ≤ k' < k ∨ k' = k ∧ b' < b + Z.of_nat n)) s.
Proof.
  induction n as [|n IH]; intros b s [C Hc] Hin; cbn [clear_buckets].
  { apply wp_ret. split; [done|]. intros k' b' h Hp. apply Hc. lia. }
  destruct (Hin b ltac:(lia)) as [Hh [v Hv]]. assert (v = 0) as -> by by apply (Hlocks k b).
  assert (Hvs : lock_at s k b = Some 0) by by rewrite (co_lock _ _ C).
  assert (Hhs : is_Some (head_at s k b)) by by apply (erase_is_Some_head _ _ (co_erase _ _ C)).
  wp_step (bucket_lock_run _ _ _ Hvs). wp_step store_head_run; [by fm_frame|].
  wp_step bucket_unlock_run; [fm_frame; rewrite lock_at_upd_eq, Hvs; by eexists|].
  eapply wp_mono; [apply (IH (b + 1))|].
  - split.
    + etrans; [exact C|]. apply chains_only_bracket; [done|]. constructor; intros; fm_frame; done.
    + intros k' b' h Hp. fm_frame. rewrite head_at_upd. fm_frame. case_decide as Hd.
      * simplify_eq. destruct (head_at s k' b'); simpl; congruence.
      * apply Hc. assert (k' ≠ k ∨ b' ≠ b) by (destruct (decide (k' = k)); [right|left]; congruence). lia.
  - intros b' ?. apply Hin. lia.
  - intros _ s' [C' Hc']. split; [done|]. intros k' b' h Hp. apply Hc'. lia.
Qed.

Lemma clear_keys_spec n : ∀ k s, cleared (λ k' _, 0 ≤ k' < k) s → 0 ≤ k → k + Z.of_nat n = keys s0 →
  wp (clear_keys n k) (λ _, cleared (λ k' _, 0 ≤ k' < keys s0)) s.
Proof.
  induction n as [|n IH]; intros k s [C Hc] Hk Hn; cbn [clear_keys].
  { apply wp_ret. replace (keys s0) with k by lia. done. }
  pose proof (co_erase _ _ C) as E. pose proof (chains_only_static _ _ C Hstatic) as Hs.
  destruct (key_at_is_Some s k Hs) as (kc & nb & Hkc & Hnb & Hr & _); [rewrite (erase_keys _ _ E); lia|].
  wp_step (deref_key_run _ _ _ Hkc).
  destruct (so_key _ Hstatic k ltac:(lia)) as (o & u & nb' & Hcfg & Hr' & _ & Hb).
  assert (Hnb' : nbuckets kc = 2 ^ nb').
  { pose proof (key_cfg_key_at _ _ _ Hkc) as Hck. rewrite (key_cfg_erase _ _ E) in Hck. congruence. }
  wp_use (clear_buckets_spec k (Z.to_nat (nbuckets kc)) 0 s).
  - split; [done|]. intros k' b' h Hp Hh. destruct (decide (0 ≤ k' < k)) as [|Hge]; [by eapply Hc|].
    assert (k' = k ∧ b' < 0) as [-> Hneg] by lia. exfalso.
    assert (is_Some (head_at s0 k b')) as Hsome by (apply (erase_is_Some_head _ _ E); by eexists).
    pose proof (so_head _ Hstatic k b' _ _ _ ltac:(lia) Hcfg Hsome). lia.
  - intros b' ?. apply Hb. rewrite Hnb', Z2Nat.id in * by lia. lia.
  - intros _ s' [C' Hc']. apply IH; [|lia|lia]. split; [done|]. intros k' b' h Hp Hh. eapply Hc'; [|exact Hh].
    destruct (decide (k' = k)) as [->|]; [right|left; lia]. split; [done|].
    assert (is_Some (head_at s0 k b')) as Hsome by (apply (erase_is_Some_head _ _ (co_erase _ _ C')); by eexists).
    pose proof (so_head _ Hstatic k b' _ _ _ ltac:(lia) Hcfg Hsome). rewrite Hnb', Z2Nat.id; lia.
Qed.
End clearing.

(** * Retiring the slots *)

Definition clear_slot (sl : FM_SLOT) : FM_SLOT :=
  sl_with_gen (u32 (gen sl + 1)) (sl_with_state FM_SLOT_FREE sl).

(** [retired m s s']: the slots below [m] are retired, nothing else differs. *)
Record retired (m : Z) (s s' : FM_SHARE_CORE) : Prop := {
  rt_erase : erase s' = erase s;
  rt_slot i : fm_slot s' i = if decide (0 ≤ i < m) then clear_slot <$> fm_slot s i else fm_slot s i;
  rt_next k i : fm_key_next s' k i = fm_key_next s k i;
  rt_head k b : head_at s' k b = head_at s k b;
  rt_lock k b : lock_at s' k b = lock_at s k b;
  rt_mutex : struct_mutex s' = struct_mutex s
}.

Lemma clear_slots_spec s n : ∀ m t, retired m s t → 0 ≤ m → m + Z.of_nat n ≤ 2 ^ 31 →
  (∀ i, m ≤ i < m + Z.of_nat n → ∃ sl, fm_slot s i = Some sl ∧ wlock sl = 0) →
  wp (clear_slots n m) (λ _, retired (m + Z.of_nat n) s) t.
Proof.
  induction n as [|n IH]; intros m t R Hm Hb Hin; cbn [clear_slots].
  { apply wp_ret. by replace (m + Z.of_nat 0) with m by lia. }
  rewrite i32_small by lia. destruct (Hin m ltac:(lia)) as (sl & Hsl & Hw).
  assert (Hslt : fm_slot t m = Some sl) by by rewrite (rt_slot _ _ _ R), decide_False by lia.
  wp_step (wlock_lock_run _ _ _ Hslt Hw).
  wp_step store_slot_run; [by rewrite fm_slot_upd_eq, Hslt; eexists|].
  wp_step store_slot_run; [by rewrite !fm_slot_upd_eq, Hslt; eexists|].
  wp_step wlock_unlock_run; [by rewrite !fm_slot_upd_eq, Hslt; eexists|].
  rewrite !upd_slot_compose, (upd_slot_ext _ clear_slot).
  2: { intros sl' ?. assert (sl' = sl) as -> by congruence. destruct sl. simpl in *. by subst. }
  replace (m + Z.of_nat (S n)) with (m + 1 + Z.of_nat n) by lia. apply IH; [|lia|lia|intros; apply Hin; lia].
  destruct R. constructor; intros; fm_frame; try done.
  rewrite fm_slot_upd, rt_slot0. repeat case_decide; try done; lia.
Qed.

(** Pushing the slots in ascending order leaves the last one first. *)
Lemma push_up_spec n : ∀ i s fl, linked (free_next_at s) (free_head s) fl → 0 ≤ i → i + Z.of_nat n ≤ 2 ^ 31 →
  (∀ j, i ≤ j < i + Z.of_nat n → is_Some (fm_slot s j) ∧ j ∉ fl) →
  wp (push_up n i) (λ _ s', free_only s s' ∧
    linked (free_next_at s') (free_head s') (reverse (seqZ i (Z.of_nat n)) ++ fl)) s.
Proof.
  induction n as [|n IH]; intros i s fl Hl Hi Hb Hj; cbn [push_up]; [by apply wp_ret|].
  rewrite i32_small by lia. destruct (Hj i ltac:(lia)) as [Hs Hni].
  wp_step (free_slot_run _ _ Hs). eapply wp_mono.
  { apply (IH (i + 1) _ (i :: fl)); [by apply free_slot_linked|lia|lia|].
    intros j ?. destruct (Hj j ltac:(lia)) as [Hsj Hnj]. split; [|set_solver by lia].
    fm_frame. rewrite fm_slot_upd. case_decide; [|done]. by rewrite fmap_is_Some. }
  intros _ s' [F Hl']. split; [etrans; [apply free_slot_free_only|done]|].
  rewrite (seqZ_cons i), reverse_cons, <-app_assoc by lia.
  by replace (Z.pred (Z.of_nat (S n))) with (Z.of_nat n) by lia.
Qed.

(** * The whole operation *)

Record clear_post (s s' : FM_SHARE_CORE) : Prop := {
  cp_wf : wf ∅ s';
  cp_config : same_config s s';
  cp_total : total_slots s' = total_slots s;
  cp_table : table s' = ∅;
  cp_gen i : 0 ≤ i < total_slots s → gen_at s' i = (λ g, u32 (g + 1)) <$> gen_at s i
}.

(** The end state, from the cleared chains [t], the retired slots [u] and the rebuilt list. *)
Lemma clear_done_post s t u s' : wf ∅ s → cleared (with_struct_mutex 1 s) (λ k _, 0 ≤ k < keys s) t →
  retired (total_slots s) t u → free_only (with_free_head FM_NULL_SLOT u) s' →
  linked (free_next_at s') (free_head s') (reverse (seqZ 0 (total_slots s))) →
  clear_post s (with_struct_mutex 0 (with_records 0 s')).
Proof.
  intros Hwf [C Hc] R F Hl. set (z := with_struct_mutex 0 (with_records 0 s')).
  pose proof (wf_static _ _ Hwf) as Hs. destruct (wf_locks _ _ Hwf) as (Hm & Hlk & Hw).
  assert (E : erase z = erase s).
  { transitivity (erase s'); [done|]. rewrite (fo_erase _ _ F). transitivity (erase u); [done|].
    rewrite (rt_erase _ _ _ R), (co_erase _ _ C). done. }
  pose proof (same_config_erase _ _ E) as Hcfg. pose proof (static_ok_erase _ _ E Hs) as Hst.
  assert (Hslot : ∀ i, unlinked (fm_slot z i) =
    unlinked (if decide (0 ≤ i < total_slots s) then clear_slot <$> fm_slot s i else fm_slot s i)).
  { intros i. transitivity (unlinked (fm_slot s' i)); [done|]. rewrite (fo_slot _ _ F). fm_frame.
    rewrite (rt_slot _ _ _ R), (co_slot _ _ C). done. }
  assert (Hsl : ∀ i sl, fm_slot z i = Some sl → ∃ sl0, fm_slot s i = Some sl0 ∧ unlinked (Some sl) = unlinked (Some (clear_slot sl0))).
  { intros i sl Hi. pose proof (Hslot i) as Hu. rewrite Hi, decide_True in Hu.
    - destruct (fm_slot s i) as [sl0|]; [|done]. by exists sl0.
    - rewrite <-(total_slots_erase _ _ E). apply (so_slot _ Hst). by eexists. }
  assert (Hrow : ∀ i, row_at z i = None).
  { intros i. unfold row_at. destruct (fm_slot z i) as [sl|] eqn:Hi; [|done]. simpl.
    destruct (Hsl _ _ Hi) as (sl0 & _ & Hu). destruct sl, sl0. by simplify_eq/=. }
  assert (Ht : table z = ∅) by (apply map_eq; intros i; by rewrite table_lookup, Hrow).
  constructor; [|done|by apply total_slots_erase|done|].
  2: { intros i Hi. pose proof (Hslot i) as Hu. rewrite decide_True in Hu by done. unfold gen_at.
       destruct (fm_slot z i) as [[]|], (fm_slot s i) as [[]|]; by simplify_eq/=. }
  constructor; rewrite ?Ht.
  - done.
  - eapply heap_ok_erase; [done|apply Hwf].
  - split_and!; [done|..].
    + intros k b v. unfold z. fm_frame. rewrite (fo_lock _ _ F). fm_frame.
      rewrite (rt_lock _ _ _ R), (co_lock _ _ C). apply Hlk.
    + intros i sl Hi. destruct (Hsl _ _ Hi) as (sl0 & Hsl0 & Hu). rewrite <-(Hw _ _ Hsl0).
      destruct sl, sl0; by simplify_eq/=.
  - intros i sl Hi. destruct (Hsl _ _ Hi) as (sl0 & Hsl0 & Hu). destruct (wf_slots _ _ Hwf _ _ Hsl0).
    destruct sl, sl0; simplify_eq/=. constructor; simpl; done.
  - rewrite (sc_keys _ _ Hcfg). intros k Hk b h Hh. exists []. split_and!; [|constructor|].
    + simpl. apply (Hc k b); [done|]. rewrite <-(rt_head _ _ _ R), <-Hh. symmetry. apply (fo_head _ _ F).
    + intros i. unfold indexed. rewrite Hrow. set_solver.
  - exists (reverse (seqZ 0 (total_slots s))). rewrite (total_slots_erase _ _ E). split_and!; [exact Hl|..].
    + rewrite reverse_Permutation. apply NoDup_seqZ.
    + intros i. rewrite elem_of_reverse, elem_of_seqZ, Hrow. intros ?. split_and!; [lia|lia|done|set_solver].
    + intros i Hi _ _ _. rewrite elem_of_reverse, elem_of_seqZ. lia.
  - done.
  - intros k o nb i j a b _ _ _ Ha. by rewrite lookup_empty in Ha.
Qed.

Lemma clear_spec s : wf ∅ s → wp fm_core_clear (λ _, clear_post s) s.
Proof.
  intros Hwf. pose proof (wf_static _ _ Hwf) as Hs. destruct (wf_locks _ _ Hwf) as (Hm & Hl & Hw).
  pose proof (total_bound _ Hs) as Ht. destruct (so_keys _ Hs).
  unfold fm_core_clear. wp_step (struct_lock_run s Hm). wp_get.
  set (s1 := with_struct_mutex 1 s). assert (Hs1 : static_ok s1) by (destruct Hs; by constructor).
  wp_use (clear_keys_spec s1 Hs1 Hl (Z.to_nat (keys s1)) 0 s1).
  { split; [done|]. intros k b h Hk. lia. }
  { done. }
  { unfold s1. fm_frame. lia. }
  intros _ t [C Hc]. cbv zeta. change (u32 (Z.shiftl (chunk_cnt s1) FM_CHUNK_SHIFT)) with (fm_core_slot_count s).
  rewrite slot_count_total by done.
  wp_use (clear_slots_spec t (Z.to_nat (total_slots s)) 0 t); [|done|lia|..].
  { constructor; try done. intros i. by rewrite decide_False by lia. }
  { intros i Hi. destruct (proj2 (so_slot _ Hs i) ltac:(lia)) as [sl Hsl]. exists sl. rewrite (co_slot _ _ C).
    split; [done|]. rewrite (Hw _ _ Hsl), decide_False; [done|set_solver]. }
  intros _ u R. rewrite Z2Nat.id in R by lia. wp_mod.
  wp_use (push_up_spec (Z.to_nat (total_slots s)) 0 (with_free_head FM_NULL_SLOT u) []); [done|lia|lia|..].
  { intros j Hj. split; [|set_solver]. fm_frame. rewrite (rt_slot _ _ _ R), decide_True, fmap_is_Some by lia.
    rewrite (co_slot _ _ C). apply (so_slot _ Hs). lia. }
  intros _ s' [F Hlk]. wp_mod. eapply wp_run; [apply modify_run|].
  rewrite app_nil_r, Z2Nat.id in Hlk by lia. by eapply clear_done_post.
Qed.

(** * Properties *)

(** C23: Truncate.  [fm_core_clear] returns with a well-formed, empty share: all chains empty, all
    slots free, the row count zero, every lock released; every slot that exists keeps existing
    and its generation advances by one, so that no position taken before it is current. *)
Theorem clear_correct s : wf ∅ s → wp fm_core_clear (λ _ s', wf ∅ s' ∧ table s' = ∅ ∧ records s' = 0 ∧
  total_slots s' = total_slots s ∧ ∀ i, 0 ≤ i < total_slots s → gen_at s' i = (λ g, u32 (g + 1)) <$> gen_at s i) s.
Proof.
  intros Hwf. eapply wp_mono; [by apply clear_spec|]. intros _ s' [Hwf' _ ? Ht ?]. split_and!; try done.
  rewrite (wf_records _ _ Hwf'), Ht. done.
Qed.
