(* ===== verification/Lifecycle.v ===== *)
(** Creating and freeing a share (src/fm_core.h, and [fm_key_ops_init] of src/fm_hash.cc): a
    created share is well formed and empty, and freeing a share returns each of its blocks
    exactly once. *)

From S2P Require Import Prelude CoreState CoreOps RowOps Shape Inv Chains Reads Alloc Freelist Steps.

(** [fm_key_ops_init]: wire the callbacks and the uniqueness of every key, as given by the
    server-side key definitions. *)
Fixpoint key_ops_init (n : nat) (defs : Z → FM_KEY_OPS * bool) (k : Z) : SM () :=
  match n with
  | O => mret tt
  | S n' =>
      _ ← deref_key k;
      modify (upd_key (λ kc, mkKey (defs k).1 (defs k).2 (nbuckets kc) (head kc) (locks kc)) k);;
      key_ops_init n' defs (k + 1)
  end.

Definition fm_key_ops_init (defs : Z → FM_KEY_OPS * bool) : SM () :=
  s ← get; key_ops_init (Z.to_nat (keys s)) defs 0.

(** * Freeing *)

(** The share with the blocks [l] given back. *)
Definition freed (l : list nat) (s : FM_SHARE_CORE) : FM_SHARE_CORE :=
  with_heap (mkHeap (calls (heap s)) (live (heap s) ∖ list_to_set l)) s.

Lemma freed_nil s : freed [] s = s.
Proof.
  unfold freed. destruct s as [? [c lv]]. unfold with_heap. simpl. do 2 f_equal. set_solver.
Qed.

Lemma freed_app l1 l2 s : freed l2 (freed l1 s) = freed (l1 ++ l2) s.
Proof.
  unfold freed, with_heap. simpl. do 2 f_equal. rewrite list_to_set_app_L. set_solver.
Qed.

(** [l] may be freed from [s]: its blocks are distinct and live. *)
Definition freeable (l : list nat) (s : FM_SHARE_CORE) : Prop := NoDup l ∧ ∀ p, p ∈ l → p ∈ live (heap s).

Lemma freeable_app l1 l2 s : freeable (l1 ++ l2) s → freeable l1 s ∧ freeable l2 (freed l1 s).
Proof.
  intros [(Hnd1 & Hdj & Hnd2)%NoDup_app Hin]. split; split; try done.
  - intros p Hp. apply Hin. set_solver.
  - intros p Hp. unfold freed. fm_frame. simpl. apply elem_of_difference. split; [apply Hin; set_solver|].
    rewrite elem_of_list_to_set. intros Hp'. by eapply Hdj.
Qed.

(** [frees m l]: the action [m] gives back exactly [l]. *)
Definition frees (m : SM ()) (l : list nat) : Prop := ∀ s, freeable l s → m s = Ret (tt, freed l s).

Lemma frees_ret : frees (mret tt) [].
Proof. intros s _. by rewrite freed_nil. Qed.

Lemma frees_seq m1 m2 l1 l2 : frees m1 l1 → frees m2 l2 → frees (m1;; m2) (l1 ++ l2).
Proof.
  intros H1 H2 s [Hf1 Hf2]%freeable_app. rewrite (bind_Ret _ _ _ _ _ (H1 s Hf1)), H2 by done.
  by rewrite freed_app.
Qed.

Lemma frees_dealloc p : frees (dealloc p) [p].
Proof.
  intros s [_ Hin]. rewrite dealloc_run by (apply Hin; set_solver). unfold freed. simpl. do 3 f_equal.
  f_equal. set_solver.
Qed.

Lemma frees_opt {A} (p : option (nat * A)) : frees (dealloc_opt p) (ptr_block p).
Proof. destruct p; [apply frees_dealloc|apply frees_ret]. Qed.

Lemma frees_list {A} (l : list (nat * A)) : frees (dealloc_list l) (map fst l).
Proof.
  induction l as [|p l IH]; [apply frees_ret|]. apply (frees_seq _ _ [p.1]); [apply frees_dealloc|done].
Qed.

(** The blocks of the chunks [cs], freed in order. *)
Lemma free_chunks_run cs : ∀ i s, (∀ j c, cs !! j = Some c → chunk_at s (i + Z.of_nat j) = Some c ∧
    match key_next c with Some q => Z.of_nat (length q.2) = keys s | None => True end) →
  freeable (flat_map chunk_blocks cs) s →
  free_chunks (length cs) i s = Ret (tt, freed (flat_map chunk_blocks cs) s).
Proof.
  induction cs as [|c cs IH]; intros i s Hin Hf; [by rewrite freed_nil|]. cbn [free_chunks length flat_map].
  destruct (Hin O c eq_refl) as [Hc Hlen]. rewrite Z.add_0_r in Hc.
  rewrite (bind_Ret _ _ _ _ _ (get_run _)). cbv beta. rewrite (bind_Ret _ _ _ _ _ (unwrap_run _ _ _ Hc)).
  apply freeable_app in Hf as [Hf1 Hf2]. unfold chunk_blocks in Hf1. apply freeable_app in Hf1 as [Hs Hn].
  rewrite (bind_Ret _ _ _ _ _ (frees_opt _ _ Hs)).
  assert (Hk : (match key_next c with
      | Some kn => dealloc_list (take (Z.to_nat (keys s)) kn.2);; dealloc kn.1 | None => mret tt end)
      (freed (ptr_block (slots c)) s) = Ret (tt, freed (chunk_blocks c) s)).
  { unfold chunk_blocks. rewrite <-freed_app. destruct (key_next c) as [[q l]|]; simpl in *.
    - rewrite take_ge by lia. by apply frees_seq; [apply frees_list|apply frees_dealloc|].
    - by rewrite freed_nil. }
  rewrite (bind_Ret _ _ _ _ _ Hk), IH, freed_app; [done| |done].
  intros j c' Hj. destruct (Hin (S j) c' Hj) as [Hc' Hl']. split; [|done].
  replace (i + 1 + Z.of_nat j) with (i + Z.of_nat (S j)) by lia. done.
Qed.

Lemma free_keys_run ks : ∀ k s, (∀ j kc, ks !! j = Some kc → key_at s (k + Z.of_nat j) = Some kc) →
  freeable (flat_map key_blocks ks) s →
  free_keys (length ks) k s = Ret (tt, freed (flat_map key_blocks ks) s).
Proof.
  induction ks as [|kc ks IH]; intros k s Hin Hf; [by rewrite freed_nil|]. cbn [free_keys length flat_map].
  pose proof (Hin O kc eq_refl) as Hk. rewrite Z.add_0_r in Hk.
  rewrite (bind_Ret _ _ _ _ _ (deref_key_run _ _ _ Hk)).
  apply freeable_app in Hf as [Hf1 Hf2]. unfold key_blocks in Hf1. apply freeable_app in Hf1 as [Hh Hl].
  rewrite (bind_Ret _ _ _ _ _ (frees_opt _ _ Hh)), (bind_Ret _ _ _ _ _ (frees_opt _ _ Hl)), freed_app.
  fold (key_blocks kc). rewrite IH, freed_app; [done| |done].
  intros j kc' Hj. replace (k + 1 + Z.of_nat j) with (k + Z.of_nat (S j)) by lia. by apply (Hin (S j)).
Qed.

(** The order in which [fm_core_free_share] gives the blocks back. *)
Definition free_order (s : FM_SHARE_CORE) : list nat :=
  flat_map chunk_blocks (take (Z.to_nat (chunk_cnt s)) (from_option snd [] (chunks s))) ++
  ptr_block (chunks s) ++
  flat_map key_blocks (from_option snd [] (keydef s)) ++ ptr_block (keydef s).

Lemma flat_map_empty {A} (f : A → list nat) l : (∀ x, x ∈ l → f x = []) → flat_map f l = [].
Proof. induction l as [|x l IH]; [done|]. intros H. simpl. rewrite H by set_solver. apply IH. set_solver. Qed.

(** What freeing needs of a share: the arrays it walks, and nothing allocated beyond them. *)
Record arrays_fit (s : FM_SHARE_CORE) : Prop := {
  af_arrays : arrays_ok s;
  af_keys : 0 ≤ keys s;
  af_cnt : 0 ≤ chunk_cnt s ≤ chunk_cap s;
  af_fresh c : chunk_cnt s ≤ c < chunk_cap s → chunk_at s c = Some (mkChunk None None)
}.

Lemma static_ok_fit s : static_ok s → arrays_fit s.
Proof. intros Hs. constructor; apply Hs. Qed.

Lemma free_order_blocks s : arrays_fit s → free_order s ≡ₚ blocks s.
Proof.
  intros Hs. destruct (af_arrays _ Hs) as ((p & cs & Hcs & Hlen) & _ & _). destruct (af_cnt _ Hs).
  unfold free_order, blocks. rewrite Hcs. simpl.
  assert (Hrest : flat_map chunk_blocks (drop (Z.to_nat (chunk_cnt s)) cs) = []).
  { apply flat_map_empty. intros c [j Hj]%list_elem_of_lookup. rewrite lookup_drop in Hj.
    pose proof (lookup_lt_Some _ _ _ Hj).
    pose proof (af_fresh _ Hs (chunk_cnt s + Z.of_nat j) ltac:(lia)) as Hf.
    unfold chunk_at, arr_get in Hf. rewrite Hcs in Hf. simpl in Hf. rewrite decide_True in Hf by lia.
    replace (Z.to_nat (chunk_cnt s + Z.of_nat j)) with (Z.to_nat (chunk_cnt s) + j)%nat in Hf by lia.
    rewrite Hj in Hf. by simplify_eq. }
  rewrite <-(take_drop (Z.to_nat (chunk_cnt s)) cs) at 2. rewrite flat_map_app, Hrest, app_nil_r.
  destruct (keydef s) as [[q ks]|]; simpl; solve_Permutation.
Qed.

Lemma free_share_run s : arrays_fit s → heap_ok s → ∃ s', fm_core_free_share s = Ret (tt, s') ∧
  live (heap s') = live (heap s) ∖ list_to_set (blocks s) ∧ chunks s' = None ∧ keydef s' = None ∧
  calls (heap s') = calls (heap s).
Proof.
  intros Hs (Hnd & Hlive & _). pose proof (free_order_blocks s Hs) as Hp.
  assert (Hf : freeable (free_order s) s).
  { split; [by rewrite Hp|]. intros x. rewrite Hp. apply Hlive. }
  assert (Hset : list_to_set (blocks s) =@{gset nat} list_to_set (free_order s)) by by rewrite Hp.
  unfold free_order in *.
  destruct (af_arrays _ Hs) as ((p & cs & Hcs & Hlen) & Hkd & Hch). destruct (af_cnt _ Hs) as [Hc0 Hc1]. pose proof (af_keys _ Hs) as Hk0.
  unfold fm_core_free_share. rewrite (bind_Ret _ _ _ _ _ (get_run _)). cbv beta. rewrite Hcs in *. cbn [from_option snd] in *.
  apply freeable_app in Hf as [H1 Hf]. apply freeable_app in Hf as [H2 Hf]. apply freeable_app in Hf as [H3 H4].
  assert (Hn : Z.to_nat (chunk_cnt s) = length (take (Z.to_nat (chunk_cnt s)) cs)) by (rewrite length_take; lia).
  assert (Hrun : free_chunks (Z.to_nat (chunk_cnt s)) 0 s = Ret (tt, freed (flat_map chunk_blocks (take (Z.to_nat (chunk_cnt s)) cs)) s)).
  { rewrite <-(free_chunks_run _ 0 s); [by rewrite <-Hn| |exact H1]. intros j c Hj. apply lookup_take_Some in Hj as [Hj Hjn].
    destruct (Hch (Z.of_nat j) ltac:(lia)) as (c' & Hc' & Hk').
    assert (c' = c) as ->; [|split; [done|by destruct (key_next c)]].
    unfold chunk_at, arr_get in Hc'. rewrite Hcs in Hc'. simpl in Hc'. rewrite decide_True, Nat2Z.id in Hc' by lia.
    congruence. }
  rewrite (bind_Ret _ _ _ _ _ Hrun).
  erewrite bind_Ret; [|apply frees_opt; exact H2].
  set (ks := from_option snd [] (keydef s)) in *.
  assert (Hks : Z.to_nat (keys s) = length ks) by (unfold ks; destruct (keydef s); simpl; lia).
  rewrite Hks. erewrite bind_Ret; [|apply free_keys_run; [|exact H3]].
  2: { intros j kc Hj. rewrite Z.add_0_l. unfold key_at, freed. fm_frame. unfold ks in Hj. destruct (keydef s) as [[q l]|]; [|done].
       simpl in *. unfold arr_get. rewrite decide_True, Nat2Z.id by lia. done. }
  erewrite bind_Ret; [|apply frees_opt; exact H4]. rewrite modify_run. eexists. split; [done|]. simpl.
  split_and!; try done. rewrite Hset, !list_to_set_app_L. set_solver.
Qed.

(** A share whose chunk array could not be allocated; it has no keys. *)
Record bare (s : FM_SHARE_CORE) : Prop := {
  br_chunks : chunks s = None;
  br_keydef : keydef s = None;
  br_keys : keys s = 0;
  br_cnt : chunk_cnt s = 0
}.

Lemma bare_blocks s : bare s → blocks s = [].
Proof. intros [Hc Hk _ _]. unfold blocks. by rewrite Hc, Hk. Qed.

Lemma free_bare_run s : bare s → ∃ s', fm_core_free_share s = Ret (tt, s') ∧ heap s' = heap s.
Proof.
  intros [Hc Hk Hks Hcnt]. unfold fm_core_free_share. rewrite (bind_Ret _ _ _ _ _ (get_run _)). cbv beta. rewrite Hc, Hk, Hks, Hcnt.
  cbn [Z.to_nat free_chunks free_keys dealloc_opt]. by eexists.
Qed.

(** * Creating *)

(** The [n]-th block, taken. *)
Definition taken (n : nat) (h : Heap) : Heap := mkHeap (calls h + n) (list_to_set (List.seq (calls h) n) ∪ live h).

Lemma taken_add n m h : taken m (taken n h) = taken (n + m) h.
Proof.
  unfold taken. simpl. f_equal; [lia|]. rewrite seq_app, list_to_set_app_L. set_solver.
Qed.

Lemma arr_upd_middle {A} (f : A → A) l1 x l2 : arr_upd f (Z.of_nat (length l1)) (l1 ++ x :: l2) = l1 ++ f x :: l2.
Proof.
  unfold arr_upd. rewrite decide_True, Nat2Z.id by lia. by rewrite alter_app_r_alt, Nat.sub_diag by lia.
Qed.

Lemma arr_get_middle {A} (l1 : list A) x l2 : arr_get (l1 ++ x :: l2) (Z.of_nat (length l1)) = Some x.
Proof. unfold arr_get. rewrite decide_True, Nat2Z.id by lia. by apply list_lookup_middle. Qed.

(** Key [k] of a created share, its two arrays being the blocks [base + 2k] and [base + 2k + 1]. *)
Definition init_kc (o : FM_KEY_OPS) (u : bool) (nb : Z) (base k : nat) : FM_KEY_CORE :=
  mkKey o u nb (Some ((base + 2 * k)%nat, replicate (Z.to_nat nb) FM_NULL_SLOT))
    (Some ((base + 2 * k + 1)%nat, replicate (Z.to_nat nb) 0)).

Definition init_nb (nbuckets_ : Z) : Z := if decide (nbuckets_ = 0) then 1024 else nbuckets_.

Lemma key_ops_init_run defs nb base q n : ∀ m s,
  keydef s = Some (q, map (λ k, init_kc (defs (Z.of_nat k)).1 (defs (Z.of_nat k)).2 nb base k) (List.seq 0 m) ++
    map (init_kc FM_KEY_OPS_zero false nb base) (List.seq m n)) →
  key_ops_init n defs (Z.of_nat m) s = Ret (tt, with_keydef
    (Some (q, map (λ k, init_kc (defs (Z.of_nat k)).1 (defs (Z.of_nat k)).2 nb base k) (List.seq 0 (m + n)))) s).
Proof.
  induction n as [|n IH]; intros m s Hkd; cbn [key_ops_init].
  { unfold mret, M_ret. do 2 f_equal. rewrite Nat.add_0_r. rewrite app_nil_r in Hkd. destruct s. simpl in *. by subst. }
  set (ks := map _ (List.seq 0 m)) in *. simpl in Hkd.
  assert (Hm : Z.of_nat m = Z.of_nat (length ks)) by (unfold ks; by rewrite length_map, length_seq).
  erewrite bind_Ret.
  2: { apply deref_key_run. unfold key_at. rewrite Hkd. simpl. rewrite Hm. apply arr_get_middle. }
  rewrite (bind_Ret _ _ _ _ _ (modify_run _ _)). replace (Z.of_nat m + 1) with (Z.of_nat (S m)) by lia.
  rewrite IH; [by replace (m + S n)%nat with (S m + n)%nat by lia|].
  rewrite seq_S, map_app. fold ks. rewrite <-app_assoc.
  unfold upd_key. simpl. rewrite Hkd. simpl. unfold prod_map. simpl. do 2 f_equal. rewrite Hm, arr_upd_middle.
  by rewrite <-Hm.
Qed.
Lemma alloc_given size s : ops_alloc s (calls (heap s)) size = true → alloc size s = Ret (Some (calls (heap s)), with_heap (taken 1 (heap s)) s).
Proof. intros Ho. unfold alloc. rewrite Ho. unfold taken. simpl. do 3 f_equal. f_equal; [lia|set_solver]. Qed.

(** The allocation of the chunk array succeeds. *)
Definition chunk_alloc (alloc_ops : nat → Z → bool) (reclength_ keys_ max_records_ : Z) (s : FM_SHARE_CORE) : Prop :=
  alloc_ops (calls (heap s)) (sizeof_FM_CHUNK * chunk_cap (init_fields alloc_ops reclength_ keys_ max_records_ s)) = true.

#[export] Instance chunk_alloc_dec alloc_ops reclength_ keys_ max_records_ s : Decision (chunk_alloc alloc_ops reclength_ keys_ max_records_ s).
Proof. unfold chunk_alloc. apply _. Defined.

Section init.
(** The allocations from the [B]-th to the [N]-th succeed. *)
Context (alloc_ops : nat → Z → bool) (B N : nat) (Halloc : ∀ n size, (B ≤ n < N)%nat → alloc_ops n size = true).
#[local] Set Default Proof Using "Type*".

Lemma alloc_ok size s : ops_alloc s = alloc_ops → (B ≤ calls (heap s) < N)%nat → alloc size s = Ret (Some (calls (heap s)), with_heap (taken 1 (heap s)) s).
Proof.
  intros Ho Hc. apply alloc_given. rewrite Ho. by apply Halloc.
Qed.

Lemma init_keys_run nb_ q base n : ∀ m s, ops_alloc s = alloc_ops →
  keydef s = Some (q, map (init_kc FM_KEY_OPS_zero false (init_nb nb_) base) (List.seq 0 m) ++ replicate n FM_KEY_CORE_zero) →
  calls (heap s) = (base + 2 * m)%nat → (B ≤ calls (heap s))%nat → (calls (heap s) + 2 * n ≤ N)%nat →
  init_keys n nb_ (Z.of_nat m) s = Ret (tt, with_heap (taken (2 * n) (heap s))
    (with_keydef (Some (q, map (init_kc FM_KEY_OPS_zero false (init_nb nb_) base) (List.seq 0 (m + n)))) s)).
Proof.
  induction n as [|n IH]; intros m s Ho Hkd Hc HB HN; cbn [init_keys].
  { unfold mret, M_ret. do 2 f_equal. rewrite Nat.add_0_r. rewrite app_nil_r in Hkd.
    destruct s as [? [c lv]]. simpl in *. subst. unfold with_heap, with_keydef, taken. simpl.
    f_equal. f_equal; [lia|set_solver]. }
  unfold init_key. fold (init_nb nb_). set (ks := map _ (List.seq 0 m)) in *.
  assert (Hm : Z.of_nat m = Z.of_nat (length ks)) by (unfold ks; by rewrite length_map, length_seq).
  erewrite bind_Ret.
  2: { erewrite bind_Ret.
       2: { apply deref_key_run. unfold key_at. rewrite Hkd. simpl. rewrite Hm. apply arr_get_middle. }
       rewrite (bind_Ret _ _ _ _ _ (alloc_ok _ _ Ho ltac:(lia))).
       erewrite bind_Ret; [|apply alloc_ok; [done|simpl; lia]]. apply modify_run. }
  fm_frame. change (with_heap ?a (with_heap ?b s)) with (with_heap a s). rewrite taken_add.
  replace (Z.of_nat m + 1) with (Z.of_nat (S m)) by lia. erewrite IH; [|done|..].
  - change (heap (upd_key ?f ?k (with_heap ?h s))) with h. rewrite taken_add. replace (m + S n)%nat with (S m + n)%nat by lia.
    replace (1 + 1 + 2 * n)%nat with (2 * S n)%nat by lia. reflexivity.
  - rewrite seq_S, map_app. fold ks. rewrite <-app_assoc.
    unfold upd_key. simpl. rewrite Hkd. simpl. unfold prod_map. simpl. do 2 f_equal. rewrite Hm, arr_upd_middle.
    do 2 f_equal. unfold init_kc. by rewrite Hc.
  - simpl. lia.
  - simpl. lia.
  - simpl. lia.
Qed.

(** The share that a successful creation makes. *)
Definition created (defs : Z → FM_KEY_OPS * bool) (reclength_ keys_ max_records_ nbuckets_ : Z)
    (s : FM_SHARE_CORE) : FM_SHARE_CORE :=
  let s1 := init_fields alloc_ops reclength_ keys_ max_records_ s in
  let n := calls (heap s) in
  let cs := Some (n, replicate (Z.to_nat (chunk_cap s1)) (mkChunk None None)) in
  if decide (keys_ = 0) then with_heap (taken 1 (heap s)) (with_chunks cs s1)
  else with_heap (taken (2 + 2 * Z.to_nat keys_) (heap s)) (with_keydef
    (Some (S n, map (λ k, init_kc (defs (Z.of_nat k)).1 (defs (Z.of_nat k)).2 (init_nb nbuckets_) (S (S n)) k)
       (List.seq 0 (Z.to_nat keys_)))) (with_chunks cs s1)).

Lemma init_share_run defs reclength_ keys_ max_records_ nbuckets_ s : 0 ≤ keys_ → chunk_alloc alloc_ops reclength_ keys_ max_records_ s →
  (B ≤ S (calls (heap s)))%nat → (keys_ ≠ 0 → (calls (heap s) + 2 + 2 * Z.to_nat keys_ ≤ N)%nat) →
  (fm_core_init_share reclength_ keys_ max_records_ nbuckets_ alloc_ops;; fm_key_ops_init defs) s =
    Ret (tt, created defs reclength_ keys_ max_records_ nbuckets_ s).
Proof.
  intros Hk Hch HB HN. unfold fm_core_init_share, created. set (s1 := init_fields _ _ _ _ s). cbv zeta.
  set (s2 := with_chunks (Some (calls (heap s), replicate (Z.to_nat (chunk_cap s1)) (mkChunk None None))) s1).
  case_decide as Hz; [clear HN|specialize (HN Hz)].
  - erewrite bind_Ret.
    2: { rewrite (bind_Ret _ _ _ _ _ (modify_run _ _)), (bind_Ret _ _ _ _ _ (get_run _)). cbv beta.
         erewrite bind_Ret; [|apply alloc_given, Hch]. cbv beta iota. rewrite (bind_Ret _ _ _ _ _ (modify_run _ _)).
         reflexivity. }
    unfold fm_key_ops_init. rewrite (bind_Ret _ _ _ _ _ (get_run _)). cbv beta.
    change (keys _) with keys_. replace (Z.to_nat keys_) with O by lia. reflexivity.
  - set (q := calls (taken 1 (heap s))).
    set (s3 := with_heap (taken 1 (taken 1 (heap s))) (with_keydef (Some (q, replicate (Z.to_nat keys_) FM_KEY_CORE_zero)) s2)).
    erewrite bind_Ret.
    2: { rewrite (bind_Ret _ _ _ _ _ (modify_run _ _)), (bind_Ret _ _ _ _ _ (get_run _)). cbv beta.
         erewrite bind_Ret; [|apply alloc_given, Hch]. cbv beta iota. rewrite (bind_Ret _ _ _ _ _ (modify_run _ _)).
         erewrite bind_Ret; [|apply alloc_ok; [done|simpl; lia]]. cbv beta iota. rewrite (bind_Ret _ _ _ _ _ (modify_run _ _)).
         apply (init_keys_run nbuckets_ q (S q) (Z.to_nat keys_) 0 s3); [done|done|unfold s3, q; simpl; lia..]. }
    unfold fm_key_ops_init. rewrite (bind_Ret _ _ _ _ _ (get_run _)). cbv beta. change (keys _) with keys_.
    rewrite (key_ops_init_run defs (init_nb nbuckets_) (S q) q (Z.to_nat keys_) 0) by done.
    unfold s3. fm_frame. rewrite !taken_add. unfold q. simpl calls. by rewrite Nat.add_1_r.
Qed.
End init.

(** Without a chunk array, [fm_core_init_share] stops. *)
Lemma init_share_fails alloc_ops reclength_ keys_ max_records_ nbuckets_ s :
  let s1 := init_fields alloc_ops reclength_ keys_ max_records_ s in
  alloc_ops (calls (heap s)) (sizeof_FM_CHUNK * chunk_cap s1) = false →
  fm_core_init_share reclength_ keys_ max_records_ nbuckets_ alloc_ops s =
    Ret (tt, with_heap (mkHeap (S (calls (heap s))) (live (heap s))) s1).
Proof.
  intros s1 Ha. unfold fm_core_init_share. rewrite (bind_Ret _ _ _ _ _ (modify_run _ _)), (bind_Ret _ _ _ _ _ (get_run _)). cbv beta. fold s1.
  unfold alloc, mbind, M_bind. change (ops_alloc s1) with alloc_ops. change (heap s1) with (heap s). by rewrite Ha.
Qed.

(** With keys, the share that is left cannot be freed: the loop over the keys goes through a null
    pointer. *)
Lemma init_failure_undefined alloc_ops reclength_ keys_ max_records_ nbuckets_ s : 0 < keys_ →
  ¬ chunk_alloc alloc_ops reclength_ keys_ max_records_ s →
  (fm_core_init_share reclength_ keys_ max_records_ nbuckets_ alloc_ops;; fm_core_free_share) s = Ub.
Proof.
  intros Hk Hch. rewrite (bind_Ret _ _ _ _ _ (init_share_fails _ _ _ _ _ _ (not_true_is_false _ Hch))).
  unfold fm_core_free_share. rewrite (bind_Ret _ _ _ _ _ (get_run _)). cbv beta.
  change (chunk_cnt _) with 0. change (chunks _) with (@None (nat * list FM_CHUNK)). change (keys _) with keys_.
  destruct (Z.to_nat keys_) as [|n] eqn:E; [lia|]. done.
Qed.

Section created_wf.
Context (alloc_ops : nat → Z → bool) (defs : Z → FM_KEY_OPS * bool).
Context (reclength_ keys_ max_records_ nbuckets_ n : Z) (s : FM_SHARE_CORE).
Context (Hrec : 0 ≤ reclength_) (Hkeys : 0 ≤ keys_ ≤ 64) (Hmax : 0 ≤ max_records_ ≤ 2 ^ 31).
Context (Hnb : init_nb nbuckets_ = 2 ^ n) (Hn : 0 ≤ n < 32).
Context (Hlaws : ∀ k, 0 ≤ k < keys_ → KeyOpsLaws (defs k).1) (Hfr : fresh (heap s)).
#[local] Set Default Proof Using "All".

Let s' := created alloc_ops defs reclength_ keys_ max_records_ nbuckets_ s.
Let mr := if decide (max_records_ = 0) then 1 else max_records_.

(** The chunk capacity is the row limit in chunks, rounded up. *)
Lemma created_cap : 0 < mr ≤ 2 ^ 31 ∧ chunk_cap s' = (mr + 4095) / 4096 ∧ max_records s' = mr ∧
  chunk_cnt s' = 0 ∧ keys s' = keys_ ∧ reclength s' = reclength_ ∧ records s' = 0 ∧ struct_mutex s' = 0 ∧
  free_head s' = FM_NULL_SLOT.
Proof.
  assert (Hmr : 0 < mr ≤ 2 ^ 31) by (unfold mr; case_decide; lia). split; [done|].
  assert (Hc : u32 (mr + FM_CHUNK_SIZE - 1) / FM_CHUNK_SIZE = (mr + 4095) / 4096).
  { rewrite FM_CHUNK_SIZE_eq, u32_small by lia. f_equal. lia. }
  rewrite <-Hc. unfold s', created. cbv zeta. case_decide; done.
Qed.

Lemma created_chunks : chunks s' = Some (calls (heap s), replicate (Z.to_nat (chunk_cap s')) (mkChunk None None)).
Proof. unfold s', created. cbv zeta. by case_decide. Qed.

Lemma created_chunk_at c ch : chunk_at s' c = Some ch → ch = mkChunk None None.
Proof.
  unfold chunk_at. rewrite created_chunks. simpl. unfold arr_get. case_decide; [|done].
  by intros [-> _]%lookup_replicate.
Qed.

Lemma created_slot i : fm_slot s' i = None.
Proof.
  unfold fm_slot. destruct (chunk_at s' _) as [ch|] eqn:Hc; [|done]. by rewrite (created_chunk_at _ _ Hc).
Qed.

Lemma created_key k : 0 ≤ k < keys_ →
  key_at s' k = Some (init_kc (defs k).1 (defs k).2 (2 ^ n) (S (S (calls (heap s)))) (Z.to_nat k)).
Proof.
  intros Hk. unfold key_at, s', created. cbv zeta. rewrite decide_False by lia. simpl.
  unfold arr_get. rewrite decide_True by lia. rewrite <-Hnb.
  change (map ?f ?l !! ?i) with (f <$> l !! i) || rewrite list_lookup_fmap.
  rewrite lookup_seq_lt by lia. simpl. by rewrite Z2Nat.id by lia.
Qed.

Lemma created_blocks : blocks s' = List.seq (calls (heap s)) (if decide (keys_ = 0%Z) then 1 else 2 + 2 * Z.to_nat keys_)%nat.
Proof.
  assert (Hempty : ∀ m, flat_map chunk_blocks (replicate m (mkChunk None None)) = []).
  { intros m. apply flat_map_empty. intros c Hc%elem_of_replicate. by destruct Hc as [-> _]. }
  unfold blocks. rewrite created_chunks. simpl. rewrite Hempty. unfold s', created. cbv zeta. case_decide; [done|].
  simpl. do 2 f_equal. generalize (S (S (calls (heap s)))). intros b.
  assert (Hgen : ∀ m j, flat_map key_blocks (map (λ k, init_kc (defs (Z.of_nat k)).1 (defs (Z.of_nat k)).2
    (init_nb nbuckets_) b k) (List.seq j m)) = List.seq (b + 2 * j) (2 * m)).
  { induction m as [|m IH]; intros j; [done|]. replace (2 * S m)%nat with (S (S (2 * m))) by lia.
    simpl. f_equal. replace (S (b + (j + (j + 0)))) with (b + 2 * j + 1)%nat by lia.
    rewrite IH. f_equal. f_equal; lia. }
  rewrite Hgen. f_equal. lia.
Qed.

Lemma created_heap : heap s' = taken (if decide (keys_ = 0%Z) then 1 else 2 + 2 * Z.to_nat keys_)%nat (heap s).
Proof. unfold s', created. cbv zeta. by case_decide. Qed.

Lemma created_static : static_ok s'.
Proof.
  destruct created_cap as (Hmr & Hcap & Hmx & Hcnt & Hk & Hrl & _). pose proof created_chunks as Hch.
  assert (Hdiv : (chunk_cap s' - 1) * 4096 < mr ≤ chunk_cap s' * 4096 ∧ chunk_cap s' * 4096 ≤ 2 ^ 31).
  { rewrite Hcap. pose proof (Z.div_mod (mr + 4095) 4096). pose proof (Z.mod_pos_bound (mr + 4095) 4096). 
    assert ((mr + 4095) / 4096 < 524289) by (apply Z.div_lt_upper_bound; lia). lia. }
  constructor; rewrite ?Hk, ?Hmx, ?Hcnt, ?Hrl; unfold total_slots; rewrite ?Hcnt.
  - split_and!; [|rewrite Hk|rewrite Hcnt; lia].
    + eexists _, _. split; [exact Hch|]. rewrite length_replicate. lia.
    + unfold s', created. cbv zeta. case_decide; [done|]. simpl. rewrite length_map, length_seq. lia.
  - lia.
  - lia.
  - lia.
  - lia.
  - lia.
  - lia.
  - intros c Hc. unfold chunk_at. rewrite Hch. simpl. rewrite arr_get_replicate; [done|lia].
  - intros i. rewrite created_slot. split; [by intros []|lia].
  - intros k i _ ?. lia.
  - intros k Hk'. pose proof (created_key k Hk') as Hat. eexists _, _, n. rewrite (key_cfg_key_at _ _ _ Hat). simpl.
    split; [done|]. split; [done|]. split; [by apply Hlaws|]. intros b Hb. unfold head_at, lock_at. rewrite Hat. simpl.
    by rewrite !arr_get_replicate by done.
  - intros k b o u nb Hk' Hcfg [h Hh]. pose proof (created_key k Hk') as Hat. rewrite (key_cfg_key_at _ _ _ Hat) in Hcfg.
    simplify_eq/=. unfold head_at in Hh. rewrite Hat in Hh. simpl in Hh. apply arr_get_range in Hh.
    rewrite length_replicate in Hh. lia.
Qed.

Lemma created_wf : wf ∅ s' ∧ table s' = ∅ ∧ foreign s' = live (heap s).
Proof.
  destruct created_cap as (_ & _ & _ & Hcnt & Hk & _ & Hrecs & Hmu & Hfree). pose proof created_static as Hst.
  assert (Hrow : ∀ i, row_at s' i = None) by (intros i; unfold row_at; by rewrite created_slot).
  assert (Ht : table s' = ∅) by (apply map_eq; intros i; by rewrite table_lookup, Hrow).
  assert (Hcell : ∀ k b v, 0 ≤ k → lock_at s' k b = Some v → v = 0).
  { intros k b v Hk0 Hv. unfold lock_at in Hv. destruct (decide (k < keys_)).
    - rewrite created_key in Hv by lia. simpl in Hv. unfold arr_get in Hv. case_decide; [|done].
      by apply lookup_replicate in Hv as [-> _].
    - assert (key_at s' k = None) as Hnone; [|by rewrite Hnone in Hv].
      unfold key_at, s', created. cbv zeta. case_decide; [done|]. simpl. unfold arr_get. case_decide; [|done].
      apply lookup_ge_None. rewrite length_map, length_seq. lia. }
  split_and!; [|done|].
  - constructor; rewrite ?Ht, ?Hk.
    + exact Hst.
    + unfold heap_ok. rewrite created_blocks, created_heap. split_and!.
      * apply NoDup_seq.
      * intros p Hp. simpl. set_solver.
      * intros p [Hp%elem_of_list_to_set%elem_of_seq|Hp%Hfr]%elem_of_union; simpl; repeat case_decide; lia.
    + split_and!; [done| |intros i sl; by rewrite created_slot]. intros k b v Hv.
      destruct (decide (0 ≤ k)); [by eapply Hcell|]. unfold lock_at, key_at in Hv.
      destruct (keydef s') as [q|]; [|done]. simpl in Hv. unfold arr_get in Hv at 2. by rewrite decide_False in Hv by lia.
    + intros i sl. by rewrite created_slot.
    + intros k Hk' b h Hh. exists []. unfold head_at in Hh. rewrite created_key in Hh by done. simpl in Hh.
      unfold arr_get in Hh. case_decide; [|done]. apply lookup_replicate in Hh as [-> _].
      split_and!; [done|constructor|]. intros i. unfold indexed. rewrite Hrow. set_solver.
    + exists []. rewrite Hfree. unfold total_slots. rewrite Hcnt. split_and!; [done|constructor|set_solver|lia].
    + done.
    + intros k o nb i j a b _ _ _ Ha. by rewrite lookup_empty in Ha.
  - unfold foreign. rewrite created_blocks, created_heap. simpl.
    assert (Hd : ∀ p, p ∈ live (heap s) → p ∉ List.seq (calls (heap s)) (if decide (keys_ = 0%Z) then 1 else 2 + 2 * Z.to_nat keys_)%nat).
    { intros p Hp%Hfr Hx%elem_of_seq. lia. } set_solver.
Qed.
End created_wf.

(** * The whole life of a share *)

(** What creation needs: a table within the limits of the engine, key callbacks that keep their
    promise, and the allocations of the creation. *)
Record init_ok (alloc_ops : nat → Z → bool) (defs : Z → FM_KEY_OPS * bool)
    (reclength_ keys_ max_records_ nbuckets_ : Z) (s : FM_SHARE_CORE) : Prop := {
  io_reclength : 0 ≤ reclength_;
  io_keys : 0 ≤ keys_ ≤ 64;
  io_max : 0 ≤ max_records_ ≤ 2 ^ 31;
  io_nb : ∃ n, init_nb nbuckets_ = 2 ^ n ∧ 0 ≤ n < 32;
  io_laws k : 0 ≤ k < keys_ → KeyOpsLaws (defs k).1;
  io_fresh : fresh (heap s);
  io_chunks : chunk_alloc alloc_ops reclength_ keys_ max_records_ s;
  io_alloc n size : keys_ ≠ 0 → (calls (heap s) < n < calls (heap s) + 2 + 2 * Z.to_nat keys_)%nat → alloc_ops n size = true
}.

Lemma init_spec alloc_ops defs reclength_ keys_ max_records_ nbuckets_ s :
  init_ok alloc_ops defs reclength_ keys_ max_records_ nbuckets_ s →
  (fm_core_init_share reclength_ keys_ max_records_ nbuckets_ alloc_ops;; fm_key_ops_init defs) s =
    Ret (tt, created alloc_ops defs reclength_ keys_ max_records_ nbuckets_ s) ∧
  let s' := created alloc_ops defs reclength_ keys_ max_records_ nbuckets_ s in
  wf ∅ s' ∧ table s' = ∅ ∧ foreign s' = live (heap s) ∧ total_slots s' = 0.
Proof.
  intros [? [Hk ?] ? (n & ? & ?) ? ? Hch Ha]. split.
  { destruct (decide (keys_ = 0)) as [E|E].
    - apply (init_share_run _ (S (calls (heap s))) (S (calls (heap s)))); [lia|done|done|lia|done].
    - apply (init_share_run _ (S (calls (heap s))) (calls (heap s) + 2 + 2 * Z.to_nat keys_)%nat); [|done|done|lia|done].
      intros i size Hr. apply Ha; [done|lia]. }
  cbv zeta.
  destruct (created_wf alloc_ops defs reclength_ keys_ max_records_ nbuckets_ n s) as (? & ? & ?); [done..|].
  split_and!; try done. unfold total_slots, created. cbv zeta. by case_decide.
Qed.

(** * Properties *)

(** Creation.  For a table within the limits of the engine, [fm_core_init_share] followed by
    [fm_key_ops_init] returns and makes a share that is well formed, has no rows and no slots
    yet, is configured as asked, and owns exactly the blocks it allocated. *)
Theorem init_correct alloc_ops defs reclength_ keys_ max_records_ nbuckets_ s :
  init_ok alloc_ops defs reclength_ keys_ max_records_ nbuckets_ s →
  wp (fm_core_init_share reclength_ keys_ max_records_ nbuckets_ alloc_ops;; fm_key_ops_init defs) (λ _ s',
    wf ∅ s' ∧ table s' = ∅ ∧ total_slots s' = 0 ∧ reclength s' = reclength_ ∧ keys s' = keys_ ∧
    max_records s' = Z.max 1 max_records_ ∧ foreign s' = live (heap s) ∧
    ∀ k, 0 ≤ k < keys_ → key_cfg s' k = Some (defs k, init_nb nbuckets_)) s.
Proof.
  intros H. destruct (init_spec _ _ _ _ _ _ _ H) as [Hrun (? & ? & ? & ?)]. destruct H as [? ? ? (n & ? & ?) ? ? _ _].
  eapply wp_run; [exact Hrun|].
  destruct (created_cap alloc_ops defs reclength_ keys_ max_records_ nbuckets_ n s) as (_ & _ & Hm & _ & Hk & Hr & _); [done..|].
  split_and!; try done; [rewrite Hm; case_decide; lia|]. intros k Hk'.
  rewrite (key_cfg_key_at _ _ _ (created_key alloc_ops defs reclength_ keys_ max_records_ nbuckets_ n s ltac:(done) ltac:(done)
    ltac:(done) ltac:(done) ltac:(done) ltac:(done) ltac:(done) k Hk')). simpl. destruct (defs k). simpl. congruence.
Qed.
