(* ===== verification/Spec.v ===== *)
(** The abstract table: rows under slot numbers, a generation per slot, and what each command
    of a client may do to them; and the refinement of the core to it. *)

From S2P Require Import Prelude CoreState CoreOps RowOps Shape Inv Chains Reads Alloc Freelist Steps Insert Delete Lockset Update Clear Lifecycle.

(** * Commands and responses *)

(** A position is a slot and the generation the client saw ([FM_SLOT_REF]). *)
Inductive cmd :=
| CInsert (rec : bytes)
| CUpdate (idx g : Z) (old_rec new_rec : bytes)
| CDelete (idx g : Z)
| CRead (idx g : Z)
| CFind (key : Z) (pk : bytes)
| CScan
| CClear.

Inductive resp :=
| RErr (e : fm_err)
| RDone
| RSlot (idx g : Z)
| RRow (rec : bytes)
| RFound (idx : Z) (rec : bytes)
| RRows (rows : list (Z * bytes)).

(** * The abstract machine *)

Record spec_state := mkSpec { sp_rows : gmap Z bytes; sp_gens : gmap Z Z }.

(** What the commands depend on besides the rows: the key definitions and the row limit. *)
Record spec_config := mkConf { cf_keys : Z; cf_key : Z → option (FM_KEY_OPS * bool); cf_max : Z }.

(** Storing [rec] in slot [idx] would repeat a value of the unique key [k]. *)
Definition clash (cf : spec_config) (t : gmap Z bytes) (idx k : Z) (rec : bytes) : Prop :=
  ∃ o j r, 0 ≤ k < cf_keys cf ∧ cf_key cf k = Some (o, true) ∧ ¬ null_key o rec ∧ j ≠ idx ∧
    t !! j = Some r ∧ same_key o r rec.

(** The position [(idx, g)] still denotes a row. *)
Definition current (T : spec_state) (idx g : Z) : Prop :=
  is_Some (sp_rows T !! idx) ∧ sp_gens T !! idx = Some g.

Inductive spec_step (cf : spec_config) (T : spec_state) : cmd → resp → spec_state → Prop :=
| sp_insert rec idx g gens :
    sp_rows T !! idx = None → (∀ k, ¬ clash cf (sp_rows T) idx k rec) →
    gens !! idx = Some g → sp_gens T ⊆ gens →
    spec_step cf T (CInsert rec) (RSlot idx g) (mkSpec (<[idx := rec]> (sp_rows T)) gens)
| sp_insert_dup rec k gens :
    clash cf (sp_rows T) FM_NULL_SLOT k rec → sp_gens T ⊆ gens →
    spec_step cf T (CInsert rec) (RErr FM_ERR_DUP_KEY) (mkSpec (sp_rows T) gens)
| sp_insert_full rec gens :
    cf_max cf ≤ Z.of_nat (size (sp_rows T)) → sp_gens T ⊆ gens →
    spec_step cf T (CInsert rec) (RErr FM_ERR_FULL) (mkSpec (sp_rows T) gens)
| sp_insert_nomem rec gens :
    sp_gens T ⊆ gens →
    spec_step cf T (CInsert rec) (RErr FM_ERR_NOMEM) (mkSpec (sp_rows T) gens)
| sp_update idx g old_rec new_rec :
    current T idx g → (∀ k, ¬ clash cf (sp_rows T) idx k new_rec) →
    spec_step cf T (CUpdate idx g old_rec new_rec) RDone (mkSpec (<[idx := new_rec]> (sp_rows T)) (sp_gens T))
| sp_update_dup idx g old_rec new_rec k :
    current T idx g → clash cf (sp_rows T) idx k new_rec →
    spec_step cf T (CUpdate idx g old_rec new_rec) (RErr FM_ERR_DUP_KEY) T
| sp_update_gone idx g old_rec new_rec :
    ¬ current T idx g → spec_step cf T (CUpdate idx g old_rec new_rec) (RErr FM_ERR_DELETED) T
| sp_update_gone_dup idx g old_rec new_rec k :
    ¬ current T idx g → clash cf (sp_rows T) FM_NULL_SLOT k new_rec →
    spec_step cf T (CUpdate idx g old_rec new_rec) (RErr FM_ERR_DUP_KEY) T
| sp_delete idx g :
    current T idx g →
    spec_step cf T (CDelete idx g) RDone
      (mkSpec (delete idx (sp_rows T)) (alter (λ g, u32 (g + 1)) idx (sp_gens T)))
| sp_delete_gone idx g :
    ¬ current T idx g → spec_step cf T (CDelete idx g) (RErr FM_ERR_DELETED) T
| sp_read idx g rec :
    sp_rows T !! idx = Some rec → sp_gens T !! idx = Some g → spec_step cf T (CRead idx g) (RRow rec) T
| sp_read_gone idx g :
    ¬ current T idx g → spec_step cf T (CRead idx g) (RErr FM_ERR_DELETED) T
| sp_find key pk o u idx rec :
    cf_key cf key = Some (o, u) → sp_rows T !! idx = Some rec → matches_key o rec pk →
    spec_step cf T (CFind key pk) (RFound idx rec) T
| sp_find_none key pk o u :
    cf_key cf key = Some (o, u) → (∀ idx rec, sp_rows T !! idx = Some rec → ¬ matches_key o rec pk) →
    spec_step cf T (CFind key pk) (RErr FM_ERR_NOT_FOUND) T
| sp_scan rows :
    rows ≡ₚ map_to_list (sp_rows T) → spec_step cf T CScan (RRows rows) T
| sp_clear :
    spec_step cf T CClear RDone (mkSpec ∅ ((λ g, u32 (g + 1)) <$> sp_gens T)).

(** * The commands run on the core *)

(** The generation of a slot, as [fm_slot_gen] reads it. *)
Definition fm_slot_gen (idx : Z) : SM Z := sl ← deref_slot idx; mret (gen sl).

(** Each command is a call of the core; an insert also reads the generation of the new slot, as
    [fm_write] does.  An update goes to [fm_core_update_row] as it is: the function checks for
    duplicates before it looks at the generation. *)
Definition run_cmd (c : cmd) : SM resp :=
  match c with
  | CInsert rec =>
      r ← fm_core_insert_row rec FM_NULL_SLOT 0 [];
      if decide (ins_rc r = FM_ERR_OK) then
        g ← fm_slot_gen (ins_idx r); mret (RSlot (ins_idx r) g)
      else mret (RErr (ins_rc r))
  | CUpdate idx g old_rec new_rec =>
      r ← fm_core_update_row idx g old_rec new_rec 0 [];
      if decide (r.1 = FM_ERR_OK) then mret RDone else mret (RErr r.1)
  | CDelete idx g =>
      rc ← fm_core_delete_row idx g;
      if decide (rc = FM_ERR_OK) then mret RDone else mret (RErr rc)
  | CRead idx g =>
      '(rc, rec) ← fm_core_read_row idx true g [];
      if decide (rc = FM_ERR_OK) then mret (RRow rec) else mret (RErr rc)
  | CFind key pk =>
      '(rc, idx, rec) ← fm_core_find key pk [] FM_NULL_SLOT;
      if decide (rc = FM_ERR_OK) then mret (RFound idx rec) else mret (RErr rc)
  | CScan =>
      s ← get;
      rows ← scan_all (S (Z.to_nat (fm_core_slot_count s))) 0 [];
      mret (RRows rows)
  | CClear => fm_core_clear;; mret RDone
  end.

(** The command respects the interface: records of the right length, positions of slots that
    exist, keys that exist; and the old image of an update is that of the row, where the position
    still denotes one. *)
Definition cmd_ok (s : FM_SHARE_CORE) (c : cmd) : Prop :=
  match c with
  | CInsert rec => Z.of_nat (length rec) = reclength s
  | CUpdate idx g old_rec new_rec =>
      0 ≤ idx < total_slots s ∧ Z.of_nat (length old_rec) = reclength s ∧ Z.of_nat (length new_rec) = reclength s ∧
      ∀ r, table s !! idx = Some r → gen_at s idx = Some g → r = old_rec
  | CDelete idx _ | CRead idx _ => 0 ≤ idx < total_slots s
  | CFind key _ => 0 ≤ key < keys s
  | CScan | CClear => True
  end.

(** * The abstraction *)

Definition gens (s : FM_SHARE_CORE) : gmap Z Z :=
  list_to_map (omap (λ i, (i,.) <$> gen_at s i) (seqZ 0 (total_slots s))).

Definition abs (s : FM_SHARE_CORE) : spec_state := mkSpec (table s) (gens s).

(** [cf] is the configuration of [s]. *)
Definition conf_of (cf : spec_config) (s : FM_SHARE_CORE) : Prop :=
  cf_keys cf = keys s ∧ cf_max cf = max_records s ∧ ∀ k, cf_key cf k = fst <$> key_cfg s k.

Lemma gens_lookup s i : static_ok s → gens s !! i = gen_at s i.
Proof.
  intros H. apply collect_lookup. intros j g Hg. apply (so_slot _ H). unfold gen_at in Hg.
  by apply fmap_Some in Hg as (sl & -> & _).
Qed.

Lemma conf_of_config cf s s' : same_config s s' → conf_of cf s → conf_of cf s'.
Proof.
  intros C (Hk & Hm & Hc). split_and!; [by rewrite (sc_keys _ _ C)|by rewrite (sc_max _ _ C)|].
  intros k. by rewrite (sc_cfg _ _ C).
Qed.

Lemma quiet_config s s' : quiet s s' → same_config s s'.
Proof. intros [L _]. apply same_config_erase, L. Qed.

(** Two shares with the same rows and generations are the same to the abstract machine. *)
Lemma abs_ext s s' : static_ok s → static_ok s' → table s' = table s → (∀ i, gen_at s' i = gen_at s i) → abs s' = abs s.
Proof.
  intros H H' Ht Hg. unfold abs. f_equal; [done|]. apply map_eq. intros i. by rewrite !gens_lookup.
Qed.

Lemma current_abs s idx g : static_ok s → current (abs s) idx g ↔ is_Some (table s !! idx) ∧ gen_at s idx = Some g.
Proof. intros H. unfold current. simpl. by rewrite gens_lookup. Qed.

(** A conflict found by the core is a clash in the abstract table. *)
Lemma conflict_clash cf s idx k rec : static_ok s → conf_of cf s → 0 ≤ k < keys s →
  (∀ o u nb, key_cfg s k = Some (o, u, nb) → ∀ r, table s !! idx = Some r → ¬ same_key o r rec) →
  conflict s k rec ↔ clash cf (table s) idx k rec.
Proof.
  intros Hs (Hk & _ & Hc) Hkr Hself. rewrite conflict_table by done. unfold clash. rewrite Hk, Hc. split.
  - intros (o & nb & j & r & Hcfg & Hn & Hj & Hsame). exists o, j, r. rewrite Hcfg. do 3 (split; [done|]).
    split; [|done]. intros ->. by eapply Hself.
  - intros (o & j & r & _ & Hcfg & Hn & _ & Hj & Hsame). apply fmap_Some in Hcfg as ([[o' u] nb] & Hcfg & Heq).
    simplify_eq/=. by exists o', nb, j, r.
Qed.

Lemma clash_range cf s t idx k rec : conf_of cf s → clash cf t idx k rec → 0 ≤ k < keys s.
Proof. intros (Hk & _) (o & j & r & Hr & _). by rewrite <-Hk. Qed.

(** A share that is well formed after a store has no clash for it. *)
Lemma unique_no_clash cf s s' idx k rec : conf_of cf s → same_config s s' → wf ∅ s' →
  table s' = <[idx := rec]> (table s) → ¬ clash cf (table s) idx k rec.
Proof.
  intros Hcf C Hwf Ht (o & j & r & Hk & Hcfg & Hn & Hj & Hr & Hsame). destruct Hcf as (Hkeys & _ & Hc).
  rewrite Hc in Hcfg. apply fmap_Some in Hcfg as ([[o' u] nb] & Hcfg & Heq). simplify_eq/=. rewrite Hkeys in Hk.
  pose proof (wf_unique _ _ Hwf) as Hu. rewrite Ht in Hu.
  assert (Hl : KeyOpsLaws o').
  { destruct (so_key _ (wf_static _ _ Hwf) k) as (o2 & u2 & n & Hc2 & _ & Hl & _); [by rewrite (sc_keys _ _ C)|].
    rewrite (sc_cfg _ _ C) in Hc2. by simplify_eq. }
  eapply (Hu k o' nb j idx r rec); [by rewrite (sc_keys _ _ C)|by rewrite (sc_cfg _ _ C)|done| | | |done].
  - by rewrite lookup_insert_ne.
  - apply lookup_insert_eq.
  - intros Hnull. apply Hn. by apply (laws_null r rec).
Qed.

(** A read at a position, in terms of the abstract table. *)
Lemma read_row_abs held s idx g buf : wf held s → 0 ≤ idx < total_slots s → ∃ rc rec,
  fm_core_read_row idx true g buf s = Ret ((rc, rec), s) ∧
  ((rc = FM_ERR_OK ∧ table s !! idx = Some rec ∧ gen_at s idx = Some g) ∨
   (rc = FM_ERR_DELETED ∧ ¬ current (abs s) idx g)).
Proof.
  intros Hwf Hi. destruct (proj2 (so_slot _ (wf_static _ _ Hwf) idx) Hi) as [sl Hsl].
  pose proof (current_abs s idx g (wf_static _ _ Hwf)) as Hcur.
  unfold fm_core_read_row. rewrite table_lookup in * by apply Hwf. unfold gen_at, row_at in *.
  rewrite (read_row_loop_run _ _ _ _ _ _ _ Hsl (wf_slots _ _ Hwf _ _ Hsl)). rewrite Hsl in *. simpl in *.
  destruct (row_of sl) as [rec|]; [case_bool_decide as Hg|]; eexists _, _; (split; [reflexivity|]).
  - right. split; [done|]. rewrite Hcur. intros [_ [=]]. done.
  - left. split_and!; [done..|]. destruct (decide (gen sl = g)) as [->|]; [done|tauto].
  - right. split; [done|]. rewrite Hcur. by intros [[] _].
Qed.

(** * Simulation, command by command *)

Section simulation.
Context (cf : spec_config) (s : FM_SHARE_CORE) (Hwf : wf ∅ s) (Hcf : conf_of cf s).
#[local] Set Default Proof Using "Type*".

(** What running a command must establish. *)
Definition simulates (c : cmd) (r : resp) (s' : FM_SHARE_CORE) : Prop :=
  wf ∅ s' ∧ same_config s s' ∧ total_slots s ≤ total_slots s' ∧ spec_step cf (abs s) c r (abs s').

(** A command that leaves the share as it is, up to lock words. *)
Lemma simulates_quiet c r s' : quiet s s' → spec_step cf (abs s) c r (abs s) → simulates c r s'.
Proof.
  intros Q Hstep. destruct (quiet_wf _ _ _ Hwf Q) as [Hwf' Ht]. pose proof (quiet_config _ _ Q) as C.
  assert (Habs : abs s' = abs s).
  { apply abs_ext; [apply Hwf|apply Hwf'|done|]. intros i. unfold gen_at. by rewrite (lk_slot _ _ (proj1 Q)). }
  split_and!; [done|done| |by rewrite Habs].
  by rewrite (total_slots_erase _ _ (lk_erase _ _ (proj1 Q))).
Qed.

Lemma sim_read idx g : cmd_ok s (CRead idx g) → wp (run_cmd (CRead idx g)) (simulates (CRead idx g)) s.
Proof.
  intros Hi. simpl in *. destruct (read_row_abs ∅ s idx g [] Hwf Hi) as (rc & rec & Hrun & Hcase). wp_step Hrun.
  destruct Hcase as [(-> & Ht & Hg)|[-> Hn]].
  - rewrite decide_True by done. apply wp_ret, simulates_quiet; [done|]. constructor; [done|].
    simpl. by rewrite gens_lookup by apply Hwf.
  - rewrite decide_False by done. apply wp_ret, simulates_quiet; [done|]. by constructor.
Qed.

Lemma sim_insert rec : cmd_ok s (CInsert rec) → wp (run_cmd (CInsert rec)) (simulates (CInsert rec)) s.
Proof.
  intros Hlen. simpl in *. wp_use (insert_row_spec ∅ s rec FM_NULL_SLOT 0 [] Hwf (held_in_empty s) Hlen).
  intros r s' [Hwf' C Htot Hgen Hout]. pose proof (wf_static _ _ Hwf) as Hs. pose proof (wf_static _ _ Hwf') as Hs'.
  assert (Hsub : gens s ⊆ gens s').
  { apply map_subseteq_spec. intros i g. rewrite !gens_lookup by done. intros Hg. rewrite <-Hg. apply Hgen.
    apply (so_slot _ Hs). unfold gen_at in Hg. by apply fmap_Some in Hg as (sl & -> & _). }
  assert (Hself : ∀ idx, table s !! idx = None → ∀ k, 0 ≤ k < keys s → conflict s k rec ↔ clash cf (table s) idx k rec).
  { intros idx Hnone k Hk. apply conflict_clash; try done. intros o u nb _ r'. by rewrite Hnone. }
  assert (Hbase : ∀ c rr, spec_step cf (abs s) c rr (abs s') → simulates c rr s').
  { intros c rr Hst. by split_and!. }
  destruct r as [rc idx ek]. unfold insert_outcome in Hout. simpl in *. case_decide as Hrc.
  - subst. destruct Hout as (Hidx & Hnone & Ht & _ & Hno).
    destruct (proj2 (so_slot _ Hs' idx) Hidx) as [sl Hsl].
    wp_step (λ s H, bind_Ret _ (λ sl, mret (gen sl)) _ _ _ (deref_slot_run s idx sl H)); [exact Hsl|].
    apply wp_ret, Hbase. unfold abs. rewrite Ht. constructor; simpl; [done| | |done].
    + intros k Hcl. pose proof (clash_range _ _ _ _ _ _ Hcf Hcl) as Hk. by apply (Hno k Hk), (Hself idx Hnone k Hk).
    + rewrite gens_lookup by done. unfold gen_at. by rewrite Hsl.
  - apply wp_ret, Hbase. destruct rc; try done; destruct Hout as (Ht & _ & _ & Hcase); unfold abs; rewrite Ht.
    + destruct Hcase as (k & Hk & Hconf). apply sp_insert_dup with k; [|done]. simpl.
      apply Hself; [|done|done]. rewrite table_lookup by done. apply row_at_out; [done|]. unfold FM_NULL_SLOT. lia.
    + apply sp_insert_full; [|done]. destruct Hcf as (_ & -> & _). simpl. by rewrite <-(wf_records _ _ Hwf).
    + by apply sp_insert_nomem.
Qed.

Lemma sim_update idx g old_rec new_rec : cmd_ok s (CUpdate idx g old_rec new_rec) →
  wp (run_cmd (CUpdate idx g old_rec new_rec)) (simulates (CUpdate idx g old_rec new_rec)) s.
Proof.
  intros (Hi & _ & Hlen & Hold). cbn [run_cmd]. pose proof (wf_static _ _ Hwf) as Hs.
  pose proof (current_abs s idx g Hs) as Hcur.
  wp_use (update_row_spec ∅ s idx g old_rec new_rec 0 []); [done|set_solver|done|done|done|].
  intros [rc ek] s' Hout. unfold update_outcome in Hout. simpl in *. destruct rc; try done.
  - rewrite decide_True by done. apply wp_ret. destruct Hout as (_ & Ht & Hg & U & Hno).
    split_and!; [apply U|apply U|by rewrite (up_total _ _ _ _ _ U)|].
    assert (Hg' : gens s' = gens s).
    { apply map_eq. intros i. rewrite !gens_lookup; [apply U|done|apply (up_wf _ _ _ _ _ U)]. }
    unfold abs at 2. rewrite Hg', (up_table _ _ _ _ _ U). apply (sp_update cf (abs s)); [apply Hcur; by split; [eexists|]|].
    intros k Hcl. by apply (unique_no_clash cf s s' idx k new_rec Hcf (up_config _ _ _ _ _ U) (up_wf _ _ _ _ _ U)
      (up_table _ _ _ _ _ U)).
  - rewrite decide_False by done. apply wp_ret. destruct Hout as (_ & Hgone & Q). apply simulates_quiet; [done|].
    apply sp_update_gone. rewrite Hcur. intros [[r Hr] Hg]. destruct Hgone; congruence.
  - rewrite decide_False by done. apply wp_ret. destruct Hout as [(k & _ & Hk & Hc & Hcf') Q]. apply simulates_quiet; [done|].
    destruct (decide (is_Some (table s !! idx) ∧ gen_at s idx = Some g)) as [[[r Hr] Hg]|Hn].
    + apply sp_update_dup with k; [apply Hcur; by split; [eexists|]|]. apply (conflict_clash cf s); try done.
      intros o u nb Hcfg r' Hr' Hsame. rewrite Hr in Hr'. simplify_eq. rewrite (Hold _ Hr Hg) in Hsame.
      unfold changed_key in Hc. by rewrite Hcfg in Hc.
    + apply sp_update_gone_dup with k; [by rewrite Hcur|]. apply (conflict_clash cf s); try done. intros o u nb _ r.
      rewrite table_lookup by done. rewrite row_at_out; [done..|]. unfold FM_NULL_SLOT. lia.
Qed.

Lemma sim_delete idx g : cmd_ok s (CDelete idx g) → wp (run_cmd (CDelete idx g)) (simulates (CDelete idx g)) s.
Proof.
  intros Hi. cbn [run_cmd]. pose proof (wf_static _ _ Hwf) as Hs.
  wp_use (delete_row_spec ∅ s idx g Hwf Hi); [set_solver|].
  intros rc s' [(-> & Hr & Hg & D)|(-> & Hgone & ->)].
  - rewrite decide_True by done. apply wp_ret.
    split_and!; [apply D|apply D|by rewrite (dp_total _ _ _ _ D)|].
    assert (Hg' : gens s' = alter (λ g, u32 (g + 1)) idx (gens s)).
    { apply map_eq. intros i. rewrite gens_lookup, (dp_gen _ _ _ _ D) by apply D.
      destruct (decide (i = idx)) as [->|Hne]; [by rewrite lookup_alter_eq, gens_lookup|].
      by rewrite lookup_alter_ne, gens_lookup by done. }
    unfold abs at 2. rewrite Hg', (dp_table _ _ _ _ D). apply (sp_delete cf (abs s)). by apply current_abs.
  - rewrite decide_False by done. apply wp_ret, simulates_quiet; [done|]. apply sp_delete_gone.
    rewrite current_abs by done. intros [[r Hr'] ?]. destruct Hgone; congruence.
Qed.

Lemma sim_clear : wp (run_cmd CClear) (simulates CClear) s.
Proof.
  cbn [run_cmd]. pose proof (wf_static _ _ Hwf) as Hs. wp_use (clear_spec s Hwf). intros _ s' [Hwf' C Htot Ht Hg].
  apply wp_ret. split_and!; [done|done|by rewrite Htot|].
  assert (Hg' : gens s' = (λ g, u32 (g + 1)) <$> gens s).
  { apply map_eq. intros i. rewrite lookup_fmap, !gens_lookup by (done || apply Hwf').
    destruct (decide (0 ≤ i < total_slots s)) as [Hi|Hi]; [by apply Hg|].
    assert (Hnone : ∀ t, static_ok t → total_slots t = total_slots s → gen_at t i = None).
    { intros t Hst Htt. unfold gen_at. destruct (fm_slot t i) eqn:Hsl; [|done]. exfalso. apply Hi.
      rewrite <-Htt. apply (so_slot _ Hst). by eexists. }
    rewrite !Hnone; try done. apply Hwf'. }
  unfold abs at 2. rewrite Hg', Ht. apply (sp_clear cf (abs s)).
Qed.

Lemma sim_scan : wp (run_cmd CScan) (simulates CScan) s.
Proof.
  cbn [run_cmd]. pose proof (wf_static _ _ Hwf) as Hs. pose proof (total_bound _ Hs). wp_get. rewrite slot_count_total by done.
  wp_step (scan_all_run ∅ s Hwf (S (Z.to_nat (total_slots s))) 0 []); [lia|lia|].
  apply wp_ret, simulates_quiet; [done|]. constructor. rewrite Z.sub_0_r. simpl.
  symmetry. apply map_to_list_to_map, collect_NoDup.
Qed.

Lemma sim_find key pk : cmd_ok s (CFind key pk) → wp (run_cmd (CFind key pk)) (simulates (CFind key pk)) s.
Proof.
  intros Hk. cbn [run_cmd cmd_ok] in *. pose proof (wf_static _ _ Hwf) as Hs.
  destruct (key_at_is_Some s key Hs Hk) as (kc & n & Hkc & _).
  destruct (lookup_chain ∅ s Hwf key Hk kc Hkc pk) as (h & l & Hh & Hl & Hnd & Hin & Hf & Hm).
  destruct (fm_core_find_run ∅ s Hwf key Hk kc Hkc pk [] FM_NULL_SLOT l ltac:(eauto) Hin Hf) as (buf & Hrun & Hrow).
  assert (Hck : cf_key cf key = Some (ops kc, unique kc)).
  { destruct Hcf as (_ & _ & ->). by rewrite (key_cfg_key_at _ _ _ Hkc). }
  wp_step Hrun. destruct (list_find _ l) as [[j i]|] eqn:Hfind.
  - rewrite decide_True by done. apply wp_ret, simulates_quiet; [done|]. pose proof (Hrow _ _ eq_refl) as Hr.
    eapply sp_find; [done|by simpl; rewrite table_lookup|].
    apply list_find_Some in Hfind as (_ & Hmt & _). unfold row_matches in Hmt. by rewrite Hr in Hmt.
  - rewrite decide_False by done. apply wp_ret, simulates_quiet; [done|]. eapply sp_find_none; [done|].
    simpl. intros idx rec. rewrite table_lookup by done. intros Hr Hmt. apply list_find_None in Hfind.
    assert (Hmi : row_matches s (ops kc) pk idx) by (unfold row_matches; by rewrite Hr).
    rewrite Forall_forall in Hfind. by eapply Hfind, Hmi; apply Hm.
Qed.

Lemma sim_cmd c : cmd_ok s c → wp (run_cmd c) (simulates c) s.
Proof.
  destruct c; intros Hok; [by apply sim_insert|by apply sim_update|by apply sim_delete|by apply sim_read
    |by apply sim_find|apply sim_scan|apply sim_clear].
Qed.
End simulation.

(** * Traces *)

(** [exec s tr s']: from [s], the commands of [tr] one after the other give its responses. *)
Inductive exec : FM_SHARE_CORE → list (cmd * resp) → FM_SHARE_CORE → Prop :=
| exec_nil s : exec s [] s
| exec_cons s c r s1 tr s2 :
    cmd_ok s c → run_cmd c s = Ret (r, s1) → exec s1 tr s2 → exec s ((c, r) :: tr) s2.

Inductive spec_exec (cf : spec_config) : spec_state → list (cmd * resp) → spec_state → Prop :=
| spec_nil T : spec_exec cf T [] T
| spec_cons T c r T1 tr T2 :
    spec_step cf T c r T1 → spec_exec cf T1 tr T2 → spec_exec cf T ((c, r) :: tr) T2.

Lemma exec_refines cf s tr s' : wf ∅ s → conf_of cf s → exec s tr s' →
  wf ∅ s' ∧ conf_of cf s' ∧ total_slots s ≤ total_slots s' ∧ foreign s' = foreign s ∧ spec_exec cf (abs s) tr (abs s').
Proof.
  intros Hwf Hcf He. induction He as [s|s c r s1 tr s2 Hok Hrun He IH]; [by split_and!; [..|constructor]|].
  destruct (wp_inv _ _ _ _ _ (sim_cmd cf s Hwf Hcf c Hok) Hrun) as (Hwf1 & C & Ht1 & Hstep).
  pose proof (sc_foreign _ _ C). destruct (IH Hwf1 (conf_of_config _ _ _ C Hcf)) as (Hwf2 & Hcf2 & Ht2 & Hf2 & Hs2). split_and!; [done|done|lia|congruence|].
  by econstructor.
Qed.

(** ** Generations *)

(** How often the generation of a slot has moved: a response that retires slot [idx] or all. *)
Definition retires (c : cmd) (r : resp) (idx : Z) : bool :=
  match c, r with
  | CDelete i _, RDone => bool_decide (i = idx)
  | CClear, RDone => true
  | _, _ => false
  end.

Fixpoint bumps (idx : Z) (tr : list (cmd * resp)) : nat :=
  match tr with
  | [] => 0
  | (c, r) :: tr' => (if retires c r idx then 1 else 0) + bumps idx tr'
  end.

Lemma spec_step_gen cf T c r T' idx g : spec_step cf T c r T' → sp_gens T !! idx = Some g → 0 ≤ g < 2 ^ 32 →
  sp_gens T' !! idx = Some (u32 (g + (if retires c r idx then 1 else 0))).
Proof.
  intros Hs Hg Hr. destruct Hs; simpl; rewrite ?Z.add_0_r, ?u32_small by done; try done;
    try by eapply lookup_weaken.
  - case_bool_decide as Hi; [subst; by rewrite lookup_alter_eq, Hg|].
    by rewrite lookup_alter_ne, Z.add_0_r, u32_small by done.
  - by rewrite lookup_fmap, Hg.
Qed.

Lemma u32_add_l x y : u32 (u32 x + y) = u32 (x + y).
Proof. unfold u32. apply Zplus_mod_idemp_l. Qed.

Lemma spec_exec_gen cf T tr T' idx g : spec_exec cf T tr T' → sp_gens T !! idx = Some g → 0 ≤ g < 2 ^ 32 →
  sp_gens T' !! idx = Some (u32 (g + Z.of_nat (bumps idx tr))).
Proof.
  intros He. revert g. induction He as [T|T c r T1 tr T2 Hs He IH]; intros g Hg Hr; simpl.
  - by rewrite Z.add_0_r, u32_small.
  - pose proof (spec_step_gen _ _ _ _ _ _ _ Hs Hg Hr) as H1. rewrite (IH _ H1) by apply u32_bound.
    rewrite u32_add_l. do 2 f_equal. destruct (retires c r idx); lia.
Qed.

Lemma u32_shift_ne g d : 0 ≤ g < 2 ^ 32 → 0 < d < 2 ^ 32 → u32 (g + d) ≠ g.
Proof.
  intros Hg Hd. unfold u32. destruct (decide (g + d < 2 ^ 32)); [rewrite Z.mod_small; lia|].
  rewrite <-(Z.mod_unique_pos (g + d) (2 ^ 32) 1 (g + d - 2 ^ 32)); lia.
Qed.

(** A position whose slot was retired, fewer than 2^32 times, is not current. *)
Lemma stale_not_current cf T tr T' idx g : spec_exec cf T tr T' → sp_gens T !! idx = Some g → 0 ≤ g < 2 ^ 32 →
  (0 < bumps idx tr)%nat → Z.of_nat (bumps idx tr) < 2 ^ 32 → ¬ current T' idx g.
Proof.
  intros He Hg Hr H0 H1 [_ Hc]. rewrite (spec_exec_gen _ _ _ _ _ _ He Hg Hr) in Hc. simplify_eq.
  eapply (u32_shift_ne g (Z.of_nat (bumps idx tr))); [done|lia|done].
Qed.

(** * Properties *)

(** The configuration of a share, as the abstract machine sees it. *)
Definition config_of (s : FM_SHARE_CORE) : spec_config := mkConf (keys s) (λ k, fst <$> key_cfg s k) (max_records s).

Lemma config_of_conf s : conf_of (config_of s) s.
Proof. by split_and!. Qed.

Lemma abs_empty s : static_ok s → table s = ∅ → total_slots s = 0 → abs s = mkSpec ∅ ∅.
Proof.
  intros Hs Ht H0. unfold abs. f_equal; [done|]. apply map_eq. intros i. rewrite gens_lookup, lookup_empty by done.
  unfold gen_at. destruct (fm_slot s i) eqn:Hsl; [|done]. assert (0 ≤ i < total_slots s) by (by apply (so_slot _ Hs); eexists). lia.
Qed.

(** C1: The engine refines the abstract table.  After creation, whatever commands clients ran
    (inserts, updates, deletes, reads, lookups, scans, truncates) with whatever responses, the
    abstract machine started empty has the same trace of commands and responses, and the share
    still satisfies the invariant; and from there every further command that respects the
    interface returns (no undefined behaviour, no endless loop) with a response and a state
    that the abstract machine allows. *)
Theorem engine_refines alloc_ops defs reclength_ keys_ max_records_ nbuckets_ s0 s tr s' :
  init_ok alloc_ops defs reclength_ keys_ max_records_ nbuckets_ s0 →
  (fm_core_init_share reclength_ keys_ max_records_ nbuckets_ alloc_ops;; fm_key_ops_init defs) s0 = Ret (tt, s) →
  exec s tr s' →
  wf ∅ s' ∧ spec_exec (config_of s) (mkSpec ∅ ∅) tr (abs s') ∧
  ∀ c, cmd_ok s' c → wp (run_cmd c) (λ r s'', wf ∅ s'' ∧ spec_step (config_of s) (abs s') c r (abs s'')) s'.
Proof.
  intros Hi Hrun He. destruct (init_spec _ _ _ _ _ _ _ Hi) as [Hrun' (Hwf & Ht & _ & H0)].
  rewrite Hrun in Hrun'. injection Hrun' as ->.
  destruct (exec_refines _ _ _ _ Hwf (config_of_conf _) He) as (Hwf' & Hcf' & _ & _ & Hs).
  rewrite (abs_empty _ (wf_static _ _ Hwf) Ht H0) in Hs. split_and!; [done..|]. intros c Hc.
  eapply wp_mono; [by apply sim_cmd|]. intros r s'' (? & _ & _ & ?). done.
Qed.

(** The head and the next fields of a list lie in a range when its cells do. *)
Lemma linked_range T next h l : 0 ≤ T → linked next h l → (∀ i, i ∈ l → 0 ≤ i < T) →
  FM_NULL_SLOT ≤ h < T ∧ ∀ i n, i ∈ l → next i = Some n → FM_NULL_SLOT ≤ n < T.
Proof.
  unfold FM_NULL_SLOT. intros HT. revert h. induction l as [|x l IH]; intros h Hl Hin; cbn in Hl; [unfold FM_NULL_SLOT in Hl; split; [lia|by intros ? ? []%elem_of_nil]|].
  destruct Hl as (-> & Hx & n & Hn & Hl). destruct (IH n Hl) as [Hr Hc]; [intros i Hi; apply Hin; by right|]. pose proof (Hin x (list_elem_of_here _ _)). split; [lia|].
  intros i n' [->|Hi]%elem_of_cons Hn'; [congruence|by eapply Hc].
Qed.

Lemma table_size_slots c : static_ok c → Z.of_nat (size (table c)) ≤ total_slots c.
Proof.
  intros H. assert (0 ≤ total_slots c) by (unfold total_slots; pose proof (so_cnt _ H); lia).
  rewrite <-size_dom. assert (Hs : dom (table c) ⊆ list_to_set (seqZ 0 (total_slots c))).
  { intros i [r Hr]%elem_of_dom. rewrite table_lookup in Hr by done. apply row_at_range in Hr; [|done].
    apply elem_of_list_to_set, elem_of_seqZ. lia. }
  apply subseteq_size in Hs. rewrite size_list_to_set in Hs by apply NoDup_seqZ. rewrite length_seqZ in Hs. lia.
Qed.

(** C5: A stale position stays stale.  If slot [idx] had generation [g] and was since retired
    (its row deleted, or the table truncated) fewer than 2^32 times, then whatever else
    happened - the slot may hold a new row - a read or a delete at the position [(idx, g)] reports
    the row deleted, and an update, whatever old image it is given, reports the row deleted or, when
    another row has the value the new image gives to a unique key, a duplicate; rows and generations
    stay as they are. *)
Theorem stale_position_rejected cf s tr s' idx g :
  wf ∅ s → conf_of cf s → exec s tr s' → gen_at s idx = Some g →
  (0 < bumps idx tr)%nat → Z.of_nat (bumps idx tr) < 2 ^ 32 →
  let refused r s'' := r = RErr FM_ERR_DELETED ∧ abs s'' = abs s' in
  wp (run_cmd (CRead idx g)) refused s' ∧ wp (run_cmd (CDelete idx g)) refused s' ∧
  ∀ old_rec new_rec, Z.of_nat (length old_rec) = reclength s' → Z.of_nat (length new_rec) = reclength s' →
    wp (run_cmd (CUpdate idx g old_rec new_rec)) (λ r s'', refused r s'' ∨
      r = RErr FM_ERR_DUP_KEY ∧ abs s'' = abs s' ∧ ∃ k, clash cf (table s') FM_NULL_SLOT k new_rec) s'.
Proof.
  intros Hwf Hcf He Hg H0 H1. pose proof (wf_static _ _ Hwf) as Hs.
  destruct (exec_refines _ _ _ _ Hwf Hcf He) as (Hwf' & Hcf' & Htot & _ & Hsp).
  assert (Hr : 0 ≤ g < 2 ^ 32).
  { unfold gen_at in Hg. apply fmap_Some in Hg as (sl & Hsl & ->). apply (sk_gen s), (wf_slots _ _ Hwf _ _ Hsl). }
  assert (Hi : 0 ≤ idx < total_slots s).
  { apply (so_slot _ Hs). unfold gen_at in Hg. apply fmap_Some in Hg as (sl & -> & _). by eexists. }
  assert (Hn : ¬ current (abs s') idx g).
  { eapply stale_not_current; [done| |done..]. simpl. by rewrite gens_lookup. }
  assert (Hsim : ∀ c Q, cmd_ok s' c → (∀ r s'', spec_step cf (abs s') c r (abs s'') → Q r s'') → wp (run_cmd c) Q s').
  { intros c Q Hok HQ. eapply wp_mono; [by apply (sim_cmd cf)|]. intros r s'' (_ & _ & _ & Hst). by apply HQ. }
  split_and!; [apply Hsim; [simpl; lia|]..|intros old_rec new_rec Hlo Hln; apply Hsim].
  1, 2: intros r s'' Hst; inversion Hst; subst; first [by destruct Hn|by destruct Hn; split; [eexists|]|by split; [|unfold abs; congruence]].
  - split_and!; [lia|lia|done|done|]. intros r Hr' Hg'. destruct Hn. apply current_abs; [apply Hwf'|]. by split; [eexists|].
  - intros r s'' Hst. inversion Hst; subst; try by destruct Hn.
    + left. by split; [|unfold abs; congruence].
    + right. split_and!; [done|unfold abs; congruence|by eexists].
Qed.

(** C6: No leak and no double free over the life of a share.  Create a share, run any commands
    (growing the table, failing on duplicates or a full table, truncating), free it: the free
    returns, and exactly the blocks that were live before the creation are live again. *)
Theorem lifecycle_no_leak alloc_ops defs reclength_ keys_ max_records_ nbuckets_ s0 s tr s' :
  init_ok alloc_ops defs reclength_ keys_ max_records_ nbuckets_ s0 →
  (fm_core_init_share reclength_ keys_ max_records_ nbuckets_ alloc_ops;; fm_key_ops_init defs) s0 = Ret (tt, s) →
  exec s tr s' →
  wp fm_core_free_share (λ _ s'', live (heap s'') = live (heap s0) ∧ chunks s'' = None ∧ keydef s'' = None) s'.
Proof.
  intros Hi Hrun He. destruct (init_spec _ _ _ _ _ _ _ Hi) as [Hrun' (Hwf & Ht & Hf & H0)].
  rewrite Hrun in Hrun'. injection Hrun' as ->.
  destruct (exec_refines _ _ _ _ Hwf (config_of_conf _) He) as (Hwf' & _ & _ & Hf' & _).
  destruct (free_share_run s' (static_ok_fit _ (wf_static _ _ Hwf')) (wf_heap _ _ Hwf')) as (s'' & Hrun' & Hl & ? & ? & _).
  eapply wp_run; [done|]. split; [|done]. rewrite Hl, <-Hf, <-Hf'. done.
Qed.
