(* ===== verification/Typed.v ===== *)
(** The C types of the fields of a share (src/fm_core.h [FM_SLOT], [FM_KEY_CORE], [FM_CHUNK],
    [FM_SHARE_CORE]): every operation of the core leaves every field - of live, dead and retired slots
    alike - with a value of its type. *)

From S2P Require Import Prelude CoreState CoreOps RowOps Shape Inv Chains Reads Alloc Freelist Steps Insert Delete Lockset Update Clear Lifecycle Spec.

(** * Types *)

Definition is_u8 (x : Z) : Prop := 0 ≤ x < 2 ^ 8.
Definition is_u16 (x : Z) : Prop := 0 ≤ x < 2 ^ 16.
Definition is_u32 (x : Z) : Prop := 0 ≤ x < 2 ^ 32.
Definition is_i32 (x : Z) : Prop := - 2 ^ 31 ≤ x < 2 ^ 31.
Definition is_i64 (x : Z) : Prop := - 2 ^ 63 ≤ x < 2 ^ 63.

(** The word of an [FM_SPIN]: free or taken. *)
Definition is_spin (x : Z) : Prop := x = 0 ∨ x = 1.

(** The contents of a heap block satisfy [P]. *)
Definition block_all {A} (P : A → Prop) (p : option (nat * list A)) : Prop :=
  match p with Some q => Forall P q.2 | None => True end.

Record slot_typed (sl : FM_SLOT) : Prop := {
  tp_wlock : is_spin (wlock sl);
  tp_seq : is_u32 (seq sl);
  tp_gen : is_u32 (gen sl);
  tp_free_next : is_i32 (free_next sl);
  tp_data : Forall is_u8 (data sl)
}.

Record key_typed (kc : FM_KEY_CORE) : Prop := {
  tp_nbuckets : is_u32 (nbuckets kc);
  tp_head : block_all is_i32 (head kc);
  tp_locks : block_all is_spin (locks kc)
}.

Record chunk_typed (c : FM_CHUNK) : Prop := {
  tp_slots : block_all slot_typed (slots c);
  tp_key_next : block_all (λ q, Forall is_i32 q.2) (key_next c)
}.

(** All fields but the row count. *)
Record typed (s : FM_SHARE_CORE) : Prop := {
  tp_reclength : is_u32 (reclength s);
  tp_slot_size : is_u32 (slot_size s);
  tp_keys : is_u32 (keys s);
  tp_max_records : is_u32 (max_records s);
  tp_chunk_cap : is_u32 (chunk_cap s);
  tp_chunks : block_all chunk_typed (chunks s);
  tp_chunk_cnt : is_u32 (chunk_cnt s);
  tp_free_head : is_i32 (free_head s);
  tp_struct_mutex : is_spin (struct_mutex s);
  tp_keydef : block_all key_typed (keydef s);
  tp_auto_inc : 0 ≤ auto_inc s < 2 ^ 64;
  tp_auto_key : is_u16 (auto_key s);
  tp_auto_key_type : is_u8 (auto_key_type s)
}.

(** * Arrays *)

Lemma arr_upd_Forall {A} (P : A → Prop) f i l : (∀ x, P x → P (f x)) → Forall P l → Forall P (arr_upd f i l).
Proof. intros Hf Hl. unfold arr_upd. case_decide; [|done]. apply Forall_alter; [done|]. intros x _. apply Hf. Qed.

Lemma arr_get_Forall {A} (P : A → Prop) i l x : Forall P l → arr_get l i = Some x → P x.
Proof. intros Hl. unfold arr_get. case_decide; [|done]. intros Hx. by eapply Forall_lookup_1. Qed.

Lemma block_all_upd {A} (P : A → Prop) f i p : (∀ x, P x → P (f x)) → block_all P p → block_all P (prod_map id (arr_upd f i) <$> p).
Proof. intros Hf. destruct p as [[b l]|]; [|done]. cbn. by apply arr_upd_Forall. Qed.

Lemma block_all_get {A} (P : A → Prop) p i x : block_all P p → (q ← p; arr_get q.2 i) = Some x → P x.
Proof. destruct p as [[b l]|]; [|done]. cbn. apply arr_get_Forall. Qed.

Section accessors.
Context (s : FM_SHARE_CORE) (Ht : typed s).

Lemma chunk_at_typed c ch : chunk_at s c = Some ch → chunk_typed ch.
Proof using Ht. apply block_all_get, Ht. Qed.

Lemma fm_slot_typed i sl : fm_slot s i = Some sl → slot_typed sl.
Proof using Ht.
  unfold fm_slot. destruct (chunk_at s _) as [ch|] eqn:Hc; [|done]. cbn. apply block_all_get. by eapply tp_slots, chunk_at_typed.
Qed.

Lemma fm_key_next_typed k i n : fm_key_next s k i = Some n → is_i32 n.
Proof using Ht.
  unfold fm_key_next. destruct (chunk_at s _) as [ch|] eqn:Hc; [|done]. cbn. pose proof (tp_key_next _ (chunk_at_typed _ _ Hc)) as Hk.
  destruct (key_next ch) as [[b kn]|]; [|done]. cbn in *. destruct (arr_get kn k) as [q|] eqn:Hq; [|done]. cbn.
  apply arr_get_Forall. exact (arr_get_Forall _ _ _ _ Hk Hq).
Qed.

Lemma key_at_typed k kc : key_at s k = Some kc → key_typed kc.
Proof using Ht. apply block_all_get, Ht. Qed.

Lemma head_at_typed k b h : head_at s k b = Some h → is_i32 h.
Proof using Ht.
  unfold head_at. destruct (key_at s k) as [kc|] eqn:Hk; [|done]. cbn. apply block_all_get. by eapply tp_head, key_at_typed.
Qed.

Lemma lock_at_typed k b v : lock_at s k b = Some v → is_spin v.
Proof using Ht.
  unfold lock_at. destruct (key_at s k) as [kc|] eqn:Hk; [|done]. cbn. apply block_all_get. by eapply tp_locks, key_at_typed.
Qed.
End accessors.

(** * Updates *)

Section updates.
Context (s : FM_SHARE_CORE) (Ht : typed s).
#[local] Set Default Proof Using "Ht".

Lemma upd_chunk_typed f c : (∀ ch, chunk_typed ch → chunk_typed (f ch)) → typed (upd_chunk f c s).
Proof. intros Hf. destruct Ht. constructor; try done. cbn. by apply block_all_upd. Qed.

Lemma upd_slot_typed f i : (∀ sl, slot_typed sl → slot_typed (f sl)) → typed (upd_slot f i s).
Proof. intros Hf. apply upd_chunk_typed. intros ch [? ?]. constructor; [|done]. cbn. by apply block_all_upd. Qed.

Lemma upd_next_typed v k i : is_i32 v → typed (upd_next v k i s).
Proof.
  intros Hv. apply upd_chunk_typed. intros ch [? ?]. constructor; [done|]. cbn. apply block_all_upd; [|done].
  intros [b l] Hl. cbn in *. by apply arr_upd_Forall.
Qed.

Lemma upd_key_typed f k : (∀ kc, key_typed kc → key_typed (f kc)) → typed (upd_key f k s).
Proof. intros Hf. destruct Ht. constructor; try done. cbn. by apply block_all_upd. Qed.

Lemma upd_head_typed v k b : is_i32 v → typed (upd_head v k b s).
Proof. intros Hv. apply upd_key_typed. intros kc [? ? ?]. constructor; try done. cbn. by apply block_all_upd. Qed.

Lemma upd_lock_typed v k b : is_spin v → typed (upd_lock v k b s).
Proof. intros Hv. apply upd_key_typed. intros kc [? ? ?]. constructor; try done. cbn. by apply block_all_upd. Qed.

Lemma with_free_head_typed v : is_i32 v → typed (with_free_head v s).
Proof. destruct Ht. by constructor. Qed.

Lemma with_struct_mutex_typed v : is_spin v → typed (with_struct_mutex v s).
Proof. destruct Ht. by constructor. Qed.

Lemma with_chunk_cnt_typed v : is_u32 v → typed (with_chunk_cnt v s).
Proof. destruct Ht. by constructor. Qed.

Lemma with_records_typed v : typed (with_records v s).
Proof. destruct Ht. by constructor. Qed.

Lemma with_heap_typed v : typed (with_heap v s).
Proof. destruct Ht. by constructor. Qed.
End updates.

(** * Preservation *)

(** [pres m R]: when [m] returns from a typed share, the share is typed and the result satisfies [R]. *)
Definition pres {A} (m : SM A) (R : A → Prop) : Prop := ∀ s a s', typed s → m s = Ret (a, s') → typed s' ∧ R a.

Definition any {A} (a : A) : Prop := True.

Lemma pres_ret {A} (a : A) (R : A → Prop) : R a → pres (mret a) R.
Proof. by intros HR s a' s' Ht [= <- <-]. Qed.

Lemma pres_bind {A B} (m : SM A) (f : A → SM B) R Q : pres m R → (∀ a, R a → pres (f a) Q) → pres (m ≫= f) Q.
Proof.
  intros Hm Hf s b s' Ht. unfold mbind, M_bind. destruct (m s) as [[a s1]| |] eqn:Hr; [|done|done]. intros Hb.
  destruct (Hm _ _ _ Ht Hr) as [Ht1 Ha]. by eapply Hf.
Qed.

Lemma pres_mono {A} (m : SM A) (R Q : A → Prop) : pres m R → (∀ a, R a → Q a) → pres m Q.
Proof. intros Hm HQ s a s' Ht Hr. destruct (Hm _ _ _ Ht Hr). split; [done|by apply HQ]. Qed.

Lemma pres_any {A} (m : SM A) (R : A → Prop) : pres m R → pres m any.
Proof. intros Hm. by eapply pres_mono. Qed.

Lemma pres_get : pres get typed.
Proof. by intros s a s' Ht [= <- <-]. Qed.

Lemma pres_hang {A} (R : A → Prop) : pres hang R.
Proof. by intros s a s' _ [=]. Qed.

Lemma pres_unwrap {A} (o : option A) (R : A → Prop) : (∀ a, o = Some a → R a) → pres (unwrap o) R.
Proof. destruct o as [a|]; [|by intros _ s b s' _ [=]]. intros HR s b s' Ht [= <- <-]. split; [done|by apply HR]. Qed.

Lemma pres_modify f : (∀ s, typed s → typed (f s)) → pres (modify f) any.
Proof. intros Hf s a s' Ht [= <- <-]. split; [by apply Hf|done]. Qed.

Create HintDb pres.
#[export] Hint Resolve pres_get pres_hang : pres.

(** One step of a preservation proof: follow the program, take what the hint database knows of the
    calls. *)
Ltac pres_step :=
  lazymatch goal with
  | |- pres (mbind _ _) _ => eapply pres_bind; [solve [eauto 3 with pres | eapply pres_any; eauto 3 with pres]|cbv beta; intros ??]
  | |- pres (mret _) _ => apply pres_ret
  | |- pres hang _ => apply pres_hang
  | |- pres (let _ := _ in _) _ => cbv zeta
  | |- pres (if decide ?P then _ else _) _ => destruct (decide P)
  | |- pres (match ?x with _ => _ end) _ => destruct x eqn:?
  | |- pres _ any => first [solve [eauto 3 with pres]|eapply pres_any; solve [eauto 3 with pres]]
  | |- pres _ _ => solve [eauto 3 with pres]
  | |- any _ => exact I
  end.
Ltac pres_auto := repeat pres_step.

(** ** Memory accesses and locks *)

Lemma i32_typed x : is_i32 (i32 x).
Proof. unfold is_i32, i32. pose proof (Z.mod_pos_bound (x + 2 ^ 31) (2 ^ 32) ltac:(lia)). lia. Qed.

Lemma null_typed : is_i32 FM_NULL_SLOT.
Proof. unfold is_i32, FM_NULL_SLOT. lia. Qed.

Lemma memcpy_typed n src img : Forall is_u8 src → memcpy n src = Some img → Forall is_u8 img.
Proof. unfold memcpy. case_decide; [|done]. intros Hs [= <-]. by apply Forall_take. Qed.

#[export] Hint Resolve i32_typed null_typed : pres.

Lemma deref_slot_pres i : pres (deref_slot i) slot_typed.
Proof. eapply pres_bind; [apply pres_get|]. intros s Ht. apply pres_unwrap. intros sl. by apply fm_slot_typed. Qed.

Lemma deref_key_pres k : pres (deref_key k) key_typed.
Proof. eapply pres_bind; [apply pres_get|]. intros s Ht. apply pres_unwrap. intros kc. by apply key_at_typed. Qed.

Lemma deref_next_pres k i : pres (deref_next k i) is_i32.
Proof. eapply pres_bind; [apply pres_get|]. intros s Ht. apply pres_unwrap. intros n. by apply fm_key_next_typed. Qed.

Lemma deref_head_pres k b : pres (deref_head k b) is_i32.
Proof. eapply pres_bind; [apply pres_get|]. intros s Ht. apply pres_unwrap. intros n. by apply head_at_typed. Qed.

#[export] Hint Resolve deref_slot_pres deref_key_pres deref_next_pres deref_head_pres : pres.

Lemma store_slot_pres f i : (∀ sl, slot_typed sl → slot_typed (f sl)) → pres (store_slot f i) any.
Proof. intros Hf. eapply pres_bind; [apply deref_slot_pres|]. intros _ _. apply pres_modify. intros s Ht. by apply upd_slot_typed. Qed.

Lemma store_next_pres k i v : is_i32 v → pres (store_next k i v) any.
Proof. intros Hv. eapply pres_bind; [apply deref_next_pres|]. intros _ _. apply pres_modify. intros s Ht. by apply upd_next_typed. Qed.

Lemma store_head_pres k b v : is_i32 v → pres (store_head k b v) any.
Proof. intros Hv. eapply pres_bind; [apply deref_head_pres|]. intros _ _. apply pres_modify. intros s Ht. by apply upd_head_typed. Qed.

Lemma sl_with_state_typed v sl : slot_typed sl → slot_typed (sl_with_state v sl).
Proof. intros []. by constructor. Qed.

Lemma sl_with_wlock_typed v sl : is_spin v → slot_typed sl → slot_typed (sl_with_wlock v sl).
Proof. intros ? []. by constructor. Qed.

Lemma sl_with_seq_typed v sl : slot_typed sl → slot_typed (sl_with_seq (u32 v) sl).
Proof. intros []. constructor; try done. apply u32_bound. Qed.

Lemma sl_with_gen_typed v sl : slot_typed sl → slot_typed (sl_with_gen (u32 v) sl).
Proof. intros []. constructor; try done. apply u32_bound. Qed.

Lemma sl_with_free_next_typed v sl : is_i32 v → slot_typed sl → slot_typed (sl_with_free_next v sl).
Proof. intros ? []. by constructor. Qed.

Lemma sl_with_data_typed v sl : Forall is_u8 v → slot_typed sl → slot_typed (sl_with_data v sl).
Proof. intros ? []. by constructor. Qed.

#[export] Hint Resolve store_slot_pres store_next_pres store_head_pres sl_with_state_typed sl_with_wlock_typed sl_with_seq_typed
  sl_with_gen_typed sl_with_free_next_typed sl_with_data_typed : pres.

Lemma spin_typed : is_spin 0 ∧ is_spin 1.
Proof. unfold is_spin. lia. Qed.

Lemma wlock_lock_pres i : pres (wlock_lock i) any.
Proof.
  unfold wlock_lock. pres_step. pres_step; [|pres_auto]. apply pres_modify. intros s Ht. apply upd_slot_typed; [done|].
  intros sl. apply sl_with_wlock_typed, spin_typed.
Qed.

Lemma wlock_unlock_pres i : pres (wlock_unlock i) any.
Proof. apply store_slot_pres. intros sl. apply sl_with_wlock_typed, spin_typed. Qed.

Lemma bucket_lock_pres k b : pres (bucket_lock k b) any.
Proof.
  unfold bucket_lock. pres_step. eapply pres_bind; [by apply (pres_unwrap _ any)|]. intros v _. pres_step; [|pres_auto].
  apply pres_modify. intros s Ht. apply upd_lock_typed, spin_typed; done.
Qed.

Lemma bucket_unlock_pres k b : pres (bucket_unlock k b) any.
Proof.
  unfold bucket_unlock. pres_step. eapply pres_bind; [by apply (pres_unwrap _ any)|]. intros v _.
  apply pres_modify. intros s Ht. apply upd_lock_typed, spin_typed; done.
Qed.

Lemma struct_lock_pres : pres struct_lock any.
Proof.
  unfold struct_lock. pres_step. pres_step; [|pres_auto]. apply pres_modify. intros s Ht. apply with_struct_mutex_typed, spin_typed; done.
Qed.

Lemma struct_unlock_pres : pres struct_unlock any.
Proof. apply pres_modify. intros s Ht. apply with_struct_mutex_typed, spin_typed; done. Qed.

Lemma records_pres f : pres (modify (λ s, with_records (f s) s)) any.
Proof. apply pres_modify. intros s Ht. by apply with_records_typed. Qed.

#[export] Hint Resolve wlock_lock_pres wlock_unlock_pres bucket_lock_pres bucket_unlock_pres struct_lock_pres struct_unlock_pres
  records_pres : pres.

Lemma alloc_pres n : pres (alloc n) any.
Proof. intros s a s' Ht. unfold alloc. destruct (ops_alloc s _ n); intros [= <- <-]; (split; [by apply with_heap_typed|done]). Qed.

Lemma dealloc_pres p : pres (dealloc p) any.
Proof. intros s a s' Ht. unfold dealloc. case_decide; [|done]. intros [= <- <-]. split; [by apply with_heap_typed|done]. Qed.

Lemma dealloc_list_pres {A} (l : list (nat * A)) : pres (dealloc_list l) any.
Proof. induction l as [|p l IH]; cbn [dealloc_list]; [by apply pres_ret|]. eapply pres_bind; [apply dealloc_pres|]. by intros. Qed.

#[export] Hint Resolve alloc_pres dealloc_pres dealloc_list_pres : pres.

(** ** Slots *)

Lemma read_row_pres idx c g buf : Forall is_u8 buf → pres (fm_core_read_row idx c g buf) (λ r, Forall is_u8 r.2).
Proof.
  intros Hb. unfold fm_core_read_row. cbn [read_row_loop]. pres_step. pres_step; [pres_auto; done|].
  pres_step; [pres_auto; done|]. pres_step; [pres_auto|]. pres_step.
  eapply pres_bind; [apply (pres_unwrap _ (Forall is_u8)); intros img; apply memcpy_typed, H|]. intros img Himg. cbv beta. pres_step.
  pres_step; [pres_auto|]. by pres_step.
Qed.

#[local] Transparent fresh_slots null_slots.

Lemma fresh_slots_typed : Forall slot_typed fresh_slots.
Proof.
  unfold fresh_slots. apply Forall_replicate. constructor; cbn; [apply spin_typed|unfold is_u32; lia|unfold is_u32; lia|apply null_typed|constructor].
Qed.

Lemma null_slots_typed : Forall is_i32 null_slots.
Proof. unfold null_slots. apply Forall_replicate, null_typed. Qed.

#[local] Opaque fresh_slots null_slots.

Lemma grow_key_next_pres n acc : Forall (λ q, Forall is_i32 q.2) acc →
  pres (grow_key_next n acc) (λ r, match r with Some kn => Forall (λ q, Forall is_i32 q.2) kn | None => True end).
Proof.
  revert acc. induction n as [|n IH]; intros acc Ha; cbn [grow_key_next]; [by apply pres_ret|]. pres_step. pres_step; [|by pres_auto].
  apply IH. apply Forall_app. split; [done|]. constructor; [|done]. apply null_slots_typed.
Qed.

Lemma upd_chunk_pres f c : (∀ ch, chunk_typed ch → chunk_typed (f ch)) → pres (modify (upd_chunk f c)) any.
Proof. intros Hf. apply pres_modify. intros s Ht. by apply upd_chunk_typed. Qed.

Lemma chunk_cnt_pres v : pres (modify (with_chunk_cnt (u32 v))) any.
Proof. apply pres_modify. intros s Ht. apply with_chunk_cnt_typed; [done|apply u32_bound]. Qed.

Lemma free_head_pres v : is_i32 v → pres (modify (with_free_head v)) any.
Proof. intros Hv. apply pres_modify. intros s Ht. by apply with_free_head_typed. Qed.

#[export] Hint Resolve chunk_cnt_pres free_head_pres : pres.

Ltac chunk_step := eapply pres_bind; [apply upd_chunk_pres; intros ch []; constructor; cbn; solve [done|apply fresh_slots_typed]|cbv beta; intros ??].

Lemma grow_chunk_keys_pres p k : pres (grow_chunk_keys p k) any.
Proof.
  unfold grow_chunk_keys. pres_step. pres_step. pres_step.
  - eapply pres_bind; [by apply grow_key_next_pres|]. intros [kn|] Hkn; [|pres_step; chunk_step; pres_step; chunk_step; pres_auto].
    chunk_step. pres_auto.
  - chunk_step. pres_step. chunk_step. pres_auto.
Qed.

Lemma grow_chunk_pres : pres fm_core_grow_chunk any.
Proof.
  unfold fm_core_grow_chunk. pres_step. cbv zeta. pres_step; [pres_auto|]. eapply pres_bind; [by apply (pres_unwrap _ any)|].
  intros _ _. pres_step. pres_step; chunk_step; [|pres_auto]. pres_step; [pres_auto|apply grow_chunk_keys_pres].
Qed.

Lemma free_slot_pres i : is_i32 i → pres (fm_core_free_slot i) any.
Proof.
  intros Hi. unfold fm_core_free_slot. eapply pres_bind; [apply pres_get|]. intros s Ht. pose proof (tp_free_head _ Ht).
  eapply pres_bind; [|intros _ _; by apply free_head_pres]. apply store_slot_pres. intros sl. by apply sl_with_free_next_typed.
Qed.

#[export] Hint Resolve grow_chunk_pres free_slot_pres : pres.

Lemma push_down_pres n i : pres (push_down n i) any.
Proof. revert i. induction n as [|n IH]; intros i; cbn [push_down]; [by apply pres_ret|]. pres_step. apply IH. Qed.

#[export] Hint Resolve push_down_pres : pres.

Lemma alloc_slot_pres : pres fm_core_alloc_slot is_i32.
Proof.
  unfold fm_core_alloc_slot. eapply pres_bind; [apply pres_get|]. intros s Ht. pose proof (tp_free_head _ Ht).
  pres_step; [|pres_auto; auto with pres]. cbv zeta. eapply pres_bind; [apply deref_slot_pres|]. intros sl Hsl.
  eapply pres_bind; [apply free_head_pres, Hsl|]. intros _ _. by apply pres_ret.
Qed.

#[export] Hint Resolve alloc_slot_pres : pres.

(** ** Chains and lookups *)

Lemma key_bucket_pres kc rec : pres (fm_core_key_bucket kc rec) any.
Proof. eapply pres_bind; [by apply (pres_unwrap _ any)|]. intros f _. by apply pres_ret. Qed.

Lemma link_get_pres k l : pres (link_get k l) is_i32.
Proof. destruct l; cbn [link_get]; auto with pres. Qed.

Lemma link_set_pres k l v : is_i32 v → pres (link_set k l v) any.
Proof. intros Hv. destruct l; cbn [link_set]; auto with pres. Qed.

#[export] Hint Resolve key_bucket_pres link_get_pres link_set_pres : pres.

Lemma unlink_loop_pres fuel k idx l : pres (unlink_loop fuel k idx l) any.
Proof. revert l. induction fuel as [|n IH]; intros l; cbn [unlink_loop]; [apply pres_hang|]. pres_step. pres_step; [pres_auto|]. pres_step; [pres_auto|apply IH]. Qed.

Lemma chain_unlink_pres k b idx : pres (fm_core_chain_unlink k b idx) any.
Proof. unfold fm_core_chain_unlink. pres_step. apply unlink_loop_pres. Qed.

Lemma chain_link_pres k b idx : is_i32 idx → pres (fm_core_chain_link k b idx) any.
Proof. intros Hi. unfold fm_core_chain_link. pres_auto. Qed.

#[export] Hint Resolve read_row_pres chain_unlink_pres chain_link_pres : pres.

Lemma scan_loop_pres fuel bound pos buf : Forall is_u8 buf → pres (scan_loop fuel bound pos buf) (λ r, Forall is_u8 r.2).
Proof.
  revert pos buf. induction fuel as [|n IH]; intros pos buf Hb; cbn [scan_loop]; [apply pres_hang|]. pres_step; [|by apply pres_ret]. cbv zeta.
  eapply pres_bind; [by apply read_row_pres|]. intros [rc b] Hb'. pres_step; [by apply pres_ret|by apply IH].
Qed.

Lemma scan_all_pres fuel pos buf : Forall is_u8 buf → pres (scan_all fuel pos buf) any.
Proof.
  revert pos buf. induction fuel as [|n IH]; intros pos buf Hb; cbn [scan_all]; [apply pres_hang|].
  eapply pres_bind; [eapply pres_bind; [apply pres_get|]; intros s _; by apply scan_loop_pres|]. intros [[rc p] b] Hb'. cbv beta iota.
  pres_step; [|by apply pres_ret]. eapply pres_bind; [by apply IH|]. intros r _. by apply pres_ret.
Qed.

Lemma matches_pres kc P `{Decision P} buf pk : pres (if decide P then key_matches kc buf pk else mret false) any.
Proof. case_decide; [|by apply pres_ret]. eapply pres_bind; [by apply (pres_unwrap _ any)|]. intros f _. by apply pres_ret. Qed.

Lemma find_loop_pres fuel kc key pk h buf : Forall is_u8 buf → pres (find_loop fuel kc key pk h buf) (λ r, Forall is_u8 r.2).
Proof.
  revert h buf. induction fuel as [|n IH]; intros h buf Hb; cbn [find_loop]; [apply pres_hang|]. pres_step; [by apply pres_ret|].
  eapply pres_bind; [by apply read_row_pres|]. intros [rc b] Hb'. cbv beta iota.
  eapply pres_bind; [apply matches_pres|]. intros ok _. pres_step; [by apply pres_ret|]. pres_step. by apply IH.
Qed.

Lemma find_pres key pk buf out : Forall is_u8 buf → pres (fm_core_find key pk buf out) any.
Proof.
  intros Hb. unfold fm_core_find. pres_step. eapply pres_bind; [by apply (pres_unwrap _ any)|]. intros f _. cbv zeta. pres_step. pres_step. pres_step.
  eapply pres_bind; [by apply find_loop_pres|]. intros [r b] _. pres_step. pres_auto.
Qed.

(** ** Insert *)

Lemma same_pres kc P `{Decision P} x rec : pres (if decide P then f ← unwrap (cmp_rec_rec (ops kc)); mret (bool_decide (f x rec = 0)) else mret false) any.
Proof. case_decide; [|by apply pres_ret]. eapply pres_bind; [by apply (pres_unwrap _ any)|]. intros f _. by apply pres_ret. Qed.

Lemma dup_loop_pres fuel kc k rec h scratch : Forall is_u8 scratch → pres (dup_loop fuel kc k rec h scratch) any.
Proof.
  revert h scratch. induction fuel as [|n IH]; intros h buf Hb; cbn [dup_loop]; [apply pres_hang|]. pres_step; [by apply pres_ret|].
  eapply pres_bind; [by apply read_row_pres|]. intros [rc b] Hb'. cbv beta iota.
  eapply pres_bind; [apply same_pres|]. intros ok _. pres_step; [by apply pres_ret|]. pres_step. by apply IH.
Qed.

Lemma dup_check_pres k b rec scratch : Forall is_u8 scratch → pres (fm_core_dup_check k b rec scratch) any.
Proof. intros Hs. unfold fm_core_dup_check. pres_step. pres_step; [|pres_auto]. pres_step. pres_step. by apply dup_loop_pres. Qed.

Lemma insert_rollback_pres k rec idx : pres (insert_rollback k rec idx) any.
Proof. induction k as [|k IH]; cbn [insert_rollback]; [by apply pres_ret|]. do 5 pres_step. exact IH. Qed.

#[export] Hint Resolve dup_check_pres insert_rollback_pres : pres.

Lemma insert_keys_pres n k rec scratch idx : Forall is_u8 scratch → is_i32 idx → pres (insert_keys n k rec scratch idx) any.
Proof.
  intros Hs Hi. revert k. induction n as [|n IH]; intros k; cbn [insert_keys]; [by apply pres_ret|]. pres_step. pres_step. pres_step.
  eapply pres_bind; [instantiate (1 := any); pres_auto|]. intros dup _. pres_step; [pres_auto|]. pres_step. pres_step. apply IH.
Qed.

#[export] Hint Resolve insert_keys_pres : pres.

Lemma insert_row_pres rec out errkey scratch : Forall is_u8 rec → Forall is_u8 scratch → pres (fm_core_insert_row rec out errkey scratch) any.
Proof.
  intros Hr Hs. unfold fm_core_insert_row. pres_step. pres_step. pres_step; [pres_auto|]. pres_step.
  eapply pres_bind; [apply (pres_unwrap _ (Forall is_u8)); intros img; by apply memcpy_typed|]. intros img Hm.
  eapply pres_bind; [apply store_slot_pres; auto with pres|]. intros _ _. pres_step. pres_step; [pres_auto|].
  eapply pres_bind; [apply store_slot_pres; auto with pres|]. intros _ _. pres_auto.
Qed.

(** ** Update *)

Lemma write_image_pres idx rec : Forall is_u8 rec → pres (fm_core_write_image idx rec) any.
Proof.
  intros Hr. unfold fm_core_write_image. eapply pres_bind; [apply store_slot_pres; auto with pres|]. intros _ _. pres_step.
  eapply pres_bind; [apply (pres_unwrap _ (Forall is_u8)); intros img; by apply memcpy_typed|]. intros img Hm.
  eapply pres_bind; [apply store_slot_pres; auto with pres|]. intros _ _. apply store_slot_pres. auto with pres.
Qed.

Lemma collect_changed_pres n k old_rec new_rec changed : pres (collect_changed n k old_rec new_rec changed) any.
Proof.
  revert k changed. induction n as [|n IH]; intros k changed; cbn [collect_changed]; [by apply pres_ret|]. pres_step; [|pres_auto]. pres_step.
  eapply pres_bind; [instantiate (1 := any)|intros c _; apply IH]. pres_step; [|pres_auto].
  eapply pres_bind; [by apply (pres_unwrap _ any)|]. intros f _. pres_auto.
Qed.

Lemma build_lockset_pres changed old_rec new_rec ls : pres (build_lockset changed old_rec new_rec ls) any.
Proof. revert ls. induction changed as [|k l IH]; intros ls; cbn [build_lockset]; [by apply pres_ret|]. do 3 pres_step. cbv zeta. apply IH. Qed.

Lemma lock_all_pres prev ls : pres (lock_all prev ls) any.
Proof.
  revert prev. induction ls as [|p ls IH]; intros prev; cbn [lock_all]; [by apply pres_ret|].
  eapply pres_bind; [instantiate (1 := any); pres_auto|]. intros _ _. apply IH.
Qed.

Lemma unlock_all_pres prev ls : pres (unlock_all prev ls) any.
Proof. revert prev. induction ls as [|p ls IH]; intros prev; cbn [unlock_all]; [by apply pres_ret|]. eapply pres_bind; [apply IH|]. intros _ _. pres_auto. Qed.

Lemma dup_checks_pres changed new_rec scratch : Forall is_u8 scratch → pres (dup_checks changed new_rec scratch) any.
Proof. intros Hs. induction changed as [|k l IH]; cbn [dup_checks]; [by apply pres_ret|]. do 3 pres_step. pres_step; [pres_auto|apply IH]. Qed.

Lemma relink_pres changed old_rec new_rec idx : is_i32 idx → pres (relink changed old_rec new_rec idx) any.
Proof. intros Hi. induction changed as [|k l IH]; cbn [relink]; [by apply pres_ret|]. do 5 pres_step. apply IH. Qed.

#[export] Hint Resolve write_image_pres collect_changed_pres build_lockset_pres lock_all_pres unlock_all_pres dup_checks_pres relink_pres : pres.

Lemma update_row_pres idx g old_rec new_rec errkey scratch : is_i32 idx → Forall is_u8 new_rec → Forall is_u8 scratch →
  pres (fm_core_update_row idx g old_rec new_rec errkey scratch) any.
Proof. intros Hi Hn Hs. unfold fm_core_update_row. pres_auto. Qed.

(** ** Delete *)

Lemma unlink_keys_pres n k scratch idx : pres (unlink_keys n k scratch idx) any.
Proof. revert k. induction n as [|n IH]; intros k; cbn [unlink_keys]; [by apply pres_ret|]. do 5 pres_step. apply IH. Qed.

#[export] Hint Resolve unlink_keys_pres : pres.

Lemma delete_tail_pres idx : is_i32 idx → pres (delete_tail idx) any.
Proof.
  intros Hi. unfold delete_tail. pres_step. pres_step. eapply pres_bind; [by apply (pres_unwrap _ any)|]. intros img _. pres_step.
  do 2 (eapply pres_bind; [apply store_slot_pres; auto with pres|]; intros _ _). pres_auto.
Qed.

#[export] Hint Resolve delete_tail_pres : pres.

Lemma delete_row_pres idx g : is_i32 idx → pres (fm_core_delete_row idx g) any.
Proof.
  intros Hi. unfold fm_core_delete_row. pres_step. pres_step. pres_step; [pres_auto|].
  eapply pres_bind; [apply store_slot_pres; auto with pres|]. intros _ _. pres_auto.
Qed.

(** ** Clear *)

Lemma clear_buckets_pres n k b : pres (clear_buckets n k b) any.
Proof. revert b. induction n as [|n IH]; intros b; cbn [clear_buckets]; [by apply pres_ret|]. do 3 pres_step. apply IH. Qed.

#[export] Hint Resolve clear_buckets_pres : pres.

Lemma clear_keys_pres n k : pres (clear_keys n k) any.
Proof. revert k. induction n as [|n IH]; intros k; cbn [clear_keys]; [by apply pres_ret|]. do 2 pres_step. apply IH. Qed.

Lemma clear_slots_pres n i : pres (clear_slots n i) any.
Proof.
  revert i. induction n as [|n IH]; intros i; cbn [clear_slots]; [by apply pres_ret|]. pres_step.
  do 2 (eapply pres_bind; [apply store_slot_pres; auto with pres|]; intros _ _). pres_step. apply IH.
Qed.

Lemma push_up_pres n i : pres (push_up n i) any.
Proof. revert i. induction n as [|n IH]; intros i; cbn [push_up]; [by apply pres_ret|]. pres_step. apply IH. Qed.

#[export] Hint Resolve clear_keys_pres clear_slots_pres push_up_pres : pres.

Lemma clear_pres : pres fm_core_clear any.
Proof. unfold fm_core_clear. pres_step. pres_step. pres_step. cbv zeta. do 3 pres_step. eapply pres_bind; [apply (records_pres (λ _, 0))|]. intros _ _. pres_auto. Qed.

(** ** Creation and commands *)

Lemma align8_typed x : is_u32 (fm_align8 x).
Proof.
  unfold is_u32, fm_align8. set (a := u32 (x + 7)). set (m := u32 (Z.lnot 7)).
  assert (Ha : u32 a = a) by (apply u32_small, u32_bound). assert (E : Z.land a m = u32 (Z.land a m)); [|rewrite E; apply u32_bound].
  unfold u32 in *. rewrite <-!Z.land_ones in * by lia. rewrite <-Z.land_assoc, (Z.land_comm m), Z.land_assoc. by rewrite Ha.
Qed.

Lemma init_fields_typed alloc_ops reclength_ keys_ max_records_ s0 : is_u32 reclength_ → 0 ≤ keys_ ≤ 64 → 0 ≤ max_records_ ≤ 2 ^ 31 →
  typed (init_fields alloc_ops reclength_ keys_ max_records_ s0).
Proof.
  intros Hr Hk Hm. constructor; cbn; try done; try (unfold is_u32, is_i32, is_u16, is_u8, FM_NULL_SLOT; lia); try apply spin_typed; [apply align8_typed| |].
  - unfold is_u32. case_decide; lia.
  - unfold is_u32. rewrite FM_CHUNK_SIZE_eq. set (y := _ + 4096 - 1). pose proof (u32_bound y). split; [apply Z.div_pos; lia|].
    apply Z.div_lt_upper_bound; lia.
Qed.

Lemma created_typed alloc_ops defs reclength_ keys_ max_records_ nbuckets_ s0 :
  init_ok alloc_ops defs reclength_ keys_ max_records_ nbuckets_ s0 → is_u32 reclength_ →
  typed (created alloc_ops defs reclength_ keys_ max_records_ nbuckets_ s0).
Proof.
  intros [? Hk Hm (n & Hnb & Hn) ? ? _ _] Hr. assert (0 < 2 ^ n < 2 ^ 32) by (split; [lia|by apply Z.pow_lt_mono_r; lia]).
  pose proof (init_fields_typed alloc_ops reclength_ keys_ max_records_ s0 Hr Hk Hm) as Hf.
  assert (Hcs : ∀ m b, block_all chunk_typed (Some (b, replicate m (mkChunk None None)))) by (intros; by apply Forall_replicate).
  unfold created. cbv zeta. set (s1 := init_fields _ _ _ _ s0) in *. clearbody s1. case_decide; destruct Hf; constructor; try done; try apply Hcs.
  cbn. apply Forall_map, Forall_forall. intros k _. rewrite Hnb. constructor; cbn.
  - unfold is_u32. lia.
  - apply Forall_replicate, null_typed.
  - apply Forall_replicate, spin_typed.
Qed.

(** The records of a command are bytes. *)
Definition cmd_typed (c : cmd) : Prop :=
  match c with CInsert rec => Forall is_u8 rec | CUpdate _ _ _ new_rec => Forall is_u8 new_rec | _ => True end.

Lemma run_cmd_pres s c : static_ok s → cmd_ok s c → cmd_typed c → pres (run_cmd c) any.
Proof.
  intros Hs Hok Hc. pose proof (total_bound _ Hs). destruct c; cbn [run_cmd cmd_ok cmd_typed] in *.
  - eapply pres_bind; [by apply insert_row_pres|]. intros r _. pres_step; [|pres_auto]. unfold fm_slot_gen.
    eapply pres_bind; [eapply pres_bind; [apply deref_slot_pres|intros; by apply (pres_ret _ any)]|]. intros g _. pres_auto.
  - eapply pres_bind; [apply update_row_pres; [unfold is_i32; lia|done|done]|]. intros r _. pres_auto.
  - eapply pres_bind; [apply delete_row_pres; unfold is_i32; lia|]. intros r _. pres_auto.
  - eapply pres_bind; [by apply read_row_pres|]. intros [rc rec] _. pres_auto.
  - eapply pres_bind; [by apply find_pres|]. intros [[rc i] rec] _. pres_auto.
  - pres_step. eapply pres_bind; [by apply scan_all_pres|]. intros rows _. pres_auto.
  - eapply pres_bind; [apply clear_pres|]. intros _ _. pres_auto.
Qed.

Lemma exec_typed s tr s' : wf ∅ s → exec s tr s' → typed s → Forall cmd_typed tr.*1 → typed s'.
Proof.
  intros Hwf He. induction He as [s|s c r s1 tr s2 Hok Hrun He IH]; [done|]. intros Ht [Hc Htr]%Forall_cons.
  destruct (wp_inv _ _ _ _ _ (sim_cmd (config_of s) s Hwf (config_of_conf s) c Hok) Hrun) as (Hwf1 & _).
  apply IH; [done| |done]. by destruct (run_cmd_pres s c (wf_static _ _ Hwf) Hok Hc s r s1 Ht Hrun).
Qed.

(** What the invariant adds between operations: no lock is taken, sequence words are even, links are slot
    numbers or the null slot, stored rows have the record length, the row count fits. *)
Definition fields_tight (s : FM_SHARE_CORE) : Prop :=
  (struct_mutex s = 0 ∧ ∀ k b v, lock_at s k b = Some v → v = 0) ∧
  (∀ i sl, fm_slot s i = Some sl → 0 ≤ i < 2 ^ 31 ∧ wlock sl = 0 ∧ 0 ≤ seq sl < 2 ^ 32 ∧ Z.even (seq sl) = true ∧ 0 ≤ gen sl < 2 ^ 32 ∧
     (state sl = FM_SLOT_ACTIVE → Z.of_nat (length (data sl)) = reclength s)) ∧
  (∀ k b h, 0 ≤ k < keys s → head_at s k b = Some h → FM_NULL_SLOT ≤ h < 2 ^ 31) ∧
  (∀ k i n rec, 0 ≤ k < keys s → table s !! i = Some rec → fm_key_next s k i = Some n → FM_NULL_SLOT ≤ n < 2 ^ 31) ∧
  FM_NULL_SLOT ≤ free_head s < 2 ^ 31 ∧
  0 ≤ records s ≤ 2 ^ 31 ∧ 0 ≤ chunk_cnt s ≤ chunk_cap s ∧ chunk_cap s ≤ 2 ^ 19 ∧ 0 < max_records s ≤ 2 ^ 31 ∧ 0 ≤ keys s ≤ 64.

Lemma wf_tight s : wf ∅ s → fields_tight s.
Proof.
  intros Hwf. pose proof (wf_static _ _ Hwf) as Hs. pose proof (total_bound _ Hs) as Ht. destruct (so_keys _ Hs), (so_cnt _ Hs), (so_cap_max _ Hs).
  pose proof (so_cap _ Hs). pose proof (so_max _ Hs).
  assert (Hidx : ∀ k b i, indexed s k b i → 0 ≤ i < total_slots s) by (intros k b i (r & Hr & _); by eapply row_at_range).
  assert (Hchain : ∀ k b h, 0 ≤ k < keys s → head_at s k b = Some h → FM_NULL_SLOT ≤ h < 2 ^ 31 ∧
    ∀ i n, indexed s k b i → fm_key_next s k i = Some n → FM_NULL_SLOT ≤ n < 2 ^ 31).
  { intros k b h Hk Hh. destruct (wf_keys _ _ Hwf k Hk b h Hh) as (l & Hl & _ & Hin).
    destruct (linked_range (total_slots s) _ _ _ ltac:(lia) Hl) as [Hr Hc]; [intros i Hi%Hin; by eapply Hidx|]. split; [lia|].
    intros i n Hi Hn. specialize (Hc i n (proj2 (Hin i) Hi) Hn). lia. }
  split; [|split; [|split; [|split; [|split]]]].
  - by destruct (wf_locks _ _ Hwf) as (? & ? & _).
  - intros i sl Hsl. pose proof (proj1 (so_slot _ Hs i) ltac:(by eexists)). destruct (wf_slots _ _ Hwf i sl Hsl) as [[Hq He] Hg _ Hd].
    destruct (wf_locks _ _ Hwf) as (_ & _ & Hw). split; [lia|]. split; [by rewrite (Hw _ _ Hsl), decide_False by set_solver|]. split; [done|]. split; [|done].
    rewrite Zeven_mod. change 1 with (Z.ones 1) in He. rewrite Z.land_ones in He by lia. change (2 ^ 1) with 2 in He. by rewrite He.
  - intros k b h Hk Hh. exact (proj1 (Hchain k b h Hk Hh)).
  - intros k i n rec Hk Hr Hn. rewrite table_lookup in Hr by done. destruct (bucket_of_range s k rec Hs Hk) as [[h Hh] _].
    eapply (proj2 (Hchain k _ h Hk Hh)); [|exact Hn]. by exists rec.
  - destruct (wf_free _ _ Hwf) as (fl & Hl & _ & Hin & _). destruct (linked_range (total_slots s) _ _ _ ltac:(lia) Hl) as [Hr _]; [intros i Hi; by apply Hin|]. lia.
  - pose proof (wf_records _ _ Hwf). pose proof (table_size_slots s Hs). split_and!; lia.
Qed.

(** Every field of a share between operations: a value of its C type, and what the invariant adds. *)
Definition fields_typed (s : FM_SHARE_CORE) : Prop := typed s ∧ is_i64 (records s) ∧ fields_tight s.

(** C7: Fields keep their types.  After creation and any commands, every field holds a value of its
    C type, so the integers of the model are those of the machine: the configuration, the counters, the
    freelist head and the auto-increment fields of the share; sequence word, generation, freelist link,
    lock word and record bytes of every slot, live or not; every chain link of every key; bucket number,
    chain heads and lock words of every key.  Besides, no lock is left taken - neither the structure
    mutex nor a bucket's nor a slot's -, sequence words are even, chain heads and the links of live rows
    are slot numbers below 2^31 or the null slot, the row count is between 0 and 2^31, and a stored row
    has the record length.  The record length given is 32-bit and the records given are bytes. *)
Theorem fields_fit alloc_ops defs reclength_ keys_ max_records_ nbuckets_ s0 s tr s' :
  init_ok alloc_ops defs reclength_ keys_ max_records_ nbuckets_ s0 → is_u32 reclength_ →
  (fm_core_init_share reclength_ keys_ max_records_ nbuckets_ alloc_ops;; fm_key_ops_init defs) s0 = Ret (tt, s) →
  exec s tr s' → Forall cmd_typed tr.*1 → fields_typed s'.
Proof.
  intros Hi Hr Hrun He Htr. destruct (init_spec _ _ _ _ _ _ _ Hi) as [Hrun' (Hwf & _)]. rewrite Hrun in Hrun'. injection Hrun' as ->.
  destruct (exec_refines _ _ _ _ Hwf (config_of_conf _) He) as [Hwf' _]. pose proof (wf_tight _ Hwf') as Hti.
  split; [|split; [|done]]; [by eapply exec_typed; [..|apply created_typed|]|].
  destruct Hti as (_ & _ & _ & _ & _ & ? & _). unfold is_i64. lia.
Qed.
