(* ===== verification/AutoInc.v ===== *)
(** Auto increment (src/fm_core.h [fm_core_auto_inc_reserve], [fm_core_auto_inc_observe]; the
    wrappers of src/fm_data.cc): reserving intervals of values from the shared counter, alone
    and by threads that race on the compare-and-exchange. *)

From S2P Require Import Prelude CoreState CoreOps.

(** * One pass of the reservation loop *)

(** The defaults that the function substitutes for zero arguments. *)
Definition nonzero (x : Z) : Z := if decide (x = 0) then 1 else x.

(** From the counter value [cur]: the first value and the last value of the interval, or
    [None] where the source returns 0.  All arithmetic is modulo 2^64. *)
Definition reserve_pass (offset inc nb cur : Z) : option (Z * Z) :=
  let v := u64 (cur + 1) in
  if decide (v = 0) then None else
  v ← (if decide (1 < inc) then
         let r := if decide (offset < v) then u64 (v - offset) else 0 in
         let steps := u64 (u64 (r + inc) - 1) / inc in
         let v2 := u64 (offset + u64 (steps * inc)) in
         if decide (v2 < v) then None else
         let v := v2 in
         if decide (v ≤ cur) then
           let v := u64 (cur + inc) in
           if decide (v ≤ cur) then None else
           let steps2 := if decide (offset < v) then u64 (v - offset) else 0 in
           let v3 := u64 (offset + u64 (u64 (u64 (steps2 + inc) - 1) / inc * inc)) in
           if decide (v3 < v) then None else
           if decide (v3 = 0) then None else Some v3
         else Some v
       else Some v);
  let last := u64 (v + u64 (u64 (nb - 1) * inc)) in
  if decide (last < v) then None else Some (v, last).

(** The function with nobody else between the load and the exchange: the returned value and
    [*reserved] when it is written. *)
Definition fm_core_auto_inc_reserve (offset inc nb : Z) : SM (Z * option Z) :=
  s ← get;
  match reserve_pass (nonzero offset) (nonzero inc) (nonzero nb) (auto_inc s) with
  | None => mret (0, None)
  | Some (v, last) => modify (with_auto_inc last);; mret (v, Some (nonzero nb))
  end.

Definition fm_core_auto_inc_observe (value : Z) : SM () :=
  s ← get; if decide (auto_inc s < value) then modify (with_auto_inc value) else mret tt.

(** [fm_get_auto_increment]: the first value and [*nb_reserved_values]. *)
Definition fm_get_auto_increment (offset increment nb_desired_values : Z) : SM (Z * Z) :=
  r ← fm_core_auto_inc_reserve offset increment nb_desired_values;
  if decide (r.1 = 0) then mret (u64 (Z.lnot 0), 0)
  else mret (r.1, match r.2 with Some n => n | None => 0 end).

(** [fm_set_auto_increment]: [value] is the next value to use. *)
Definition fm_set_auto_increment (value : Z) : SM () :=
  let next := if decide (value ≠ 0) then u64 (value - 1) else 0 in
  s ← get; if decide (auto_inc s < next) then modify (with_auto_inc next) else mret tt.

Lemma observe_run value s : fm_core_auto_inc_observe value s =
  Ret (tt, if decide (auto_inc s < value) then with_auto_inc value s else s).
Proof. unfold fm_core_auto_inc_observe, mbind, M_bind, get. by case_decide. Qed.

(** * What one pass computes *)

Definition is_u64 (x : Z) : Prop := 0 ≤ x < 2 ^ 64.

(** Rounding up to the next value congruent to [offset]. *)
Lemma ceil_div r inc : 0 < inc → 0 ≤ r → r ≤ (r + inc - 1) / inc * inc < r + inc.
Proof.
  intros Hi Hr. pose proof (Z.div_mod (r + inc - 1) inc). pose proof (Z.mod_pos_bound (r + inc - 1) inc). nia.
Qed.

Section pass.
Context (offset inc nb cur : Z).
Context (Hoff : is_u64 offset) (Hinc : is_u64 inc) (Hnb : is_u64 nb) (Hcur : is_u64 cur).
Context (Hoff0 : 0 < offset) (Hinc0 : 0 < inc) (Hnb0 : 0 < nb).
#[local] Set Default Proof Using "Type*".

(** The first value: above the counter, and the least one in the residue class of the offset. *)
Definition first_ok (v : Z) : Prop :=
  cur < v ∧ (inc = 1 → v = cur + 1) ∧
  (1 < inc → offset ≤ v ∧ v mod inc = offset mod inc ∧
     ∀ w, cur < w → offset ≤ w → w mod inc = offset mod inc → v ≤ w).

(** The first value, computed without wrapping. *)
Definition first_value : Z :=
  if decide (1 < inc) then offset + (Z.max 0 (cur + 1 - offset) + inc - 1) / inc * inc else cur + 1.

Lemma first_value_ok : first_ok first_value.
Proof.
  unfold first_value, first_ok. case_decide as H1; [|split_and!; lia]. set (r := Z.max 0 (cur + 1 - offset)).
  pose proof (ceil_div r inc ltac:(lia) ltac:(lia)) as Hc. set (k := (r + inc - 1) / inc) in *. assert (0 ≤ k) by (apply Z.div_pos; lia).
  split_and!; [lia|lia|]. intros _. split_and!; [nia|by rewrite Z.mod_add by lia|]. intros w Hw How Hmod.
  assert (∃ j, w = offset + j * inc) as [j ->].
  { exists ((w - offset) / inc). pose proof (Z.div_mod (w - offset) inc ltac:(lia)).
    assert ((w - offset) mod inc = 0) by (rewrite Zminus_mod, Hmod, Z.sub_diag; apply Z.mod_0_l; lia). lia. }
  assert (k ≤ j); [|nia]. assert (r ≤ j * inc) by nia. unfold k. apply Z.lt_succ_r, Z.div_lt_upper_bound; nia.
Qed.

Lemma first_ok_unique v : first_ok v → v = first_value.
Proof.
  intros (Hc & H1 & Hn). destruct first_value_ok as (Hc' & H1' & Hn'). destruct (decide (inc = 1)) as [E|E]; [rewrite H1, H1' by done; done|].
  destruct (Hn ltac:(lia)) as (? & ? & Hl), (Hn' ltac:(lia)) as (? & ? & Hl'). apply Z.le_antisymm; auto.
Qed.

(** The distance from the first to the last value, as the source computes it. *)
Definition reach : Z := u64 ((nb - 1) * inc).

(** The counter is so close to the top that rounding up to the increment wraps around. *)
Definition near_top : Prop := 1 < inc ∧ 2 ^ 64 ≤ cur + inc - offset.

#[export] Instance near_top_dec : Decision near_top.
Proof using. unfold near_top. apply _. Defined.

(** What the pass computes, all wrapping resolved. *)
Lemma reserve_pass_eq : reserve_pass offset inc nb cur =
  if decide (near_top ∨ 2 ^ 64 ≤ first_value + reach) then None else Some (first_value, first_value + reach).
Proof.
  pose proof first_value_ok as (Hgt & _). pose proof (u64_bound ((nb - 1) * inc)) as Hrc. fold reach in Hrc.
  assert (Hfin : ∀ v0, 0 < v0 < 2 ^ 64 → (let l := u64 (v0 + u64 (u64 (nb - 1) * inc)) in if decide (l < v0) then None else Some (v0, l)) =
    if decide (2 ^ 64 ≤ v0 + reach) then None else Some (v0, v0 + reach)).
  { intros v0 Hv. cbv zeta. assert (Er : u64 (u64 (nb - 1) * inc) = reach) by (unfold reach, u64; apply Zmult_mod_idemp_l). rewrite Er.
    destruct (decide (2 ^ 64 ≤ v0 + reach)) as [Hb|Hb].
    - assert (u64 (v0 + reach) = v0 + reach - 2 ^ 64) as -> by (unfold u64; symmetry; apply (Z.mod_unique_pos _ _ 1); lia). by rewrite decide_True by lia.
    - rewrite u64_small by lia. by rewrite decide_False by lia. }
  unfold is_u64 in *. unfold reserve_pass. cbv zeta. destruct (decide (cur + 1 < 2 ^ 64)) as [Hc|Hc].
  2: { assert (u64 (cur + 1) = 0) as -> by (by replace (cur + 1) with (2 ^ 64) by lia). rewrite decide_True by done. by rewrite decide_True by (right; lia). }
  rewrite (u64_small (cur + 1)) by lia. rewrite decide_False by lia. destruct (decide (1 < inc)) as [H1|H1].
  2: { assert (Ef : first_value = cur + 1) by (unfold first_value; by rewrite decide_False). rewrite Ef. cbn [mbind option_bind]. rewrite Hfin by lia.
       unfold near_top. repeat case_decide; (done || lia). }
  set (r := if decide (offset < cur + 1) then u64 (cur + 1 - offset) else 0).
  assert (Hr : r = Z.max 0 (cur + 1 - offset)) by (unfold r; case_decide; [rewrite u64_small; lia|lia]). clearbody r.
  assert (Ef : first_value = offset + (r + inc - 1) / inc * inc) by (unfold first_value; by rewrite decide_True, Hr by done).
  assert (Hm1 : u64 (u64 (r + inc) - 1) = u64 (r + inc - 1)) by (unfold u64; apply Zminus_mod_idemp_l). rewrite Hm1.
  destruct (decide (r + inc - 1 < 2 ^ 64)) as [Hs|Hs].
  2: { assert (u64 (r + inc - 1) = r + inc - 1 - 2 ^ 64) as -> by (unfold u64; symmetry; apply (Z.mod_unique_pos _ _ 1); lia).
       rewrite Z.div_small, Z.mul_0_l, (u64_small 0), Z.add_0_r, (u64_small offset) by lia. rewrite (decide_True (P := offset < cur + 1)) by lia.
       rewrite decide_True by (left; unfold near_top; lia). done. }
  rewrite (u64_small (r + inc - 1)) by lia. pose proof (ceil_div r inc ltac:(lia) ltac:(lia)) as Hcd.
  assert (Hz : r = 0 → (r + inc - 1) / inc = 0) by (intros ->; apply Z.div_small; lia).
  set (k := (r + inc - 1) / inc) in *. assert (0 ≤ k) by (apply Z.div_pos; lia). assert (Hnt : ¬ near_top) by (unfold near_top; lia).
  destruct (decide (offset + k * inc < 2 ^ 64)) as [Hf|Hf].
  - rewrite (u64_small (k * inc)), (u64_small (offset + k * inc)) by nia. rewrite <-Ef. rewrite decide_False, decide_False by lia.
    cbn [mbind option_bind]. rewrite Hfin by lia. repeat case_decide; (done || tauto || lia).
  - assert (Hw : u64 (offset + u64 (k * inc)) = offset + k * inc - 2 ^ 64).
    { unfold u64. rewrite Zplus_mod_idemp_r. symmetry. apply (Z.mod_unique_pos _ _ 1); [|lia].
      destruct (decide (r = 0)) as [E0|]; [rewrite (Hz E0) in *; lia|lia]. }
    rewrite Hw. rewrite decide_True by (destruct (decide (r = 0)) as [E0|]; [rewrite (Hz E0) in *; lia|lia]).
    rewrite decide_True by (right; lia). done.
Qed.

Lemma reserve_pass_some v last : reserve_pass offset inc nb cur = Some (v, last) → first_ok v ∧ last = v + reach ∧ last < 2 ^ 64 ∧ v ≤ last.
Proof.
  rewrite reserve_pass_eq. case_decide; [done|]. intros [= <- <-]. pose proof (u64_bound ((nb - 1) * inc)). fold reach in *. split; [apply first_value_ok|]. split_and!; lia.
Qed.

(** With room above the counter the pass succeeds. *)
Lemma reserve_pass_room : cur + offset + inc + nb * inc < 2 ^ 64 → is_Some (reserve_pass offset inc nb cur) ∧ reach = (nb - 1) * inc.
Proof.
  unfold is_u64 in *. intros Hroom. assert (0 < nb * inc) by nia. assert (Er : reach = (nb - 1) * inc) by (unfold reach; apply u64_small; nia).
  split; [|done]. rewrite reserve_pass_eq, Er. rewrite decide_False; [by eexists|]. unfold near_top, first_value. intros [?|Hb]; [lia|].
  case_decide; [|lia]. pose proof (ceil_div (Z.max 0 (cur + 1 - offset)) inc ltac:(lia) ltac:(lia)). lia.
Qed.
End pass.

(** * Racing reservations *)

(** The values of a granted interval of [nb] values from [v] in steps of [inc]. *)
Definition in_grant (g : Z * Z * Z) (x : Z) : Prop :=
  let '(v, inc, nb) := g in ∃ j, 0 ≤ j < nb ∧ x = v + j * inc.

(** The part of a granted interval up to which the counter was moved: all of it, unless the product
    of count and increment wraps around 2^64. *)
Definition reserved (g : Z * Z * Z) (x : Z) : Prop := in_grant g x ∧ x ≤ g.1.1 + reach g.1.2 g.2.

(** A request in flight: its arguments and the counter value it loaded. *)
Record pending := mkPend { pd_offset : Z; pd_inc : Z; pd_nb : Z; pd_cur : Z }.

Record race := mkRace { ctr : Z; pend : gmap nat pending; grants : list (Z * Z * Z) }.

(** The arguments are 64-bit. *)
Definition req_ok (offset inc nb : Z) : Prop := is_u64 offset ∧ is_u64 inc ∧ is_u64 nb.

(** The steps of threads that reserve, and of writers that raise the counter.  A weak
    compare-and-exchange may also fail when the counter has not moved. *)
Inductive race_step : race → race → Prop :=
| race_load st t offset inc nb :
    req_ok offset inc nb →
    race_step st (mkRace (ctr st) (<[t := mkPend (nonzero offset) (nonzero inc) (nonzero nb) (ctr st)]> (pend st)) (grants st))
| race_give_up st t p :
    pend st !! t = Some p → reserve_pass (pd_offset p) (pd_inc p) (pd_nb p) (pd_cur p) = None →
    race_step st (mkRace (ctr st) (delete t (pend st)) (grants st))
| race_exchange st t p v last :
    pend st !! t = Some p → reserve_pass (pd_offset p) (pd_inc p) (pd_nb p) (pd_cur p) = Some (v, last) →
    ctr st = pd_cur p →
    race_step st (mkRace last (delete t (pend st)) ((v, pd_inc p, pd_nb p) :: grants st))
| race_retry st t p :
    pend st !! t = Some p →
    race_step st (mkRace (ctr st) (<[t := mkPend (pd_offset p) (pd_inc p) (pd_nb p) (ctr st)]> (pend st)) (grants st))
| race_observe st value :
    is_u64 value → ctr st < value → race_step st (mkRace value (pend st) (grants st)).

Record race_inv (st : race) : Prop := {
  ri_ctr : is_u64 (ctr st);
  ri_pend t p : pend st !! t = Some p → is_u64 (pd_offset p) ∧ is_u64 (pd_inc p) ∧ is_u64 (pd_nb p) ∧
    0 < pd_offset p ∧ 0 < pd_inc p ∧ 0 < pd_nb p;
  ri_grant g : g ∈ grants st → 0 < g.1.2 ∧ 0 < g.2;
  ri_below g x : g ∈ grants st → reserved g x → 0 < x ≤ ctr st;
  ri_disjoint i j g h x : grants st !! i = Some g → grants st !! j = Some h → i ≠ j → reserved g x → ¬ reserved h x
}.

Lemma nonzero_u64 x : is_u64 x → is_u64 (nonzero x) ∧ 0 < nonzero x.
Proof. unfold is_u64, nonzero. case_decide; lia. Qed.

Lemma race_step_inv st st' : race_step st st' → race_inv st → race_inv st'.
Proof.
  intros Hst [Hc Hp Hg0 Hb Hd]. destruct Hst as [st t offset inc nb Hreq|st t p Hpt Hn|st t p v last Hpt Hs Hcur|st t p Hpt|st value Hv Hlt].
  - destruct Hreq as ([]%nonzero_u64 & []%nonzero_u64 & []%nonzero_u64). constructor; simpl; try done.
    intros t' p [[<- <-]|[_ H']]%lookup_insert_Some; [done|by eapply Hp].
  - constructor; simpl; try done. intros t' p' [_ H']%lookup_delete_Some. by eapply Hp.
  - destruct (Hp _ _ Hpt) as (Ho & Hi & Hn & Ho0 & Hi0 & Hn0). rewrite Hcur in *.
    destruct (reserve_pass_some _ _ _ _ Ho Hi Hn Hc Ho0 Hi0 Hn0 _ _ Hs) as ((Hgt & _) & Hl & Hlt & Hvl).
    assert (Hnew : ∀ x, reserved (v, pd_inc p, pd_nb p) x → pd_cur p < x ≤ last).
    { intros x [(j & Hj & ->) Hx]. cbn in Hx. nia. }
    constructor; simpl; [unfold is_u64 in *; lia| |by intros g [->|?]%elem_of_cons; [|apply Hg0]| |].
    + intros t' p' [_ H']%lookup_delete_Some. by eapply Hp.
    + intros g x [->|Hg]%elem_of_cons Hx; [apply Hnew in Hx; unfold is_u64 in *; lia|]. specialize (Hb g x Hg Hx). lia.
    + intros i j g h x Hi' Hj' Hij Hx Hy.
      assert (Hold : ∀ n g', grants st !! n = Some g' → reserved g' x → x ≤ pd_cur p).
      { intros n g' Hn' Hx'. eapply (Hb g' x); [by eapply list_elem_of_lookup_2|done]. }
      destruct i as [|i], j as [|j]; simplify_eq/=; try done.
      * apply Hnew in Hx. specialize (Hold _ _ Hj' Hy). lia.
      * apply Hnew in Hy. specialize (Hold _ _ Hi' Hx). lia.
      * by eapply (Hd i j g h x); [..|congruence| |].
  - constructor; simpl; try done. intros t' p' [[<- <-]|[_ H']]%lookup_insert_Some; [|by eapply Hp].
    by apply (Hp _ _ Hpt).
  - constructor; simpl; try done. intros g x Hg Hx. specialize (Hb g x Hg Hx). lia.
Qed.

(** * Properties *)

(** C36: One reservation.  [fm_core_auto_inc_reserve] returns the least value above the counter (for
    an increment above one: the least such value that is at least the offset and congruent to it),
    reports the number of values asked for, and moves the counter by the distance to the last of
    them, without wrapping; so when count times increment is below 2^64, it moves the counter to the
    last value.  It gives up, with 0 and no change, exactly when the counter would pass 2^64 - 1, or
    when an increment above one is so large that rounding up from the counter wraps.  Zero arguments
    count as one. *)
Theorem reserve_correct s offset inc nb : is_u64 (auto_inc s) → req_ok offset inc nb →
  wp (fm_core_auto_inc_reserve offset inc nb) (λ r s',
    ∃ v, first_ok (nonzero offset) (nonzero inc) (auto_inc s) v ∧
    let last := v + u64 ((nonzero nb - 1) * nonzero inc) in
    if decide (2 ^ 64 ≤ last ∨ (1 < nonzero inc ∧ 2 ^ 64 ≤ auto_inc s + nonzero inc - nonzero offset))
    then r = (0, None) ∧ s' = s
    else r = (v, Some (nonzero nb)) ∧ s' = with_auto_inc last s ∧ ((nonzero nb - 1) * nonzero inc < 2 ^ 64 → last = v + (nonzero nb - 1) * nonzero inc)) s.
Proof.
  intros Hc ([Ho Ho0]%nonzero_u64 & [Hi Hi0]%nonzero_u64 & [Hn Hn0]%nonzero_u64). unfold fm_core_auto_inc_reserve.
  apply wp_bind. eapply wp_run; [reflexivity|]. rewrite (reserve_pass_eq _ _ _ _ Ho Hi Hn Hc Ho0 Hi0 Hn0).
  pose proof (first_value_ok _ _ _ Ho Hi Hc Ho0 Hi0) as Hf. unfold reach, near_top. set (v := first_value _ _ _) in *.
  destruct (decide (_ ∨ _)) as [Hb|Hb]; [|apply wp_bind; eapply wp_run; [reflexivity|]]; apply wp_ret; exists v; (split; [done|]); cbv zeta.
  - rewrite decide_True by tauto. done.
  - rewrite decide_False by tauto. split; [done|]. split; [done|]. intros Hw. rewrite u64_small; [done|]. unfold is_u64 in *. nia.
Qed.

(** A reservation with room succeeds.  When the interval lies below 2^64 even from the
    worst alignment, [fm_get_auto_increment] returns a first value and the full count, not the
    all-ones error value. *)
Theorem reserve_room s offset inc nb : is_u64 (auto_inc s) → is_u64 offset → is_u64 inc → is_u64 nb →
  auto_inc s + nonzero offset + nonzero inc + nonzero nb * nonzero inc < 2 ^ 64 →
  wp (fm_get_auto_increment offset inc nb) (λ r s', auto_inc s < r.1 < u64 (Z.lnot 0) ∧ r.2 = nonzero nb ∧
    auto_inc s' = r.1 + (nonzero nb - 1) * nonzero inc) s.
Proof.
  intros Hc [Ho Ho0]%nonzero_u64 [Hi Hi0]%nonzero_u64 [Hn Hn0]%nonzero_u64 Hroom.
  destruct (reserve_pass_room _ _ _ _ Ho Hi Hn Hc Ho0 Hi0 Hn0 Hroom) as [[[v last] Hp] Er].
  destruct (reserve_pass_some _ _ _ _ Ho Hi Hn Hc Ho0 Hi0 Hn0 _ _ Hp) as ((Hv & H1 & H2) & Hl & Hlt & _). rewrite Er in Hl.
  unfold is_u64 in *.
  assert (Hrun : fm_core_auto_inc_reserve offset inc nb s = Ret ((v, Some (nonzero nb)), with_auto_inc last s)).
  { unfold fm_core_auto_inc_reserve, mbind, M_bind, get. by rewrite Hp. }
  assert (Hmax : v < u64 (Z.lnot 0)).
  { change (u64 (Z.lnot 0)) with (2 ^ 64 - 1). destruct (decide (nonzero inc = 1)); [rewrite H1 by done; lia|].
    destruct (H2 ltac:(lia)) as (_ & Hmod & Hleast). 
    assert (Hw : v ≤ Z.max (nonzero offset) (auto_inc s + 1 + (nonzero offset - (auto_inc s + 1)) mod nonzero inc)).
    { set (w := Z.max _ _).
      assert (Hm := Z.mod_pos_bound (nonzero offset - (auto_inc s + 1)) (nonzero inc) ltac:(lia)).
      destruct (decide (auto_inc s < nonzero offset)).
      - etrans; [apply (Hleast (nonzero offset)); lia|]. unfold w. lia.
      - etrans; [apply (Hleast (auto_inc s + 1 + (nonzero offset - (auto_inc s + 1)) mod nonzero inc)); [lia|lia|]|unfold w; lia].
        rewrite Zplus_mod_idemp_r. f_equal. lia. }
    assert (Hm := Z.mod_pos_bound (nonzero offset - (auto_inc s + 1)) (nonzero inc) ltac:(lia)). nia. }
  unfold fm_get_auto_increment. apply wp_bind. eapply wp_run; [exact Hrun|]. cbn [fst snd]. rewrite decide_False by lia.
  apply wp_ret. by split_and!.
Qed.

Lemma race_steps_inv st st' : rtc race_step st st' → race_inv st → race_inv st'.
Proof. induction 1 as [|? ? ? Hst _ IH]; [done|]. intros Hi. by eapply IH, race_step_inv. Qed.

(** C37: Racing reservations are disjoint.  Let any number of threads reserve intervals at the
    same time, each loading the counter, computing, and trying a compare-and-exchange that may
    fail spuriously and make it start over, while writers raise the counter.  No value is ever in the
    reserved parts of two granted intervals, and every reserved value is positive and at most the
    counter.  All of a granted interval is reserved when its count (less one) times its increment is
    below 2^64; of a request for which that product wraps, only the values up to the counter are. *)
Theorem grants_disjoint c st : is_u64 c → rtc race_step (mkRace c ∅ []) st →
  (∀ i j g h x, grants st !! i = Some g → grants st !! j = Some h → i ≠ j → reserved g x → ¬ reserved h x) ∧
  (∀ g x, g ∈ grants st → reserved g x → 0 < x ≤ ctr st) ∧
  (∀ v inc nb x, (v, inc, nb) ∈ grants st → (nb - 1) * inc < 2 ^ 64 → in_grant (v, inc, nb) x → reserved (v, inc, nb) x).
Proof.
  intros Hc Hr. assert (Hi : race_inv (mkRace c ∅ [])).
  { constructor; simpl; [done|by intros t p; rewrite lookup_empty|by intros g Hg%elem_of_nil|by intros g x Hg%elem_of_nil|done]. }
  destruct (race_steps_inv _ _ Hr Hi) as [_ _ Hp Hb Hd]. split_and!; [done|done|]. intros v inc nb x Hg Hw Hx. split; [done|].
  destruct (Hp _ Hg) as [Hi0 Hn0]. cbn in Hi0, Hn0. destruct Hx as (j & Hj & ->). cbn. unfold reach. rewrite u64_small by nia. nia.
Qed.

(** A request whose product wraps gets an interval of which others may get values, too: 2^63 + 1 values
    in steps of 2 from 1, of which only 1 is reserved, and then the value 3 alone. *)
Lemma wrapped_grant_shared : ∃ st, rtc race_step (mkRace 0 ∅ []) st ∧ ∃ g h, grants st = [h; g] ∧ in_grant g 3 ∧ in_grant h 3.
Proof.
  exists (mkRace 3 ∅ [(3, 2, 1); (1, 2, 2 ^ 63 + 1)]). split.
  - eapply rtc_l; [apply (race_load _ 0%nat 1 2 (2 ^ 63 + 1)); done|]. eapply rtc_l; [eapply (race_exchange _ 0%nat); [reflexivity|vm_compute; reflexivity|reflexivity]|].
    eapply rtc_l; [apply (race_load _ 0%nat 1 2 1); done|]. eapply rtc_l; [eapply (race_exchange _ 0%nat); [reflexivity|vm_compute; reflexivity|reflexivity]|]. apply rtc_refl.
  - eexists _, _. split; [reflexivity|]. split; [exists 1; lia|exists 0; lia].
Qed.

(** Raising the counter.  Observing a stored value, and setting the next value to use, move
    the counter to exactly the maximum of its value and the new one: it is never lowered. *)
Theorem counter_raised s value : is_u64 (auto_inc s) → is_u64 value →
  wp (fm_core_auto_inc_observe value) (λ _ s', s' = with_auto_inc (Z.max (auto_inc s) value) s) s ∧
  wp (fm_set_auto_increment value) (λ _ s', s' = with_auto_inc (Z.max (auto_inc s) (value - 1)) s) s.
Proof.
  unfold is_u64. intros Hc Hv.
  assert (Hid : ∀ n, auto_inc s = n → with_auto_inc n s = s) by (intros n <-; by destruct s). split.
  - eapply wp_run; [apply observe_run|]. case_decide; [by rewrite Z.max_r by lia|]. rewrite Z.max_l by lia. by rewrite Hid.
  - unfold fm_set_auto_increment. cbv zeta. apply wp_bind. eapply wp_run; [reflexivity|].
    destruct (decide (value ≠ 0)) as [H0|H0].
    + rewrite u64_small by lia. case_decide; eapply wp_run; try reflexivity; [by rewrite Z.max_r by lia|].
      rewrite Z.max_l by lia. by rewrite Hid.
    + rewrite decide_False by lia. eapply wp_run; [reflexivity|]. rewrite Z.max_l by lia. by rewrite Hid.
Qed.
