(* ===== verification/Seqlock.v ===== *)
(** Threads on one slot (src/fm_core.h): lock-free readers, read-modify-write writers, deletes,
    recycling inserts and clears, interleaved at the grain of single loads, stores and bytes.
    Memory is sequentially consistent; the spinning of a thread on a taken lock is the absence of
    a step. *)

From S2P Require Import Prelude CoreState.

(** * Threads *)

(** What has become of the slot, for the statements only: an insert filled it with a record (and
    published the row, or gave the slot back on a duplicate), or an update by thread [t] replaced
    the image by [f] of it. *)
Inductive event := EInsert (rec : bytes) | EUpdate (t : nat) (f : bytes → bytes).

(** When a read began (statements only): the inserts begun and the events so far. *)
Record seen := mkSeen { sn_fills : nat; sn_since : nat }.

(** [fm_core_read_row]: the next thing it does.  [RCopy] is the copy of the image byte by byte and,
    once it is complete, the second load of [seq]; [w] counts the changes of [seq] before the first
    load.  [RReturn rc buf quiet v]: [quiet] says that since the read began no insert has begun on
    the slot, and [seq] has changed less than 2^32 times. *)
Inductive reader_pc :=
| RState
| RGen (v : seen)
| RSeq (v : seen)
| RCopy (v : seen) (s1 : Z) (w : nat) (buf : bytes)
| RReturn (rc : fm_err) (buf : bytes) (quiet : bool) (v : seen).

(** The write cycle of the handler: lock the row ([lock_current_row]), read it again under the
    generation it has now ([fm_reread_locked]), and store what the statement computes from it
    ([fm_core_update_row_locked], no key changed). *)
Inductive writer_pc :=
| WLock
| WGen
| WReread (g : Z) (rp : reader_pc)
| WState (g : Z) (new_rec : bytes)
| WVerify (g : Z) (new_rec : bytes)
| WOdd (new_rec : bytes)
| WCopy (i : nat) (new_rec : bytes)
| WUnlock (ok : bool)
| WDone (ok : bool).

(** [fm_core_delete_row], or [fm_core_delete_row_locked] between the lock and the unlock of the
    handler ([held]). *)
Inductive deleter_pc := DLock | DState | DGen | DMark | DUnlock | DDead | DBump | DFree | DEnd (ok : bool) | DDone (ok : bool).

(** [fm_core_insert_row] from the moment it takes the slot off the freelist; [dup]: a unique key
    turns out to be there already, and the slot goes back without having been published. *)
Inductive inserter_pc := IPop | ICopy (i : nat) | IDone.

(** [fm_core_clear], as far as it concerns the slot. *)
Inductive clearer_pc := CLock | CFree | CBump | CUnlock | CPush | CDone.

Inductive thread :=
| Reader (check_gen : bool) (expect_gen : Z) (pc : reader_pc)
| Writer (f : bytes → bytes) (pc : writer_pc)
| Deleter (held : bool) (expect_gen : Z) (pc : deleter_pc)
| Inserter (dup : bool) (rec : bytes) (pc : inserter_pc)
| Clearer (pc : clearer_pc).

(** The slot, how often it is on the freelist, the threads; and for the statements the number of
    inserts begun, of changes of [seq], and the events. *)
Record sys := mkSys {
  slot : FM_SLOT;
  on_freelist : nat;
  threads : gmap nat thread;
  fills : nat;
  bumps : nat;
  hist : list event
}.

Definition set_slot (f : FM_SLOT → FM_SLOT) (s : sys) : sys :=
  mkSys (f (slot s)) (on_freelist s) (threads s) (fills s) (bumps s) (hist s).
Definition set_free (n : nat) (s : sys) : sys := mkSys (slot s) n (threads s) (fills s) (bumps s) (hist s).
Definition set_thread (t : nat) (th : thread) (s : sys) : sys :=
  mkSys (slot s) (on_freelist s) (<[t := th]> (threads s)) (fills s) (bumps s) (hist s).
Definition add_event (e : event) (s : sys) : sys := mkSys (slot s) (on_freelist s) (threads s) (fills s) (bumps s) (hist s ++ [e]).
Definition add_fill (s : sys) : sys := mkSys (slot s) (on_freelist s) (threads s) (S (fills s)) (bumps s) (hist s).

(** [seq.fetch_add(1)] *)
Definition bump_seq (s : sys) : sys :=
  mkSys (sl_with_seq (u32 (seq (slot s) + 1)) (slot s)) (on_freelist s) (threads s) (fills s) (S (bumps s)) (hist s).

(** One byte of a [memcpy] into the slot. *)
Definition put_byte (i : nat) (rec : bytes) : sys → sys := set_slot (λ sl, sl_with_data (<[i := default 0 (rec !! i)]> (data sl)) sl).

Section steps.
Context (reclength : nat).

(** * The steps *)

Definition reader_step (check_gen : bool) (expect_gen : Z) (s : sys) (pc : reader_pc) : reader_pc :=
  let sl := slot s in
  match pc with
  | RState =>
      let v := mkSeen (fills s) (length (hist s)) in
      if decide (state sl = FM_SLOT_ACTIVE) then RGen v else RReturn FM_ERR_DELETED [] true v
  | RGen v => if check_gen && bool_decide (gen sl ≠ expect_gen) then RReturn FM_ERR_DELETED [] true v else RSeq v
  | RSeq v => if decide (Z.land (seq sl) 1 ≠ 0) then RState else RCopy v (seq sl) (bumps s) []
  | RCopy v s1 w buf =>
      if decide (length buf < reclength)%nat then RCopy v s1 w (buf ++ [default 0 (data sl !! length buf)])
      else if decide (seq sl = s1)
      then RReturn FM_ERR_OK buf (bool_decide (fills s = sn_fills v) && bool_decide (Z.of_nat (bumps s) < Z.of_nat w + 2 ^ 32)) v
      else RState
  | RReturn _ _ _ _ => pc
  end.

(** The next step of thread [t], if it can take one. *)
Definition writer_step (t : nat) (f : bytes → bytes) (pc : writer_pc) (s : sys) : option sys :=
  let go pc' s' := Some (set_thread t (Writer f pc') s') in
  match pc with
  | WLock => if decide (wlock (slot s) = 0) then go WGen (set_slot (sl_with_wlock 1) s) else None
  | WGen => go (WReread (gen (slot s)) RState) s
  | WReread g (RReturn rc buf _ _) => if decide (rc = FM_ERR_OK) then go (WState g (f buf)) s else go (WUnlock false) s
  | WReread g rp => go (WReread g (reader_step true g s rp)) s
  | WState g new_rec => if decide (state (slot s) = FM_SLOT_ACTIVE) then go (WVerify g new_rec) s else go (WUnlock false) s
  | WVerify g new_rec => if decide (gen (slot s) = g) then go (WOdd new_rec) s else go (WUnlock false) s
  | WOdd new_rec => go (WCopy 0 new_rec) (bump_seq s)
  | WCopy i new_rec =>
      if decide (i < reclength)%nat then go (WCopy (S i) new_rec) (put_byte i new_rec s)
      else go (WUnlock true) (add_event (EUpdate t f) (bump_seq s))
  | WUnlock ok => go (WDone ok) (set_slot (sl_with_wlock 0) s)
  | WDone _ => None
  end.

Definition deleter_step (t : nat) (held : bool) (g : Z) (pc : deleter_pc) (s : sys) : option sys :=
  let go pc' s' := Some (set_thread t (Deleter held g pc') s') in
  match pc with
  | DLock => if decide (wlock (slot s) = 0) then go DState (set_slot (sl_with_wlock 1) s) else None
  | DState => if decide (state (slot s) = FM_SLOT_ACTIVE) then go DGen s else go (DEnd false) s
  | DGen => if decide (gen (slot s) = g) then go DMark s else go (DEnd false) s
  | DMark => go (if held then DDead else DUnlock) (set_slot (sl_with_state FM_SLOT_DELETING) s)
  | DUnlock => go DDead (set_slot (sl_with_wlock 0) s)
  | DDead => go DBump (set_slot (sl_with_state FM_SLOT_DELETED) s)
  | DBump => go DFree (set_slot (λ sl, sl_with_gen (u32 (gen sl + 1)) sl) s)
  | DFree => go (if held then DEnd true else DDone true) (set_free (S (on_freelist s)) s)
  | DEnd ok => go (DDone ok) (set_slot (sl_with_wlock 0) s)
  | DDone _ => None
  end.

Definition inserter_step (t : nat) (dup : bool) (rec : bytes) (pc : inserter_pc) (s : sys) : option sys :=
  let go pc' s' := Some (set_thread t (Inserter dup rec pc') s') in
  match pc with
  | IPop => match on_freelist s with O => None | S n => go (ICopy 0) (add_fill (set_free n s)) end
  | ICopy i =>
      if decide (i < reclength)%nat then go (ICopy (S i)) (put_byte i rec s)
      else if dup then go IDone (add_event (EInsert rec) (set_free (S (on_freelist s)) s))
      else go IDone (add_event (EInsert rec) (set_slot (sl_with_state FM_SLOT_ACTIVE) s))
  | IDone => None
  end.

Definition clearer_step (t : nat) (pc : clearer_pc) (s : sys) : option sys :=
  let go pc' s' := Some (set_thread t (Clearer pc') s') in
  match pc with
  | CLock => if decide (wlock (slot s) = 0) then go CFree (set_slot (sl_with_wlock 1) s) else None
  | CFree => go CBump (set_slot (sl_with_state FM_SLOT_FREE) s)
  | CBump => go CUnlock (set_slot (λ sl, sl_with_gen (u32 (gen sl + 1)) sl) s)
  | CUnlock => go CPush (set_slot (sl_with_wlock 0) s)
  | CPush => go CDone (set_free 1 s)
  | CDone => None
  end.

Definition step (t : nat) (s : sys) : option sys :=
  th ← threads s !! t;
  match th with
  | Reader _ _ (RReturn _ _ _ _) => None
  | Reader cg g pc => Some (set_thread t (Reader cg g (reader_step cg g s pc)) s)
  | Writer f pc => writer_step t f pc s
  | Deleter held g pc => deleter_step t held g pc s
  | Inserter dup rec pc => inserter_step t dup rec pc s
  | Clearer pc => clearer_step t pc s
  end.

(** Run a schedule: the threads that take a step, one after the other. *)
Fixpoint run_schedule (ts : list nat) (s : sys) : option sys :=
  match ts with
  | [] => Some s
  | t :: ts' => s' ← step t s; run_schedule ts' s'
  end.
End steps.

(** * Torn reads *)

(** The image after some events. *)
Fixpoint replay (l : list event) (img : bytes) : bytes :=
  match l with
  | [] => img
  | EInsert rec :: l' => replay l' rec
  | EUpdate _ f :: l' => replay l' (f img)
  end.

Fixpoint inserts (l : list event) : nat :=
  match l with [] => 0 | EInsert _ :: l' => S (inserts l') | EUpdate _ _ :: l' => inserts l' end.

(** The threads whose updates took effect, in their order. *)
Definition updaters (l : list event) : list nat := omap (λ e, match e with EUpdate t _ => Some t | EInsert _ => None end) l.

Lemma replay_app l e img : replay (l ++ [e]) img = match e with EInsert rec => rec | EUpdate _ f => f (replay l img) end.
Proof. revert img. induction l as [|[rec|t f] l IH]; intros img; simpl; [by destruct e|apply IH..]. Qed.

Lemma inserts_app l e : inserts (l ++ [e]) = (match e with EInsert _ => 1 | EUpdate _ _ => 0 end + inserts l)%nat.
Proof. induction l as [|[rec|t f] l IH]; simpl; [by destruct e|rewrite IH; destruct e; simpl; lia|done]. Qed.

Lemma updaters_app l e : updaters (l ++ [e]) = updaters l ++ match e with EInsert _ => [] | EUpdate t _ => [t] end.
Proof. unfold updaters. rewrite omap_app. by destruct e. Qed.

(** * The invariant *)

#[local] Arguments Nat.even : simpl never.

Definition critical (th : thread) : bool :=
  match th with
  | Writer _ (WGen | WReread _ _ | WState _ _ | WVerify _ _ | WOdd _ | WCopy _ _ | WUnlock _) => true
  | Deleter held _ pc =>
      match pc with DState | DGen | DMark | DUnlock | DEnd _ => true | DDead | DBump | DFree => held | _ => false end
  | _ => false
  end.

(** The thread is in the middle of [fm_core_write_image]. *)
Definition copying (th : thread) : bool := match th with Writer _ (WCopy _ _) => true | _ => false end.

(** The thread is in the middle of filling the slot, or of freeing it. *)
Definition busy (th : thread) : bool :=
  match th with Inserter _ _ (ICopy _) | Deleter _ _ (DUnlock | DDead | DBump | DFree) => true | _ => false end.

Definition excl (th1 th2 : thread) : Prop := ¬ (critical th1 ∧ critical th2) ∧ ¬ (busy th1 ∧ busy th2).

Section inv.
Context (reclength : nat) (img0 : bytes).

(** Records have the length of the table, and there is no clear. *)
Definition thread_ok (th : thread) : Prop :=
  match th with
  | Writer f _ => ∀ img, length img = reclength → length (f img) = reclength
  | Inserter _ rec _ => length rec = reclength
  | Clearer _ => False
  | _ => True
  end.

Definition live (s : sys) : Prop := state (slot s) = FM_SLOT_ACTIVE.
Definition image (s : sys) : bytes := replay (hist s) img0.

Definition view_ok (s : sys) (v : seen) : Prop :=
  (sn_fills v ≤ fills s)%nat ∧ (sn_since v ≤ length (hist s))%nat ∧ (fills s = sn_fills v → fills s = inserts (hist s)).

Definition reader_ok (s : sys) (pc : reader_pc) : Prop :=
  match pc with
  | RState => True
  | RGen v | RSeq v => view_ok s v
  | RCopy v s1 w buf => view_ok s v ∧ s1 = u32 (Z.of_nat w) ∧ Nat.even w = true ∧ (w ≤ bumps s)%nat ∧ (length buf ≤ reclength)%nat ∧
      (fills s = sn_fills v → bumps s = w → buf = take (length buf) (data (slot s)))
  | RReturn rc buf quiet v => rc = FM_ERR_OK → quiet = true →
      ∃ k, (sn_since v ≤ k ≤ length (hist s))%nat ∧ buf = replay (take k (hist s)) img0
  end.

(** The read of a writer that holds the lock. *)
Definition reread_ok (s : sys) (pc : reader_pc) : Prop :=
  match pc with
  | RState => True
  | RGen _ | RSeq _ => live s
  | RCopy _ _ w buf => live s ∧ bumps s = w ∧ Nat.even w = true ∧ (length buf ≤ reclength)%nat ∧ buf = take (length buf) (data (slot s))
  | RReturn rc buf _ _ => rc = FM_ERR_OK → live s ∧ Nat.even (bumps s) = true ∧ buf = image s
  end.

Definition writer_ok (s : sys) (t : nat) (f : bytes → bytes) (pc : writer_pc) : Prop :=
  match pc with
  | WLock | WGen => t ∉ updaters (hist s)
  | WReread _ rp => (t ∉ updaters (hist s)) ∧ reread_ok s rp
  | WState _ new_rec | WVerify _ new_rec | WOdd new_rec => (t ∉ updaters (hist s)) ∧ live s ∧ Nat.even (bumps s) = true ∧ new_rec = f (image s)
  | WCopy i new_rec => (t ∉ updaters (hist s)) ∧ live s ∧ Nat.even (bumps s) = false ∧ new_rec = f (image s) ∧ (i ≤ reclength)%nat ∧
      data (slot s) = take i new_rec ++ drop i (image s)
  | WUnlock ok | WDone ok => t ∈ updaters (hist s) ↔ ok = true
  end.

Definition idle_state (s : sys) : Prop := state (slot s) = FM_SLOT_FREE ∨ state (slot s) = FM_SLOT_DELETED.

Definition deleter_ok (s : sys) (held : bool) (pc : deleter_pc) : Prop :=
  match pc with
  | DGen | DMark => live s
  | DUnlock => state (slot s) = FM_SLOT_DELETING ∧ on_freelist s = O ∧ fills s = inserts (hist s) ∧ held = false
  | DDead => state (slot s) = FM_SLOT_DELETING ∧ on_freelist s = O ∧ fills s = inserts (hist s)
  | DBump | DFree => state (slot s) = FM_SLOT_DELETED ∧ on_freelist s = O ∧ fills s = inserts (hist s)
  | _ => True
  end.

Definition inserter_ok (s : sys) (rec : bytes) (pc : inserter_pc) : Prop :=
  match pc with
  | ICopy i => idle_state s ∧ on_freelist s = O ∧ fills s = S (inserts (hist s)) ∧ (i ≤ reclength)%nat ∧
      take i (data (slot s)) = take i rec
  | _ => True
  end.

Record local (s : sys) (t : nat) (th : thread) : Prop := {
  lc_thread : thread_ok th;
  lc_lock : critical th → wlock (slot s) = 1;
  lc_even : critical th → ¬ copying th → Nat.even (bumps s) = true;
  lc_pc : match th with
          | Reader _ _ pc => reader_ok s pc
          | Writer f pc => writer_ok s t f pc
          | Deleter held _ pc => deleter_ok s held pc
          | Inserter _ rec pc => inserter_ok s rec pc
          | Clearer _ => True
          end
}.

Record glob (s : sys) : Prop := {
  gl_seq : seq (slot s) = u32 (Z.of_nat (bumps s));
  gl_even : wlock (slot s) = 0 → Nat.even (bumps s) = true;
  gl_length : length (data (slot s)) = reclength;
  gl_image : length (image s) = reclength;
  gl_live : live s → fills s = inserts (hist s) ∧ on_freelist s = O;
  gl_free : on_freelist s = O ∨ on_freelist s = 1%nat ∧ fills s = inserts (hist s) ∧ idle_state s;
  gl_data : Nat.even (bumps s) = true → fills s = inserts (hist s) → data (slot s) = image s;
  gl_once : NoDup (updaters (hist s))
}.

Record inv (s : sys) : Prop := {
  in_glob : glob s;
  in_local t th : threads s !! t = Some th → local s t th;
  in_excl t1 t2 th1 th2 : t1 ≠ t2 → threads s !! t1 = Some th1 → threads s !! t2 = Some th2 → excl th1 th2
}.

(** What thread [t2] may rely on when another thread takes a step. *)
Record rely (s s' : sys) (t2 : nat) (th2 : thread) : Prop := {
  rl_fills : (fills s ≤ fills s')%nat;
  rl_bumps : (bumps s ≤ bumps s')%nat;
  rl_hist : ∃ l, hist s' = hist s ++ l;
  rl_stable : fills s' = fills s → fills s = inserts (hist s) → fills s' = inserts (hist s');
  rl_data : fills s' = fills s → bumps s' = bumps s → fills s = inserts (hist s) → Nat.even (bumps s) = true → data (slot s') = data (slot s);
  rl_upd : t2 ∈ updaters (hist s') ↔ t2 ∈ updaters (hist s);
  rl_crit : critical th2 → wlock (slot s') = wlock (slot s) ∧ bumps s' = bumps s ∧
    (live s → live s' ∧ fills s' = fills s ∧ hist s' = hist s ∧ data (slot s') = data (slot s));
  rl_busy : busy th2 → state (slot s') = state (slot s) ∧ on_freelist s' = on_freelist s ∧ fills s' = fills s ∧ hist s' = hist s ∧
    (fills s ≠ inserts (hist s) → data (slot s') = data (slot s))
}.

Lemma view_rely s s' t th v : rely s s' t th → view_ok s v → view_ok s' v.
Proof.
  intros [R1 _ [l R3] R4 _ _ _ _] (H1 & H2 & H3). split; [lia|]. split; [rewrite R3, length_app; lia|]. intros E. apply R4; [lia|apply H3; lia].
Qed.

Lemma reader_rely s s' t th pc : rely s s' t th → reader_ok s pc → reader_ok s' pc.
Proof.
  intros R. pose proof (view_rely s s' t th) as Hv. destruct pc as [|v|v|v s1 w buf|rc buf q v]; simpl; [done|by apply Hv|by apply Hv| |].
  - intros (H1 & H2 & H3 & H4 & H5 & H6). pose proof (rl_fills _ _ _ _ R). pose proof (rl_bumps _ _ _ _ R). split_and!; [by apply (Hv v R)|done|done|lia|done|].
    intros E1 E2. destruct H1 as (H1 & _ & Hst). rewrite (rl_data _ _ _ _ R); [apply H6; lia|lia|lia|apply Hst; lia|].
    by replace (bumps s) with w by lia.
  - intros H E1 E2. destruct (H E1 E2) as (k & Hk & ->). destruct (rl_hist _ _ _ _ R) as [l E]. exists k. rewrite E, length_app. split; [lia|].
    rewrite take_app_le by lia. done.
Qed.

(** What a thread with the lock knows of a live slot stays true. *)
Lemma reread_rely s s' t th pc : rely s s' t th → critical th → reread_ok s pc → reread_ok s' pc.
Proof.
  intros R Hc. destruct (rl_crit _ _ _ _ R Hc) as (_ & L2 & Hl). destruct pc as [|v|v|v s1 w buf|rc buf q v]; simpl; [done|naive_solver|naive_solver| |].
  - intros (H1 & H2 & H3 & H4 & H5). destruct (Hl H1) as (L1 & L3 & L4 & L5). rewrite L2, L5. done.
  - intros H E. destruct (H E) as (H1 & H2 & H3). destruct (Hl H1) as (L1 & L3 & L4 & L5). unfold image. rewrite L2, L4. done.
Qed.

Lemma writer_rely s s' t f pc : rely s s' t (Writer f pc) → writer_ok s t f pc → writer_ok s' t f pc.
Proof.
  intros R. pose proof (rl_upd _ _ _ _ R) as Hu. pose proof (rl_crit _ _ _ _ R) as Hc.
  destruct pc as [| |g rp|g new_rec|g new_rec|new_rec|i new_rec|ok|ok]; simpl in *; rewrite ?Hu; try done.
  - intros [H1 H2]. split; [done|]. by eapply reread_rely.
  - intros (H1 & H2 & H3 & H4). destruct (Hc I) as (_ & L2 & Hl). destruct (Hl H2) as (L1 & L3 & L4 & L5). unfold image in *. by rewrite L2, L4.
  - intros (H1 & H2 & H3 & H4). destruct (Hc I) as (_ & L2 & Hl). destruct (Hl H2) as (L1 & L3 & L4 & L5). unfold image in *. by rewrite L2, L4.
  - intros (H1 & H2 & H3 & H4). destruct (Hc I) as (_ & L2 & Hl). destruct (Hl H2) as (L1 & L3 & L4 & L5). unfold image in *. by rewrite L2, L4.
  - intros (H1 & H2 & H3). destruct (Hc I) as (_ & L2 & Hl). destruct (Hl H2) as (L1 & L3 & L4 & L5). unfold image in *. by rewrite L2, L4, L5.
Qed.

Lemma deleter_rely s s' t held g pc : rely s s' t (Deleter held g pc) → deleter_ok s held pc → deleter_ok s' held pc.
Proof.
  intros R. pose proof (rl_crit _ _ _ _ R) as Hc. pose proof (rl_busy _ _ _ _ R) as Hb.
  destruct pc; simpl in *; try done; try (intros H; destruct (Hc I) as (_ & _ & Hl); by destruct (Hl H));
    destruct (Hb I) as (B1 & B2 & B3 & B4 & _); by rewrite B1, B2, B3, B4.
Qed.

Lemma inserter_rely s s' t dup rec pc : rely s s' t (Inserter dup rec pc) → inserter_ok s rec pc → inserter_ok s' rec pc.
Proof.
  intros R. pose proof (rl_busy _ _ _ _ R) as Hb. destruct pc as [|i|]; simpl in *; try done. intros (H1 & H2 & H3 & H4 & H5).
  destruct (Hb I) as (B1 & B2 & B3 & B4 & B5). unfold idle_state. rewrite B1, B2, B3, B4, B5 by lia. done.
Qed.

Lemma local_rely s s' t th : rely s s' t th → local s t th → local s' t th.
Proof.
  intros R [H1 H2 H3 H4]. constructor; [done| | |].
  - intros Hc. destruct (rl_crit _ _ _ _ R Hc) as (-> & _). by apply H2.
  - intros Hc Hn. destruct (rl_crit _ _ _ _ R Hc) as (_ & -> & _). by apply H3.
  - destruct th; [by eapply reader_rely|by eapply writer_rely|by eapply deleter_rely|by eapply inserter_rely|done].
Qed.

(** A step of one thread, seen from all. *)
Lemma inv_step s s' t th th' : inv s → threads s !! t = Some th → threads s' = <[t := th']> (threads s) → glob s' → local s' t th' →
  (∀ t2 th2, t2 ≠ t → threads s !! t2 = Some th2 → local s t2 th2 → excl th th2 → rely s s' t2 th2 ∧ excl th' th2) → inv s'.
Proof.
  intros [Hg Hl He] Ht Es Hg' Hl' Ho. constructor; [done| |]; rewrite Es.
  - intros t2 th2 [[<- <-]|[Hne Hth]]%lookup_insert_Some; [done|]. eapply local_rely; [|by apply Hl]. eapply Ho; [done|done|by apply Hl|by eapply He].
  - intros t1 t2 th1 th2 Hne [[<- <-]|[H1 Hth1]]%lookup_insert_Some [[<- <-]|[H2 Hth2]]%lookup_insert_Some; [done| | |by apply (He t1 t2)].
    + eapply Ho; [done|done|by apply Hl|by eapply He].
    + assert (E : excl th' th1); [|unfold excl in *; tauto]. eapply Ho; [done|done|by apply Hl|by eapply He].
Qed.

(** A step that changes nothing but the thread itself. *)
Lemma inv_private s t th th' : inv s → threads s !! t = Some th → local (set_thread t th' s) t th' →
  (critical th' → critical th) → (busy th' → busy th) → inv (set_thread t th' s).
Proof.
  intros Hi Ht Hl Hc Hb. eapply inv_step; [done|done|done| |done|].
  - by destruct (in_glob _ Hi).
  - intros t2 th2 Hne Hth Hl2 [He1 He2]. split; [|unfold excl; tauto]. constructor; simpl; try done.
    exists []. by rewrite app_nil_r.
Qed.

(** ** Readers *)

Lemma seq_even s : glob s → Z.land (seq (slot s)) 1 = 0 → Nat.even (bumps s) = true.
Proof.
  intros Hg. rewrite (gl_seq _ Hg), land_1, u32_mod2. intros H. apply Nat.even_spec. exists (Z.to_nat (Z.of_nat (bumps s) / 2)).
  pose proof (Z.div_mod (Z.of_nat (bumps s)) 2). lia.
Qed.

Lemma copy_byte (l : bytes) i : (i < length l)%nat → take i l ++ [default 0 (l !! i)] = take (S i) l.
Proof. intros H. destruct (lookup_lt_is_Some_2 l i H) as [x Hx]. rewrite Hx. by rewrite (take_S_r _ _ _ Hx). Qed.

(** One more byte of the copy. *)
Lemma copy_more (l buf : bytes) : (length buf < length l)%nat → buf = take (length buf) l →
  buf ++ [default 0 (l !! length buf)] = take (length (buf ++ [default 0 (l !! length buf)])) l.
Proof. intros H E. rewrite length_app, Nat.add_comm. simpl. rewrite <-copy_byte by done. by rewrite <-E. Qed.

Lemma reader_step_ok s cg g pc : glob s → reader_ok s pc → reader_ok s (reader_step reclength cg g s pc).
Proof.
  intros Hg. destruct pc as [|v|v|v s1 w buf|rc buf q v]; simpl; [| | | |done].
  - intros _. case_decide as Ha; [|done]. simpl. destruct (gl_live _ Hg Ha). by split_and!.
  - intros Hv. by destruct (cg && _).
  - intros Hv. case_decide as Ho; [done|]. simpl. split_and!; [done|apply Hg|apply seq_even; [done|lia]|lia|lia|done].
  - intros (Hv & H1 & H2 & H3 & H4 & H5). pose proof (gl_length _ Hg) as Hlen. case_decide as Hl.
    + simpl. rewrite length_app. simpl. split_and!; try done; [lia|]. intros E1 E2.
      rewrite (copy_more (data (slot s)) buf) at 1; [by rewrite length_app|lia|by apply H5].
    + case_decide as Hs; [|done]. simpl. intros _ [E1%bool_decide_unpack E2%bool_decide_unpack]%Is_true_true%andb_prop_elim.
      assert (Hb : bumps s = w).
      { rewrite (gl_seq _ Hg), H1 in Hs. unfold u32 in Hs. pose proof (Z.div_mod (Z.of_nat (bumps s)) (2 ^ 32)). pose proof (Z.div_mod (Z.of_nat w) (2 ^ 32)). nia. }
      destruct Hv as (_ & Hsn & Hst). exists (length (hist s)). split; [lia|]. rewrite firstn_all. specialize (H5 E1 Hb).
      rewrite H5, take_ge by lia. apply (gl_data _ Hg); [by rewrite Hb|by apply Hst].
Qed.

Lemma reread_step_ok s g pc : glob s → reread_ok s pc → reread_ok s (reader_step reclength true g s pc).
Proof.
  intros Hg. destruct pc as [|v|v|v s1 w buf|rc buf q v]; simpl; [| | | |done].
  - intros _. by case_decide.
  - intros Hv. by case_bool_decide.
  - intros Hv. case_decide as Ho; [done|]. simpl. split_and!; [done|done|apply seq_even; [done|lia]|lia|done].
  - intros (Hv & H1 & H2 & H3 & H4). pose proof (gl_length _ Hg) as Hlen. destruct (gl_live _ Hg Hv) as [Hst _]. case_decide as Hl.
    + simpl. rewrite length_app. simpl. split_and!; try done; [lia|]. rewrite (copy_more (data (slot s)) buf) at 1; [by rewrite length_app|lia|done].
    + case_decide as Hs; [|done]. simpl. intros _. subst w. split_and!; try done. rewrite H4, take_ge by lia. by apply (gl_data _ Hg).
Qed.

(** ** Writers *)

Lemma busy_slot s t th : local s t th → busy th → ¬ live s ∧ on_freelist s = O.
Proof.
  intros [_ _ _ H] Hb. unfold live. destruct th as [| |held g pc|dup rec pc|]; try done; destruct pc; try done; simpl in H;
    destruct H as (H & ? & _); (split; [|done]); [congruence..|]. destruct H; congruence.
Qed.

(** A thread that is neither at the lock nor filling or freeing the slot sees little. *)
Lemma rely_idle s s' t2 th2 : ¬ critical th2 → ¬ busy th2 → fills s' = fills s → (bumps s ≤ bumps s')%nat → (∃ l, hist s' = hist s ++ l) →
  inserts (hist s') = inserts (hist s) → (t2 ∈ updaters (hist s') ↔ t2 ∈ updaters (hist s)) →
  (bumps s' = bumps s → Nat.even (bumps s) = true → data (slot s') = data (slot s)) → rely s s' t2 th2.
Proof.
  intros Hc Hb Ef Eb Eh Ei Eu Ed. constructor; try done; [lia|congruence|auto].
Qed.

(** Only the word of the lock, the state or the generation change. *)
Lemma rely_word s f t th' t2 th2 : (∀ sl, data (f sl) = data sl) → ¬ critical th2 ∨ (wlock (f (slot s)) = wlock (slot s) ∧ (live s → state (f (slot s)) = state (slot s))) →
  ¬ busy th2 ∨ state (f (slot s)) = state (slot s) → rely s (set_thread t th' (set_slot f s)) t2 th2.
Proof.
  intros Hd Hc Hb. unfold live in Hc. constructor; simpl; try done.
  - exists []. by rewrite app_nil_r.
  - intros Hcr. destruct Hc as [?|[Hw Hs]]; [done|]. split; [done|]. split; [done|]. intros Hl. unfold live in *. simpl. rewrite Hd. split; [|done]. by rewrite Hs.
  - intros Hbu. destruct Hb as [?|Hb]; [done|]. by rewrite Hd.
Qed.

(** The lock is taken. *)
Lemma inv_acquire s t th th' : inv s → threads s !! t = Some th → wlock (slot s) = 0 → local (set_thread t th' (set_slot (sl_with_wlock 1) s)) t th' →
  (busy th' → busy th) → inv (set_thread t th' (set_slot (sl_with_wlock 1) s)).
Proof.
  intros Hi Ht Hw Hl Hb. eapply inv_step; [done|done|done| |done|].
  - destruct (in_glob _ Hi). by constructor.
  - intros t2 th2 Hne Hth Hl2 [He1 He2]. assert (Hn : ¬ critical th2) by (intros Hc; apply (lc_lock _ _ _ Hl2) in Hc; lia).
    split; [|unfold excl; tauto]. apply (rely_word s (sl_with_wlock 1)); [done|by left|by right].
Qed.

(** The lock is released. *)
Lemma inv_release s t th th' : inv s → threads s !! t = Some th → critical th → ¬ copying th → local (set_thread t th' (set_slot (sl_with_wlock 0) s)) t th' →
  ¬ critical th' → (busy th' → busy th) → inv (set_thread t th' (set_slot (sl_with_wlock 0) s)).
Proof.
  intros Hi Ht Hc Hcp Hl Hn Hb. pose proof (lc_even _ _ _ (in_local _ Hi _ _ Ht) Hc Hcp) as He. eapply inv_step; [done|done|done| |done|].
  - destruct (in_glob _ Hi). by constructor.
  - intros t2 th2 Hne Hth Hl2 [He1 He2]. split; [|unfold excl; tauto]. apply (rely_word s (sl_with_wlock 0)); [done|left; tauto|by right].
Qed.

(** The owner of the lock changes the image or [seq] of a live slot. *)
Lemma inv_owner s s' t th th' : inv s → threads s !! t = Some th → threads s' = <[t := th']> (threads s) → critical th → live s →
  glob s' → local s' t th' → ¬ busy th' → (critical th' → critical th) →
  fills s' = fills s → (bumps s ≤ bumps s')%nat → (∃ l, hist s' = hist s ++ l ∧ inserts l = O ∧ ∀ t2, t2 ≠ t → t2 ∉ updaters l) →
  (bumps s' = bumps s → Nat.even (bumps s) = true → data (slot s') = data (slot s)) → inv s'.
Proof.
  intros Hi Ht Es Hc Hlv Hg Hl Hb Hc' Ef Eb (l & El & Ei & Eu) Ed. eapply inv_step; [done..|].
  intros t2 th2 Hne Hth Hl2 [He1 He2]. split; [|unfold excl; tauto]. apply rely_idle; try done.
  - tauto.
  - intros Hbu. by destruct (busy_slot _ _ _ Hl2 Hbu).
  - by exists l.
  - rewrite El. clear -Ei. induction (hist s) as [|[] h IH]; simpl; [done|by rewrite IH|done].
  - rewrite El. unfold updaters in *. rewrite omap_app, elem_of_app. specialize (Eu t2 Hne). tauto.
Qed.

Lemma take_put (l new_rec old : bytes) i : (i < length new_rec)%nat → length old = length new_rec → l = take i new_rec ++ drop i old →
  <[i := default 0 (new_rec !! i)]> l = take (S i) new_rec ++ drop (S i) old.
Proof.
  intros Hi Hl ->. destruct (lookup_lt_is_Some_2 new_rec i Hi) as [x Hx]. rewrite Hx. simpl.
  destruct (lookup_lt_is_Some_2 old i ltac:(lia)) as [y Hy]. rewrite (drop_S _ _ _ Hy), (take_S_r _ _ _ Hx).
  rewrite insert_app_r_alt by (rewrite length_take; lia). rewrite length_take, Nat.min_l, Nat.sub_diag by lia. simpl. by rewrite <-app_assoc.
Qed.

Lemma even_S n : Nat.even (S n) = negb (Nat.even n).
Proof. rewrite Nat.even_succ. by rewrite <-Nat.negb_even. Qed.

Lemma u32_succ b : u32 (u32 (Z.of_nat b) + 1) = u32 (Z.of_nat (S b)).
Proof. unfold u32. rewrite Zplus_mod_idemp_l. f_equal. lia. Qed.

Lemma writer_inv s t f pc s' : inv s → threads s !! t = Some (Writer f pc) → writer_step reclength t f pc s = Some s' → inv s'.
Proof.
  intros Hi Ht. pose proof (in_local _ Hi _ _ Ht) as [Hok Hlk Hev Hpc]. pose proof (in_glob _ Hi) as Hg. simpl in Hok, Hpc.
  assert (Hpriv : ∀ pc', ¬ copying (Writer f pc) → writer_ok s t f pc' → (critical (Writer f pc') → critical (Writer f pc)) → inv (set_thread t (Writer f pc') s)).
  { intros pc' Hn Hw Hc. eapply inv_private; [done|done| |done|done]. constructor; [done| | |done]; intros H; [by apply Hlk, Hc|]. intros _. apply Hev; auto. }
  destruct pc as [| |g rp|g new_rec|g new_rec|new_rec|i new_rec|ok|ok]; cbn [writer_step]; [| | | | | | | |done].
  - case_decide as Hw; [|done]. intros [= <-]. pose proof (gl_even _ Hg Hw). eapply inv_acquire; [done..| |done]. by constructor.
  - intros [= <-]. apply Hpriv; [by intros ?|exact (conj Hpc I)|done].
  - destruct Hpc as [Hu Hr]. pose proof (reread_step_ok s g rp Hg Hr) as Hs.
    destruct rp as [|v|v|v s1 w buf|rc buf q v]; try (intros [= <-]; apply Hpriv; [by intros ?|exact (conj Hu Hs)|done]).
    case_decide as Hrc; intros [= <-]; apply Hpriv; try first [done|by intros ?].
    destruct (Hr Hrc) as (H1 & H2 & ->). by split_and!.
  - case_decide as Hv; intros [= <-]; apply Hpriv; try first [done|by intros ?]. simpl. destruct Hpc as [Hu _]. split; [done|intros ?; done].
  - case_decide as Hv; intros [= <-]; apply Hpriv; try first [done|by intros ?]. simpl. destruct Hpc as [Hu _]. split; [done|intros ?; done].
  - intros [= <-]. destruct Hpc as (Hu & Hlv & He & ->). destruct (gl_live _ Hg Hlv) as [Hst Hon].
    eapply (inv_owner s _ t _ (Writer f (WCopy 0 (f (image s))))); try done; simpl; [| |tauto|lia|exists []; rewrite app_nil_r; split_and!; [done|done|intros; apply not_elem_of_nil]].
    + destruct Hg. constructor; try done; simpl; [rewrite gl_seq0; apply u32_succ|by rewrite (Hlk I)|rewrite even_S, He; done].
    + constructor; [done|done|by intros _ []|]. simpl. split_and!; [done|done|by rewrite even_S, He|done|lia|]. by apply (gl_data _ Hg).
  - destruct Hpc as (Hu & Hlv & He & Hnew & Hin & Hd). destruct (gl_live _ Hg Hlv) as [Hst Hon]. pose proof (gl_image _ Hg) as Him.
    assert (Hln : length new_rec = reclength) by (rewrite Hnew; auto).
    case_decide as Hlt; intros [= <-].
    + eapply (inv_owner s _ t _ (Writer f (WCopy (S i) new_rec))); try done; simpl; [| |tauto|exists []; rewrite app_nil_r; split_and!; [done|done|intros; apply not_elem_of_nil]|by rewrite He].
      * destruct Hg. constructor; try done; simpl; [by rewrite length_insert|by rewrite He].
      * constructor; [done|done|by intros _ []|]. simpl. split_and!; try done. apply (take_put _ _ (image s)); [lia|lia|done].
    + eapply (inv_owner s _ t _ (Writer f (WUnlock true))); try done; simpl; [| |tauto|lia|exists [EUpdate t f]; split_and!; try done; set_solver].
      * destruct Hg. constructor; try done; unfold image, live in *; simpl; rewrite ?replay_app, ?inserts_app, ?updaters_app; simpl;
          [rewrite gl_seq0; apply u32_succ|by rewrite (Hlk I)|auto|auto|auto| |].
        -- intros _ _. rewrite Hd, take_ge, drop_ge, app_nil_r by lia. done.
        -- apply NoDup_app. split; [done|]. split; [set_solver|apply NoDup_singleton].
      * constructor; [done|done|intros _ _; simpl; by rewrite even_S, He|]. simpl. rewrite updaters_app. split; [done|]. intros _. set_solver.
  - intros [= <-]. eapply inv_release; [done|done|done|by intros ?| |by intros ?|done]. by constructor.
Qed.

(** ** Deletes *)

(** The state changes, by a thread that excludes the others that care. *)
Lemma inv_state s t th th' st : inv s → threads s !! t = Some th → glob (set_slot (sl_with_state st) s) →
  local (set_thread t th' (set_slot (sl_with_state st) s)) t th' → (critical th' → critical th) →
  (live s → critical th) → (busy th ∨ live s) → inv (set_thread t th' (set_slot (sl_with_state st) s)).
Proof.
  intros Hi Ht Hg Hl Hc Hlv Hb. eapply inv_step; [done|done|done|by destruct Hg|done|].
  intros t2 th2 Hne Hth Hl2 [He1 He2].
  assert (Hnb : ¬ busy th2) by (intros H2; destruct (busy_slot _ _ _ Hl2 H2); tauto). split; [|unfold excl; tauto].
  apply rely_word; [done| |by left]. destruct (decide (live s)) as [H|H]; [left; tauto|by right].
Qed.

Lemma deleter_inv s t held g pc s' : inv s → threads s !! t = Some (Deleter held g pc) → deleter_step t held g pc s = Some s' → inv s'.
Proof.
  intros Hi Ht. pose proof (in_local _ Hi _ _ Ht) as [Hok Hlk Hev Hpc]. pose proof (in_glob _ Hi) as Hg. simpl in Hpc.
  assert (Hpriv : ∀ pc', deleter_ok s held pc' → (critical (Deleter held g pc') → critical (Deleter held g pc)) →
    (busy (Deleter held g pc') → busy (Deleter held g pc)) → inv (set_thread t (Deleter held g pc') s)).
  { intros pc' Hw Hc Hb. eapply inv_private; [done|done| |done|done]. constructor; [done| | |done]; intros H; [by apply Hlk, Hc|]. intros _. apply Hev; auto. }
  destruct pc; cbn [deleter_step]; [| | | | | | | | |done].
  - case_decide as Hw; [|done]. intros [= <-]. pose proof (gl_even _ Hg Hw). eapply inv_acquire; [done..| |done]. by constructor.
  - case_decide as Hw; intros [= <-]; by apply Hpriv.
  - case_decide as Hw; intros [= <-]; by apply Hpriv.
  - intros [= <-]. simpl in Hpc. destruct (gl_live _ Hg Hpc) as [Hst Hon]. eapply inv_state; [done|done| | |by destruct held|done|by right].
    + destruct Hg. constructor; try done. by left.
    + constructor; [done|intros _; by apply Hlk|intros _ _; apply Hev; [done|by intros ?]|]. by destruct held.
  - intros [= <-]. destruct Hpc as (H1 & H2 & H3 & ->). eapply inv_release; [done|done|done|by intros ?| |by intros ?|done]. by constructor.
  - intros [= <-]. destruct Hpc as (H1 & H2 & H3). assert (Hn : ¬ live s) by (unfold live; congruence).
    eapply inv_state; [done|done| | |done|done|by left].
    + destruct Hg. constructor; try done. by left.
    + by constructor.
  - intros [= <-]. destruct Hpc as (H1 & H2 & H3). eapply inv_step; [done|done|done|by destruct Hg|by constructor|].
    intros t2 th2 Hne Hth Hl2 He. split; [|done]. apply (rely_word s (λ sl, sl_with_gen (u32 (gen sl + 1)) sl)); [done|by right|by right].
  - intros [= <-]. destruct Hpc as (H1 & H2 & H3). assert (Hn : ¬ live s) by (unfold live; congruence).
    eapply (inv_step s _ t _ (Deleter held g (if held then DEnd true else DDone true))); [done|done|done| | |].
    + destruct Hg. constructor; try done. right. simpl. rewrite H2. split; [done|]. split; [done|]. by right.
    + constructor; [done| | |by destruct held]; intros Hc; [apply Hlk; by destruct held|]. intros _. apply Hev; [by destruct held|by intros ?].
    + intros t2 th2 Hne Hth Hl2 [He1 He2]. split; [|unfold excl; destruct held; simpl in *; tauto].
      constructor; simpl; try done; [by exists []; rewrite app_nil_r|]. intros Hb. tauto.
  - intros [= <-]. eapply inv_release; [done|done|done|by intros ?| |by intros ?|done]. by constructor.
Qed.

(** ** Inserts *)

Lemma take_fill (l rec : bytes) i : (i < length l)%nat → length l = length rec → take i l = take i rec →
  take (S i) (<[i := default 0 (rec !! i)]> l) = take (S i) rec.
Proof.
  intros Hi Hl E. destruct (lookup_lt_is_Some_2 rec i ltac:(lia)) as [x Hx]. rewrite Hx. simpl.
  rewrite (take_S_r rec _ _ Hx), (take_S_r _ i x) by (by rewrite list_lookup_insert_eq).
  by rewrite take_insert_ge, E by lia.
Qed.

(** An insert excludes all that could notice what it does to a slot that is not live. *)
Lemma inv_fill s s' t th th' : inv s → threads s !! t = Some th → threads s' = <[t := th']> (threads s) → ¬ live s → (busy th ∨ on_freelist s ≠ O) →
  glob s' → local s' t th' → ¬ critical th' → (fills s ≤ fills s')%nat → bumps s' = bumps s → wlock (slot s') = wlock (slot s) →
  (∃ l, hist s' = hist s ++ l ∧ updaters l = []) → (fills s' = fills s → fills s ≠ inserts (hist s)) → inv s'.
Proof.
  intros Hi Ht Es Hlv Hb Hg Hl Hc Ef Eb Ew (l & El & Eu) Est. eapply inv_step; [done..|].
  intros t2 th2 Hne Hth Hl2 [He1 He2].
  assert (Hnb : ¬ busy th2) by (intros H2; destruct (busy_slot _ _ _ Hl2 H2); tauto). split; [|unfold excl; tauto].
  constructor; try done; [lia|by exists l|tauto|tauto|]. rewrite El. unfold updaters in *. rewrite omap_app, Eu, app_nil_r. done.
Qed.

Lemma inserter_inv s t dup rec pc s' : inv s → threads s !! t = Some (Inserter dup rec pc) → inserter_step reclength t dup rec pc s = Some s' → inv s'.
Proof.
  intros Hi Ht. pose proof (in_local _ Hi _ _ Ht) as [Hok Hlk Hev Hpc]. pose proof (in_glob _ Hi) as Hg. simpl in Hok, Hpc.
  destruct pc as [|i|]; cbn [inserter_step]; [| |done].
  - destruct (on_freelist s) as [|n] eqn:Hon; [done|]. intros [= <-]. destruct (gl_free _ Hg) as [?|(Hon' & Hst & Hid)]; [congruence|].
    assert (n = O) as -> by congruence. assert (Hn : ¬ live s) by (unfold live; destruct Hid; congruence).
    eapply (inv_fill s _ t _ (Inserter dup rec (ICopy 0))); try done; simpl; [right; congruence| | |tauto|lia|exists []; by rewrite app_nil_r|lia].
    + destruct Hg. constructor; try done; simpl; [by left|lia].
    + constructor; [done|done|done|]. simpl. split_and!; try done; [by rewrite Hst|lia].
  - destruct Hpc as (Hid & Hon & Hst & Hin & Htk). pose proof (gl_length _ Hg) as Hlen. assert (Hn : ¬ live s) by (unfold live; destruct Hid; congruence).
    case_decide as Hlt; [intros [= <-]|].
    + eapply (inv_fill s _ t _ (Inserter dup rec (ICopy (S i)))); try done; simpl; [by left| | |tauto|exists []; by rewrite app_nil_r|lia].
      * destruct Hg. constructor; try done; simpl; [by rewrite length_insert|lia].
      * constructor; [done|done|done|]. simpl. split_and!; try done. by apply take_fill; [lia|lia|].
    + assert (Hd : data (slot s) = rec) by (rewrite !take_ge in Htk by lia; done).
      assert (Hfilled : ∀ s2, threads s2 = <[t := Inserter dup rec IDone]> (threads s) → hist s2 = hist s ++ [EInsert rec] → bumps s2 = bumps s → fills s2 = fills s →
        seq (slot s2) = seq (slot s) → wlock (slot s2) = wlock (slot s) → data (slot s2) = data (slot s) →
        (live s2 → on_freelist s2 = O) → (on_freelist s2 = O ∨ on_freelist s2 = 1%nat ∧ idle_state s2) → inv s2).
      { intros s2 Es Eh Eb Ef Esq Ew Ed Hlv Hfr.
        eapply (inv_fill s s2 t _ (Inserter dup rec IDone)); try done; [by left| |simpl; tauto|lia|by exists [EInsert rec]|lia].
        destruct Hg. constructor; unfold image in *; rewrite ?Eh, ?replay_app, ?inserts_app, ?updaters_app, ?Eb, ?Ef, ?Ed, ?Esq, ?Ew; simpl; try done.
        - intros Hl. by split; [lia|apply Hlv].
        - destruct Hfr as [?|[? ?]]; [by left|right]. by split_and!; [|lia|].
        - by rewrite app_nil_r. }
      destruct dup; intros [= <-]; apply Hfilled; simpl; try done; [right; by rewrite Hon|by left].
Qed.

Lemma step_inv s t s' : inv s → step reclength t s = Some s' → inv s'.
Proof.
  intros Hi. unfold step. destruct (threads s !! t) as [th|] eqn:Ht; [|done]. cbn [mbind option_bind].
  destruct th as [cg g pc|f pc|held g pc|dup rec pc|pc]; [|by apply writer_inv|by apply deleter_inv|by apply inserter_inv|].
  - intros E. pose proof (in_local _ Hi _ _ Ht) as [_ _ _ Hpc]. pose proof (reader_step_ok s cg g pc (in_glob _ Hi) Hpc) as Hs.
    destruct pc; simplify_eq; (eapply inv_private; [done|done|by constructor|done|done]).
  - by destruct (in_local _ Hi _ _ Ht) as [[] _ _ _].
Qed.

(** * Executions *)

Definition initial (th : thread) : Prop :=
  match th with Reader _ _ RState | Writer _ WLock | Deleter _ _ DLock | Inserter _ _ IPop | Clearer CLock => True | _ => False end.

(** A live slot with image [img0] and generation [g], and threads that have not begun. *)
Definition start (g : Z) (ts : gmap nat thread) : sys := mkSys (mkSlot FM_SLOT_ACTIVE 0 0 g FM_NULL_SLOT img0) 0 ts 0 0 [].

Definition threads_ok (ts : gmap nat thread) : Prop := ∀ t th, ts !! t = Some th → thread_ok th ∧ initial th.

Lemma start_inv g ts : length img0 = reclength → threads_ok ts → inv (start g ts).
Proof.
  intros Hl Hts. constructor.
  - constructor; try done; simpl; [by left|constructor].
  - intros t th Hth. destruct (Hts t th Hth) as [Hok Hin].
    destruct th as [? ? []|? []|? ? []|? ? []|[]]; try done; constructor; try done; simpl; apply not_elem_of_nil.
  - intros t1 t2 th1 th2 _ H1 H2. destruct (Hts _ _ H1) as [_ I1], (Hts _ _ H2) as [_ I2]. unfold excl.
    destruct th1 as [? ? []|? []|? ? []|? ? []|[]]; simpl in *; tauto.
Qed.

Lemma schedule_inv ts s s' : inv s → run_schedule reclength ts s = Some s' → inv s'.
Proof.
  revert s. induction ts as [|t ts IH]; intros s Hi; simpl; [by intros [= <-]|].
  destruct (step reclength t s) as [s1|] eqn:E; [|done]. cbn [mbind option_bind]. apply IH. by eapply step_inv.
Qed.

(** Threads keep what they are, and the events are theirs. *)
Definition same_jobs (s s' : sys) : Prop :=
  (∀ t f pc, threads s !! t = Some (Writer f pc) → ∃ pc', threads s' !! t = Some (Writer f pc')) ∧
  (∀ t f, EUpdate t f ∈ hist s' → EUpdate t f ∈ hist s ∨ ∃ pc, threads s' !! t = Some (Writer f pc)).

Lemma jobs_set s s0 t th th' : threads s !! t = Some th → threads s0 = threads s → (∀ f pc, th = Writer f pc → ∃ pc', th' = Writer f pc') →
  (∀ t0 f, EUpdate t0 f ∈ hist s0 → EUpdate t0 f ∈ hist s ∨ ∃ pc, t0 = t ∧ th' = Writer f pc) → same_jobs s (set_thread t th' s0).
Proof.
  intros Ht Es Hw Hh. split; simpl; rewrite Es.
  - intros t0 f pc H0. destruct (decide (t0 = t)) as [->|Hne]; [|exists pc; by rewrite lookup_insert_ne].
    rewrite Ht in H0. injection H0 as ->. destruct (Hw _ _ eq_refl) as [pc' ->]. exists pc'. apply lookup_insert_eq.
  - intros t0 f H0. destruct (Hh t0 f H0) as [?|(pc & -> & ->)]; [by left|right]. exists pc. apply lookup_insert_eq.
Qed.

Lemma step_jobs s t s' : step reclength t s = Some s' → same_jobs s s'.
Proof.
  unfold step. destruct (threads s !! t) as [th|] eqn:Ht; [|done]. cbn [mbind option_bind].
  destruct th as [cg g pc|f pc|held g pc|dup rec pc|pc].
  - destruct pc; intros E; simplify_eq; eapply jobs_set; try done; by left.
  - destruct pc as [| |g []| | | | | |]; cbn [writer_step]; repeat case_decide; intros E; simplify_eq; eapply jobs_set; try done; simpl;
      try (by left); try (intros ? ? [= -> _]; by eexists).
    intros t0 f0. rewrite elem_of_app, list_elem_of_singleton. intros [?|[= -> ->]]; [by left|right; eauto].
  - destruct pc; cbn [deleter_step]; repeat case_decide; intros E; simplify_eq; eapply jobs_set; try done; by left.
  - destruct pc; cbn [inserter_step]; [destruct (on_freelist s); [done|]|case_decide; [|destruct dup]|done]; intros E; simplify_eq; eapply jobs_set; try done; simpl;
      try (by left); intros t0 f0; rewrite elem_of_app, list_elem_of_singleton; (intros [?|?]; [by left|done]).
  - destruct pc; cbn [clearer_step]; repeat case_decide; intros E; simplify_eq; eapply jobs_set; try done; by left.
Qed.

Lemma schedule_jobs ts s s' : run_schedule reclength ts s = Some s' → same_jobs s s'.
Proof.
  revert s. induction ts as [|t ts IH]; intros s; simpl; [intros [= <-]; split; eauto|].
  destruct (step reclength t s) as [s1|] eqn:E; [|done]. cbn [mbind option_bind]. intros H. destruct (step_jobs _ _ _ E) as [H1 H2], (IH _ H) as [H3 H4].
  split.
  - intros t0 f pc Hth. destruct (H1 _ _ _ Hth) as [pc1 Hth1]. by eapply H3.
  - intros t0 f He. destruct (H4 _ _ He) as [He1|?]; [|by right]. destruct (H2 _ _ He1) as [?|(pc & Hth)]; [by left|right].
    destruct (H3 _ _ _ Hth) as [pc' ?]. eauto.
Qed.
End inv.

(** * Properties *)

(** C9: Reads are not torn.  Readers, writers, deletes and inserts (but no clear) run on a slot in
    any interleaving of their loads, stores and single bytes.  A read that returns a record, and during which no
    insert began to recycle the slot and [seq] changed less than 2^32 times, returns an image the
    slot had: the one after all events up to some moment not before the read began - never a
    mixture. *)
Theorem read_never_torn reclength img0 g ts sched s t cg eg buf v :
  length img0 = reclength → threads_ok reclength ts → run_schedule reclength sched (start img0 g ts) = Some s →
  threads s !! t = Some (Reader cg eg (RReturn FM_ERR_OK buf true v)) →
  ∃ k, (sn_since v ≤ k ≤ length (hist s))%nat ∧ buf = replay (take k (hist s)) img0.
Proof.
  intros Hl Hts Hrun Hth. pose proof (schedule_inv _ _ _ _ _ (start_inv reclength img0 g ts Hl Hts) Hrun) as Hi.
  destruct (in_local _ _ _ Hi _ _ Hth) as [_ _ _ H]. by apply H.
Qed.

(** C10: No update is lost.  Writers that lock the row, read it again, compute the new image from what
    they read and store it, run with readers, deletes and inserts (but no clear) in any interleaving.  Whenever
    the row lock is free and the slot holds a row, its image is that of all the events one after
    the other, each update applied to the image its predecessor left; the updates are those of the
    writers that reported success, each exactly once and with its own function. *)
Theorem no_lost_update reclength img0 g ts sched s :
  length img0 = reclength → threads_ok reclength ts → run_schedule reclength sched (start img0 g ts) = Some s →
  wlock (slot s) = 0 → state (slot s) = FM_SLOT_ACTIVE →
  data (slot s) = replay (hist s) img0 ∧ NoDup (updaters (hist s)) ∧
  (∀ t f ok, threads s !! t = Some (Writer f (WDone ok)) → (t ∈ updaters (hist s) ↔ ok = true)) ∧
  (∀ t f, EUpdate t f ∈ hist s → ∃ pc, threads s !! t = Some (Writer f pc)).
Proof.
  intros Hl Hts Hrun Hw Hlv. pose proof (schedule_inv _ _ _ _ _ (start_inv reclength img0 g ts Hl Hts) Hrun) as Hi.
  pose proof (in_glob _ _ _ Hi) as Hg. split_and!.
  - apply (gl_data _ _ _ Hg); [by apply (gl_even _ _ _ Hg)|by apply (gl_live _ _ _ Hg)].
  - apply Hg.
  - intros t f ok Hth. by destruct (in_local _ _ _ Hi _ _ Hth) as [_ _ _ H].
  - intros t f He. destruct (schedule_jobs _ _ _ _ Hrun) as [_ H]. destruct (H t f He) as [H'|?]; [by apply elem_of_nil in H'|done].
Qed.

(** * What goes wrong *)

(** A read at a position while the row is deleted and its slot recycled: the insert fills the slot
    without touching [seq], and the read returns half of the old record and half of the new. *)
Definition torn_threads : gmap nat thread :=
  {[ 0%nat := Reader true 0 RState; 1%nat := Deleter false 0 DLock; 2%nat := Inserter false [2; 2] IPop ]}.
Definition torn_schedule : list nat := [0; 0; 0; 0; 1; 1; 1; 1; 1; 1; 1; 1; 2; 2; 2; 2; 0; 0]%nat.

Lemma torn_read_recycled : ∃ s v, run_schedule 2 torn_schedule (start [1; 1] 0 torn_threads) = Some s ∧
  threads s !! 0%nat = Some (Reader true 0 (RReturn FM_ERR_OK [1; 2] false v)).
Proof. eexists _, _. split; [vm_compute; reflexivity|]. vm_compute. reflexivity. Qed.

(** A delete in progress while the table is cleared: both put the slot on the freelist. *)
Definition clear_threads : gmap nat thread := {[ 1%nat := Deleter false 0 DLock; 2%nat := Clearer CLock ]}.

Lemma clear_frees_twice : ∃ s, run_schedule 2 [1; 1; 1; 1; 1; 2; 2; 2; 2; 2; 1; 1; 1]%nat (start [1; 1] 0 clear_threads) = Some s ∧
  on_freelist s = 2%nat.
Proof. eexists. split; [vm_compute; reflexivity|]. reflexivity. Qed.
