(* ===== verification/LockOrder.v ===== *)
(** The order of the spinlocks (src/fm_core.h, src/ha_fastmem.cc): the locks that each operation
    takes and releases, the threads that run them interleaved, and why threads that take locks in
    one global order all finish. *)

From Stdlib Require Import Sorted.
From S2P Require Import Prelude CoreState RowOps Lockset.

(** * Locks and programs *)

(** The write lock of a slot, the structure mutex, and the lock of a bucket of a key. *)
Inductive lock := LWlock (i : Z) | LStruct | LBucket (p : FMB).

#[export] Instance lock_eq_dec : EqDecision lock.
Proof. solve_decision. Defined.

Inductive action := Acq (l : lock) | Rel (l : lock).
Abbreviation prog := (list action).

(** Lock a bucket for one step of work. *)
Definition visit (p : FMB) : prog := [Acq (LBucket p); Rel (LBucket p)].

(** [fm_core_find] and [fm_core_find_next]. *)
Definition find_locks (p : FMB) : prog := visit p.

(** [fm_core_insert_row]: the buckets of the record, key by key; [dup] is the key that repeats a
    value, after which the keys before it are taken back. *)
Definition insert_locks (bs : list FMB) (dup : option nat) : prog :=
  [Acq LStruct] ++
  match dup with
  | None => flat_map visit bs
  | Some k => flat_map visit (take (S k) bs) ++ flat_map visit (rev (take k bs))
  end ++ [Rel LStruct].

(** The entries of a sorted lock set without repetitions: those that are locked. *)
Fixpoint firsts (prev : option FMB) (ls : list FMB) : list FMB :=
  match ls with
  | [] => []
  | p :: ls' => if decide (prev = Some p) then firsts (Some p) ls' else p :: firsts (Some p) ls'
  end.

(** The buckets of an update, in the sorted order, and their release in the reverse order. *)
Definition lockset_acq (ls : list FMB) : prog := (Acq ∘ LBucket) <$> firsts None (sort_lockset ls).
Definition lockset_rel (ls : list FMB) : prog := (Rel ∘ LBucket) <$> rev (firsts None (sort_lockset ls)).

(** [fm_core_update_row_locked] (the caller has the lock of the slot) and [fm_core_update_row]. *)
Definition update_locked_locks (ls : list FMB) : prog := lockset_acq ls ++ lockset_rel ls.
Definition update_locks (i : Z) (ls : list FMB) : prog := lockset_acq ls ++ [Acq (LWlock i); Rel (LWlock i)] ++ lockset_rel ls.

(** [fm_core_delete_row_locked] and [fm_core_delete_row]. *)
Definition delete_locked_locks (bs : list FMB) : prog := flat_map visit bs ++ [Acq LStruct; Rel LStruct].
Definition delete_locks (i : Z) (bs : list FMB) : prog := [Acq (LWlock i); Rel (LWlock i)] ++ flat_map visit bs ++ [Acq LStruct; Rel LStruct].

(** [fm_core_clear] over all buckets and the first [total] slots. *)
Definition clear_locks (bs : list FMB) (total : Z) : prog :=
  [Acq LStruct] ++ flat_map visit bs ++ flat_map (λ i, [Acq (LWlock i); Rel (LWlock i)]) (seqZ 0 total) ++ [Rel LStruct].

(** * The handler *)

(** What a statement does with a row that it has locked. *)
Inductive row_work :=
| RwUpdate (ls : list FMB)
| RwDelete (bs : list FMB)
| RwNext (p : FMB)
| RwInsert (bs : list FMB) (dup : option nat).

Definition row_locks (w : row_work) : prog :=
  match w with
  | RwUpdate ls => update_locked_locks ls
  | RwDelete bs => delete_locked_locks bs
  | RwNext p => find_locks p
  | RwInsert bs dup => insert_locks bs dup
  end.

(** The pieces of a statement: lookups and inserts without a row lock, and the cycles in which the
    handler holds the lock of the current row until it updates, deletes or leaves it. *)
Inductive piece :=
| PFind (p : FMB)
| PInsert (bs : list FMB) (dup : option nat)
| PRow (i : Z) (work : list row_work).

Definition piece_locks (c : piece) : prog :=
  match c with
  | PFind p => find_locks p
  | PInsert bs dup => insert_locks bs dup
  | PRow i work => [Acq (LWlock i)] ++ flat_map row_locks work ++ [Rel (LWlock i)]
  end.

Definition statement_locks (cs : list piece) : prog := flat_map piece_locks cs.

(** * Threads *)

(** A thread: the locks it holds and what it still has to do. *)
Abbreviation lthreads := (gmap nat (list lock * prog)).

Definition lock_free (l : lock) (st : lthreads) : Prop := map_Forall (λ _ x, l ∉ x.1) st.

#[export] Instance lock_free_dec l st : Decision (lock_free l st).
Proof. unfold lock_free. apply _. Defined.

(** Release one lock. *)
Definition unhold (l : lock) (held : list lock) : list lock := filter (λ x, x ≠ l) held.

(** The next step of thread [t]; a thread that waits for a lock has none. *)
Definition lock_move (t : nat) (st : lthreads) : option lthreads :=
  x ← st !! t;
  match x with
  | (held, []) => None
  | (held, Acq l :: p) => if decide (lock_free l st) then Some (<[t := (l :: held, p)]> st) else None
  | (held, Rel l :: p) => Some (<[t := (unhold l held, p)]> st)
  end.

Fixpoint lock_run (ts : list nat) (st : lthreads) : option lthreads :=
  match ts with
  | [] => Some st
  | t :: ts' => st' ← lock_move t st; lock_run ts' st'
  end.

Definition launch (ps : gmap nat prog) : lthreads := ([],.) <$> ps.

(** * The global order *)

(** Row locks come first (a thread has at most one), then the mutex, then buckets by key and
    number. *)
Definition code (l : lock) : Z := match l with LWlock _ => -2 | LStruct => -1 | LBucket p => fmb_code p end.

(** The program takes locks in ascending order from [held] on, and ends with none. *)
Fixpoint ordered (held : list lock) (p : prog) : Prop :=
  match p with
  | [] => held = []
  | Acq l :: p' => Forall (λ x, code x < code l) held ∧ ordered (l :: held) p'
  | Rel l :: p' => l ∈ held ∧ ordered (unhold l held) p'
  end.

(** The locks that a thread holds and what it still does. *)
Record lock_inv (st : lthreads) : Prop := {
  li_ordered t held p : st !! t = Some (held, p) → ordered held p;
  li_excl t1 t2 x1 x2 l : t1 ≠ t2 → st !! t1 = Some x1 → st !! t2 = Some x2 → l ∈ x1.1 → l ∉ x2.1
}.

Lemma elem_of_unhold l x held : x ∈ unhold l held ↔ x ≠ l ∧ x ∈ held.
Proof. unfold unhold. by rewrite list_elem_of_filter. Qed.

Lemma lock_move_inv st t st' : lock_inv st → lock_move t st = Some st' → lock_inv st'.
Proof.
  intros [Ho He]. unfold lock_move. destruct (st !! t) as [[held [|[l|l] p]]|] eqn:Ht; cbn [mbind option_bind]; [done| | |done].
  - case_decide as Hf; [|done]. intros [= <-]. destruct (Ho _ _ _ Ht) as [_ Hp]. constructor.
    + intros t0 h0 p0 [[<- [= <- <-]]|[_ H0]]%lookup_insert_Some; [done|by eapply Ho].
    + intros t1 t2 x1 x2 l0 Hne [[<- <-]|[H1 Hx1]]%lookup_insert_Some [[<- <-]|[H2 Hx2]]%lookup_insert_Some; simpl; [done| | |by apply (He t1 t2)].
      * rewrite elem_of_cons. intros [->|Hl]; [by apply (Hf t2)|by eapply (He t t2 _ _ _ Hne Ht Hx2)].
      * intros Hl. rewrite elem_of_cons. intros [->|Hl2]; [by apply (Hf t1 _ Hx1)|by eapply (He t1 t _ _ _ Hne Hx1 Ht)].
  - intros [= <-]. destruct (Ho _ _ _ Ht) as [_ Hp]. constructor.
    + intros t0 h0 p0 [[<- [= <- <-]]|[_ H0]]%lookup_insert_Some; [done|by eapply Ho].
    + intros t1 t2 x1 x2 l0 Hne [[<- <-]|[H1 Hx1]]%lookup_insert_Some [[<- <-]|[H2 Hx2]]%lookup_insert_Some; simpl; [done| | |by apply (He t1 t2)].
      * rewrite elem_of_unhold. intros [_ Hl]. by eapply (He t t2 _ _ _ Hne Ht Hx2).
      * intros Hl. rewrite elem_of_unhold. intros [_ Hl2]. by eapply (He t1 t _ _ _ Hne Hx1 Ht).
Qed.

Lemma lock_run_inv ts : ∀ st st', lock_inv st → lock_run ts st = Some st' → lock_inv st'.
Proof.
  induction ts as [|t ts IH]; intros st st' Hi; simpl; [by intros [= <-]|].
  destruct (lock_move t st) as [st1|] eqn:E; [|done]. cbn [mbind option_bind]. apply IH. by eapply lock_move_inv.
Qed.

(** ** Some thread can go on *)

Definition waits (st : lthreads) (t : nat) (l : lock) : Prop := ∃ held p, st !! t = Some (held, Acq l :: p) ∧ ¬ lock_free l st.

(** Who waits for a lock waits for a thread that waits for a greater one. *)
Lemma waits_greater st t l : lock_inv st → (∀ t, lock_move t st = None) → waits st t l → ∃ t' l', waits st t' l' ∧ code l < code l'.
Proof.
  intros [Ho He] Hstuck (held & p & Ht & Hn). unfold lock_free in Hn. rewrite map_not_Forall in Hn by apply _.
  destruct Hn as (t' & [held' p'] & Ht' & Hl). simpl in Hl. apply dec_stable in Hl.
  pose proof (Hstuck t') as Hs. unfold lock_move in Hs. rewrite Ht' in Hs. cbn [mbind option_bind] in Hs.
  pose proof (Ho _ _ _ Ht') as Hord. destruct p' as [|[l'|l'] p']; simpl in Hord; [subst held'; by apply elem_of_nil in Hl| |done].
  case_decide as Hf; [done|]. exists t', l'. split; [by exists held', p'|]. destruct Hord as [Hall _]. by eapply Forall_forall in Hall.
Qed.

(** The codes that threads wait at are bounded. *)
Lemma codes_bounded (st : lthreads) : ∃ m, ∀ t held l p, st !! t = Some (held, Acq l :: p) → code l ≤ m.
Proof.
  induction st as [|t x st Hx [m IH]] using map_ind; [exists 0; by intros|]. destruct x as [h [|[l|l] p]];
    [exists m|exists (Z.max m (code l))|exists m]; intros t0 h0 l0 p0 [[<- ?]|[_ H0]]%lookup_insert_Some; simplify_eq; try lia; specialize (IH _ _ _ _ H0); lia.
Qed.

Lemma never_stuck st t held p : lock_inv st → st !! t = Some (held, p) → p ≠ [] → ∃ t', is_Some (lock_move t' st).
Proof.
  intros Hi Ht Hp. destruct (decide (map_Forall (λ t' _, lock_move t' st = None) st)) as [Hall|Hex].
  2: { rewrite map_not_Forall in Hex by apply _. destruct Hex as (t' & x & _ & Hs). exists t'. by destruct (lock_move t' st). }
  exfalso. assert (Hstuck : ∀ t, lock_move t st = None).
  { intros t0. destruct (st !! t0) as [x|] eqn:H0; [by eapply Hall|]. unfold lock_move. by rewrite H0. }
  assert (Hw : ∃ t l, waits st t l).
  { pose proof (Hstuck t) as Hs. unfold lock_move in Hs. rewrite Ht in Hs. cbn [mbind option_bind] in Hs. destruct p as [|[l|l] p]; [done| |done].
    case_decide as Hf; [done|]. exists t, l. by exists held, p. }
  destruct (codes_bounded st) as [m Hm]. destruct Hw as (t0 & l0 & Hw).
  assert (Hind : ∀ n t l, waits st t l → m - code l < Z.of_nat n → False).
  { induction n as [|n IH]; intros t1 l1 Hw1 Hlt.
    - destruct Hw1 as (h1 & p1 & Ht1 & _). specialize (Hm _ _ _ _ Ht1). lia.
    - destruct (waits_greater st t1 l1 Hi Hstuck Hw1) as (t2 & l2 & Hw2 & Hlt2). apply (IH t2 l2 Hw2). lia. }
  apply (Hind (S (Z.to_nat (m - code l0))) t0 l0 Hw). lia.
Qed.

(** ** All threads finish *)

(** The steps left. *)
Definition work_left (st : lthreads) : nat := map_fold (λ _ x n, length x.2 + n)%nat 0%nat st.

Lemma work_left_insert t x (st : lthreads) : st !! t = None → work_left (<[t := x]> st) = (length x.2 + work_left st)%nat.
Proof. intros H. unfold work_left. rewrite map_fold_insert_L; [done| |done]. intros. lia. Qed.

Lemma lock_move_work st t st' : lock_move t st = Some st' → work_left st = S (work_left st').
Proof.
  unfold lock_move. destruct (st !! t) as [[held p]|] eqn:Ht; [|done]. cbn [mbind option_bind].
  assert (E : ∀ h' a p', p = a :: p' → work_left st = S (work_left (<[t := (h', p')]> st))).
  { intros h' a p' ->. rewrite <-(insert_delete_id st t _ Ht), insert_insert_eq, !work_left_insert by apply lookup_delete_eq. simpl. lia. }
  destruct p as [|[l|l] p]; [done| |]; [case_decide; [|done]|]; intros [= <-]; by eapply E.
Qed.

Lemma lock_run_work ts : ∀ st st', lock_run ts st = Some st' → work_left st = (length ts + work_left st')%nat.
Proof.
  induction ts as [|t ts IH]; intros st st'; simpl; [by intros [= <-]|]. destruct (lock_move t st) as [st1|] eqn:E; [|done]. cbn [mbind option_bind].
  intros H. rewrite (lock_move_work _ _ _ E), (IH _ _ H). done.
Qed.

(** From every state that ordered threads reach, they can all be run to the end. *)
Lemma can_finish st : lock_inv st → ∃ ts st', lock_run ts st = Some st' ∧ map_Forall (λ _ x, x = ([], [])) st'.
Proof.
  remember (work_left st) as n eqn:Hn. revert st Hn. induction n as [n IH] using lt_wf_ind. intros st -> Hi.
  destruct (decide (map_Forall (λ _ x, x.2 = []) st)) as [Hdone|Hmore].
  - exists [], st. split; [done|]. intros t [held p] Ht. specialize (Hdone t _ Ht). simpl in Hdone. subst p. f_equal. exact (li_ordered _ Hi _ _ _ Ht).
  - rewrite map_not_Forall in Hmore by apply _. destruct Hmore as (t & [held p] & Ht & Hp).
    destruct (never_stuck st t held p Hi Ht Hp) as (t' & st1 & E). pose proof (lock_move_work _ _ _ E) as Hw.
    destruct (IH (work_left st1) ltac:(lia) st1 eq_refl (lock_move_inv _ _ _ Hi E)) as (ts & st' & Hrun & Hfin).
    exists (t' :: ts), st'. split; [|done]. simpl. by rewrite E.
Qed.

(** * The programs are ordered *)

(** [p] run with [held] goes up from it and gives back what it took; more can follow. *)
Definition above (held : list lock) (p : prog) : Prop := ∀ q, ordered held q → ordered held (p ++ q).

Lemma above_nil held : above held [].
Proof. by intros q. Qed.

Lemma above_app held p1 p2 : above held p1 → above held p2 → above held (p1 ++ p2).
Proof. intros H1 H2 q Hq. rewrite <-app_assoc. auto. Qed.

Lemma above_flat {A} held (f : A → prog) l : (∀ x, x ∈ l → above held (f x)) → above held (flat_map f l).
Proof.
  induction l as [|x l IH]; intros H; simpl; [apply above_nil|]. apply above_app; [apply H; by left|]. apply IH. intros y Hy. apply H. by right.
Qed.

Lemma unhold_last l held : l ∉ held → unhold l (l :: held) = held.
Proof.
  intros Hn. unfold unhold. rewrite filter_cons_False by naive_solver. induction held as [|x held IH]; [done|].
  rewrite elem_of_cons in Hn. rewrite filter_cons_True by naive_solver. f_equal. apply IH. naive_solver.
Qed.

(** Take a lock, do something, release it. *)
Lemma above_lock held l p : Forall (λ x, code x < code l) held → above (l :: held) p → above held ([Acq l] ++ p ++ [Rel l]).
Proof.
  intros Hl Hp q Hq. simpl. split; [done|]. rewrite <-app_assoc. apply Hp. simpl. split; [by left|]. rewrite unhold_last; [done|].
  intros Hin. eapply Forall_forall in Hl; [|done]. simpl in Hl. lia.
Qed.

(** Buckets are numbered within their widths. *)
Definition buckets_ok (bs : list FMB) : Prop := Forall fmb_ok bs.

Lemma code_bucket p : fmb_ok p → 0 ≤ code (LBucket p).
Proof. intros Hp. simpl. rewrite fmb_code_eq by done. destruct Hp. lia. Qed.

(** Locks before all buckets. *)
Definition before_buckets (held : list lock) : Prop := Forall (λ x, code x < 0) held.

Lemma above_visit held p : before_buckets held → fmb_ok p → above held (visit p).
Proof.
  intros Hh Hp. apply (above_lock held (LBucket p) []); [|apply above_nil]. eapply Forall_impl; [done|]. intros x Hx. simpl in Hx.
  pose proof (code_bucket p Hp). lia.
Qed.

Lemma above_visits held bs : before_buckets held → buckets_ok bs → above held (flat_map visit bs).
Proof. intros Hh Hb. apply above_flat. intros p Hp. apply above_visit; [done|]. by eapply Forall_forall in Hb. Qed.

Definition before_struct (held : list lock) : Prop := Forall (λ x, code x < -1) held.

Lemma before_struct_buckets held : before_struct held → before_buckets (LStruct :: held) ∧ before_buckets held.
Proof. intros H. assert (before_buckets held) by (eapply Forall_impl; [done|]; simpl; lia). split; [|done]. by constructor. Qed.

Lemma insert_above held bs dup : before_struct held → buckets_ok bs → above held (insert_locks bs dup).
Proof.
  intros Hh Hb. destruct (before_struct_buckets _ Hh) as [Hs _]. apply above_lock; [done|]. destruct dup as [k|]; [|by apply above_visits].
  apply above_app; apply above_visits; try done.
  - by apply Forall_take.
  - by apply List.Forall_rev, Forall_take.
Qed.

Lemma delete_above held bs : before_struct held → buckets_ok bs → above held (delete_locked_locks bs).
Proof.
  intros Hh Hb. destruct (before_struct_buckets _ Hh) as [_ Hs]. apply above_app; [by apply above_visits|].
  apply (above_lock held LStruct []); [done|apply above_nil].
Qed.

(** ** The lock set of an update *)

Definition code_lt (p q : FMB) : Prop := fmb_code p < fmb_code q.

(** What is locked of a sorted lock set ascends strictly. *)
Lemma firsts_sorted ls : StronglySorted code_le ls → Forall fmb_ok ls →
  StronglySorted code_lt (firsts None ls) ∧ ∀ prev, fmb_ok prev → Forall (code_le prev) ls →
    StronglySorted code_lt (firsts (Some prev) ls) ∧ Forall (code_lt prev) (firsts (Some prev) ls).
Proof.
  induction 1 as [|p ls Hs IH Hall]; intros Hok; [split; [constructor|]; intros; split; constructor|].
  inversion Hok as [|?? Hp Hls]; subst. destruct (IH Hls) as [_ IH2]. destruct (IH2 p Hp Hall) as [Hss Hlt]. simpl.
  assert (Hcons : StronglySorted code_lt (p :: firsts (Some p) ls)) by by constructor. split; [done|]. intros prev Hprev Hle.
  inversion Hle as [|?? Hpp Hle']; subst. case_decide as Heq; [injection Heq as ->; done|].
  assert (Hlt0 : code_lt prev p).
  { unfold code_lt, code_le in *. destruct (decide (fmb_code prev = fmb_code p)) as [E|]; [|lia]. by apply fmb_code_inj in E as ->. }
  split; [done|]. constructor; [done|]. eapply Forall_impl; [exact Hlt|]. unfold code_lt in *. intros. lia.
Qed.

(** Strictly ascending buckets, taken in order and released in the reverse order. *)
Lemma above_ascending ls : ∀ held, StronglySorted code_lt ls → (∀ x p, x ∈ held → p ∈ ls → code x < fmb_code p) →
  above held (((Acq ∘ LBucket) <$> ls) ++ ((Rel ∘ LBucket) <$> rev ls)).
Proof.
  induction ls as [|p ls IH]; intros held Hs Hh; [apply above_nil|]. inversion Hs as [|?? Hs' Hall]; subst. simpl rev. rewrite fmap_app, app_assoc, !fmap_cons.
  apply (above_lock held (LBucket p) (((Acq ∘ LBucket) <$> ls) ++ ((Rel ∘ LBucket) <$> rev ls))).
  - apply Forall_forall. intros x Hx. apply Hh; [done|by left].
  - apply IH; [done|]. intros x q [->|Hx]%elem_of_cons Hq; [by eapply Forall_forall in Hall|]. apply Hh; [done|by right].
Qed.

Lemma elem_of_firsts ls : ∀ prev p, p ∈ firsts prev ls → p ∈ ls.
Proof.
  induction ls as [|q ls IH]; intros prev p; simpl; [done|]. case_decide; rewrite ?elem_of_cons; [intros H'%IH; by right|].
  intros [->|H'%IH]; [by left|by right].
Qed.

Lemma update_above held ls : before_buckets held → buckets_ok ls → above held (update_locked_locks ls).
Proof.
  intros Hh Hok. destruct (sort_lockset_spec ls) as [Hsort Hperm].
  assert (Hok' : Forall fmb_ok (sort_lockset ls)) by (unfold buckets_ok in Hok; by rewrite Hperm).
  apply above_ascending; [by apply firsts_sorted|]. intros x p Hx Hp%elem_of_firsts. eapply Forall_forall in Hx; [|exact Hh]. eapply Forall_forall in Hp; [|exact Hok'].
  simpl in Hx. pose proof (code_bucket p Hp). simpl in *. lia.
Qed.

(** ** Statements *)

Definition work_ok (w : row_work) : Prop :=
  match w with RwUpdate bs | RwDelete bs | RwInsert bs _ => buckets_ok bs | RwNext p => fmb_ok p end.
Definition piece_ok (c : piece) : Prop :=
  match c with PFind p => fmb_ok p | PInsert bs _ => buckets_ok bs | PRow _ work => Forall work_ok work end.

Lemma row_above i w : work_ok w → above [LWlock i] (row_locks w).
Proof.
  assert (before_struct [LWlock i]) by (by constructor). assert (before_buckets [LWlock i]) by (by constructor).
  destruct w; simpl; intros Hw; [by apply update_above|by apply delete_above|by apply above_visit|by apply insert_above].
Qed.

Lemma statement_ordered cs : Forall piece_ok cs → ordered [] (statement_locks cs).
Proof.
  assert (before_struct []) by constructor. assert (before_buckets []) by constructor. intros Hcs. rewrite <-(app_nil_r (statement_locks cs)). apply above_flat; [|done]. intros c Hc. eapply Forall_forall in Hcs; [|done].
  destruct c as [p|bs dup|i work]; simpl in Hcs; [by apply above_visit|by apply insert_above|].
  apply above_lock; [done|]. apply above_flat. intros w Hw. apply row_above. by eapply Forall_forall in Hcs.
Qed.

(** * Properties *)

(** C22: Statements do not deadlock.  Threads run statements of the handler - lookups, inserts with or
    without a duplicate, and cycles that lock a row, then update it (taking the sorted lock set of
    buckets), delete it, look for the next row or insert, and release it - in any interleaving of
    their lock operations, but no clear.  In every state they reach, as long as some thread is not
    finished some thread can take a step, the threads can be run to the end, and no execution is
    longer than the programs together: every execution that is not stopped ends with all threads
    finished and no lock held. *)
Theorem statements_deadlock_free (stmts : gmap nat (list piece)) sched st :
  map_Forall (λ _ cs, Forall piece_ok cs) stmts → lock_run sched (launch (statement_locks <$> stmts)) = Some st →
  (∀ t held p, st !! t = Some (held, p) → p ≠ [] → ∃ t', is_Some (lock_move t' st)) ∧
  (∃ ts st', lock_run ts st = Some st' ∧ map_Forall (λ _ x, x = ([], [])) st') ∧
  (length sched ≤ work_left (launch (statement_locks <$> stmts)))%nat.
Proof.
  intros Hok Hrun. assert (Hi : lock_inv (launch (statement_locks <$> stmts))).
  { unfold launch. constructor.
    - intros t held p. rewrite !lookup_fmap. destruct (stmts !! t) as [cs|] eqn:Hcs; [|done]. intros [= <- <-]. apply statement_ordered. by eapply Hok.
    - intros t1 t2 x1 x2 l _. rewrite !lookup_fmap. destruct (stmts !! t1); [|done]. intros [= <-] _ H. by apply elem_of_nil in H. }
  pose proof (lock_run_inv _ _ _ Hi Hrun) as Hi'. split_and!.
  - intros t held p Ht Hp. by eapply never_stuck.
  - by apply can_finish.
  - rewrite (lock_run_work _ _ _ Hrun). lia.
Qed.

(** * What deadlocks *)

(** A thread deletes a row of slot 0 it has locked, another clears the table: the first waits for
    the mutex that the second has, the second for the row lock. *)
Definition clear_vs_delete : gmap nat prog :=
  {[ 1%nat := piece_locks (PRow 0 [RwDelete [mkFMB 0 0]]); 2%nat := clear_locks [mkFMB 0 0] 1 ]}.

Lemma clear_delete_deadlock : ∃ st, lock_run [1; 1; 1; 2; 2; 2]%nat (launch clear_vs_delete) = Some st ∧
  lock_move 1 st = None ∧ lock_move 2 st = None ∧ work_left st ≠ O.
Proof. eexists. split; [vm_compute; reflexivity|]. split_and!; vm_compute; done. Qed.

(** The two updates of the core take the row lock and the buckets in opposite orders. *)
Definition update_vs_locked : gmap nat prog :=
  {[ 1%nat := update_locks 0 [mkFMB 0 0]; 2%nat := piece_locks (PRow 0 [RwUpdate [mkFMB 0 0]]) ]}.

Lemma update_update_deadlock : ∃ st, lock_run [1; 2]%nat (launch update_vs_locked) = Some st ∧
  lock_move 1 st = None ∧ lock_move 2 st = None ∧ work_left st ≠ O.
Proof. eexists. split; [vm_compute; reflexivity|]. split_and!; vm_compute; done. Qed.
