(* ===== verification/Unique.v ===== *)
(** Threads on the rows of a unique key (src/fm_core.h): inserts, read-modify-write updates, deletes
    and lookups of any rows, interleaved at every lock, chain operation, row read and row write.  A row
    read and a row write are one step each (see Seqlock), and so is a change of a chain, which is made
    under the lock of its bucket; a walk of a chain (duplicate check, lookup) reads one row per step, along the
    chain as it is when the walk begins, which its bucket lock keeps as it is.  The table has this one
    key and all its chunks: the freelist has every slot that is not in use.  Generations and the
    row counter are left out: a thread changes a row under its lock, or while the slot is its own. *)

From S2P Require Import Prelude CoreState RowOps Shape Inv.

(** * Threads *)

Record krow := mkRow { k_state : fm_slot_state; k_img : bytes }.

(** [fm_core_insert_row] *)
Inductive ins_pc :=
| InMutex
| InAlloc
| InCopy (idx : Z)
| InLock (idx : Z)
| InWalk (idx : Z) (rest : list Z)
| InLink (idx : Z)
| InRelease (idx : Z)
| InPublish (idx : Z)
| InDup (idx : Z)
| InFree (idx : Z)
| InEnd (rc : fm_err)
| InReturn (rc : fm_err).

(** The write cycle of the handler: lock the row, read it, compute the new image and call
    [fm_core_update_row_locked]. *)
Inductive upd_pc :=
| UpLock
| UpRead
| UpVerify (old_rec new_rec : bytes)
| UpFast (old_rec new_rec : bytes)
| UpLock1 (old_rec new_rec : bytes)
| UpLock2 (old_rec new_rec : bytes)
| UpWalk (old_rec new_rec : bytes) (rest : list Z)
| UpWrite (old_rec new_rec : bytes)
| UpUnlink (old_rec new_rec : bytes)
| UpLink (old_rec new_rec : bytes)
| UpRel2 (old_rec new_rec : bytes) (rc : fm_err)
| UpRel1 (old_rec new_rec : bytes) (rc : fm_err)
| UpRow (rc : fm_err)
| UpReturn (rc : fm_err).

(** [fm_core_delete_row_locked] between the lock and the unlock of the handler. *)
Inductive del_pc :=
| DeLock
| DeVerify
| DeMark
| DeCopy
| DeBucket (scratch : bytes)
| DeUnlink (scratch : bytes)
| DeRelease (scratch : bytes)
| DeDead
| DeMutex
| DeFree
| DeEnd
| DeRow (rc : fm_err)
| DeReturn (rc : fm_err).

(** [fm_core_find]: what it found is a slot with the image read there. *)
Inductive find_pc :=
| FiLock
| FiWalk (rest : list Z)
| FiUnlock (res : option (Z * bytes))
| FiReturn (res : option (Z * bytes)).

Inductive kthread :=
| KIns (rec : bytes) (p : ins_pc)
| KUpd (idx : Z) (f : bytes → bytes) (p : upd_pc)
| KDel (idx : Z) (p : del_pc)
| KFind (pk : bytes) (p : find_pc).

(** The rows, the chains of the buckets, the freelist, who holds which lock, and the threads. *)
Record ksys := mkK {
  k_rows : gmap Z krow;
  k_chains : gmap Z (list Z);
  k_free : list Z;
  k_rlock : gmap Z nat;
  k_block : gmap Z nat;
  k_mutex : option nat;
  k_crew : gmap nat kthread
}.

Definition w_rows (m : gmap Z krow) (s : ksys) : ksys := mkK m (k_chains s) (k_free s) (k_rlock s) (k_block s) (k_mutex s) (k_crew s).
Definition w_chain (b : Z) (l : list Z) (s : ksys) : ksys := mkK (k_rows s) (<[b := l]> (k_chains s)) (k_free s) (k_rlock s) (k_block s) (k_mutex s) (k_crew s).
Definition w_free (l : list Z) (s : ksys) : ksys := mkK (k_rows s) (k_chains s) l (k_rlock s) (k_block s) (k_mutex s) (k_crew s).
Definition w_rlock (m : gmap Z nat) (s : ksys) : ksys := mkK (k_rows s) (k_chains s) (k_free s) m (k_block s) (k_mutex s) (k_crew s).
Definition w_block (m : gmap Z nat) (s : ksys) : ksys := mkK (k_rows s) (k_chains s) (k_free s) (k_rlock s) m (k_mutex s) (k_crew s).
Definition w_mutex (o : option nat) (s : ksys) : ksys := mkK (k_rows s) (k_chains s) (k_free s) (k_rlock s) (k_block s) o (k_crew s).
Definition w_crew (t : nat) (th : kthread) (s : ksys) : ksys := mkK (k_rows s) (k_chains s) (k_free s) (k_rlock s) (k_block s) (k_mutex s) (<[t := th]> (k_crew s)).

Definition chain_of (s : ksys) (b : Z) : list Z := default [] (k_chains s !! b).
Definition row_state (s : ksys) (i : Z) : option fm_slot_state := k_state <$> k_rows s !! i.
Definition image_of (s : ksys) (i : Z) : bytes := default [] (k_img <$> k_rows s !! i).
(** The image that [fm_core_read_row] gives. *)
Definition active (s : ksys) (i : Z) : option bytes :=
  r ← k_rows s !! i; if decide (k_state r = FM_SLOT_ACTIVE) then Some (k_img r) else None.

Definition put_state (i : Z) (st : fm_slot_state) (s : ksys) : ksys := w_rows (alter (λ r, mkRow st (k_img r)) i (k_rows s)) s.
Definition put_image (i : Z) (img : bytes) (s : ksys) : ksys := w_rows (alter (λ r, mkRow (k_state r) img) i (k_rows s)) s.

(** [fm_core_chain_link], and [fm_core_chain_unlink]: the first occurrence. *)
Definition do_link (b i : Z) (s : ksys) : ksys := w_chain b (i :: chain_of s b) s.
Fixpoint remove_first (i : Z) (l : list Z) : list Z :=
  match l with [] => [] | x :: l' => if decide (x = i) then l' else x :: remove_first i l' end.
Definition do_unlink (b i : Z) (s : ksys) : ksys := w_chain b (remove_first i (chain_of s b)) s.

(** Spinlocks: no step while somebody else holds the lock. *)
Definition lock_bucket (t : nat) (b : Z) (s : ksys) : option ksys :=
  match k_block s !! b with None => Some (w_block (<[b := t]> (k_block s)) s) | Some _ => None end.
Definition release_bucket (b : Z) (s : ksys) : ksys := w_block (delete b (k_block s)) s.
Definition lock_row (t : nat) (i : Z) (s : ksys) : option ksys :=
  match k_rlock s !! i with None => Some (w_rlock (<[i := t]> (k_rlock s)) s) | Some _ => None end.
Definition release_row (i : Z) (s : ksys) : ksys := w_rlock (delete i (k_rlock s)) s.
Definition lock_mutex (t : nat) (s : ksys) : option ksys :=
  match k_mutex s with None => Some (w_mutex (Some t) s) | Some _ => None end.
Definition release_mutex (s : ksys) : ksys := w_mutex None s.

Section steps.
Context (kc : FM_KEY_CORE).

(** [cmp_rec_rec(a, b) == 0] and [fm_core_key_bucket]. *)
Definition key_same (a b : bytes) : bool := bool_decide (same_key (ops kc) a b).
Definition rec_bucket (rec : bytes) : Z := fm_bucket kc (hash_of (ops kc) rec).
#[local] Abbreviation same := key_same.
#[local] Abbreviation bucket := rec_bucket.

(** The rows that [fm_core_dup_check] walks: none for a record with a null part. *)
Definition walk_from (s : ksys) (rec : bytes) : list Z :=
  if unique kc && negb (has_null kc rec) then chain_of s (bucket rec) else [].

(** The body of the loop of [fm_core_dup_check]: the row is a duplicate of [rec]. *)
Definition is_dup (s : ksys) (h : Z) (rec : bytes) : bool :=
  match active s h with Some img => same img rec | None => false end.

Definition ins_step (t : nat) (rec : bytes) (p : ins_pc) (s : ksys) : option ksys :=
  let go p' s' := Some (w_crew t (KIns rec p') s') in
  match p with
  | InMutex => s' ← lock_mutex t s; go InAlloc s'
  | InAlloc => match k_free s with [] => go (InEnd FM_ERR_FULL) s | idx :: fl => go (InCopy idx) (w_free fl s) end
  | InCopy idx => go (InLock idx) (put_image idx rec s)
  | InLock idx => s' ← lock_bucket t (bucket rec) s; go (InWalk idx (walk_from s rec)) s'
  | InWalk idx [] => go (InLink idx) s
  | InWalk idx (h :: rest) => if is_dup s h rec then go (InDup idx) s else go (InWalk idx rest) s
  | InLink idx => go (InRelease idx) (do_link (bucket rec) idx s)
  | InRelease idx => go (InPublish idx) (release_bucket (bucket rec) s)
  | InPublish idx => go (InEnd FM_ERR_OK) (put_state idx FM_SLOT_ACTIVE s)
  | InDup idx => go (InFree idx) (release_bucket (bucket rec) s)
  | InFree idx => go (InEnd FM_ERR_DUP_KEY) (w_free (idx :: k_free s) s)
  | InEnd rc => go (InReturn rc) (release_mutex s)
  | InReturn _ => None
  end.

(** The two buckets of a key change, in the order in which they are locked. *)
Definition low (old_rec new_rec : bytes) : Z := Z.min (bucket old_rec) (bucket new_rec).
Definition high (old_rec new_rec : bytes) : Z := Z.max (bucket old_rec) (bucket new_rec).

Definition upd_step (t : nat) (i : Z) (f : bytes → bytes) (p : upd_pc) (s : ksys) : option ksys :=
  let go p' s' := Some (w_crew t (KUpd i f p') s') in
  match p with
  | UpLock => s' ← lock_row t i s; go UpRead s'
  | UpRead => match active s i with Some old => go (UpVerify old (f old)) s | None => go (UpRow FM_ERR_DELETED) s end
  | UpVerify old new =>
      if decide (row_state s i = Some FM_SLOT_ACTIVE) then go (if same old new then UpFast old new else UpLock1 old new) s
      else go (UpRow FM_ERR_DELETED) s
  | UpFast old new => go (UpRow FM_ERR_OK) (put_image i new s)
  | UpLock1 old new =>
      s' ← lock_bucket t (low old new) s;
      go (if decide (bucket old = bucket new) then UpWalk old new (walk_from s new) else UpLock2 old new) s'
  | UpLock2 old new => s' ← lock_bucket t (high old new) s; go (UpWalk old new (walk_from s new)) s'
  | UpWalk old new [] => go (UpWrite old new) s
  | UpWalk old new (h :: rest) => if is_dup s h new then go (UpRel2 old new FM_ERR_DUP_KEY) s else go (UpWalk old new rest) s
  | UpWrite old new => go (UpUnlink old new) (put_image i new s)
  | UpUnlink old new => go (UpLink old new) (do_unlink (bucket old) i s)
  | UpLink old new => go (UpRel2 old new FM_ERR_OK) (do_link (bucket new) i s)
  | UpRel2 old new rc => go (UpRel1 old new rc) (if decide (bucket old = bucket new) then s else release_bucket (high old new) s)
  | UpRel1 old new rc => go (UpRow rc) (release_bucket (low old new) s)
  | UpRow rc => go (UpReturn rc) (release_row i s)
  | UpReturn _ => None
  end.

Definition del_step (t : nat) (i : Z) (p : del_pc) (s : ksys) : option ksys :=
  let go p' s' := Some (w_crew t (KDel i p') s') in
  match p with
  | DeLock => s' ← lock_row t i s; go DeVerify s'
  | DeVerify => go (if decide (row_state s i = Some FM_SLOT_ACTIVE) then DeMark else DeRow FM_ERR_DELETED) s
  | DeMark => go DeCopy (put_state i FM_SLOT_DELETING s)
  | DeCopy => go (DeBucket (image_of s i)) s
  | DeBucket r => s' ← lock_bucket t (bucket r) s; go (DeUnlink r) s'
  | DeUnlink r => go (DeRelease r) (do_unlink (bucket r) i s)
  | DeRelease r => go DeDead (release_bucket (bucket r) s)
  | DeDead => go DeMutex (put_state i FM_SLOT_DELETED s)
  | DeMutex => s' ← lock_mutex t s; go DeFree s'
  | DeFree => go DeEnd (w_free (i :: k_free s) s)
  | DeEnd => go (DeRow FM_ERR_OK) (release_mutex s)
  | DeRow rc => go (DeReturn rc) (release_row i s)
  | DeReturn _ => None
  end.

(** [fm_bucket(kc, hash_key(pk))] and [cmp_rec_key(img, pk) == 0]. *)
Definition pk_bucket (pk : bytes) : Z := fm_bucket kc (key_hash_of (ops kc) pk).
Definition key_match (img pk : bytes) : bool := bool_decide (matches_key (ops kc) img pk).

Definition find_step (t : nat) (pk : bytes) (p : find_pc) (s : ksys) : option ksys :=
  let go p' s' := Some (w_crew t (KFind pk p') s') in
  match p with
  | FiLock => s' ← lock_bucket t (pk_bucket pk) s; go (FiWalk (chain_of s (pk_bucket pk))) s'
  | FiWalk [] => go (FiUnlock None) s
  | FiWalk (h :: rest) =>
      match active s h with
      | Some img => if key_match img pk then go (FiUnlock (Some (h, img))) s else go (FiWalk rest) s
      | None => go (FiWalk rest) s
      end
  | FiUnlock res => go (FiReturn res) (release_bucket (pk_bucket pk) s)
  | FiReturn _ => None
  end.

Definition kstep (t : nat) (s : ksys) : option ksys :=
  th ← k_crew s !! t;
  match th with
  | KIns rec p => ins_step t rec p s
  | KUpd i f p => upd_step t i f p s
  | KDel i p => del_step t i p s
  | KFind pk p => find_step t pk p s
  end.

Fixpoint krun (sched : list nat) (s : ksys) : option ksys :=
  match sched with [] => Some s | t :: sched' => s' ← kstep t s; krun sched' s' end.
End steps.
