(* ===== verification/UniqueSafe.v ===== *)
(** Unique keys under threads: the invariant of the threads of Unique, its proof for every step, and
    the theorem that no interleaving breaks a unique key as long as nobody inserts or nobody changes
    a key. *)

From S2P Require Import Prelude CoreState RowOps Shape Inv Unique.

(** * What a thread holds and knows *)

Section safety.
Context (kc : FM_KEY_CORE) {L : KeyOpsLaws (ops kc)} (Hu : unique kc = true).
#[local] Set Default Proof Using "Type*".

#[local] Abbreviation same := (key_same kc).
#[local] Abbreviation bucket := (rec_bucket kc).
#[local] Abbreviation low := (low kc).
#[local] Abbreviation high := (high kc).

(** The unique key is violated: the same key, without null parts. *)
Definition clash (a b : bytes) : bool := same a b && negb (has_null kc a).

Lemma same_true a b : same a b = true ↔ same_key (ops kc) a b.
Proof using Type. apply bool_decide_eq_true. Qed.
Lemma same_refl a : same a a = true.
Proof using L. by apply same_true. Qed.
Lemma same_sym a b : same a b = same b a.
Proof using L. apply bool_decide_ext. by split; intros ?; symmetry. Qed.
Lemma same_trans a b c : same a b = true → same b c = true → same a c = true.
Proof using L. rewrite !same_true. intros H1 H2. by etrans. Qed.
Lemma same_bucket a b : same a b = true → bucket a = bucket b.
Proof using L. rewrite same_true. intros H. unfold rec_bucket. by rewrite (laws_hash _ _ H). Qed.
Lemma same_null a b : same a b = true → has_null kc a = has_null kc b.
Proof using L.
  assert (H : ∀ a b, same a b = true → has_null kc a = true → has_null kc b = true).
  { intros a' b' Hs%same_true. pose proof (laws_null _ _ Hs) as Hn. unfold null_key in Hn. unfold has_null. destruct (has_null_part (ops kc)); [|done].
    by rewrite !bool_decide_eq_true. }
  intros Hs. pose proof (H _ _ Hs) as H1. rewrite same_sym in Hs. pose proof (H _ _ Hs) as H2. destruct (has_null kc a), (has_null kc b); naive_solver.
Qed.

Lemma clash_true a b : clash a b = true ↔ same a b = true ∧ has_null kc a = false.
Proof using Type. unfold clash. by rewrite andb_true_iff, negb_true_iff. Qed.
Lemma clash_sym a b : clash a b = clash b a.
Proof using L. unfold clash. rewrite (same_sym b a). destruct (same a b) eqn:E; [|done]. by rewrite (same_null a b). Qed.
Lemma clash_l a b c : same a b = true → clash b c = true → clash a c = true.
Proof using L. intros H1. rewrite !clash_true, (same_null a b) by done. intros [H2 Hn]. split; [by eapply same_trans|done]. Qed.
Lemma clash_r a b c : clash a b = true → same b c = true → clash a c = true.
Proof using L. rewrite !clash_true. intros [H1 Hn] H2. split; [by eapply same_trans|done]. Qed.
Lemma clash_not a b : same a b = false → clash a b = false.
Proof using Type. unfold clash. by intros ->. Qed.

Definition holds_bucket (th : kthread) (b : Z) : Prop :=
  match th with
  | KIns rec (InWalk _ _ | InLink _ | InRelease _ | InDup _) => b = bucket rec
  | KUpd _ _ (UpLock2 old new | UpRel1 old new _) => b = low old new
  | KUpd _ _ (UpWalk old new _ | UpWrite old new | UpUnlink old new | UpLink old new | UpRel2 old new _) => b = low old new ∨ b = high old new
  | KDel _ (DeUnlink r | DeRelease r) => b = bucket r
  | KFind pk (FiWalk _ | FiUnlock _) => b = pk_bucket kc pk
  | _ => False
  end.

Definition holds_rowlock (th : kthread) (i : Z) : Prop :=
  match th with
  | KIns _ _ | KUpd _ _ (UpLock | UpReturn _) | KDel _ (DeLock | DeReturn _) | KFind _ _ => False
  | KUpd j _ _ | KDel j _ => i = j
  end.

Definition holds_mutex (th : kthread) : Prop :=
  match th with
  | KIns _ (InMutex | InReturn _) => False
  | KIns _ _ | KDel _ (DeFree | DeEnd) => True
  | _ => False
  end.

(** The slot that an insert has taken and not published, or a delete has marked and not given
    back. *)
Definition owns (th : kthread) : option Z :=
  match th with
  | KIns _ (InCopy i | InLock i | InWalk i _ | InLink i | InRelease i | InPublish i | InDup i | InFree i) => Some i
  | KDel i (DeCopy | DeBucket _ | DeUnlink _ | DeRelease _ | DeDead | DeMutex | DeFree) => Some i
  | _ => None
  end.

(** The row is between its old and its new chain. *)
Definition moving (th : kthread) (i : Z) : Prop :=
  match th with KUpd j _ (UpUnlink _ _ | UpLink _ _) => i = j | _ => False end.

(** No row but [x] has the key of [rec]; or those that have it are in [rest]. *)
Definition absent (s : ksys) (x : Z) (rec : bytes) : Prop := ∀ j img, j ≠ x → active s j = Some img → clash img rec = false.
Definition ahead (s : ksys) (x : Z) (rec : bytes) (rest : list Z) : Prop :=
  ∀ j img, j ≠ x → active s j = Some img → clash img rec = true → j ∈ rest.

(** The key that a thread looks for, or has found to be free, and the row that will have it. *)
Definition watches (th : kthread) : option (Z * bytes) :=
  match th with
  | KIns rec (InWalk i _ | InLink i | InRelease i | InPublish i) => Some (i, rec)
  | KUpd i _ (UpWalk _ new _ | UpWrite _ new) => Some (i, new)
  | _ => None
  end.

Definition knows (s : ksys) (th : kthread) : Prop :=
  match th with
  | KIns rec (InLock i) => image_of s i = rec
  | KIns rec (InWalk i rest) => image_of s i = rec ∧ ahead s i rec rest
  | KIns rec (InLink i) => image_of s i = rec ∧ absent s i rec
  | KIns rec (InRelease i | InPublish i) => image_of s i = rec ∧ absent s i rec ∧ i ∈ chain_of s (bucket rec)
  | KUpd i f (UpVerify old new) => active s i = Some old ∧ new = f old
  | KUpd i f (UpFast old new) => active s i = Some old ∧ same old new = true
  | KUpd i f (UpLock1 old new | UpLock2 old new) => active s i = Some old ∧ new = f old ∧ same old new = false
  | KUpd i f (UpWalk old new rest) => active s i = Some old ∧ new = f old ∧ same old new = false ∧ ahead s i new rest
  | KUpd i f (UpWrite old new) => active s i = Some old ∧ new = f old ∧ same old new = false ∧ absent s i new
  | KUpd i f (UpUnlink old new | UpLink old new) => active s i = Some new ∧ new = f old ∧ same old new = false
  | KDel i DeMark => is_Some (active s i)
  | _ => True
  end.

(** Either nobody inserts, or nobody changes a key. *)
Definition is_insert (th : kthread) : Prop := match th with KIns _ _ => True | _ => False end.
Definition keeps_key (th : kthread) : Prop := match th with KUpd _ f _ => ∀ img, same img (f img) = true | _ => True end.
Definition regime (crew : gmap nat kthread) : Prop :=
  (∀ t th, crew !! t = Some th → ¬ is_insert th) ∨ (∀ t th, crew !! t = Some th → keeps_key th).

Record kinv (s : ksys) : Prop := {
  ki_unique i j a b : active s i = Some a → active s j = Some b → i ≠ j → clash a b = false;
  ki_chain i a : active s i = Some a → i ∈ chain_of s (bucket a) ∨ ∃ t th, k_crew s !! t = Some th ∧ moving th i;
  ki_free i : i ∈ k_free s → active s i = None ∧ is_Some (k_rows s !! i);
  ki_nodup : NoDup (k_free s);
  ki_owns t th i : k_crew s !! t = Some th → owns th = Some i → active s i = None ∧ (i ∉ k_free s) ∧ is_Some (k_rows s !! i);
  ki_own t t' th th' i : k_crew s !! t = Some th → k_crew s !! t' = Some th' → owns th = Some i → owns th' = Some i → t = t';
  ki_block t th b : k_crew s !! t = Some th → holds_bucket th b → k_block s !! b = Some t;
  ki_rlock t th i : k_crew s !! t = Some th → holds_rowlock th i → k_rlock s !! i = Some t;
  ki_mutex t th : k_crew s !! t = Some th → holds_mutex th → k_mutex s = Some t;
  ki_knows t th : k_crew s !! t = Some th → knows s th;
  ki_regime : regime (k_crew s)
}.

(** Whoever holds a lock holds it alone. *)
Lemma bucket_alone s t t' th th' b : kinv s → k_crew s !! t = Some th → k_crew s !! t' = Some th' → holds_bucket th b → holds_bucket th' b → t = t'.
Proof using Type. intros I Ht Ht' H H'. pose proof (ki_block _ I _ _ _ Ht H). pose proof (ki_block _ I _ _ _ Ht' H'). congruence. Qed.
Lemma row_alone s t t' th th' i : kinv s → k_crew s !! t = Some th → k_crew s !! t' = Some th' → holds_rowlock th i → holds_rowlock th' i → t = t'.
Proof using Type. intros I Ht Ht' H H'. pose proof (ki_rlock _ I _ _ _ Ht H). pose proof (ki_rlock _ I _ _ _ Ht' H'). congruence. Qed.
Lemma mutex_alone s t t' th th' : kinv s → k_crew s !! t = Some th → k_crew s !! t' = Some th' → holds_mutex th → holds_mutex th' → t = t'.
Proof using Type. intros I Ht Ht' H H'. pose proof (ki_mutex _ I _ _ Ht H). pose proof (ki_mutex _ I _ _ Ht' H'). congruence. Qed.

(** * Steps *)

(** The locks of the others stay theirs. *)
Record locks_kept (t : nat) (s s' : ksys) : Prop := {
  lk_block t2 b : t2 ≠ t → k_block s !! b = Some t2 → k_block s' !! b = Some t2;
  lk_rlock t2 i : t2 ≠ t → k_rlock s !! i = Some t2 → k_rlock s' !! i = Some t2;
  lk_mutex t2 : t2 ≠ t → k_mutex s = Some t2 → k_mutex s' = Some t2
}.

Record locks_mine (t : nat) (s : ksys) (th : kthread) : Prop := {
  lm_block b : holds_bucket th b → k_block s !! b = Some t;
  lm_rlock i : holds_rowlock th i → k_rlock s !! i = Some t;
  lm_mutex : holds_mutex th → k_mutex s = Some t
}.

(** The thread is the same but for its place. *)
Definition same_thread (th th' : kthread) : Prop :=
  match th, th' with
  | KIns r _, KIns r' _ => r = r'
  | KUpd i f _, KUpd i' f' _ => i = i' ∧ f = f'
  | KDel i _, KDel i' _ => i = i'
  | KFind pk _, KFind pk' _ => pk = pk'
  | _, _ => False
  end.

Lemma regime_step crew t th th' : crew !! t = Some th → same_thread th th' → regime crew → regime (<[t := th']> crew).
Proof using Type.
  intros Ht Hs [H|H]; [left|right]; intros t2 th2 [[<- <-]|[_ H2]]%lookup_insert_Some; eauto; specialize (H _ _ Ht);
    destruct th, th'; try done. by destruct Hs as [-> ->].
Qed.

Lemma kinv_step s s' t th th' : kinv s → k_crew s !! t = Some th → k_crew s' = <[t := th']> (k_crew s) → same_thread th th' →
  locks_kept t s s' → locks_mine t s' th' →
  (∀ i j a b, active s' i = Some a → active s' j = Some b → i ≠ j → clash a b = false) →
  (∀ i a, active s' i = Some a → i ∈ chain_of s' (bucket a) ∨ ∃ t2 th2, k_crew s' !! t2 = Some th2 ∧ moving th2 i) →
  (∀ i, i ∈ k_free s' → active s' i = None ∧ is_Some (k_rows s' !! i)) → NoDup (k_free s') →
  (∀ i, owns th' = Some i → active s' i = None ∧ (i ∉ k_free s') ∧ is_Some (k_rows s' !! i)) →
  (∀ t2 th2 i, t2 ≠ t → k_crew s !! t2 = Some th2 → owns th2 = Some i →
     active s' i = None ∧ (i ∉ k_free s') ∧ is_Some (k_rows s' !! i) ∧ owns th' ≠ Some i) →
  knows s' th' → (∀ t2 th2, t2 ≠ t → k_crew s !! t2 = Some th2 → knows s th2 → knows s' th2) → kinv s'.
Proof using Type.
  intros I Ht Ec Hst Hlk Hlm Hun Hch Hfr Hnd Ho Ho2 Hk Hk2. constructor; try done; rewrite ?Ec.
  - intros t2 th2 i [[<- <-]|[Hne H2]]%lookup_insert_Some Hi; [by apply Ho|]. destruct (Ho2 t2 th2 i) as (? & ? & ? & _); [congruence|done|done|done].
  - intros t1 t2 th1 th2 i [[<- <-]|[Hne1 H1]]%lookup_insert_Some [[<- <-]|[Hne2 H2]]%lookup_insert_Some Hi1 Hi2; [done| | |by eapply (ki_own _ I)].
    + destruct (Ho2 t2 th2 i ltac:(congruence) H2 Hi2) as (_ & _ & _ & Hx). by destruct Hx.
    + destruct (Ho2 t1 th1 i ltac:(congruence) H1 Hi1) as (_ & _ & _ & Hx). by destruct Hx.
  - intros t2 th2 b [[<- <-]|[Hne H2]]%lookup_insert_Some Hb; [by apply Hlm|]. apply (lk_block _ _ _ Hlk); [congruence|]. by eapply I.
  - intros t2 th2 b [[<- <-]|[Hne H2]]%lookup_insert_Some Hb; [by apply Hlm|]. apply (lk_rlock _ _ _ Hlk); [congruence|]. by eapply I.
  - intros t2 th2 [[<- <-]|[Hne H2]]%lookup_insert_Some Hb; [by apply Hlm|]. apply (lk_mutex _ _ _ Hlk); [congruence|]. by eapply I.
  - intros t2 th2 [[<- <-]|[Hne H2]]%lookup_insert_Some; [done|]. eapply (Hk2 t2); [congruence|done|by eapply I].
  - eapply regime_step; [done..|apply I].
Qed.

(** What a thread knows stays true when no row gets the key it watches, the row it has locked stays
    as it is, and so does the slot it owns. *)
Lemma knows_mono s s' th : (∀ i a, holds_rowlock th i → active s i = Some a → active s' i = Some a) →
  (∀ i, owns th = Some i → image_of s' i = image_of s i) → (∀ b i, owns th = Some i → i ∈ chain_of s b → i ∈ chain_of s' b) →
  (∀ x r j img, watches th = Some (x, r) → active s' j = Some img → clash img r = true → j ≠ x → ∃ img0, active s j = Some img0 ∧ clash img0 r = true) →
  knows s th → knows s' th.
Proof using Type.
  intros Ha Hi Hc Hw. assert (Hab : ∀ x r, watches th = Some (x, r) → absent s x r → absent s' x r).
  { intros x r E H j img Hne Hj. destruct (clash img r) eqn:Es; [|done]. destruct (Hw x r j img E Hj Es Hne) as (img0 & H0 & H1). specialize (H j img0 Hne H0). congruence. }
  assert (Hah : ∀ x r l, watches th = Some (x, r) → ahead s x r l → ahead s' x r l).
  { intros x r l E H j img Hne Hj Es. destruct (Hw x r j img E Hj Es Hne) as (img0 & H0 & H1). by eapply H. }
  destruct th as [rec []|i f []|i []|pk []]; cbn -[active] in *; rewrite ?Hi by done; clear Hw; intros Hk; try exact I; try done; destruct_and?; split_and?; eauto.
  destruct Hk as [a Hx]. exists a. by apply Ha.
Qed.

Lemma knows_ext s s' th : (∀ i, active s' i = active s i) → (∀ b, chain_of s' b = chain_of s b) →
  (∀ i, owns th = Some i → image_of s' i = image_of s i) → knows s th → knows s' th.
Proof using Type.
  intros Ha Hc Hi. apply knows_mono; [intros; by rewrite Ha|done|intros b i _; by rewrite Hc|].
  intros x r j img _. rewrite Ha. by exists img.
Qed.

(** A step that leaves the rows, the chains and the freelist alone. *)
Lemma quiet_step s s' t th th' : kinv s → k_crew s !! t = Some th → k_crew s' = <[t := th']> (k_crew s) → same_thread th th' →
  locks_kept t s s' → locks_mine t s' th' → k_rows s' = k_rows s → k_chains s' = k_chains s → k_free s' = k_free s →
  (∀ i, owns th' = Some i → owns th = Some i) → (∀ i, moving th i → moving th' i) → knows s' th' → kinv s'.
Proof using Type.
  intros I Ht Ec Hst Hlk Hlm Er Ech Ef Ho Hm Hk.
  assert (Ha : ∀ i, active s' i = active s i) by (intros; unfold active; by rewrite Er).
  assert (Hc : ∀ b, chain_of s' b = chain_of s b) by (intros; unfold chain_of; by rewrite Ech).
  eapply (kinv_step s s' t th th'); try done; rewrite ?Ef; try apply I.
  - intros i j a b. rewrite !Ha. apply I.
  - intros i a. rewrite Ha, Hc. intros Hi. destruct (ki_chain _ I i a Hi) as [?|(t2 & th2 & H2 & Hm2)]; [by left|right]. rewrite Ec.
    destruct (decide (t2 = t)) as [->|Hne]; [|exists t2, th2; by rewrite lookup_insert_ne].
    exists t, th'. rewrite lookup_insert_eq. split; [done|]. apply Hm. congruence.
  - intros i. rewrite Ha, Er. apply I.
  - intros i Hi. rewrite Ha, Er. eapply (ki_owns _ I); [done|by apply Ho].
  - intros t2 th2 i Hne H2 Hi. rewrite Ha, Er. destruct (ki_owns _ I _ _ _ H2 Hi) as (? & ? & ?). split_and!; try done.
    intros Hi'%Ho. by destruct (Hne (ki_own _ I _ _ _ _ _ H2 Ht Hi Hi')).
  - intros t2 th2 Hne H2. apply knows_ext; [done..|]. intros i _. unfold image_of. by rewrite Er.
Qed.

(** ** Effects on rows and chains *)

Lemma active_put_image i img s j : active (put_image i img s) j = if decide (j = i) then (λ _, img) <$> active s i else active s j.
Proof using Type.
  unfold active, put_image. cbn. destruct (decide (j = i)) as [->|]; [|by rewrite lookup_alter_ne]. rewrite lookup_alter_eq.
  destruct (k_rows s !! i) as [r|]; [|done]. cbn. by case_decide.
Qed.

Lemma active_put_state i st s j : active (put_state i st s) j =
  if decide (j = i) then (if decide (st = FM_SLOT_ACTIVE) then k_img <$> k_rows s !! i else None) else active s j.
Proof using Type.
  unfold active, put_state. cbn. destruct (decide (j = i)) as [->|]; [|by rewrite lookup_alter_ne]. rewrite lookup_alter_eq.
  destruct (k_rows s !! i) as [r|]; cbn; by case_decide.
Qed.

Lemma row_put i st s j : is_Some (k_rows s !! j) → is_Some (k_rows (put_state i st s) !! j).
Proof using Type. intros H. cbn. by apply lookup_alter_is_Some. Qed.
Lemma row_put_image i img s j : is_Some (k_rows s !! j) → is_Some (k_rows (put_image i img s) !! j).
Proof using Type. intros H. cbn. by apply lookup_alter_is_Some. Qed.

Lemma image_put_state i st s j : image_of (put_state i st s) j = image_of s j.
Proof using Type.
  unfold image_of, put_state. cbn. destruct (decide (j = i)) as [->|]; [|by rewrite lookup_alter_ne]. rewrite lookup_alter_eq. by destruct (k_rows s !! i).
Qed.

Lemma image_put_image i img s j : is_Some (k_rows s !! i) → image_of (put_image i img s) j = if decide (j = i) then img else image_of s j.
Proof using Type.
  intros [r Hr]. unfold image_of, put_image. cbn. case_decide as E; [subst; by rewrite lookup_alter_eq, Hr|by rewrite lookup_alter_ne].
Qed.

Lemma chain_link b i s b' : chain_of (do_link b i s) b' = if decide (b' = b) then i :: chain_of s b else chain_of s b'.
Proof using Type. unfold do_link, chain_of at 1. cbn. case_decide as E; [subst; by rewrite lookup_insert_eq|by rewrite lookup_insert_ne]. Qed.

Lemma chain_unlink b i s b' : chain_of (do_unlink b i s) b' = if decide (b' = b) then remove_first i (chain_of s b) else chain_of s b'.
Proof using Type. unfold do_unlink, chain_of at 1. cbn. case_decide as E; [subst; by rewrite lookup_insert_eq|by rewrite lookup_insert_ne]. Qed.

Lemma elem_remove_first i j l : j ≠ i → j ∈ l → j ∈ remove_first i l.
Proof using Type.
  intros Hne. induction l as [|x l IH]; [done|]. cbn. intros [->|Hj]%elem_of_cons; case_decide; try done; [by left|right; by apply IH].
Qed.

(** ** Locks *)

Lemma kept_same t s s' : k_block s' = k_block s → k_rlock s' = k_rlock s → k_mutex s' = k_mutex s → locks_kept t s s'.
Proof using Type. intros E1 E2 E3. by constructor; rewrite ?E1, ?E2, ?E3. Qed.

Lemma kept_block t b s s' : lock_bucket t b s = Some s' → locks_kept t s s' ∧ k_block s' !! b = Some t ∧ k_block s !! b = None ∧
  (∀ b', k_block s !! b' = Some t → k_block s' !! b' = Some t) ∧ k_rlock s' = k_rlock s ∧ k_mutex s' = k_mutex s ∧
  k_rows s' = k_rows s ∧ k_chains s' = k_chains s ∧ k_free s' = k_free s ∧ k_crew s' = k_crew s.
Proof using Type.
  unfold lock_bucket. destruct (k_block s !! b) eqn:E; [done|]. intros [= <-]. split; [|split; [apply lookup_insert_eq|split; [done|split; [|done]]]].
  - constructor; [|done|done]. intros t2 b2 _ H2. cbn. rewrite lookup_insert_ne; [done|]. intros ->. congruence.
  - intros b' H'. cbn. rewrite lookup_insert_ne; [done|]. intros ->. congruence.
Qed.

Lemma kept_rlock t i s s' : lock_row t i s = Some s' → locks_kept t s s' ∧ k_rlock s' !! i = Some t ∧
  k_block s' = k_block s ∧ k_mutex s' = k_mutex s ∧ k_rows s' = k_rows s ∧ k_chains s' = k_chains s ∧ k_free s' = k_free s ∧ k_crew s' = k_crew s.
Proof using Type.
  unfold lock_row. destruct (k_rlock s !! i) eqn:E; [done|]. intros [= <-]. split; [|split; [apply lookup_insert_eq|done]].
  constructor; [done| |done]. intros t2 i2 _ H2. cbn. rewrite lookup_insert_ne; [done|]. intros ->. congruence.
Qed.

Lemma kept_mutex t s s' : lock_mutex t s = Some s' → locks_kept t s s' ∧ k_mutex s' = Some t ∧
  k_block s' = k_block s ∧ k_rlock s' = k_rlock s ∧ k_rows s' = k_rows s ∧ k_chains s' = k_chains s ∧ k_free s' = k_free s ∧ k_crew s' = k_crew s.
Proof using Type.
  unfold lock_mutex. destruct (k_mutex s) eqn:E; [done|]. intros [= <-]. split; [|done]. constructor; try done. intros t2 _ H2. congruence.
Qed.

Lemma kept_release_block t b s : k_block s !! b = Some t → locks_kept t s (release_bucket b s).
Proof using Type. intros Hb. constructor; try done. intros t2 b2 Hne H2. cbn. rewrite lookup_delete_ne; [done|]. intros ->. congruence. Qed.
Lemma kept_release_row t i s : k_rlock s !! i = Some t → locks_kept t s (release_row i s).
Proof using Type. intros Hb. constructor; try done. intros t2 b2 Hne H2. cbn. rewrite lookup_delete_ne; [done|]. intros ->. congruence. Qed.
Lemma kept_release_mutex t s : k_mutex s = Some t → locks_kept t s (release_mutex s).
Proof using Type. intros Hb. constructor; try done. intros t2 Hne H2. congruence. Qed.

Lemma kept_crew t s s' th : locks_kept t s s' → locks_kept t s (w_crew t th s').
Proof using Type. by intros []. Qed.

Lemma mine_of s t th : kinv s → k_crew s !! t = Some th → locks_mine t s th.
Proof using Type. intros I Ht. constructor; intros; by eapply I. Qed.

(** The locks held by the thread at its new place are among those it held. *)
Lemma mine_sub s s' t th th' : kinv s → k_crew s !! t = Some th → k_block s' = k_block s → k_rlock s' = k_rlock s → k_mutex s' = k_mutex s →
  (∀ b, holds_bucket th' b → holds_bucket th b) → (∀ i, holds_rowlock th' i → holds_rowlock th i) → (holds_mutex th' → holds_mutex th) → locks_mine t s' th'.
Proof using Type.
  intros I Ht E1 E2 E3 H1 H2 H3. destruct (mine_of s t th I Ht). constructor; rewrite ?E1, ?E2, ?E3; eauto.
Qed.

(** ** Walks *)

Lemma bucket_low_high old new : holds_bucket (KUpd 0 id (UpWrite old new)) (bucket old) ∧ holds_bucket (KUpd 0 id (UpWrite old new)) (bucket new).
Proof using Type. cbn. unfold Unique.low, Unique.high. lia. Qed.

(** When a walk begins, all rows with the key are in the chain. *)
Lemma ahead_start s x rec : kinv s → (∀ t th i, k_block s !! bucket rec = Some t → k_crew s !! t = Some th → ¬ moving th i) →
  ahead s x rec (walk_from kc s rec).
Proof.
  intros I Hfree j img _ Hj Hc. pose proof (proj1 (clash_true _ _) Hc) as [Hs Hnl]. pose proof (same_bucket _ _ Hs) as Eb.
  unfold walk_from. rewrite Hu, <-(same_null _ _ Hs), Hnl. cbn.
  destruct (ki_chain _ I j img Hj) as [Hin|(t & th & Ht & Hm)]; [by rewrite Eb in Hin|]. exfalso.
  assert (Hb : k_block s !! bucket rec = Some t); [|by eapply Hfree].
  pose proof (ki_knows _ I _ _ Ht) as Hk. apply (ki_block _ I t th); [done|]. destruct th as [|i f []| |]; try done; cbn in Hm, Hk; subst i;
    destruct Hk as (Ha & _); assert (img = new_rec) as -> by congruence; rewrite <-Eb; exact (proj2 (bucket_low_high old_rec new_rec)).
Qed.

(** One row further. *)
Lemma ahead_next s x rec h rest : ahead s x rec (h :: rest) → is_dup kc s h rec = false → ahead s x rec rest.
Proof using Type.
  intros H Hd j img Hne Hj Hs.
  destruct (proj1 (elem_of_cons _ _ _) (H j img Hne Hj Hs)) as [->|?]; [|done]. unfold is_dup in Hd. rewrite Hj in Hd. apply clash_not in Hd. congruence.
Qed.

Lemma ahead_end s x rec : ahead s x rec [] → absent s x rec.
Proof using Type.
  intros H j img Hne Hj. destruct (clash img rec) eqn:E; [|done]. specialize (H j img Hne Hj E). by apply elem_of_nil in H.
Qed.

(** ** Inserts *)

(** The quiet step as the step functions make it. *)
Lemma go_quiet s s0 t th th' : kinv s → k_crew s !! t = Some th → same_thread th th' → locks_kept t s s0 → locks_mine t s0 th' →
  k_rows s0 = k_rows s → k_chains s0 = k_chains s → k_free s0 = k_free s → k_crew s0 = k_crew s →
  (∀ i, owns th' = Some i → owns th = Some i) → (∀ i, moving th i → moving th' i) → knows s0 th' → kinv (w_crew t th' s0).
Proof using Type.
  intros I Ht Hs Hk Hm Er Ec Ef Ew Ho Hmv Hn. eapply (quiet_step s _ t th th' I Ht); try done.
  - cbn. by rewrite Ew.
  - by apply kept_crew.
  - by destruct Hm.
Qed.

(** A step that changes chains only. *)
Lemma chain_step s s0 t th th' : kinv s → k_crew s !! t = Some th → same_thread th th' → k_rows s0 = k_rows s → k_free s0 = k_free s →
  k_crew s0 = k_crew s → locks_kept t s s0 → locks_mine t s0 th' → (∀ i, owns th' = Some i → owns th = Some i) →
  (∀ i a, active s i = Some a → i ∈ chain_of s0 (bucket a) ∨ ∃ t2 th2, <[t := th']> (k_crew s) !! t2 = Some th2 ∧ moving th2 i) →
  (∀ t2 th2 b i, t2 ≠ t → k_crew s !! t2 = Some th2 → owns th2 = Some i → i ∈ chain_of s b → i ∈ chain_of s0 b) →
  knows s0 th' → kinv (w_crew t th' s0).
Proof using Type.
  intros I Ht Hs Er Ef Ew Hk Hm Ho Hc Hc2 Hn. assert (Ha : ∀ i, active (w_crew t th' s0) i = active s i) by (intros; unfold active; cbn; by rewrite Er).
  eapply (kinv_step s _ t th th' I Ht); try done; cbn; rewrite ?Ew, ?Ef, ?Er; try done.
  - by apply kept_crew.
  - by destruct Hm.
  - intros i j a b. rewrite !Ha. apply I.
  - intros i a. rewrite Ha. apply Hc.
  - intros i. rewrite Ha. apply I.
  - apply I.
  - intros i Hi. rewrite Ha. eapply (ki_owns _ I); [done|by apply Ho].
  - intros t2 th2 i Hne H2 Hi. rewrite Ha. destruct (ki_owns _ I _ _ _ H2 Hi) as (? & ? & ?). split_and!; try done.
    intros Hi'%Ho. by destruct (Hne (ki_own _ I _ _ _ _ _ H2 Ht Hi Hi')).
  - intros t2 th2 Hne H2. apply knows_mono; [intros; by rewrite Ha|intros; unfold image_of; cbn; by rewrite Er|intros b i; by apply (Hc2 t2 th2 b i)|].
    intros x r j img _. rewrite Ha. by exists img.
Qed.

(** A slot goes back to the freelist. *)
Lemma give_back s t th th' i : kinv s → k_crew s !! t = Some th → same_thread th th' → locks_mine t s th' → owns th = Some i → owns th' = None →
  (∀ j, ¬ moving th j) → (∀ s', knows s' th') → kinv (w_crew t th' (w_free (i :: k_free s) s)).
Proof using Type.
  intros I Ht Hs Hm Ho Ho' Hmv Hn. destruct (ki_owns _ I _ _ i Ht Ho) as (Ha & Hf & Hr). eapply (kinv_step s _ t th th' I Ht); try done.
  - by destruct Hm.
  - apply I.
  - intros j a Hj. destruct (ki_chain _ I j a Hj) as [?|(t2 & th2 & H2 & Hm2)]; [by left|right]. exists t2, th2. cbn.
    rewrite lookup_insert_ne; [done|]. intros <-. rewrite Ht in H2. injection H2 as ->. by destruct (Hmv j).
  - intros j [->|Hj]%elem_of_cons; [done|by apply I].
  - cbn. constructor; [done|apply I].
  - by rewrite Ho'.
  - intros t2 th2 j Hne H2 Hj. destruct (ki_owns _ I _ _ _ H2 Hj) as (? & ? & ?). split_and!; try done; [|by rewrite Ho'].
    cbn. intros [->|?]%elem_of_cons; [|done]. by destruct (Hne (ki_own _ I _ _ _ _ _ H2 Ht Hj Ho)).
Qed.

Section insert.
Context (s : ksys) (t : nat) (rec : bytes) (I : kinv s).

(** A slot is taken off the freelist. *)
Lemma ins_alloc idx fl : k_crew s !! t = Some (KIns rec InAlloc) → k_free s = idx :: fl → kinv (w_crew t (KIns rec (InCopy idx)) (w_free fl s)).
Proof using I.
  intros Ht Ef. pose proof (ki_nodup _ I) as Hnd. rewrite Ef in Hnd. apply NoDup_cons in Hnd as [Hni Hnd].
  assert (Hf : ∀ i, i ∈ fl → i ∈ k_free s) by (intros i Hi; rewrite Ef; by right).
  assert (Hidx : idx ∈ k_free s) by (rewrite Ef; left). eapply (kinv_step s _ t _ (KIns rec (InCopy idx)) I Ht); try done.
  - by eapply (mine_sub s _ t _ _ I Ht).
  - apply I.
  - intros i a Hi. destruct (ki_chain _ I i a Hi) as [?|(t2 & th2 & H2 & Hm2)]; [by left|right]. exists t2, th2. split; [|done]. cbn.
    rewrite lookup_insert_ne; [done|]. intros <-. rewrite Ht in H2. by injection H2 as <-.
  - intros i Hi. by apply (ki_free _ I), Hf.
  - intros i [= <-]. destruct (ki_free _ I idx Hidx). by split_and!.
  - intros t2 th2 i Hne H2 Hi. destruct (ki_owns _ I _ _ _ H2 Hi) as (Ha & Hn & Hr). split_and!; try done; [intros ?%Hf; done|]. intros [= <-]. done.
Qed.

(** Chains and moving rows when only [t], which moves no row, changes its place. *)
Lemma chain_same th th' s' : k_crew s !! t = Some th → (∀ i, ¬ moving th i) → k_crew s' = <[t := th']> (k_crew s) →
  (∀ i a, active s' i = Some a → active s i = Some a) → (∀ b i, i ∈ chain_of s b → is_Some (active s' i) → i ∈ chain_of s' b) →
  ∀ i a, active s' i = Some a → i ∈ chain_of s' (bucket a) ∨ ∃ t2 th2, k_crew s' !! t2 = Some th2 ∧ moving th2 i.
Proof using I.
  intros Ht Hm Ec Ha Hc i a Hi. destruct (ki_chain _ I i a (Ha _ _ Hi)) as [Hin|(t2 & th2 & H2 & Hm2)]; [left; by apply Hc|right].
  exists t2, th2. rewrite Ec, lookup_insert_ne; [done|]. intros <-. rewrite Ht in H2. injection H2 as ->. by destruct (Hm i).
Qed.

(** The image is copied into a slot that nobody reads. *)
Lemma ins_copy idx : k_crew s !! t = Some (KIns rec (InCopy idx)) → kinv (w_crew t (KIns rec (InLock idx)) (put_image idx rec s)).
Proof using I.
  intros Ht. destruct (ki_owns _ I _ _ idx Ht eq_refl) as (Ha & Hf & Hr). set (th' := KIns rec (InLock idx)). set (s' := w_crew t th' _).
  assert (Hact : ∀ j, active s' j = active s j).
  { intros j. change (active s' j) with (active (put_image idx rec s) j). rewrite active_put_image. case_decide; [subst; by rewrite Ha|done]. }
  eapply (kinv_step s s' t _ th' I Ht); try done.
  - by eapply (mine_sub s _ t _ _ I Ht).
  - intros i j a b. rewrite !Hact. apply I.
  - eapply chain_same; [done|by intros ? []|done|by intros i a; rewrite Hact|done].
  - intros i Hi. rewrite Hact. destruct (ki_free _ I i Hi). split; [done|by apply row_put_image].
  - apply I.
  - intros i [= <-]. rewrite Hact. split_and!; [done..|by apply row_put_image].
  - intros t2 th2 i Hne H2 Hi. rewrite Hact. destruct (ki_owns _ I _ _ _ H2 Hi) as (? & ? & ?). split_and!; [done..|by apply row_put_image|].
    intros [= <-]. by destruct (Hne (ki_own _ I _ _ _ _ _ H2 Ht Hi eq_refl)).
  - change (image_of (put_image idx rec s) idx = rec). rewrite image_put_image, decide_True by done. done.
  - intros t2 th2 Hne H2. apply knows_ext; [done|done|]. intros i Hi. change (image_of (put_image idx rec s) i = image_of s i).
    rewrite image_put_image, decide_False; [done| |done]. intros ->. by destruct (Hne (ki_own _ I _ _ _ _ _ H2 Ht Hi eq_refl)).
Qed.

Lemma ins_link idx : k_crew s !! t = Some (KIns rec (InLink idx)) → kinv (w_crew t (KIns rec (InRelease idx)) (do_link (bucket rec) idx s)).
Proof using I.
  intros Ht. pose proof (ki_knows _ I _ _ Ht) as [Hi Hab]. assert (Hc : ∀ b i, i ∈ chain_of s b → i ∈ chain_of (do_link (bucket rec) idx s) b).
  { intros b i Hb. rewrite chain_link. case_decide; [subst; by right|done]. }
  eapply (chain_step s _ t _ _ I Ht); try done.
  - by eapply (mine_sub s _ t _ _ I Ht).
  - intros i a Hia. destruct (ki_chain _ I i a Hia) as [?|(t2 & th2 & H2 & Hm2)]; [left; by apply Hc|right]. exists t2, th2. split; [|done].
    rewrite lookup_insert_ne; [done|]. intros <-. rewrite Ht in H2. by injection H2 as <-.
  - intros t2 th2 b i _ _ _. apply Hc.
  - cbn. split_and!; [done..|]. rewrite chain_link, decide_True by done. by left.
Qed.

(** With an insert at work nobody changes a key. *)
Lemma keys_kept p : k_crew s !! t = Some (KIns rec p) → ∀ t2 i f q, k_crew s !! t2 = Some (KUpd i f q) → ∀ img, same img (f img) = true.
Proof using I. intros Ht t2 i f q H2. destruct (ki_regime _ I) as [H|H]; [by destruct (H _ _ Ht)|exact (H _ _ H2)]. Qed.

(** The row becomes visible: nobody else has its key or is about to take it. *)
Lemma ins_publish idx : k_crew s !! t = Some (KIns rec (InPublish idx)) → kinv (w_crew t (KIns rec (InEnd FM_ERR_OK)) (put_state idx FM_SLOT_ACTIVE s)).
Proof.
  intros Ht. destruct (ki_owns _ I _ _ idx Ht eq_refl) as (Ha & Hf & r & Hr). pose proof (ki_knows _ I _ _ Ht) as (Hi & Hab & Hin).
  set (th' := KIns rec _). set (s' := w_crew t th' _). assert (Hact : ∀ j, active s' j = if decide (j = idx) then Some rec else active s j).
  { intros j. change (active s' j) with (active (put_state idx FM_SLOT_ACTIVE s) j). rewrite active_put_state, Hr. unfold image_of in Hi. rewrite Hr in Hi.
    case_decide; [cbn in *; by rewrite Hi|done]. }
  eapply (kinv_step s s' t _ th' I Ht); try done.
  - by eapply (mine_sub s _ t _ _ I Ht).
  - intros i j a b. rewrite !Hact. intros E1 E2 Hne. repeat case_decide; simplify_eq; first [by eapply Hab|rewrite clash_sym; by eapply Hab|by eapply I].
  - intros i a. rewrite Hact. case_decide as E; [intros [= <-]; subst; by left|]. intros Hia.
    destruct (ki_chain _ I i a Hia) as [?|(t2 & th2 & H2 & Hm2)]; [by left|right]. exists t2, th2. split; [|done]. cbn.
    rewrite lookup_insert_ne; [done|]. intros <-. rewrite Ht in H2. by injection H2 as <-.
  - intros i Hfi. destruct (ki_free _ I i Hfi). rewrite Hact, decide_False by (by intros ->). split; [done|by apply row_put].
  - apply I.
  - intros t2 th2 i Hne H2 Hi2. destruct (ki_owns _ I _ _ _ H2 Hi2) as (? & ? & ?). assert (i ≠ idx).
    { intros ->. by destruct (Hne (ki_own _ I _ _ _ _ _ H2 Ht Hi2 eq_refl)). }
    rewrite Hact, decide_False by done. split_and!; [done..|by apply row_put|done].
  - intros t2 th2 Hne H2 Hk2. apply (knows_mono s); [| |done| |done].
    + intros i a _ Hia. rewrite Hact, decide_False; [done|congruence].
    + intros i _. apply image_put_state.
    + intros x q j img Hw. exfalso. destruct th2 as [rec2 p2|i2 f2 p2| |]; [|..|done|done].
      * apply Hne. eapply (mutex_alone s t2 t _ _ I H2 Ht); [by destruct p2|done].
      * pose proof (keys_kept _ Ht _ _ _ _ H2) as Hf2. destruct p2; try done; cbn in Hk2; destruct Hk2 as (_ & -> & Hs2 & _); by rewrite Hf2 in Hs2.
Qed.

Lemma ins_step_ok p s' : k_crew s !! t = Some (KIns rec p) → ins_step kc t rec p s = Some s' → kinv s'.
Proof.
  intros Ht. pose proof (ki_knows _ I _ _ Ht) as Hn. destruct p as [| |idx|idx|idx [|h rest]|idx|idx|idx|idx|idx|rc|rc]; cbn.
  - destruct (lock_mutex t s) as [s0|] eqn:E; [|done]. apply kept_mutex in E as (Hk & Hm & E1 & E2 & Er & Ec & Ef & Ew). cbn. intros [= <-].
    by eapply (go_quiet s s0 t _ _ I Ht).
  - destruct (k_free s) as [|idx fl] eqn:E; intros [= <-]; [|by apply ins_alloc]. eapply (go_quiet s s t _ _ I Ht); try done. by eapply (mine_sub s _ t _ _ I Ht).
  - intros [= <-]. by apply ins_copy.
  - destruct (lock_bucket t (bucket rec) s) as [s0|] eqn:E; [|done]. apply kept_block in E as (Hk & Hb & Hb0 & Hb1 & E1 & E2 & Er & Ec & Ef & Ew). cbn. intros [= <-].
    eapply (go_quiet s s0 t _ _ I Ht); try done.
    + constructor; cbn; [by intros b ->|done|]. intros _. rewrite E2. by apply (ki_mutex _ I _ _ Ht).
    + apply (knows_ext s); [by intros; unfold active; rewrite Er|by intros; unfold chain_of; rewrite Ec|by intros; unfold image_of; rewrite Er|].
      split; [done|]. apply ahead_start; [done|]. intros t2 th2 i H2. congruence.
  - intros [= <-]. destruct Hn as [Hi Ha]. eapply (go_quiet s s t _ _ I Ht); try done; [by eapply (mine_sub s _ t _ _ I Ht)|]. split; [done|by apply ahead_end].
  - destruct Hn as [Hi Ha]. destruct (is_dup kc s h rec) eqn:Ed; intros [= <-]; eapply (go_quiet s s t _ _ I Ht); try done;
      try (by eapply (mine_sub s _ t _ _ I Ht)). split; [done|by eapply ahead_next].
  - intros [= <-]. by apply ins_link.
  - intros [= <-]. pose proof (ki_block _ I _ _ _ Ht eq_refl). eapply (go_quiet s (release_bucket _ s) t _ _ I Ht); try done; [by apply kept_release_block|].
    constructor; cbn; [done|done|]. intros _. by apply (ki_mutex _ I _ _ Ht).
  - intros [= <-]. by apply ins_publish.
  - intros [= <-]. pose proof (ki_block _ I _ _ _ Ht eq_refl). eapply (go_quiet s (release_bucket _ s) t _ _ I Ht); try done; [by apply kept_release_block|].
    constructor; cbn; [done|done|]. intros _. by apply (ki_mutex _ I _ _ Ht).
  - intros [= <-]. eapply give_back; try done; [by eapply (mine_sub s _ t _ _ I Ht)|by intros ? []].
  - intros [= <-]. pose proof (ki_mutex _ I _ _ Ht Logic.I). eapply (go_quiet s (release_mutex s) t _ _ I Ht); try done. by apply kept_release_mutex.
  - done.
Qed.
End insert.

(** ** Updates *)

Section update.
Context (s : ksys) (t : nat) (i : Z) (f : bytes → bytes) (I : kinv s).

(** The image of a row that is not moving changes. *)
Lemma upd_image p p' old new : let th := KUpd i f p in let th' := KUpd i f p' in k_crew s !! t = Some th → holds_rowlock th i →
  active s i = Some old → absent s i new → (∀ j, ¬ moving th j) → (bucket old = bucket new ∨ moving th' i) →
  (∀ t2 th2 x r, t2 ≠ t → k_crew s !! t2 = Some th2 → watches th2 = Some (x, r) → clash new r = true → clash old r = true) →
  locks_mine t s th' → knows (put_image i new s) th' → kinv (w_crew t th' (put_image i new s)).
Proof.
  intros th th' Ht Hrl Ha Hab Hmv Hch Hw Hm Hn. set (s' := w_crew t th' _).
  assert (Hact : ∀ j, active s' j = if decide (j = i) then Some new else active s j).
  { intros j. change (active s' j) with (active (put_image i new s) j). rewrite active_put_image, Ha. done. }
  assert (Hr : is_Some (k_rows s !! i)) by (unfold active in Ha; destruct (k_rows s !! i); [done|discriminate Ha]).
  eapply (kinv_step s s' t th th' I Ht); try done.
  - by destruct Hm.
  - intros j k a b. rewrite !Hact. intros E1 E2 Hne. repeat case_decide; simplify_eq; first [by eapply Hab|rewrite clash_sym; by eapply Hab|by eapply I].
  - assert (Hoth : ∀ j t2 th2, k_crew s !! t2 = Some th2 → moving th2 j → ∃ t2 th2, k_crew s' !! t2 = Some th2 ∧ moving th2 j).
    { intros j t2 th2 H2 Hm2. exists t2, th2. cbn. rewrite lookup_insert_ne; [done|]. intros <-. rewrite Ht in H2. injection H2 as <-. by destruct (Hmv j). }
    intros j a. rewrite Hact. case_decide as E; [intros [= <-]; subst j|intros Hj; destruct (ki_chain _ I j a Hj) as [?|(t2 & th2 & ? & ?)]; [by left|right; eauto]].
    destruct Hch as [Eb|Hmi]; [|right; exists t, th'; cbn; by rewrite lookup_insert_eq]. rewrite <-Eb.
    destruct (ki_chain _ I i old Ha) as [?|(t2 & th2 & ? & ?)]; [by left|right; eauto].
  - intros j Hj. destruct (ki_free _ I j Hj). rewrite Hact, decide_False by (intros ->; congruence). split; [done|by apply row_put_image].
  - apply I.
  - intros t2 th2 j Hne H2 Hj. destruct (ki_owns _ I _ _ _ H2 Hj) as (Hj0 & ? & ?). rewrite Hact, decide_False by (intros ->; congruence).
    split_and!; [done|done|by apply row_put_image|by destruct p'].
  - intros t2 th2 Hne H2. apply knows_mono; [| |done|].
    + intros j a Hj Hja. rewrite Hact, decide_False; [done|]. intros ->. by destruct (Hne (row_alone s t2 t _ _ i I H2 Ht Hj Hrl)).
    + intros j Hj. destruct (ki_owns _ I _ _ _ H2 Hj) as (Hj0 & _). change (image_of (put_image i new s) j = image_of s j).
      rewrite image_put_image, decide_False by (done || (intros ->; congruence)). done.
    + intros x r j img Hx. rewrite Hact. case_decide as E; [intros [= <-] Hs _; subst j|by exists img]. exists old. eauto.
Qed.

(** The write of an image with another key: whoever watches that key would have its bucket. *)
Lemma upd_write old new : k_crew s !! t = Some (KUpd i f (UpWrite old new)) → kinv (w_crew t (KUpd i f (UpUnlink old new)) (put_image i new s)).
Proof.
  intros Ht. pose proof (ki_knows _ I _ _ Ht) as (Ha & Hnew & Hs & Hab). eapply (upd_image _ _ old new Ht); try done.
  - by intros ? [].
  - by right.
  - intros t2 th2 x r Hne H2 Hx Hs2. exfalso. apply clash_true in Hs2 as [Hs2%same_bucket _]. destruct th2 as [rec2 p2|i2 f2 p2| |]; [|..|done|done].
    + pose proof (keys_kept s t2 rec2 I p2 H2 _ _ _ _ Ht old) as Hk. congruence.
    + apply Hne. eapply (bucket_alone s t2 t _ _ (bucket new) I H2 Ht); [|exact (proj2 (bucket_low_high old new))].
      rewrite Hs2. destruct p2; try done; injection Hx as <- <-; apply (bucket_low_high old_rec new_rec).
  - by eapply (mine_sub s _ t _ _ I Ht).
  - cbn -[active]. rewrite active_put_image, decide_True, Ha by done. done.
Qed.

(** The write of an image with the same key. *)
Lemma upd_fast old new : k_crew s !! t = Some (KUpd i f (UpFast old new)) → kinv (w_crew t (KUpd i f (UpRow FM_ERR_OK)) (put_image i new s)).
Proof.
  intros Ht. pose proof (ki_knows _ I _ _ Ht) as (Ha & Hs). eapply (upd_image _ _ old new Ht); try done.
  - intros j img Hne Hj. destruct (clash img new) eqn:E; [|done]. rewrite same_sym in Hs. pose proof (clash_r _ _ _ E Hs) as E2.
    by rewrite (ki_unique _ I j i img old Hj Ha Hne) in E2.
  - by intros ? [].
  - left. by apply same_bucket.
  - intros t2 th2 x r _ _ _. by apply clash_l.
  - by eapply (mine_sub s _ t _ _ I Ht).
Qed.

(** The row leaves its old chain and enters the new one. *)
Lemma upd_unlink old new : k_crew s !! t = Some (KUpd i f (UpUnlink old new)) → kinv (w_crew t (KUpd i f (UpLink old new)) (do_unlink (bucket old) i s)).
Proof using I.
  intros Ht. pose proof (ki_knows _ I _ _ Ht) as (Ha & Hnew & Hs).
  assert (Hc : ∀ b j, j ≠ i → j ∈ chain_of s b → j ∈ chain_of (do_unlink (bucket old) i s) b).
  { intros b j Hne Hj. rewrite chain_unlink. case_decide; [subst; by apply elem_remove_first|done]. }
  eapply (chain_step s _ t _ _ I Ht); try done.
  - by eapply (mine_sub s _ t _ _ I Ht).
  - intros j a Hj. destruct (decide (j = i)) as [->|Hne]; [right; exists t; eexists; by rewrite lookup_insert_eq|].
    destruct (ki_chain _ I j a Hj) as [?|(t2 & th2 & H2 & Hm2)]; [left; by apply Hc|right]. exists t2, th2. split; [|done].
    rewrite lookup_insert_ne; [done|]. intros <-. rewrite Ht in H2. injection H2 as <-. done.
  - intros t2 th2 b j Hne H2 Hj. apply Hc. intros ->. destruct (ki_owns _ I _ _ _ H2 Hj) as (Hj0 & _). congruence.
Qed.

Lemma upd_link old new : k_crew s !! t = Some (KUpd i f (UpLink old new)) → kinv (w_crew t (KUpd i f (UpRel2 old new FM_ERR_OK)) (do_link (bucket new) i s)).
Proof using I.
  intros Ht. pose proof (ki_knows _ I _ _ Ht) as (Ha & Hnew & Hs).
  assert (Hc : ∀ b j, j ∈ chain_of s b → j ∈ chain_of (do_link (bucket new) i s) b) by (intros b j Hj; rewrite chain_link; case_decide; [subst; by right|done]).
  eapply (chain_step s _ t _ _ I Ht); try done.
  - by eapply (mine_sub s _ t _ _ I Ht).
  - intros j a Hj. destruct (decide (j = i)) as [->|Hne].
    { rewrite Ha in Hj. injection Hj as <-. left. rewrite chain_link, decide_True by done. left. }
    destruct (ki_chain _ I j a Hj) as [?|(t2 & th2 & H2 & Hm2)]; [left; by apply Hc|right]. exists t2, th2. split; [|done].
    rewrite lookup_insert_ne; [done|]. intros <-. rewrite Ht in H2. injection H2 as <-. done.
  - intros t2 th2 b j _ _ _. apply Hc.
Qed.

Lemma upd_step_ok p s' : k_crew s !! t = Some (KUpd i f p) → upd_step kc t i f p s = Some s' → kinv s'.
Proof.
  intros Ht. pose proof (ki_knows _ I _ _ Ht) as Hn.
  destruct p as [| |old new|old new|old new|old new|old new [|h rest]|old new|old new|old new|old new rc|old new rc|rc|rc]; cbn -[active].
  - destruct (lock_row t i s) as [s0|] eqn:E; [|done]. apply kept_rlock in E as (Hk & Hm & E1 & E2 & Er & Ec & Ef & Ew). cbn. intros [= <-].
    eapply (go_quiet s s0 t _ _ I Ht); try done. constructor; [done| |done]. by intros ? ->.
  - destruct (active s i) as [old|] eqn:E; intros [= <-]; eapply (go_quiet s s t _ _ I Ht); try done; by eapply (mine_sub s _ t _ _ I Ht).
  - destruct Hn as [Ha ->]. case_decide; intros [= <-]; [|eapply (go_quiet s s t _ _ I Ht); try done; by eapply (mine_sub s _ t _ _ I Ht)].
    destruct (same old (f old)) eqn:Es; eapply (go_quiet s s t _ _ I Ht); try done; by eapply (mine_sub s _ t _ _ I Ht).
  - intros [= <-]. by eapply upd_fast.
  - destruct (lock_bucket t (low old new) s) as [s0|] eqn:E; [|done]. apply kept_block in E as (Hk & Hb & Hb0 & Hb1 & E1 & E2 & Er & Ec & Ef & Ew). cbn. intros [= <-].
    assert (Hke : ∀ th, knows s th → knows s0 th).
    { intros th. apply knows_ext; [by intros; unfold active; rewrite Er|by intros; unfold chain_of; rewrite Ec|by intros; unfold image_of; rewrite Er]. }
    case_decide as Eb; eapply (go_quiet s s0 t _ _ I Ht); try done.
    + constructor; cbn; [|intros ? ->; rewrite E1; by apply (ki_rlock _ I _ _ _ Ht)|done]. unfold Unique.low, Unique.high in *. rewrite Eb, Z.min_id in *. rewrite Z.max_id. by intros b [->| ->].
    + apply Hke. destruct Hn as (? & ? & ?). split_and!; [done..|]. apply ahead_start; [done|]. intros t2 th2 j H2. unfold Unique.low in Hb0. rewrite Eb, Z.min_id in Hb0. congruence.
    + constructor; cbn; [by intros ? ->|intros ? ->; rewrite E1; by apply (ki_rlock _ I _ _ _ Ht)|done].
    + by apply Hke.
  - destruct (lock_bucket t (high old new) s) as [s0|] eqn:E; [|done]. apply kept_block in E as (Hk & Hb & Hb0 & Hb1 & E1 & E2 & Er & Ec & Ef & Ew). cbn. intros [= <-].
    pose proof (ki_block _ I _ _ _ Ht eq_refl) as Hlow. eapply (go_quiet s s0 t _ _ I Ht); try done.
    + constructor; cbn; [|intros ? ->; rewrite E1; by apply (ki_rlock _ I _ _ _ Ht)|done]. intros b [->| ->]; [by apply Hb1|done].
    + apply (knows_ext s); [by intros; unfold active; rewrite Er|by intros; unfold chain_of; rewrite Ec|by intros; unfold image_of; rewrite Er|].
      destruct Hn as (? & ? & ?). split_and!; [done..|]. apply ahead_start; [done|]. intros t2 th2 j H2 H3.
      assert (t2 = t) as ->; [|rewrite Ht in H3; injection H3 as <-; by intros []]. unfold Unique.low, Unique.high in *.
      destruct (Z.le_gt_cases (bucket old) (bucket new)); [rewrite Z.max_r in Hb0 by lia; congruence|rewrite Z.min_r in Hlow by lia; congruence].
  - intros [= <-]. destruct Hn as (? & ? & ? & Ha). eapply (go_quiet s s t _ _ I Ht); try done; [by eapply (mine_sub s _ t _ _ I Ht)|].
    split_and!; [done..|by apply ahead_end].
  - destruct Hn as (? & ? & ? & Ha). destruct (is_dup kc s h new) eqn:Ed; intros [= <-]; eapply (go_quiet s s t _ _ I Ht); try done;
      try (by eapply (mine_sub s _ t _ _ I Ht)). split_and!; [done..|by eapply ahead_next].
  - intros [= <-]. by eapply upd_write.
  - intros [= <-]. by apply upd_unlink.
  - intros [= <-]. by apply upd_link.
  - intros [= <-]. case_decide as Eb; [eapply (go_quiet s s t _ _ I Ht); try done; eapply (mine_sub s _ t _ _ I Ht); try done; intros b ->; by left|].
    pose proof (ki_block _ I _ _ _ Ht (or_introl eq_refl)). pose proof (ki_block _ I _ _ _ Ht (or_intror eq_refl)).
    eapply (go_quiet s (release_bucket _ s) t _ _ I Ht); try done; [by apply kept_release_block|].
    constructor; cbn; [|intros ? ->; by apply (ki_rlock _ I _ _ _ Ht)|done]. intros b ->. rewrite lookup_delete_ne; [done|]. unfold Unique.low, Unique.high. lia.
  - intros [= <-]. pose proof (ki_block _ I _ _ _ Ht eq_refl). eapply (go_quiet s (release_bucket _ s) t _ _ I Ht); try done; [by apply kept_release_block|].
    constructor; cbn; [done|intros ? ->; by apply (ki_rlock _ I _ _ _ Ht)|done].
  - intros [= <-]. pose proof (ki_rlock _ I _ _ i Ht eq_refl). eapply (go_quiet s (release_row i s) t _ _ I Ht); try done. by apply kept_release_row.
  - done.
Qed.
End update.

(** ** Deletes *)

Section delete.
Context (s : ksys) (t : nat) (i : Z) (I : kinv s).

(** The row is not visible any more. *)
Lemma del_state p p' st : let th := KDel i p in let th' := KDel i p' in k_crew s !! t = Some th → st ≠ FM_SLOT_ACTIVE → holds_rowlock th i →
  (i ∉ k_free s) → is_Some (k_rows s !! i) → (∀ t2 th2, t2 ≠ t → k_crew s !! t2 = Some th2 → owns th2 ≠ Some i) → owns th' = Some i →
  locks_mine t s th' → (∀ s', knows s' th') → kinv (w_crew t th' (put_state i st s)).
Proof using I.
  intros th th' Ht Hst Hrl Hf Hr Ho Ho' Hm Hn. set (s' := w_crew t th' _).
  assert (Hact : ∀ j, active s' j = if decide (j = i) then None else active s j).
  { intros j. change (active s' j) with (active (put_state i st s) j). rewrite active_put_state. by rewrite (decide_False (P := st = _)). }
  eapply (kinv_step s s' t th th' I Ht); try done.
  - by destruct Hm.
  - intros j k a b. rewrite !Hact. repeat case_decide; try done. apply I.
  - eapply (chain_same s t); [done..|by intros ? []|done| |done]. intros j a. rewrite Hact. by case_decide.
  - intros j Hj. destruct (ki_free _ I j Hj). rewrite Hact. split; [by case_decide|by apply row_put].
  - apply I.
  - intros j Hj. rewrite Ho' in Hj. injection Hj as <-. rewrite Hact, decide_True by done. split_and!; [done..|by apply row_put].
  - intros t2 th2 j Hne H2 Hj. destruct (ki_owns _ I _ _ _ H2 Hj) as (? & ? & ?). rewrite Hact. split_and!; [by case_decide|done|by apply row_put|].
    rewrite Ho'. intros [= ->]. by apply (Ho _ _ Hne H2).
  - intros t2 th2 Hne H2. apply knows_mono; [|by intros; apply image_put_state|done|].
    + intros j a Hj Hja. rewrite Hact, decide_False; [done|]. intros ->. by destruct (Hne (row_alone s t2 t _ _ i I H2 Ht Hj Hrl)).
    + intros x r j img _. rewrite Hact. case_decide; [done|by exists img].
Qed.

Lemma del_mark : k_crew s !! t = Some (KDel i DeMark) → kinv (w_crew t (KDel i DeCopy) (put_state i FM_SLOT_DELETING s)).
Proof using I.
  intros Ht. destruct (ki_knows _ I _ _ Ht) as [a Ha]. eapply (del_state _ _ _ Ht); try done.
  - intros Hf. destruct (ki_free _ I i Hf). congruence.
  - unfold active in Ha. destruct (k_rows s !! i); [done|discriminate Ha].
  - intros t2 th2 _ H2 Ho. destruct (ki_owns _ I _ _ _ H2 Ho). congruence.
  - by eapply (mine_sub s _ t _ _ I Ht).
Qed.

Lemma del_dead : k_crew s !! t = Some (KDel i DeDead) → kinv (w_crew t (KDel i DeMutex) (put_state i FM_SLOT_DELETED s)).
Proof using I.
  intros Ht. destruct (ki_owns _ I _ _ i Ht eq_refl) as (Ha & Hf & Hr). eapply (del_state _ _ _ Ht); try done.
  - intros t2 th2 Hne H2 Ho. by destruct (Hne (ki_own _ I _ _ _ _ _ H2 Ht Ho eq_refl)).
  - by eapply (mine_sub s _ t _ _ I Ht).
Qed.

Lemma del_unlink r : k_crew s !! t = Some (KDel i (DeUnlink r)) → kinv (w_crew t (KDel i (DeRelease r)) (do_unlink (bucket r) i s)).
Proof using I.
  intros Ht. destruct (ki_owns _ I _ _ i Ht eq_refl) as (Ha & Hf & Hr).
  assert (Hc : ∀ b j, j ≠ i → j ∈ chain_of s b → j ∈ chain_of (do_unlink (bucket r) i s) b).
  { intros b j Hne Hj. rewrite chain_unlink. case_decide; [subst; by apply elem_remove_first|done]. }
  eapply (chain_step s _ t _ _ I Ht); try done.
  - by eapply (mine_sub s _ t _ _ I Ht).
  - intros j a Hj. destruct (ki_chain _ I j a Hj) as [?|(t2 & th2 & H2 & Hm2)]; [left; apply Hc; [congruence|done]|right]. exists t2, th2. split; [|done].
    rewrite lookup_insert_ne; [done|]. intros <-. rewrite Ht in H2. by injection H2 as <-.
  - intros t2 th2 b j Hne H2 Hj. apply Hc. intros ->. by destruct (Hne (ki_own _ I _ _ _ _ _ H2 Ht Hj eq_refl)).
Qed.

Lemma del_step_ok p s' : k_crew s !! t = Some (KDel i p) → del_step kc t i p s = Some s' → kinv s'.
Proof using I.
  intros Ht. pose proof (ki_knows _ I _ _ Ht) as Hn. destruct p as [| | | |r|r|r| | | | |rc|rc]; cbn -[active].
  - destruct (lock_row t i s) as [s0|] eqn:E; [|done]. apply kept_rlock in E as (Hk & Hm & E1 & E2 & Er & Ec & Ef & Ew). cbn. intros [= <-].
    eapply (go_quiet s s0 t _ _ I Ht); try done. constructor; [done| |done]. by intros ? ->.
  - case_decide as E; intros [= <-]; eapply (go_quiet s s t _ _ I Ht); try done; try (by eapply (mine_sub s _ t _ _ I Ht)).
    cbn. unfold row_state in E. unfold active. destruct (k_rows s !! i) as [row|]; [|discriminate E]. injection E as E. cbn. by rewrite decide_True.
  - intros [= <-]. by apply del_mark.
  - intros [= <-]. eapply (go_quiet s s t _ _ I Ht); try done. by eapply (mine_sub s _ t _ _ I Ht).
  - destruct (lock_bucket t (bucket r) s) as [s0|] eqn:E; [|done]. apply kept_block in E as (Hk & Hb & Hb0 & Hb1 & E1 & E2 & Er & Ec & Ef & Ew). cbn. intros [= <-].
    eapply (go_quiet s s0 t _ _ I Ht); try done. constructor; cbn; [by intros b ->|intros ? ->; rewrite E1; by apply (ki_rlock _ I _ _ _ Ht)|done].
  - intros [= <-]. by apply del_unlink.
  - intros [= <-]. pose proof (ki_block _ I _ _ _ Ht eq_refl). eapply (go_quiet s (release_bucket _ s) t _ _ I Ht); try done; [by apply kept_release_block|].
    constructor; cbn; [done|intros ? ->; by apply (ki_rlock _ I _ _ _ Ht)|done].
  - intros [= <-]. by apply del_dead.
  - destruct (lock_mutex t s) as [s0|] eqn:E; [|done]. apply kept_mutex in E as (Hk & Hm & E1 & E2 & Er & Ec & Ef & Ew). cbn. intros [= <-].
    eapply (go_quiet s s0 t _ _ I Ht); try done. constructor; cbn; [done|intros ? ->; rewrite E2; by apply (ki_rlock _ I _ _ _ Ht)|done].
  - intros [= <-]. eapply give_back; try done; [by eapply (mine_sub s _ t _ _ I Ht)|by intros ? []].
  - intros [= <-]. pose proof (ki_mutex _ I _ _ Ht Logic.I). eapply (go_quiet s (release_mutex s) t _ _ I Ht); try done; [by apply kept_release_mutex|].
    constructor; cbn; [done|intros ? ->; by apply (ki_rlock _ I _ _ _ Ht)|done].
  - intros [= <-]. pose proof (ki_rlock _ I _ _ i Ht eq_refl). eapply (go_quiet s (release_row i s) t _ _ I Ht); try done. by apply kept_release_row.
  - done.
Qed.
End delete.

(** ** Lookups *)

(** A lookup changes nothing but the lock of its bucket. *)
Lemma find_step_ok s t pk p s' : kinv s → k_crew s !! t = Some (KFind pk p) → find_step kc t pk p s = Some s' → kinv s'.
Proof using Type.
  intros I Ht. destruct p as [|[|h rest]|res|res]; cbn -[active].
  - destruct (lock_bucket t (pk_bucket kc pk) s) as [s0|] eqn:E; [|done]. apply kept_block in E as (Hk & Hb & Hb0 & Hb1 & E1 & E2 & Er & Ec & Ef & Ew). cbn. intros [= <-].
    eapply (go_quiet s s0 t _ _ I Ht); try done. constructor; cbn; [by intros b ->|done|done].
  - intros [= <-]. eapply (go_quiet s s t _ _ I Ht); try done. by eapply (mine_sub s _ t _ _ I Ht).
  - destruct (active s h) as [img|]; [destruct (key_match kc img pk)|]; intros [= <-]; eapply (go_quiet s s t _ _ I Ht); try done; by eapply (mine_sub s _ t _ _ I Ht).
  - intros [= <-]. pose proof (ki_block _ I _ _ _ Ht eq_refl). eapply (go_quiet s (release_bucket _ s) t _ _ I Ht); try done. by apply kept_release_block.
  - done.
Qed.

(** * Runs *)

Lemma kstep_ok s t s' : kinv s → kstep kc t s = Some s' → kinv s'.
Proof.
  intros I. unfold kstep. destruct (k_crew s !! t) as [th|] eqn:Ht; [|done]. cbn. destruct th; [by eapply ins_step_ok|by eapply upd_step_ok|by eapply del_step_ok|by eapply find_step_ok].
Qed.

Lemma krun_ok sched : ∀ s s', kinv s → krun kc sched s = Some s' → kinv s'.
Proof.
  induction sched as [|t sched IH]; intros s s' I; cbn; [by intros [= <-]|]. destruct (kstep kc t s) as [s1|] eqn:E; [|done]. cbn.
  apply IH. by eapply kstep_ok.
Qed.

(** The threads are about to start on a table in order: keys are unique, every row is in the chain of
    its key, the freelist has slots that are not in use, and no lock is held. *)
Definition fresh (th : kthread) : bool :=
  match th with KIns _ InMutex | KUpd _ _ UpLock | KDel _ DeLock | KFind _ FiLock => true | _ => false end.
Record kstart (s : ksys) : Prop := {
  ks_unique i j a b : active s i = Some a → active s j = Some b → i ≠ j → clash a b = false;
  ks_chain i a : active s i = Some a → i ∈ chain_of s (bucket a);
  ks_free i : i ∈ k_free s → active s i = None ∧ is_Some (k_rows s !! i);
  ks_nodup : NoDup (k_free s);
  ks_locks : k_rlock s = ∅ ∧ k_block s = ∅ ∧ k_mutex s = None;
  ks_crew t th : k_crew s !! t = Some th → fresh th = true
}.

(** The same as a check. *)
Definition start_ok (s : ksys) : bool :=
  bool_decide (map_Forall (λ i r, k_state r = FM_SLOT_ACTIVE → i ∈ chain_of s (bucket (k_img r)) ∧
    map_Forall (λ j q, k_state q = FM_SLOT_ACTIVE → i ≠ j → clash (k_img r) (k_img q) = false) (k_rows s)) (k_rows s)) &&
  bool_decide (Forall (λ i, active s i = None ∧ is_Some (k_rows s !! i)) (k_free s) ∧ NoDup (k_free s)) &&
  bool_decide (k_rlock s = ∅ ∧ k_block s = ∅ ∧ k_mutex s = None) && bool_decide (map_Forall (λ _ th, fresh th = true) (k_crew s)).

Lemma active_row s i a : active s i = Some a → ∃ r, k_rows s !! i = Some r ∧ k_state r = FM_SLOT_ACTIVE ∧ k_img r = a.
Proof using Type. unfold active. destruct (k_rows s !! i) as [r|]; [|done]. cbn. case_decide; [|done]. intros [= <-]. by exists r. Qed.

Lemma start_ok_start s : start_ok s = true → kstart s.
Proof using Type.
  unfold start_ok. rewrite !andb_true_iff, !bool_decide_eq_true. intros [[[Hr [Hf Hnd]] Hl] Hc]. constructor; try done.
  - intros i j a b (r & Hi & Er & <-)%active_row (q & Hj & Eq & <-)%active_row Hne. destruct (Hr i r Hi Er) as [_ H]. exact (H j q Hj Eq Hne).
  - intros i a (r & Hi & Er & <-)%active_row. apply (Hr i r Hi Er).
  - by apply Forall_forall.
Qed.

Lemma kinv_start s : kstart s → regime (k_crew s) → kinv s.
Proof using Type.
  intros S R. assert (Hf : ∀ t th, k_crew s !! t = Some th → owns th = None ∧ (∀ b, ¬ holds_bucket th b) ∧ (∀ i, ¬ holds_rowlock th i) ∧ ¬ holds_mutex th ∧ knows s th).
  { intros t th Ht. pose proof (ks_crew _ S t th Ht) as F. destruct th as [rec []|i f []|i []|pk []]; try done; split_and!; try done; first [by intros ? []|by intros []]. }
  constructor; try apply S; try done.
  - intros i a Hi. left. by apply S.
  - intros t th i Ht Hi. destruct (Hf t th Ht). congruence.
  - intros t t' th th' i Ht _ Hi. destruct (Hf t th Ht). congruence.
  - intros t th b Ht Hb. destruct (Hf t th Ht) as (_ & H & _). by destruct (H b).
  - intros t th b Ht Hb. destruct (Hf t th Ht) as (_ & _ & H & _). by destruct (H b).
  - intros t th Ht Hb. by destruct (Hf t th Ht) as (_ & _ & _ & H & _).
  - intros t th Ht. apply (Hf t th Ht).
Qed.

(** C13: inserts, updates, deletes and lookups of any number of threads, interleaved in any order at every
    lock, read, write and chain operation, never leave two visible rows with the same unique key,
    provided that nobody inserts or nobody changes the key of a row. *)
Theorem unique_concurrent s sched s' i j a b : kstart s → regime (k_crew s) → krun kc sched s = Some s' →
  active s' i = Some a → active s' j = Some b → clash a b = true → i = j.
Proof.
  intros S R Hrun Hi Hj Hs. destruct (decide (i = j)) as [?|Hne]; [done|]. pose proof (krun_ok sched s s' (kinv_start s S R) Hrun) as I.
  by rewrite (ki_unique _ I i j a b Hi Hj Hne) in Hs.
Qed.

End safety.
