(* ===== verification/UniqueWins.v ===== *)
(** Inserts that race for the same unique key: exactly one of them wins. *)

From S2P Require Import Prelude CoreState RowOps Shape Inv Unique UniqueSafe.

Section winners.
Context (kc : FM_KEY_CORE) {L : KeyOpsLaws (ops kc)} (Hu : unique kc = true).
#[local] Set Default Proof Using "Type*".

#[local] Abbreviation same := (key_same kc).
#[local] Abbreviation clash := (clash kc).
#[local] Abbreviation kinv := (kinv kc).
#[local] Abbreviation kstart := (kstart kc).

(** What an insert returns, once that is settled. *)
Definition verdict (th : kthread) : option (bytes * fm_err) :=
  match th with
  | KIns rec (InDup _ | InFree _) => Some (rec, FM_ERR_DUP_KEY)
  | KIns rec (InEnd rc | InReturn rc) => Some (rec, rc)
  | _ => None
  end.

(** Inserts and updates that keep the key. *)
Definition gentle (th : kthread) : Prop := match th with KDel _ _ => False | _ => keeps_key kc th end.

(** The rows keep their keys. *)
Record same_keys (s s' : ksys) : Prop := {
  sk_to j a : active s j = Some a → ∃ a', active s' j = Some a' ∧ same a a' = true;
  sk_from j a' : active s' j = Some a' → ∃ a, active s j = Some a ∧ same a a' = true
}.

Lemma same_keys_eq s s' : (∀ j, active s' j = active s j) → same_keys s s'.
Proof. intros H. constructor; intros j a; rewrite H; exists a; (split; [done|apply (same_refl kc)]). Qed.

(** What a step does: it publishes a row, or leaves the keys alone and perhaps settles that there is
    a row with the key, or no slot. *)
Definition step_kind (s s' : ksys) (th th' : kthread) : Prop :=
  (∃ idx rec, th = KIns rec (InPublish idx) ∧ verdict th' = Some (rec, FM_ERR_OK) ∧
     ∀ j, active s' j = if decide (j = idx) then Some rec else active s j) ∨
  same_keys s s' ∧ (verdict th' = verdict th ∨ ∃ rec, verdict th = None ∧
    (verdict th' = Some (rec, FM_ERR_FULL) ∨ verdict th' = Some (rec, FM_ERR_DUP_KEY) ∧ ∃ j a, active s j = Some a ∧ same a rec = true)).

Lemma quiet_kind s s' th th' : (∀ j, active s' j = active s j) → verdict th' = verdict th → step_kind s s' th th'.
Proof. intros Ha Ho. right. split; [by apply same_keys_eq|by left]. Qed.

Lemma ins_kind s t rec p s' : kinv s → k_crew s !! t = Some (KIns rec p) → ins_step kc t rec p s = Some s' →
  ∃ p', k_crew s' = <[t := KIns rec p']> (k_crew s) ∧ step_kind s s' (KIns rec p) (KIns rec p').
Proof.
  intros I Ht. destruct p as [| |idx|idx|idx [|h rest]|idx|idx|idx|idx|idx|rc|rc]; cbn;
    try (intros [= <-]; eexists; split; [reflexivity|by apply quiet_kind]).
  - unfold lock_mutex. destruct (k_mutex s); [done|]. intros [= <-]. eexists. split; [reflexivity|by apply quiet_kind].
  - destruct (k_free s); intros [= <-]; eexists; (split; [reflexivity|]); [|by apply quiet_kind]. right. split; [by apply same_keys_eq|right]. exists rec. split; [done|by left].
  - destruct (ki_owns _ _ I _ _ idx Ht eq_refl) as (Ha & _). intros [= <-]. eexists. split; [reflexivity|]. apply quiet_kind; [|done]. intros j.
    change (active (put_image idx rec s) j = active s j). rewrite active_put_image. case_decide; [subst; by rewrite Ha|done].
  - unfold lock_bucket. destruct (k_block s !! _); [done|]. intros [= <-]. eexists. split; [reflexivity|by apply quiet_kind].
  - destruct (is_dup kc s h rec) eqn:Ed; intros [= <-]; eexists; (split; [reflexivity|]); [|by apply quiet_kind]. right. split; [by apply same_keys_eq|right].
    exists rec. split; [done|right]. split; [done|]. unfold is_dup in Ed. destruct (active s h) as [a|] eqn:E; [by exists h, a|done].
  - destruct (ki_owns _ _ I _ _ idx Ht eq_refl) as (_ & _ & r & Hr). pose proof (ki_knows _ _ I _ _ Ht) as (Hi & _). intros [= <-]. eexists. split; [reflexivity|].
    left. exists idx, rec. split_and!; [done..|]. intros j. change (active (put_state idx FM_SLOT_ACTIVE s) j = if decide (j = idx) then Some rec else active s j).
    unfold image_of in Hi. rewrite active_put_state, Hr in *. cbn in *. by rewrite Hi.
  - done.
Qed.

Lemma upd_kind s t i f p s' : kinv s → k_crew s !! t = Some (KUpd i f p) → (∀ img, same img (f img) = true) → upd_step kc t i f p s = Some s' →
  ∃ p', k_crew s' = <[t := KUpd i f p']> (k_crew s) ∧ step_kind s s' (KUpd i f p) (KUpd i f p').
Proof.
  intros I Ht Hf. pose proof (ki_knows _ _ I _ _ Ht) as Hn.
  destruct p as [| |old new|old new|old new|old new|old new [|h rest]|old new|old new|old new|old new rc|old new rc|rc|rc]; cbn -[active];
    try (intros [= <-]; eexists; split; [reflexivity|by apply quiet_kind]); try (destruct Hn as (_ & -> & Hn); rewrite Hf in Hn; naive_solver).
  - unfold lock_row. destruct (k_rlock s !! i); [done|]. intros [= <-]. eexists. split; [reflexivity|by apply quiet_kind].
  - destruct (active s i); intros [= <-]; eexists; (split; [reflexivity|by apply quiet_kind]).
  - case_decide; intros [= <-]; eexists; (split; [reflexivity|by apply quiet_kind]).
  - destruct Hn as (Ha & Hs). intros [= <-]. eexists. split; [reflexivity|]. right. split; [|by left].
    assert (Hact : ∀ j, active (put_image i new s) j = if decide (j = i) then Some new else active s j) by (intros j; by rewrite active_put_image, Ha).
    constructor; intros j a Hj; change (active (w_crew _ _ ?s0) j) with (active s0 j) in *; rewrite ?Hact in *; case_decide; simplify_eq; eauto using same_refl.
  - case_decide; intros [= <-]; eexists; (split; [reflexivity|by apply quiet_kind]).
  - done.
Qed.

Lemma find_kind s t pk p s' : find_step kc t pk p s = Some s' →
  ∃ p', k_crew s' = <[t := KFind pk p']> (k_crew s) ∧ step_kind s s' (KFind pk p) (KFind pk p').
Proof.
  destruct p as [|[|h rest]|res|res]; cbn -[active]; try (intros [= <-]; eexists; split; [reflexivity|by apply quiet_kind]); [| |done].
  - unfold lock_bucket. destruct (k_block s !! _); [done|]. intros [= <-]. eexists. split; [reflexivity|by apply quiet_kind].
  - destruct (active s h) as [img|]; [destruct (key_match kc img pk)|]; intros [= <-]; eexists; (split; [reflexivity|by apply quiet_kind]).
Qed.

Lemma kstep_kind s t s' : kinv s → (∀ t th, k_crew s !! t = Some th → gentle th) → kstep kc t s = Some s' →
  ∃ th th', k_crew s !! t = Some th ∧ k_crew s' = <[t := th']> (k_crew s) ∧ same_thread th th' ∧ step_kind s s' th th'.
Proof.
  intros I G. unfold kstep. destruct (k_crew s !! t) as [th|] eqn:Ht; [|done]. pose proof (G _ _ Ht) as Hg. cbn. intros Hs. exists th.
  destruct th as [rec p|i f p|i p|pk p]; [| |done|].
  - destruct (ins_kind s t rec p s' I Ht Hs) as (p' & Ec & Hk). by exists (KIns rec p').
  - destruct (upd_kind s t i f p s' I Ht Hg Hs) as (p' & Ec & Hk). by exists (KUpd i f p').
  - destruct (find_kind s t pk p s' Hs) as (p' & Ec & Hk). by exists (KFind pk p').
Qed.

(** The outcomes so far: [s0] is the start. *)
Record settled (s0 s : ksys) : Prop := {
  se_gentle t th : k_crew s !! t = Some th → gentle th;
  se_row t th rec rc : k_crew s !! t = Some th → verdict th = Some (rec, rc) →
    rc = FM_ERR_FULL ∨ (rc = FM_ERR_OK ∨ rc = FM_ERR_DUP_KEY) ∧ ∃ j a, active s j = Some a ∧ same a rec = true;
  se_one t t' th th' rec rec' : k_crew s !! t = Some th → k_crew s !! t' = Some th' → verdict th = Some (rec, FM_ERR_OK) →
    verdict th' = Some (rec', FM_ERR_OK) → t ≠ t' → clash rec rec' = false;
  se_from j a : active s j = Some a → (∃ a0, active s0 j = Some a0 ∧ same a0 a = true) ∨
    ∃ t th rec, k_crew s !! t = Some th ∧ verdict th = Some (rec, FM_ERR_OK) ∧ same rec a = true
}.

Lemma gentle_step (crew : gmap nat kthread) t th th' : crew !! t = Some th → same_thread th th' → (∀ t th, crew !! t = Some th → gentle th) →
  ∀ t2 th2, <[t := th']> crew !! t2 = Some th2 → gentle th2.
Proof using Type.
  intros Ht Hs G t2 th2 [[<- <-]|[_ H2]]%lookup_insert_Some; [|by eapply G]. specialize (G _ _ Ht). destruct th, th'; try done. by destruct Hs as [-> ->].
Qed.

(** A row becomes visible, and its insert wins. *)
Lemma settled_publish s0 s s' t idx rec th' : kinv s → settled s0 s → k_crew s !! t = Some (KIns rec (InPublish idx)) →
  k_crew s' = <[t := th']> (k_crew s) → same_thread (KIns rec (InPublish idx)) th' → verdict th' = Some (rec, FM_ERR_OK) →
  (∀ j, active s' j = if decide (j = idx) then Some rec else active s j) → settled s0 s'.
Proof.
  intros I S Ht Ec Hst Ho Hact. destruct (ki_owns _ _ I _ _ idx Ht eq_refl) as (Ha & _). pose proof (ki_knows _ _ I _ _ Ht) as (_ & Hab & _).
  assert (Hto : ∀ j a, active s j = Some a → active s' j = Some a) by (intros j a Hj; rewrite Hact, decide_False; [done|congruence]).
  assert (Hnew : active s' idx = Some rec) by (by rewrite Hact, decide_True).
  assert (Hno : ∀ t2 th2 rec2, k_crew s !! t2 = Some th2 → verdict th2 = Some (rec2, FM_ERR_OK) → clash rec rec2 = false).
  { intros t2 th2 rec2 H2 Ho2. destruct (clash rec rec2) eqn:E; [|done]. destruct (se_row _ _ S _ _ _ _ H2 Ho2) as [?|(_ & j & a & Hj & Hs)]; [done|].
    rewrite clash_sym in E by done. pose proof (clash_l kc _ _ _ Hs E) as E2. rewrite (Hab j a) in E2; congruence. }
  constructor; rewrite ?Ec.
  - eapply gentle_step; [done..|apply S].
  - intros t2 th2 r rc [[<- <-]|[_ H2]]%lookup_insert_Some Ho2.
    + rewrite Ho in Ho2. injection Ho2 as <- <-. right. split; [by left|]. eauto using same_refl.
    + destruct (se_row _ _ S _ _ _ _ H2 Ho2) as [?|(? & j & a & Hj & Hs)]; [by left|right]. eauto 8.
  - intros t1 t2 th1 th2 r1 r2 [[<- <-]|[_ H1]]%lookup_insert_Some [[<- <-]|[_ H2]]%lookup_insert_Some Ho1 Ho2 Hne; [done| | |exact (se_one _ _ S _ _ _ _ _ _ H1 H2 Ho1 Ho2 Hne)].
    + rewrite Ho in Ho1. injection Ho1 as <-. by eapply Hno.
    + rewrite Ho in Ho2. injection Ho2 as <-. rewrite (clash_sym kc). by eapply Hno.
  - intros j a. rewrite Hact. case_decide as E; [intros [= <-]; right; exists t, th'; rewrite lookup_insert_eq; eauto using same_refl|]. intros Hj.
    destruct (se_from _ _ S j a Hj) as [?|(t2 & th2 & r & H2 & Ho2 & Hs)]; [by left|right]. exists t2, th2, r.
    rewrite lookup_insert_ne; [done|]. intros <-. rewrite Ht in H2. injection H2 as <-. done.
Qed.

(** Any other step. *)
Lemma settled_other s0 s s' t th th' : settled s0 s → k_crew s !! t = Some th → k_crew s' = <[t := th']> (k_crew s) → same_thread th th' → same_keys s s' →
  (verdict th' = verdict th ∨ ∃ rec, verdict th = None ∧
    (verdict th' = Some (rec, FM_ERR_FULL) ∨ verdict th' = Some (rec, FM_ERR_DUP_KEY) ∧ ∃ j a, active s j = Some a ∧ same a rec = true)) → settled s0 s'.
Proof.
  intros S Ht Ec Hst [Hto Hfrom] Ho.
  assert (Hrow : ∀ rec, (∃ j a, active s j = Some a ∧ same a rec = true) → ∃ j a, active s' j = Some a ∧ same a rec = true).
  { intros rec (j & a & Hj & Hs). destruct (Hto j a Hj) as (a' & Hj' & Hs'). rewrite (same_sym kc) in Hs'. exists j, a'. split; [done|by eapply (same_trans kc)]. }
  assert (Hok : ∀ rec, verdict th' = Some (rec, FM_ERR_OK) ↔ verdict th = Some (rec, FM_ERR_OK)).
  { intros rec. destruct Ho as [->|(r & -> & [->|[-> _]])]; done. }
  constructor; rewrite ?Ec.
  - eapply gentle_step; [done..|apply S].
  - intros t2 th2 r rc [[<- <-]|[_ H2]]%lookup_insert_Some Ho2.
    + destruct Ho as [E|(r' & _ & [E|[E Hr]])]; rewrite E in Ho2; [|injection Ho2 as <- <-; by left|injection Ho2 as <- <-; right; split; [by right|by apply Hrow]].
      destruct (se_row _ _ S _ _ _ _ Ht Ho2) as [?|[? ?]]; [by left|right; auto].
    + destruct (se_row _ _ S _ _ _ _ H2 Ho2) as [?|[? ?]]; [by left|right; auto].
  - intros t1 t2 th1 th2 r1 r2 [[<- <-]|[_ H1]]%lookup_insert_Some [[<- <-]|[_ H2]]%lookup_insert_Some Ho1 Ho2 Hne; [done|..].
    + apply Hok in Ho1. exact (se_one _ _ S _ _ _ _ _ _ Ht H2 Ho1 Ho2 Hne).
    + apply Hok in Ho2. exact (se_one _ _ S _ _ _ _ _ _ H1 Ht Ho1 Ho2 Hne).
    + exact (se_one _ _ S _ _ _ _ _ _ H1 H2 Ho1 Ho2 Hne).
  - intros j a Hj. destruct (Hfrom j a Hj) as (a1 & Hj1 & Hs1). destruct (se_from _ _ S j a1 Hj1) as [(a0 & ? & ?)|(t2 & th2 & r & H2 & Ho2 & Hs)].
    + left. exists a0. split; [done|by eapply (same_trans kc)].
    + right. destruct (decide (t2 = t)) as [->|Hne]; [exists t, th', r; rewrite lookup_insert_eq, Hok|exists t2, th2, r; rewrite lookup_insert_ne by done];
        split_and!; try done; try (by eapply (same_trans kc)). congruence.
Qed.

Lemma settled_run s0 sched : ∀ s s', kinv s → settled s0 s → krun kc sched s = Some s' → settled s0 s'.
Proof.
  induction sched as [|t sched IH]; intros s s' I S; cbn; [by intros [= <-]|]. destruct (kstep kc t s) as [s1|] eqn:E; [|done]. cbn.
  apply IH; [by eapply (kstep_ok kc)|]. destruct (kstep_kind s t s1 I (se_gentle _ _ S) E) as (th & th' & Ht & Ec & Hst & [(idx & rec & -> & Ho & Ha)|[Hk Ho]]);
    [by eapply settled_publish|by eapply settled_other].
Qed.

(** C14: when threads race to insert rows with the same unique key, and others update rows without
    changing keys, one insert of that key succeeds and all the others of that key are told of the
    duplicate, unless the table had the key from the start or had no slot left for them. *)
Theorem one_insert_wins s sched s' t rec rc : kstart s → (∀ t th, k_crew s !! t = Some th → gentle th) → krun kc sched s = Some s' →
  k_crew s' !! t = Some (KIns rec (InReturn rc)) → rc ≠ FM_ERR_FULL → (∀ j a, active s j = Some a → same a rec = false) → has_null kc rec = false →
  ∃ t0 th0 rec0, k_crew s' !! t0 = Some th0 ∧ verdict th0 = Some (rec0, FM_ERR_OK) ∧ same rec0 rec = true ∧
    ∀ t1 rec1 rc1, t1 ≠ t0 → k_crew s' !! t1 = Some (KIns rec1 (InReturn rc1)) → same rec1 rec = true → rc1 = FM_ERR_DUP_KEY ∨ rc1 = FM_ERR_FULL.
Proof.
  intros K G Hrun Ht Hrc Hnew Hnl. assert (S : settled s s').
  { eapply (settled_run s sched s s'); [apply (kinv_start kc); [done|right; intros t1 th1 H1; specialize (G _ _ H1); by destruct th1]| |done].
    assert (Hf : ∀ t th, k_crew s !! t = Some th → verdict th = None) by (intros t1 th1 H1; pose proof (ks_crew _ _ K _ _ H1); destruct th1 as [? []|? ? []|? []|? []]; done).
    constructor; [done|intros t1 th1 r c H1; by rewrite (Hf _ _ H1)|intros t1 t2 th1 th2 r1 r2 H1; by rewrite (Hf _ _ H1)|]. intros j a Hj. left. eauto using same_refl. }
  destruct (se_row _ _ S _ _ rec rc Ht eq_refl) as [?|(_ & j & a & Hj & Hs)]; [done|].
  destruct (se_from _ _ S j a Hj) as [(a0 & H0 & Hs0)|(t0 & th0 & rec0 & H0 & Ho0 & Hs0)].
  { pose proof (same_trans kc _ _ _ Hs0 Hs) as E. by rewrite (Hnew _ _ H0) in E. }
  pose proof (same_trans kc _ _ _ Hs0 Hs) as E0. exists t0, th0, rec0. split_and!; try done. intros t1 rec1 rc1 Hne H1 E1.
  destruct (se_row _ _ S _ _ rec1 rc1 H1 eq_refl) as [->|([->| ->] & _)]; [by right| |by left]. exfalso. rewrite (same_sym kc) in E0.
  assert (E : clash rec1 rec0 = true) by (apply clash_true; split; [by eapply (same_trans kc)|by rewrite (same_null kc _ _ E1)]). by rewrite (se_one _ _ S _ _ _ _ rec1 rec0 H1 H0 eq_refl Ho0 Hne) in E.
Qed.
End winners.
