(* ===== verification/UniqueRace.v ===== *)
(** An insert and a key change that race for the same value of a unique key. *)

From S2P Require Import Prelude CoreState RowOps Shape Inv Unique.


(** A unique key on the first byte of the record, where 0 stands for null. *)
Definition byte_key : FM_KEY_CORE :=
  mkKey (mkOps (Some (λ r, hd 0 r)) (Some (λ pk, hd 0 pk)) (Some (λ a b, hd 0 a - hd 0 b)) (Some (λ a pk, hd 0 a - hd 0 pk))
    (Some (λ r, if decide (hd 0 r = 0) then 1 else 0))) true 2 None None.

#[export] Instance byte_key_laws : KeyOpsLaws (ops byte_key).
Proof.
  split; try by eexists; unfold same_key, matches_key, null_key, hash_of, key_hash_of; cbn.
  - split; unfold same_key; cbn; intros ?; [|intros ?|intros ? ?]; lia.
  - unfold same_key, hash_of. cbn. lia.
  - unfold same_key, null_key. cbn. intros a b E. repeat case_decide; try done; lia.
  - unfold matches_key, hash_of, key_hash_of. cbn. lia.
Qed.

(** Row 0 has key 1.  Thread 1 inserts key 2 in slot 1, and thread 2 changes the key of row 0 to 2
    after thread 1 has left the bucket and before it publishes its row. *)
Definition race_start : ksys :=
  mkK {[ 0 := mkRow FM_SLOT_ACTIVE [1]; 1 := mkRow FM_SLOT_FREE [] ]} {[ 1 := [0] ]} [1] ∅ ∅ None
    {[ 1%nat := KIns [2] InMutex; 2%nat := KUpd 0 (λ _, [2]) UpLock ]}.

(** C17: an insert and an update that changes a key to the same unique value can both succeed, and
    then the table has two rows with that key: the insert leaves the bucket before it publishes its
    row, and the duplicate check of the update passes over a row that is linked and not published. *)
Lemma unique_key_race : ∃ sched s, krun byte_key sched race_start = Some s ∧
  k_crew s !! 1%nat = Some (KIns [2] (InReturn FM_ERR_OK)) ∧ (∃ f, k_crew s !! 2%nat = Some (KUpd 0 f (UpReturn FM_ERR_OK))) ∧
  active s 0 = Some [2] ∧ active s 1 = Some [2].
Proof.
  set (sched := replicate 7 1%nat ++ replicate 13 2%nat ++ [1; 1]%nat). exists sched.
  destruct (krun byte_key sched race_start) as [s|] eqn:E; [|vm_compute in E; discriminate E].
  exists s. vm_compute in E. injection E as <-. split; [reflexivity|]. split; [reflexivity|]. split; [by eexists|]. by split.
Qed.
