(* ===== verification/UniqueFind.v ===== *)
(** Lookups of a unique key among threads that insert, update and delete: what a lookup returns was
    true at a moment while it was at work. *)

From S2P Require Import Prelude CoreState RowOps Shape Inv Unique UniqueSafe UniqueWins.

Section find.
Context (kc : FM_KEY_CORE) {L : KeyOpsLaws (ops kc)} (Hu : unique kc = true).
#[local] Set Default Proof Using "Type*".

#[local] Abbreviation same := (key_same kc).
#[local] Abbreviation bucket := (rec_bucket kc).
#[local] Abbreviation kinv := (kinv kc).

(** [pk] is the packed key of the record [r]. *)
Definition packs (pk r : bytes) : Prop := ∀ a, matches_key (ops kc) a pk ↔ same_key (ops kc) a r.

Lemma packs_match pk r a : packs pk r → key_match kc a pk = same a r.
Proof using Type. intros H. apply bool_decide_ext, H. Qed.
Lemma packs_bucket pk r : packs pk r → pk_bucket kc pk = bucket r.
Proof using L.
  intros H. unfold pk_bucket, rec_bucket. f_equal. symmetry. apply laws_match, H. reflexivity.
Qed.

(** * Rows that a step brings up *)

(** A row that is visible after a step was there before with the same key, or has been published, or
    has got a new key. *)
Definition row_origin (s : ksys) (t : nat) (j : Z) (img : bytes) : Prop :=
  (∃ img0, active s j = Some img0 ∧ same img0 img = true) ∨ k_crew s !! t = Some (KIns img (InPublish j)) ∨
  ∃ f old, k_crew s !! t = Some (KUpd j f (UpWrite old img)).

Lemma origin_old s t j img : active s j = Some img → row_origin s t j img.
Proof. intros H. left. exists img. split; [done|]. apply (same_refl kc). Qed.

Lemma origin_quiet s s' t j img : k_rows s' = k_rows s → active s' j = Some img → row_origin s t j img.
Proof. intros E H. apply origin_old. unfold active in *. by rewrite E in H. Qed.

Lemma kind_origin s s' t th th' j img : k_crew s !! t = Some th → step_kind kc s s' th th' → active s' j = Some img → row_origin s t j img.
Proof.
  intros Ht [(idx & rec & -> & _ & Ha)|[[_ Hfrom] _]] Hj; [|left; by apply Hfrom]. rewrite Ha in Hj. case_decide; [|by apply origin_old].
  subst. injection Hj as <-. by right; left.
Qed.

Lemma upd_origin s t i f p s' j img : kinv s → k_crew s !! t = Some (KUpd i f p) → upd_step kc t i f p s = Some s' → active s' j = Some img → row_origin s t j img.
Proof.
  intros I Ht. pose proof (ki_knows _ _ I _ _ Ht) as Hn.
  destruct p as [| |old new|old new|old new|old new|old new [|h rest]|old new|old new|old new|old new rc|old new rc|rc|rc]; cbn -[active];
    try (intros [= <-]; by apply origin_quiet).
  - unfold lock_row. destruct (k_rlock s !! i); [done|]. intros [= <-]. by apply origin_quiet.
  - destruct (active s i); intros [= <-]; by apply origin_quiet.
  - case_decide; intros [= <-]; by apply origin_quiet.
  - destruct Hn as [Ha Hs]. intros [= <-]. change (active (w_crew _ _ ?s0) j) with (active s0 j). rewrite active_put_image, Ha. case_decide as E; [|apply origin_old].
    intros [= <-]. subst j. left. by exists old.
  - unfold lock_bucket. destruct (k_block s !! _); [done|]. intros [= <-]. by apply origin_quiet.
  - unfold lock_bucket. destruct (k_block s !! _); [done|]. intros [= <-]. by apply origin_quiet.
  - destruct (is_dup kc s h new); intros [= <-]; by apply origin_quiet.
  - destruct Hn as [Ha _]. intros [= <-]. change (active (w_crew _ _ ?s0) j) with (active s0 j). rewrite active_put_image, Ha. case_decide as E; [|apply origin_old].
    intros [= <-]. subst j. right. right. eauto.
  - case_decide; intros [= <-]; by apply origin_quiet.
Qed.

Lemma del_origin s t i p s' j img : k_crew s !! t = Some (KDel i p) → del_step kc t i p s = Some s' → active s' j = Some img → row_origin s t j img.
Proof.
  intros Ht. destruct p as [| | | |r|r|r| | | | |rc|rc]; cbn -[active]; try (intros [= <-]; by apply origin_quiet).
  - unfold lock_row. destruct (k_rlock s !! i); [done|]. intros [= <-]. by apply origin_quiet.
  - intros [= <-]. change (active (w_crew _ _ ?s0) j) with (active s0 j). rewrite active_put_state. case_decide; [done|apply origin_old].
  - unfold lock_bucket. destruct (k_block s !! _); [done|]. intros [= <-]. by apply origin_quiet.
  - intros [= <-]. change (active (w_crew _ _ ?s0) j) with (active s0 j). rewrite active_put_state. case_decide; [done|apply origin_old].
  - unfold lock_mutex. destruct (k_mutex s); [done|]. intros [= <-]. by apply origin_quiet.
Qed.

Lemma kstep_origin s t s' j img : kinv s → kstep kc t s = Some s' → active s' j = Some img → row_origin s t j img.
Proof.
  intros I. unfold kstep. destruct (k_crew s !! t) as [th|] eqn:Ht; [|done]. cbn. destruct th as [rec p|i f p|i p|pk p]; intros Hs Hj.
  - destruct (ins_kind kc Hu s t rec p s' I Ht Hs) as (p' & _ & Hk). by eapply kind_origin.
  - by eapply upd_origin.
  - by eapply del_origin.
  - destruct (find_kind kc Hu s t pk p s' Hs) as (p' & _ & Hk). by eapply kind_origin.
Qed.

(** * The rows that a lookup has still to see *)

(** The visible rows with the key of [r] are in [rest]. *)
Definition to_see (s : ksys) (r : bytes) (rest : list Z) : Prop := ∀ j img, active s j = Some img → same img r = true → j ∈ rest.
Definition walking (s : ksys) (t : nat) (pk : bytes) : Prop := ∃ p, k_crew s !! t = Some (KFind pk p) ∧ match p with FiWalk _ | FiUnlock _ => True | _ => False end.

Context (pk r : bytes) (Hpk : packs pk r) (Hnull : has_null kc r = false).

Lemma clash_r_key img : same img r = true → clash kc img r = true.
Proof. intros H. apply clash_true. split; [done|]. by rewrite (same_null kc _ _ H). Qed.

(** While a lookup walks the bucket, another thread makes a row with the key visible only if there
    is none. *)
Lemma to_see_other s t t' s' rest : kinv s → walking s t pk → t' ≠ t → kstep kc t' s = Some s' → to_see s r rest → to_see s r [] ∨ to_see s' r rest.
Proof.
  intros I (p & Ht & Hp) Hne Hs Hsee.
  assert (Hlock : k_block s !! bucket r = Some t).
  { rewrite <-(packs_bucket pk r Hpk). apply (ki_block _ _ I t _ _ Ht). by destruct p. }
  assert (Hdec : (∃ rec idx, k_crew s !! t' = Some (KIns rec (InPublish idx)) ∧ same rec r = true) ∨
    ∀ rec idx, k_crew s !! t' = Some (KIns rec (InPublish idx)) → same rec r = false).
  { destruct (k_crew s !! t') as [[rec []| | |]|]; try (by right). destruct (same rec r) eqn:E; [left; eauto|right; congruence]. }
  destruct Hdec as [(rec & idx & Ht' & Hrec)|Hno]; [left|right].
  - intros j img Hj Himg. exfalso. destruct (ki_owns _ _ I _ _ idx Ht' eq_refl) as (Hidx & _). pose proof (ki_knows _ _ I _ _ Ht') as (_ & Hab & _).
    assert (Hcl : clash kc img rec = true); [|rewrite (Hab j img) in Hcl; congruence].
    apply clash_true. rewrite (same_sym kc) in Hrec. split; [by eapply (same_trans kc)|]. by rewrite (same_null kc _ _ Himg).
  - intros j img Hj Himg. destruct (kstep_origin _ _ _ _ _ I Hs Hj) as [(img0 & H0 & E0)|[Hpub|(f & old & Hw)]].
    + eapply Hsee; [exact H0|by eapply (same_trans kc)].
    + rewrite (Hno _ _ Hpub) in Himg. done.
    + exfalso. apply Hne. pose proof (ki_block _ _ I t' _ (bucket img) Hw) as Hb. rewrite (same_bucket kc _ _ Himg) in Hb.
      assert (Some t' = Some t); [|congruence]. rewrite <-Hlock. symmetry. apply Hb. rewrite <-(same_bucket kc _ _ Himg). exact (proj2 (bucket_low_high kc old img)).
Qed.

(** * Moments of a run *)

(** At some point of the run [sched] from [s0] the lookup of thread [t] was at work and [P] was true. *)
Definition moment (s0 : ksys) (sched : list nat) (t : nat) (P : ksys → Prop) : Prop :=
  ∃ a b s, sched = a ++ b ∧ krun kc a s0 = Some s ∧ walking s t pk ∧ P s.

Lemma moment_later s0 sched x t P : moment s0 sched t P → moment s0 (sched ++ [x]) t P.
Proof. intros (a & b & s & -> & ?). exists a, (b ++ [x]), s. by rewrite app_assoc. Qed.

Lemma krun_snoc sched x s0 s' : krun kc (sched ++ [x]) s0 = Some s' ↔ ∃ s, krun kc sched s0 = Some s ∧ kstep kc x s = Some s'.
Proof.
  revert s0. induction sched as [|y sched IH]; intros s0; cbn.
  - destruct (kstep kc x s0) as [s1|] eqn:E; cbn; split; [intros [= <-]; eauto|intros (s & [= <-] & ?); congruence|done|intros (s & [= <-] & ?); congruence].
  - destruct (kstep kc y s0) as [s1|]; cbn; [apply IH|]. split; [done|by intros (s & ? & _)].
Qed.

(** What the lookup has seen. *)
Definition seen (s0 : ksys) (sched : list nat) (t : nat) (res : option (Z * bytes)) : Prop :=
  moment s0 sched t (λ s, match res with Some (h, img) => active s h = Some img ∧ same img r = true | None => to_see s r [] end).

Definition progress (s0 : ksys) (sched : list nat) (s : ksys) (t : nat) : Prop := ∀ p, k_crew s !! t = Some (KFind pk p) →
  match p with
  | FiLock => True
  | FiWalk rest => seen s0 sched t None ∨ to_see s r rest
  | FiUnlock res | FiReturn res => seen s0 sched t res
  end.

(** A step changes the place of its thread only. *)
Lemma kstep_crew s t s' : kstep kc t s = Some s' → ∃ th th', k_crew s !! t = Some th ∧ k_crew s' = <[t := th']> (k_crew s) ∧ same_thread th th'.
Proof using Type.
  unfold kstep. destruct (k_crew s !! t) as [th|]; [|done]. cbn. intros H. exists th. revert H. unfold ins_step, upd_step, del_step, find_step, lock_mutex, lock_bucket, lock_row. intros H.
  repeat (case_match; simplify_eq/=); eexists; (split; [done|split; [reflexivity|done]]).
Qed.

Lemma crew_other t' s s' t : kstep kc t' s = Some s' → t' ≠ t → k_crew s' !! t = k_crew s !! t.
Proof using Type. intros (th & th' & _ & -> & _)%kstep_crew Hne. by rewrite lookup_insert_ne. Qed.

Lemma find_own s0 sched s t s' p : kinv s → krun kc sched s0 = Some s → k_crew s !! t = Some (KFind pk p) → progress s0 sched s t →
  find_step kc t pk p s = Some s' → progress s0 (sched ++ [t]) s' t.
Proof.
  intros I Hrun Ht Hp. specialize (Hp p Ht). pose proof (λ P HP, moment_later s0 sched t t P (ex_intro _ sched (ex_intro _ [] (ex_intro _ s HP)))) as Hnow.
  destruct p as [|[|h rest]|res|res]; cbn -[active].
  - destruct (lock_bucket t (pk_bucket kc pk) s) as [s1|] eqn:E; [|done]. apply kept_block in E as (_ & Hb & Hb0 & _ & _ & _ & Er & Ec & _ & Ew). cbn. intros [= <-].
    intros p. cbn. rewrite lookup_insert_eq. intros [= <-]. right. intros j img Hj Himg.
    assert (Hjs : active s j = Some img) by (unfold active in *; cbn in Hj; by rewrite Er in Hj).
    assert (Ha : ahead kc s (j + 1) r (walk_from kc s r)) by (apply (ahead_start kc Hu); [done|]; intros t2 th2 i H2; rewrite <-(packs_bucket pk r Hpk), Hb0 in H2; done).
    pose proof (Ha j img ltac:(lia) Hjs (clash_r_key img Himg)) as Hin. unfold walk_from in Hin. rewrite Hu, Hnull in Hin. by rewrite (packs_bucket pk r Hpk).
  - intros [= <-] p. cbn. rewrite lookup_insert_eq. intros [= <-]. destruct Hp as [Hp|Hp]; [by apply moment_later|]. apply Hnow. rewrite app_nil_r. split_and!; [done|done|by eexists|done].
  - assert (Hres : ∀ p', (match p' with FiWalk rest' => rest' = rest ∧ (seen s0 sched t None ∨ to_see s r rest) | FiUnlock (Some (j, img)) => active s j = Some img ∧ same img r = true | _ => False end) →
      progress s0 (sched ++ [t]) (w_crew t (KFind pk p') s) t).
    { intros p' Hp' p. cbn. rewrite lookup_insert_eq. intros [= <-]. destruct p' as [|rest'|[[j img]|]|]; try done.
      - destruct Hp' as [-> [?|?]]; [left; by apply moment_later|by right].
      - apply Hnow. rewrite app_nil_r. split_and!; [done|done|by eexists|apply Hp'..]. }
    assert (Hnext : (∀ img, active s h = Some img → same img r = false) → seen s0 sched t None ∨ to_see s r rest).
    { intros Hh. destruct Hp as [?|Hp]; [by left|right]. intros j img Hj Himg. destruct (proj1 (elem_of_cons _ _ _) (Hp j img Hj Himg)) as [->|?]; [|done]. by rewrite (Hh img Hj) in Himg. }
    destruct (active s h) as [img|] eqn:Eh; [rewrite (packs_match pk r img Hpk); destruct (same img r) eqn:Es|]; intros [= <-]; apply Hres; try done.
    + split; [done|]. apply Hnext. intros img' [= <-]. done.
    + split; [done|]. by apply Hnext.
  - intros [= <-] p. cbn. rewrite lookup_insert_eq. intros [= <-]. by apply moment_later.
  - done.
Qed.

Lemma progress_run s0 sched : ∀ s t, kinv s0 → krun kc sched s0 = Some s → (∀ p, k_crew s0 !! t = Some (KFind pk p) → p = FiLock) → progress s0 sched s t.
Proof.
  induction sched as [|x sched IH] using rev_ind; intros s t I0 Hrun Hstart; [injection Hrun as <-; by intros p ->%Hstart|].
  apply krun_snoc in Hrun as (s1 & Hrun & Hs). specialize (IH s1 t I0 Hrun Hstart). pose proof (krun_ok kc Hu sched s0 s1 I0 Hrun) as I.
  destruct (decide (x = t)) as [->|Hne].
  - destruct (kstep_crew s1 t s Hs) as (th & th' & Ht & Ec & Hth). unfold kstep in Hs. rewrite Ht in Hs. cbn in Hs.
    destruct th as [rec p|i f p|i p|pk' p]; [..|destruct (decide (pk' = pk)) as [->|Hpk']; [by eapply find_own|]].
    all: intros q Hq; rewrite Ec, lookup_insert_eq in Hq; by injection Hq as ->.
  - intros p Hp. rewrite (crew_other x s1 s t Hs Hne) in Hp. specialize (IH p Hp). destruct p as [|rest|res|res]; [done| |by apply moment_later..].
    destruct IH as [?|Hsee]; [left; by apply moment_later|]. assert (W : walking s1 t pk) by by eexists.
    destruct (to_see_other s1 t x s rest I W Hne Hs Hsee) as [Hnone|?]; [left|by right]. apply moment_later. exists sched, [], s1. by rewrite app_nil_r.
Qed.

(** C15: a lookup of a unique key is atomic among inserts, updates, deletes and other lookups that
    interleave at every lock, chain operation, row read and row write, as long as nobody inserts or
    nobody changes a key: the row it returns was visible with that image and key at a moment while
    the lookup was at work, and if it returns no row, there was such a moment at which no visible row
    had the key. *)
Theorem lookup_atomic s0 sched s t res : kstart kc s0 → regime kc (k_crew s0) → krun kc sched s0 = Some s → k_crew s !! t = Some (KFind pk (FiReturn res)) →
  ∃ a b s1, sched = a ++ b ∧ krun kc a s0 = Some s1 ∧ walking s1 t pk ∧
    match res with
    | Some (h, img) => active s1 h = Some img ∧ same img r = true
    | None => ∀ j img, active s1 j = Some img → same img r = false
    end.
Proof.
  intros K G Hrun Ht. assert (P : seen s0 sched t res).
  { refine (progress_run s0 sched s t (kinv_start kc s0 K G) Hrun _ _ Ht). intros p Hp. pose proof (ks_crew _ _ K _ _ Hp) as Hf. by destruct p. }
  destruct P as (a & b & s1 & E & Ha & Hw & HP). exists a, b, s1. split_and!; [done..|]. destruct res as [[h img]|]; [done|]. intros j img Hj.
  destruct (same img r) eqn:Es; [|done]. specialize (HP j img Hj Es). by apply elem_of_nil in HP.
Qed.
End find.
