(* ===== verification/UniqueLive.v ===== *)
(** The threads of Unique never wait for each other in a circle: as long as one of them has not
    returned, one of them can go on. *)

From S2P Require Import Prelude CoreState RowOps Shape Inv Unique UniqueSafe.

Section live.
Context (kc : FM_KEY_CORE).

#[local] Abbreviation bucket := (rec_bucket kc).
#[local] Abbreviation holds_bucket := (holds_bucket kc).

(** A lock that is taken is held by a thread whose place says so; and a thread that waits for its
    second bucket waits for another one. *)
Record locks_owned (s : ksys) : Prop := {
  lo_block b t : k_block s !! b = Some t → ∃ th, k_crew s !! t = Some th ∧ holds_bucket th b;
  lo_rlock i t : k_rlock s !! i = Some t → ∃ th, k_crew s !! t = Some th ∧ holds_rowlock th i;
  lo_mutex t : k_mutex s = Some t → ∃ th, k_crew s !! t = Some th ∧ holds_mutex th;
  lo_two t i f old new : k_crew s !! t = Some (KUpd i f (UpLock2 old new)) → bucket old ≠ bucket new
}.

Definition two_buckets (th : kthread) : Prop := match th with KUpd _ _ (UpLock2 old new) => bucket old ≠ bucket new | _ => True end.

(** The step of thread [t] from [th] to [th'], which changes its own locks only. *)
Lemma locks_step s s0 t th th' : locks_owned s → k_crew s !! t = Some th → k_crew s0 = k_crew s → two_buckets th' →
  (∀ b t2, k_block s0 !! b = Some t2 → (t2 = t → holds_bucket th' b) ∧ (t2 ≠ t → k_block s !! b = Some t2)) →
  (∀ i t2, k_rlock s0 !! i = Some t2 → (t2 = t → holds_rowlock th' i) ∧ (t2 ≠ t → k_rlock s !! i = Some t2)) →
  (∀ t2, k_mutex s0 = Some t2 → (t2 = t → holds_mutex th') ∧ (t2 ≠ t → k_mutex s = Some t2)) → locks_owned (w_crew t th' s0).
Proof.
  intros O Ht Ew H2 Hb Hr Hm. constructor; cbn; rewrite Ew.
  - intros b t2 E. destruct (Hb b t2 E) as [H1 H3]. destruct (decide (t2 = t)) as [->|Hne]; [exists th'; rewrite lookup_insert_eq; auto|].
    rewrite lookup_insert_ne by done. by apply (lo_block _ O), H3.
  - intros b t2 E. destruct (Hr b t2 E) as [H1 H3]. destruct (decide (t2 = t)) as [->|Hne]; [exists th'; rewrite lookup_insert_eq; auto|].
    rewrite lookup_insert_ne by done. by apply (lo_rlock _ O), H3.
  - intros t2 E. destruct (Hm t2 E) as [H1 H3]. destruct (decide (t2 = t)) as [->|Hne]; [exists th'; rewrite lookup_insert_eq; auto|].
    rewrite lookup_insert_ne by done. by apply (lo_mutex _ O), H3.
  - intros t2 i f old new [[_ ->]|[_ E]]%lookup_insert_Some; [exact H2|by eapply (lo_two _ O)].
Qed.

(** The locks that thread [t] has are those of its place. *)
Lemma own_block s t th b : locks_owned s → k_crew s !! t = Some th → k_block s !! b = Some t → holds_bucket th b.
Proof. intros O Ht (th2 & H2 & H)%(lo_block _ O). rewrite Ht in H2. by injection H2 as ->. Qed.
Lemma own_rlock s t th i : locks_owned s → k_crew s !! t = Some th → k_rlock s !! i = Some t → holds_rowlock th i.
Proof. intros O Ht (th2 & H2 & H)%(lo_rlock _ O). rewrite Ht in H2. by injection H2 as ->. Qed.
Lemma own_mutex s t th : locks_owned s → k_crew s !! t = Some th → k_mutex s = Some t → holds_mutex th.
Proof. intros O Ht (th2 & H2 & H)%(lo_mutex _ O). rewrite Ht in H2. by injection H2 as ->. Qed.

(** The cases of a step: no lock changes; a lock is taken; a lock is released. *)
Lemma locks_quiet s s0 t th th' : locks_owned s → k_crew s !! t = Some th → k_crew s0 = k_crew s → two_buckets th' → k_block s0 = k_block s → k_rlock s0 = k_rlock s →
  k_mutex s0 = k_mutex s → (∀ b, holds_bucket th b → holds_bucket th' b) → (∀ i, holds_rowlock th i → holds_rowlock th' i) → (holds_mutex th → holds_mutex th') →
  locks_owned (w_crew t th' s0).
Proof.
  intros O Ht Ew H2 E1 E2 E3 Hb Hr Hm. eapply (locks_step s s0 t th th' O Ht Ew H2); rewrite ?E1, ?E2, ?E3.
  - intros b t2 E. split; [intros ->; by apply Hb, (own_block s t)|done].
  - intros i t2 E. split; [intros ->; by apply Hr, (own_rlock s t)|done].
  - intros t2 E. split; [intros ->; by apply Hm, (own_mutex s t)|done].
Qed.

Lemma locks_take_bucket s s0 t th th' b : locks_owned s → k_crew s !! t = Some th → lock_bucket t b s = Some s0 → two_buckets th' → holds_bucket th' b →
  (∀ b, holds_bucket th b → holds_bucket th' b) → (∀ i, holds_rowlock th i → holds_rowlock th' i) → (holds_mutex th → holds_mutex th') → locks_owned (w_crew t th' s0).
Proof.
  intros O Ht E H2 Hb Hbs Hr Hm. unfold lock_bucket in E. destruct (k_block s !! b); [done|]. injection E as <-. eapply (locks_step s _ t th th' O Ht); [done|done|..]; cbn.
  - intros b2 t2 [[<- <-]|[_ E]]%lookup_insert_Some; [done|]. split; [intros ->; by apply Hbs, (own_block s t)|done].
  - intros i t2 E. split; [intros ->; by apply Hr, (own_rlock s t)|done].
  - intros t2 E. split; [intros ->; by apply Hm, (own_mutex s t)|done].
Qed.

Lemma locks_drop_bucket s t th th' b : locks_owned s → k_crew s !! t = Some th → two_buckets th' → (∀ b2, b2 ≠ b → holds_bucket th b2 → holds_bucket th' b2) →
  (∀ i, holds_rowlock th i → holds_rowlock th' i) → (holds_mutex th → holds_mutex th') → locks_owned (w_crew t th' (release_bucket b s)).
Proof.
  intros O Ht H2 Hbs Hr Hm. eapply (locks_step s _ t th th' O Ht); [done|done|..]; cbn.
  - intros b2 t2 [Hne E]%lookup_delete_Some. split; [intros ->; by apply Hbs, (own_block s t)|done].
  - intros i t2 E. split; [intros ->; by apply Hr, (own_rlock s t)|done].
  - intros t2 E. split; [intros ->; by apply Hm, (own_mutex s t)|done].
Qed.

Lemma locks_take_row s s0 t th th' i : locks_owned s → k_crew s !! t = Some th → lock_row t i s = Some s0 → two_buckets th' → holds_rowlock th' i →
  (∀ b, holds_bucket th b → holds_bucket th' b) → (∀ i, holds_rowlock th i → holds_rowlock th' i) → (holds_mutex th → holds_mutex th') → locks_owned (w_crew t th' s0).
Proof.
  intros O Ht E H2 Hi Hbs Hr Hm. unfold lock_row in E. destruct (k_rlock s !! i); [done|]. injection E as <-. eapply (locks_step s _ t th th' O Ht); [done|done|..]; cbn.
  - intros b2 t2 E. split; [intros ->; by apply Hbs, (own_block s t)|done].
  - intros i2 t2 [[<- <-]|[_ E]]%lookup_insert_Some; [done|]. split; [intros ->; by apply Hr, (own_rlock s t)|done].
  - intros t2 E. split; [intros ->; by apply Hm, (own_mutex s t)|done].
Qed.

Lemma locks_drop_row s t th th' i : locks_owned s → k_crew s !! t = Some th → two_buckets th' → (∀ b, holds_bucket th b → holds_bucket th' b) →
  (∀ i2, i2 ≠ i → holds_rowlock th i2 → holds_rowlock th' i2) → (holds_mutex th → holds_mutex th') → locks_owned (w_crew t th' (release_row i s)).
Proof.
  intros O Ht H2 Hbs Hr Hm. eapply (locks_step s _ t th th' O Ht); [done|done|..]; cbn.
  - intros b2 t2 E. split; [intros ->; by apply Hbs, (own_block s t)|done].
  - intros i2 t2 [Hne E]%lookup_delete_Some. split; [intros ->; by apply Hr, (own_rlock s t)|done].
  - intros t2 E. split; [intros ->; by apply Hm, (own_mutex s t)|done].
Qed.

Lemma locks_take_mutex s s0 t th th' : locks_owned s → k_crew s !! t = Some th → lock_mutex t s = Some s0 → two_buckets th' → holds_mutex th' →
  (∀ b, holds_bucket th b → holds_bucket th' b) → (∀ i, holds_rowlock th i → holds_rowlock th' i) → locks_owned (w_crew t th' s0).
Proof.
  intros O Ht E H2 Hm Hbs Hr. unfold lock_mutex in E. destruct (k_mutex s); [done|]. injection E as <-. eapply (locks_step s _ t th th' O Ht); [done|done|..]; cbn.
  - intros b2 t2 E. split; [intros ->; by apply Hbs, (own_block s t)|done].
  - intros i t2 E. split; [intros ->; by apply Hr, (own_rlock s t)|done].
  - intros t2 [= <-]. done.
Qed.

Lemma locks_drop_mutex s t th th' : locks_owned s → k_crew s !! t = Some th → two_buckets th' → (∀ b, holds_bucket th b → holds_bucket th' b) →
  (∀ i, holds_rowlock th i → holds_rowlock th' i) → locks_owned (w_crew t th' (release_mutex s)).
Proof.
  intros O Ht H2 Hbs Hr. eapply (locks_step s _ t th th' O Ht); [done|done|..]; cbn.
  - intros b2 t2 E. split; [intros ->; by apply Hbs, (own_block s t)|done].
  - intros i t2 E. split; [intros ->; by apply Hr, (own_rlock s t)|done].
  - done.
Qed.

(** [step_locks]: the step of a thread, by the case that fits. *)
Ltac step_locks O Ht :=
  first
    [ by eapply (locks_quiet _ _ _ _ _ O Ht)
    | by eapply (locks_take_bucket _ _ _ _ _ _ O Ht)
    | by eapply (locks_drop_bucket _ _ _ _ _ O Ht)
    | by eapply (locks_take_row _ _ _ _ _ _ O Ht)
    | by eapply (locks_drop_row _ _ _ _ _ O Ht)
    | by eapply (locks_take_mutex _ _ _ _ _ O Ht)
    | by eapply (locks_drop_mutex _ _ _ _ O Ht) ].

Lemma ins_locks s t rec p s' : locks_owned s → k_crew s !! t = Some (KIns rec p) → ins_step kc t rec p s = Some s' → locks_owned s'.
Proof.
  intros O Ht. destruct p as [| |idx|idx|idx [|h rest]|idx|idx|idx|idx|idx|rc|rc]; cbn; try (intros [= <-]; step_locks O Ht).
  - destruct (lock_mutex t s) as [s0|] eqn:E; [|done]. cbn. intros [= <-]. step_locks O Ht.
  - destruct (k_free s); intros [= <-]; step_locks O Ht.
  - destruct (lock_bucket t (bucket rec) s) as [s0|] eqn:E; [|done]. cbn. intros [= <-]. step_locks O Ht.
  - destruct (is_dup kc s h rec); intros [= <-]; step_locks O Ht.
Qed.

Lemma upd_locks s t i f p s' : locks_owned s → k_crew s !! t = Some (KUpd i f p) → upd_step kc t i f p s = Some s' → locks_owned s'.
Proof.
  intros O Ht. destruct p as [| |old new|old new|old new|old new|old new [|h rest]|old new|old new|old new|old new rc|old new rc|rc|rc]; cbn -[active];
    try (intros [= <-]; step_locks O Ht).
  - destruct (lock_row t i s) as [s0|] eqn:E; [|done]. cbn. intros [= <-]. step_locks O Ht.
  - destruct (active s i); intros [= <-]; step_locks O Ht.
  - case_decide; intros [= <-]; [destruct (key_same kc old new)|]; step_locks O Ht.
  - destruct (lock_bucket t (low kc old new) s) as [s0|] eqn:E; [|done]. cbn. intros [= <-]. case_decide as Eb; [|step_locks O Ht].
    eapply (locks_take_bucket _ _ _ _ _ _ O Ht E); try done. by left.
  - destruct (lock_bucket t (high kc old new) s) as [s0|] eqn:E; [|done]. cbn. intros [= <-].
    eapply (locks_take_bucket _ _ _ _ _ _ O Ht E); try done; [by right|]. intros b ->. by left.
  - destruct (is_dup kc s h new); intros [= <-]; step_locks O Ht.
  - intros [= <-]. unfold low, high. case_decide as Eb.
    + eapply (locks_quiet _ _ _ _ _ O Ht); try done. cbn. unfold low, high. rewrite Eb. lia.
    + eapply (locks_drop_bucket _ _ _ _ _ O Ht); try done. cbn. unfold low, high. intros b2 Hne [->| ->]; [done|by destruct Hne].
Qed.

Lemma del_locks s t i p s' : locks_owned s → k_crew s !! t = Some (KDel i p) → del_step kc t i p s = Some s' → locks_owned s'.
Proof.
  intros O Ht. destruct p as [| | | |r|r|r| | | | |rc|rc]; cbn; try (intros [= <-]; step_locks O Ht).
  - destruct (lock_row t i s) as [s0|] eqn:E; [|done]. cbn. intros [= <-]. step_locks O Ht.
  - case_decide; intros [= <-]; step_locks O Ht.
  - destruct (lock_bucket t (bucket r) s) as [s0|] eqn:E; [|done]. cbn. intros [= <-]. step_locks O Ht.
  - destruct (lock_mutex t s) as [s0|] eqn:E; [|done]. cbn. intros [= <-]. step_locks O Ht.
Qed.

Lemma lookup_locks s t pk p s' : locks_owned s → k_crew s !! t = Some (KFind pk p) → find_step kc t pk p s = Some s' → locks_owned s'.
Proof.
  intros O Ht. destruct p as [|[|h rest]|res|res]; cbn -[active]; try (intros [= <-]; step_locks O Ht).
  - destruct (lock_bucket t (pk_bucket kc pk) s) as [s0|] eqn:E; [|done]. cbn. intros [= <-]. step_locks O Ht.
  - destruct (active s h) as [img|]; [destruct (key_match kc img pk)|]; intros [= <-]; step_locks O Ht.
Qed.

Lemma krun_locks sched : ∀ s s', locks_owned s → krun kc sched s = Some s' → locks_owned s'.
Proof.
  induction sched as [|t sched IH]; intros s s' O; cbn; [by intros [= <-]|]. destruct (kstep kc t s) as [s1|] eqn:E; [|done]. cbn. apply IH.
  unfold kstep in E. destruct (k_crew s !! t) as [th|] eqn:Ht; [|done]. cbn in E.
  destruct th; [by eapply ins_locks|by eapply upd_locks|by eapply del_locks|by eapply lookup_locks].
Qed.

(** * Somebody can go on *)

Definition has_returned (th : kthread) : Prop :=
  match th with KIns _ (InReturn _) | KUpd _ _ (UpReturn _) | KDel _ (DeReturn _) | KFind _ (FiReturn _) => True | _ => False end.
Definition can_step (s : ksys) (t : nat) : Prop := is_Some (kstep kc t s).

(** The bucket that a thread is about to lock. *)
Definition wants_bucket (th : kthread) : option Z :=
  match th with
  | KIns rec (InLock _) => Some (bucket rec)
  | KUpd _ _ (UpLock1 old new) => Some (low kc old new)
  | KUpd _ _ (UpLock2 old new) => Some (high kc old new)
  | KDel _ (DeBucket r) => Some (bucket r)
  | KFind pk FiLock => Some (pk_bucket kc pk)
  | _ => None
  end.
Definition wants_mutex (th : kthread) : bool := match th with KIns _ InMutex | KDel _ DeMutex => true | _ => false end.
Definition wants_row (th : kthread) : option Z := match th with KUpd i _ UpLock | KDel i DeLock => Some i | _ => None end.

(** A thread that has not returned can go on if the lock that it wants is free. *)
Lemma can_step_free s t th : k_crew s !! t = Some th → ¬ has_returned th → (∀ b, wants_bucket th = Some b → k_block s !! b = None) →
  (wants_mutex th = true → k_mutex s = None) → (∀ i, wants_row th = Some i → k_rlock s !! i = None) → can_step s t.
Proof.
  intros Ht Hr Hb Hm Hi. unfold can_step, kstep. rewrite Ht. cbn.
  destruct th as [rec p|i f p|i p|pk p]; [destruct p as [| | | |? []| | | | | | |]|destruct p as [| | | | | |? ? []| | | | | | |]|destruct p|destruct p as [|[]| |]]; cbn -[active] in *;
    unfold lock_bucket, lock_row, lock_mutex; try (by destruct (Hr Logic.I)); rewrite ?Hb, ?Hm, ?Hi by done; cbn -[active]; try (by eexists); repeat case_match; by eexists.
Qed.

(** A map that is not empty has a highest key. *)
Lemma highest_key {A} (m : gmap Z A) : m ≠ ∅ → ∃ b x, m !! b = Some x ∧ ∀ b2, is_Some (m !! b2) → b2 ≤ b.
Proof.
  induction m as [|b x m Hb IH] using map_ind; [done|]. intros _. destruct (decide (m = ∅)) as [->|Hne].
  - exists b, x. rewrite lookup_insert_eq. split; [done|]. intros b2 [y [[<- _]|[_ ?]]%lookup_insert_Some]; [lia|by rewrite lookup_empty in *].
  - destruct (IH Hne) as (c & y & Hc & Hmax). destruct (decide (b ≤ c)) as [Hle|Hgt].
    + exists c, y. rewrite lookup_insert_ne by (intros ->; congruence). split; [done|]. intros b2 [z [[<- _]|[_ ?]]%lookup_insert_Some]; [done|apply Hmax; by eexists].
    + exists b, x. rewrite lookup_insert_eq. split; [done|]. intros b2 [z [[<- _]|[_ ?]]%lookup_insert_Some]; [done|]. specialize (Hmax b2 ltac:(by eexists)). lia.
Qed.

(** The buckets: the holder of the highest one does not wait for a bucket. *)
Lemma bucket_progress s : locks_owned s → k_block s ≠ ∅ → ∃ t, can_step s t.
Proof.
  intros O Hne. destruct (highest_key _ Hne) as (b & t & Hbt & Hmax).
  destruct (lo_block _ O b t Hbt) as (th & Ht & Hh). exists t. apply (can_step_free s t th Ht).
  - intros Hx. by destruct th as [? []|? ? []|? []|? []].
  - intros b2 Hw. destruct (k_block s !! b2) eqn:E2; [|done]. exfalso. specialize (Hmax b2 ltac:(by eexists)).
    destruct th as [? []|? ? []|? []|? []]; try done. cbn in Hh, Hw. injection Hw as <-. pose proof (lo_two _ O _ _ _ _ _ Ht). unfold low, high in *. lia.
  - by destruct th as [? []|? ? []|? []|? []].
  - by destruct th as [? []|? ? []|? []|? []].
Qed.

Lemma somebody_steps s t th : locks_owned s → k_crew s !! t = Some th → ¬ has_returned th → ∃ t', can_step s t'.
Proof.
  intros O Ht Hr. destruct (decide (k_block s = ∅)) as [Eb|Hb]; [|by apply bucket_progress].
  assert (Hbf : ∀ (th : kthread) b, wants_bucket th = Some b → k_block s !! b = None) by (intros th1 b _; by rewrite Eb, lookup_empty).
  destruct (k_mutex s) as [t2|] eqn:Em.
  { destruct (lo_mutex _ O t2 Em) as (th2 & H2 & Hm). exists t2. apply (can_step_free s t2 th2 H2); [intros Hx|apply Hbf|..]; by destruct th2 as [? []|? ? []|? []|? []]. }
  destruct (decide (k_rlock s = ∅)) as [Er|(i & t2 & Hi)%map_choose].
  - exists t. apply (can_step_free s t th Ht Hr); [apply Hbf|done|]. intros i _. by rewrite Er, lookup_empty.
  - destruct (lo_rlock _ O i t2 Hi) as (th2 & H2 & Hm). exists t2. apply (can_step_free s t2 th2 H2); [intros Hx|apply Hbf|done|]; by destruct th2 as [? []|? ? []|? []|? []].
Qed.

Lemma locks_owned_start s : kstart kc s → locks_owned s.
Proof.
  intros K. destruct (ks_locks _ _ K) as (Er & Eb & Em). constructor; rewrite ?Er, ?Eb, ?Em; try (intros ? ?; by rewrite lookup_empty); [done|].
  intros t i f old new Ht. by apply (ks_crew _ _ K) in Ht.
Qed.

(** C16: threads that insert, update, delete and look up rows of a table with one key, interleaved in
    any order, never get stuck: as long as one of them has not returned, one of them can make its next
    step. *)
Theorem unique_no_deadlock s sched s' t th : kstart kc s → krun kc sched s = Some s' → k_crew s' !! t = Some th → ¬ has_returned th →
  ∃ t' s'', kstep kc t' s' = Some s''.
Proof.
  intros K Hrun Ht Hr. destruct (somebody_steps s' t th (krun_locks sched s s' (locks_owned_start s K) Hrun) Ht Hr) as (t' & s'' & E). by exists t', s''.
Qed.
End live.
