(* ===== verification/Hash.v ===== *)
(** Key hashing, comparison and packing (src/fm_hash.cc) over key segments, with the server's
    character sets and hash primitives as parameters; under what those document, the callbacks
    keep the promise that the core relies on ([KeyOpsLaws]). *)

From S2P Require Import Prelude CoreState CoreOps RowOps Shape Inv Lifecycle.

(** * Data *)

Record my_hasher_st := mkHasher { m_nr1 : Z; m_nr2 : Z }.

(** A character set, as the engine uses it: the byte position of the [num]-th character of a
    string, the sort-key hash and the comparison with space padding. *)
Record CHARSET_INFO := mkCharset {
  mbmaxlen : Z;
  my_ci_charpos : bytes → Z → Z;
  my_ci_hash_sort : my_hasher_st → bytes → my_hasher_st;
  my_ci_strnncollsp : bytes → bytes → Z
}.

Inductive keytype := HA_KEYTYPE_TEXT | HA_KEYTYPE_VARTEXT1 | HA_KEYTYPE_BIT | HA_KEYTYPE_OTHER (code : Z).

#[export] Instance keytype_eq_dec : EqDecision keytype.
Proof. solve_decision. Defined.

Record HA_KEYSEG := mkSeg {
  seg_type : keytype;
  charset : CHARSET_INFO;
  start : Z;
  seg_length : Z;
  null_bit : Z;
  null_pos : Z;
  bit_start : Z;
  bit_length : Z;
  bit_pos : Z
}.

(** Of [flag], the two bits the engine looks at. *)
Record FM_KEYDEF := mkKeydef {
  seg : list HA_KEYSEG;
  flag_nosame : bool;
  flag_null_part : bool;
  kd_length : Z
}.

(** * Reading bytes *)

Definition byte_at (b : bytes) (i : Z) : Z := from_option id 0 (b !! Z.to_nat i).
(** The bytes from [i] on, and [n] of them; bytes past the buffer read as 0.  The C code would read
    foreign memory there: Buffers.v has the bytes that every routine of this file touches, and
    calls that touch one outside its buffer are undefined. *)
Definition from (i : Z) (b : bytes) : bytes := drop (Z.to_nat i) b.
Definition span (i n : Z) (b : bytes) : bytes := (λ j, byte_at b (i + j)) <$> seqZ 0 n.

Definition is_var (sg : HA_KEYSEG) : bool := bool_decide (seg_type sg = HA_KEYTYPE_VARTEXT1).

(** The record has NULL in this segment. *)
Definition seg_null (sg : HA_KEYSEG) (rec : bytes) : bool :=
  bool_decide (null_bit sg ≠ 0 ∧ Z.land (byte_at rec (null_pos sg)) (null_bit sg) ≠ 0).

Section server.
(** The server's hash primitives and byte macros. *)
Context (my_hasher_mysql5x : my_hasher_st).
Context (MY_HASH_ADD_MARIADB : my_hasher_st → Z → my_hasher_st).
Context (get_rec_bits : bytes → Z → Z → Z).
Context (uint2korr : bytes → Z).

(** [hasher.m_nr1 ^= (hasher.m_nr1 << 1) | 1] *)
Definition hash_null (h : my_hasher_st) : my_hasher_st :=
  mkHasher (Z.lxor (m_nr1 h) (Z.lor (u64 (Z.shiftl (m_nr1 h) 1)) 1)) (m_nr2 h).

Definition hash_bytes (h : my_hasher_st) (b : bytes) : my_hasher_st := fold_left MY_HASH_ADD_MARIADB b h.

(** [fm_charpos] *)
Definition fm_charpos (cs : CHARSET_INFO) (b : bytes) (num : Z) : Z := my_ci_charpos cs b num.

(** * Hashing a packed key *)

(** One segment that is not NULL, [pos] being its first byte and [key] the next segment's. *)
Definition hash_key_body (sg : HA_KEYSEG) (pos key : bytes) (h : my_hasher_st) : my_hasher_st * bytes :=
  let cs := charset sg in
  match seg_type sg with
  | HA_KEYTYPE_TEXT =>
      let length := seg_length sg in
      let length := if decide (1 < mbmaxlen cs)
        then Z.min length (fm_charpos cs (span 0 length pos) (length / mbmaxlen cs)) else length in
      (my_ci_hash_sort cs h (span 0 length pos), key)
  | HA_KEYTYPE_VARTEXT1 =>
      let length := uint2korr pos in
      let length := if decide (1 < mbmaxlen cs)
        then Z.min length (fm_charpos cs (span 2 length pos) (seg_length sg / mbmaxlen cs)) else length in
      (my_ci_hash_sort cs h (span 2 length pos), from 2 key)
  | _ => (hash_bytes h (span 0 (seg_length sg) pos), key)
  end.

Definition hash_key_seg (sg : HA_KEYSEG) (key : bytes) (h : my_hasher_st) : my_hasher_st * bytes :=
  let pos := key in
  let key := from (seg_length sg) key in
  if decide (null_bit sg ≠ 0) then
    let key := from 1 key in
    if decide (byte_at pos 0 ≠ 0) then (hash_null h, if is_var sg then from 2 key else key)
    else hash_key_body sg (from 1 pos) key h
  else hash_key_body sg pos key h.

Fixpoint hashnr_loop (segs : list HA_KEYSEG) (key : bytes) (h : my_hasher_st) : my_hasher_st :=
  match segs with
  | [] => h
  | sg :: segs' => let '(h', key') := hash_key_seg sg key h in hashnr_loop segs' key' h'
  end.

Definition fm_hashnr (kd : FM_KEYDEF) (key : bytes) : Z := m_nr1 (hashnr_loop (seg kd) key my_hasher_mysql5x).

(** * Hashing the key of a record *)

Definition var_length (sg : HA_KEYSEG) (pos : bytes) : Z :=
  if decide (bit_start sg = 1) then byte_at pos 0 else uint2korr pos.

Definition hash_rec_seg (sg : HA_KEYSEG) (rec : bytes) (h : my_hasher_st) : my_hasher_st :=
  let pos := from (start sg) rec in
  let cs := charset sg in
  if seg_null sg rec then hash_null h else
  match seg_type sg with
  | HA_KEYTYPE_TEXT =>
      let char_length := seg_length sg in
      let char_length := if decide (1 < mbmaxlen cs)
        then Z.min (fm_charpos cs (span 0 char_length pos) (char_length / mbmaxlen cs)) (seg_length sg)
        else char_length in
      my_ci_hash_sort cs h (span 0 char_length pos)
  | HA_KEYTYPE_VARTEXT1 =>
      let pack_length := bit_start sg in
      let length := var_length sg pos in
      let length := if decide (1 < mbmaxlen cs)
        then Z.min length (fm_charpos cs (span pack_length length pos) (seg_length sg / mbmaxlen cs))
        else Z.min length (seg_length sg) in
      my_ci_hash_sort cs h (span pack_length length pos)
  | _ =>
      if decide (seg_type sg = HA_KEYTYPE_BIT ∧ bit_length sg ≠ 0) then
        let bits := get_rec_bits (from (bit_pos sg) rec) (bit_start sg) (bit_length sg) in
        hash_bytes (MY_HASH_ADD_MARIADB h bits) (span 0 (seg_length sg - 1) pos)
      else hash_bytes h (span 0 (seg_length sg) pos)
  end.

Definition fm_rec_hashnr (kd : FM_KEYDEF) (rec : bytes) : Z :=
  m_nr1 (fold_left (λ h sg, hash_rec_seg sg rec h) (seg kd) my_hasher_mysql5x).

(** * Comparing the keys of two records *)

(** The bytes of a TEXT segment that take part in comparisons. *)
Definition text_part (sg : HA_KEYSEG) (pos : bytes) : bytes :=
  let cs := charset sg in
  let char_length := if decide (1 < mbmaxlen cs)
    then Z.min (fm_charpos cs (span 0 (seg_length sg) pos) (seg_length sg / mbmaxlen cs)) (seg_length sg)
    else seg_length sg in
  span 0 char_length pos.

(** The bytes of a VARCHAR segment of a record that take part in comparisons. *)
Definition var_part (sg : HA_KEYSEG) (pos : bytes) : bytes :=
  let cs := charset sg in
  let char_length := var_length sg pos in
  let pack_length := if decide (bit_start sg = 1) then 1 else 2 in
  let pos := from pack_length pos in
  let char_length := if decide (1 < mbmaxlen cs)
    then Z.min (fm_charpos cs (span 0 char_length pos) (seg_length sg / mbmaxlen cs)) char_length
    else Z.min char_length (seg_length sg) in
  span 0 char_length pos.

(** [true] when the segment differs ([return 1]). *)
Definition rec_seg_differs (sg : HA_KEYSEG) (rec1 rec2 : bytes) : bool :=
  let pos1 := from (start sg) rec1 in
  let pos2 := from (start sg) rec2 in
  match seg_type sg with
  | HA_KEYTYPE_TEXT => bool_decide (my_ci_strnncollsp (charset sg) (text_part sg pos1) (text_part sg pos2) ≠ 0)
  | HA_KEYTYPE_VARTEXT1 => bool_decide (my_ci_strnncollsp (charset sg) (var_part sg pos1) (var_part sg pos2) ≠ 0)
  | _ =>
      if decide (seg_type sg = HA_KEYTYPE_BIT ∧ bit_length sg ≠ 0) then
        let bits1 := get_rec_bits (from (bit_pos sg) rec1) (bit_start sg) (bit_length sg) in
        let bits2 := get_rec_bits (from (bit_pos sg) rec2) (bit_start sg) (bit_length sg) in
        bool_decide (bits1 ≠ bits2) ||
        bool_decide (span 0 (seg_length sg - 1) pos1 ≠ span 0 (seg_length sg - 1) pos2)
      else bool_decide (span 0 (seg_length sg) pos1 ≠ span 0 (seg_length sg) pos2)
  end.

Fixpoint rec_key_cmp_loop (segs : list HA_KEYSEG) (rec1 rec2 : bytes) : Z :=
  match segs with
  | [] => 0
  | sg :: segs' =>
      if bool_decide (null_bit sg ≠ 0) && bool_decide (Z.land (byte_at rec1 (null_pos sg)) (null_bit sg) ≠
                                                       Z.land (byte_at rec2 (null_pos sg)) (null_bit sg)) then 1
      else if seg_null sg rec1 then rec_key_cmp_loop segs' rec1 rec2
      else if rec_seg_differs sg rec1 rec2 then 1 else rec_key_cmp_loop segs' rec1 rec2
  end.

Definition fm_rec_key_cmp (kd : FM_KEYDEF) (rec1 rec2 : bytes) : Z := rec_key_cmp_loop (seg kd) rec1 rec2.

(** * Comparing a record to a packed key *)

(** One segment that is not NULL; [None] when it differs, otherwise the position in the key
    that the increment of the loop, [key += seg->length], starts from. *)
Definition key_seg_cmp (sg : HA_KEYSEG) (rec key : bytes) : option bytes :=
  let cs := charset sg in
  let pos := from (start sg) rec in
  match seg_type sg with
  | HA_KEYTYPE_TEXT =>
      if decide (my_ci_strnncollsp cs (text_part sg pos) (text_part sg key) ≠ 0) then None else Some key
  | HA_KEYTYPE_VARTEXT1 =>
      let char_length_rec := var_length sg pos in
      let char_length_key := uint2korr key in
      let pos := from (bit_start sg) pos in
      let key := from 2 key in
      let '(char_length_key, char_length_rec) :=
        if decide (1 < mbmaxlen cs) then
          (Z.min char_length_key (fm_charpos cs (span 0 char_length_key key) (seg_length sg / mbmaxlen cs)),
           Z.min char_length_rec (fm_charpos cs (span 0 char_length_rec pos) (seg_length sg / mbmaxlen cs)))
        else (char_length_key, Z.min char_length_rec (seg_length sg)) in
      if decide (my_ci_strnncollsp cs (span 0 char_length_rec pos) (span 0 char_length_key key) ≠ 0)
      then None else Some key
  | _ =>
      if decide (seg_type sg = HA_KEYTYPE_BIT ∧ bit_length sg ≠ 0) then
        let bits := get_rec_bits (from (bit_pos sg) rec) (bit_start sg) (bit_length sg) in
        if decide (bits ≠ byte_at key 0) then None else
        let key := from 1 key in
        if decide (span 0 (seg_length sg - 1) pos ≠ span 0 (seg_length sg - 1) key) then None else Some key
      else if decide (span 0 (seg_length sg) pos ≠ span 0 (seg_length sg) key) then None else Some key
  end.

Fixpoint key_cmp_loop (segs : list HA_KEYSEG) (rec key : bytes) : Z :=
  match segs with
  | [] => 0
  | sg :: segs' =>
      let next key := key_cmp_loop segs' rec (from (seg_length sg) key) in
      if decide (null_bit sg ≠ 0) then
        let found_null := if seg_null sg rec then 1 else 0 in
        if decide (found_null ≠ byte_at key 0) then 1 else
        let key := from 1 key in
        if decide (found_null ≠ 0) then next (if is_var sg then from 2 key else key)
        else match key_seg_cmp sg rec key with None => 1 | Some key => next key end
      else match key_seg_cmp sg rec key with None => 1 | Some key => next key end
  end.

Definition fm_key_cmp (kd : FM_KEYDEF) (rec key : bytes) : Z := key_cmp_loop (seg kd) rec key.

Definition fm_if_null_in_key (kd : FM_KEYDEF) (rec : bytes) : Z :=
  if existsb (λ sg, seg_null sg rec) (seg kd) then 1 else 0.

(** * Packing *)

(** [fm_make_key]: the bytes written for the key of a record. *)
Definition make_key_seg (sg : HA_KEYSEG) (rec : bytes) : bytes :=
  let cs := charset sg in
  let pos := from (start sg) rec in
  let null_part := if decide (null_bit sg ≠ 0) then [if seg_null sg rec then 1 else 0] else [] in
  let char_length := seg_length sg in
  let char_length := if decide (1 < mbmaxlen cs)
    then Z.min (fm_charpos cs (span 0 (seg_length sg) pos) (char_length / mbmaxlen cs)) (seg_length sg)
    else char_length in
  match seg_type sg with
  | HA_KEYTYPE_VARTEXT1 => null_part ++ span 0 (char_length + bit_start sg) pos
  | _ =>
      if decide (seg_type sg = HA_KEYTYPE_BIT ∧ bit_length sg ≠ 0) then
        null_part ++ [get_rec_bits (from (bit_pos sg) rec) (bit_start sg) (bit_length sg)] ++
        span 0 (char_length - 1) pos
      else null_part ++ span 0 char_length pos
  end.

Definition fm_make_key (kd : FM_KEYDEF) (rec : bytes) : bytes := flat_map (λ sg, make_key_seg sg rec) (seg kd).

(** * The callbacks *)

Definition fm_ops (kd : FM_KEYDEF) : FM_KEY_OPS :=
  {| hash_rec := Some (λ rec, u32 (fm_rec_hashnr kd rec));
     hash_key := Some (λ key, u32 (fm_hashnr kd key));
     cmp_rec_rec := Some (fm_rec_key_cmp kd);
     cmp_rec_key := Some (fm_key_cmp kd);
     has_null_part := Some (fm_if_null_in_key kd) |}.

(** What [fm_key_ops_init] stores in key [k] of the core. *)
Definition key_ops_of (kds : list FM_KEYDEF) (k : Z) : FM_KEY_OPS * bool :=
  match kds !! Z.to_nat k with
  | Some kd => (fm_ops kd, flag_nosame kd)
  | None => (FM_KEY_OPS_zero, false)
  end.

(** * What the callbacks promise the core *)

(** The documented behaviour of a collation: comparison is an equivalence on strings, and
    strings that compare equal have the same sort-key hash. *)
Class CollationLaws (cs : CHARSET_INFO) : Prop := {
  coll_equiv :: Equivalence (λ a b, my_ci_strnncollsp cs a b = 0);
  coll_hash h a b : my_ci_strnncollsp cs a b = 0 → my_ci_hash_sort cs h a = my_ci_hash_sort cs h b
}.

(** A segment as [fm_prepare_create_info] builds it. *)
Record seg_ok (sg : HA_KEYSEG) : Prop := {
  sg_coll : CollationLaws (charset sg);
  sg_start : 0 ≤ start sg;
  sg_len : 1 ≤ seg_length sg;
  sg_var : seg_type sg = HA_KEYTYPE_VARTEXT1 → bit_start sg = 1 ∨ bit_start sg = 2
}.

Definition has_bits (sg : HA_KEYSEG) : Prop := seg_type sg = HA_KEYTYPE_BIT ∧ bit_length sg ≠ 0.

(** A segment with odd bits may only come last: the comparison with a packed key steps one
    byte too far behind it. *)
Fixpoint bits_last (segs : list HA_KEYSEG) : Prop :=
  match segs with
  | [] | [_] => True
  | sg :: segs' => ¬ has_bits sg ∧ bits_last segs'
  end.

Record keydef_ok (kd : FM_KEYDEF) : Prop := {
  ko_segs : Forall seg_ok (seg kd);
  ko_bits : bits_last (seg kd)
}.

Lemma byte_at_from i j b : 0 ≤ i → 0 ≤ j → byte_at (from i b) j = byte_at b (i + j).
Proof.
  intros. unfold byte_at, from. rewrite lookup_drop. do 2 f_equal. lia.
Qed.

Lemma span_from i n b : 0 ≤ i → span 0 n (from i b) = span i n b.
Proof.
  intros Hi. unfold span. apply list_fmap_ext. intros k j Hj. apply lookup_seqZ in Hj as [-> _].
  by rewrite byte_at_from by lia.
Qed.

Lemma span_cons n b : 1 ≤ n → span 0 n b = byte_at b 0 :: span 0 (n - 1) (from 1 b).
Proof.
  intros Hn. rewrite span_from by lia. unfold span. rewrite seqZ_cons by lia. simpl. f_equal.
  replace (Z.pred n) with (n - 1) by lia. change (Z.succ 0) with (1 + 0). rewrite <-(fmap_add_seqZ 1 0), <-list_fmap_compose.
  apply list_fmap_ext. intros k j Hj. simpl. f_equal.
Qed.

(** ** Agreement of two records on a segment *)

Definition seg_agree (sg : HA_KEYSEG) (a b : bytes) : Prop :=
  (null_bit sg ≠ 0 → Z.land (byte_at a (null_pos sg)) (null_bit sg) = Z.land (byte_at b (null_pos sg)) (null_bit sg)) ∧
  (seg_null sg a = false → rec_seg_differs sg a b = false).

Lemma rec_key_cmp_agree segs a b : rec_key_cmp_loop segs a b = 0 ↔ Forall (λ sg, seg_agree sg a b) segs.
Proof.
  induction segs as [|sg segs IH]; simpl; [done|]. rewrite Forall_cons, <-IH. unfold seg_agree.
  destruct (bool_decide (null_bit sg ≠ 0)) eqn:H1; [apply bool_decide_eq_true in H1|apply bool_decide_eq_false in H1]; simpl.
  - case_bool_decide as H2; [split; [lia|tauto]|].
    destruct (seg_null sg a); [naive_solver|]. destruct (rec_seg_differs sg a b); naive_solver.
  - destruct (seg_null sg a) eqn:Hn; [naive_solver|]. destruct (rec_seg_differs sg a b); naive_solver.
Qed.

Lemma seg_agree_null sg a b : seg_agree sg a b → seg_null sg a = seg_null sg b.
Proof. intros [H _]. unfold seg_null. apply bool_decide_ext. split; intros [H1 H2]; (split; [done|]); rewrite ?H in *; try done; by rewrite <-H. Qed.

(** The value of a segment that comparisons and hashes look at. *)
Definition seg_same (sg : HA_KEYSEG) (a b : bytes) : Prop := rec_seg_differs sg a b = false.

Lemma seg_same_equiv sg : CollationLaws (charset sg) → Equivalence (seg_same sg).
Proof.
  intros Hc. unfold seg_same, rec_seg_differs.
  destruct (coll_equiv (cs := charset sg)) as [Hr Hs Ht].
  split; [intros a|intros a b|intros a b c]; destruct (seg_type sg); try case_decide;
    rewrite ?orb_false_iff, ?bool_decide_eq_false; intros; destruct_and?;
    repeat match goal with H : ¬ (_ ≠ _) |- _ => apply dec_stable in H end; try split; intros Hne; apply Hne;
    first [apply Hr|by apply Hs|by eapply Ht|congruence].
Qed.

Lemma seg_agree_equiv sg : CollationLaws (charset sg) → Equivalence (seg_agree sg).
Proof.
  intros Hc. destruct (seg_same_equiv sg Hc) as [Hr Hs Ht]. split.
  - intros a. split; [done|]. intros _. apply Hr.
  - intros a b H. pose proof (seg_agree_null _ _ _ H) as Hn. destruct H as [H1 H2].
    split; [intros; symmetry; by apply H1|]. rewrite <-Hn. intros Hf. by apply Hs, H2.
  - intros a b c Hab Hbc. pose proof (seg_agree_null _ _ _ Hab) as Hn. destruct Hab as [H1 H2], Hbc as [H3 H4].
    split; [intros; etrans; [by apply H1|by apply H3]|]. intros Hf. rewrite Hn in Hf. eapply Ht; [apply H2; congruence|by apply H4].
Qed.

Lemma hash_rec_seg_var sg rec h : seg_ok sg → seg_type sg = HA_KEYTYPE_VARTEXT1 → seg_null sg rec = false →
  hash_rec_seg sg rec h = my_ci_hash_sort (charset sg) h (var_part sg (from (start sg) rec)).
Proof.
  intros Hok Hty Hn. unfold hash_rec_seg, var_part. rewrite Hn, Hty. cbv zeta.
  assert (Hb : bit_start sg = if decide (bit_start sg = 1) then 1 else 2).
  { case_decide; [done|]. by destruct (sg_var _ Hok Hty). }
  rewrite <-Hb. rewrite !span_from by (destruct (sg_var _ Hok Hty); lia). f_equal. f_equal.
  destruct (decide (1 < mbmaxlen (charset sg))); [apply Z.min_comm|done].
Qed.

(** Records that agree on a segment have the same hash contribution. *)
Lemma hash_rec_seg_agree sg a b h : seg_ok sg → seg_agree sg a b → hash_rec_seg sg a h = hash_rec_seg sg b h.
Proof.
  intros Hok Hag. pose proof (seg_agree_null _ _ _ Hag) as Hn. pose proof (sg_coll _ Hok) as Hc.
  destruct (seg_null sg a) eqn:Ha; [unfold hash_rec_seg; by rewrite <-Hn, Ha|].
  destruct Hag as [_ Hs]. specialize (Hs Ha). unfold rec_seg_differs in Hs.
  destruct (seg_type sg) eqn:Hty.
  2: { rewrite !hash_rec_seg_var by done. apply coll_hash. by apply bool_decide_eq_false, dec_stable in Hs. }
  - unfold hash_rec_seg. rewrite <-Hn, Ha, Hty. apply coll_hash. by apply bool_decide_eq_false, dec_stable in Hs.
  - unfold hash_rec_seg. rewrite <-Hn, Ha, Hty. case_decide.
    + apply orb_false_iff in Hs as [H1%bool_decide_eq_false%dec_stable H2%bool_decide_eq_false%dec_stable].
      by rewrite H1, H2.
    + apply bool_decide_eq_false, dec_stable in Hs. by rewrite Hs.
  - unfold hash_rec_seg. rewrite <-Hn, Ha, Hty. case_decide; [naive_solver|].
    apply bool_decide_eq_false, dec_stable in Hs. by rewrite Hs.
Qed.

(** ** Agreement of a record and a packed key *)

(** A segment that matches contributes the same to both hashes, and both walks of the key
    arrive at the same place, but for a segment with odd bits. *)
Lemma key_seg_cmp_hash sg rec key key' h : seg_ok sg → seg_null sg rec = false →
  key_seg_cmp sg rec key = Some key' →
  (hash_key_body sg key (from (seg_length sg) key) h).1 = hash_rec_seg sg rec h ∧
  (¬ has_bits sg → (hash_key_body sg key (from (seg_length sg) key) h).2 = from (seg_length sg) key').
Proof.
  intros Hok Hn. pose proof (sg_coll _ Hok) as Hc. destruct (coll_equiv (cs := charset sg)) as [_ Hsym _].
  pose proof (sg_len _ Hok) as Hlen. unfold key_seg_cmp, hash_key_body. destruct (seg_type sg) eqn:Hty.
  - unfold hash_rec_seg. rewrite Hn, Hty. cbv zeta. case_decide as Hcmp; [done|]. intros [= <-]. simpl. split; [|done].
    apply Hsym in Hcmp. etrans; [|exact (coll_hash (cs := charset sg) h _ _ Hcmp)]. unfold text_part.
    f_equal. f_equal. case_decide; [apply Z.min_comm|done].
  - rewrite hash_rec_seg_var by done. cbv zeta.
    assert (Hb : bit_start sg = if decide (bit_start sg = 1) then 1 else 2).
    { case_decide; [done|]. by destruct (sg_var _ Hok Hty). }
    unfold var_part. rewrite <-Hb. clear Hb. cbv zeta.
    destruct (decide (1 < mbmaxlen (charset sg))); cbv beta iota; case_decide as Hcmp; try done; intros [= <-]; simpl;
      apply Hsym in Hcmp; rewrite <-!(span_from 2) by lia.
    + split; [rewrite (Z.min_comm (fm_charpos _ _ _)); by apply coll_hash|].
      intros _. unfold from. rewrite !drop_drop. f_equal. lia.
    + split; [by apply coll_hash|]. intros _. unfold from. rewrite !drop_drop. f_equal. lia.
  - unfold hash_rec_seg. rewrite Hn, Hty. cbv zeta. case_decide as Hbit.
    + destruct (decide (get_rec_bits _ _ _ ≠ _)) as [|Hbits]; [done|].
      destruct (decide (span _ _ _ ≠ _)) as [|Hsp]; [done|]. intros [= <-]. simpl.
      apply dec_stable in Hbits, Hsp. split; [|intros Hnb; exfalso; apply Hnb; split; [done|apply Hbit]].
      rewrite (span_cons (seg_length sg) key) by lia. by rewrite <-Hbits, <-Hsp.
    + case_decide as Hsp; [done|]. intros [= <-]. simpl. by rewrite Hsp.
  - unfold hash_rec_seg. rewrite Hn, Hty. cbv zeta. case_decide as Hbit; [naive_solver|].
    destruct (decide (span _ _ _ ≠ _)) as [|Hsp]; [done|]. intros [= <-]. apply dec_stable in Hsp. simpl.
    by rewrite Hsp.
Qed.

Lemma key_cmp_hash segs rec : ∀ key h, Forall seg_ok segs → bits_last segs → key_cmp_loop segs rec key = 0 →
  hashnr_loop segs key h = fold_left (λ h sg, hash_rec_seg sg rec h) segs h.
Proof.
  induction segs as [|sg segs IH]; intros key h Hok Hbits Hcmp; [done|].
  apply Forall_cons in Hok as [Hsg Hok]. cbn [hashnr_loop fold_left key_cmp_loop] in *. cbv zeta in Hcmp.
  assert (Htail : ∀ k1 k2 h', (segs ≠ [] → k1 = from (seg_length sg) k2) → key_cmp_loop segs rec (from (seg_length sg) k2) = 0 →
    hashnr_loop segs k1 h' = fold_left (λ h sg, hash_rec_seg sg rec h) segs h').
  { intros k1 k2 h' Hk Hc. destruct segs as [|sg' segs']; [done|]. rewrite Hk by done. apply IH; [done|apply Hbits|done]. }
  assert (Hnb : segs ≠ [] → ¬ has_bits sg) by (destruct segs; [done|]; intros _; apply Hbits).
  assert (Hbody : ∀ k, seg_null sg rec = false →
    match key_seg_cmp sg rec k with None => 1 | Some k' => key_cmp_loop segs rec (from (seg_length sg) k') end = 0 →
    (let '(h', key') := hash_key_body sg k (from (seg_length sg) k) h in hashnr_loop segs key' h') =
    fold_left (λ h sg, hash_rec_seg sg rec h) segs (hash_rec_seg sg rec h)).
  { intros k Hn Hk. destruct (key_seg_cmp sg rec k) as [k'|] eqn:Hs; [|done].
    destruct (key_seg_cmp_hash sg rec k k' h Hsg Hn Hs) as [H1 H2].
    destruct (hash_key_body _ _ _ _) as [h' key']. simpl in *. rewrite <-H1. apply (Htail _ k'); auto. }
  unfold hash_key_seg. case_decide as Hnull.
  - destruct (decide ((if seg_null sg rec then 1 else 0) ≠ byte_at key 0)) as [|Hfn]; [done|]. apply dec_stable in Hfn.
    rewrite <-Hfn in *. destruct (seg_null sg rec) eqn:Hn.
    + rewrite decide_True in * by done. unfold hash_rec_seg at 2. rewrite Hn.
      eapply Htail; [|exact Hcmp]. intros _. destruct (is_var sg); unfold from; rewrite !drop_drop; f_equal; lia.
    + rewrite decide_False in Hcmp by (intros ?; done). rewrite decide_False by (intros ?; done).
      rewrite <-(Hbody (from 1 key)) by done.
      replace (from 1 (from (seg_length sg) key)) with (from (seg_length sg) (from 1 key)); [done|].
      unfold from. rewrite !drop_drop. f_equal. lia.
  - apply Hbody; [|done]. unfold seg_null. apply bool_decide_false. tauto.
Qed.

Lemma fold_hash_agree segs a b : Forall seg_ok segs → Forall (λ sg, seg_agree sg a b) segs →
  ∀ h, fold_left (λ h sg, hash_rec_seg sg a h) segs h = fold_left (λ h sg, hash_rec_seg sg b h) segs h.
Proof.
  induction segs as [|sg segs IH]; [done|]. intros [Hok Hoks]%Forall_cons [Hag Hags]%Forall_cons h. simpl.
  rewrite (hash_rec_seg_agree sg a b h) by done. by apply IH.
Qed.

Lemma exists_null_agree segs a b : Forall (λ sg, seg_agree sg a b) segs →
  existsb (λ sg, seg_null sg a) segs = existsb (λ sg, seg_null sg b) segs.
Proof. induction 1 as [|sg segs Hag _ IH]; [done|]. simpl. by rewrite (seg_agree_null _ _ _ Hag), IH. Qed.

(** The interface that the core is verified against. *)
#[export] Instance fm_ops_laws kd : keydef_ok kd → KeyOpsLaws (fm_ops kd).
Proof.
  intros [Hsegs Hbits].
  assert (Hsame : ∀ a b, same_key (fm_ops kd) a b ↔ Forall (λ sg, seg_agree sg a b) (seg kd)).
  { intros a b. apply rec_key_cmp_agree. }
  assert (Hagree : ∀ sg, sg ∈ seg kd → seg_ok sg) by by apply Forall_forall.
  split; try by eexists.
  - split.
    + intros a. apply Hsame, Forall_forall. intros sg Hsg. apply seg_agree_equiv, Hagree, Hsg.
    + intros a b. rewrite !Hsame, !Forall_forall. intros H sg Hsg.
      destruct (seg_agree_equiv sg (sg_coll _ (Hagree sg Hsg))) as [_ Hs _]. by apply Hs, H.
    + intros a b c. rewrite !Hsame, !Forall_forall. intros H H' sg Hsg.
      destruct (seg_agree_equiv sg (sg_coll _ (Hagree sg Hsg))) as [_ _ Ht]. eapply Ht; [by apply H|by apply H'].
  - intros a b. rewrite Hsame. intros H. unfold hash_of. simpl. f_equal. unfold fm_rec_hashnr. f_equal.
    by apply fold_hash_agree.
  - intros a b. rewrite Hsame. unfold null_key. simpl. unfold fm_if_null_in_key. intros H.
    by rewrite (exists_null_agree _ _ _ H).
  - intros a pk Hm. unfold hash_of, key_hash_of. simpl. f_equal. unfold fm_rec_hashnr, fm_hashnr. f_equal. symmetry.
    apply key_cmp_hash; [done|done|exact Hm].
Qed.

(** ** Packing *)

(** A segment of fixed width: no VARCHAR, no odd bits, single-byte characters. *)
Record plain_seg (sg : HA_KEYSEG) : Prop := {
  ps_ok : seg_ok sg;
  ps_type : seg_type sg ≠ HA_KEYTYPE_VARTEXT1;
  ps_bits : ¬ has_bits sg;
  ps_mb : mbmaxlen (charset sg) ≤ 1
}.

Lemma length_span i n b : 0 ≤ n → Z.of_nat (length (span i n b)) = n.
Proof. intros. unfold span. rewrite length_fmap, length_seqZ. lia. Qed.

Lemma from_span_app n pos rest : 0 ≤ n → from n (span 0 n pos ++ rest) = rest.
Proof. intros Hn. unfold from. apply drop_app_length'. pose proof (length_span 0 n pos Hn). lia. Qed.

Lemma span_span_app n pos rest : 0 ≤ n → span 0 n (span 0 n pos ++ rest) = span 0 n pos.
Proof.
  intros Hn. unfold span at 1 3. apply list_fmap_ext. intros k j Hj. apply lookup_seqZ in Hj as [-> Hk].
  unfold byte_at at 1. rewrite lookup_app_l by (pose proof (length_span 0 n pos Hn); lia).
  unfold span. rewrite list_lookup_fmap. replace (Z.to_nat (0 + (0 + Z.of_nat k))) with k by lia.
  by rewrite (proj2 (lookup_seqZ 0 n k (0 + Z.of_nat k))) by (split; [done|lia]).
Qed.

Lemma make_key_plain sg rec : plain_seg sg → make_key_seg sg rec =
  (if decide (null_bit sg ≠ 0) then [if seg_null sg rec then 1 else 0] else []) ++ span 0 (seg_length sg) (from (start sg) rec).
Proof.
  intros [_ Hty Hb Hmb]. unfold make_key_seg. cbv zeta. rewrite (decide_False (P := 1 < mbmaxlen _)) by lia.
  rewrite (decide_False (P := seg_type sg = HA_KEYTYPE_BIT ∧ _)) by exact Hb. by destruct (seg_type sg).
Qed.

Lemma key_seg_cmp_plain sg rec rest : plain_seg sg →
  key_seg_cmp sg rec (span 0 (seg_length sg) (from (start sg) rec) ++ rest) =
    Some (span 0 (seg_length sg) (from (start sg) rec) ++ rest).
Proof.
  intros [Hok Hty Hb Hmb]. pose proof (sg_len _ Hok). pose proof (sg_coll _ Hok) as Hc.
  unfold key_seg_cmp. cbv zeta. rewrite (decide_False (P := seg_type sg = HA_KEYTYPE_BIT ∧ _)) by exact Hb.
  rewrite span_span_app by lia. destruct (seg_type sg); try done; try by rewrite decide_False by (intros Hne; by apply Hne).
  rewrite decide_False; [done|]. unfold text_part. cbv zeta.
  rewrite !(decide_False (P := 1 < mbmaxlen _)), span_span_app by lia. intros Hne. apply Hne.
  destruct (coll_equiv (cs := charset sg)) as [Hr _ _]. apply Hr.
Qed.

(** The packed key of a record matches the record. *)
Lemma key_cmp_make_key segs rec : Forall plain_seg segs → ∀ rest,
  key_cmp_loop segs rec (flat_map (λ sg, make_key_seg sg rec) segs ++ rest) = 0.
Proof.
  induction 1 as [|sg segs Hsg _ IH]; intros rest; [done|]. cbn [key_cmp_loop flat_map]. cbv zeta.
  pose proof (sg_len _ (ps_ok _ Hsg)). rewrite make_key_plain, <-!app_assoc by done.
  set (body := span 0 (seg_length sg) (from (start sg) rec)).
  assert (Hstep : match key_seg_cmp sg rec (body ++ flat_map (λ sg, make_key_seg sg rec) segs ++ rest) with
    | None => 1 | Some key => key_cmp_loop segs rec (from (seg_length sg) key) end = 0).
  { unfold body. rewrite key_seg_cmp_plain by done. rewrite from_span_app by lia. apply IH. }
  case_decide as Hnull; [|exact Hstep]. simpl. unfold byte_at. simpl. rewrite decide_False by tauto.
  change (from 1 (?x :: ?l)) with l. destruct (seg_null sg rec); [|exact Hstep].
  rewrite decide_True by done. unfold is_var. rewrite bool_decide_false by apply Hsg.
  unfold body. rewrite from_span_app by lia. apply IH.
Qed.
End server.

(** * Properties *)

(** C38: The callbacks of fm_hash.cc keep the promise the core relies on.  For a key definition
    over collations that behave as documented, whose segments are not empty and have odd bits
    only in the last segment ([bits_last]; behind any other [fm_key_cmp] compares the wrong bytes of
    the key), comparing the key of two records is an equivalence, records with equal keys hash alike
    and agree on NULL parts, and a record that matches a packed key hashes like the packed key - for
    NULLs, bit fields, fixed and variable length text and binary segments.  A byte past the end of a
    buffer counts as 0 here; which bytes the callbacks read, and that they are there, is the subject
    of Buffers.v. *)
Theorem key_callbacks_lawful my_hasher_mysql5x MY_HASH_ADD_MARIADB get_rec_bits uint2korr kd :
  keydef_ok kd → KeyOpsLaws (fm_ops my_hasher_mysql5x MY_HASH_ADD_MARIADB get_rec_bits uint2korr kd).
Proof. intros H. by apply fm_ops_laws. Qed.

