(* ===== verification/Create.v ===== *)
(** Key definitions of a new table (src/fm_create.cc, [fm_prepare_create_info]): what the engine
    derives from the table object of the server - key segments, packed key lengths, the row
    limit - before a share is created. *)

From S2P Require Import Prelude CoreState CoreOps RowOps Shape Inv Lifecycle Hash.

(** * The table object of the server, as far as the engine reads it *)

Inductive key_algorithm := HA_KEY_ALG_UNDEF | HA_KEY_ALG_HASH | HA_KEY_ALG_BTREE | HA_KEY_ALG_OTHER.

#[export] Instance key_algorithm_eq_dec : EqDecision key_algorithm.
Proof. solve_decision. Defined.

(** The key types that [fm_prepare_create_info] tells apart. *)
Inductive base_keytype := KT_TEXT | KT_VARTEXT1 | KT_VARTEXT2 | KT_VARBINARY1 | KT_VARBINARY2 | KT_BIT | KT_OTHER.

(** A column: [f_null] is the null bit and the position of its byte, [f_bit] the length, offset
    and byte position of the odd bits of a BIT column. *)
Record Field := mkField {
  key_type : Z;
  enum_or_set : bool;
  auto_increment_flag : bool;
  charset_for_protocol : CHARSET_INFO;
  f_null : option (Z * Z);
  f_bit : Z * Z * Z
}.

Record KEY_PART_INFO := mkPart { kp_field : Field; kp_offset : Z; kp_length : Z }.

Record KEY := mkKEY { k_algorithm : key_algorithm; k_nosame : bool; key_part : list KEY_PART_INFO }.

(** [TABLE] together with its [TABLE_SHARE]. *)
Record TABLE := mkTABLE {
  t_total_keys : Z;
  key_info : list KEY;
  found_next_number_field : bool;
  next_number_index : Z;
  next_number_key_offset : Z;
  t_reclength : Z;
  t_max_rows : Z
}.

Definition t_keys (t : TABLE) : Z := Z.of_nat (length (key_info t)).

(** [FM_CREATE_INFO]; [ci_block] is the block that holds the key definitions. *)
Record FM_CREATE_INFO := mkCI {
  ci_block : nat;
  ci_keydef : list FM_KEYDEF;
  ci_reclength : Z;
  ci_max_key_length : Z;
  ci_max_records : Z;
  ci_max_table_size : Z;
  ci_auto_increment : Z;
  ci_auto_key : Z;
  ci_auto_key_type : Z;
  ci_with_auto_increment : bool;
  ci_internal_table : bool;
  ci_pin_share : bool
}.

Definition ci_keys (ci : FM_CREATE_INFO) : Z := Z.of_nat (length (ci_keydef ci)).

Inductive create_err := CE_UNSUPPORTED | CE_ENOMEM | CE_ENOENT.

#[export] Instance create_err_eq_dec : EqDecision create_err.
Proof. solve_decision. Defined.

Section server.
(** The numbering of the server's key types, and the binary character set. *)
Context (base_type : Z → base_keytype) (HA_KEYTYPE_BINARY : Z) (my_charset_bin : CHARSET_INFO).
(** The variable [max_heap_table_size] of the session. *)
Context (max_heap_table_size : Z).

(** * Key segments *)

(** The type stored in a segment by the first pass: six types are kept, the others become
    HA_KEYTYPE_BINARY. *)
Definition seg_keytype (code : Z) : keytype :=
  match base_type code with
  | KT_TEXT => HA_KEYTYPE_TEXT
  | KT_VARTEXT1 => HA_KEYTYPE_VARTEXT1
  | KT_BIT => HA_KEYTYPE_BIT
  | KT_VARTEXT2 | KT_VARBINARY1 | KT_VARBINARY2 => HA_KEYTYPE_OTHER code
  | KT_OTHER => HA_KEYTYPE_OTHER HA_KEYTYPE_BINARY
  end.

(** The body of the loop over the parts of a key. *)
Definition part_segment (kp : KEY_PART_INFO) : HA_KEYSEG :=
  let field := kp_field kp in
  let type := seg_keytype (key_type field) in
  let '(nb, np) := match f_null field with Some p => p | None => (0, 0) end in
  let '(bl, bs, bp) := if decide (type = HA_KEYTYPE_BIT) then f_bit field else (0, 0, 0) in
  {| seg_type := type;
     charset := if enum_or_set field then my_charset_bin else charset_for_protocol field;
     start := kp_offset kp;
     seg_length := kp_length kp;
     null_bit := nb;
     null_pos := np;
     bit_start := bs;
     bit_length := bl;
     bit_pos := bp |}.

(** The auto-increment column: the number of its key plus one and its type, as the parts are
    met one after the other. *)
Definition part_auto (t : TABLE) (key : Z) (auto : Z * Z) (kp : KEY_PART_INFO) : Z * Z :=
  if auto_increment_flag (kp_field kp) && found_next_number_field t && bool_decide (key = next_number_index t)
  then (key + 1, key_type (kp_field kp)) else auto.

(** The loop over the keys.  A BTREE key frees the block of the key definitions and then [seg],
    a pointer into that block, which is undefined. *)
Fixpoint prepare_keys {S} (t : TABLE) (ks : list KEY) (key : Z) (auto : Z * Z) (acc : list FM_KEYDEF)
    : M S (list FM_KEYDEF * (Z * Z)) :=
  match ks with
  | [] => mret (acc, auto)
  | pos :: ks' =>
      match k_algorithm pos with
      | HA_KEY_ALG_BTREE => ub
      | _ =>
          let kd := mkKeydef (part_segment <$> key_part pos) (k_nosame pos) false 0 in
          prepare_keys t ks' (key + 1) (fold_left (part_auto t key) (key_part pos) auto) (acc ++ [kd])
      end
  end.

(** * Packed key lengths *)

(** The second pass over a segment: the types of VARCHAR columns become HA_KEYTYPE_VARTEXT1, with
    the width of the length prefix in [bit_start]; with the packed length of the segment. *)
Definition seg_final (sg : HA_KEYSEG) : HA_KEYSEG :=
  let var w := mkSeg HA_KEYTYPE_VARTEXT1 (charset sg) (start sg) (seg_length sg) (null_bit sg) (null_pos sg)
                 w (bit_length sg) (bit_pos sg) in
  match seg_type sg with
  | HA_KEYTYPE_VARTEXT1 => var 1
  | HA_KEYTYPE_OTHER code =>
      match base_type code with
      | KT_VARBINARY1 => var 1
      | KT_VARBINARY2 | KT_VARTEXT2 => var 2
      | _ => sg
      end
  | _ => sg
  end.

(** [length] after the segment. *)
Definition add_length (length : Z) (sg : HA_KEYSEG) : Z :=
  let length := u32 (length + seg_length sg) in
  let length := if decide (null_bit sg ≠ 0) then u32 (length + 1) else length in
  if decide (seg_type (seg_final sg) = HA_KEYTYPE_VARTEXT1) then u32 (length + 2) else length.

Definition finish_key (kd : FM_KEYDEF) : FM_KEYDEF :=
  mkKeydef (seg_final <$> seg kd) (flag_nosame kd) (flag_null_part kd) (fold_left add_length (seg kd) 0).

Definition max_length (m : Z) (kd : FM_KEYDEF) : Z := if decide (m < kd_length kd) then kd_length kd else m.

(** * The row limit *)

Definition mem_per_row (t : TABLE) : Z :=
  fm_align8 (u32 (FM_SLOT_DATA_OFFSET + t_reclength t)) + u32 (t_keys t * 4) + 16.

Definition row_limit (t : TABLE) (max_table_size : Z) : Z :=
  let m := mem_per_row t in
  let max_records := max_table_size / (if decide (m ≠ 0) then m else 1) in
  let max_records := if bool_decide (t_max_rows t ≠ 0) && bool_decide (t_max_rows t < max_records)
                     then t_max_rows t else max_records in
  if decide (max_records = 0) then 1 else max_records.

(** * fm_prepare_create_info *)

(** [my_malloc] is the server's allocator in the state of the caller; the sizes are those of the
    structures. *)
Definition fm_prepare_create_info {S} (my_malloc : Z → M S (option nat)) (sizeof_FM_KEYDEF sizeof_HA_KEYSEG : Z)
    (t : TABLE) (internal_table : bool) : M S (create_err + FM_CREATE_INFO) :=
  if decide (t_keys t < t_total_keys t) then mret (inl CE_UNSUPPORTED) else
  let parts := foldr (λ k n, Z.of_nat (length (key_part k)) + n) 0 (key_info t) in
  p ← my_malloc (t_keys t * sizeof_FM_KEYDEF + parts * sizeof_HA_KEYSEG);
  match p with
  | None => mret (inl CE_ENOMEM)
  | Some p =>
      '(kds, (auto_key, auto_key_type)) ← prepare_keys t (key_info t) 0 (0, 0) [];
      (* the flag HA_AUTO_KEY is set in the definition of the auto-increment key *)
      (if found_next_number_field t then _ ← unwrap (arr_get kds (next_number_index t)); mret tt else mret tt);;
      let max_table_size := Z.max max_heap_table_size sizeof_ptr in
      let kds := finish_key <$> kds in
      mret (inr {| ci_block := p;
                   ci_keydef := kds;
                   ci_reclength := t_reclength t;
                   ci_max_key_length := fold_left max_length kds 0;
                   ci_max_records := row_limit t max_table_size;
                   ci_max_table_size := max_table_size;
                   ci_auto_increment := 0;
                   ci_auto_key := auto_key;
                   ci_auto_key_type := auto_key_type;
                   ci_with_auto_increment := found_next_number_field t && bool_decide (next_number_key_offset t = 0);
                   ci_internal_table := internal_table;
                   ci_pin_share := false |})
  end.
End server.

(** * The number of buckets ([fm_create]) *)

(** [while (nbuckets < max_records / 4 && nbuckets < 2^20) nbuckets <<= 1] *)
Fixpoint grow_buckets (fuel : nat) (nbuckets max_records : Z) : option Z :=
  if decide (nbuckets < max_records / 4 ∧ nbuckets < Z.shiftl 1 20) then
    match fuel with
    | O => None
    | S fuel' => grow_buckets fuel' (u64 (Z.shiftl nbuckets 1)) max_records
    end
  else Some nbuckets.

(** Ten doublings lead from 1024 to 2^20. *)
Definition bucket_count (max_records : Z) : option Z := grow_buckets 10 1024 max_records.

(** * The number of buckets is a power of two *)

Lemma grow_buckets_spec fuel : ∀ n max_records, 0 ≤ n ≤ 20 → 20 - n ≤ Z.of_nat fuel →
  ∃ m, grow_buckets fuel (2 ^ n) max_records = Some (2 ^ m) ∧ n ≤ m ≤ 20 ∧ (max_records / 4 ≤ 2 ^ m ∨ m = 20).
Proof.
  assert (Hsh : Z.shiftl 1 20 = 2 ^ 20) by done.
  induction fuel as [|fuel IH]; intros n mr Hn Hf; simpl; rewrite Hsh.
  - replace n with 20 in * by lia. rewrite decide_False by lia. exists 20. split_and!; first [lia|done].
  - case_decide as Hc; [|exists n; split_and!; try lia; try done].
    + assert (n < 20) by (apply (Z.pow_lt_mono_r_iff 2); lia).
      assert (Hd : u64 (Z.shiftl (2 ^ n) 1) = 2 ^ (n + 1)).
      { rewrite Z.shiftl_mul_pow2, <-Z.pow_add_r by lia. apply u64_small.
        split; [lia|]. apply Z.pow_lt_mono_r; lia. }
      rewrite Hd. destruct (IH (n + 1) mr ltac:(lia) ltac:(lia)) as (m & -> & ? & ?). exists m. split_and!; first [lia|done].
    + destruct (decide (n = 20)) as [->|]; [by right|]. left. assert (2 ^ n < 2 ^ 20) by (apply Z.pow_lt_mono_r; lia). lia.
Qed.

Lemma bucket_count_spec max_records : ∃ n, bucket_count max_records = Some (2 ^ n) ∧ 10 ≤ n ≤ 20 ∧
  (max_records / 4 ≤ 2 ^ n ∨ n = 20).
Proof. apply (grow_buckets_spec 10 10); lia. Qed.

(** * Lengths and limits *)

Lemma max_length_spec l : ∀ m, m ≤ fold_left max_length l m ∧ ∀ kd, kd ∈ l → kd_length kd ≤ fold_left max_length l m.
Proof.
  induction l as [|kd l IH]; intros m; simpl; [split; [lia|set_solver]|]. destruct (IH (max_length m kd)) as [H1 H2].
  assert (m ≤ max_length m kd ∧ kd_length kd ≤ max_length m kd) by (unfold max_length; case_decide; lia).
  split; [lia|]. intros kd' [->|Hin]%elem_of_cons; [lia|by apply H2].
Qed.

Lemma mem_per_row_pos t : 0 < mem_per_row t.
Proof.
  unfold mem_per_row, fm_align8. pose proof (u32_bound (t_keys t * 4)).
  assert (0 ≤ Z.land (u32 (u32 (FM_SLOT_DATA_OFFSET + t_reclength t) + 7)) (u32 (Z.lnot 7))); [|lia].
  apply Z.land_nonneg. left. apply u32_bound.
Qed.

Lemma row_limit_spec t size : 0 ≤ size → 0 ≤ t_max_rows t → let r := row_limit t size in
  1 ≤ r ∧ (r = 1 ∨ r * mem_per_row t ≤ size) ∧ (t_max_rows t ≠ 0 → r ≤ t_max_rows t ∨ r = 1).
Proof.
  intros Hs Hm. unfold row_limit. cbv zeta. pose proof (mem_per_row_pos t) as Hp. rewrite (decide_True (P := mem_per_row t ≠ 0)) by lia.
  set (q := size / mem_per_row t). assert (Hq : q * mem_per_row t ≤ size) by (pose proof (Z.mul_div_le size (mem_per_row t) Hp); lia).
  assert (0 ≤ q) by (apply Z.div_pos; lia). clearbody q.
  destruct (decide (t_max_rows t ≠ 0 ∧ t_max_rows t < q)) as [[H1 H2]|Hn].
  - rewrite !bool_decide_true by lia. simpl. rewrite decide_False by lia. split_and!; [lia|right; nia|lia].
  - assert (E : bool_decide (t_max_rows t ≠ 0) && bool_decide (t_max_rows t < q) = false).
    { apply andb_false_iff. rewrite !bool_decide_eq_false. lia. }
    rewrite E. clear E. case_decide; split_and!; first [lia|by left|by right|intros; lia].
Qed.

Lemma length_span_le i n b m : n ≤ m → 0 ≤ m → Z.of_nat (length (span i n b)) ≤ m.
Proof. intros. unfold span. rewrite length_fmap, length_seqZ. lia. Qed.

(** The auto-increment key exists and has a first segment. *)
Definition auto_there (kds : list FM_KEYDEF) (ak : Z) : Prop :=
  ak ≠ 0 → ∃ kd sg, arr_get kds (ak - 1) = Some kd ∧ seg kd !! 0%nat = Some sg.

(** * What a table must be *)

Section spec.
Context (base_type : Z → base_keytype) (HA_KEYTYPE_BINARY : Z) (my_charset_bin : CHARSET_INFO).
Context `{!CollationLaws my_charset_bin}.

Definition segments (k : KEY) : list HA_KEYSEG := part_segment base_type HA_KEYTYPE_BINARY my_charset_bin <$> key_part k.

(** The bytes that a part may take in a packed key. *)
Definition part_room (kp : KEY_PART_INFO) : Z := kp_length kp + 3.

Record part_ok (kp : KEY_PART_INFO) : Prop := {
  pt_coll : CollationLaws (charset_for_protocol (kp_field kp));
  pt_offset : 0 ≤ kp_offset kp;
  pt_length : 1 ≤ kp_length kp
}.

(** A key that the engine supports: hashed, over lawful collations, with a packed length that
    fits 32 bits and odd bits only in its last part. *)
Record key_ok (k : KEY) : Prop := {
  ky_hash : k_algorithm k ≠ HA_KEY_ALG_BTREE;
  ky_parts : Forall part_ok (key_part k);
  ky_room : foldr (λ kp n, part_room kp + n) 0 (key_part k) < 2 ^ 32;
  ky_bits : bits_last (segments k)
}.

Record table_ok (t : TABLE) : Prop := {
  tb_total : t_total_keys t ≤ t_keys t;
  tb_keys : Forall key_ok (key_info t);
  tb_auto : found_next_number_field t = true → 0 ≤ next_number_index t < t_keys t;
  tb_reclength : 0 ≤ t_reclength t;
  tb_max_rows : 0 ≤ t_max_rows t
}.

(** * Segments *)

Abbreviation sfinal := (seg_final base_type).
Abbreviation addlen := (add_length base_type).
Abbreviation finish := (finish_key base_type).

Lemma seg_final_fields sg : charset (sfinal sg) = charset sg ∧ start (sfinal sg) = start sg ∧
  seg_length (sfinal sg) = seg_length sg ∧ null_bit (sfinal sg) = null_bit sg ∧
  (seg_type (sfinal sg) = HA_KEYTYPE_VARTEXT1 → bit_start (sfinal sg) = 1 ∨ bit_start (sfinal sg) = 2) ∧
  (has_bits (sfinal sg) ↔ has_bits sg).
Proof.
  unfold seg_final, has_bits. destruct (seg_type sg) as [| | |code] eqn:E; [| | |destruct (base_type code)];
    simpl; rewrite ?E; split_and!; naive_solver.
Qed.

Lemma part_segment_fields kp : part_ok kp → let sg := part_segment base_type HA_KEYTYPE_BINARY my_charset_bin kp in
  CollationLaws (charset sg) ∧ start sg = kp_offset kp ∧ seg_length sg = kp_length kp.
Proof.
  intros Hp. unfold part_segment. cbv zeta. repeat case_match; simpl; split_and!; try done; by apply Hp.
Qed.

Lemma seg_final_ok kp : part_ok kp → seg_ok (sfinal (part_segment base_type HA_KEYTYPE_BINARY my_charset_bin kp)).
Proof.
  intros Hp. destruct (part_segment_fields kp Hp) as (Hc & Hs & Hl). cbv zeta in *.
  destruct (seg_final_fields (part_segment base_type HA_KEYTYPE_BINARY my_charset_bin kp)) as (E1 & E2 & E3 & E4 & E5 & _).
  destruct Hp. constructor; [by rewrite E1|rewrite E2; lia|rewrite E3; lia|done].
Qed.

Lemma bits_last_final l : bits_last l → bits_last (sfinal <$> l).
Proof.
  induction l as [|sg [|sg' l] IH]; try done. intros [Hb Hl]. split; [|by apply IH].
  by rewrite (proj2 (proj2 (proj2 (proj2 (proj2 (seg_final_fields sg)))))).
Qed.

(** ** The packed length is enough for [fm_make_key] *)

(** The packed length of a segment. *)
Definition packed_length (sg : HA_KEYSEG) : Z :=
  seg_length sg + (if decide (null_bit sg ≠ 0) then 1 else 0) +
  (if decide (seg_type (sfinal sg) = HA_KEYTYPE_VARTEXT1) then 2 else 0).

Lemma add_length_exact l : ∀ n, 0 ≤ n → Forall (λ sg, 0 ≤ seg_length sg) l →
  n + foldr (λ sg m, seg_length sg + 3 + m) 0 l < 2 ^ 32 →
  fold_left addlen l n = n + foldr (λ sg m, packed_length sg + m) 0 l.
Proof.
  induction l as [|sg l IH]; intros n Hn Hl Hb; simpl in *; [lia|]. inversion Hl as [|?? Hsg Hl']; subst.
  assert (Hr : 0 ≤ foldr (λ sg m, seg_length sg + 3 + m) 0 l).
  { clear -Hl'. induction Hl'; simpl; lia. }
  assert (E : addlen n sg = n + packed_length sg).
  { unfold add_length, packed_length. cbv zeta. rewrite (u32_small (n + seg_length sg)) by lia.
    case_decide; [rewrite (u32_small (n + seg_length sg + 1)) by lia|]; case_decide; rewrite ?u32_small by lia; lia. }
  rewrite E, IH; try done; unfold packed_length in *; repeat case_decide; lia.
Qed.

Lemma make_key_seg_room get_rec_bits sg rec : seg_ok (sfinal sg) →
  Z.of_nat (length (make_key_seg get_rec_bits (sfinal sg) rec)) ≤ packed_length sg.
Proof.
  intros [_ _ Hlen Hvar]. destruct (seg_final_fields sg) as (_ & _ & E3 & E4 & _ & _). rewrite E3 in Hlen.
  unfold make_key_seg, packed_length. cbv zeta. rewrite <-E4. set (sg' := sfinal sg) in *.
  set (cl := if decide (1 < mbmaxlen (charset sg')) then _ else _).
  assert (Hcl : cl ≤ seg_length sg) by (unfold cl; rewrite E3; case_decide; lia). clearbody cl.
  set (np := if decide (null_bit sg' ≠ 0) then [if seg_null sg' rec then 1 else 0] else []).
  assert (Hnp : Z.of_nat (length np) ≤ if decide (null_bit sg' ≠ 0) then 1 else 0) by (unfold np; case_decide; simpl; lia).
  clearbody np. destruct (decide (null_bit sg' ≠ 0)) as [Hnb|Hnb]; destruct (seg_type sg') eqn:Ety; try rewrite (decide_False (P := HA_KEYTYPE_VARTEXT1 = _)) by done.
  all: try (rewrite (decide_False (P := _ = HA_KEYTYPE_BIT ∧ _)) by (intros [? _]; congruence)).
  all: try (case_decide; [done|]). all: try (case_decide; [|done]).
  all: try destruct (Hvar eq_refl) as [Hb|Hb]; try rewrite Hb. all: try case_decide; rewrite ?length_app; simpl.
  all: match goal with |- context [span 0 ?n ?b] =>
    pose proof (length_span_le 0 n b (seg_length sg)); pose proof (length_span_le 0 n b (seg_length sg - 1));
    pose proof (length_span_le 0 n b (seg_length sg + 2)) end; lia.
Qed.

(** ** Key definitions *)

Definition keydef_of (k : KEY) : FM_KEYDEF := mkKeydef (segments k) (k_nosame k) false 0.

(** What the loop makes of the number of the auto-increment key: it stays, or becomes that of a key
    that has parts. *)
Definition auto_from (key : Z) (ks : list KEY) (auto auto' : Z) : Prop :=
  auto' = auto ∨ ∃ j k, ks !! j = Some k ∧ key_part k ≠ [] ∧ auto' = key + Z.of_nat j + 1.

Lemma part_auto_from t key l : ∀ auto, (fold_left (part_auto t key) l auto).1 = auto.1 ∨
  (l ≠ [] ∧ (fold_left (part_auto t key) l auto).1 = key + 1).
Proof.
  induction l as [|kp l IH]; intros auto; simpl; [by left|]. destruct (IH (part_auto t key auto kp)) as [E|[_ E]]; rewrite E; [|by right].
  unfold part_auto. destruct (_ && _); [by right|by left].
Qed.

Lemma prepare_keys_run {S} t ks : ∀ key auto acc (s : S), Forall key_ok ks → ∃ auto',
  prepare_keys base_type HA_KEYTYPE_BINARY my_charset_bin t ks key auto acc s = Ret ((acc ++ (keydef_of <$> ks), auto'), s) ∧
  auto_from key ks auto.1 auto'.1.
Proof.
  induction ks as [|k ks IH]; intros key auto acc s Hk; [rewrite app_nil_r; exists auto; split; [done|by left]|].
  inversion Hk as [|?? Hk1 Hk2]; subst. simpl.
  destruct (IH (key + 1) (fold_left (part_auto t key) (key_part k) auto) (acc ++ [keydef_of k]) s Hk2) as (auto' & E & Ha).
  exists auto'. rewrite <-app_assoc in E. split; [destruct (k_algorithm k) eqn:Hal; try exact E; by destruct (ky_hash _ Hk1)|].
  destruct Ha as [Ha|(j & k' & Hj & Hp & Ha)]; rewrite Ha.
  - destruct (part_auto_from t key (key_part k) auto) as [E'|[Hp E']]; rewrite E'; [by left|]. right. exists 0%nat, k. split_and!; try done. lia.
  - right. exists (Datatypes.S j), k'. split_and!; try done. lia.
Qed.

Lemma finish_key_ok k : key_ok k → keydef_ok (finish (keydef_of k)).
Proof.
  intros [_ Hp _ Hb]. constructor; simpl; [|by apply bits_last_final].
  unfold segments. rewrite !Forall_fmap. eapply Forall_impl; [done|]. intros kp Hkp. by apply seg_final_ok.
Qed.

Lemma finish_key_length k : key_ok k → kd_length (finish (keydef_of k)) = foldr (λ sg n, packed_length sg + n) 0 (segments k).
Proof.
  intros [_ Hp Hroom _]. simpl. rewrite add_length_exact; [lia|lia| |].
  - unfold segments. rewrite Forall_fmap. eapply Forall_impl; [done|]. intros kp Hkp. simpl.
    destruct (part_segment_fields kp Hkp) as (_ & _ & ->). pose proof (pt_length _ Hkp). lia.
  - assert (E : foldr (λ sg m, seg_length sg + 3 + m) 0 (segments k) = foldr (λ kp n, part_room kp + n) 0 (key_part k)); [|lia].
    unfold segments, part_room. clear -Hp CollationLaws0. induction Hp as [|kp l Hkp _ IH]; [done|].
    rewrite fmap_cons. cbn [foldr]. rewrite IH. by destruct (part_segment_fields kp Hkp) as (_ & _ & ->).
Qed.

Lemma make_key_room get_rec_bits k rec : key_ok k →
  Z.of_nat (length (fm_make_key get_rec_bits (finish (keydef_of k)) rec)) ≤ kd_length (finish (keydef_of k)).
Proof.
  intros Hk. rewrite finish_key_length by done. unfold fm_make_key. simpl. unfold segments.
  pose proof (ky_parts _ Hk) as Hp. clear -Hp CollationLaws0. induction Hp as [|kp l Hkp _ IH]; [simpl; lia|].
  rewrite !fmap_cons. cbn [foldr flat_map]. rewrite length_app. pose proof (make_key_seg_room get_rec_bits _ rec (seg_final_ok kp Hkp)). lia.
Qed.

(** ** The description of a new table *)

(** What [fm_prepare_create_info] fills in. *)
Record prepared (t : TABLE) (internal_table : bool) (size : Z) (p : nat) (ci : FM_CREATE_INFO) : Prop := {
  pr_block : ci_block ci = p;
  pr_keydef : ci_keydef ci = (λ k, finish (keydef_of k)) <$> key_info t;
  pr_reclength : ci_reclength ci = t_reclength t;
  pr_key_length : ci_max_key_length ci = fold_left max_length (ci_keydef ci) 0;
  pr_max : ci_max_records ci = row_limit t size;
  pr_internal : ci_internal_table ci = internal_table;
  pr_auto : auto_from 0 (key_info t) 0 (ci_auto_key ci)
}.

Lemma prepare_run {S} max_heap_table_size (my_malloc : Z → M S (option nat)) sizeof_kd sizeof_seg t internal_table (s s' : S) p :
  table_ok t → my_malloc (t_keys t * sizeof_kd + foldr (λ k n, Z.of_nat (length (key_part k)) + n) 0 (key_info t) * sizeof_seg) s = Ret (Some p, s') → ∃ ci,
  fm_prepare_create_info base_type HA_KEYTYPE_BINARY my_charset_bin max_heap_table_size my_malloc sizeof_kd sizeof_seg t internal_table s =
    Ret (inr ci, s') ∧ prepared t internal_table (Z.max max_heap_table_size sizeof_ptr) p ci.
Proof.
  intros Ht Hm. unfold fm_prepare_create_info. rewrite decide_False by (pose proof (tb_total _ Ht); lia).
  rewrite (bind_Ret _ _ _ _ _ Hm).
  destruct (prepare_keys_run (S := S) t (key_info t) 0 (0, 0) [] s' (tb_keys _ Ht)) as ([ak akt] & Hk & Ha).
  rewrite (bind_Ret _ _ _ _ _ Hk). cbv beta iota. rewrite app_nil_l. set (kds := keydef_of <$> key_info t).
  assert (Hlen : length kds = length (key_info t)) by (unfold kds; by rewrite length_fmap).
  erewrite (bind_Ret _ _ _ tt s').
  - eexists. split; [reflexivity|]. constructor; try done. unfold kds. simpl. by rewrite <-list_fmap_compose.
  - destruct (found_next_number_field t) eqn:Hf; [|done]. pose proof (tb_auto _ Ht Hf) as Hi. unfold t_keys in Hi.
    unfold arr_get. rewrite decide_True by lia. destruct (lookup_lt_is_Some_2 kds (Z.to_nat (next_number_index t)) ltac:(lia)) as [kd ->]. done.
Qed.

(** A BTREE key, which the engine does not support, is not refused: the error path is undefined. *)
Lemma prepare_btree {S} max_heap_table_size (my_malloc : Z → M S (option nat)) sizeof_kd sizeof_seg t internal_table (s s' : S) p k :
  t_total_keys t ≤ t_keys t → k ∈ key_info t → k_algorithm k = HA_KEY_ALG_BTREE →
  my_malloc (t_keys t * sizeof_kd + foldr (λ k n, Z.of_nat (length (key_part k)) + n) 0 (key_info t) * sizeof_seg) s = Ret (Some p, s') →
  fm_prepare_create_info base_type HA_KEYTYPE_BINARY my_charset_bin max_heap_table_size my_malloc sizeof_kd sizeof_seg t internal_table s = Ub.
Proof.
  intros Ht Hin Hk Hm. unfold fm_prepare_create_info. rewrite decide_False by lia. rewrite (bind_Ret _ _ _ _ _ Hm).
  assert (Hu : ∀ ks key auto acc, k ∈ ks → prepare_keys base_type HA_KEYTYPE_BINARY my_charset_bin (S := S) t ks key auto acc s' = Ub).
  { intros ks. induction ks as [|k0 ks IH]; intros key auto acc; [by intros ?%elem_of_nil|].
    intros [<-|Hks]%elem_of_cons; cbn [prepare_keys]; [by rewrite Hk|]. destruct (k_algorithm k0); try done; by apply IH. }
  unfold mbind, M_bind. by rewrite Hu.
Qed.

Lemma prepare_fails {S} max_heap_table_size (my_malloc : Z → M S (option nat)) sizeof_kd sizeof_seg t internal_table (s s' : S) :
  table_ok t → my_malloc (t_keys t * sizeof_kd + foldr (λ k n, Z.of_nat (length (key_part k)) + n) 0 (key_info t) * sizeof_seg) s = Ret (None, s') →
  fm_prepare_create_info base_type HA_KEYTYPE_BINARY my_charset_bin max_heap_table_size my_malloc sizeof_kd sizeof_seg t internal_table s =
    Ret (inl CE_ENOMEM, s').
Proof.
  intros Ht Hm. unfold fm_prepare_create_info. rewrite decide_False by (pose proof (tb_total _ Ht); lia).
  by rewrite (bind_Ret _ _ _ _ _ Hm).
Qed.

(** The key definitions that come out. *)
Lemma prepared_keydef get_rec_bits t b size p ci kd : table_ok t → prepared t b size p ci → kd ∈ ci_keydef ci →
  keydef_ok kd ∧ kd_length kd ≤ ci_max_key_length ci ∧ ∀ rec, Z.of_nat (length (fm_make_key get_rec_bits kd rec)) ≤ kd_length kd.
Proof.
  intros Ht Hp Hkd. pose proof (proj2 (max_length_spec (ci_keydef ci) 0) kd Hkd) as Hl. rewrite <-(pr_key_length _ _ _ _ _ Hp) in Hl.
  rewrite (pr_keydef _ _ _ _ _ Hp) in Hkd. apply list_elem_of_fmap in Hkd as (k & -> & Hin).
  assert (Hk1 : key_ok k) by (by eapply Forall_forall in Hin; [|apply Ht]).
  split_and!; [by apply finish_key_ok|done|]. intros rec. by apply make_key_room.
Qed.

Lemma prepared_auto t b size p ci : prepared t b size p ci → auto_there (ci_keydef ci) (ci_auto_key ci).
Proof.
  intros Hp Hne. destruct (pr_auto _ _ _ _ _ Hp) as [E|(j & k & Hj & Hn & E)]; [done|].
  exists (finish (keydef_of k)). rewrite (pr_keydef _ _ _ _ _ Hp), E. unfold arr_get. rewrite decide_True by lia.
  replace (Z.to_nat (0 + Z.of_nat j + 1 - 1)) with j by lia. rewrite list_lookup_fmap, Hj.
  simpl. unfold segments. destruct (key_part k) as [|kp l]; [done|]. simpl. by eexists.
Qed.
End spec.

(** * Properties *)

(** C32: Preparing a table.  For a table whose keys the engine supports,
    [fm_prepare_create_info] returns key definitions - one per key, with its uniqueness - on which
    the callbacks of the engine are lawful; the key buffer it asks for holds every key that
    [fm_make_key] packs, whatever the record; and the row limit is at least one, does not exceed
    the rows asked for, and makes the rows fit the memory limit of the session. *)
Theorem prepare_correct {S} base_type HA_KEYTYPE_BINARY my_charset_bin max_heap_table_size
    (my_malloc : Z → M S (option nat)) sizeof_kd sizeof_seg t internal_table get_rec_bits (s s' : S) p :
  CollationLaws my_charset_bin → table_ok base_type HA_KEYTYPE_BINARY my_charset_bin t →
  (∀ size, my_malloc size s = Ret (Some p, s')) →
  wp (fm_prepare_create_info base_type HA_KEYTYPE_BINARY my_charset_bin max_heap_table_size my_malloc sizeof_kd sizeof_seg t internal_table)
    (λ r s'', s'' = s' ∧ ∃ ci, r = inr ci ∧ ci_block ci = p ∧ ci_keys ci = t_keys t ∧
      flag_nosame <$> ci_keydef ci = k_nosame <$> key_info t ∧
      (∀ kd, kd ∈ ci_keydef ci → keydef_ok kd ∧ kd_length kd ≤ ci_max_key_length ci ∧
         ∀ rec, Z.of_nat (length (fm_make_key get_rec_bits kd rec)) ≤ kd_length kd) ∧
      1 ≤ ci_max_records ci ∧ (t_max_rows t ≠ 0 → ci_max_records ci ≤ t_max_rows t ∨ ci_max_records ci = 1) ∧
      (ci_max_records ci = 1 ∨ ci_max_records ci * mem_per_row t ≤ Z.max max_heap_table_size sizeof_ptr)) s.
Proof.
  intros Hbin Ht Hm. destruct (prepare_run base_type HA_KEYTYPE_BINARY my_charset_bin max_heap_table_size my_malloc
    sizeof_kd sizeof_seg t internal_table s s' p Ht (Hm _)) as (ci & Hrun & Hp).
  eapply wp_run; [exact Hrun|]. split; [done|]. exists ci. pose proof (pr_keydef _ _ _ _ _ _ _ _ Hp) as Hkd.
  destruct (row_limit_spec t (Z.max max_heap_table_size sizeof_ptr) ltac:(unfold sizeof_ptr; lia) (tb_max_rows _ _ _ _ Ht)) as (H1 & H2 & H3).
  rewrite <-(pr_max _ _ _ _ _ _ _ _ Hp) in *. unfold ci_keys, t_keys. rewrite Hkd at 1 2. split_and!; try done.
  - apply Hp.
  - by rewrite length_fmap.
  - rewrite <-list_fmap_compose. by apply list_fmap_ext.
  - intros kd Hin. by eapply prepared_keydef.
Qed.

(** The number of buckets.  The doubling loop of [fm_create] ends after at most ten steps
    with a power of two between 1024 and 2^20 - as the masking in [fm_bucket] needs - that is at
    least a quarter of the row limit unless the upper bound stops it. *)
Theorem bucket_count_correct max_records : ∃ n, bucket_count max_records = Some (2 ^ n) ∧ 10 ≤ n ≤ 20 ∧
  (max_records / 4 ≤ 2 ^ n ∨ n = 20).
Proof. apply bucket_count_spec. Qed.
