(* ===== verification/Data.v ===== *)
(** Row operations of an open handle (src/fm_data.cc): the layer between the handler and the
    core, with the position it keeps and the errors it reports. *)

From S2P Require Import Prelude CoreState CoreOps RowOps Shape Inv Chains Reads Alloc Freelist Steps Insert Delete Lockset Update Clear Lifecycle Spec AutoInc Hash.

(** * Data *)

Inductive ha_err :=
| HA_OK
| HA_ERR_RECORD_FILE_FULL
| HA_ERR_OUT_OF_MEM
| HA_ERR_RECORD_DELETED
| HA_ERR_FOUND_DUPP_KEY
| HA_ERR_KEY_NOT_FOUND
| HA_ERR_RECORD_CHANGED
| HA_ERR_END_OF_FILE
| HA_ERR_CRASHED
| HA_ERR_WRONG_INDEX
| HA_ERR_WRONG_COMMAND
| HA_ERR_AUTOINC_READ_FAILED.

#[export] Instance ha_err_eq_dec : EqDecision ha_err.
Proof. solve_decision. Defined.

(** The HA_STATE_* bits of [info->update]. *)
Inductive ha_state := HA_STATE_AKTIV | HA_STATE_DELETED | HA_STATE_PREV_FOUND | HA_STATE_NEXT_FOUND | HA_STATE_NO_KEY.

#[export] Instance ha_state_eq_dec : EqDecision ha_state.
Proof. solve_decision. Defined.

(** [FM_INFO]: of [opt_flag], the bit READ_CHECK_USED.  [scratch] is the work area handed to the
    core, whose content after a call of the core nobody reads before writing it. *)
Record FM_INFO := mkInfo {
  current_slot : Z;
  current_gen : Z;
  current_hash_slot : Z;
  lastinx : Z;
  errkey : Z;
  update : list ha_state;
  read_check : bool;
  scan_pos : Z;
  lastkey : bytes;
  lastkey_len : Z;
  scratch : bytes
}.

(** The key types of an auto-increment column that the switch on [core.auto_key_type] tells apart. *)
Inductive auto_type :=
| AT_INT8 | AT_BINARY | AT_SHORT_INT | AT_USHORT_INT | AT_LONG_INT | AT_ULONG_INT | AT_INT24 | AT_UINT24
| AT_FLOAT | AT_DOUBLE | AT_LONGLONG | AT_ULONGLONG | AT_OTHER.

(** A handle at work: the share it points to, its own fields and the thread's [my_errno]. *)
Record dstate := mkD {
  core : FM_SHARE_CORE;
  keydefs : list FM_KEYDEF;
  info : FM_INFO;
  my_errno : ha_err
}.

Definition d_core (c : FM_SHARE_CORE) (d : dstate) : dstate := mkD c (keydefs d) (info d) (my_errno d).
Definition d_keydefs (k : list FM_KEYDEF) (d : dstate) : dstate := mkD (core d) k (info d) (my_errno d).
Definition d_info (i : FM_INFO) (d : dstate) : dstate := mkD (core d) (keydefs d) i (my_errno d).
Definition d_errno (e : ha_err) (d : dstate) : dstate := mkD (core d) (keydefs d) (info d) e.

Definition in_current (slot g : Z) (i : FM_INFO) : FM_INFO :=
  mkInfo slot g (current_hash_slot i) (lastinx i) (errkey i) (update i) (read_check i) (scan_pos i)
    (lastkey i) (lastkey_len i) (scratch i).
Definition in_slot (slot : Z) (i : FM_INFO) : FM_INFO := in_current slot (current_gen i) i.
Definition in_hash_slot (v : Z) (i : FM_INFO) : FM_INFO :=
  mkInfo (current_slot i) (current_gen i) v (lastinx i) (errkey i) (update i) (read_check i) (scan_pos i)
    (lastkey i) (lastkey_len i) (scratch i).
Definition in_lastinx (v : Z) (i : FM_INFO) : FM_INFO :=
  mkInfo (current_slot i) (current_gen i) (current_hash_slot i) v (errkey i) (update i) (read_check i) (scan_pos i)
    (lastkey i) (lastkey_len i) (scratch i).
Definition in_errkey (v : Z) (i : FM_INFO) : FM_INFO :=
  mkInfo (current_slot i) (current_gen i) (current_hash_slot i) (lastinx i) v (update i) (read_check i) (scan_pos i)
    (lastkey i) (lastkey_len i) (scratch i).
Definition in_update (v : list ha_state) (i : FM_INFO) : FM_INFO :=
  mkInfo (current_slot i) (current_gen i) (current_hash_slot i) (lastinx i) (errkey i) v (read_check i) (scan_pos i)
    (lastkey i) (lastkey_len i) (scratch i).
Definition in_read_check (v : bool) (i : FM_INFO) : FM_INFO :=
  mkInfo (current_slot i) (current_gen i) (current_hash_slot i) (lastinx i) (errkey i) (update i) v (scan_pos i)
    (lastkey i) (lastkey_len i) (scratch i).
Definition in_scan_pos (v : Z) (i : FM_INFO) : FM_INFO :=
  mkInfo (current_slot i) (current_gen i) (current_hash_slot i) (lastinx i) (errkey i) (update i) (read_check i) v
    (lastkey i) (lastkey_len i) (scratch i).
Definition in_lastkey (v : bytes) (n : Z) (i : FM_INFO) : FM_INFO :=
  mkInfo (current_slot i) (current_gen i) (current_hash_slot i) (lastinx i) (errkey i) (update i) (read_check i) (scan_pos i)
    v n (scratch i).
Definition in_scratch (v : bytes) (i : FM_INFO) : FM_INFO :=
  mkInfo (current_slot i) (current_gen i) (current_hash_slot i) (lastinx i) (errkey i) (update i) (read_check i) (scan_pos i)
    (lastkey i) (lastkey_len i) v.

Abbreviation DM := (M dstate).

(** Run an operation of the core on the share of the handle. *)
Definition on_core {A} (m : SM A) : DM A := λ d,
  match m (core d) with
  | Ret (a, c) => Ret (a, d_core c d)
  | Ub => Ub
  | Hang => Hang
  end.

Definition upd_info (f : FM_INFO → FM_INFO) : DM () := modify (λ d, d_info (f (info d)) d).

(** [return my_errno= e] *)
Definition fail (e : ha_err) : DM ha_err := modify (d_errno e);; mret e.

(** * Error mapping *)

Definition fm_core_error_to_ha (rc : fm_err) : DM ha_err :=
  fail match rc with
       | FM_ERR_FULL => HA_ERR_RECORD_FILE_FULL
       | FM_ERR_NOMEM => HA_ERR_OUT_OF_MEM
       | FM_ERR_DELETED => HA_ERR_RECORD_DELETED
       | FM_ERR_DUP_KEY => HA_ERR_FOUND_DUPP_KEY
       | FM_ERR_NOT_FOUND => HA_ERR_KEY_NOT_FOUND
       | _ => HA_ERR_CRASHED
       end.

(** * Position references: FM_SLOT_REF copied to and from 8 bytes *)

(** The four bytes of a 32-bit word, least significant first, and back. *)
Definition le32 (x : Z) : bytes :=
  [Z.land x 255; Z.land (Z.shiftr x 8) 255; Z.land (Z.shiftr x 16) 255; Z.land (Z.shiftr x 24) 255].
Definition of_le32 (b : bytes) : Z :=
  byte_at b 0 + byte_at b 1 * 2 ^ 8 + byte_at b 2 * 2 ^ 16 + byte_at b 3 * 2 ^ 24.

Definition encode_ref (slot g : Z) : bytes := le32 (u32 slot) ++ le32 g.
Definition decode_ref (ref : bytes) : Z * Z := (i32 (of_le32 ref), of_le32 (from 4 ref)).

Section server.
(** The server's integer loads of [n] bytes, unsigned and signed, and the conversion of a
    floating-point column of [n] bytes to an unsigned value (0 when negative). *)
Context (uint_korr sint_korr float_korr : Z → bytes → Z).
(** The numbering of the server's [enum ha_base_keytype]. *)
Context (ha_keytype : Z → auto_type).

(** * Auto increment *)

(** [(signed char) x] *)
Definition i8 (x : Z) : Z := (x + 2 ^ 7) mod 2 ^ 8 - 2 ^ 7.

(** The value of the auto-increment column in [key]. *)
Definition auto_value (t : auto_type) (key : bytes) : Z :=
  let pos z := if decide (0 < z) then z else 0 in
  match t with
  | AT_INT8 => pos (i8 (byte_at key 0))
  | AT_BINARY => byte_at key 0
  | AT_SHORT_INT => pos (sint_korr 2 key)
  | AT_USHORT_INT => uint_korr 2 key
  | AT_LONG_INT => pos (sint_korr 4 key)
  | AT_ULONG_INT => uint_korr 4 key
  | AT_INT24 => pos (sint_korr 3 key)
  | AT_UINT24 => uint_korr 3 key
  | AT_FLOAT => float_korr 4 key
  | AT_DOUBLE => float_korr 8 key
  | AT_LONGLONG => pos (sint_korr 8 key)
  | AT_ULONGLONG => uint_korr 8 key
  | AT_OTHER => 0
  end.

Definition fm_update_auto_increment (record : bytes) : DM () :=
  d ← get;
  if decide (auto_key (core d) = 0) then mret tt else
  kd ← unwrap (arr_get (keydefs d) (auto_key (core d) - 1));
  sg ← unwrap (seg kd !! 0%nat);
  on_core (fm_core_auto_inc_observe (auto_value (ha_keytype (auto_key_type (core d))) (from (start sg) record))).

(** * Write *)

Definition fm_write (record : bytes) : DM ha_err :=
  d ← get;
  r ← on_core (fm_core_insert_row record (-1) 0 (scratch (info d)));
  if decide (ins_rc r ≠ FM_ERR_OK) then
    (if decide (ins_rc r = FM_ERR_DUP_KEY) then upd_info (in_errkey (ins_errkey r)) else mret tt);;
    fm_core_error_to_ha (ins_rc r)
  else
    d ← get;
    (if decide (auto_key (core d) ≠ 0) then fm_update_auto_increment record else mret tt);;
    g ← on_core (fm_slot_gen (ins_idx r));
    upd_info (λ i, in_update [HA_STATE_AKTIV] (in_current (ins_idx r) g (in_hash_slot (-1) (in_lastinx (-1) i))));;
    mret HA_OK.

(** * Re-read under the slot lock *)

Definition fm_reread_locked (record : bytes) : DM (fm_err * bytes) :=
  d ← get;
  let idx := current_slot (info d) in
  g ← on_core (fm_slot_gen idx);
  '(rc, record) ← on_core (fm_core_read_row idx true g record);
  (if decide (rc = FM_ERR_OK) then upd_info (λ i, in_current (current_slot i) g i) else mret tt);;
  mret (rc, record).

(** * Update and delete *)

(** [bcmp(a, b, n) != 0] *)
Definition differ (n : Z) (a b : bytes) : bool := bool_decide (take (Z.to_nat n) a ≠ take (Z.to_nat n) b).

(** The verification that the read checks ask for: [None] to go on, or the error to return. *)
Definition verify_image (old : bytes) : DM (option ha_err) :=
  d ← get;
  if read_check (info d) then
    '(rc, buf) ← on_core (fm_core_read_row (current_slot (info d)) true (current_gen (info d)) (scratch (info d)));
    upd_info (in_scratch buf);;
    if decide (rc ≠ FM_ERR_OK) then e ← fm_core_error_to_ha rc; mret (Some e)
    else if differ (reclength (core d)) old buf then e ← fail HA_ERR_RECORD_CHANGED; mret (Some e)
    else mret None
  else mret None.

(** What both variants of update do with the result of the core. *)
Definition finish_update (newdata : bytes) (r : fm_err * Z) : DM ha_err :=
  if decide (r.1 ≠ FM_ERR_OK) then
    (if decide (r.1 = FM_ERR_DUP_KEY) then upd_info (in_errkey r.2) else mret tt);;
    fm_core_error_to_ha r.1
  else
    d ← get;
    (if decide (auto_key (core d) ≠ 0) then fm_update_auto_increment newdata else mret tt);;
    upd_info (λ i, in_hash_slot (-1) (in_update [HA_STATE_AKTIV] i));;
    mret HA_OK.

Definition fm_update (old newdata : bytes) : DM ha_err :=
  v ← verify_image old;
  match v with
  | Some e => mret e
  | None =>
      d ← get;
      r ← on_core (fm_core_update_row (current_slot (info d)) (current_gen (info d)) old newdata 0 (scratch (info d)));
      finish_update newdata r
  end.

Definition fm_update_locked (old newdata : bytes) : DM ha_err :=
  v ← verify_image old;
  match v with
  | Some e => mret e
  | None =>
      d ← get;
      r ← on_core (fm_core_update_row_locked (current_slot (info d)) (current_gen (info d)) old newdata 0 (scratch (info d)));
      finish_update newdata r
  end.

Definition finish_delete (rc : fm_err) : DM ha_err :=
  if decide (rc ≠ FM_ERR_OK) then fm_core_error_to_ha rc
  else
    upd_info (λ i, in_hash_slot (-1) (in_slot (-1) (in_update [HA_STATE_DELETED] i)));;
    mret HA_OK.

Definition fm_delete (buf : bytes) : DM ha_err :=
  v ← verify_image buf;
  match v with
  | Some e => mret e
  | None =>
      d ← get;
      rc ← on_core (fm_core_delete_row (current_slot (info d)) (current_gen (info d)));
      finish_delete rc
  end.

Definition fm_delete_locked (buf : bytes) : DM ha_err :=
  v ← verify_image buf;
  match v with
  | Some e => mret e
  | None =>
      d ← get;
      rc ← on_core (fm_core_delete_row_locked (current_slot (info d)) (current_gen (info d)));
      finish_delete rc
  end.

(** * Random access *)

Definition fm_set_position : DM bytes :=
  d ← get; mret (encode_ref (current_slot (info d)) (current_gen (info d))).

Definition fm_rrnd (record pos : bytes) : DM (ha_err * bytes) :=
  let '(slot, g) := decode_ref pos in
  upd_info (in_lastinx (-1));;
  if decide (slot = -1) then
    upd_info (in_update []);; e ← fail HA_ERR_END_OF_FILE; mret (e, record)
  else
    '(rc, record) ← on_core (fm_core_read_row slot true g record);
    if decide (rc ≠ FM_ERR_OK) then
      upd_info (in_update [HA_STATE_PREV_FOUND; HA_STATE_NEXT_FOUND]);;
      e ← fail HA_ERR_RECORD_DELETED; mret (e, record)
    else
      upd_info (λ i, in_update [HA_STATE_PREV_FOUND; HA_STATE_NEXT_FOUND; HA_STATE_AKTIV]
                       (in_hash_slot (-1) (in_current slot g i)));;
      mret (HA_OK, record).

(** * Scan *)

Definition fm_scan_init : DM ha_err :=
  upd_info (λ i, in_update [] (in_hash_slot (-1) (in_slot (-1) (in_scan_pos 0 (in_lastinx (-1) i)))));;
  mret HA_OK.

Definition fm_scan (record : bytes) : DM (ha_err * bytes) :=
  d ← get;
  '(rc, pos, record) ← on_core (fm_core_scan_next (scan_pos (info d)) record);
  upd_info (in_scan_pos pos);;
  if decide (rc ≠ FM_ERR_OK) then
    upd_info (in_update [HA_STATE_PREV_FOUND; HA_STATE_NEXT_FOUND]);;
    e ← fail HA_ERR_END_OF_FILE; mret (e, record)
  else
    let slot := i32 (u32 (pos - 1)) in
    g ← on_core (fm_slot_gen slot);
    upd_info (λ i, in_update [HA_STATE_PREV_FOUND; HA_STATE_NEXT_FOUND; HA_STATE_AKTIV]
                     (in_hash_slot (-1) (in_current slot g i)));;
    mret (HA_OK, record).

(** * Point lookups *)

(** Copy the packed key into [info->lastkey].  [memcpy] needs [n] bytes of [key]; Buffers.v makes a
    call with a shorter key undefined. *)
Definition keep_key (key : bytes) (n : Z) : DM () := upd_info (in_lastkey (take (Z.to_nat n) key) n).

Definition fm_find_key (inx : Z) (key record : bytes) : DM (ha_err * bytes) :=
  kc ← on_core (deref_key inx);
  '(rc, idx, record) ← on_core (fm_core_find inx key record (-1));
  if decide (rc ≠ FM_ERR_OK) then
    upd_info (in_update [HA_STATE_NO_KEY]);; e ← fail HA_ERR_KEY_NOT_FOUND; mret (e, record)
  else
    d ← get;
    kd ← unwrap (arr_get (keydefs d) inx);
    (match hash_rec (ops kc) with
     | Some _ => if flag_nosame kd && negb (flag_null_part kd) then mret tt else keep_key key (kd_length kd)
     | None => mret tt
     end);;
    g ← on_core (fm_slot_gen idx);
    upd_info (λ i, in_update [HA_STATE_AKTIV] (in_current idx g (in_lastinx inx i)));;
    mret (HA_OK, record).

Definition fm_find_next_key (inx : Z) (key : bytes) (cur_slot : Z) (record : bytes) : DM (ha_err * bytes) :=
  '(rc, idx, record) ← on_core (fm_core_find_next inx key cur_slot record (-1));
  if decide (rc ≠ FM_ERR_OK) then
    upd_info (in_update [HA_STATE_NEXT_FOUND]);; e ← fail HA_ERR_KEY_NOT_FOUND; mret (e, record)
  else
    d ← get;
    kd ← unwrap (arr_get (keydefs d) inx);
    (if bool_decide (kd_length kd ≠ lastkey_len (info d)) || differ (kd_length kd) (lastkey (info d)) key
     then keep_key key (kd_length kd) else mret tt);;
    g ← on_core (fm_slot_gen idx);
    upd_info (λ i, in_update [HA_STATE_AKTIV; HA_STATE_NEXT_FOUND] (in_current idx g (in_lastinx inx i)));;
    mret (HA_OK, record).

(** * Extra and reset *)

Definition fm_reset : DM ha_err :=
  upd_info (λ i, in_update [] (in_hash_slot (-1) (in_slot (-1) (in_scan_pos 0 (in_lastinx (-1) i)))));;
  mret HA_OK.

Inductive ha_extra_function :=
| HA_EXTRA_RESET_STATE | HA_EXTRA_NO_READCHECK | HA_EXTRA_READCHECK
| HA_EXTRA_CHANGE_KEY_TO_UNIQUE | HA_EXTRA_CHANGE_KEY_TO_DUP | HA_EXTRA_OTHER.

(** The loop over the keys: both copies of the uniqueness of a key. *)
Fixpoint set_unique (n : nat) (u : bool) (k : Z) : DM () :=
  match n with
  | O => mret tt
  | S n' =>
      d ← get;
      _ ← unwrap (arr_get (keydefs d) k);
      modify (λ d, d_keydefs (arr_upd (λ kd, mkKeydef (seg kd) u (flag_null_part kd) (kd_length kd)) k (keydefs d)) d);;
      _ ← on_core (deref_key k);
      on_core (modify (upd_key (λ kc, mkKey (ops kc) u (nbuckets kc) (head kc) (locks kc)) k));;
      set_unique n' u (k + 1)
  end.

Definition fm_extra (function : ha_extra_function) : DM ha_err :=
  d ← get;
  match function with
  | HA_EXTRA_RESET_STATE => _ ← fm_reset; mret HA_OK
  | HA_EXTRA_NO_READCHECK => upd_info (in_read_check false);; mret HA_OK
  | HA_EXTRA_READCHECK => upd_info (in_read_check true);; mret HA_OK
  | HA_EXTRA_CHANGE_KEY_TO_UNIQUE => set_unique (Z.to_nat (keys (core d))) true 0;; mret HA_OK
  | HA_EXTRA_CHANGE_KEY_TO_DUP => set_unique (Z.to_nat (keys (core d))) false 0;; mret HA_OK
  | HA_EXTRA_OTHER => mret HA_OK
  end.

(** * Statistics *)

(** [FMINFO] *)
Record FMINFO := mkFMINFO {
  x_records : Z;
  x_deleted : Z;
  x_max_records : Z;
  x_data_length : Z;
  x_index_length : Z;
  x_reclength : Z;
  x_errkey : Z;
  x_auto_increment : Z;
  x_create_time : Z
}.

(** The bytes of the bucket arrays of the keys from [k] on. *)
Fixpoint index_bytes (n : nat) (k : Z) : SM Z :=
  match n with
  | O => mret 0
  | S n' => kc ← deref_key k; r ← index_bytes n' (k + 1);
            mret (u64 (nbuckets kc * (sizeof_fm_i32 + sizeof_FM_SPIN) + r))
  end.

(** [create_time] is the field of the share that its creation fills. *)
Definition fm_info (create_time : Z) : DM FMINFO :=
  d ← get;
  let c := core d in
  let slot_count := fm_core_slot_count c in
  il ← on_core (index_bytes (Z.to_nat (keys c)) 0);
  upd_info (in_errkey 0);;
  mret {| x_records := u64 (records c); x_deleted := 0; x_max_records := max_records c;
          x_data_length := u64 (u64 (slot_count * slot_size c) + u64 (u64 (slot_count * keys c) * 4));
          x_index_length := il; x_reclength := reclength c; x_errkey := errkey (info d);
          x_auto_increment := u64 (auto_inc c + 1); x_create_time := create_time |}.
End server.
