(* ===== verification/Registry.v ===== *)
(** The registry of shares and the life of tables and handles (src/fm_create.cc; open, close,
    create, drop and rename of src/ha_fastmem.cc).  Shares, names, handles and the blocks of the
    core live in one heap; an access through a pointer to freed memory is undefined. *)

From S2P Require Import Prelude CoreState CoreOps RowOps Shape Inv Chains Reads Lifecycle Hash Create Data.

(** * Data *)

(** [FM_SHARE]; the key definitions and their segments are part of its block, the name is a
    block of its own.  [open_list] is the chain of registered handles, first to last. *)
Record FM_SHARE := mkFS {
  fs_name : option (nat * bytes);
  fs_core : FM_SHARE_CORE;
  fs_keydef : list FM_KEYDEF;
  fs_max_key_length : Z;
  open_count : Z;
  delete_on_close : bool;
  fs_internal : bool;
  fs_create_time : Z;
  open_list : list nat
}.

(** An open [FM_INFO] as the registry sees it. *)
Record FM_HANDLE := mkFH { oh_share : nat; oh_info : FM_INFO; oh_mode : Z; open_listed : bool }.

(** The process: its heap, the shares and handles by address, the chain [fm_share_list] first to
    last, the registry mutex and [my_errno]. *)
Record registry := mkReg {
  rheap : Heap;
  shares : gmap nat FM_SHARE;
  handles : gmap nat FM_HANDLE;
  fm_share_list : list nat;
  THR_LOCK_fastmem : bool;
  r_errno : option create_err
}.

Abbreviation RM := (M registry).

Definition r_heap (h : Heap) (r : registry) : registry :=
  mkReg h (shares r) (handles r) (fm_share_list r) (THR_LOCK_fastmem r) (r_errno r).
Definition r_shares (f : gmap nat FM_SHARE → gmap nat FM_SHARE) (r : registry) : registry :=
  mkReg (rheap r) (f (shares r)) (handles r) (fm_share_list r) (THR_LOCK_fastmem r) (r_errno r).
Definition r_handles (f : gmap nat FM_HANDLE → gmap nat FM_HANDLE) (r : registry) : registry :=
  mkReg (rheap r) (shares r) (f (handles r)) (fm_share_list r) (THR_LOCK_fastmem r) (r_errno r).
Definition r_list (f : list nat → list nat) (r : registry) : registry :=
  mkReg (rheap r) (shares r) (handles r) (f (fm_share_list r)) (THR_LOCK_fastmem r) (r_errno r).
Definition r_lock (b : bool) (r : registry) : registry :=
  mkReg (rheap r) (shares r) (handles r) (fm_share_list r) b (r_errno r).
Definition r_err (e : create_err) (r : registry) : registry :=
  mkReg (rheap r) (shares r) (handles r) (fm_share_list r) (THR_LOCK_fastmem r) (Some e).

Definition fs_with_name (n : option (nat * bytes)) (sh : FM_SHARE) : FM_SHARE :=
  mkFS n (fs_core sh) (fs_keydef sh) (fs_max_key_length sh) (open_count sh) (delete_on_close sh) (fs_internal sh)
    (fs_create_time sh) (open_list sh).
Definition fs_with_core (c : FM_SHARE_CORE) (sh : FM_SHARE) : FM_SHARE :=
  mkFS (fs_name sh) c (fs_keydef sh) (fs_max_key_length sh) (open_count sh) (delete_on_close sh) (fs_internal sh)
    (fs_create_time sh) (open_list sh).
Definition fs_with_count (n : Z) (sh : FM_SHARE) : FM_SHARE :=
  mkFS (fs_name sh) (fs_core sh) (fs_keydef sh) (fs_max_key_length sh) n (delete_on_close sh) (fs_internal sh)
    (fs_create_time sh) (open_list sh).
Definition fs_with_delete (b : bool) (sh : FM_SHARE) : FM_SHARE :=
  mkFS (fs_name sh) (fs_core sh) (fs_keydef sh) (fs_max_key_length sh) (open_count sh) b (fs_internal sh)
    (fs_create_time sh) (open_list sh).
Definition fs_with_open_list (l : list nat) (sh : FM_SHARE) : FM_SHARE :=
  mkFS (fs_name sh) (fs_core sh) (fs_keydef sh) (fs_max_key_length sh) (open_count sh) (delete_on_close sh) (fs_internal sh)
    (fs_create_time sh) l.

Definition fs_chunks (sh : FM_SHARE) : option (nat * list FM_CHUNK) := chunks (fs_core sh).

(** Remove the first [x] of a chain. *)
Fixpoint chain_remove (x : nat) (l : list nat) : list nat :=
  match l with
  | [] => []
  | y :: l' => if decide (y = x) then l' else y :: chain_remove x l'
  end.

(** The share right after its block has been allocated and zeroed, and the key definitions copied. *)
Definition core_zero (h : Heap) (alloc_ops : nat → Z → bool) : FM_SHARE_CORE :=
  {| ops_alloc := alloc_ops; heap := h; reclength := 0; slot_size := 0; keys := 0; max_records := 0;
     chunk_cap := 0; chunks := None; chunk_cnt := 0; free_head := 0; records := 0; struct_mutex := 0;
     keydef := None; auto_inc := 0; auto_key := 0; auto_key_type := 0 |}.

(** The auto-increment fields of the core, as [fm_create] stores them. *)
Definition set_auto (ci : FM_CREATE_INFO) (c : FM_SHARE_CORE) : FM_SHARE_CORE :=
  {| ops_alloc := ops_alloc c; heap := heap c; reclength := reclength c; slot_size := slot_size c; keys := keys c;
     max_records := max_records c; chunk_cap := chunk_cap c; chunks := chunks c; chunk_cnt := chunk_cnt c;
     free_head := free_head c; records := records c; struct_mutex := struct_mutex c; keydef := keydef c;
     auto_inc := ci_auto_increment ci; auto_key := u16 (ci_auto_key ci); auto_key_type := ci_auto_key_type ci mod 2 ^ 8 |}.

Section server.
(** The server's allocator: which of its calls succeed. *)
Context (malloc_ok : nat → Z → bool).
Context (sizeof_FM_SHARE sizeof_FM_KEYDEF sizeof_HA_KEYSEG sizeof_FM_INFO : Z).
(** Whether the build checks records on update ([DBUG_OFF] not defined), and the clock. *)
Context (dbug : bool) (now : Z).
(** The server's hashing and table objects. *)
Context (my_hasher_mysql5x : my_hasher_st) (MY_HASH_ADD_MARIADB : my_hasher_st → Z → my_hasher_st).
Context (get_rec_bits : bytes → Z → Z → Z) (uint2korr : bytes → Z).
Context (base_type : Z → base_keytype) (HA_KEYTYPE_BINARY : Z) (my_charset_bin : CHARSET_INFO).
Context (max_heap_table_size : Z).

(** * Memory, the mutex, and operations of a share's core *)

Definition my_malloc (size : Z) : RM (option nat) := λ r,
  let n := calls (rheap r) in
  if malloc_ok n size
  then Ret (Some n, r_heap (mkHeap (S n) ({[ n ]} ∪ live (rheap r))) r)
  else Ret (None, r_err CE_ENOMEM (r_heap (mkHeap (S n) (live (rheap r))) r)).

Definition my_free (p : nat) : RM () := λ r,
  if decide (p ∈ live (rheap r))
  then Ret (tt, r_heap (mkHeap (calls (rheap r)) (live (rheap r) ∖ {[ p ]})) r)
  else Ub.

Definition mutex_lock : RM () := r ← get; if THR_LOCK_fastmem r then hang else modify (r_lock true).
Definition mutex_unlock : RM () := modify (r_lock false).

Definition deref_share (p : nat) : RM FM_SHARE := r ← get; unwrap (shares r !! p).
Definition store_share (f : FM_SHARE → FM_SHARE) (p : nat) : RM () := _ ← deref_share p; modify (r_shares (alter f p)).
Definition deref_handle (h : nat) : RM FM_HANDLE := r ← get; unwrap (handles r !! h).

(** Run an operation on the core of share [p], in the heap of the process. *)
Definition on_share {A} (p : nat) (m : SM A) : RM A := λ r,
  match shares r !! p with
  | None => Ub
  | Some sh =>
      match m (with_heap (rheap r) (fs_core sh)) with
      | Ret (a, c) => Ret (a, r_heap (heap c) (r_shares (<[p := fs_with_core c sh]>) r))
      | Ub => Ub
      | Hang => Hang
      end
  end.

(** * Registry helpers *)

Fixpoint find_share_loop (name : bytes) (l : list nat) : RM (option nat) :=
  match l with
  | [] => mret None
  | p :: l' =>
      sh ← deref_share p;
      n ← unwrap (fs_name sh);
      if decide (name = n.2) then mret (Some p) else find_share_loop name l'
  end.

Definition fm_find_named_share (name : bytes) : RM (option nat) := r ← get; find_share_loop name (fm_share_list r).

Definition fm_share_list_add (p : nat) : RM () := modify (r_list (cons p)).
Definition fm_share_list_remove (p : nat) : RM () := modify (r_list (chain_remove p)).

(** * Free *)

Definition fm_free (p : nat) : RM () :=
  sh ← deref_share p;
  (if fs_internal sh then mret tt else fm_share_list_remove p);;
  on_share p fm_core_free_share;;
  (match fs_name sh with Some n => my_free n.1 | None => mret tt end);;
  my_free p;;
  modify (r_shares (delete p)).

Definition fm_try_free (p : nat) : RM () :=
  sh ← deref_share p;
  if decide (open_count sh = 0) then fm_free p else store_share (fs_with_delete true) p.

(** * Create *)

(** The label [err] of [fm_create], when a share has been allocated. *)
Definition create_failed (p : nat) : RM () :=
  sh ← deref_share p;
  (match fs_name sh with Some n => my_free n.1 | None => mret tt end);;
  on_share p fm_core_free_share;;
  my_free p;;
  modify (r_shares (delete p)).

(** The block under [if (!share)]: allocate and fill a new share.  Returns [share] and whether all
    went well (otherwise control goes to the label [err]). *)
Definition new_share (name : bytes) (ci : FM_CREATE_INFO) : RM (option nat * bool) :=
  nbuckets ← unwrap (bucket_count (ci_max_records ci));
  let key_segs := foldr (λ kd n, Z.of_nat (length (seg kd)) + n) 0 (ci_keydef ci) in
  p ← my_malloc (sizeof_FM_SHARE + ci_keys ci * sizeof_FM_KEYDEF + key_segs * sizeof_HA_KEYSEG);
  match p with
  | None => mret (None, false)
  | Some p =>
      r ← get;
      modify (r_shares (<[p := mkFS None (core_zero (rheap r) malloc_ok) (ci_keydef ci) 0 0 false false 0 []]>));;
      on_share p (fm_core_init_share (ci_reclength ci) (ci_keys ci) (u32 (ci_max_records ci)) (u32 nbuckets) malloc_ok);;
      sh ← deref_share p;
      match fs_chunks sh with
      | None => mret (Some p, false)
      | Some _ =>
          on_share p (modify (set_auto ci));;
          store_share (λ sh, mkFS (fs_name sh) (fs_core sh) (fs_keydef sh) (ci_max_key_length ci) (open_count sh)
                               (ci_internal_table ci) (ci_internal_table ci) now (open_list sh)) p;;
          nb ← my_malloc (Z.of_nat (length name) + 1);
          match nb with
          | None => mret (Some p, false)
          | Some nb =>
              store_share (fs_with_name (Some (nb, name))) p;;
              (if ci_internal_table ci then mret tt else fm_share_list_add p);;
              mret (Some p, true)
          end
      end
  end.

(** The end of [fm_create]: pin the share and release the mutex, or take the error path.  Returns
    the code (0 for success), the share and [*created_new_share]. *)
Definition finish_create (public pin_share created_new_share : bool) (res : option nat * bool) : RM (Z * option nat * bool) :=
  match res with
  | (Some p, true) =>
      (if public then
         (if pin_share then store_share (λ sh, fs_with_count (u32 (open_count sh + 1)) sh) p else mret tt);;
         mutex_unlock
       else mret tt);;
      mret (0, Some p, created_new_share)
  | (share, _) =>
      (if public then mutex_unlock else mret tt);;
      (match share with Some p => create_failed p | None => mret tt end);;
      mret (1, None, created_new_share)
  end.

Definition fm_create (name : bytes) (ci : FM_CREATE_INFO) (pin_share : bool) : RM (Z * option nat * bool) :=
  let public := negb (ci_internal_table ci) in
  share ← (if public then
             mutex_lock;;
             share ← fm_find_named_share name;
             match share with
             | Some p => sh ← deref_share p; if decide (open_count sh = 0) then fm_free p;; mret None else mret (Some p)
             | None => mret None
             end
           else mret None);
  let created_new_share := bool_decide (share = None) in
  res ← (match share with Some p => mret (Some p, true) | None => new_share name ci end);
  finish_create public pin_share created_new_share res.

(** * Open and close *)

Definition FM_INFO_new (sh : FM_SHARE) : FM_INFO :=
  {| current_slot := -1; current_gen := 0; current_hash_slot := -1; lastinx := -1; errkey := -1; update := [];
     read_check := dbug; scan_pos := 0; lastkey := replicate (Z.to_nat (fs_max_key_length sh)) 0; lastkey_len := 0;
     scratch := replicate (Z.to_nat (reclength (fs_core sh))) 0 |}.

Definition fm_open_from_share_locked (p : nat) (mode : Z) : RM (option nat) :=
  sh ← deref_share p;
  h ← my_malloc (sizeof_FM_INFO + fs_max_key_length sh + reclength (fs_core sh));
  match h with
  | None => mret None
  | Some h =>
      store_share (λ sh, fs_with_count (u32 (open_count sh + 1)) sh) p;;
      modify (r_handles (<[h := mkFH p (FM_INFO_new sh) mode false]>));;
      mret (Some h)
  end.

Definition fm_open_from_share (p : nat) (mode : Z) : RM (option nat) := fm_open_from_share_locked p mode.

(** Put the handle on the list of its share. *)
Definition register_handle (p h : nat) : RM () :=
  store_share (λ sh, fs_with_open_list (h :: open_list sh) sh) p;;
  modify (r_handles (alter (λ fh, mkFH (oh_share fh) (oh_info fh) (oh_mode fh) true) h)).

Definition fm_open_from_share_and_register (p : nat) (mode : Z) : RM (option nat) :=
  mutex_lock;;
  h ← fm_open_from_share_locked p mode;
  (match h with
   | Some h => register_handle p h;; store_share (λ sh, fs_with_count (u32 (open_count sh - 1)) sh) p
   | None => mret tt
   end);;
  mutex_unlock;;
  mret h.

Definition fm_open (name : bytes) (mode : Z) : RM (option nat) :=
  mutex_lock;;
  share ← fm_find_named_share name;
  match share with
  | None => modify (r_err CE_ENOENT);; mutex_unlock;; mret None
  | Some p =>
      h ← fm_open_from_share_locked p mode;
      (match h with Some h => register_handle p h | None => mret tt end);;
      mutex_unlock;;
      mret h
  end.

Definition fm_close (h : nat) : RM Z :=
  fh ← deref_handle h;
  let p := oh_share fh in
  mutex_lock;;
  (if open_listed fh then
     store_share (λ sh, fs_with_open_list (chain_remove h (open_list sh)) sh) p;;
     modify (r_handles (alter (λ fh, mkFH (oh_share fh) (oh_info fh) (oh_mode fh) false) h))
   else mret tt);;
  store_share (λ sh, fs_with_count (u32 (open_count sh - 1)) sh) p;;
  sh ← deref_share p;
  (if bool_decide (open_count sh = 0) && delete_on_close sh then fm_free p else mret tt);;
  my_free h;;
  modify (r_handles (delete h));;
  mutex_unlock;;
  mret 0.

Definition fm_release_share (p : nat) (internal_table : bool) : RM () :=
  if internal_table then fm_free p
  else
    mutex_lock;;
    store_share (λ sh, fs_with_count (u32 (open_count sh - 1)) sh) p;;
    sh ← deref_share p;
    (if decide (open_count sh = 0) then fm_free p else mret tt);;
    mutex_unlock.

(** * Drop and rename *)

Definition fm_delete_table (name : bytes) : RM (option create_err) :=
  mutex_lock;;
  share ← fm_find_named_share name;
  result ← (match share with
            | Some p => fm_try_free p;; mret None
            | None => modify (r_err CE_ENOENT);; mret (Some CE_ENOENT)
            end);
  mutex_unlock;;
  mret result.

Definition fm_drop_table (h : nat) : RM () :=
  mutex_lock;;
  fh ← deref_handle h;
  fm_try_free (oh_share fh);;
  mutex_unlock.

(** Returns the error, if any. *)
Definition fm_rename (old_name new_name : bytes) : RM (option create_err) :=
  mutex_lock;;
  share ← fm_find_named_share old_name;
  match share with
  | Some p =>
      nb ← my_malloc (Z.of_nat (length new_name) + 1);
      match nb with
      | None => mutex_unlock;; r ← get; mret (r_errno r)
      | Some nb =>
          sh ← deref_share p;
          (match fs_name sh with Some n => my_free n.1 | None => mret tt end);;
          store_share (fs_with_name (Some (nb, new_name))) p;;
          mutex_unlock;;
          mret None
      end
  | None => mutex_unlock;; mret None
  end.

(** * The handler's side *)

Definition prepare (t : TABLE) (internal_table : bool) : RM (create_err + FM_CREATE_INFO) :=
  fm_prepare_create_info base_type HA_KEYTYPE_BINARY my_charset_bin max_heap_table_size my_malloc
    sizeof_FM_KEYDEF sizeof_HA_KEYSEG t internal_table.

(** [fm_key_ops_init(file->s)] *)
Definition wire_keys (p : nat) : RM () :=
  sh ← deref_share p;
  on_share p (fm_key_ops_init (key_ops_of my_hasher_mysql5x MY_HASH_ADD_MARIADB get_rec_bits uint2korr (fs_keydef sh))).

(** [ha_fastmem::open]: [file] afterwards, null when the open failed.  When [fm_open] fails for
    another reason than a missing table, the null [file] is dereferenced. *)
Definition ha_open (name : bytes) (mode : Z) (t : TABLE) (internal_table : bool) : RM (option nat) :=
  file ← (if internal_table then mret None else fm_open name mode);
  r ← get;
  if internal_table || (bool_decide (file = None) && bool_decide (r_errno r = Some CE_ENOENT)) then
    e ← prepare t internal_table;
    match e with
    | inl _ => mret None
    | inr ci =>
        '(rc, share, _) ← fm_create name ci true;
        my_free (ci_block ci);;
        match share with
        | None => mret None
        | Some p =>
            file ← (if internal_table then fm_open_from_share p mode else fm_open_from_share_and_register p mode);
            match file with
            | None => fm_release_share p internal_table;; mret None
            | Some h => wire_keys p;; mret (Some h)
            end
        end
    end
  else
    h ← unwrap file;
    fh ← deref_handle h;
    wire_keys (oh_share fh);;
    mret (Some h).

(** [ha_fastmem::clone]: a handler of the server, if it gives one ([got]), opens the table that has
    the name of this handle's share. *)
Definition ha_clone (file : nat) (mode : Z) (t : TABLE) (got : bool) : RM (option nat) :=
  if got then
    fh ← deref_handle file;
    sh ← deref_share (oh_share fh);
    n ← unwrap (fs_name sh);
    ha_open n.2 mode t false
  else mret None.

Definition ha_close (file : nat) : RM Z := rc ← fm_close file; mret (if decide (rc = 0) then 0 else 1).

(** [ha_fastmem::create]: [auto_increment_value] is the next value the statement asks for, or 0. *)
Definition ha_create (name : bytes) (t : TABLE) (internal_table : bool) (auto_increment_value : Z) : RM Z :=
  e ← prepare t internal_table;
  match e with
  | inl _ => mret 1
  | inr ci =>
      let ci := mkCI (ci_block ci) (ci_keydef ci) (ci_reclength ci) (ci_max_key_length ci) (ci_max_records ci)
        (ci_max_table_size ci) (if decide (auto_increment_value ≠ 0) then u64 (auto_increment_value - 1) else 0)
        (ci_auto_key ci) (ci_auto_key_type ci) (ci_with_auto_increment ci) (ci_internal_table ci) (ci_pin_share ci) in
      '(rc, _, _) ← fm_create name ci false;
      my_free (ci_block ci);;
      mret rc
  end.

(** [fastmem_drop_table]: a missing table is reported as -1. *)
Definition ha_delete_table (name : bytes) : RM Z :=
  e ← fm_delete_table name;
  mret (match e with None => 0 | Some CE_ENOENT => -1 | Some _ => 1 end).

(** [ha_fastmem::drop_table]: mark the share and close the handle. *)
Definition ha_drop_table (file : nat) : RM () :=
  fh ← deref_handle file;
  store_share (fs_with_delete true) (oh_share fh);;
  _ ← ha_close file;
  mret tt.

Definition ha_rename_table (from to : bytes) : RM (option create_err) := fm_rename from to.
End server.
