(* ===== verification/DataSpec.v ===== *)
(** What the row operations of a handle (src/fm_data.cc) promise: positions that survive a trip
    through eight bytes, writes that land where the handle then points, read checks that refuse
    a changed row, and errors that leave the table as it was. *)

From S2P Require Import Prelude CoreState CoreOps RowOps Shape Inv Chains Reads Alloc Freelist Steps Insert Delete Lockset Update Clear Lifecycle Spec AutoInc Hash Data.

(** * Position references *)

Lemma land_255 x : Z.land x 255 = x mod 2 ^ 8.
Proof. apply (land_pow2_mask x 8). lia. Qed.

Lemma of_le32_le32 x l : 0 ≤ x < 2 ^ 32 → of_le32 (le32 x ++ l) = x.
Proof.
  intros Hx. unfold of_le32, le32, byte_at. simpl. rewrite !land_255, !Z.shiftr_div_pow2 by lia.
  pose proof (Z.div_mod x (2 ^ 8)). pose proof (Z.div_mod (x / 2 ^ 8) (2 ^ 8)).
  pose proof (Z.div_mod (x / 2 ^ 16) (2 ^ 8)).
  assert (x / 2 ^ 8 / 2 ^ 8 = x / 2 ^ 16) by (rewrite Z.div_div; done).
  assert (x / 2 ^ 16 / 2 ^ 8 = x / 2 ^ 24) by (rewrite Z.div_div; done).
  assert (0 ≤ x / 2 ^ 24 < 2 ^ 8) by (split; [apply Z.div_pos|apply Z.div_lt_upper_bound]; lia).
  rewrite (Z.mod_small (x / 2 ^ 24)) by done. lia.
Qed.

Lemma decode_encode_ref slot g : - 2 ^ 31 ≤ slot < 2 ^ 31 → 0 ≤ g < 2 ^ 32 →
  decode_ref (encode_ref slot g) = (slot, g).
Proof.
  intros Hs Hg. unfold decode_ref, encode_ref. rewrite of_le32_le32 by apply u32_bound.
  change (from 4 (le32 (u32 slot) ++ le32 g)) with (le32 g). rewrite <-(app_nil_r (le32 g)), of_le32_le32 by done.
  f_equal. unfold i32, u32. rewrite Zplus_mod_idemp_l. by apply i32_small.
Qed.

(** * Running the core from a handle *)

Lemma wp_on_core {A} (m : SM A) (Q : A → FM_SHARE_CORE → Prop) d :
  wp m Q (core d) → wp (on_core m) (λ a d', ∃ c, d' = d_core c d ∧ Q a c) d.
Proof. intros (a & c & H & HQ). exists a, (d_core c d). unfold on_core. rewrite H. eauto. Qed.

Lemma on_core_run {A} (m : SM A) d a c : m (core d) = Ret (a, c) → on_core m d = Ret (a, d_core c d).
Proof. unfold on_core. by intros ->. Qed.

(** Run the core with its specification [H]; the new share is named [c]. *)
Ltac wp_core H := apply wp_bind; eapply wp_mono; [eapply wp_on_core, H|cbv beta].

Lemma d_core_id d : d_core (core d) d = d.
Proof. by destruct d. Qed.

Lemma slot_gen_run s idx g : gen_at s idx = Some g → fm_slot_gen idx s = Ret (g, s).
Proof.
  unfold gen_at. intros (sl & Hsl & ->)%fmap_Some. unfold fm_slot_gen.
  by rewrite (bind_Ret _ _ _ _ _ (deref_slot_run _ _ _ Hsl)).
Qed.

Lemma gen_at_bound held s i g : wf held s → gen_at s i = Some g → 0 ≤ g < 2 ^ 32.
Proof. intros Hwf (sl & Hsl & ->)%fmap_Some. apply (sk_gen s), (wf_slots _ _ Hwf _ _ Hsl). Qed.

Lemma wf_auto_inc held v s : wf held s → wf held (with_auto_inc v s).
Proof. intros [[] ? ? Hsl ? ? ? ?]. constructor; try done. intros i sl Hi. by destruct (Hsl i sl Hi). Qed.

(** * The invariant of a handle *)

(** The share is well formed, the key definitions of the server cover its keys, and the cursor
    of the handle is within the slots that exist. *)
Record handle_ok (held : gset Z) (d : dstate) : Prop := {
  ho_wf : wf held (core d);
  ho_keys k : 0 ≤ k < keys (core d) → is_Some (arr_get (keydefs d) k);
  ho_auto : auto_key (core d) ≠ 0 → ∃ kd sg, arr_get (keydefs d) (auto_key (core d) - 1) = Some kd ∧ seg kd !! 0%nat = Some sg;
  ho_slot : FM_NULL_SLOT ≤ current_slot (info d) < total_slots (core d);
  ho_scan : 0 ≤ scan_pos (info d) ≤ total_slots (core d)
}.

(** The handle points to slot [idx] under generation [g]. *)
Definition positioned (d : dstate) (idx g : Z) : Prop := current_slot (info d) = idx ∧ current_gen (info d) = g.

(** The position [(idx, g)] denotes the row [rec]. *)
Definition row_ref (s : FM_SHARE_CORE) (idx g : Z) (rec : bytes) : Prop :=
  table s !! idx = Some rec ∧ gen_at s idx = Some g.

(** The parts of the share that handles depend on, and their bounds, after an operation. *)
Record kept (s s' : FM_SHARE_CORE) : Prop := {
  kp_keys : keys s' = keys s;
  kp_auto : auto_key s' = auto_key s;
  kp_auto_type : auto_key_type s' = auto_key_type s;
  kp_reclength : reclength s' = reclength s;
  kp_cfg k : key_cfg s' k = key_cfg s k;
  kp_total : total_slots s ≤ total_slots s'
}.

Lemma kept_config s s' : same_config s s' → total_slots s ≤ total_slots s' → kept s s'.
Proof. intros [] ?. by constructor. Qed.

#[export] Instance kept_trans : Transitive kept.
Proof. intros s1 s2 s3 [] []. constructor; [congruence..|intros; congruence|lia]. Qed.

(** A handle moves on with the share: new position and scan cursor within the new bounds. *)
Lemma handle_ok_step held held' d d' : handle_ok held d → wf held' (core d') → kept (core d) (core d') →
  keydefs d' = keydefs d → FM_NULL_SLOT ≤ current_slot (info d') < total_slots (core d') →
  0 ≤ scan_pos (info d') ≤ total_slots (core d') → handle_ok held' d'.
Proof.
  intros [? Hk Ha _ _] Hwf [Ek Ea _ _ _] Hkd ? ?. constructor; [done| | |done|done]; rewrite ?Ek, ?Ea, Hkd; done.
Qed.

(** The same, when the cursor does not move. *)
Lemma handle_ok_core held held' d d' : handle_ok held d → wf held' (core d') → kept (core d) (core d') →
  keydefs d' = keydefs d → current_slot (info d') = current_slot (info d) → scan_pos (info d') = scan_pos (info d) →
  handle_ok held' d'.
Proof.
  intros H Hwf K ? E1 E2. pose proof (kp_total _ _ K). destruct (ho_slot _ _ H), (ho_scan _ _ H).
  eapply handle_ok_step; [done|done|done|done|rewrite E1; lia|rewrite E2; lia].
Qed.

(** * Auto increment after a write *)

(** Only the counter of the share may move, and only up. *)
Definition auto_only (s s' : FM_SHARE_CORE) : Prop := ∃ v, s' = with_auto_inc v s ∧ auto_inc s ≤ v.

Lemma auto_only_refl s : auto_only s s.
Proof. exists (auto_inc s). split; [by destruct s|lia]. Qed.

Section auto.
Context (uint_korr sint_korr float_korr : Z → bytes → Z) (ha_keytype : Z → auto_type).

Lemma update_auto_spec held d rec : handle_ok held d →
  wp (if decide (auto_key (core d) ≠ 0) then fm_update_auto_increment uint_korr sint_korr float_korr ha_keytype rec else mret tt)
    (λ _ d', ∃ c, d' = d_core c d ∧ auto_only (core d) c) d.
Proof.
  intros H. case_decide as Hk.
  2: { apply wp_ret. exists (core d). rewrite d_core_id. split; [done|apply auto_only_refl]. }
  destruct (ho_auto _ _ H Hk) as (kd & sg & Hkd & Hsg). unfold fm_update_auto_increment. wp_get.
  rewrite decide_False by done. wp_step (unwrap_run _ _ d Hkd). wp_step (unwrap_run _ _ d Hsg).
  eapply wp_run; [apply on_core_run, observe_run|].
  eexists. split; [done|]. case_decide; [eexists; split; [done|lia]|apply auto_only_refl].
Qed.

End auto.

Lemma auto_only_wf held s s' : auto_only s s' → wf held s → wf held s'.
Proof. intros (v & -> & _). apply wf_auto_inc. Qed.

Lemma auto_only_same s s' : auto_only s s' →
  table s' = table s ∧ (∀ i, gen_at s' i = gen_at s i) ∧ kept s s' ∧ total_slots s' = total_slots s.
Proof. intros (v & -> & _). split_and!; [done..|]. by constructor. Qed.

(** * Write *)

(** The index last used stays, or there is none any more. *)
Definition inx_kept (d d' : dstate) : Prop := lastinx (info d') = lastinx (info d) ∨ lastinx (info d') = -1.

(** What an insert through a handle promises, by the code it returns. *)
Definition write_outcome (d : dstate) (rec : bytes) (e : ha_err) (d' : dstate) : Prop :=
  match e with
  | HA_OK => ∃ idx g, positioned d' idx g ∧ table (core d) !! idx = None ∧
      table (core d') = <[idx := rec]> (table (core d)) ∧ row_ref (core d') idx g rec
  | HA_ERR_FOUND_DUPP_KEY => table (core d') = table (core d) ∧ my_errno d' = e ∧ errkey (info d') = 0 ∧
      ∃ k, 0 ≤ k < keys (core d) ∧ conflict (core d) k rec
  | HA_ERR_RECORD_FILE_FULL => table (core d') = table (core d) ∧ my_errno d' = e ∧ info d' = info d ∧
      max_records (core d) ≤ Z.of_nat (size (table (core d)))
  | HA_ERR_OUT_OF_MEM => table (core d') = table (core d) ∧ my_errno d' = e ∧ info d' = info d ∧
      ∃ n size, ops_alloc (core d) n size = false
  | _ => False
  end.

Lemma write_frame uint_korr sint_korr float_korr ha_keytype held d rec : handle_ok held d → held_in held (core d) →
  Z.of_nat (length rec) = reclength (core d) →
  wp (fm_write uint_korr sint_korr float_korr ha_keytype rec) (λ e d', (handle_ok held d' ∧ kept (core d) (core d') ∧
    keydefs d' = keydefs d ∧ write_outcome d rec e d') ∧ inx_kept d d' ∧ ∀ i, 0 ≤ i < total_slots (core d) → gen_at (core d') i = gen_at (core d) i) d.
Proof.
  intros H Hin Hlen. unfold fm_write. wp_get.
  wp_core (insert_row_spec held (core d) rec (-1) 0 (scratch (info d)) (ho_wf _ _ H) Hin Hlen).
  intros [rc idx ek] d1 (c & -> & [Hwf C Htot Hgen Hout]). unfold insert_outcome in Hout. cbn [ins_rc ins_idx ins_errkey] in *.
  pose proof (kept_config _ _ C Htot) as K.
  assert (Hok : ∀ e i, current_slot i = current_slot (info d) → scan_pos i = scan_pos (info d) →
    handle_ok held (d_errno e (d_info i (d_core c d)))) by (intros; by eapply handle_ok_core).
  destruct rc; try done.
  - rewrite decide_False by naive_solver. wp_get. destruct Hout as (Hidx & Hnone & Ht & _).
    assert (H1 : handle_ok held (d_core c d)) by (by eapply handle_ok_core).
    wp_use (update_auto_spec uint_korr sint_korr float_korr ha_keytype held (d_core c d) rec H1). intros _ d2 (c2 & -> & A). cbn [core d_core] in A.
    destruct (auto_only_same _ _ A) as (At & Ag & Ak & Atot).
    destruct (gen_at_is_Some c idx (wf_static _ _ Hwf) Hidx) as [g Hg].
    wp_step @on_core_run; [apply slot_gen_run; cbn [core d_core]; by rewrite Ag|].
    unfold upd_info. wp_mod. apply wp_ret. cbn.
    split; [|split; [by right|intros; by rewrite Ag, Hgen]]. split; [|split; [|split; [done|]]].
    + eapply (handle_ok_step held held d); cbn; [done|by eapply auto_only_wf| |done| |].
      * by etrans; [exact K|].
      * unfold FM_NULL_SLOT. lia.
      * pose proof (ho_scan _ _ H). destruct K. lia.
    + by etrans; [exact K|].
    + exists idx, g. split_and!; [done..|cbn; congruence|]. split; cbn; [|by rewrite Ag].
      rewrite At, Ht. apply lookup_insert_eq.
  - destruct Hout as (Ht & _ & -> & Hc). rewrite decide_True, decide_True by done.
    unfold upd_info, fm_core_error_to_ha, fail. wp_mod. wp_mod. apply wp_ret. split; [|split; [by left|by apply Hgen]]. split; [by apply Hok|split; [done|split; [done|]]]. by split_and!.
  - destruct Hout as (Ht & _ & _ & Hc). rewrite decide_True, decide_False by done.
    unfold fm_core_error_to_ha, fail. wp_step @eq_refl. wp_mod. apply wp_ret. split; [|split; [by left|by apply Hgen]]. split; [by apply Hok|split; [done|split; [done|]]].
    split_and!; [done..|]. by rewrite <-(wf_records _ _ (ho_wf _ _ H)).
  - destruct Hout as (Ht & _ & _ & Hc). rewrite decide_True, decide_False by done.
    unfold fm_core_error_to_ha, fail. wp_step @eq_refl. wp_mod. apply wp_ret. split; [|split; [by left|by apply Hgen]]. split; [by apply Hok|split; [done|split; [done|]]].
    split_and!; [done..|]. naive_solver.
Qed.

Lemma write_spec uint_korr sint_korr float_korr ha_keytype held d rec : handle_ok held d → held_in held (core d) →
  Z.of_nat (length rec) = reclength (core d) →
  wp (fm_write uint_korr sint_korr float_korr ha_keytype rec) (λ e d', handle_ok held d' ∧ kept (core d) (core d') ∧
    keydefs d' = keydefs d ∧ write_outcome d rec e d') d.
Proof. intros H Hin Hlen. eapply wp_mono; [by apply write_frame|]. by intros e d' [? _]. Qed.

(** * Reads at a position *)

Lemma row_ref_current s idx g : static_ok s → current (abs s) idx g ↔ ∃ rec, row_ref s idx g rec.
Proof. intros Hs. rewrite current_abs by done. unfold row_ref, is_Some. naive_solver. Qed.

Lemma read_row_ref held s idx g buf : wf held s → 0 ≤ idx < total_slots s → ∃ rc rec,
  fm_core_read_row idx true g buf s = Ret ((rc, rec), s) ∧
  ((rc = FM_ERR_OK ∧ row_ref s idx g rec) ∨ (rc = FM_ERR_DELETED ∧ ∀ r, ¬ row_ref s idx g r)).
Proof.
  intros Hwf Hi. destruct (read_row_abs held s idx g buf Hwf Hi) as (rc & rec & Hrun & Hcase). exists rc, rec.
  split; [done|]. destruct Hcase as [(-> & ? & ?)|[-> Hn]]; [by left|]. right. split; [done|].
  intros r Hr. apply Hn, row_ref_current; [apply Hwf|by eexists].
Qed.

(** A read at a position gives the row while the position denotes one, and reports the row
    deleted otherwise; a null position is the end of the file. *)
Lemma rrnd_spec held d buf slot g : handle_ok held d → FM_NULL_SLOT ≤ slot < total_slots (core d) → 0 ≤ g < 2 ^ 32 →
  wp (fm_rrnd buf (encode_ref slot g)) (λ r d', handle_ok held d' ∧ core d' = core d ∧
    match r.1 with
    | HA_OK => positioned d' slot g ∧ row_ref (core d) slot g r.2
    | HA_ERR_END_OF_FILE => slot = FM_NULL_SLOT ∧ my_errno d' = r.1
    | HA_ERR_RECORD_DELETED => slot ≠ FM_NULL_SLOT ∧ my_errno d' = r.1 ∧ ∀ rec, ¬ row_ref (core d) slot g rec
    | _ => False
    end) d.
Proof.
  intros H Hs Hg. pose proof (total_bound _ (wf_static _ _ (ho_wf _ _ H))) as Hb. unfold FM_NULL_SLOT in Hs.
  unfold fm_rrnd. rewrite decode_encode_ref by lia. unfold upd_info, fail. wp_mod.
  assert (Hok : ∀ d', core d' = core d → keydefs d' = keydefs d → FM_NULL_SLOT ≤ current_slot (info d') < total_slots (core d) →
    scan_pos (info d') = scan_pos (info d) → handle_ok held d').
  { intros d' E ? ? Es. eapply (handle_ok_step held held d); rewrite ?E, ?Es; [done|apply H|by constructor|done|done|apply H]. }
  case_decide as Hn.
  { wp_mod. wp_step @eq_refl. apply wp_ret. cbn. split_and!; [by apply Hok; [..|apply H|]|done|done|done]. }
  destruct (read_row_ref held (core d) slot g buf (ho_wf _ _ H) ltac:(lia)) as (rc & rec & Hrun & Hcase).
  wp_step @on_core_run; [exact Hrun|]. destruct Hcase as [[-> Hr]|[-> Hr]].
  - rewrite decide_False by naive_solver. wp_mod. apply wp_ret. cbn.
    split_and!; [by apply Hok; [..|cbn; unfold FM_NULL_SLOT; lia|]|done|done|done].
  - rewrite decide_True by done. wp_mod. wp_step @eq_refl. apply wp_ret. cbn.
    split_and!; [by apply Hok; [..|apply H|]|done|done|done|done].
Qed.

Lemma decode_slot_range held s slot g : wf held s → FM_NULL_SLOT ≤ slot < total_slots s →
  FM_NULL_SLOT ≤ (decode_ref (encode_ref slot g)).1 < total_slots s.
Proof.
  intros Hwf Hs. pose proof (total_bound _ (wf_static _ _ Hwf)). unfold FM_NULL_SLOT in *.
  unfold decode_ref, encode_ref. rewrite of_le32_le32 by apply u32_bound. cbn [fst]. unfold i32, u32. rewrite Zplus_mod_idemp_l.
  change ((slot + 2 ^ 31) mod 2 ^ 32 - 2 ^ 31) with (i32 slot). rewrite i32_small; lia.
Qed.

(** Whatever reference is in range, the read returns and keeps the handle in order. *)
Lemma rrnd_any held d buf pos : handle_ok held d → FM_NULL_SLOT ≤ (decode_ref pos).1 < total_slots (core d) →
  wp (fm_rrnd buf pos) (λ _ d', handle_ok held d') d.
Proof.
  intros H Hs. unfold fm_rrnd. destruct (decode_ref pos) as [slot g]. cbn [fst] in Hs. unfold upd_info, fail. wp_mod.
  assert (Hok : ∀ d', core d' = core d → keydefs d' = keydefs d → FM_NULL_SLOT ≤ current_slot (info d') < total_slots (core d) →
    scan_pos (info d') = scan_pos (info d) → handle_ok held d').
  { intros d' E ? ? Es. eapply (handle_ok_step held held d); rewrite ?E, ?Es; [done|apply H|by constructor|done|done|apply H]. }
  case_decide as Hn.
  { wp_mod. wp_step @eq_refl. apply wp_ret. by apply Hok; [..|apply H|]. }
  destruct (read_row_ref held (core d) slot g buf (ho_wf _ _ H)) as (rc & rec & Hrun & Hcase); [unfold FM_NULL_SLOT in *; lia|].
  wp_step @on_core_run; [exact Hrun|]. destruct Hcase as [[-> _]|[-> _]].
  - rewrite decide_False by naive_solver. wp_mod. apply wp_ret. by apply Hok.
  - rewrite decide_True by done. wp_mod. wp_step @eq_refl. apply wp_ret. by apply Hok; [..|apply H|].
Qed.

(** * Read checks *)

Lemma differ_false n (a b : bytes) : Z.of_nat (length a) = n → Z.of_nat (length b) = n → differ n a b = false ↔ a = b.
Proof. intros Ha Hb. unfold differ. rewrite bool_decide_eq_false, !take_ge by lia. split; [apply dec_stable|naive_solver]. Qed.

(** The check lets the operation go on exactly when it is off or the row is the caller's image. *)
Lemma verify_spec held d old idx g : handle_ok held d → positioned d idx g → 0 ≤ idx →
  Z.of_nat (length old) = reclength (core d) →
  wp (verify_image old) (λ v d', ∃ sc n, d' = d_errno n (d_info (in_scratch sc (info d)) d) ∧
    match v with
    | None => read_check (info d) = true → row_ref (core d) idx g old
    | Some e => read_check (info d) = true ∧ n = e ∧
        ((e = HA_ERR_RECORD_DELETED ∧ ∀ r, ¬ row_ref (core d) idx g r) ∨
         (e = HA_ERR_RECORD_CHANGED ∧ ∃ r, row_ref (core d) idx g r ∧ r ≠ old))
    end) d.
Proof.
  intros H [Hi Hg] H0 Hlen. unfold verify_image. wp_get. rewrite Hi, Hg. destruct (read_check (info d)) eqn:Hc.
  2: { apply wp_ret. exists (scratch (info d)), (my_errno d). split; [by destruct d as [? ? []]|done]. }
  destruct (read_row_ref held (core d) idx g (scratch (info d)) (ho_wf _ _ H)) as (rc & rec & Hrun & Hcase).
  { pose proof (ho_slot _ _ H). lia. }
  wp_step @on_core_run; [exact Hrun|]. unfold upd_info. wp_mod. destruct Hcase as [[-> Hr]|[-> Hr]].
  - rewrite decide_False by naive_solver. destruct (differ _ old rec) eqn:Hd.
    + wp_step @eq_refl. apply wp_ret. eexists rec, _. split; [by destruct d as [? ? []]|]. split_and!; [done..|]. right.
      split; [done|]. exists rec. split; [done|]. intros ->. unfold differ in Hd. by rewrite bool_decide_eq_true in Hd.
    + apply wp_ret. exists rec, (my_errno d). split; [by destruct d as [? ? []]|]. intros _.
      apply differ_false in Hd as ->; [done|done|]. destruct Hr as [Hr _]. rewrite table_lookup in Hr by apply (ho_wf _ _ H).
      apply row_at_Some in Hr as (sl & Hsl & Ha & <-). by apply (sk_data _ _ (wf_slots _ _ (ho_wf _ _ H) _ _ Hsl)).
  - rewrite decide_True by done. wp_step @eq_refl. apply wp_ret. eexists rec, _.
    split; [by destruct d as [? ? []]|]. split_and!; [done..|]. by left.
Qed.
(** * Update *)

(** The error of a failed call is in [my_errno]. *)
Definition reported (e : ha_err) (d' : dstate) : Prop := e = HA_OK ∨ my_errno d' = e.

Definition handle_update (d : dstate) (idx g : Z) (old new : bytes) (e : ha_err) (d' : dstate) : Prop :=
  match e with
  | HA_OK => row_ref (core d) idx g old ∧ table (core d') = <[idx := new]> (table (core d)) ∧
      row_ref (core d') idx g new ∧ positioned d' idx g
  | HA_ERR_RECORD_CHANGED => core d' = core d ∧ read_check (info d) = true ∧ ∃ r, row_ref (core d) idx g r ∧ r ≠ old
  | HA_ERR_RECORD_DELETED => table (core d') = table (core d) ∧ ∀ r, ¬ row_ref (core d) idx g r
  | HA_ERR_FOUND_DUPP_KEY => table (core d') = table (core d) ∧
      ∃ k, errkey (info d') = k + 1 ∧ 0 ≤ k < keys (core d) ∧ changed_key (core d) old new k ∧ conflict (core d) k new
  | _ => False
  end.

(** The image the caller passes as old is the row, unless a read check looks at it. *)
Definition old_image (d : dstate) (idx g : Z) (old : bytes) : Prop :=
  Z.of_nat (length old) = reclength (core d) ∧ (read_check (info d) = true ∨ ∀ r, row_ref (core d) idx g r → r = old).

Lemma quiet_kept held s s' : wf held s → quiet s s' → wf held s' ∧ table s' = table s ∧ kept s s'.
Proof.
  intros Hwf Q. destruct (quiet_wf _ _ _ Hwf Q) as [? ?]. split_and!; [done..|].
  apply kept_config; [by apply quiet_config|]. by rewrite (total_slots_erase _ _ (lk_erase _ _ (proj1 Q))).
Qed.

(** Generations are the same but for slot [idx]. *)
Definition gens_but (idx : Z) (s s' : FM_SHARE_CORE) : Prop := ∀ i, i ≠ idx → gen_at s' i = gen_at s i.

Lemma gens_but_refl idx s : gens_but idx s s.
Proof. done. Qed.

Lemma quiet_gens idx s s' : quiet s s' → gens_but idx s s'.
Proof. intros [L _] i _. unfold gen_at. by rewrite (lk_slot _ _ L). Qed.

Section update.
Context (uint_korr sint_korr float_korr : Z → bytes → Z) (ha_keytype : Z → auto_type).

(** What [fm_update] and [fm_update_locked] do once the core has answered. *)
Lemma finish_update_spec held d0 d idx g old new r c : handle_ok held d0 → positioned d0 idx g → 0 ≤ idx →
  (∃ sc n, d = d_errno n (d_info (in_scratch sc (info d0)) d0)) →
  update_outcome held (core d0) idx g old new 0 r c →
  wp (finish_update uint_korr sint_korr float_korr ha_keytype new r)
    (λ e d', (handle_ok held d' ∧ kept (core d0) (core d') ∧ reported e d' ∧ handle_update d0 idx g old new e d') ∧
       keydefs d' = keydefs d0 ∧ inx_kept d0 d' ∧ gens_but idx (core d0) (core d')) (d_core c d).
Proof.
  intros H Hpos H0 (sc & n & ->) Hout. destruct r as [rc ek]. unfold finish_update. unfold update_outcome in Hout.
  cbn [fst snd] in *. pose proof (ho_wf _ _ H) as Hwf. destruct rc; try done.
  - rewrite decide_False by naive_solver. destruct Hout as (_ & Ht & Hg & [Hwf' C Htot Ht' Hg'] & _). wp_get.
    pose proof (kept_config _ _ C ltac:(lia)) as K.
    wp_use (update_auto_spec uint_korr sint_korr float_korr ha_keytype held); [by eapply (handle_ok_core held held d0)|]. intros _ d2 (c2 & -> & A). cbn [core d_core] in A.
    destruct (auto_only_same _ _ A) as (At & Ag & Ak & Atot). unfold upd_info. wp_mod. apply wp_ret.
    assert (K2 : kept (core d0) c2) by by etrans; [exact K|].
    split; [|split; [done|split; [by left|intros i _; cbn; by rewrite Ag, Hg']]]. split_and!; [by eapply (handle_ok_core held held d0); [|by eapply auto_only_wf|..]|done|by left|].
    split_and!; [by split|cbn; congruence| |done]. split; cbn; [|by rewrite Ag, Hg']. by rewrite At, Ht', lookup_insert_eq.
  - destruct Hout as (Hek & Hn & Q). destruct (quiet_kept _ _ _ Hwf Q) as (? & Ht & ?).
    rewrite decide_True, decide_False by done. unfold fm_core_error_to_ha, fail. wp_step @eq_refl. wp_mod. apply wp_ret.
    split; [|split; [done|split; [by left|by apply quiet_gens]]]. split_and!; [by eapply (handle_ok_core held held d0)|done|by right|]. split; [done|]. intros r []. naive_solver.
  - destruct Hout as [(k & -> & Hk) Q]. destruct (quiet_kept _ _ _ Hwf Q) as (? & Ht & ?).
    rewrite decide_True, decide_True by done. unfold fm_core_error_to_ha, fail, upd_info. wp_mod. wp_mod. apply wp_ret.
    split; [|split; [done|split; [by left|by apply quiet_gens]]]. split_and!; [by eapply (handle_ok_core held held d0)|done|by right|]. split; [done|]. by exists k.
Qed.
Lemma verify_fail_spec held d idx g old new e sc : handle_ok held d → read_check (info d) = true →
  ((e = HA_ERR_RECORD_DELETED ∧ ∀ r, ¬ row_ref (core d) idx g r) ∨
   (e = HA_ERR_RECORD_CHANGED ∧ ∃ r, row_ref (core d) idx g r ∧ r ≠ old)) →
  let d' := d_errno e (d_info (in_scratch sc (info d)) d) in
  handle_ok held d' ∧ kept (core d) (core d') ∧ reported e d' ∧ handle_update d idx g old new e d'.
Proof.
  intros H Hc Hcase. cbv zeta. split_and!; [|by constructor|by right|].
  - eapply (handle_ok_core held held d); [done|apply H|by constructor|done..].
  - destruct Hcase as [[-> ?]|[-> ?]]; by split_and!.
Qed.

(** An update through a handle that verifies [old] first, for either entry point of the core. *)
Lemma update_with_spec held d idx g old new (m : Z → Z → bytes → SM (fm_err * Z)) : handle_ok held d → positioned d idx g → 0 ≤ idx →
  old_image d idx g old →
  (∀ sc, (∀ r, table (core d) !! idx = Some r → gen_at (core d) idx = Some g → r = old) →
     wp (m idx g sc) (update_outcome held (core d) idx g old new 0) (core d)) →
  wp (v ← verify_image old;
      match v with
      | Some e => mret e
      | None => d ← get; r ← on_core (m (current_slot (info d)) (current_gen (info d)) (scratch (info d)));
          finish_update uint_korr sint_korr float_korr ha_keytype new r
      end) (λ e d', (handle_ok held d' ∧ kept (core d) (core d') ∧ reported e d' ∧ handle_update d idx g old new e d') ∧
        keydefs d' = keydefs d ∧ inx_kept d d' ∧ gens_but idx (core d) (core d')) d.
Proof.
  intros H Hpos H0 [Hlen Hold] Hm. wp_use (verify_spec held d old idx g H Hpos H0 Hlen).
  intros v d1 (sc & n & -> & Hv). destruct v as [e|].
  - apply wp_ret. destruct Hv as (Hc & -> & Hcase). split; [by apply verify_fail_spec|]. by split; [|split; [left|]].
  - wp_get. cbn [info d_info d_errno in_scratch current_slot current_gen]. destruct Hpos as [Hi Hg]. rewrite Hi, Hg. wp_core Hm.
    { intros r Ht Hgr. destruct Hold as [Hc|Hold]; [|by apply Hold]. destruct (Hv Hc). congruence. }
    intros r d2 (c & -> & Hout). eapply finish_update_spec; [done|by split|done|by eexists _, _|exact Hout].
Qed.

Lemma update_spec held d idx g old new : handle_ok held d → positioned d idx g → 0 ≤ idx → idx ∉ held →
  old_image d idx g old → Z.of_nat (length new) = reclength (core d) →
  wp (fm_update uint_korr sint_korr float_korr ha_keytype old new)
    (λ e d', handle_ok held d' ∧ kept (core d) (core d') ∧ reported e d' ∧ handle_update d idx g old new e d') d.
Proof.
  intros H Hpos H0 Hh Ho Hlen. pose proof (ho_slot _ _ H). destruct (id Hpos) as [Hi _].
  eapply wp_mono; [apply (update_with_spec held d idx g old new (λ i g sc, fm_core_update_row i g old new 0 sc)); [done..|]|by intros e d' [? _]].
  intros sc Hr. apply update_row_spec; try done; [apply H|lia].
Qed.

Lemma update_locked_frame held d idx g old new : handle_ok held d → positioned d idx g → 0 ≤ idx →
  old_image d idx g old → Z.of_nat (length new) = reclength (core d) →
  wp (fm_update_locked uint_korr sint_korr float_korr ha_keytype old new)
    (λ e d', (handle_ok held d' ∧ kept (core d) (core d') ∧ reported e d' ∧ handle_update d idx g old new e d') ∧
       keydefs d' = keydefs d ∧ inx_kept d d' ∧ gens_but idx (core d) (core d')) d.
Proof.
  intros H Hpos H0 Ho Hlen. pose proof (ho_slot _ _ H). destruct (id Hpos) as [Hi _].
  apply (update_with_spec held d idx g old new (λ i g sc, fm_core_update_row_locked i g old new 0 sc)); [done..|].
  intros sc Hr. apply update_row_locked_spec; try done; [apply H|lia].
Qed.

Lemma update_locked_spec held d idx g old new : handle_ok held d → positioned d idx g → 0 ≤ idx →
  old_image d idx g old → Z.of_nat (length new) = reclength (core d) →
  wp (fm_update_locked uint_korr sint_korr float_korr ha_keytype old new)
    (λ e d', handle_ok held d' ∧ kept (core d) (core d') ∧ reported e d' ∧ handle_update d idx g old new e d') d.
Proof. intros. eapply wp_mono; [by apply update_locked_frame|]. by intros e d' [? _]. Qed.

End update.

(** * Delete *)

Definition handle_delete (d : dstate) (idx g : Z) (buf : bytes) (e : ha_err) (d' : dstate) : Prop :=
  match e with
  | HA_OK => (∃ r, row_ref (core d) idx g r ∧ (read_check (info d) = true → r = buf)) ∧
      table (core d') = delete idx (table (core d)) ∧ gen_at (core d') idx = Some (u32 (g + 1)) ∧
      current_slot (info d') = FM_NULL_SLOT ∧ scan_pos (info d') = scan_pos (info d)
  | HA_ERR_RECORD_CHANGED => core d' = core d ∧ read_check (info d) = true ∧ ∃ r, row_ref (core d) idx g r ∧ r ≠ buf
  | HA_ERR_RECORD_DELETED => core d' = core d ∧ ∀ r, ¬ row_ref (core d) idx g r
  | _ => False
  end.

(** A delete through a handle, for either entry point of the core. *)
Lemma delete_with_spec held d idx g buf (m : Z → Z → SM fm_err) : handle_ok held d → positioned d idx g → 0 ≤ idx →
  Z.of_nat (length buf) = reclength (core d) → wp (m idx g) (delete_outcome held (core d) idx g) (core d) →
  wp (v ← verify_image buf;
      match v with
      | Some e => mret e
      | None => d ← get; rc ← on_core (m (current_slot (info d)) (current_gen (info d))); finish_delete rc
      end) (λ e d', (handle_ok held d' ∧ kept (core d) (core d') ∧ reported e d' ∧ handle_delete d idx g buf e d') ∧
        keydefs d' = keydefs d ∧ inx_kept d d' ∧ gens_but idx (core d) (core d')) d.
Proof.
  intros H Hpos H0 Hlen Hm. wp_use (verify_spec held d buf idx g H Hpos H0 Hlen).
  intros v d1 (sc & n & -> & Hv). destruct v as [e|].
  { apply wp_ret. destruct Hv as (Hc & -> & Hcase). split; [|by split; [|split; [left|]]].
    split_and!; [eapply (handle_ok_core held held d); [done|apply H|by constructor|done..]|by constructor|by right|].
    destruct Hcase as [[-> ?]|[-> ?]]; by split_and!. }
  wp_get. cbn [info d_info d_errno in_scratch current_slot current_gen]. destruct Hpos as [Hi Hg]. rewrite Hi, Hg. wp_core Hm.
  intros rc d2 (c & -> & [(-> & [r Hr] & Hgr & [Hwf C Htot Ht Hgen])|(-> & Hn & ->)]); unfold finish_delete.
  - rewrite decide_False by naive_solver. unfold upd_info. wp_mod. apply wp_ret.
    pose proof (ho_scan _ _ H). pose proof (ho_slot _ _ H). pose proof (kept_config _ _ C ltac:(lia)) as K. cbn.
    split; [|split; [done|split; [by left|intros i Hi'; cbn; by rewrite Hgen, decide_False]]]. split; [|split; [done|split; [by left|]]].
    + eapply (handle_ok_step held held d); cbn; [done..|unfold FM_NULL_SLOT; lia|lia].
    + split_and!; [|done| |done|done].
      * exists r. split; [done|]. intros Hc. destruct (Hv Hc). congruence.
      * cbn. by rewrite Hgen, decide_True, Hgr by done.
  - rewrite decide_True by done. unfold fm_core_error_to_ha, fail. wp_mod. apply wp_ret. split; [|by split; [|split; [left|]]].
    split_and!; [eapply (handle_ok_core held held d); [done|apply H|by constructor|done..]|by constructor|by right|].
    split; [done|]. intros r []. naive_solver.
Qed.

Lemma delete_spec held d idx g buf : handle_ok held d → positioned d idx g → 0 ≤ idx → idx ∉ held →
  Z.of_nat (length buf) = reclength (core d) →
  wp (fm_delete buf) (λ e d', handle_ok held d' ∧ kept (core d) (core d') ∧ reported e d' ∧ handle_delete d idx g buf e d') d.
Proof.
  intros H Hpos H0 Hh Hlen. pose proof (ho_slot _ _ H). destruct (id Hpos) as [Hi _].
  eapply wp_mono; [apply delete_with_spec; [done..|]|by intros e d' [? _]]. apply delete_row_spec; [apply H|lia|done].
Qed.

Lemma delete_locked_frame held d idx g buf : handle_ok held d → positioned d idx g → 0 ≤ idx →
  Z.of_nat (length buf) = reclength (core d) →
  wp (fm_delete_locked buf) (λ e d', (handle_ok held d' ∧ kept (core d) (core d') ∧ reported e d' ∧ handle_delete d idx g buf e d') ∧
    keydefs d' = keydefs d ∧ inx_kept d d' ∧ gens_but idx (core d) (core d')) d.
Proof.
  intros H Hpos H0 Hlen. pose proof (ho_slot _ _ H). destruct (id Hpos) as [Hi _].
  apply delete_with_spec; [done..|]. apply delete_row_locked_spec; [apply H|lia].
Qed.

Lemma delete_locked_spec held d idx g buf : handle_ok held d → positioned d idx g → 0 ≤ idx →
  Z.of_nat (length buf) = reclength (core d) →
  wp (fm_delete_locked buf) (λ e d', handle_ok held d' ∧ kept (core d) (core d') ∧ reported e d' ∧ handle_delete d idx g buf e d') d.
Proof. intros. eapply wp_mono; [by apply delete_locked_frame|]. by intros e d' [? _]. Qed.

(** * Scans *)

(** A client's full scan: each row with the position the handle then has. *)
Fixpoint scan_rest (fuel : nat) (buf : bytes) : DM (list (bytes * bytes)) :=
  match fuel with
  | O => hang
  | S fuel' =>
      '(e, rec) ← fm_scan buf;
      if decide (e = HA_OK) then
        pos ← fm_set_position; rest ← scan_rest fuel' rec; mret ((pos, rec) :: rest)
      else mret []
  end.

(** The rows of the slots from [pos] on, in slot order, with their references. *)
Definition refs_from (s : FM_SHARE_CORE) (pos : Z) : list (bytes * bytes) :=
  omap (λ i, rec ← row_at s i; g ← gen_at s i; Some (encode_ref i g, rec)) (seqZ pos (total_slots s - pos)).

Lemma refs_from_skip s pos pos' : 0 ≤ pos ≤ pos' → pos' ≤ total_slots s →
  (∀ j, pos ≤ j < pos' → row_at s j = None) → refs_from s pos = refs_from s pos'.
Proof.
  intros H1 H2 Hn. unfold refs_from.
  replace (total_slots s - pos) with ((pos' - pos) + (total_slots s - pos')) by lia.
  rewrite seqZ_app, omap_app by lia. replace (pos + (pos' - pos)) with pos' by lia.
  assert (He : ∀ l : list Z, (∀ j, j ∈ l → row_at s j = None) →
    omap (λ i, rec ← row_at s i; g ← gen_at s i; Some (encode_ref i g, rec)) l = []).
  { induction l as [|x l IH]; intros Hl; [done|]. simpl. rewrite Hl by apply list_elem_of_here. apply IH.
    intros j Hj. by apply Hl, list_elem_of_further. }
  rewrite He; [done|]. intros j [? ?]%elem_of_seqZ. apply Hn. lia.
Qed.

Lemma refs_from_cons s pos rec g : 0 ≤ pos < total_slots s → row_at s pos = Some rec → gen_at s pos = Some g →
  refs_from s pos = (encode_ref pos g, rec) :: refs_from s (pos + 1).
Proof.
  intros Hp Hr Hg. unfold refs_from. rewrite seqZ_cons by lia. simpl. rewrite Hr, Hg. simpl.
  replace (Z.pred (total_slots s - pos)) with (total_slots s - (pos + 1)) by lia.
  by replace (Z.succ pos) with (pos + 1) by lia.
Qed.

(** One step of a scan: the next row at or after the cursor, with the handle on it. *)
Lemma scan_spec held d buf : handle_ok held d →
  wp (fm_scan buf) (λ r d', handle_ok held d' ∧ core d' = core d ∧ keydefs d' = keydefs d ∧
    ((r.1 = HA_OK ∧ scan_pos (info d) < scan_pos (info d') ≤ total_slots (core d) ∧
        current_slot (info d') = scan_pos (info d') - 1 ∧
        row_ref (core d) (current_slot (info d')) (current_gen (info d')) r.2 ∧
        ∀ j, scan_pos (info d) ≤ j < scan_pos (info d') - 1 → row_at (core d) j = None) ∨
     (r.1 = HA_ERR_END_OF_FILE ∧ my_errno d' = r.1 ∧
        ∀ j, scan_pos (info d) ≤ j < total_slots (core d) → row_at (core d) j = None))) d.
Proof.
  intros H. pose proof (ho_wf _ _ H) as Hwf. pose proof (ho_scan _ _ H) as Hsc. pose proof (total_bound _ (wf_static _ _ Hwf)) as Hb.
  destruct (scan_next_run held (core d) Hwf (scan_pos (info d)) buf Hsc) as (rc & pos & rec & Hrun & Hpos & Hcase).
  unfold fm_scan. wp_get. wp_step @on_core_run; [exact Hrun|]. rewrite d_core_id. unfold upd_info, fail. wp_mod.
  destruct Hcase as [(-> & Hlt & Hrow & Hskip)|(-> & -> & Hskip)].
  - rewrite decide_False by naive_solver. cbv zeta. rewrite u32_small, i32_small by lia.
    destruct (gen_at_is_Some (core d) (pos - 1) (wf_static _ _ Hwf) ltac:(lia)) as [g Hg].
    wp_step @on_core_run; [by apply slot_gen_run|]. wp_mod. apply wp_ret. cbn.
    split; [|split; [done|split; [done|left]]].
    + eapply (handle_ok_step held held d); cbn; [done..| |done|unfold FM_NULL_SLOT; lia|lia]. by constructor.
    + split; [done|]. split; [lia|]. split; [done|]. split; [|done]. split; [|done]. by rewrite table_lookup by apply Hwf.
  - rewrite decide_True by done. wp_mod. wp_step @eq_refl. apply wp_ret. cbn.
    split; [|split; [done|split; [done|by right]]].
    eapply (handle_ok_step held held d); cbn; [done|done|by constructor|done|apply H|lia].
Qed.

Lemma scan_rest_spec held fuel : ∀ d buf, handle_ok held d →
  (Z.to_nat (total_slots (core d) - scan_pos (info d)) < fuel)%nat →
  wp (scan_rest fuel buf) (λ rows d', handle_ok held d' ∧ core d' = core d ∧ rows = refs_from (core d) (scan_pos (info d))) d.
Proof.
  induction fuel as [|fuel IH]; intros d buf H Hf; [lia|]. cbn [scan_rest]. pose proof (ho_wf _ _ H) as Hwf.
  pose proof (ho_scan _ _ H) as Hsc. pose proof (total_bound _ (wf_static _ _ Hwf)) as Hb.
  wp_use (scan_spec held d buf H). intros [e rec] d1 (H1 & Ec & _ & Hcase). cbn [fst snd] in *.
  destruct Hcase as [(-> & Hlt & Hcur & [Hrow Hg] & Hskip)|(-> & _ & Hskip)].
  - rewrite decide_True by done. wp_step @eq_refl. wp_use (IH d1 rec H1); [rewrite Ec; lia|].
    intros rows d' (H' & Ec' & ->). apply wp_ret. split_and!; [done|congruence|]. rewrite Ec. rewrite table_lookup in Hrow by apply Hwf.
    rewrite Hcur in *. rewrite (refs_from_skip _ (scan_pos (info d)) (scan_pos (info d1) - 1)) by (lia || done).
    rewrite (refs_from_cons _ (scan_pos (info d1) - 1) rec (current_gen (info d1))) by (lia || done).
    by replace (scan_pos (info d1) - 1 + 1) with (scan_pos (info d1)) by lia.
  - rewrite decide_False by done. apply wp_ret. split_and!; [done|done|].
    rewrite (refs_from_skip _ (scan_pos (info d)) (total_slots (core d))) by (lia || done).
    unfold refs_from. by rewrite Z.sub_diag.
Qed.

(** * Lookups *)

(** [ms] lists the rows that match [pk] under key [k], in the order of the chain of [pk]. *)
Definition chain_matches (s : FM_SHARE_CORE) (k : Z) (kc : FM_KEY_CORE) (pk : bytes) (ms : list Z) : Prop :=
  ∃ h l, head_at s k (key_bucket kc pk) = Some h ∧ linked (fm_key_next s k) h l ∧ NoDup l ∧
    (∀ i, i ∈ l → 0 ≤ i < total_slots s) ∧ (length l < walk_fuel s)%nat ∧ ms = filter (row_matches s (ops kc) pk) l ∧
    ∀ i, row_matches s (ops kc) pk i → i ∈ l.

Lemma chain_matches_ex held s k kc pk : wf held s → 0 ≤ k < keys s → key_at s k = Some kc → ∃ ms, chain_matches s k kc pk ms.
Proof.
  intros Hwf Hk Hkc. destruct (lookup_chain held s Hwf k Hk kc Hkc pk) as (h & l & ? & ? & ? & ? & ? & ?).
  eexists. by exists h, l.
Qed.

(** The list is complete, sound and without repetition. *)
Lemma chain_matches_spec s k kc pk ms : static_ok s → chain_matches s k kc pk ms →
  NoDup ms ∧ ∀ i, i ∈ ms ↔ ∃ rec, table s !! i = Some rec ∧ matches_key (ops kc) rec pk.
Proof.
  intros Hs (h & l & _ & _ & Hnd & _ & _ & -> & Hall). split; [by apply NoDup_filter|]. intros i.
  rewrite list_elem_of_filter, table_lookup by done. unfold row_matches in *.
  split; [intros [Hm _]; destruct (row_at s i); [by eexists|done]|]. intros (rec & Hr & Hm).
  assert (row_matches s (ops kc) pk i) by (unfold row_matches; by rewrite Hr). split; [by rewrite Hr|]. by apply Hall.
Qed.

(** The position of the handle on the first of [ms], or the error [e] on the empty list. *)
Definition found (d d' : dstate) (inx : Z) (e : ha_err) (ms : list Z) (r : ha_err * bytes) : Prop :=
  match ms with
  | [] => r.1 = e ∧ my_errno d' = e ∧ current_slot (info d') = current_slot (info d)
  | i :: _ => r.1 = HA_OK ∧ current_slot (info d') = i ∧ lastinx (info d') = inx ∧
      row_ref (core d) i (current_gen (info d')) r.2
  end.

Lemma list_find_head {A} (P : A → Prop) `{∀ x, Decision (P x)} l :
  match list_find P l with Some (_, x) => ∃ l', filter P l = x :: l' | None => filter P l = [] end.
Proof.
  destruct (list_find P l) as [[n x]|] eqn:Hf; [|by apply list_find_None_filter].
  destruct (list_find_split _ _ _ _ Hf) as (l1 & l2 & _ & _ & ->). by eexists.
Qed.

(** Setting the position of a handle to a row that exists keeps the handle in order. *)
Lemma handle_ok_found held d d' i : handle_ok held d → core d' = core d → keydefs d' = keydefs d →
  0 ≤ i < total_slots (core d) → current_slot (info d') = i → scan_pos (info d') = scan_pos (info d) → handle_ok held d'.
Proof.
  intros H Ec Ek Hi Es Ep. eapply (handle_ok_step held held d); rewrite ?Ec, ?Es, ?Ep; [done|apply H|by constructor|done| |apply H].
  unfold FM_NULL_SLOT. lia.
Qed.

Lemma handle_ok_same held d d' : handle_ok held d → core d' = core d → keydefs d' = keydefs d →
  current_slot (info d') = current_slot (info d) → scan_pos (info d') = scan_pos (info d) → handle_ok held d'.
Proof. intros H Ec ? ? ?. eapply (handle_ok_core held held d); rewrite ?Ec; [done|apply H|by constructor|done..]. Qed.

(** The key is kept for [index_next] when the key is not unique (or has NULL parts). *)
Definition keeps_key (kd : FM_KEYDEF) : bool := negb (flag_nosame kd && negb (flag_null_part kd)).

Lemma find_key_spec held d inx kc kd pk buf ms : handle_ok held d → 0 ≤ inx < keys (core d) →
  key_at (core d) inx = Some kc → arr_get (keydefs d) inx = Some kd → chain_matches (core d) inx kc pk ms →
  wp (fm_find_key inx pk buf) (λ r d', handle_ok held d' ∧ core d' = core d ∧ keydefs d' = keydefs d ∧
    found d d' inx HA_ERR_KEY_NOT_FOUND ms r ∧
    (ms ≠ [] → keeps_key kd = true → lastkey (info d') = take (Z.to_nat (kd_length kd)) pk ∧ lastkey_len (info d') = kd_length kd)) d.
Proof.
  intros H Hk Hkc Hkd (h & l & Hh & Hl & Hnd & Hin & Hf & -> & _). pose proof (ho_wf _ _ H) as Hwf.
  destruct (fm_core_find_run held (core d) Hwf inx Hk kc Hkc pk buf (-1) l ltac:(eauto) Hin Hf) as (buf' & Hrun & Hrow).
  unfold fm_find_key. wp_step @on_core_run; [by apply deref_key_run|]. rewrite d_core_id. wp_step @on_core_run; [exact Hrun|].
  rewrite d_core_id. pose proof (list_find_head (row_matches (core d) (ops kc) pk) l) as Hhd.
  destruct (list_find _ l) as [[n i]|] eqn:Hfind.
  - destruct Hhd as [l' Hfl]. rewrite Hfl. specialize (Hrow n i eq_refl). pose proof (row_at_range _ _ _ (wf_static _ _ Hwf) Hrow) as Hi.
    destruct (gen_at_is_Some _ _ (wf_static _ _ Hwf) Hi) as [g Hg].
    rewrite decide_False by naive_solver. wp_get. wp_step @unwrap_run; [exact Hkd|].
    assert (Hlaws : is_Some (hash_rec (ops kc))).
    { destruct (key_at_is_Some _ _ (wf_static _ _ Hwf) Hk) as (? & ? & ? & _ & _ & []). by simplify_eq. }
    destruct Hlaws as [f ->].
    set (m := if flag_nosame kd && _ then _ else _).
    assert (Hm : ∃ d1, m d = Ret (tt, d1) ∧ core d1 = core d ∧ keydefs d1 = keydefs d ∧ scan_pos (info d1) = scan_pos (info d) ∧
      (keeps_key kd = true → lastkey (info d1) = take (Z.to_nat (kd_length kd)) pk ∧ lastkey_len (info d1) = kd_length kd)).
    { unfold m, keeps_key. destruct (flag_nosame kd && _); eexists; (split; [reflexivity|]); by split_and!. }
    destruct Hm as (d1 & Hm & Ec & Ek & Ep & Hkeep). wp_step Hm.
    wp_step @on_core_run; [apply slot_gen_run; by rewrite Ec|]. rewrite d_core_id. unfold upd_info. wp_mod. apply wp_ret.
    split; [by eapply handle_ok_found; [|done..|cbn; by rewrite Ep]|].
    split; [done|]. split; [done|]. split; [|by intros _ Hkk; apply Hkeep].
    split_and!; [done..|]. split; [|done]. by rewrite table_lookup by apply Hwf.
  - rewrite Hhd. rewrite decide_True by done. unfold upd_info, fail. wp_mod. wp_step @eq_refl. apply wp_ret.
    split; [by eapply handle_ok_same|]. by split_and!.
Qed.
Lemma filter_split {A} (P : A → Prop) `{∀ x, Decision (P x)} (l l1 : list A) x l2 : filter P l = l1 ++ x :: l2 →
  ∃ m1 m2, l = m1 ++ x :: m2 ∧ filter P m2 = l2.
Proof.
  revert l1. induction l as [|y l IH]; intros l1 Hf; [by destruct l1|]. rewrite filter_cons in Hf. case_decide as Hy.
  - destruct l1 as [|z l1]; injection Hf as <- Hf; [by exists [], l|].
    destruct (IH l1 Hf) as (m1 & m2 & -> & <-). by exists (y :: m1), m2.
  - destruct (IH l1 Hf) as (m1 & m2 & -> & <-). by exists (y :: m1), m2.
Qed.

(** From a match, the next match on the chain; the key is kept. *)
Lemma find_next_key_spec held d inx kc kd pk cur buf l1 l2 : handle_ok held d → 0 ≤ inx < keys (core d) →
  key_at (core d) inx = Some kc → arr_get (keydefs d) inx = Some kd →
  chain_matches (core d) inx kc pk (l1 ++ cur :: l2) →
  wp (fm_find_next_key inx pk cur buf) (λ r d', handle_ok held d' ∧ core d' = core d ∧ keydefs d' = keydefs d ∧
    found d d' inx HA_ERR_KEY_NOT_FOUND l2 r ∧ (r.1 ≠ HA_OK → update (info d') = [HA_STATE_NEXT_FOUND]) ∧
    (l2 ≠ [] → lastkey (info d) = pk → Z.of_nat (length pk) = kd_length kd → lastkey (info d') = pk)) d.
Proof.
  intros H Hk Hkc Hkd (h & l & Hh & Hl & Hnd & Hin & Hf & Hms & _). pose proof (ho_wf _ _ H) as Hwf.
  symmetry in Hms. destruct (filter_split _ _ _ _ _ Hms) as (m1 & m2 & Hsp & <-). clear Hms.
  destruct (fm_core_find_next_run held (core d) Hwf inx Hk kc Hkc pk cur buf (-1) l ltac:(eauto) Hnd Hin Hf) as (buf' & Hrun & Hrow).
  assert (Hc : cur ∉ m1). { rewrite Hsp in Hnd. apply NoDup_app in Hnd as (_ & Hd & _). intros Hx. apply (Hd _ Hx), list_elem_of_here. }
  rewrite Hsp, after_slot_app in Hrun, Hrow by done. unfold fm_find_next_key. wp_step @on_core_run; [exact Hrun|].
  rewrite d_core_id. pose proof (list_find_head (row_matches (core d) (ops kc) pk) m2) as Hhd.
  destruct (list_find _ m2) as [[n i]|] eqn:Hfind.
  - destruct Hhd as [l' Hfl]. rewrite Hfl. specialize (Hrow n i eq_refl). pose proof (row_at_range _ _ _ (wf_static _ _ Hwf) Hrow) as Hi.
    destruct (gen_at_is_Some _ _ (wf_static _ _ Hwf) Hi) as [g Hg].
    rewrite decide_False by naive_solver. wp_get. wp_step @unwrap_run; [exact Hkd|].
    set (m := if _ || _ then _ else _).
    assert (Hm : ∃ d1, m d = Ret (tt, d1) ∧ core d1 = core d ∧ keydefs d1 = keydefs d ∧ scan_pos (info d1) = scan_pos (info d) ∧
      (lastkey (info d) = pk → Z.of_nat (length pk) = kd_length kd → lastkey (info d1) = pk)).
    { unfold m. destruct (_ || _); eexists; (split; [reflexivity|]); split_and!; try done.
      cbn. intros _ Hlen. apply take_ge. lia. }
    destruct Hm as (d1 & Hm & Ec & Ek & Ep & Hkeep). wp_step Hm.
    wp_step @on_core_run; [apply slot_gen_run; by rewrite Ec|]. rewrite d_core_id. unfold upd_info. wp_mod. apply wp_ret.
    split; [by eapply handle_ok_found; [|done..|cbn; by rewrite Ep]|].
    split; [done|]. split; [done|]. split; [|by split_and!].
    split_and!; [done..|]. split; [|done]. by rewrite table_lookup by apply Hwf.
  - rewrite Hhd. rewrite decide_True by done. unfold upd_info, fail. wp_mod. wp_step @eq_refl. apply wp_ret.
    split; [by eapply handle_ok_same|]. by split_and!.
Qed.

(** * Re-read under the slot lock *)

(** The re-read returns the row the slot holds now and adopts its generation. *)
Lemma reread_spec held d buf : handle_ok held d → 0 ≤ current_slot (info d) →
  wp (fm_reread_locked buf) (λ r d', handle_ok held d' ∧ core d' = core d ∧ keydefs d' = keydefs d ∧
    current_slot (info d') = current_slot (info d) ∧ read_check (info d') = read_check (info d) ∧
    lastkey (info d') = lastkey (info d) ∧ lastinx (info d') = lastinx (info d) ∧
    ((r.1 = FM_ERR_OK ∧ row_ref (core d) (current_slot (info d)) (current_gen (info d')) r.2) ∨
     (r.1 = FM_ERR_DELETED ∧ table (core d) !! current_slot (info d) = None))) d.
Proof.
  intros H H0. pose proof (ho_wf _ _ H) as Hwf. pose proof (ho_slot _ _ H) as Hs. unfold fm_reread_locked. wp_get. cbv zeta.
  destruct (gen_at_is_Some (core d) (current_slot (info d)) (wf_static _ _ Hwf) ltac:(lia)) as [g Hg].
  wp_step @on_core_run; [by apply slot_gen_run|]. rewrite d_core_id.
  destruct (read_row_ref held (core d) (current_slot (info d)) g buf Hwf ltac:(lia)) as (rc & rec & Hrun & Hcase).
  wp_step @on_core_run; [exact Hrun|]. rewrite d_core_id. destruct Hcase as [[-> Hr]|[-> Hn]].
  - rewrite decide_True by done. unfold upd_info. wp_mod. apply wp_ret. cbn.
    split; [by eapply handle_ok_same|]. do 6 (split; [done|]). by left.
  - rewrite decide_False by done. wp_step @eq_refl. apply wp_ret. cbn.
    split; [done|]. do 6 (split; [done|]). right. split; [done|].
    destruct (table (core d) !! current_slot (info d)) eqn:Ht; [|done]. by destruct (Hn l).
Qed.
(** While the position still denotes its row, the re-read finds that row again. *)
Lemma reread_current held d rec buf : handle_ok held d → 0 ≤ current_slot (info d) →
  row_ref (core d) (current_slot (info d)) (current_gen (info d)) rec → fm_reread_locked buf d = Ret ((FM_ERR_OK, rec), d).
Proof.
  intros H H0 [Ht Hg]. pose proof (ho_slot _ _ H) as Hs. unfold fm_reread_locked. rewrite (bind_Ret _ _ _ _ _ (get_run _)). cbv zeta.
  rewrite (bind_Ret _ _ _ _ _ (on_core_run _ _ _ _ (slot_gen_run _ _ _ Hg))), d_core_id.
  destruct (read_row_ref held (core d) _ (current_gen (info d)) buf (ho_wf _ _ H) (conj H0 (proj2 Hs))) as (rc & r & Hrun & Hcase).
  rewrite (bind_Ret _ _ _ _ _ (on_core_run _ _ _ _ Hrun)), d_core_id.
  destruct Hcase as [[-> [Hr _]]|[-> Hn]]; [|by destruct (Hn rec)]. assert (r = rec) as -> by congruence.
  by destruct d as [? ? []].
Qed.

(** * Properties *)

(** References.  The eight bytes that [fm_set_position] packs give back, in [fm_rrnd], the
    slot (any 32-bit signed value, -1 included) and the generation. *)
Theorem ref_roundtrip slot g : - 2 ^ 31 ≤ slot < 2 ^ 31 → 0 ≤ g < 2 ^ 32 →
  decode_ref (encode_ref slot g) = (slot, g) ∧ length (encode_ref slot g) = 8%nat.
Proof. intros. split; [by apply decode_encode_ref|done]. Qed.

(** C34: Insert through a handle.  [fm_write] returns a code that says what happened to the
    table: stored in a slot that was free, with the handle then on that row under its current
    generation; or refused - duplicate, limit, memory - with the table unchanged and the code
    in [my_errno].  The invariant of the handle and the share is kept. *)
Theorem fm_write_correct uint_korr sint_korr float_korr ha_keytype held d rec :
  handle_ok held d → held_in held (core d) → Z.of_nat (length rec) = reclength (core d) →
  wp (fm_write uint_korr sint_korr float_korr ha_keytype rec) (λ e d', handle_ok held d' ∧ write_outcome d rec e d') d.
Proof. intros H Hin Hl. eapply wp_mono; [by apply write_spec|]. by intros e d' (? & _ & _ & ?). Qed.

(** Update through a handle.  [fm_update] replaces the row the handle is on exactly when the
    position is current, the row still has the caller's image if read checks are on, and no
    unique key is repeated; otherwise it reports which of these failed and changes no row. *)
Theorem fm_update_correct uint_korr sint_korr float_korr ha_keytype d idx g old new :
  handle_ok ∅ d → positioned d idx g → 0 ≤ idx → old_image d idx g old → Z.of_nat (length new) = reclength (core d) →
  wp (fm_update uint_korr sint_korr float_korr ha_keytype old new)
    (λ e d', handle_ok ∅ d' ∧ reported e d' ∧ handle_update d idx g old new e d') d.
Proof. intros. eapply wp_mono; [by apply update_spec|]. by intros e d' (? & _ & ? & ?). Qed.

(** Delete through a handle.  [fm_delete] removes the row the handle is on exactly when the
    position is current and, with read checks, the row still has the caller's image; the handle
    then has no row.  Otherwise the share is untouched and the code says why. *)
Theorem fm_delete_correct d idx g buf :
  handle_ok ∅ d → positioned d idx g → 0 ≤ idx → Z.of_nat (length buf) = reclength (core d) →
  wp (fm_delete buf) (λ e d', handle_ok ∅ d' ∧ reported e d' ∧ handle_delete d idx g buf e d') d.
Proof. intros. eapply wp_mono; [by apply delete_spec|]. by intros e d' (? & _ & ? & ?). Qed.

(** C31: Write, remember, read back.  After a successful [fm_write], the reference that
    [fm_set_position] gives reads back, in [fm_rrnd], the very record. *)
Theorem write_position_read uint_korr sint_korr float_korr ha_keytype d rec buf :
  handle_ok ∅ d → Z.of_nat (length rec) = reclength (core d) →
  wp (e ← fm_write uint_korr sint_korr float_korr ha_keytype rec; pos ← fm_set_position; r ← fm_rrnd buf pos; mret (e, r))
    (λ r d', handle_ok ∅ d' ∧ (r.1 = HA_OK → r.2 = (HA_OK, rec))) d.
Proof.
  intros H Hl. wp_use (write_spec uint_korr sint_korr float_korr ha_keytype ∅ d rec H (held_in_empty _) Hl). intros e d1 (H1 & _ & _ & Hout).
  unfold fm_set_position. wp_step @eq_refl. cbn [info]. pose proof (ho_slot _ _ H1) as Hs.
  assert (Hw : wp (fm_rrnd buf (encode_ref (current_slot (info d1)) (current_gen (info d1))))
    (λ r d', handle_ok ∅ d' ∧ (e = HA_OK → r = (HA_OK, rec))) d1).
  { destruct (decide (e = HA_OK)) as [->|Hne].
    - destruct Hout as (idx & g & [Hi Hgi] & _ & _ & Hr). rewrite Hi, Hgi in *. pose proof (gen_at_bound _ _ _ _ (ho_wf _ _ H1) (proj2 Hr)) as Hg.
      eapply wp_mono; [by apply (rrnd_spec ∅ d1 buf idx g H1)|]. intros [e rec'] d2 (H2 & _ & Hcase). split; [done|]. intros _.
      cbn [fst snd] in *. destruct Hr as [Ht Hgr].
      assert (Hn : idx ≠ FM_NULL_SLOT).
      { intros ->. rewrite table_lookup, row_at_out in Ht; [done|apply (ho_wf _ _ H1)|unfold FM_NULL_SLOT; lia|apply (ho_wf _ _ H1)]. }
      destruct e; try done; [destruct Hcase as (_ & Ht' & _); congruence|destruct Hcase as (_ & _ & Hx); by destruct (Hx rec)
        |by destruct Hcase].
    - eapply wp_mono; [apply (rrnd_any ∅ d1 buf); [done|apply (decode_slot_range ∅); [apply H1|done]]|]. intros r d2 H2. by split. }
  wp_use Hw. intros r d2 [H2 Hr]. apply wp_ret. cbn. split; [done|]. intros ->. by apply Hr.
Qed.

(** A reference to a deleted row.  After a successful [fm_delete], reading at the reference
    the row had reports the record deleted. *)
Theorem deleted_ref_rejected d idx g buf buf' :
  handle_ok ∅ d → positioned d idx g → 0 ≤ idx → Z.of_nat (length buf) = reclength (core d) →
  wp (e ← fm_delete buf; r ← fm_rrnd buf' (encode_ref idx g); mret (e, r))
    (λ r d', handle_ok ∅ d' ∧ (r.1 = HA_OK → r.2.1 = HA_ERR_RECORD_DELETED)) d.
Proof.
  intros H Hpos H0 Hl. pose proof (ho_slot _ _ H) as Hs. destruct (id Hpos) as [Hcur _].
  wp_use (delete_spec ∅ d idx g buf H Hpos H0 ltac:(set_solver) Hl). intros e d1 (H1 & K & _ & Hout).
  pose proof (kp_total _ _ K) as Htot.
  assert (Hw : wp (fm_rrnd buf' (encode_ref idx g)) (λ r d', handle_ok ∅ d' ∧ (e = HA_OK → r.1 = HA_ERR_RECORD_DELETED)) d1).
  { destruct (decide (e = HA_OK)) as [->|Hne].
    - destruct Hout as ((r0 & [_ Hg] & _) & Ht & Hg' & _). pose proof (gen_at_bound _ _ _ _ (ho_wf _ _ H) Hg) as Hb.
      eapply wp_mono; [apply (rrnd_spec ∅ d1 buf' idx g H1); [unfold FM_NULL_SLOT in *; lia|done]|].
      intros [e rec'] d2 (H2 & _ & Hcase). split; [done|]. intros _. cbn [fst snd] in *.
      destruct e; try done; [destruct Hcase as (_ & Ht' & _); by rewrite Ht, lookup_delete_eq in Ht'
        |destruct Hcase as [Hx _]; unfold FM_NULL_SLOT in *; lia].
    - eapply wp_mono; [apply (rrnd_any ∅ d1 buf'); [done|apply (decode_slot_range ∅); [apply H1|]]|intros r d2 H2; by split].
      unfold FM_NULL_SLOT in *. lia. }
  wp_use Hw. intros r d2 [H2 Hr]. apply wp_ret. split; [done|exact Hr].
Qed.

(** C35: Scan through a handle.  [fm_scan_init] and [fm_scan] until the end of the file give the
    rows of the table in slot order, each with a reference at which [fm_rrnd] reads it back. *)
Theorem scan_references held d buf : handle_ok held d →
  wp (_ ← fm_scan_init; scan_rest (S (Z.to_nat (total_slots (core d)))) buf)
    (λ rows d', handle_ok held d' ∧ core d' = core d ∧
       rows = omap (λ i, rec ← table (core d) !! i; g ← gen_at (core d) i; Some (encode_ref i g, rec)) (seqZ 0 (total_slots (core d))) ∧
       ∀ pos rec buf', (pos, rec) ∈ rows → wp (fm_rrnd buf' pos) (λ r _, r = (HA_OK, rec)) d') d.
Proof.
  intros H. pose proof (total_bound _ (wf_static _ _ (ho_wf _ _ H))) as Hb. wp_step @eq_refl.
  set (d1 := d_info _ d). assert (H1 : handle_ok held d1).
  { eapply (handle_ok_step held held d); cbn; [done|apply H|by constructor|done|unfold FM_NULL_SLOT; lia|lia]. }
  eapply wp_mono; [apply (scan_rest_spec held _ d1 buf H1); cbn; lia|]. intros rows d' (H' & Ec & ->). cbn in Ec |- *.
  assert (Heq : refs_from (core d) 0 = omap (λ i, rec ← table (core d) !! i; g ← gen_at (core d) i; Some (encode_ref i g, rec))
    (seqZ 0 (total_slots (core d)))).
  { unfold refs_from. rewrite Z.sub_0_r. induction (seqZ 0 _) as [|x l IH]; [done|]. simpl.
    rewrite table_lookup by apply (ho_wf _ _ H).
    destruct (row_at (core d) x), (gen_at (core d) x); simpl; first [exact IH|f_equal; exact IH]. }
  split_and!; [done|done|done|]. intros pos rec buf'. rewrite Heq, list_elem_of_omap. intros (i & Hi%elem_of_seqZ & Hx).
  destruct (table (core d) !! i) as [r|] eqn:Ht; [|done]. destruct (gen_at (core d) i) as [g|] eqn:Hg; [|done]. simplify_eq/=.
  eapply wp_mono; [apply (rrnd_spec held d' buf' i g H'); [rewrite Ec; unfold FM_NULL_SLOT; lia|by eapply (gen_at_bound held), Hg; apply H]|].
  rewrite Ec. intros [e rec'] d2 (_ & _ & Hcase). cbn [fst snd] in *.
  destruct e; try done; [destruct Hcase as (_ & Ht' & _); congruence|destruct Hcase as (_ & _ & Hx); by destruct (Hx rec)
    |destruct Hcase as [Hx _]; unfold FM_NULL_SLOT in *; lia].
Qed.
