(* ===== verification/RegistrySpec.v ===== *)
(** Safety of the registry (src/fm_create.cc and the open, create, close, drop and rename of
    src/ha_fastmem.cc): handles point to live shares, a share is freed exactly when nobody needs
    it, and every block has one owner. *)

From S2P Require Import Prelude CoreState CoreOps RowOps Shape Inv Chains Reads Alloc Freelist Steps Insert Delete Lockset Update Clear Lifecycle Spec AutoInc Hash Create Data Registry DataSpec.

(** * A core in another heap *)

Lemma wf_reheap held h c : wf held c → (∀ p, p ∈ blocks c → p ∈ live h) → fresh h → wf held (with_heap h c).
Proof.
  intros [Hst [Hnd _] Hlk Hsl Hk Hf Hr Hu] Hb Hfr. destruct Hst. constructor; try done.
  intros i sl Hi. by destruct (Hsl i sl Hi).
Qed.

Lemma with_heap_heap h c : with_heap h (with_heap (heap c) c) = with_heap h c.
Proof. done. Qed.

(** * Wiring the keys *)

(** The share with the callbacks of all keys set. *)
Definition set_ops (defs : Z → FM_KEY_OPS * bool) (c : FM_SHARE_CORE) : FM_SHARE_CORE :=
  with_keydef (prod_map id (imap (λ k kc, mkKey (defs (Z.of_nat k)).1 (defs (Z.of_nat k)).2 (nbuckets kc) (head kc) (locks kc)))
    <$> keydef c) c.

(** The keys of the share are there. *)
Definition keys_there (c : FM_SHARE_CORE) : Prop :=
  match keydef c with Some q => Z.of_nat (length q.2) = keys c | None => keys c = 0 end.

Lemma key_ops_init_prefix defs q n : ∀ l1 l2 c, keydef c = Some (q, l1 ++ l2) → length l2 = n →
  key_ops_init n defs (Z.of_nat (length l1)) c = Ret (tt, with_keydef
    (Some (q, l1 ++ imap (λ k kc, mkKey (defs (Z.of_nat (length l1 + k))).1 (defs (Z.of_nat (length l1 + k))).2 (nbuckets kc) (head kc) (locks kc)) l2)) c).
Proof.
  induction n as [|n IH]; intros l1 l2 c Hc Hn; (destruct l2 as [|kc l2]; [|]); try done; cbn [key_ops_init].
  - unfold mret, M_ret. do 2 f_equal. simpl. rewrite <-Hc. by destruct c.
  - erewrite bind_Ret; [|apply deref_key_run; unfold key_at; rewrite Hc; apply arr_get_middle].
    rewrite (bind_Ret _ _ _ _ _ (modify_run _ _)). set (f := λ kc : FM_KEY_CORE, _).
    replace (Z.of_nat (length l1) + 1) with (Z.of_nat (length (l1 ++ [f kc]))) by (rewrite length_app; simpl; lia).
    erewrite (IH (l1 ++ [f kc]) l2); [| |simpl in Hn; lia].
    + do 2 f_equal. unfold upd_key, with_keydef. simpl. do 3 f_equal. rewrite <-app_assoc. simpl. f_equal. f_equal.
      * unfold f. by rewrite Nat.add_0_r.
      * apply imap_ext. intros j x _. rewrite length_app. simpl. by replace (length l1 + 1 + j)%nat with (length l1 + S j)%nat by lia.
    + unfold upd_key. simpl. rewrite Hc. simpl. unfold prod_map. simpl. rewrite arr_upd_middle, <-app_assoc. done.
Qed.

Lemma key_ops_init_set defs c : keys_there c → fm_key_ops_init defs c = Ret (tt, set_ops defs c).
Proof.
  intros Hk. unfold fm_key_ops_init. rewrite (bind_Ret _ _ _ _ _ (get_run _)). cbv beta. unfold keys_there in Hk.
  unfold set_ops. destruct (keydef c) as [[q l]|] eqn:Hc.
  - simpl in *. exact (key_ops_init_prefix defs q (Z.to_nat (keys c)) [] l c Hc ltac:(lia)).
  - rewrite Hk. unfold mret, M_ret. simpl. rewrite <-Hc. by destruct c.
Qed.

Lemma imap_blocks (f : nat → FM_KEY_CORE → FM_KEY_CORE) l : (∀ k kc, head (f k kc) = head kc ∧ locks (f k kc) = locks kc) →
  flat_map key_blocks (imap f l) = flat_map key_blocks l.
Proof.
  revert f. induction l as [|kc l IH]; intros f Hf; [done|]. simpl. rewrite IH by (intros; apply Hf).
  unfold key_blocks. by destruct (Hf O kc) as [-> ->].
Qed.

Lemma set_ops_blocks defs c : blocks (set_ops defs c) = blocks c.
Proof.
  unfold blocks, set_ops. simpl. f_equal. destruct (keydef c) as [[q l]|]; [|done]. simpl. f_equal.
  by rewrite imap_blocks.
Qed.

Lemma set_ops_reheap defs h c : set_ops defs (with_heap h c) = with_heap h (set_ops defs c).
Proof. done. Qed.

(** A share can be freed whether or not its keys have been wired. *)
Lemma set_ops_fit defs c : static_ok (set_ops defs c) → arrays_fit c ∧ keys_there c.
Proof.
  intros [((p & cs & Hcs & Hl) & Hkd & Hch) [Hk _] _ Hcnt _ _ _ Hfresh _ _ _ _].
  assert (Ht : keys_there c).
  { unfold keys_there. unfold set_ops in Hkd. simpl in Hkd. destruct (keydef c) as [[q l]|]; [|done]. simpl in *. by rewrite length_imap in Hkd. }
  split; [|done]. constructor; [|done..]. split_and!; [by exists p, cs|exact Ht|exact Hch].
Qed.

Lemma set_ops_id defs c : keys_there c → (∀ k, 0 ≤ k < keys c → fst <$> key_cfg c k = Some (defs k)) → set_ops defs c = c.
Proof.
  intros Ht Hk. unfold set_ops, keys_there in *. destruct (keydef c) as [[q l]|] eqn:Hc; simpl; [|rewrite <-Hc; by destruct c].
  assert (E : imap (λ k kc, mkKey (defs (Z.of_nat k)).1 (defs (Z.of_nat k)).2 (nbuckets kc) (head kc) (locks kc)) l = l); [|].
  - apply list_eq. intros i. rewrite list_lookup_imap. destruct (l !! i) as [kc|] eqn:Hi; [|done]. simpl. f_equal.
    pose proof (lookup_lt_Some _ _ _ Hi). simpl in Ht. specialize (Hk (Z.of_nat i) ltac:(lia)). unfold key_cfg, key_at, arr_get in Hk.
    rewrite Hc in Hk. simpl in Hk. rewrite decide_True, Nat2Z.id, Hi in Hk by lia. simpl in Hk. injection Hk as <-. by destruct kc.
  - unfold prod_map. simpl. rewrite E, <-Hc. by destruct c.
Qed.

(** * Ownership of blocks *)

(** Who owns a block: the callers, a handle (its own block), a share (its own block), the name or
    the core of the share [p]. *)
Inductive owner := OBase | OHandle | OShare | OName (p : nat) | OCore (p : nat).

(** Every live block has exactly one owner. *)
Record own_ok (W : owner → nat → Prop) (h : Heap) : Prop := {
  ow_fresh : fresh h;
  ow_live x : x ∈ live h ↔ ∃ o, W o x;
  ow_one o1 o2 x : W o1 x → W o2 x → o1 = o2
}.

Section own.
Context (W W' : owner → nat → Prop) (h h' : Heap) (HW : own_ok W h).
#[local] Set Default Proof Using "Type*".

Lemma own_iff : h' = h → (∀ o x, W' o x ↔ W o x) → own_ok W' h'.
Proof.
  intros -> E. destruct HW as [Hf Hl Ho]. constructor; [done| |].
  - intros x. rewrite Hl. split; intros [o H]; exists o; by apply E.
  - intros o1 o2 x H1%E H2%E. by eapply Ho.
Qed.

(** Block [n] goes from one owner to another. *)
Lemma own_move n o1 o2 : h' = h → W o1 n → (∀ o x, W' o x ↔ x ≠ n ∧ W o x ∨ x = n ∧ o = o2) → own_ok W' h'.
Proof.
  intros -> Hn E. destruct HW as [Hf Hl Ho]. constructor; [done| |].
  - intros x. rewrite Hl. split.
    + intros [o H]. destruct (decide (x = n)) as [->|]; [exists o2|exists o]; apply E; auto.
    + intros [o [[_ H]|[-> _]]%E]; eauto.
  - intros a b x [[? H1]|[-> ->]]%E [[? H2]|[? ?]]%E; subst; try done. by eapply Ho.
Qed.

Lemma own_fresh_free n o : (calls h ≤ n)%nat → ¬ W o n.
Proof. intros Hc Hw. destruct HW as [Hf Hl _]. specialize (Hf n (proj2 (Hl n) (ex_intro _ o Hw))). lia. Qed.

(** The next block is allocated, and given to [o2]. *)
Lemma own_alloc o2 : h' = mkHeap (S (calls h)) ({[ calls h ]} ∪ live h) →
  (∀ o x, W' o x ↔ W o x ∨ x = calls h ∧ o = o2) → own_ok W' h'.
Proof.
  intros -> E. pose proof own_fresh_free as Hn. destruct HW as [Hf Hl Ho]. constructor; simpl.
  - intros x. simpl. rewrite elem_of_union, elem_of_singleton. intros [->|Hx]; [lia|]. specialize (Hf x Hx). lia.
  - intros x. rewrite elem_of_union, elem_of_singleton, Hl. split.
    + intros [->|[o H]]; [exists o2|exists o]; apply E; auto.
    + intros [o [H|[-> _]]%E]; eauto.
  - intros a b x [H1|[-> ->]]%E [H2|[? ?]]%E; subst; try done; try by eapply Ho.
    + destruct (Hn (calls h) a); [done|auto].
    + destruct (Hn (calls h) b); [done|auto].
Qed.

(** An allocation that fails only counts. *)
Lemma own_skip n : h' = mkHeap n (live h) → (calls h ≤ n)%nat → (∀ o x, W' o x ↔ W o x) → own_ok W' h'.
Proof.
  intros -> Hn E. destruct HW as [Hf Hl Ho]. constructor; simpl.
  - intros x Hx. specialize (Hf x Hx). simpl. lia.
  - intros x. rewrite Hl. split; intros [o H]; exists o; by apply E.
  - intros o1 o2 x H1%E H2%E. by eapply Ho.
Qed.

(** The blocks [X] are freed. *)
Lemma own_free (X : gset nat) : calls h' = calls h → live h' = live h ∖ X → (∀ o x, W' o x ↔ W o x ∧ x ∉ X) → own_ok W' h'.
Proof.
  intros Hc Hlv E. destruct HW as [Hf Hl Ho]. constructor.
  - intros x. rewrite Hlv, Hc, elem_of_difference. intros [Hx _]. by apply Hf.
  - intros x. rewrite Hlv, elem_of_difference, Hl. split.
    + intros [[o H] Hx]. exists o. by apply E.
    + intros [o [H Hx]%E]. eauto.
  - intros o1 o2 x [H1 _]%E [H2 _]%E. by eapply Ho.
Qed.

(** The core of share [p] has done its own allocations. *)
Lemma own_core p c c' : h = heap c → h' = heap c' → heap_ok c' → foreign c' = foreign c →
  (∀ x, W (OCore p) x ↔ x ∈ blocks c) → (∀ x, W' (OCore p) x ↔ x ∈ blocks c') →
  (∀ o x, o ≠ OCore p → W' o x ↔ W o x) → own_ok W' h'.
Proof.
  intros -> -> (_ & Hin & Hfr) Hfg Hc Hc' E. destruct HW as [Hf Hl Ho].
  assert (Hfor : ∀ o x, o ≠ OCore p → W o x → x ∈ foreign c').
  { intros o x Hne Hx. rewrite Hfg. unfold foreign. apply elem_of_difference. split; [apply Hl; eauto|].
    rewrite elem_of_list_to_set, <-Hc. intros H. by destruct Hne; eapply Ho. }
  assert (Hnot : ∀ o x, o ≠ OCore p → W o x → x ∉ blocks c').
  { intros o x Hne Hx Hb. pose proof (Hfor o x Hne Hx) as Hx'. unfold foreign in Hx'.
    apply elem_of_difference in Hx' as [_ Hx']. by rewrite elem_of_list_to_set in Hx'. }
  assert (Hdec : ∀ o : owner, o = OCore p ∨ o ≠ OCore p).
  { intros o. destruct o as [| | |q|q]; try (by right). destruct (decide (q = p)) as [->|]; [by left|right; congruence]. }
  constructor; [done| |].
  - intros x. split.
    + intros Hx. destruct (decide (x ∈ blocks c')) as [Hb|Hb]; [exists (OCore p); by apply Hc'|].
      assert (x ∈ foreign c) as Hx'; [rewrite <-Hfg; apply elem_of_difference; split; [done|]; by rewrite elem_of_list_to_set|].
      unfold foreign in Hx'. apply elem_of_difference in Hx' as [Hx' Hn]. rewrite elem_of_list_to_set in Hn.
      apply Hl in Hx' as [o Hx']. exists o. apply E; [|done]. intros ->. apply Hn. by apply Hc.
    + intros [o Hx]. destruct (Hdec o) as [->|Hne]; [by apply Hin, Hc'|]. apply E in Hx; [|done].
      pose proof (Hfor o x Hne Hx) as H. unfold foreign in H. by apply elem_of_difference in H as [? _].
  - intros o1 o2 x H1 H2. destruct (Hdec o1) as [->|Hn1], (Hdec o2) as [->|Hn2]; [done| | |].
    + apply E in H2; [|done]. apply Hc' in H1. by destruct (Hnot o2 x Hn2 H2).
    + apply E in H1; [|done]. apply Hc' in H2. by destruct (Hnot o1 x Hn1 H1).
    + apply E in H1, H2; try done. by eapply Ho.
Qed.
End own.

(** * The invariant of the registry *)

(** The owners of the blocks of a process, [base] being the blocks of its other parts. *)
Definition owns (base : gset nat) (r : registry) (o : owner) (x : nat) : Prop :=
  match o with
  | OBase => x ∈ base
  | OHandle => is_Some (handles r !! x)
  | OShare => is_Some (shares r !! x)
  | OName p => ∃ sh n, shares r !! p = Some sh ∧ fs_name sh = Some n ∧ n.1 = x
  | OCore p => ∃ sh, shares r !! p = Some sh ∧ x ∈ blocks (fs_core sh)
  end.

(** The open handles of share [p]. *)
Definition users (p : nat) (m : gmap nat FM_HANDLE) : nat := size (filter (λ kv, oh_share kv.2 = p) m).

(** A share that an open in progress still has to attach a handle to: [Some (p, k)] for share [p]
    with [k] references counted in advance. *)
Definition pending := option (nat * Z).
Definition extra (pend : pending) (p : nat) : Z :=
  match pend with Some (q, k) => if decide (q = p) then k else 0 | None => 0 end.

Section spec.
Context (my_hasher_mysql5x : my_hasher_st) (MY_HASH_ADD_MARIADB : my_hasher_st → Z → my_hasher_st).
Context (get_rec_bits : bytes → Z → Z → Z) (uint2korr : bytes → Z).

Definition defs_of (kds : list FM_KEYDEF) : Z → FM_KEY_OPS * bool :=
  key_ops_of my_hasher_mysql5x MY_HASH_ADD_MARIADB get_rec_bits uint2korr kds.

(** The core of a share with key definitions [kds]: well formed once its keys are wired. *)
Definition core_ok (kds : list FM_KEYDEF) (c : FM_SHARE_CORE) : Prop :=
  Z.of_nat (length kds) = keys c ∧ Forall keydef_ok kds ∧ auto_there kds (auto_key c) ∧
  ∃ h, wf ∅ (with_heap h (set_ops (defs_of kds) c)).

Record share_inv (pend : pending) (m : gmap nat FM_HANDLE) (p : nat) (sh : FM_SHARE) : Prop := {
  si_name : is_Some (fs_name sh);
  si_core : core_ok (fs_keydef sh) (fs_core sh);
  si_count : open_count sh = Z.of_nat (users p m) + extra pend p;
  si_ready : (0 < users p m)%nat → pend = Some (p, 0) ∨ set_ops (defs_of (fs_keydef sh)) (fs_core sh) = fs_core sh;
  si_delete : delete_on_close sh = true → 0 < open_count sh ∨ (∃ k, pend = Some (p, k));
  si_internal : fs_internal sh = true → delete_on_close sh = true;
  si_list : NoDup (open_list sh) ∧
    ∀ h, h ∈ open_list sh ↔ ∃ fh, m !! h = Some fh ∧ oh_share fh = p ∧ open_listed fh = true
}.

(** The tables: shares, handles and the list of names. *)
Record tab_ok (pend : pending) (r : registry) : Prop := {
  to_share p sh : shares r !! p = Some sh → share_inv pend (handles r) p sh;
  to_handle h fh : handles r !! h = Some fh → is_Some (shares r !! oh_share fh);
  to_list : NoDup (fm_share_list r) ∧ ∀ p, p ∈ fm_share_list r ↔ ∃ sh, shares r !! p = Some sh ∧ fs_internal sh = false;
  to_size : Z.of_nat (size (handles r)) + 2 < 2 ^ 32;
  to_pend p k : pend = Some (p, k) → is_Some (shares r !! p) ∧ 0 ≤ k ≤ 1
}.

(** The invariant, [reg_inv base pend r], does not look at the mutex and at [my_errno]. *)
Definition reg_inv (base : gset nat) (pend : pending) (r : registry) : Prop :=
  tab_ok pend r ∧ own_ok (owns base r) (rheap r).

(** Between the operations of clients. *)
Definition reg_ok (base : gset nat) (r : registry) : Prop := reg_inv base None r ∧ THR_LOCK_fastmem r = false.

Lemma reg_inv_lock base pend b r : reg_inv base pend r → reg_inv base pend (r_lock b r).
Proof. intros [[] []]. by split; constructor. Qed.
Lemma reg_inv_err base pend e r : reg_inv base pend r → reg_inv base pend (r_err e r).
Proof. intros [[] []]. by split; constructor. Qed.

(** ** Handles of a share *)

Lemma users_le p m : (users p m ≤ size m)%nat.
Proof. apply map_size_filter. Qed.

Lemma users_insert p m h fh : m !! h = None → users p (<[h := fh]> m) = ((if decide (oh_share fh = p) then 1 else 0) + users p m)%nat.
Proof.
  intros Hh. unfold users. rewrite map_filter_insert. case_decide as Hs; simpl in Hs.
  - rewrite map_size_insert_None, decide_True; [lia|done|]. apply map_lookup_filter_None. by left.
  - rewrite decide_False by done. rewrite delete_id by done. done.
Qed.

Lemma users_delete p m h fh : m !! h = Some fh → users p (delete h m) = (users p m - if decide (oh_share fh = p) then 1 else 0)%nat.
Proof.
  intros Hh. rewrite <-(insert_delete_id m h fh Hh) at 2. rewrite users_insert by apply lookup_delete_eq. case_decide; lia.
Qed.

Lemma users_pos p m h fh : m !! h = Some fh → oh_share fh = p → (0 < users p m)%nat.
Proof.
  intros Hh Hp. rewrite <-(insert_delete_id m h fh Hh), users_insert by apply lookup_delete_eq. rewrite decide_True by done. lia.
Qed.

Lemma users_none p m h fh : users p m = O → m !! h = Some fh → oh_share fh ≠ p.
Proof. intros Hu Hh Hp. pose proof (users_pos p m h fh Hh Hp). lia. Qed.

(** Marking a handle does not change whose it is. *)
Lemma users_alter p m h (f : FM_HANDLE → FM_HANDLE) : (∀ fh, oh_share (f fh) = oh_share fh) → users p (alter f h m) = users p m.
Proof.
  intros Hf. destruct (m !! h) as [fh|] eqn:Hh.
  - rewrite <-(insert_delete_id m h fh Hh), alter_insert_eq, !users_insert by apply lookup_delete_eq. by rewrite Hf.
  - by rewrite alter_id' by (by rewrite Hh).
Qed.
End spec.

(** * Memory of a process *)

Lemma ret_run {S A} (a : A) (s : S) : (mret a : M S A) s = Ret (a, s).
Proof. done. Qed.

Lemma mutex_lock_run r : THR_LOCK_fastmem r = false → mutex_lock r = Ret (tt, r_lock true r).
Proof. intros H. unfold mutex_lock. rewrite (bind_Ret _ _ _ _ _ (get_run _)). by rewrite H. Qed.

Lemma owns_ext base r r' o x : shares r' = shares r → handles r' = handles r → (owns base r' o x ↔ owns base r o x).
Proof. intros E1 E2. unfold owns. by rewrite E1, E2. Qed.

Lemma my_free_run p r : p ∈ live (rheap r) → my_free p r = Ret (tt, r_heap (mkHeap (calls (rheap r)) (live (rheap r) ∖ {[ p ]})) r).
Proof. intros H. unfold my_free. by rewrite decide_True. Qed.

Lemma deref_share_run p r sh : shares r !! p = Some sh → deref_share p r = Ret (sh, r).
Proof. intros H. unfold deref_share. rewrite (bind_Ret _ _ _ _ _ (get_run _)). by rewrite H. Qed.

Lemma store_share_run f p r sh : shares r !! p = Some sh → store_share f p r = Ret (tt, r_shares (<[p := f sh]>) r).
Proof.
  intros H. unfold store_share. rewrite (bind_Ret _ _ _ _ _ (deref_share_run _ _ _ H)), modify_run. do 2 f_equal.
  unfold r_shares. f_equal. apply map_eq. intros q. destruct (decide (p = q)) as [->|Hne].
  - by rewrite lookup_alter_eq, lookup_insert_eq, H.
  - by rewrite lookup_alter_ne, lookup_insert_ne.
Qed.

(** The blocks of a share: its own, its name's, and those of its core. *)
Definition share_blocks (p : nat) (sh : FM_SHARE) : gset nat :=
  {[ p ]} ∪ list_to_set (ptr_block (fs_name sh)) ∪ list_to_set (blocks (fs_core sh)).

(** The process after share [p] is gone. *)
Definition r_drop (p : nat) (sh : FM_SHARE) (r : registry) : registry :=
  mkReg (mkHeap (calls (rheap r)) (live (rheap r) ∖ share_blocks p sh)) (delete p (shares r)) (handles r)
    (fm_share_list r) (THR_LOCK_fastmem r) (r_errno r).

(** Two owners of one block, the first of them [a] with [Hb]. *)
Ltac clash a Hb := let H := fresh in intros [[_ H]|[H|H]];
    [match goal with Hone : ∀ o1 o2 : owner, _ |- _ => pose proof (Hone a OShare _ Hb H) end
    |match goal with Hone : ∀ o1 o2 : owner, _, p : nat |- _ => pose proof (Hone a (OName p) _ Hb H) end
    |match goal with Hone : ∀ o1 o2 : owner, _, p : nat |- _ => pose proof (Hone a (OCore p) _ Hb H) end]; congruence.

Lemma own_drop base r p sh : own_ok (owns base r) (rheap r) → shares r !! p = Some sh →
  own_ok (owns base (r_drop p sh r)) (rheap (r_drop p sh r)).
Proof.
  intros Ho Hsh. eapply (own_free _ _ _ _ Ho (share_blocks p sh)); [done|done|]. intros o x.
  assert (HX : x ∈ share_blocks p sh ↔ (x = p ∧ owns base r OShare x) ∨ owns base r (OName p) x ∨ owns base r (OCore p) x).
  { unfold share_blocks. rewrite !elem_of_union, elem_of_singleton, !elem_of_list_to_set. simpl. rewrite Hsh. unfold ptr_block. split.
    - intros [[->|Hx]|Hx]; [left; eauto| |right; right; eauto]. destruct (fs_name sh) as [n|] eqn:Hn; [|set_solver].
      apply list_elem_of_singleton in Hx as ->. right; left. eauto.
    - intros [[-> _]|[(sh' & n & [= <-] & Hn & <-)|(sh' & [= <-] & Hx)]]; [auto| |auto]. rewrite Hn. left; right. by apply list_elem_of_singleton. }
  rewrite HX. assert (Hone := ow_one _ _ Ho). destruct o as [| | |q|q]; simpl.
  - split; [|tauto]. intros Hb. split; [done|]. clash OBase Hb.
  - split; [|tauto]. intros Hb. split; [done|]. clash OHandle Hb.
  - rewrite lookup_delete_is_Some. split.
    + intros [Hne Hb]. split; [done|]. intros [[? _]|H]; [done|]. destruct H as [H|H].
      * by pose proof (Hone OShare (OName p) x Hb H).
      * by pose proof (Hone OShare (OCore p) x Hb H).
    + intros [Hb Hn]. split; [|done]. intros <-. apply Hn. by left.
  - destruct (decide (q = p)) as [->|Hqp].
    + split; [intros (? & ? & H & _); by rewrite lookup_delete_eq in H|]. intros [H Hn]. destruct Hn. by right; left.
    + rewrite lookup_delete_ne by done. split; [|tauto]. intros Hb. split; [done|].
      clash (OName q) Hb.
  - destruct (decide (q = p)) as [->|Hqp].
    + split; [intros (? & H & _); by rewrite lookup_delete_eq in H|]. intros [H Hn]. destruct Hn. by right; right.
    + rewrite lookup_delete_ne by done. split; [|tauto]. intros Hb. split; [done|].
      clash (OCore q) Hb.
Qed.

(** What [fm_free] and the error path of [fm_create] do with the memory of a share. *)
Lemma release_run base r p sh : own_ok (owns base r) (rheap r) → shares r !! p = Some sh →
  arrays_fit (fs_core sh) ∨ bare (fs_core sh) → NoDup (blocks (fs_core sh)) →
  (on_share p fm_core_free_share;;
   (match fs_name sh with Some n => my_free n.1 | None => mret tt end);;
   my_free p;;
   modify (r_shares (delete p))) r = Ret (tt, r_drop p sh r).
Proof.
  intros Ho Hsh Hfit Hnd. set (c := with_heap (rheap r) (fs_core sh)).
  assert (Hheap : heap_ok c).
  { split_and!; [done| |apply Ho]. intros x Hx. apply (ow_live _ _ Ho). exists (OCore p), sh. done. }
  assert (∃ c', fm_core_free_share c = Ret (tt, c') ∧ live (heap c') = live (rheap r) ∖ list_to_set (blocks (fs_core sh)) ∧
    calls (heap c') = calls (rheap r)) as (c' & Hrun & Hl & Hcalls).
  { destruct Hfit as [Hfit|Hbare].
    - destruct (free_share_run c) as (c' & Hrun & Hl & _ & _ & Hcalls); [destruct Hfit; by constructor|done|]. by exists c'.
    - destruct (free_bare_run c) as (c' & Hrun & Hh); [destruct Hbare; by constructor|]. exists c'. rewrite Hh, (bare_blocks _ Hbare). split_and!; [done|simpl; set_solver|done]. }
  set (r1 := r_heap (heap c') (r_shares (<[p := fs_with_core c' sh]>) r)).
  assert (E1 : on_share p fm_core_free_share r = Ret (tt, r1)) by (unfold on_share; rewrite Hsh; fold c; by rewrite Hrun).
  rewrite (bind_Ret _ _ _ _ _ E1). clear E1 Hrun.
  assert (Hp : p ∈ live (heap c')).
  { rewrite Hl. apply elem_of_difference. split; [apply (ow_live _ _ Ho); exists OShare; by eexists|]. rewrite elem_of_list_to_set. intros Hb.
    assert (OShare = OCore p); [|done]. apply (ow_one _ _ Ho _ _ p); simpl; eauto. }
  assert (Hfin : ∀ lv, lv = live (rheap r) ∖ share_blocks p sh →
    modify (r_shares (delete p)) (r_heap (mkHeap (calls (rheap r)) lv) r1) = Ret (tt, r_drop p sh r)).
  { intros lv ->. rewrite modify_run. do 2 f_equal. unfold r_drop, r1, r_shares, r_heap. simpl. f_equal. apply delete_insert_eq. }
  destruct (fs_name sh) as [n|] eqn:Hn.
  - assert (Hname : owns base r (OName p) n.1) by (exists sh, n; done).
    assert (Hnb : n.1 ∈ live (heap c')).
    { rewrite Hl. apply elem_of_difference. split; [apply (ow_live _ _ Ho); eauto|]. rewrite elem_of_list_to_set. intros Hb.
      assert (OName p = OCore p); [|done]. apply (ow_one _ _ Ho _ _ n.1); [done|]. by exists sh. }
    assert (n.1 ≠ p).
    { intros E. assert (OName p = OShare); [|done]. apply (ow_one _ _ Ho _ _ p); [by rewrite <-E at 2|by eexists]. }
    erewrite bind_Ret; [|by apply my_free_run]. erewrite bind_Ret; [|apply my_free_run; simpl; set_solver].
    simpl. rewrite Hcalls. apply Hfin. rewrite Hl. unfold share_blocks, ptr_block. rewrite Hn. simpl. set_solver.
  - erewrite bind_Ret; [|reflexivity]. erewrite bind_Ret; [|by apply my_free_run]. simpl. rewrite Hcalls. apply Hfin.
    rewrite Hl. unfold share_blocks, ptr_block. rewrite Hn. simpl. set_solver.
Qed.

Lemma chain_remove_spec p l : NoDup l → NoDup (chain_remove p l) ∧ ∀ q, q ∈ chain_remove p l ↔ q ∈ l ∧ q ≠ p.
Proof.
  induction 1 as [|x l Hx Hnd [IH1 IH2]]; simpl; [split; [constructor|set_solver]|]. case_decide as Hxp.
  - subst. split; [done|]. intros q. rewrite elem_of_cons. split; [intros Hq; split; [by right|]; by intros ->|]. naive_solver.
  - split; [constructor; [rewrite IH2; tauto|done]|]. intros q. rewrite !elem_of_cons, IH2. naive_solver.
Qed.

Lemma owns_update base r p sh sh' o x : shares r !! p = Some sh → ptr_block (fs_name sh') = ptr_block (fs_name sh) →
  blocks (fs_core sh') = blocks (fs_core sh) → (owns base (r_shares (<[p := sh']>) r) o x ↔ owns base r o x).
Proof.
  intros Hsh Hn Hb. unfold owns, r_shares. simpl. destruct o as [| | |q|q]; try done.
  - rewrite lookup_insert_is_Some. split; [intros [<-|[_ ?]]; [by eexists|done]|]. intros H. destruct (decide (p = x)); auto.
  - destruct (decide (p = q)) as [<-|]; [rewrite lookup_insert_eq, Hsh|by rewrite lookup_insert_ne]. unfold ptr_block in Hn.
    split; intros (? & n & [= <-] & E & <-); rewrite E in Hn; destruct (fs_name _) as [n'|] eqn:E' in Hn; simplify_eq;
      eexists _, n'; split; try done; split; congruence.
  - destruct (decide (p = q)) as [<-|]; [rewrite lookup_insert_eq, Hsh|by rewrite lookup_insert_ne].
    split; intros (? & [= <-] & H); eexists; (split; [done|]); by rewrite Hb in * || by rewrite <-Hb in *.
Qed.

Lemma same_count sh : fs_with_count (open_count sh) sh = sh.
Proof. by destruct sh. Qed.

Lemma r_shares_same p sh r : shares r !! p = Some sh → r_shares (<[p := sh]>) r = r.
Proof. intros H. unfold r_shares. rewrite insert_id by done. by destruct r. Qed.

(** * Operations on the registry *)

Section ops.
Context (my_hasher_mysql5x : my_hasher_st) (MY_HASH_ADD_MARIADB : my_hasher_st → Z → my_hasher_st).
Context (get_rec_bits : bytes → Z → Z → Z) (uint2korr : bytes → Z).

Abbreviation reg_inv := (reg_inv my_hasher_mysql5x MY_HASH_ADD_MARIADB get_rec_bits uint2korr).
Abbreviation tab_ok := (tab_ok my_hasher_mysql5x MY_HASH_ADD_MARIADB get_rec_bits uint2korr).
Abbreviation share_inv := (share_inv my_hasher_mysql5x MY_HASH_ADD_MARIADB get_rec_bits uint2korr).
Abbreviation core_ok := (core_ok my_hasher_mysql5x MY_HASH_ADD_MARIADB get_rec_bits uint2korr).
Abbreviation defs_of := (defs_of my_hasher_mysql5x MY_HASH_ADD_MARIADB get_rec_bits uint2korr).

Lemma tab_ok_ext pend r r' : shares r' = shares r → handles r' = handles r → fm_share_list r' = fm_share_list r →
  tab_ok pend r → tab_ok pend r'.
Proof. intros E1 E2 E3 []. constructor; rewrite ?E1, ?E2, ?E3; done. Qed.

(** ** Memory *)

(** An allocation gives the caller a new block, or nothing. *)
Lemma malloc_spec malloc_ok size base pend r : reg_inv base pend r →
  (my_malloc malloc_ok size r = Ret (Some (calls (rheap r)), r_heap (mkHeap (S (calls (rheap r))) ({[ calls (rheap r) ]} ∪ live (rheap r))) r) ∧
   malloc_ok (calls (rheap r)) size = true ∧ (calls (rheap r) ∉ live (rheap r)) ∧
   reg_inv (base ∪ {[ calls (rheap r) ]}) pend (r_heap (mkHeap (S (calls (rheap r))) ({[ calls (rheap r) ]} ∪ live (rheap r))) r)) ∨
  (my_malloc malloc_ok size r = Ret (None, r_err CE_ENOMEM (r_heap (mkHeap (S (calls (rheap r))) (live (rheap r))) r)) ∧
   malloc_ok (calls (rheap r)) size = false ∧
   reg_inv base pend (r_err CE_ENOMEM (r_heap (mkHeap (S (calls (rheap r))) (live (rheap r))) r))).
Proof.
  intros [Ht Ho]. unfold my_malloc. destruct (malloc_ok (calls (rheap r)) size); [left|right].
  - split; [done|]. split; [done|]. split; [intros H; pose proof (ow_fresh _ _ Ho _ H); lia|]. split; [by apply (tab_ok_ext _ r)|].
    eapply (own_alloc _ _ _ _ Ho OBase); [done|]. intros o x. rewrite (owns_ext _ r) by done.
    destruct o; simpl; [rewrite elem_of_union, elem_of_singleton|..]; (split; [intros H|intros [H|[-> ?]]; auto; done]); auto.
    destruct H; auto.
  - split; [done|]. split; [done|]. split; [by apply (tab_ok_ext _ r)|].
    eapply (own_skip _ _ _ _ Ho); [done|lia|]. intros o x. by rewrite (owns_ext _ r).
Qed.

(** The caller frees a block of its own. *)
Lemma free_base_spec x base pend r : reg_inv base pend r → x ∈ base →
  my_free x r = Ret (tt, r_heap (mkHeap (calls (rheap r)) (live (rheap r) ∖ {[ x ]})) r) ∧
  reg_inv (base ∖ {[ x ]}) pend (r_heap (mkHeap (calls (rheap r)) (live (rheap r) ∖ {[ x ]})) r).
Proof.
  intros [Ht Ho] Hx. assert (Hw : owns base r OBase x) by done. split; [apply my_free_run, (ow_live _ _ Ho); eauto|].
  split; [by apply (tab_ok_ext _ r)|]. eapply (own_free _ _ _ _ Ho {[ x ]}); [done|done|]. intros o y.
  rewrite (owns_ext _ r) by done. rewrite elem_of_singleton. destruct o; simpl; [set_solver| | | |];
    (split; [intros H; split; [done|]; intros ->|by intros [? _]]).
  - by pose proof (ow_one _ _ Ho OBase OHandle x Hw H).
  - by pose proof (ow_one _ _ Ho OBase OShare x Hw H).
  - by pose proof (ow_one _ _ Ho OBase (OName p) x Hw H).
  - by pose proof (ow_one _ _ Ho OBase (OCore p) x Hw H).
Qed.

(** ** Looking up a name *)

Lemma find_spec name base pend r : reg_inv base pend r → ∃ o, fm_find_named_share name r = Ret (o, r) ∧
  match o with
  | Some p => ∃ sh, p ∈ fm_share_list r ∧ shares r !! p = Some sh ∧ fs_internal sh = false ∧ snd <$> fs_name sh = Some name
  | None => ∀ p sh, p ∈ fm_share_list r → shares r !! p = Some sh → snd <$> fs_name sh ≠ Some name
  end.
Proof.
  intros [Ht _]. unfold fm_find_named_share. rewrite (bind_Ret _ _ _ _ _ (get_run _)). cbv beta.
  assert (Hin : ∀ p, p ∈ fm_share_list r → ∃ sh, shares r !! p = Some sh ∧ fs_internal sh = false) by (intros p; apply (to_list _ _ _ _ _ _ Ht)).
  generalize (fm_share_list r) Hin. clear Hin. intros l. induction l as [|p l IH]; intros Hin; simpl.
  { exists None. split; [done|]. set_solver. }
  destruct (Hin p ltac:(set_solver)) as (sh & Hsh & Hi). destruct (si_name _ _ _ _ _ _ _ _ (to_share _ _ _ _ _ _ Ht _ _ Hsh)) as [n Hn].
  rewrite (bind_Ret _ _ _ _ _ (deref_share_run _ _ _ Hsh)), Hn. erewrite bind_Ret; [|reflexivity]. case_decide as Hname.
  - exists (Some p). split; [done|]. exists sh. rewrite Hn. simpl. subst name. split_and!; try done. set_solver.
  - destruct (IH ltac:(set_solver)) as (o & E & Ho). exists o. split; [done|]. destruct o as [q|].
    + destruct Ho as (sh' & ? & ?). exists sh'. split; [set_solver|done].
    + intros q shq [->|Hq]%elem_of_cons Hshq; [|by eapply Ho]. rewrite Hsh in Hshq. injection Hshq as <-. rewrite Hn. simpl. congruence.
Qed.

Lemma core_ok_fit kds c : core_ok kds c → arrays_fit c ∧ NoDup (blocks c) ∧ keys_there c.
Proof.
  intros (_ & _ & _ & h & Hwf). rewrite <-set_ops_reheap in Hwf. destruct (set_ops_fit _ _ (wf_static _ _ Hwf)) as [[] Ht].
  split; [by constructor|]. split; [|exact Ht]. destruct (wf_heap _ _ Hwf) as (Hnd & _). rewrite set_ops_blocks in Hnd. exact Hnd.
Qed.

Lemma share_inv_other pend pend' m q sh : extra pend' q = extra pend q → (∀ k, pend ≠ Some (q, k)) →
  share_inv pend m q sh → share_inv pend' m q sh.
Proof.
  intros E Hk [H1 H2 H3 H4 H5 H6 H7]. constructor; try done; [by rewrite E| |].
  - intros Hu. destruct (H4 Hu) as [?|?]; [by destruct (Hk 0)|by right].
  - intros Hd. destruct (H5 Hd) as [?|[k Hp]]; [by left|]. by destruct (Hk k).
Qed.

(** A share without handles is freed. *)
Lemma fm_free_spec base pend r p sh : reg_inv base pend r → shares r !! p = Some sh → users p (handles r) = O →
  (∀ q k, pend = Some (q, k) → q = p) →
  ∃ r', fm_free p r = Ret (tt, r') ∧ reg_inv base None r' ∧ shares r' = delete p (shares r) ∧ handles r' = handles r ∧
    THR_LOCK_fastmem r' = THR_LOCK_fastmem r ∧ calls (rheap r') = calls (rheap r).
Proof.
  intros [Ht Ho] Hsh Hu Hp. pose proof (to_share _ _ _ _ _ _ Ht _ _ Hsh) as Hi.
  destruct (core_ok_fit _ _ (si_core _ _ _ _ _ _ _ _ Hi)) as (Hfit & Hnd & _).
  set (r1 := if fs_internal sh then r else r_list (chain_remove p) r).
  assert (E : fm_free p r = Ret (tt, r_drop p sh r1)).
  { unfold fm_free. rewrite (bind_Ret _ _ _ _ _ (deref_share_run _ _ _ Hsh)). erewrite (bind_Ret _ _ _ tt r1).
    - apply (release_run base); [|unfold r1; by destruct (fs_internal sh)|by left|done].
      eapply (own_iff _ _ _ _ Ho); [unfold r1; by destruct (fs_internal sh)|].
      intros o x. unfold r1. destruct (fs_internal sh); by apply owns_ext.
    - unfold r1. by destruct (fs_internal sh). }
  exists (r_drop p sh r1). split; [done|].
  assert (Es : shares r1 = shares r ∧ handles r1 = handles r ∧ rheap r1 = rheap r ∧ THR_LOCK_fastmem r1 = THR_LOCK_fastmem r)
    by (unfold r1; by destruct (fs_internal sh)).
  destruct Es as (Es & Eh & Ep & El).
  destruct (to_list _ _ _ _ _ _ Ht) as [Hln Hlm]. destruct (chain_remove_spec p _ Hln) as [Hrn Hrm].
  split; [split|simpl; by rewrite Es, Eh, El, Ep].
  - constructor; simpl; rewrite ?Es, ?Eh.
    + intros q shq [Hne Hq]%lookup_delete_Some. eapply share_inv_other; [| |by apply (to_share _ _ _ _ _ _ Ht)].
      * destruct pend as [[q' k]|]; [|done]. simpl. rewrite (Hp _ _ eq_refl), decide_False by done. done.
      * intros k Hk. destruct Hne. symmetry. by eapply Hp.
    + intros h fh Hh. rewrite lookup_delete_ne; [by eapply (to_handle _ _ _ _ _ _ Ht)|]. intros E'. by eapply users_none.
    + unfold r1. destruct (fs_internal sh) eqn:Hint; simpl.
      * split; [done|]. intros q. rewrite Hlm. split; intros (shq & Hq & Hn); exists shq; split; try done.
        -- apply lookup_delete_Some. split; [|done]. intros <-. rewrite Hsh in Hq. congruence.
        -- by apply lookup_delete_Some in Hq as [_ ?].
      * split; [done|]. intros q. rewrite Hrm, Hlm. split.
        -- intros [(shq & Hq & Hn) Hne]. exists shq. split; [|done]. by apply lookup_delete_Some.
        -- intros (shq & [Hne Hq]%lookup_delete_Some & Hn). split; [eauto|done].
    + apply Ht.
    + done.
  - apply own_drop; [|by rewrite Es]. eapply (own_iff _ _ _ _ Ho); [done|]. intros o x. by rewrite (owns_ext _ r).
Qed.

(** ** Changing a share in place *)

Lemma tab_update pend pend' r p sh sh' : tab_ok pend r → shares r !! p = Some sh → fs_internal sh' = fs_internal sh →
  share_inv pend' (handles r) p sh' → (∀ q k, pend = Some (q, k) → q = p) → (∀ q k, pend' = Some (q, k) → q = p ∧ 0 ≤ k ≤ 1) →
  tab_ok pend' (r_shares (<[p := sh']>) r).
Proof.
  intros Ht Hsh Hint Hi Hp Hp'. constructor; simpl.
  - intros q shq [[<- <-]|[Hne Hq]]%lookup_insert_Some; [done|].
    eapply share_inv_other; [| |by apply (to_share _ _ _ _ _ _ Ht)].
    + destruct pend as [[a k]|], pend' as [[a' k']|]; simpl; rewrite ?(Hp _ _ eq_refl), ?(proj1 (Hp' _ _ eq_refl)), ?decide_False by done; done.
    + intros k Hk. destruct Hne. symmetry. by eapply Hp.
  - intros h fh Hh. apply lookup_insert_is_Some'. right. by eapply (to_handle _ _ _ _ _ _ Ht).
  - destruct (to_list _ _ _ _ _ _ Ht) as [Hnd Hlm]. split; [done|]. intros q. rewrite Hlm. destruct (decide (p = q)) as [<-|].
    + rewrite lookup_insert_eq, Hsh. split; intros (? & [= <-] & ?); eexists; split; try done; congruence.
    + by rewrite lookup_insert_ne.
  - apply Ht.
  - intros q k E. destruct (Hp' _ _ E) as [-> ?]. rewrite lookup_insert_eq. split; [by eexists|done].
Qed.

Lemma share_update base pend pend' r p sh sh' : reg_inv base pend r → shares r !! p = Some sh →
  ptr_block (fs_name sh') = ptr_block (fs_name sh) → blocks (fs_core sh') = blocks (fs_core sh) → fs_internal sh' = fs_internal sh →
  share_inv pend' (handles r) p sh' → (∀ q k, pend = Some (q, k) → q = p) → (∀ q k, pend' = Some (q, k) → q = p ∧ 0 ≤ k ≤ 1) →
  reg_inv base pend' (r_shares (<[p := sh']>) r).
Proof.
  intros [Ht Ho] Hsh Hn Hb Hint Hi Hp Hp'. split; [by eapply tab_update|].
  eapply (own_iff _ _ _ _ Ho); [done|]. intros o x. by eapply owns_update.
Qed.

(** Change the reference count of a share, with the references counted in advance. *)
Lemma recount base pend pend' r p sh n : reg_inv base pend r → shares r !! p = Some sh →
  n = Z.of_nat (users p (handles r)) + extra pend' p →
  (∀ q k, pend = Some (q, k) → q = p) → (∀ q k, pend' = Some (q, k) → q = p ∧ 0 ≤ k ≤ 1) →
  (delete_on_close sh = true → 0 < n ∨ ∃ k, pend' = Some (p, k)) →
  ((0 < users p (handles r))%nat → pend' = Some (p, 0) ∨ set_ops (defs_of (fs_keydef sh)) (fs_core sh) = fs_core sh) →
  reg_inv base pend' (r_shares (<[p := fs_with_count n sh]>) r).
Proof.
  intros Hr Hsh Hn Hp Hp' Hd Hw. eapply share_update; try done. destruct Hr as [Ht _].
  destruct (to_share _ _ _ _ _ _ Ht _ _ Hsh) as [H1 H2 H3 H4 H5 H6 H7]. by constructor.
Qed.

Lemma count_bound base pend r p sh : reg_inv base pend r → shares r !! p = Some sh → 0 ≤ open_count sh < 2 ^ 32 - 1.
Proof.
  intros [Ht _] Hsh. rewrite (si_count _ _ _ _ _ _ _ _ (to_share _ _ _ _ _ _ Ht _ _ Hsh)).
  pose proof (to_size _ _ _ _ _ _ Ht). pose proof (users_le p (handles r)).
  assert (0 ≤ extra pend p ≤ 1); [|lia]. destruct pend as [[q k]|]; simpl; [|lia]. case_decide; [|lia]. by apply (to_pend _ _ _ _ _ _ Ht q k).
Qed.
End ops.

(** * Creating a share *)

(** Run an allocation from [H : reg_inv base pend r]; afterwards [Hn] says that the block is new, or
    that the allocator has refused. *)
Ltac wp_malloc H Hn H' :=
  match goal with |- wp (my_malloc ?ok ?size ≫= _) _ _ =>
    let E := fresh "E" in
    destruct (malloc_spec _ _ _ _ ok size _ _ _ H) as [(E & _ & Hn & H')|(E & Hn & H')];
    (apply wp_bind; eapply wp_run; [exact E|]; clear E; cbv beta iota) end.

(** Wiring keys neither moves nor resizes the arrays of a share. *)
Lemma key_ops_init_shape defs n : ∀ k c c', key_ops_init n defs k c = Ret (tt, c') →
  (length ∘ snd <$> keydef c') = (length ∘ snd <$> keydef c) ∧ keys c' = keys c ∧ chunks c' = chunks c ∧ heap c' = heap c ∧
  reclength c' = reclength c ∧ auto_key c' = auto_key c.
Proof.
  induction n as [|n IH]; intros k c c'; cbn [key_ops_init]; [by intros [= <-]|].
  destruct (key_at c k) as [kc|] eqn:Hk.
  - erewrite bind_Ret; [|by apply deref_key_run]. rewrite (bind_Ret _ _ _ _ _ (modify_run _ _)). intros H.
    destruct (IH _ _ _ H) as (E1 & E2 & E3 & E4 & E5 & E6). rewrite E1, E2, E3, E4, E5, E6. split_and!; try done.
    unfold upd_key, arr_upd. simpl. destruct (keydef c) as [[q l]|]; [|done]. simpl. case_decide; [|done]. by rewrite length_alter.
  - unfold deref_key, mbind at 1, M_bind at 1, mbind at 1, M_bind at 1, get. by rewrite Hk.
Qed.

Lemma init_raw alloc_ops defs reclength_ keys_ max_records_ nbuckets_ s :
  init_ok alloc_ops defs reclength_ keys_ max_records_ nbuckets_ s → ∃ c,
    fm_core_init_share reclength_ keys_ max_records_ nbuckets_ alloc_ops s = Ret (tt, c) ∧
    wf ∅ (set_ops defs c) ∧ table (set_ops defs c) = ∅ ∧ total_slots c = 0 ∧ keys c = keys_ ∧ reclength c = reclength_ ∧
    is_Some (chunks c) ∧ keys_there c ∧ foreign c = live (heap s).
Proof.
  intros Hi. destruct (init_spec _ _ _ _ _ _ _ Hi) as [Hrun (Hwf & Ht & Hf & H0)].
  destruct Hi as [? ? ? (n & ? & ?) ? ? _ _].
  destruct (created_cap alloc_ops defs reclength_ keys_ max_records_ nbuckets_ n s) as (_ & _ & _ & _ & Hk & Hr & _); [done..|].
  unfold mbind at 1, M_bind at 1 in Hrun. destruct (fm_core_init_share _ _ _ _ _ s) as [[[] c]| |] eqn:Ec; [|done..].
  exists c. split; [done|]. unfold fm_key_ops_init in Hrun. rewrite (bind_Ret _ _ _ _ _ (get_run _)) in Hrun. cbv beta in Hrun.
  destruct (key_ops_init_shape _ _ _ _ _ Hrun) as (E1 & E2 & E3 & E4 & E5 & _).
  set (cr := created _ _ _ _ _ _ _) in *. pose proof (so_arrays _ (wf_static _ _ Hwf)) as ((p & cs & Hcs & _) & Hkd & _).
  assert (Hthere : keys_there c).
  { unfold keys_there. rewrite <-E2. destruct (keydef c), (keydef cr); simpl in *; try done. congruence. }
  pose proof (key_ops_init_set defs c Hthere) as Hset. unfold fm_key_ops_init in Hset.
  rewrite (bind_Ret _ _ _ _ _ (get_run _)), Hrun in Hset. cbv beta in Hset. injection Hset as Hset. rewrite <-Hset.
  split; [done|]. split; [done|]. split; [by change (total_slots (set_ops defs c) = 0); rewrite <-Hset|].
  split; [by rewrite <-E2|]. split; [by rewrite <-E5|]. split; [rewrite <-E3, Hcs; by eexists|]. split; [done|].
  rewrite <-Hf, Hset. unfold foreign. by rewrite set_ops_blocks.
Qed.

Lemma wf_set_auto held ci s : wf held s → wf held (set_auto ci s).
Proof. intros [[] ? ? Hsl ? ? ? ?]. constructor; try done. intros i sl Hi. by destruct (Hsl i sl Hi). Qed.

(** A table as described, without rows. *)
Definition new_table (kds : list FM_KEYDEF) (reclen : Z) (internal : bool) (sh : FM_SHARE) : Prop :=
  fs_keydef sh = kds ∧ reclength (fs_core sh) = reclen ∧ fs_internal sh = internal ∧ delete_on_close sh = internal ∧ table (fs_core sh) = ∅.

(** ** The states that [new_share] goes through *)

(** The process with heap [h] and the share [sh] at [p]. *)
Definition r_with (h : Heap) (p : nat) (sh : FM_SHARE) (r : registry) : registry :=
  mkReg h (<[p := sh]> (shares r)) (handles r) (fm_share_list r) (THR_LOCK_fastmem r) (r_errno r).

Lemma r_with_deref h p sh r : deref_share p (r_with h p sh r) = Ret (sh, r_with h p sh r).
Proof. apply deref_share_run, lookup_insert_eq. Qed.

Lemma r_with_store f h p sh r : store_share f p (r_with h p sh r) = Ret (tt, r_with h p (f sh) r).
Proof.
  rewrite (store_share_run _ _ _ sh) by apply lookup_insert_eq. do 2 f_equal. unfold r_with, r_shares. simpl. by rewrite insert_insert_eq.
Qed.

Lemma r_with_on_share {A} (m : SM A) h p sh r a c : m (with_heap h (fs_core sh)) = Ret (a, c) →
  on_share p m (r_with h p sh r) = Ret (a, r_with (heap c) p (fs_with_core c sh) r).
Proof.
  intros H. unfold on_share. simpl. rewrite lookup_insert_eq. rewrite H. do 2 f_equal. unfold r_with, r_heap, r_shares. simpl.
  by rewrite insert_insert_eq.
Qed.

(** Owners in such a state. *)
Lemma owns_with base h p sh r o x : owns base (r_with h p sh r) o x ↔
  match o with
  | OBase => x ∈ base
  | OHandle => is_Some (handles r !! x)
  | OShare => x = p ∨ is_Some (shares r !! x)
  | OName q => if decide (q = p) then x ∈ ptr_block (fs_name sh) else owns base r (OName q) x
  | OCore q => if decide (q = p) then x ∈ blocks (fs_core sh) else owns base r (OCore q) x
  end.
Proof.
  destruct o as [| | |q|q]; simpl; [done|done| | |].
  - rewrite lookup_insert_is_Some. destruct (decide (x = p)) as [->|]; naive_solver.
  - destruct (decide (q = p)) as [->|Hq].
    + rewrite lookup_insert_eq. unfold ptr_block. split.
      * intros (sh' & n & [= <-] & -> & <-). by apply list_elem_of_singleton.
      * destruct (fs_name sh) as [n|] eqn:Hn; [|set_solver]. intros ->%list_elem_of_singleton. eauto.
    + rewrite lookup_insert_ne by done. done.
  - destruct (decide (q = p)) as [->|Hq]; [rewrite lookup_insert_eq|by rewrite lookup_insert_ne].
    split; [by intros (sh' & [= <-] & ?)|eauto].
Qed.

(** An address that no live block has is no share's and belongs to nobody. *)
Lemma fresh_share base r p : own_ok (owns base r) (rheap r) → p ∉ live (rheap r) →
  shares r !! p = None ∧ ∀ o, ¬ owns base r o p.
Proof.
  intros Ho Hp. assert (Hn : ∀ o, ¬ owns base r o p) by (intros o H; apply Hp, (ow_live _ _ Ho); eauto).
  split; [|done]. apply eq_None_not_Some. apply (Hn OShare).
Qed.

Section create.
Context (malloc_ok : nat → Z → bool).
Context (sizeof_FM_SHARE sizeof_FM_KEYDEF sizeof_HA_KEYSEG : Z) (now : Z).
Context (my_hasher_mysql5x : my_hasher_st) (MY_HASH_ADD_MARIADB : my_hasher_st → Z → my_hasher_st).
Context (get_rec_bits : bytes → Z → Z → Z) (uint2korr : bytes → Z).

Abbreviation reg_inv := (reg_inv my_hasher_mysql5x MY_HASH_ADD_MARIADB get_rec_bits uint2korr).
Abbreviation core_ok := (core_ok my_hasher_mysql5x MY_HASH_ADD_MARIADB get_rec_bits uint2korr).
Abbreviation defs_of := (defs_of my_hasher_mysql5x MY_HASH_ADD_MARIADB get_rec_bits uint2korr).
Abbreviation new_share := (new_share malloc_ok sizeof_FM_SHARE sizeof_FM_KEYDEF sizeof_HA_KEYSEG now).

(** Some allocation fails. *)
Definition no_memory : Prop := ∃ n size, malloc_ok n size = false.

(** What [fm_create] needs of the description of a table. *)
Record ci_ok (ci : FM_CREATE_INFO) : Prop := {
  ck_defs : Forall keydef_ok (ci_keydef ci);
  ck_keys : ci_keys ci ≤ 64;
  ck_reclength : 0 ≤ ci_reclength ci;
  ck_max : 1 ≤ ci_max_records ci ≤ 2 ^ 31;
  ck_auto : auto_there (ci_keydef ci) (u16 (ci_auto_key ci))
}.

(** The allocations of the core of a new share with keys succeed: the next [k] but the first. *)
Definition core_allocs (r : registry) (keys : Z) : Prop :=
  keys ≠ 0 → ∀ n size, (calls (rheap r) < n ≤ calls (rheap r) + 2 + 2 * Z.to_nat keys)%nat → malloc_ok n size = true.

Lemma defs_of_laws kds k : Forall keydef_ok kds → 0 ≤ k < Z.of_nat (length kds) → KeyOpsLaws (defs_of kds k).1.
Proof.
  intros Hk Hr. unfold RegistrySpec.defs_of, key_ops_of. destruct (lookup_lt_is_Some_2 kds (Z.to_nat k) ltac:(lia)) as [kd Hkd].
  rewrite Hkd. simpl. apply fm_ops_laws. by eapply Forall_lookup_1.
Qed.

(** The core that [new_share] builds in a heap. *)
Lemma new_core ci r nb : ci_ok ci → fresh (rheap r) → bucket_count (ci_max_records ci) = Some nb →
  chunk_alloc malloc_ok (ci_reclength ci) (ci_keys ci) (u32 (ci_max_records ci)) (core_zero (rheap r) malloc_ok) →
  (ci_keys ci ≠ 0 → ∀ n size, (calls (rheap r) < n < calls (rheap r) + 2 + 2 * Z.to_nat (ci_keys ci))%nat → malloc_ok n size = true) → ∃ c,
  fm_core_init_share (ci_reclength ci) (ci_keys ci) (u32 (ci_max_records ci)) (u32 nb) malloc_ok (core_zero (rheap r) malloc_ok) = Ret (tt, c) ∧
  is_Some (chunks c) ∧ foreign c = live (rheap r) ∧ heap_ok c ∧ core_ok (ci_keydef ci) (set_auto ci c) ∧
  table c = ∅ ∧ reclength c = ci_reclength ci.
Proof.
  intros Hci Hfr Hnb Hch0 Ha. destruct (bucket_count_spec (ci_max_records ci)) as (n & Hn & Hr & _). rewrite Hn in Hnb. injection Hnb as <-.
  pose proof (ck_max _ Hci) as Hmx. assert (Hpw : 2 ^ n < 2 ^ 32) by (apply Z.pow_lt_mono_r; lia).
  destruct (init_raw malloc_ok (defs_of (ci_keydef ci)) (ci_reclength ci) (ci_keys ci) (u32 (ci_max_records ci)) (u32 (2 ^ n))
    (core_zero (rheap r) malloc_ok)) as (c & Hrun & Hwf & Ht & H0 & Hk & Hrec & Hch & Hthere & Hfor).
  { constructor; [by apply Hci|split; [unfold ci_keys; lia|by apply Hci]|rewrite u32_small by lia; lia| | |done|done|intros; by apply Ha].
    - exists n. split; [|lia]. unfold init_nb. rewrite u32_small, decide_False by lia. done.
    - intros k Hk. apply defs_of_laws; [by apply Hci|done]. }
  exists c. split; [done|]. split; [done|]. split; [done|]. split.
  { destruct (wf_heap _ _ Hwf) as (? & ? & ?). rewrite set_ops_blocks in *. by split_and!. }
  split; [|split; [exact Ht|done]]. split_and!; [by simpl; rewrite Hk|by apply Hci|by apply Hci|].
  exists (heap c). apply (wf_set_auto _ ci) in Hwf. destruct c. exact Hwf.
Qed.

(** The new share right after its block has been allocated. *)
Definition share_zero (h : Heap) (ci : FM_CREATE_INFO) : FM_SHARE :=
  mkFS None (core_zero h malloc_ok) (ci_keydef ci) 0 0 false false 0 [].

Lemma new_share_own base r ci : reg_inv base None r → let p := calls (rheap r) in let h1 := mkHeap (S p) ({[ p ]} ∪ live (rheap r)) in
  shares r !! p = None ∧ fresh h1 ∧ own_ok (owns base (r_with h1 p (share_zero h1 ci) r)) h1.
Proof.
  intros [Ht Ho] p h1.
  assert (Hp : p ∉ live (rheap r)) by (intros H; pose proof (ow_fresh _ _ Ho _ H); unfold p in *; lia).
  destruct (fresh_share _ _ _ Ho Hp) as [Hnone Hown]. split; [done|]. split.
  { intros x. simpl. rewrite elem_of_union, elem_of_singleton. intros [->|Hx]; [lia|]. pose proof (ow_fresh _ _ Ho _ Hx). unfold p. lia. }
  eapply (own_alloc _ _ _ _ Ho OShare); [done|]. intros o x. rewrite owns_with. fold p.
  destruct o as [| | |q|q]; simpl; [naive_solver..| |]; case_decide as Hq; try naive_solver; subst q;
    (split; [intros H; by apply elem_of_nil in H|]); rewrite Hnone; naive_solver.
Qed.

(** The new share, its core created and nameless: everything is still accounted for. *)
Lemma new_share_core base r ci nb : reg_inv base None r → ci_ok ci → bucket_count (ci_max_records ci) = Some nb →
  core_allocs r (ci_keys ci) → let p := calls (rheap r) in let h1 := mkHeap (S p) ({[ p ]} ∪ live (rheap r)) in
  chunk_alloc malloc_ok (ci_reclength ci) (ci_keys ci) (u32 (ci_max_records ci)) (core_zero h1 malloc_ok) → ∃ c,
  fm_core_init_share (ci_reclength ci) (ci_keys ci) (u32 (ci_max_records ci)) (u32 nb) malloc_ok (core_zero h1 malloc_ok) = Ret (tt, c) ∧
  is_Some (chunks c) ∧ core_ok (ci_keydef ci) (set_auto ci c) ∧ (table c = ∅ ∧ reclength c = ci_reclength ci) ∧ shares r !! p = None ∧
  (∀ sh, fs_core sh = set_auto ci c → fs_name sh = None → own_ok (owns base (r_with (heap c) p sh r)) (heap c)).
Proof.
  intros Hr Hci Hnb Ha p h1 Hch0. destruct (new_share_own base r ci Hr) as (Hnone & Hfr & H1). fold p h1 in Hnone, Hfr, H1.
  destruct (new_core ci (r_heap h1 r) nb Hci Hfr Hnb Hch0) as (c & Hrun & Hch & Hfor & Hheap & Hcore & Htab).
  { intros Hk n size Hn. apply Ha; [done|]. simpl in Hn. unfold p in Hn. lia. }
  exists c. split; [done|]. split; [done|]. split; [done|]. split; [done|]. split; [done|]. intros sh Hsc Hsn.
  eapply (own_core _ _ _ _ H1 p (core_zero h1 malloc_ok) c); [done|done|done| | | |].
  - rewrite Hfor. unfold foreign. simpl. set_solver.
  - intros x. rewrite owns_with. by rewrite decide_True.
  - intros x. rewrite owns_with, decide_True, Hsc by done. done.
  - intros o x Hne. rewrite !owns_with. destruct o as [| | |q|q]; try done; case_decide; try done; subst; [by rewrite Hsn|done].
Qed.

(** The share that [new_share] makes. *)
Definition share_of (ci : FM_CREATE_INFO) (c : FM_SHARE_CORE) (nm : option (nat * bytes)) : FM_SHARE :=
  mkFS nm (set_auto ci c) (ci_keydef ci) (ci_max_key_length ci) 0 (ci_internal_table ci) (ci_internal_table ci) now [].

(** A share that nobody uses yet joins the tables, pending. *)
Lemma tab_join base r ci c p nb name e : reg_inv base None r → core_ok (ci_keydef ci) (set_auto ci c) → shares r !! p = None →
  ∀ h, tab_ok my_hasher_mysql5x MY_HASH_ADD_MARIADB get_rec_bits uint2korr (Some (p, 0))
    (mkReg h (<[p := share_of ci c (Some (nb, name))]> (shares r)) (handles r)
       (if ci_internal_table ci then fm_share_list r else p :: fm_share_list r) (THR_LOCK_fastmem r) e).
Proof.
  intros [Ht _] Hcore Hnone h.
  assert (Hu : users p (handles r) = O).
  { unfold users. apply map_size_empty_iff, map_empty. intros x. apply map_lookup_filter_None. right. intros fh Hx Hp. simpl in Hp.
    destruct (to_handle _ _ _ _ _ _ Ht _ _ Hx) as [sh Hsh]. congruence. }
  destruct (to_list _ _ _ _ _ _ Ht) as [Hnd Hlm]. constructor; simpl.
  - intros q sh [[<- <-]|[Hne Hq]]%lookup_insert_Some.
    + constructor; simpl; [by eexists|done|rewrite Hu, decide_True by done; done|rewrite Hu; lia|intros _; right; eauto|done|].
      split; [constructor|]. intros x. split; [intros H; by apply elem_of_nil in H|]. intros (fh & Hx & Hp & _). by destruct (users_none _ _ _ _ Hu Hx).
    + eapply share_inv_other; [| |by apply (to_share _ _ _ _ _ _ Ht)]; simpl; [by rewrite decide_False|done].
  - intros x fh Hx. apply lookup_insert_is_Some'. right. by eapply (to_handle _ _ _ _ _ _ Ht).
  - assert (Hpl : p ∉ fm_share_list r) by (rewrite Hlm; intros (sh & Hsh & _); congruence).
    destruct (ci_internal_table ci) eqn:Hint.
    + split; [done|]. intros q. rewrite Hlm. destruct (decide (q = p)) as [->|Hq].
      * rewrite lookup_insert_eq, Hnone. split; [by intros (? & ? & _)|]. intros (sh & [= <-] & H). simpl in H. congruence.
      * by rewrite lookup_insert_ne.
    + split; [by constructor|]. intros q. rewrite elem_of_cons, Hlm. destruct (decide (q = p)) as [->|Hq].
      * rewrite lookup_insert_eq. split; [|by left]. intros _. by eexists.
      * rewrite lookup_insert_ne by done. split; [intros [?|?]; done|by right].
  - apply Ht.
  - intros q k [= <- <-]. rewrite lookup_insert_eq. split; [by eexists|lia].
Qed.

(** The chunk array of a table without keys could not be allocated. *)
Lemma init_bare reclength_ max_records_ nb h1 : let c0 := core_zero h1 malloc_ok in ¬ chunk_alloc malloc_ok reclength_ 0 max_records_ c0 → ∃ c,
  fm_core_init_share reclength_ 0 max_records_ nb malloc_ok c0 = Ret (tt, c) ∧ bare c ∧ heap c = mkHeap (S (calls h1)) (live h1).
Proof.
  intros c0 Hch. eexists. split; [apply init_share_fails; apply not_true_is_false; exact Hch|]. split; [by constructor|done].
Qed.

(** [new_share] makes a pending share that is empty; or nothing, when its own block could not be
    had; or it stops for want of a chunk array or a name, with the share left to the error path. *)
Lemma new_share_spec base r name ci : reg_inv base None r → ci_ok ci → core_allocs r (ci_keys ci) →
  wp (new_share name ci) (λ res r', handles r' = handles r ∧ THR_LOCK_fastmem r' = THR_LOCK_fastmem r ∧
    ((∃ p sh, res = (Some p, true) ∧ reg_inv base (Some (p, 0)) r' ∧ shares r !! p = None ∧ shares r' = <[p := sh]> (shares r) ∧
        open_count sh = 0 ∧ new_table (ci_keydef ci) (ci_reclength ci) (ci_internal_table ci) sh ∧ snd <$> fs_name sh = Some name) ∨
     (res = (None, false) ∧ no_memory ∧ reg_inv base None r' ∧ shares r' = shares r) ∨
     (∃ p sh, res = (Some p, false) ∧ no_memory ∧ shares r !! p = None ∧ r' = r_with (rheap r') p sh r' ∧ shares r' = <[p := sh]> (shares r) ∧ fs_name sh = None ∧
        ((arrays_fit (fs_core sh) ∨ bare (fs_core sh)) ∧ NoDup (blocks (fs_core sh))) ∧ own_ok (owns base r') (rheap r') ∧ fm_share_list r' = fm_share_list r))) r.
Proof.
  intros Hr Hci Ha. unfold Registry.new_share. destruct (bucket_count_spec (ci_max_records ci)) as (n & Hn & _). rewrite Hn.
  apply wp_bind. eapply wp_run; [reflexivity|]. cbv beta zeta.
  wp_malloc Hr Hp Hr1.
  2: { apply wp_ret. split; [done|]. split; [done|]. right; left. split; [done|]. split; [|done]. by eexists _, _. }
  set (p := calls (rheap r)) in *. set (h1 := mkHeap (S p) ({[ p ]} ∪ live (rheap r))) in *.
  wp_step (@get_run registry). wp_step (@modify_run registry).
  set (sh0 := mkFS None (core_zero h1 malloc_ok) (ci_keydef ci) 0 0 false false 0 []).
  change (r_shares _ (r_heap h1 r)) with (r_with h1 p sh0 r).
  destruct (decide (chunk_alloc malloc_ok (ci_reclength ci) (ci_keys ci) (u32 (ci_max_records ci)) (core_zero h1 malloc_ok))) as [Hch|Hch].
  2: { destruct (decide (ci_keys ci = 0)) as [Ek|Ek]; [|destruct Hch; apply Ha; [done|simpl; unfold p; lia]].
       rewrite Ek in Hch. destruct (init_bare (ci_reclength ci) (u32 (ci_max_records ci)) (u32 (2 ^ n)) h1 Hch) as (c & Hinit & Hbare & Hheap).
       rewrite Ek. wp_step @r_with_on_share; [exact Hinit|]. wp_step r_with_deref. unfold fs_chunks. cbn [fs_core fs_with_core]. rewrite (br_chunks _ Hbare).
       apply wp_ret. split; [done|]. split; [done|]. right; right. destruct (new_share_own base r ci Hr) as (Hnone & _ & Ho1). fold p h1 in Hnone, Ho1.
       exists p, (fs_with_core c sh0). split; [done|]. split; [eexists _, _; by apply not_true_is_false|]. split; [done|].
       split; [unfold r_with; simpl; by rewrite insert_insert_eq|]. split; [done|]. split; [done|].
       split; [split; [by right|simpl; rewrite (bare_blocks _ Hbare); constructor]|]. split; [|done]. simpl.
       eapply (own_skip _ _ _ _ Ho1); [exact Hheap|lia|]. intros o x. rewrite !owns_with. destruct o as [| | |q|q]; try done.
       case_decide; [|done]. simpl. by rewrite (bare_blocks _ Hbare). }
  destruct (new_share_core base r ci (2 ^ n) Hr Hci Hn Ha Hch) as (c & Hinit & [cs Hcs] & Hcore & [Htab Hrl] & Hnone & Hown). cbv zeta in *. fold p h1 in Hinit, Hnone, Hown.
  wp_step @r_with_on_share; [exact Hinit|]. wp_step r_with_deref. unfold fs_chunks. cbn [fs_core fs_with_core]. rewrite Hcs.
  wp_step @r_with_on_share; [apply modify_run|]. wp_step r_with_store. cbn [fs_core fs_with_core fs_name fs_keydef open_count open_list sh0].
  change (heap (set_auto ci (with_heap (heap c) c))) with (heap c).
  assert (Ec : set_auto ci (with_heap (heap c) c) = set_auto ci c) by done. rewrite Ec. clear Ec. fold (share_of ci c None).
  set (r5 := r_with (heap c) p (share_of ci c None) r).
  assert (Ho5 : own_ok (owns base r5) (rheap r5)) by by apply Hown.
  unfold my_malloc. apply wp_bind. change (rheap r5) with (heap c) in Ho5.
  destruct (malloc_ok (calls (heap c)) (Z.of_nat (length name) + 1)) eqn:Em;
    (eapply wp_run; [cbv beta zeta; change (rheap r5) with (heap c); rewrite Em; reflexivity|cbv beta iota]).
  - set (nb := calls (heap c)). set (h6 := mkHeap (S nb) ({[ nb ]} ∪ live (heap c))).
    change (r_heap h6 r5) with (r_with h6 p (share_of ci c None) r). wp_step r_with_store. cbn [fs_with_name].
    change (fs_with_name (Some (nb, name)) (share_of ci c None)) with (share_of ci c (Some (nb, name))).
    apply wp_bind. eapply wp_run; [|apply wp_ret].
    { instantiate (1 := mkReg h6 (<[p := share_of ci c (Some (nb, name))]> (shares r)) (handles r)
        (if ci_internal_table ci then fm_share_list r else p :: fm_share_list r) (THR_LOCK_fastmem r) (r_errno r)).
      instantiate (1 := tt). by destruct (ci_internal_table ci). }
    split; [done|]. split; [done|]. left. exists p, (share_of ci c (Some (nb, name))). split; [done|].
    split; [|by split_and!]. split; [by eapply tab_join|]. simpl.
    eapply (own_alloc _ _ _ _ Ho5 (OName p)); [done|]. intros o x.
    rewrite (owns_ext _ (r_with h6 p (share_of ci c (Some (nb, name))) r)) by done. unfold r5. rewrite !owns_with. fold nb.
    destruct o as [| | |q|q]; simpl; [naive_solver..| |naive_solver]. case_decide as Hq; [subst q|naive_solver congruence].
    rewrite list_elem_of_singleton. split; [naive_solver|]. intros [H|[-> _]]; [by apply elem_of_nil in H|done].
  - apply wp_ret. split; [done|]. split; [done|]. right; right. exists p, (share_of ci c None).
    split; [done|]. split; [by eexists _, _|]. split; [done|]. split; [unfold r5, r_with; simpl; by rewrite insert_insert_eq|]. split; [done|]. split; [done|].
    split; [destruct (core_ok_fit _ _ _ _ _ _ Hcore) as (? & ? & _); split; [by left|done]|].
    split; [|done]. eapply (own_skip _ _ _ _ Ho5); [done|lia|]. intros o x. by apply owns_ext.
Qed.

(** ** fm_create *)

Abbreviation fm_create := (fm_create malloc_ok sizeof_FM_SHARE sizeof_FM_KEYDEF sizeof_HA_KEYSEG now).

(** The error path gives the memory of the half-made share back. *)
Lemma create_failed_run base r r' p sh : reg_inv base None r → shares r !! p = None → shares r' = <[p := sh]> (shares r) →
  handles r' = handles r → fm_share_list r' = fm_share_list r → fs_name sh = None →
  (arrays_fit (fs_core sh) ∨ bare (fs_core sh)) ∧ NoDup (blocks (fs_core sh)) → own_ok (owns base r') (rheap r') →
  create_failed p r' = Ret (tt, r_drop p sh r') ∧ reg_inv base None (r_drop p sh r').
Proof.
  intros [Ht _] Hnone Es Eh El Hn [Hfit Hnd] Ho.
  assert (Hsh : shares r' !! p = Some sh) by (rewrite Es; apply lookup_insert_eq).
  split.
  - unfold create_failed. rewrite (bind_Ret _ _ _ _ _ (deref_share_run _ _ _ Hsh)), Hn.
    pose proof (release_run base r' p sh Ho Hsh Hfit Hnd) as E. rewrite Hn in E. exact E.
  - split; [|by apply own_drop]. eapply (tab_ok_ext _ _ _ _ _ r); [|done..]. simpl. rewrite Es. by apply delete_insert_id.
Qed.

(** The reference that [fm_create] leaves in the share it returns. *)
Definition pin_of (ci : FM_CREATE_INFO) (pin : bool) (p : nat) : pending :=
  if ci_internal_table ci then Some (p, 0) else if pin then Some (p, 1) else None.

(** What [fm_create] returns, and the state it leaves. *)
Definition create_outcome (base : gset nat) (r : registry) (name : bytes) (ci : FM_CREATE_INFO) (pin : bool)
    (res : Z * option nat * bool) (r' : registry) : Prop :=
  THR_LOCK_fastmem r' = false ∧ handles r' = handles r ∧
  (∀ q sh, shares r !! q = Some sh → snd <$> fs_name sh ≠ Some name → shares r' !! q = Some sh) ∧
  match res with
  | (rc, Some p, new) => rc = 0 ∧ reg_inv base (pin_of ci pin p) r' ∧ ∃ sh, shares r' !! p = Some sh ∧
      fs_internal sh = ci_internal_table ci ∧ snd <$> fs_name sh = Some name ∧
      (∀ q shq, shares r' !! q = Some shq → q = p ∨ shares r !! q = Some shq) ∧
      (if new : bool then users p (handles r) = O ∧ new_table (ci_keydef ci) (ci_reclength ci) (ci_internal_table ci) sh ∧
         (∀ sh0, shares r !! p = Some sh0 → snd <$> fs_name sh0 = Some name)
       else ci_internal_table ci = false ∧ ∃ sh0, p ∈ fm_share_list r ∧ shares r !! p = Some sh0 ∧ snd <$> fs_name sh0 = Some name)
  | (rc, None, _) => rc = 1 ∧ no_memory ∧ reg_inv base None r'
  end.

Lemma new_users base r p : reg_inv base None r → shares r !! p = None → users p (handles r) = O.
Proof.
  intros [Ht _] Hnone. unfold users. apply map_size_empty_iff, map_empty. intros x. apply map_lookup_filter_None. right. intros fh Hx Hp.
  simpl in Hp. destruct (to_handle _ _ _ _ _ _ Ht _ _ Hx) as [sh Hsh]. congruence.
Qed.

(** The second half of [fm_create], when there is no share of that name to use. *)
Lemma create_new base r name ci pin : reg_inv base None r → ci_ok ci → core_allocs r (ci_keys ci) →
  (ci_internal_table ci = true → THR_LOCK_fastmem r = false) →
  wp (res ← new_share name ci; finish_create (negb (ci_internal_table ci)) pin true res) (create_outcome base r name ci pin) r.
Proof.
  intros Hr Hci Ha Hlock. wp_use (new_share_spec base r name ci Hr Hci Ha). intros res r1 (Eh & El & Hres).
  assert (Hfr : ∀ p sh, shares r !! p = None → ∀ q shq, shares r !! q = Some shq → <[p := sh]> (shares r) !! q = Some shq).
  { intros p sh Hp q shq Hq. rewrite lookup_insert_ne; [done|congruence]. }
  assert (Hbk : ∀ p sh q shq, <[p := sh]> (shares r) !! q = Some shq → q = p ∨ shares r !! q = Some shq).
  { intros p sh q shq [[<- _]|[_ ?]]%lookup_insert_Some; auto. }
  destruct Hres as [(p & sh & -> & Hr1 & Hnone & Es & Hc & Hnt & Hnm)|[(-> & Hmem & Hr1 & Es)|(p & sh & -> & Hmem & Hnone & _ & Es & Hn & Hcore & Ho & Ell)]];
    unfold finish_create; destruct (ci_internal_table ci) eqn:Hi; cbn [negb].
  - assert (Hsh : shares r1 !! p = Some sh) by (rewrite Es; apply lookup_insert_eq). pose proof Hnt as (_ & _ & Hint & Hdel & _). wp_step @ret_run. apply wp_ret.
    split; [rewrite El; auto|]. split; [done|]. split; [rewrite Es; eauto|]. unfold pin_of. rewrite Hi. split; [done|]. split; [done|]. exists sh.
    pose proof (new_users _ _ _ Hr Hnone). split_and!; try done; [rewrite Es; apply Hbk|congruence].
  - assert (Hsh : shares r1 !! p = Some sh) by (rewrite Es; apply lookup_insert_eq). pose proof (new_users _ _ _ Hr Hnone) as Hu. pose proof Hnt as (_ & _ & Hint & Hdel & _).
    assert (Hfin : ∀ n pend', n = extra pend' p → (pend' = None ∨ pend' = Some (p, 1)) → reg_inv base pend' (r_shares (<[p := fs_with_count n sh]>) r1)).
    { intros n pend' En Hp. apply (recount _ _ _ _ base (Some (p, 0))); try done; [by rewrite Eh, Hu|by intros ? ? [= <- _]| |congruence|rewrite Eh, Hu; lia].
      intros q k E. destruct Hp as [->| ->]; [done|]. injection E as <- <-. lia. }
    destruct pin.
    + apply wp_bind. wp_step store_share_run; [exact Hsh|]. eapply wp_run; [apply modify_run|]. cbv beta. apply wp_ret.
      rewrite Hc, u32_small by lia. split; [done|]. split; [done|].
      split; [simpl; rewrite Es, insert_insert_eq; eauto|]. unfold pin_of. rewrite Hi. split; [done|].
      split; [apply reg_inv_lock, Hfin; [simpl; by rewrite decide_True|by right]|].
      exists (fs_with_count (0 + 1) sh). simpl. rewrite lookup_insert_eq. split_and!; try done; [rewrite Es, insert_insert_eq; apply Hbk|congruence].
    + apply wp_bind. wp_step @ret_run. eapply wp_run; [apply modify_run|]. cbv beta. apply wp_ret.
      split; [done|]. split; [done|]. split; [simpl; rewrite Es; eauto|]. unfold pin_of. rewrite Hi. split; [done|].
      split; [|exists sh; split_and!; try done; [simpl; rewrite Es; apply Hbk|congruence]]. apply reg_inv_lock. rewrite <-(r_shares_same p sh r1 Hsh), <-(same_count sh). apply Hfin; [done|by left].
  - wp_step @ret_run. wp_step @ret_run. apply wp_ret. split; [rewrite El; auto|]. split; [done|]. rewrite Es. by split_and!.
  - wp_step (@modify_run registry). wp_step @ret_run. apply wp_ret. split; [done|]. split; [done|]. simpl. rewrite Es. split; [done|].
    split; [done|]. split; [done|]. by apply reg_inv_lock.
  - wp_step @ret_run. destruct (create_failed_run base r r1 p sh) as [E Hr2]; [done..|]. wp_step E. apply wp_ret.
    split; [simpl; rewrite El; auto|]. split; [done|]. split; [simpl; rewrite Es, delete_insert_id by done; done|]. by split_and!.
  - wp_step (@modify_run registry). destruct (create_failed_run base r (r_lock false r1) p sh) as [E Hr2]; try done.
    wp_step E. apply wp_ret. split; [done|]. split; [done|]. split; [simpl; rewrite Es, delete_insert_id by done; done|]. by split_and!.
Qed.

(** A table of that name is in use: [fm_create] hands its share out. *)
Lemma create_reuse base r name ci pin p sh : reg_inv base None r → ci_internal_table ci = false → p ∈ fm_share_list r →
  shares r !! p = Some sh → fs_internal sh = false → snd <$> fs_name sh = Some name → open_count sh ≠ 0 →
  wp (finish_create true pin false (Some p, true)) (create_outcome base r name ci pin) r.
Proof.
  intros Hr Hi Hin Hsh Hint Hnm Hc. pose proof (count_bound _ _ _ _ _ _ _ _ _ Hr Hsh) as Hb.
  pose proof (to_share _ _ _ _ _ _ (proj1 Hr) _ _ Hsh) as HI. pose proof (si_count _ _ _ _ _ _ _ _ HI) as E1. cbn [extra] in E1.
  unfold finish_create. destruct pin.
  - apply wp_bind. wp_step store_share_run; [exact Hsh|]. eapply wp_run; [apply modify_run|]. cbv beta. apply wp_ret.
    rewrite u32_small by lia. split; [done|]. split; [done|].
    split; [intros q shq Hq Hnq; simpl; rewrite lookup_insert_ne; [done|]; intros <-; congruence|].
    unfold pin_of. rewrite Hi. split; [done|].
    split; [|exists (fs_with_count (open_count sh + 1) sh); simpl; rewrite lookup_insert_eq; split_and!; try done; [intros q shq [[<- _]|[_ ?]]%lookup_insert_Some; auto|by exists sh]].
    apply reg_inv_lock, (recount _ _ _ _ base None); try done; [simpl; rewrite decide_True by done; lia| |intros _; left; lia|].
    { intros q k [= <- <-]. lia. }
    intros Hu. right. destruct (si_ready _ _ _ _ _ _ _ _ HI Hu); done.
  - apply wp_bind. wp_step @ret_run. eapply wp_run; [apply modify_run|]. cbv beta. apply wp_ret.
    split; [done|]. split; [done|]. split; [done|]. unfold pin_of. rewrite Hi. split; [done|]. split; [by apply reg_inv_lock|].
    exists sh. split_and!; try done; [by right|by exists sh].
Qed.

(** An unused table of that name has been freed first. *)
Lemma create_over base r r2 name ci pin p sh res r3 : reg_inv base None r → reg_inv base None r2 → shares r !! p = Some sh →
  snd <$> fs_name sh = Some name → shares r2 = delete p (shares r) → handles r2 = handles r →
  create_outcome base r2 name ci pin res r3 → create_outcome base r name ci pin res r3.
Proof.
  intros Hr Hr2 Hsh Hnm Es Eh (H1 & H2 & Hf & H3). split; [done|]. split; [by rewrite H2, Eh|]. split.
  { intros q shq Hq Hnq. apply Hf; [|done]. rewrite Es. apply lookup_delete_Some. split; [|done]. intros <-. congruence. }
  rewrite Eh in H3. destruct res as [[rc [q|]] new]; [|done].
  destruct H3 as (-> & H3 & shq & Hq & Hqi & Hqn & Hbk & Hnew). split; [done|]. split; [done|]. exists shq. split; [done|]. split; [done|]. split; [done|].
  split; [intros x shx Hx; destruct (Hbk _ _ Hx) as [?|Hx']; [by left|right]; rewrite Es in Hx'; by apply lookup_delete_Some in Hx' as [_ ?]|].
  destruct new.
  { destruct Hnew as (? & ? & Hno). split_and!; try done. intros sh0 Hs0. destruct (decide (p = q)) as [<-|Hne]; [congruence|].
    apply Hno. rewrite Es. by apply lookup_delete_Some. }
  destruct Hnew as (? & sh0 & Hq0 & Hs0 & Hn0). split; [done|]. exists sh0. rewrite Es in Hs0. apply lookup_delete_Some in Hs0 as [Hne Hs0].
  split; [|done]. destruct Hr as [Ht1 _], Hr2 as [Ht2 _]. apply (to_list _ _ _ _ _ _ Ht2) in Hq0 as (sh1 & Hs1 & Hi1).
  apply (to_list _ _ _ _ _ _ Ht1 : _ ∧ _). exists sh1. rewrite Es in Hs1. by apply lookup_delete_Some in Hs1 as [_ ?].
Qed.

(** [fm_create] on a registry at rest. *)
Lemma create_spec base r name ci pin : reg_ok my_hasher_mysql5x MY_HASH_ADD_MARIADB get_rec_bits uint2korr base r →
  ci_ok ci → core_allocs r (ci_keys ci) → wp (fm_create name ci pin) (create_outcome base r name ci pin) r.
Proof.
  intros [Hr Hl] Hci Ha. unfold Registry.fm_create. destruct (ci_internal_table ci) eqn:Hi; cbn [negb].
  - wp_step @ret_run. rewrite bool_decide_true by done. pose proof (create_new base r name ci pin Hr Hci Ha) as H. rewrite Hi in H. by apply H.
  - apply wp_bind. wp_step (mutex_lock_run r Hl).
    assert (Hr1 : reg_inv base None (r_lock true r)) by by apply reg_inv_lock.
    destruct (find_spec _ _ _ _ name base None _ Hr1) as (o & E & Ho). wp_step E. destruct o as [p|].
    + destruct Ho as (sh & Hin & Hsh & Hint & Hnm). wp_step (deref_share_run _ _ _ Hsh). case_decide as Hc.
      * assert (Hu : users p (handles (r_lock true r)) = O).
        { pose proof (si_count _ _ _ _ _ _ _ _ (to_share _ _ _ _ _ _ (proj1 Hr1) _ _ Hsh)) as E1. cbn [extra] in E1. lia. }
        destruct (fm_free_spec _ _ _ _ base None _ p sh Hr1 Hsh Hu ltac:(done)) as (r2 & Ef & Hr2 & Es & Eh & El & Ec).
        wp_step Ef. apply wp_ret. rewrite bool_decide_true by done.
        eapply wp_mono; [pose proof (create_new base r2 name ci pin Hr2 Hci) as H; rewrite Hi in H; apply H; [|done]|].
        { intros Hk n size Hn. apply Ha; [done|]. rewrite Ec in Hn. simpl in Hn. lia. }
        intros res r3. by apply (create_over base r r2 name ci pin p sh).
      * apply wp_ret. rewrite bool_decide_false by done. wp_step @ret_run. by apply (create_reuse base (r_lock true r) name ci pin p sh).
    + eapply wp_run; [reflexivity|]. cbv beta. rewrite bool_decide_true by done.
      pose proof (create_new base (r_lock true r) name ci pin Hr1 Hci Ha) as H. rewrite Hi in H. by apply H.
Qed.
End create.
