(* ===== verification/RegistrySafe.v ===== *)
(** Opening, closing, dropping and renaming tables, and row commands on open tables: each
    operation keeps the invariant of the registry, so that no sequence of them touches freed
    memory or leaks. *)

From S2P Require Import Prelude CoreState CoreOps RowOps Shape Inv Chains Reads Alloc Freelist Steps Insert Delete Lockset Update Clear Lifecycle Spec AutoInc Hash Create Data Registry DataSpec RegistrySpec.

(** * Handles *)

(** The handles of share [q] decide how many there are. *)
Lemma users_ext q (m m' : gmap nat FM_HANDLE) : (∀ x fh, oh_share fh = q → (m' !! x = Some fh ↔ m !! x = Some fh)) → users q m' = users q m.
Proof.
  intros H. unfold users. f_equal. apply map_eq. intros x. apply option_eq. intros fh. rewrite !map_lookup_filter_Some. simpl.
  split; intros [Hx Hq]; (split; [|done]); by apply H.
Qed.

Lemma fs_name_count n sh : fs_name (fs_with_count n sh) = fs_name sh.
Proof. done. Qed.

Lemma wp_assoc {S A B C} (m : M S A) (f : A → M S B) (g : B → M S C) Q s :
  wp ((m ≫= f) ≫= g) Q s → wp (m ≫= λ a, f a ≫= g) Q s.
Proof.
  intros (c & s' & E & H). exists c, s'. split; [|done]. unfold mbind, M_bind in *. destruct (m s) as [[a s1]| |]; done.
Qed.

(** [r_handles] with the whole map given. *)
Definition with_handles (m : gmap nat FM_HANDLE) : registry → registry := r_handles (λ _, m).

Lemma with_handles_id r : with_handles (handles r) r = r.
Proof. by destruct r. Qed.

(** [m] neither reads nor changes the handles. *)
Definition hframe {A} (m : RM A) : Prop := ∀ hs r a r', m r = Ret (a, r') → m (with_handles hs r) = Ret (a, with_handles hs r').

Lemma hframe_ret {A} (a : A) : hframe (mret a).
Proof. intros hs r b r' [= <- <-]. done. Qed.

Lemma hframe_bind {A B} (m : RM A) (f : A → RM B) : hframe m → (∀ a, hframe (f a)) → hframe (m ≫= f).
Proof.
  intros Hm Hf hs r b r'. unfold mbind, M_bind. destruct (m r) as [[a r1]| |] eqn:E; [|done..]. rewrite (Hm hs _ _ _ E). by apply Hf.
Qed.

Lemma hframe_free p : hframe (my_free p).
Proof. intros hs r a r'. unfold my_free. simpl. case_decide; [|done]. by intros [= <- <-]. Qed.

Lemma hframe_deref p : hframe (deref_share p).
Proof.
  intros hs r a r'. unfold deref_share, mbind, M_bind, get. simpl. destruct (shares r !! p); simpl; [|done]. by intros [= <- <-].
Qed.

Lemma hframe_on_share {A} p (m : SM A) : hframe (on_share p m).
Proof.
  intros hs r a r'. unfold on_share. simpl. destruct (shares r !! p) as [sh|]; [|done].
  destruct (m (with_heap (rheap r) (fs_core sh))) as [[b c]| |]; [|done..]. by intros [= <- <-].
Qed.

Lemma hframe_fm_free p : hframe (fm_free p).
Proof.
  unfold fm_free. apply hframe_bind; [apply hframe_deref|]. intros sh. apply hframe_bind.
  { destruct (fs_internal sh); [apply hframe_ret|]. intros hs r a r' [= <- <-]. done. }
  intros _. apply hframe_bind; [apply hframe_on_share|]. intros _. apply hframe_bind.
  { destruct (fs_name sh); [apply hframe_free|apply hframe_ret]. }
  intros _. apply hframe_bind; [apply hframe_free|]. intros _ hs r a r' [= <- <-]. done.
Qed.

(** A new name, the block [nb] of the caller, replaces the name of share [p]. *)
Lemma own_rename base r p sh n nb (name : bytes) : own_ok (owns (base ∪ {[ nb ]}) r) (rheap r) → nb ∉ base → shares r !! p = Some sh →
  fs_name sh = Some n → let h := mkHeap (calls (rheap r)) (live (rheap r) ∖ {[ n.1 ]}) in
  own_ok (owns base (r_with h p (fs_with_name (Some (nb, name)) sh) r)) h.
Proof.
  intros Ho Hnb Hsh Hname h. assert (Hold : owns (base ∪ {[ nb ]}) r (OName p) n.1) by by exists sh, n.
  assert (Hnew : owns (base ∪ {[ nb ]}) r OBase nb) by (simpl; set_solver).
  assert (Hnn : n.1 ≠ nb). { intros En. rewrite En in Hold. by pose proof (ow_one _ _ Ho _ _ _ Hold Hnew). }
  assert (Hf : own_ok (λ o x, owns (base ∪ {[ nb ]}) r o x ∧ x ∉ ({[ n.1 ]} : gset nat)) h) by by eapply (own_free _ _ _ _ Ho {[ n.1 ]}).
  eapply (own_move _ _ _ _ Hf nb OBase (OName p)); [done|split; [done|set_solver]|]. intros o x. rewrite owns_with, not_elem_of_singleton.
  assert (Hother : o ≠ OBase → owns (base ∪ {[ nb ]}) r o x → x ≠ nb).
  { intros Hne Hx ->. by pose proof (ow_one _ _ Ho OBase o nb Hnew Hx). }
  assert (Hother' : o ≠ OName p → owns (base ∪ {[ nb ]}) r o x → x ≠ n.1).
  { intros Hne Hx ->. by pose proof (ow_one _ _ Ho (OName p) o _ Hold Hx). }
  destruct o as [| | |q|q]; simpl in *.
  - split; [intros Hx|set_solver]. left. split; [by intros ->|]. split; [set_solver|]. apply Hother'; [done|set_solver].
  - naive_solver.
  - assert (x = p → is_Some (shares r !! x)) by (intros ->; by eexists). naive_solver.
  - case_decide as Hq; [subst q|naive_solver congruence]. rewrite list_elem_of_singleton. split; [naive_solver|].
    intros [(_ & (? & n' & ? & ? & <-) & Hx)|[-> _]]; [congruence|done].
  - case_decide as Hq; [subst q|naive_solver]. rewrite Hsh in *. naive_solver.
Qed.

(** * Attaching and detaching a handle *)

Section safe.
Context (my_hasher_mysql5x : my_hasher_st) (MY_HASH_ADD_MARIADB : my_hasher_st → Z → my_hasher_st).
Context (get_rec_bits : bytes → Z → Z → Z) (uint2korr : bytes → Z).

Abbreviation reg_inv := (reg_inv my_hasher_mysql5x MY_HASH_ADD_MARIADB get_rec_bits uint2korr).
Abbreviation reg_ok := (reg_ok my_hasher_mysql5x MY_HASH_ADD_MARIADB get_rec_bits uint2korr).
Abbreviation tab_ok := (tab_ok my_hasher_mysql5x MY_HASH_ADD_MARIADB get_rec_bits uint2korr).
Abbreviation share_inv := (share_inv my_hasher_mysql5x MY_HASH_ADD_MARIADB get_rec_bits uint2korr).
Abbreviation core_ok := (core_ok my_hasher_mysql5x MY_HASH_ADD_MARIADB get_rec_bits uint2korr).
Abbreviation defs_of := (defs_of my_hasher_mysql5x MY_HASH_ADD_MARIADB get_rec_bits uint2korr).

Lemma inv_share base pend r p sh : reg_inv base pend r → shares r !! p = Some sh → share_inv pend (handles r) p sh.
Proof. intros [Ht _]. apply Ht. Qed.

Lemma inv_base_live base pend r x : reg_inv base pend r → x ∈ base → x ∈ live (rheap r).
Proof. intros [_ Ho] Hx. apply (ow_live _ _ Ho). by exists OBase. Qed.

Lemma share_inv_handles pend m m' q sh : (∀ x fh, oh_share fh = q → (m' !! x = Some fh ↔ m !! x = Some fh)) →
  share_inv pend m q sh → share_inv pend m' q sh.
Proof.
  intros H [H1 H2 H3 H4 H5 H6 [H7 H8]]. pose proof (users_ext q m m' H) as E. constructor; try done; rewrite ?E; try done.
  split; [done|]. intros x. rewrite H8. split; intros (fh & Hx & Hq & Hl); exists fh; split_and!; try done; by apply H.
Qed.

(** The share of an open in progress, with and without the handle. *)
Definition with_open (n : Z) (l : list nat) (sh : FM_SHARE) : FM_SHARE := fs_with_open_list l (fs_with_count n sh).

(** The caller's block [h] becomes a handle of share [p], which has been chosen for opening; its keys
    still have to be wired. *)
Lemma attach base pend r h p sh fh n l : reg_inv (base ∪ {[ h ]}) pend r → h ∉ base → shares r !! p = Some sh →
  (∀ q k, pend = Some (q, k) → q = p) → Z.of_nat (size (handles r)) + 3 < 2 ^ 32 →
  oh_share fh = p → n = Z.of_nat (users p (handles r)) + 1 → l = (if open_listed fh then h :: open_list sh else open_list sh) →
  reg_inv base (Some (p, 0)) (r_handles (<[h := fh]>) (r_shares (<[p := with_open n l sh]>) r)).
Proof.
  intros [Ht Ho] Hb Hsh Hp Hsz Hfp -> ->. assert (Hhb : owns (base ∪ {[ h ]}) r OBase h) by (simpl; set_solver).
  assert (Hh : handles r !! h = None).
  { apply eq_None_not_Some. intros H. by pose proof (ow_one _ _ Ho OBase OHandle h Hhb H). }
  destruct (to_share _ _ _ _ _ _ Ht _ _ Hsh) as [H1 H2 H3 H4 H5 H6 [H7 H8]].
  split.
  - constructor; simpl.
    + intros q shq [[<- <-]|[Hne Hq]]%lookup_insert_Some.
      * constructor; simpl; try done; rewrite ?users_insert, ?Hfp, ?decide_True by done; [lia|by left|right; eauto|].
        assert (Hhl : h ∉ open_list sh) by (rewrite H8; intros (? & ? & _); congruence). split.
        { destruct (open_listed fh); [by constructor|done]. }
        intros x. destruct (decide (x = h)) as [->|Hx].
        -- rewrite lookup_insert_eq. destruct (open_listed fh) eqn:El.
           ++ split; [intros _; by exists fh|intros _; by left].
           ++ split; [done|]. intros (? & [= <-] & _ & ?). congruence.
        -- rewrite lookup_insert_ne by done. rewrite <-H8. destruct (open_listed fh); [|done]. rewrite elem_of_cons. naive_solver.
      * eapply (share_inv_handles _ (handles r)); [intros x f Hf; rewrite lookup_insert_Some; naive_solver|].
        eapply share_inv_other; [| |by apply (to_share _ _ _ _ _ _ Ht)].
        -- destruct pend as [[a k]|]; simpl; rewrite ?(Hp _ _ eq_refl), ?decide_False by done; done.
        -- intros k Hk. destruct Hne. symmetry. by eapply Hp.
    + intros x f [[<- <-]|[Hne Hx]]%lookup_insert_Some; apply lookup_insert_is_Some'; [by left|]. right. by eapply (to_handle _ _ _ _ _ _ Ht).
    + destruct (to_list _ _ _ _ _ _ Ht) as [Hnd Hlm]. split; [done|]. intros q. rewrite Hlm. destruct (decide (p = q)) as [<-|].
      * rewrite lookup_insert_eq, Hsh. split; intros (? & [= <-] & ?); by eexists.
      * by rewrite lookup_insert_ne.
    + rewrite map_size_insert_None by done. lia.
    + intros q k [= <- <-]. rewrite lookup_insert_eq. split; [by eexists|lia].
  - eapply (own_move _ _ _ _ Ho h OBase OHandle); [done|done|]. intros o x.
    pose proof (owns_update base r p sh (with_open (Z.of_nat (users p (handles r)) + 1) (if open_listed fh then h :: open_list sh else open_list sh) sh) o x Hsh eq_refl eq_refl) as E.
    assert (Hother : o ≠ OBase → owns (base ∪ {[ h ]}) r o x → x ≠ h).
    { intros Hne Hx ->. by pose proof (ow_one _ _ Ho OBase o h Hhb Hx). }
    destruct o as [| | |q|q]; simpl in *.
    + set_solver.
    + rewrite lookup_insert_is_Some'. naive_solver.
    + rewrite E. naive_solver.
    + rewrite E. naive_solver.
    + rewrite E. naive_solver.
Qed.

(** A handle leaves its share: its block is the caller's again.  The share is still to be looked at,
    since it may have to go now. *)
Lemma detach base r h p sh fh : reg_inv base None r → handles r !! h = Some fh → oh_share fh = p → shares r !! p = Some sh →
  reg_inv (base ∪ {[ h ]}) (Some (p, 0))
    (r_handles (delete h) (r_shares (<[p := with_open (open_count sh - 1) (chain_remove h (open_list sh)) sh]>) r)).
Proof.
  intros [Ht Ho] Hh Hfp Hsh. pose proof (users_pos p _ _ _ Hh Hfp) as Hpos.
  destruct (to_share _ _ _ _ _ _ Ht _ _ Hsh) as [H1 H2 H3 H4 H5 H6 [H7 H8]]. destruct (chain_remove_spec h _ H7) as [Hcn Hcm].
  split.
  - constructor; simpl.
    + intros q shq [[<- <-]|[Hne Hq]]%lookup_insert_Some.
      * constructor; simpl; try done; rewrite ?(users_delete _ _ _ _ Hh), ?Hfp, ?decide_True by done; [simpl in H3; lia|by left|right; eauto|].
        split; [done|]. intros x. rewrite Hcm, H8. setoid_rewrite lookup_delete_Some. naive_solver.
      * eapply (share_inv_handles _ (handles r)); [intros x f Hf; rewrite lookup_delete_Some; naive_solver congruence|].
        eapply share_inv_other; [| |by apply (to_share _ _ _ _ _ _ Ht)]; simpl; [by rewrite decide_False|done].
    + intros x f [Hne Hx]%lookup_delete_Some. apply lookup_insert_is_Some'. right. by eapply (to_handle _ _ _ _ _ _ Ht).
    + destruct (to_list _ _ _ _ _ _ Ht) as [Hnd Hlm]. split; [done|]. intros q. rewrite Hlm. destruct (decide (p = q)) as [<-|].
      * rewrite lookup_insert_eq, Hsh. split; intros (? & [= <-] & ?); by eexists.
      * by rewrite lookup_insert_ne.
    + pose proof (to_size _ _ _ _ _ _ Ht). pose proof (map_size_delete_Some h (handles r) ltac:(by eexists)). lia.
    + intros q k [= <- <-]. rewrite lookup_insert_eq. split; [by eexists|lia].
  - assert (Hho : owns base r OHandle h) by by eexists.
    eapply (own_move _ _ _ _ Ho h OHandle OBase); [done|done|]. intros o x.
    pose proof (owns_update base r p sh (with_open (open_count sh - 1) (chain_remove h (open_list sh)) sh) o x Hsh eq_refl eq_refl) as E.
    assert (Hother : o ≠ OHandle → owns base r o x → x ≠ h).
    { intros Hne Hx ->. by pose proof (ow_one _ _ Ho OHandle o h Hho Hx). }
    destruct o as [| | |q|q]; simpl in *.
    + set_solver.
    + rewrite lookup_delete_is_Some. naive_solver.
    + rewrite E. naive_solver.
    + rewrite E. naive_solver.
    + rewrite E. naive_solver.
Qed.

(** The end of an operation that had chosen a share: nothing is pending any more. *)
Lemma settle base k r p sh : reg_inv base (Some (p, k)) r → shares r !! p = Some sh → open_count sh = Z.of_nat (users p (handles r)) →
  (delete_on_close sh = true → 0 < open_count sh) →
  ((0 < users p (handles r))%nat → set_ops (defs_of (fs_keydef sh)) (fs_core sh) = fs_core sh) → reg_inv base None r.
Proof.
  intros Hr Hsh Hc Hd Hw. rewrite <-(r_shares_same p sh r Hsh), <-(same_count sh).
  apply (recount _ _ _ _ base (Some (p, k))); try done; simpl; [lia|by intros ? ? [= <- _]|auto|auto].
Qed.

(** * Wiring the keys of an opened share *)

Abbreviation wire_keys := (wire_keys my_hasher_mysql5x MY_HASH_ADD_MARIADB get_rec_bits uint2korr).

Lemma set_ops_twice defs c : set_ops defs (set_ops defs c) = set_ops defs c.
Proof.
  unfold set_ops. simpl. destruct (keydef c) as [[q l]|]; [|done]. simpl. unfold with_keydef, prod_map. simpl. do 3 f_equal.
  apply list_eq. intros i. rewrite !list_lookup_imap. by destruct (l !! i).
Qed.

(** The share with its keys wired, in the heap [h]. *)
Definition wired (h : Heap) (sh : FM_SHARE) : FM_SHARE := fs_with_core (with_heap h (set_ops (defs_of (fs_keydef sh)) (fs_core sh))) sh.

Lemma wired_table h sh : table (fs_core (wired h sh)) = table (fs_core sh).
Proof. done. Qed.

Lemma wire_spec base r p sh : reg_inv base (Some (p, 0)) r → shares r !! p = Some sh → (0 < users p (handles r))%nat →
  wire_keys p r = Ret (tt, r_shares (<[p := wired (rheap r) sh]>) r) ∧ reg_inv base None (r_shares (<[p := wired (rheap r) sh]>) r).
Proof.
  intros Hr Hsh Hu. pose proof (inv_share _ _ _ _ _ Hr Hsh) as [H1 H2 H3 H4 H5 H6 H7].
  destruct (core_ok_fit _ _ _ _ _ _ H2) as (_ & _ & Hkt). split.
  - unfold Registry.wire_keys. rewrite (bind_Ret _ _ _ _ _ (deref_share_run _ _ _ Hsh)). unfold on_share. rewrite Hsh.
    rewrite key_ops_init_set by exact Hkt. done.
  - simpl in H3. rewrite decide_True in H3 by done. eapply (share_update _ _ _ _ base (Some (p, 0))); try done.
    + simpl. change (blocks (set_ops (defs_of (fs_keydef sh)) (fs_core sh)) = blocks (fs_core sh)). apply set_ops_blocks.
    + constructor; try done; simpl; [|intros _; right|intros _; left; lia].
      * destruct H2 as (Ha & Hb & Hc & h & Hwf). split; [done|]. split; [done|]. split; [done|]. exists h.
        rewrite set_ops_reheap, set_ops_twice. exact Hwf.
      * by rewrite set_ops_reheap, set_ops_twice.
    + by intros ? ? [= <- _].
Qed.

(** * Closing *)

Lemma chain_remove_id x l : x ∉ l → chain_remove x l = l.
Proof. induction l as [|y l IH]; simpl; [done|]. rewrite elem_of_cons. intros H. rewrite decide_False by naive_solver. f_equal. naive_solver. Qed.

(** A share that has lost a reference: it goes when it was the last and the table was dropped. *)
Definition close_tail (p : nat) : RM () :=
  sh ← deref_share p;
  if bool_decide (open_count sh = 0) && delete_on_close sh then fm_free p else mret tt.

Lemma hframe_close_tail p : hframe (close_tail p).
Proof.
  unfold close_tail. apply hframe_bind; [apply hframe_deref|]. intros sh. destruct (_ && _); [apply hframe_fm_free|apply hframe_ret].
Qed.

(** What is left of the shares after share [p] has lost a handle. *)
Definition closed_shares (p h : nat) (sh : FM_SHARE) (m : gmap nat FM_SHARE) : gmap nat FM_SHARE :=
  if bool_decide (open_count sh = 1) && delete_on_close sh then delete p m
  else <[p := with_open (open_count sh - 1) (chain_remove h (open_list sh)) sh]> m.

Lemma close_tail_spec base r p h sh sh' : reg_inv base (Some (p, 0)) r → shares r = <[p := sh']> (shares r) →
  sh' = with_open (open_count sh - 1) (chain_remove h (open_list sh)) sh →
  set_ops (defs_of (fs_keydef sh)) (fs_core sh) = fs_core sh →
  ∃ r', close_tail p r = Ret (tt, r') ∧ reg_inv base None r' ∧ shares r' = closed_shares p h sh (shares r) ∧ handles r' = handles r ∧
    THR_LOCK_fastmem r' = THR_LOCK_fastmem r ∧ calls (rheap r') = calls (rheap r).
Proof.
  intros Hr Hsh -> Hw. assert (Hs : shares r !! p = Some (with_open (open_count sh - 1) (chain_remove h (open_list sh)) sh)).
  { rewrite Hsh. apply lookup_insert_eq. }
  pose proof (si_count _ _ _ _ _ _ _ _ (inv_share _ _ _ _ _ Hr Hs)) as Hc. simpl in Hc. rewrite decide_True in Hc by done.
  unfold close_tail. rewrite (bind_Ret _ _ _ _ _ (deref_share_run _ _ _ Hs)). simpl. unfold closed_shares.
  replace (bool_decide (open_count sh = 1)) with (bool_decide (open_count sh - 1 = 0)) by (apply bool_decide_ext; lia).
  destruct (bool_decide (open_count sh - 1 = 0) && delete_on_close sh) eqn:Hd.
  - apply andb_true_iff in Hd as [Hz%bool_decide_eq_true Hd].
    destruct (fm_free_spec _ _ _ _ base (Some (p, 0)) r p _ Hr Hs) as (r' & E & Hr' & Es & Eh & El & Ec); [lia|by intros ? ? [= <- _]|].
    exists r'. split; [done|]. by split_and!.
  - exists r. split; [done|]. split; [|by split_and!]. eapply settle; [done|done|simpl; lia| |simpl; auto]. simpl. intros E. rewrite E in Hd.
    rewrite andb_true_r, bool_decide_eq_false in Hd. lia.
Qed.

Lemma closed_wired base r h fh sh : reg_inv base None r → handles r !! h = Some fh → shares r !! oh_share fh = Some sh →
  set_ops (defs_of (fs_keydef sh)) (fs_core sh) = fs_core sh.
Proof.
  intros Hr Hh Hsh. by destruct (si_ready _ _ _ _ _ _ _ _ (inv_share _ _ _ _ _ Hr Hsh) (users_pos _ _ _ _ Hh eq_refl)).
Qed.

Lemma handle_share base r h fh : reg_inv base None r → handles r !! h = Some fh → ∃ sh, shares r !! oh_share fh = Some sh.
Proof. intros [Ht _] Hh. by apply (to_handle _ _ _ _ _ _ Ht _ _ Hh). Qed.

Lemma deref_handle_run h r fh : handles r !! h = Some fh → deref_handle h r = Ret (fh, r).
Proof. intros H. unfold deref_handle. rewrite (bind_Ret _ _ _ _ _ (get_run _)). by rewrite H. Qed.

(** The first half of [fm_close]: off the list, one reference less. *)
Lemma unlist_run r h fh p sh : handles r !! h = Some fh → shares r !! p = Some sh → (open_listed fh = false → h ∉ open_list sh) →
  1 ≤ open_count sh < 2 ^ 32 → ∃ hs, handles (with_handles hs r) = hs ∧
  ((if open_listed fh then
     store_share (λ sh, fs_with_open_list (chain_remove h (open_list sh)) sh) p;;
     modify (r_handles (alter (λ fh, mkFH (oh_share fh) (oh_info fh) (oh_mode fh) false) h))
   else mret tt);;
   store_share (λ sh, fs_with_count (u32 (open_count sh - 1)) sh) p) r =
  Ret (tt, with_handles hs (r_shares (<[p := with_open (open_count sh - 1) (chain_remove h (open_list sh)) sh]>) r)) ∧ delete h hs = delete h (handles r).
Proof.
  intros Hh Hsh Hn Hc. destruct (open_listed fh).
  - exists (alter (λ fh, mkFH (oh_share fh) (oh_info fh) (oh_mode fh) false) h (handles r)). split; [done|]. split; [|apply delete_alter_eq].
    erewrite (bind_Ret _ _ _ tt); [|rewrite (bind_Ret _ _ _ _ _ (store_share_run _ _ _ _ Hsh)); reflexivity].
    erewrite store_share_run; [|simpl; apply lookup_insert_eq]. do 2 f_equal. unfold r_shares, r_handles, with_handles. simpl.
    rewrite insert_insert_eq. rewrite u32_small by lia. done.
  - exists (handles r). split; [done|]. split; [|done]. rewrite (bind_Ret _ _ _ _ _ (ret_run _ _)). rewrite (store_share_run _ _ _ _ Hsh).
    rewrite u32_small, chain_remove_id by (auto; lia). done.
Qed.

(** [fm_close] on an open handle. *)
Lemma close_spec base r h fh sh : reg_ok base r → handles r !! h = Some fh → shares r !! oh_share fh = Some sh →
  wp (fm_close h) (λ rc r', rc = 0 ∧ reg_ok base r' ∧ handles r' = delete h (handles r) ∧
    shares r' = closed_shares (oh_share fh) h sh (shares r)) r.
Proof.
  intros [Hr Hl] Hh Hsh. set (p := oh_share fh) in *. unfold fm_close. wp_step deref_handle_run; [exact Hh|]. wp_step (mutex_lock_run r Hl).
  apply (reg_inv_lock _ _ _ _ _ _ true) in Hr. set (r0 := r_lock true r) in *.
  destruct (inv_share _ _ _ _ _ Hr Hsh) as [_ _ Hc _ _ _ [_ Hlm]]. pose proof (count_bound _ _ _ _ _ _ _ _ _ Hr Hsh) as Hb.
  pose proof (users_pos p (handles r0) h fh Hh eq_refl) as Hu. cbn [extra] in Hc.
  destruct (unlist_run r0 h fh p sh Hh Hsh) as (hs & _ & E & Ehs); [|lia|].
  { intros El. rewrite Hlm. intros (fh' & Hx & _ & Hl'). simpl in Hx. congruence. }
  pose proof (detach base r0 h p sh fh Hr Hh eq_refl Hsh) as Hd.
  set (sh' := with_open (open_count sh - 1) (chain_remove h (open_list sh)) sh) in *.
  set (r1 := r_handles (delete h) (r_shares (<[p := sh']>) r0)) in *.
  destruct (close_tail_spec (base ∪ {[ h ]}) r1 p h sh sh') as (r2 & Et & Hr2 & Es2 & Eh2 & El2 & _);
    [done|by simpl; rewrite insert_insert_eq|done|by eapply (closed_wired base r0)|].
  destruct (free_base_spec _ _ _ _ h (base ∪ {[ h ]}) None r2 Hr2) as [Ef Hr3]; [set_solver|].
  set (r3 := r_heap _ r2) in *.
  apply wp_assoc. wp_step E. change (r_shares (<[p := sh']>) r0) with (with_handles (handles r0) (r_shares (<[p := sh']>) r0)).
  apply (wp_assoc _ (λ sh, if bool_decide (open_count sh = 0) && delete_on_close sh then fm_free p else mret tt)). fold (close_tail p).
  wp_step (hframe_close_tail p hs _ _ _ Et). wp_step (hframe_free h hs _ _ _ Ef).
  wp_step (@modify_run registry). wp_step (@modify_run registry). apply wp_ret.
  assert (Efin : r_handles (delete h) (with_handles hs r3) = r3).
  { rewrite <-(with_handles_id r3) at 2. change (handles r3) with (handles r2). rewrite Eh2. change (handles r1) with (delete h (handles r0)).
    by rewrite <-Ehs. }
  rewrite Efin. split; [done|]. split; [split; [|done]; apply reg_inv_lock|split; [done|]].
  - replace base with ((base ∪ {[ h ]}) ∖ {[ h ]}); [done|]. assert (h ∉ base); [|set_solver]. intros Hx.
    destruct Hr as [_ Ho]. by pose proof (ow_one _ _ Ho OBase OHandle h Hx ltac:(by eexists)).
  - simpl. rewrite Es2. unfold closed_shares, r1. simpl. destruct (_ && _); [by rewrite delete_insert_eq|by rewrite insert_insert_eq].
Qed.

(** * Dropping *)

(** Give a share back that could not be opened. *)
Lemma release_spec base k r p sh (internal : bool) : reg_inv base (Some (p, k)) r → THR_LOCK_fastmem r = false → shares r !! p = Some sh →
  (if internal then users p (handles r) = O else k = 1) →
  wp (fm_release_share p internal) (λ _ r', reg_ok base r' ∧ handles r' = handles r ∧
    ∀ q shq, q ≠ p → shares r !! q = Some shq → shares r' !! q = Some shq) r.
Proof.
  intros Hr Hl Hsh Hi. unfold fm_release_share. destruct internal.
  - destruct (fm_free_spec _ _ _ _ base _ _ p sh Hr Hsh Hi) as (r' & E & Hr' & Es & Eh & El & _); [by intros ? ? [= <- _]|].
    eapply wp_run; [done|]. split; [split; [done|congruence]|]. split; [done|]. intros q shq Hne Hq. rewrite Es. by apply lookup_delete_Some.
  - subst k. wp_step (mutex_lock_run r Hl). wp_step store_share_run; [exact Hsh|]. apply (reg_inv_lock _ _ _ _ _ _ true) in Hr.
    pose proof (count_bound _ _ _ _ _ _ _ _ _ Hr Hsh) as Hb. destruct (inv_share _ _ _ _ _ Hr Hsh) as [_ _ Hc Hw _ _ _]. cbn in Hc. rewrite decide_True in Hc by done.
    rewrite u32_small by lia. set (sh' := fs_with_count (open_count sh - 1) sh). set (r1 := r_shares _ _).
    assert (Hsh1 : shares r1 !! p = Some sh') by apply lookup_insert_eq. wp_step (deref_share_run _ _ _ Hsh1).
    assert (Hr1 : reg_inv base (Some (p, 0)) r1).
    { apply (recount _ _ _ _ base (Some (p, 1))); try done; [simpl; rewrite decide_True by done; lia|by intros ? ? [= <- _]|..|by left].
      - intros q k [= <- <-]. lia.
      - right; eauto. }
    apply wp_bind. case_decide as Hz.
    + destruct (fm_free_spec _ _ _ _ base _ _ p sh' Hr1 Hsh1) as (r' & E & Hr' & Es & Eh & El & _); [simpl in Hz |- *; lia|by intros ? ? [= <- _]|].
      eapply wp_run; [done|]. eapply wp_run; [apply modify_run|]. split; [split; [by apply reg_inv_lock|done]|]. split; [done|].
      intros q shq Hne Hq. simpl. rewrite Es. simpl. rewrite lookup_delete_ne, lookup_insert_ne by done. done.
    + apply wp_ret. eapply wp_run; [apply modify_run|]. split; [split; [|done]|split; [done|]].
      * apply reg_inv_lock. eapply settle; [done|done|simpl; lia|simpl in *; lia|]. simpl. intros Hu. by destruct (Hw Hu).
      * intros q shq Hne Hq. simpl. by rewrite lookup_insert_ne.
Qed.

(** The share of a table that is marked for deletion stays as long as it has handles. *)
Lemma mark_spec base r p sh : reg_inv base None r → shares r !! p = Some sh → 0 < open_count sh →
  reg_inv base None (r_shares (<[p := fs_with_delete true sh]>) r).
Proof.
  intros Hr Hsh Hc. eapply share_update; try done. destruct (inv_share _ _ _ _ _ Hr Hsh) as [H1 H2 H3 H4 H5 H6 H7].
  constructor; try done. by left.
Qed.

(** [fm_try_free]: free the share, or leave that to the last close. *)
Lemma try_free_spec base r p sh : reg_inv base None r → shares r !! p = Some sh → ∃ r',
  fm_try_free p r = Ret (tt, r') ∧ reg_inv base None r' ∧ handles r' = handles r ∧ THR_LOCK_fastmem r' = THR_LOCK_fastmem r ∧
  shares r' = (if decide (open_count sh = 0) then delete p (shares r) else <[p := fs_with_delete true sh]> (shares r)).
Proof.
  intros Hr Hsh. unfold fm_try_free. rewrite (bind_Ret _ _ _ _ _ (deref_share_run _ _ _ Hsh)).
  destruct (inv_share _ _ _ _ _ Hr Hsh) as [_ _ Hc _ _ _ _]. cbn in Hc. case_decide as Hz.
  - destruct (fm_free_spec _ _ _ _ base _ _ p sh Hr Hsh) as (r' & E & Hr' & Es & Eh & El & _); [lia|done|]. exists r'. by split_and!.
  - rewrite (store_share_run _ _ _ _ Hsh). eexists. split; [done|]. split; [|done]. apply mark_spec; [done..|lia].
Qed.

(** DROP TABLE by name. *)
Lemma delete_table_spec base r name : reg_ok base r →
  wp (fm_delete_table name) (λ e r', reg_ok base r' ∧ handles r' = handles r ∧
    match e with
    | None => ∃ p sh, p ∈ fm_share_list r ∧ shares r !! p = Some sh ∧ snd <$> fs_name sh = Some name ∧
        shares r' = (if decide (open_count sh = 0) then delete p (shares r) else <[p := fs_with_delete true sh]> (shares r))
    | Some e => e = CE_ENOENT ∧ shares r' = shares r ∧ ∀ p sh, p ∈ fm_share_list r → shares r !! p = Some sh → snd <$> fs_name sh ≠ Some name
    end) r.
Proof.
  intros [Hr Hl]. unfold fm_delete_table. wp_step (mutex_lock_run r Hl). apply (reg_inv_lock _ _ _ _ _ _ true) in Hr.
  destruct (find_spec _ _ _ _ name base None _ Hr) as (o & E & Ho). wp_step E. destruct o as [p|].
  - destruct Ho as (sh & Hin & Hsh & Hint & Hnm). destruct (try_free_spec base _ p sh Hr Hsh) as (r' & E' & Hr' & Eh & El & Es).
    apply wp_bind. wp_step E'. apply wp_ret. wp_step (@modify_run registry). apply wp_ret.
    split; [split; [by apply reg_inv_lock|done]|]. split; [done|]. by exists p, sh.
  - apply wp_bind. wp_step (@modify_run registry). apply wp_ret. wp_step (@modify_run registry). apply wp_ret.
    split; [split; [by apply reg_inv_lock, reg_inv_err|done]|]. done.
Qed.

(** DROP of the table of an open handle, which is closed. *)
Lemma drop_spec base r h fh sh : reg_ok base r → handles r !! h = Some fh → shares r !! oh_share fh = Some sh →
  wp (ha_drop_table h) (λ _ r', reg_ok base r' ∧ handles r' = delete h (handles r) ∧
    shares r' = closed_shares (oh_share fh) h (fs_with_delete true sh) (shares r)) r.
Proof.
  intros [Hr Hl] Hh Hsh. unfold ha_drop_table. wp_step deref_handle_run; [exact Hh|]. wp_step store_share_run; [exact Hsh|].
  destruct (inv_share _ _ _ _ _ Hr Hsh) as [_ _ Hc _ _ _ _]. cbn in Hc. pose proof (users_pos (oh_share fh) _ _ _ Hh eq_refl) as Hu.
  apply wp_bind. unfold ha_close. wp_use (close_spec base (r_shares (<[oh_share fh := fs_with_delete true sh]>) r) h fh (fs_with_delete true sh)).
  - split; [|done]. apply mark_spec; [done..|lia].
  - done.
  - apply lookup_insert_eq.
  - intros rc r' (-> & Hr' & Eh & Es). apply wp_ret, wp_ret. split; [done|]. split; [done|].
    rewrite Es. unfold closed_shares. simpl. destruct (_ && _); [by rewrite delete_insert_eq|by rewrite insert_insert_eq].
Qed.

(** * Opening *)

(** The process with the handle [fh] at [h] and the share [sh] at [p]. *)
Definition r_open (h : nat) (fh : FM_HANDLE) (p : nat) (sh : FM_SHARE) (r : registry) : registry :=
  r_handles (<[h := fh]>) (r_shares (<[p := sh]>) r).

Lemma r_open_store f h fh p sh r : store_share f p (r_open h fh p sh r) = Ret (tt, r_open h fh p (f sh) r).
Proof.
  rewrite (store_share_run _ _ _ sh) by apply lookup_insert_eq. do 2 f_equal. unfold r_open, r_handles, r_shares. simpl.
  by rewrite insert_insert_eq.
Qed.

Definition listed (b : bool) (fh : FM_HANDLE) : FM_HANDLE := mkFH (oh_share fh) (oh_info fh) (oh_mode fh) b.

Lemma register_run h fh p sh r : register_handle p h (r_open h fh p sh r) =
  Ret (tt, r_open h (listed true fh) p (fs_with_open_list (h :: open_list sh) sh) r).
Proof.
  unfold register_handle. rewrite (bind_Ret _ _ _ _ _ (r_open_store _ _ _ _ _ _)), modify_run. do 2 f_equal. unfold r_open, r_handles. simpl.
  f_equal. by rewrite alter_insert_eq.
Qed.

Context (malloc_ok : nat → Z → bool) (sizeof_FM_INFO : Z) (dbug : bool).
Abbreviation fm_open_from_share_locked := (fm_open_from_share_locked malloc_ok sizeof_FM_INFO dbug).
Abbreviation fm_open_from_share_and_register := (fm_open_from_share_and_register malloc_ok sizeof_FM_INFO dbug).
Abbreviation fm_open := (fm_open malloc_ok sizeof_FM_INFO dbug).

(** The two processes have the same tables. *)
Definition same_tables (r r' : registry) : Prop :=
  shares r' = shares r ∧ handles r' = handles r ∧ fm_share_list r' = fm_share_list r.

(** A new handle of [p], or a report that there is no memory. *)
Lemma open_locked_spec base pend r p sh mode : reg_inv base pend r → shares r !! p = Some sh →
  wp (fm_open_from_share_locked p mode) (λ res r',
    match res with
    | Some h => ∃ r1, r' = r_open h (mkFH p (FM_INFO_new dbug sh) mode false) p (fs_with_count (open_count sh + 1) sh) r1 ∧
        reg_inv (base ∪ {[ h ]}) pend r1 ∧ (h ∉ base) ∧ same_tables r r1 ∧ THR_LOCK_fastmem r1 = THR_LOCK_fastmem r
    | None => reg_inv base pend r' ∧ same_tables r r' ∧ THR_LOCK_fastmem r' = THR_LOCK_fastmem r ∧ ∃ size, malloc_ok (calls (rheap r)) size = false
    end) r.
Proof.
  intros Hr Hsh. unfold Registry.fm_open_from_share_locked. wp_step (deref_share_run _ _ _ Hsh).
  pose proof (count_bound _ _ _ _ _ _ _ _ _ Hr Hsh) as Hb.
  destruct (malloc_spec _ _ _ _ malloc_ok (sizeof_FM_INFO + fs_max_key_length sh + reclength (fs_core sh)) _ _ _ Hr)
    as [(E & _ & Hn & Hr1)|(E & Hm & Hr1)]; wp_step E.
  - wp_step store_share_run; [exact Hsh|]. wp_step (@modify_run registry). apply wp_ret. rewrite u32_small by lia. eexists. split; [reflexivity|].
    split; [done|]. split; [|done]. intros Hx. apply Hn. by eapply inv_base_live.
  - apply wp_ret. split; [done|]. split; [done|]. split; [done|]. by eexists.
Qed.

(** What an open leaves: a handle of share [p] that was free, in a process where the share's keys
    have to be wired. *)
Definition opened (base : gset nat) (r : registry) (p : nat) (sh : FM_SHARE) (mode : Z) (reg : bool) (h : nat) (r' : registry) : Prop :=
  let n := Z.of_nat (users p (handles r)) + 1 in
  reg_inv base (Some (p, 0)) r' ∧ handles r !! h = None ∧ handles r' = <[h := mkFH p (FM_INFO_new dbug sh) mode reg]> (handles r) ∧
  shares r' = <[p := with_open n (if reg then h :: open_list sh else open_list sh) sh]> (shares r) ∧
  THR_LOCK_fastmem r' = false.

(** Every way of opening ends in such a state. *)
Lemma opened_intro base pend r r1 h p sh mode reg : reg_inv (base ∪ {[ h ]}) pend r1 → h ∉ base → same_tables r r1 → shares r !! p = Some sh →
  (∀ q k, pend = Some (q, k) → q = p) → Z.of_nat (size (handles r)) + 3 < 2 ^ 32 →
  opened base r p sh mode reg h (r_lock false (r_open h (mkFH p (FM_INFO_new dbug sh) mode reg) p
    (with_open (Z.of_nat (users p (handles r)) + 1) (if reg then h :: open_list sh else open_list sh) sh) r1)).
Proof.
  intros Hr1 Hb (Es & Eh & El) Hsh Hp Hsz. rewrite <-Eh, <-Es in *. unfold opened. simpl.
  split; [apply reg_inv_lock; eapply attach; done|]. split; [|by rewrite <-?Eh, <-?Es].
  apply eq_None_not_Some. intros H. rewrite <-Eh in H. destruct Hr1 as [_ Ho]. assert (Hw : owns (base ∪ {[ h ]}) r1 OBase h) by (simpl; set_solver).
  by pose proof (ow_one _ _ Ho OBase OHandle h Hw H).
Qed.

Lemma fm_open_spec base r name mode : reg_ok base r → Z.of_nat (size (handles r)) + 3 < 2 ^ 32 →
  wp (fm_open name mode) (λ res r',
    match res with
    | Some h => ∃ p sh, p ∈ fm_share_list r ∧ shares r !! p = Some sh ∧ snd <$> fs_name sh = Some name ∧ opened base r p sh mode true h r'
    | None => reg_ok base r' ∧ same_tables r r' ∧
        ((r_errno r' = Some CE_ENOENT ∧ calls (rheap r') = calls (rheap r) ∧
           ∀ p sh, p ∈ fm_share_list r → shares r !! p = Some sh → snd <$> fs_name sh ≠ Some name) ∨
         (∃ p sh, p ∈ fm_share_list r ∧ shares r !! p = Some sh ∧ snd <$> fs_name sh = Some name) ∧ ∃ size, malloc_ok (calls (rheap r)) size = false)
    end) r.
Proof.
  intros [Hr Hl] Hsz. unfold Registry.fm_open. wp_step (mutex_lock_run r Hl). apply (reg_inv_lock _ _ _ _ _ _ true) in Hr.
  destruct (find_spec _ _ _ _ name base None _ Hr) as (o & E & Ho). wp_step E. destruct o as [p|].
  - destruct Ho as (sh & Hin & Hsh & Hint & Hnm). wp_use (open_locked_spec base None _ p sh mode Hr Hsh). intros [h|] r'.
    + intros (r1 & -> & Hr1 & Hb & Hst & Hlk). wp_step register_run. wp_step (@modify_run registry). apply wp_ret.
      exists p, sh. split; [done|]. split; [done|]. split; [done|].
      rewrite (si_count _ _ _ _ _ _ _ _ (inv_share _ _ _ _ _ Hr Hsh)), Z.add_0_r.
      by apply (opened_intro base None (r_lock true r) r1 h p sh mode true).
    + intros (Hr' & Hst & Hlk & Hm). wp_step @ret_run. wp_step (@modify_run registry). apply wp_ret.
      split; [split; [by apply reg_inv_lock|done]|]. split; [done|]. right. split; [|done]. by exists p, sh.
  - wp_step (@modify_run registry). wp_step (@modify_run registry). apply wp_ret. split; [split; [|done]; by apply reg_inv_lock, reg_inv_err|].
    split; [done|]. left. done.
Qed.

(** The open of a share that [fm_create] has pinned: the handle takes the place of the pin. *)
Lemma and_register_spec base r p sh mode : reg_inv base (Some (p, 1)) r → THR_LOCK_fastmem r = false → shares r !! p = Some sh →
  Z.of_nat (size (handles r)) + 3 < 2 ^ 32 →
  wp (fm_open_from_share_and_register p mode) (λ res r',
    match res with
    | Some h => opened base r p sh mode true h r'
    | None => no_memory malloc_ok ∧ reg_inv base (Some (p, 1)) r' ∧ same_tables r r' ∧ THR_LOCK_fastmem r' = false
    end) r.
Proof.
  intros Hr Hl Hsh Hsz. unfold Registry.fm_open_from_share_and_register. wp_step (mutex_lock_run r Hl). apply (reg_inv_lock _ _ _ _ _ _ true) in Hr.
  pose proof (count_bound _ _ _ _ _ _ _ _ _ Hr Hsh) as Hcb.
  pose proof (si_count _ _ _ _ _ _ _ _ (inv_share _ _ _ _ _ Hr Hsh)) as Hc. simpl in Hc. rewrite decide_True in Hc by done.
  wp_use (open_locked_spec base _ _ p sh mode Hr Hsh). intros [h|] r'.
  - intros (r1 & -> & Hr1 & Hb & Hst & Hlk). apply wp_bind. wp_step register_run. eapply wp_run; [apply r_open_store|]. cbv beta.
    wp_step (@modify_run registry). apply wp_ret. cbn [fs_with_open_list fs_with_count open_count]. rewrite u32_small by lia.
    replace (open_count sh + 1 - 1) with (Z.of_nat (users p (handles r)) + 1) by lia.
    apply (opened_intro base (Some (p, 1)) (r_lock true r) r1 h p sh mode true); try done. by intros ? ? [= <- _].
  - intros (Hr' & Hst & Hlk & size & Hm). wp_step @ret_run. wp_step (@modify_run registry). apply wp_ret.
    split; [by eexists _, _|]. split; [by apply reg_inv_lock|]. done.
Qed.

(** The open of the share of an internal table. *)
Lemma internal_open_spec base r p sh mode : reg_inv base (Some (p, 0)) r → THR_LOCK_fastmem r = false → shares r !! p = Some sh →
  Z.of_nat (size (handles r)) + 3 < 2 ^ 32 →
  wp (fm_open_from_share malloc_ok sizeof_FM_INFO dbug p mode) (λ res r',
    match res with
    | Some h => opened base r p sh mode false h r'
    | None => no_memory malloc_ok ∧ reg_inv base (Some (p, 0)) r' ∧ same_tables r r' ∧ THR_LOCK_fastmem r' = false
    end) r.
Proof.
  intros Hr Hl Hsh Hsz. pose proof (si_count _ _ _ _ _ _ _ _ (inv_share _ _ _ _ _ Hr Hsh)) as Hc. simpl in Hc. rewrite decide_True in Hc by done.
  eapply wp_mono; [by apply (open_locked_spec base _ _ p sh mode Hr Hsh)|]. cbv beta. intros [h|] r'.
  - intros (r1 & -> & Hr1 & Hb & Hst & Hlk). rewrite Hc, Z.add_0_r.
    assert (E : ∀ r, THR_LOCK_fastmem r = false → r_lock false r = r) by (intros []; simpl; by intros ->). rewrite <-(E (r_open _ _ _ _ _)).
    + apply (opened_intro base (Some (p, 0)) r r1 h p sh mode false); try done. by intros ? ? [= <- _].
    + simpl. congruence.
  - intros (Hr' & Hst & Hlk & size & Hm). split; [by eexists _, _|]. split; [done|]. split; [done|]. congruence.
Qed.

(** * Renaming *)

(** RENAME: the table gets the new name, or nothing changes. *)
Lemma rename_spec base r old_name new_name : reg_ok base r →
  wp (fm_rename malloc_ok old_name new_name) (λ _ r', reg_ok base r' ∧ handles r' = handles r ∧
    (shares r' = shares r ∨ ∃ p sh nb, p ∈ fm_share_list r ∧ shares r !! p = Some sh ∧ snd <$> fs_name sh = Some old_name ∧
      shares r' = <[p := fs_with_name (Some (nb, new_name)) sh]> (shares r))) r.
Proof.
  intros [Hr Hl]. unfold fm_rename. wp_step (mutex_lock_run r Hl). apply (reg_inv_lock _ _ _ _ _ _ true) in Hr.
  destruct (find_spec _ _ _ _ old_name base None _ Hr) as (o & E & Ho). wp_step E. destruct o as [p|].
  2: { wp_step (@modify_run registry). apply wp_ret. split; [split; [by apply reg_inv_lock|done]|]. split; [done|by left]. }
  destruct Ho as (sh & Hin & Hsh & Hint & Hnm).
  destruct (malloc_spec _ _ _ _ malloc_ok (Z.of_nat (length new_name) + 1) _ _ _ Hr) as [(E' & _ & Hn & Hr1)|(E' & _ & Hr1)]; wp_step E'.
  2: { wp_step (@modify_run registry). wp_step (@get_run registry). apply wp_ret. split; [split; [by apply reg_inv_lock|done]|]. split; [done|by left]. }
  set (nb := calls (rheap (r_lock true r))) in *. set (r1 := r_heap _ _) in *.
  assert (Hsh1 : shares r1 !! p = Some sh) by done. wp_step (deref_share_run _ _ _ Hsh1).
  destruct (inv_share _ _ _ _ _ Hr1 Hsh1) as [[n Hname] H2 H3 H4 H5 H6 H7]. rewrite Hname. destruct Hr1 as [Ht Ho].
  assert (Hnb : nb ∉ base). { intros Hb. apply Hn. destruct Hr as [_ Ho0]. apply (ow_live _ _ Ho0). by exists OBase. }
  wp_step (my_free_run n.1 r1); [apply (ow_live _ _ Ho); exists (OName p), sh, n; done|].
  wp_step store_share_run; [exact Hsh1|]. wp_step (@modify_run registry). apply wp_ret.
  split; [split; [apply reg_inv_lock; split|done]|split; [done|right; by exists p, sh, nb]].
  - eapply (tab_ok_ext _ _ _ _ _ (r_shares (<[p := fs_with_name (Some (nb, new_name)) sh]>) r1)); [done..|].
    by eapply tab_update.
  - by apply (own_rename base r1 p sh n nb new_name Ho).
Qed.
End safe.
