(* ===== verification/Tables.v ===== *)
(** The life of tables as clients see it: OPEN, CLOSE, CREATE, DROP, RENAME and the row commands
    of open tables, in any order.  Nothing is used after it was freed, nothing leaks, and a table
    keeps its rows from open to open. *)

From S2P Require Import Prelude CoreState CoreOps RowOps Shape Inv Chains Reads Alloc Freelist Steps Insert Delete Lockset Update Clear Lifecycle Spec AutoInc Hash Create Data Registry DataSpec RegistrySpec RegistrySafe.

(** * Wired keys *)

Lemma set_ops_cfg defs c k : keys_there c → 0 ≤ k < keys c → fst <$> key_cfg (set_ops defs c) k = Some (defs k).
Proof.
  intros Ht Hk. unfold keys_there, key_cfg, key_at, set_ops, arr_get in *. simpl. destruct (keydef c) as [[q l]|]; [|lia]. simpl in *.
  rewrite decide_True by lia. rewrite list_lookup_imap. destruct (lookup_lt_is_Some_2 l (Z.to_nat k) ltac:(lia)) as [kc ->]. simpl.
  rewrite Z2Nat.id by lia. by destruct (defs k).
Qed.

Lemma static_keys_there c : static_ok c → keys_there c.
Proof. intros Hs. destruct (so_arrays _ Hs) as (_ & Hk & _). unfold keys_there. by destruct (keydef c). Qed.

(** A command leaves wired keys wired. *)
Lemma set_ops_config defs c c' : set_ops defs c = c → keys_there c → same_config c c' → keys_there c' → set_ops defs c' = c'.
Proof.
  intros E Ht C Ht'. apply set_ops_id; [done|]. intros k Hk. rewrite (sc_cfg _ _ C). rewrite (sc_keys _ _ C) in Hk. rewrite <-E.
  by apply set_ops_cfg.
Qed.

Section tables.
Context (my_hasher_mysql5x : my_hasher_st) (MY_HASH_ADD_MARIADB : my_hasher_st → Z → my_hasher_st).
Context (get_rec_bits : bytes → Z → Z → Z) (uint2korr : bytes → Z).

Abbreviation reg_inv := (reg_inv my_hasher_mysql5x MY_HASH_ADD_MARIADB get_rec_bits uint2korr).
Abbreviation reg_ok := (reg_ok my_hasher_mysql5x MY_HASH_ADD_MARIADB get_rec_bits uint2korr).
Abbreviation core_ok := (core_ok my_hasher_mysql5x MY_HASH_ADD_MARIADB get_rec_bits uint2korr).
Abbreviation defs_of := (defs_of my_hasher_mysql5x MY_HASH_ADD_MARIADB get_rec_bits uint2korr).

(** * Row commands *)

(** The core of an open table satisfies the invariant of the row store. *)
Lemma open_core_wf base r h fh sh : reg_inv base None r → handles r !! h = Some fh → shares r !! oh_share fh = Some sh →
  wf ∅ (with_heap (rheap r) (fs_core sh)).
Proof.
  intros Hr Hh Hsh. pose proof (closed_wired _ _ _ _ _ _ _ _ _ Hr Hh Hsh) as Hw.
  destruct (inv_share _ _ _ _ _ _ _ _ _ Hr Hsh) as [_ (_ & _ & _ & h0 & Hwf) _ _ _ _ _]. rewrite Hw in Hwf. destruct Hr as [_ Ho].
  apply (wf_reheap _ (rheap r) _ Hwf); [|apply Ho]. intros x Hx. apply (ow_live _ _ Ho). exists (OCore (oh_share fh)), sh. done.
Qed.

Lemma row_spec base r h fh sh c : reg_ok base r → handles r !! h = Some fh → shares r !! oh_share fh = Some sh → cmd_ok (fs_core sh) c →
  wp (on_share (oh_share fh) (run_cmd c)) (λ res r', reg_ok base r' ∧ handles r' = handles r ∧ ∃ core',
    shares r' = <[oh_share fh := fs_with_core core' sh]> (shares r) ∧ wf ∅ core' ∧ same_config (with_heap (rheap r) (fs_core sh)) core' ∧
    spec_step (config_of (fs_core sh)) (abs (fs_core sh)) c res (abs core')) r.
Proof.
  intros [Hr Hl] Hh Hsh Hc. pose proof (open_core_wf _ _ _ _ _ Hr Hh Hsh) as Hwf. set (p := oh_share fh) in *. set (core := with_heap _ _) in *.
  destruct (sim_cmd (config_of core) core Hwf (config_of_conf _) c Hc) as (res & core' & Hrun & Hwf' & C & Htot & Hstep).
  eapply (wp_run _ _ _ res (r_with (heap core') p (fs_with_core core' sh) r)).
  { unfold on_share. rewrite Hsh. fold core. by rewrite Hrun. }
  pose proof (closed_wired _ _ _ _ _ _ _ _ _ Hr Hh Hsh) as Hw.
  destruct (inv_share _ _ _ _ _ _ _ _ _ Hr Hsh) as [H1 (Hk & Hd & Ha & _) H3 H4 H5 H6 H7].
  assert (Hw' : set_ops (defs_of (fs_keydef sh)) core' = core').
  { apply (set_ops_config _ core); [unfold core; by rewrite set_ops_reheap, Hw|apply static_keys_there, Hwf|done|apply static_keys_there, Hwf']. }
  split; [split; [split|done]|split; [done|]].
  - destruct Hr as [Ht _]. eapply (tab_ok_ext _ _ _ _ _ (r_shares (<[p := fs_with_core core' sh]>) r)); [done..|].
    eapply tab_update; try done. constructor; try done; simpl.
    + split_and!; [by rewrite (sc_keys _ _ C)|done|by rewrite (sc_auto_key _ _ C)|]. exists (heap core'). rewrite Hw'. by destruct core'.
    + intros _. by right.
  - destruct Hr as [_ Ho]. simpl. eapply (own_core _ _ _ _ Ho p core core'); [done|done|apply Hwf'|apply C| | |].
    + intros x. simpl. rewrite Hsh. split; [by intros (? & [= <-] & ?)|eauto].
    + intros x. rewrite owns_with, decide_True by done. done.
    + intros o x Hne. rewrite owns_with. destruct o as [| | |q|q]; try done; simpl.
      * split; [intros [->|?]; [by eexists|done]|by right].
      * case_decide as Hq; [subst q|done]. unfold ptr_block. simpl. split.
        -- destruct (fs_name sh) as [n|] eqn:En; [|set_solver]. intros ->%list_elem_of_singleton. eauto.
        -- intros (? & n & ? & En & <-). simplify_eq. rewrite En. by apply list_elem_of_singleton.
      * case_decide as Hq; [by subst|done].
  - by exists core'.
Qed.

(** * The beginning and the end *)

(** The engine when the plugin has been loaded into a process with heap [h]. *)
Definition boot (h : Heap) : registry := mkReg h ∅ ∅ [] false None.

Lemma boot_ok h : fresh h → reg_ok (live h) (boot h).
Proof.
  intros Hf. split; [split|done].
  - constructor; simpl; try done. split; [constructor|]. intros p. split; [intros H; by apply elem_of_nil in H|by intros (? & ? & _)].
  - constructor; simpl; [done| |].
    + intros x. split; [intros Hx; by exists OBase|]. intros [[| | |p|p] Hx]; simpl in Hx; [done|by destruct Hx..| |]; naive_solver.
    + intros [| | |p|p] [| | |q|q] x H1 H2; simpl in *; try done; first [by destruct H1|by destruct H2|naive_solver].
Qed.

(** With no handle open and no table listed there is no share, and the heap is the callers'. *)
Lemma nothing_left base r : reg_ok base r → handles r = ∅ → fm_share_list r = [] → shares r = ∅ ∧ live (rheap r) = base.
Proof.
  intros [[Ht Ho] _] Eh El. assert (Es : shares r = ∅).
  { apply map_empty. intros p. destruct (shares r !! p) as [sh|] eqn:Hsh; [|done]. exfalso. pose proof (to_share _ _ _ _ _ _ Ht _ _ Hsh) as HI.
    destruct (fs_internal sh) eqn:Hint.
    - destruct (si_delete _ _ _ _ _ _ _ _ HI (si_internal _ _ _ _ _ _ _ _ HI Hint)) as [Hc|[k ?]]; [|done].
      rewrite (si_count _ _ _ _ _ _ _ _ HI), Eh in Hc. unfold users in Hc. by rewrite map_filter_empty, map_size_empty in Hc.
    - assert (p ∈ fm_share_list r) as Hp; [|rewrite El in Hp; by apply elem_of_nil in Hp].
      apply (to_list _ _ _ _ _ _ Ht : _ ∧ _). by exists sh. }
  split; [done|]. apply set_eq. intros x. rewrite (ow_live _ _ Ho). split; [|by exists OBase].
  intros [[| | |p|p] Hx]; simpl in Hx; rewrite ?Eh, ?Es in Hx; [done|by destruct Hx..| |]; naive_solver.
Qed.

(** * Describing, creating and opening tables *)

Context (malloc_ok : nat → Z → bool).
Context (sizeof_FM_SHARE sizeof_FM_KEYDEF sizeof_HA_KEYSEG sizeof_FM_INFO : Z).
Context (dbug : bool) (now : Z).
Context (base_type : Z → base_keytype) (HA_KEYTYPE_BINARY : Z) (my_charset_bin : CHARSET_INFO) `{!CollationLaws my_charset_bin}.
Context (max_heap_table_size : Z).

Abbreviation prepare := (prepare malloc_ok sizeof_FM_KEYDEF sizeof_HA_KEYSEG base_type HA_KEYTYPE_BINARY my_charset_bin max_heap_table_size).
Abbreviation fm_create := (fm_create malloc_ok sizeof_FM_SHARE sizeof_FM_KEYDEF sizeof_HA_KEYSEG now).
Abbreviation ha_create := (ha_create malloc_ok sizeof_FM_SHARE sizeof_FM_KEYDEF sizeof_HA_KEYSEG now base_type HA_KEYTYPE_BINARY my_charset_bin
  max_heap_table_size).
Abbreviation wire_keys := (wire_keys my_hasher_mysql5x MY_HASH_ADD_MARIADB get_rec_bits uint2korr).
Abbreviation ha_open := (ha_open malloc_ok sizeof_FM_SHARE sizeof_FM_KEYDEF sizeof_HA_KEYSEG sizeof_FM_INFO dbug now
  my_hasher_mysql5x MY_HASH_ADD_MARIADB get_rec_bits uint2korr base_type HA_KEYTYPE_BINARY my_charset_bin max_heap_table_size).
Abbreviation ha_clone := (ha_clone malloc_ok sizeof_FM_SHARE sizeof_FM_KEYDEF sizeof_HA_KEYSEG sizeof_FM_INFO dbug now
  my_hasher_mysql5x MY_HASH_ADD_MARIADB get_rec_bits uint2korr base_type HA_KEYTYPE_BINARY my_charset_bin max_heap_table_size).

(** A table that the engine can hold: at most 64 keys (MAX_KEY), and a row limit within 31 bits. *)
Record table_fits (t : TABLE) : Prop := {
  tf_ok : table_ok base_type HA_KEYTYPE_BINARY my_charset_bin t;
  tf_keys : t_keys t ≤ 64;
  tf_rows : row_limit t (Z.max max_heap_table_size sizeof_ptr) ≤ 2 ^ 31
}.

(** The key definitions of the table. *)
Definition keydefs_of (t : TABLE) : list FM_KEYDEF :=
  (λ k, finish_key base_type (keydef_of base_type HA_KEYTYPE_BINARY my_charset_bin k)) <$> key_info t.

(** The allocations of the core of a new table with keys succeed; the others (the description, the
    share, its name, the handle, and the chunk array of a table without keys) may fail. *)
Definition core_memory (r : registry) (t : TABLE) : Prop :=
  t_keys t ≠ 0 → ∀ n size, (calls (rheap r) + 1 < n ≤ calls (rheap r) + 3 + 2 * Z.to_nat (t_keys t))%nat → malloc_ok n size = true.

Lemma prepared_ok t b p ci : table_fits t → prepared base_type HA_KEYTYPE_BINARY my_charset_bin t b (Z.max max_heap_table_size sizeof_ptr) p ci →
  ci_ok ci ∧ ci_keys ci = t_keys t.
Proof.
  intros [Ht Hk Hr] Hp. pose proof (pr_keydef _ _ _ _ _ _ _ _ Hp) as Hkd.
  assert (Hlen : ci_keys ci = t_keys t) by (unfold ci_keys, t_keys; by rewrite Hkd, length_fmap). split; [|done]. constructor.
  - apply Forall_forall. intros kd Hin. by eapply (prepared_keydef _ _ _ get_rec_bits).
  - lia.
  - rewrite (pr_reclength _ _ _ _ _ _ _ _ Hp). apply Ht.
  - rewrite (pr_max _ _ _ _ _ _ _ _ Hp). split; [|done].
    destruct (row_limit_spec t (Z.max max_heap_table_size sizeof_ptr)); [unfold sizeof_ptr; lia|apply Ht|done].
  - pose proof (prepared_auto _ _ _ _ _ _ _ _ Hp) as Ha. rewrite u16_small; [done|].
    destruct (pr_auto _ _ _ _ _ _ _ _ Hp) as [->|(j & k & Hj%lookup_lt_Some & _ & ->)]; [lia|]. unfold t_keys in Hk. lia.
Qed.

(** The description of the table in a block of the caller, or a report that there is no memory. *)
Lemma prepare_spec base r t internal_table : reg_ok base r → table_fits t →
  wp (prepare t internal_table) (λ e r', same_tables r r' ∧ calls (rheap r') = S (calls (rheap r)) ∧
    match e with
    | inl _ => no_memory malloc_ok ∧ reg_ok base r'
    | inr ci => reg_ok (base ∪ {[ ci_block ci ]}) r' ∧ (ci_block ci ∉ base) ∧ ci_ok ci ∧ ci_keys ci = t_keys t ∧
        ci_internal_table ci = internal_table ∧ ci_keydef ci = keydefs_of t ∧ ci_reclength ci = t_reclength t
    end) r.
Proof.
  intros [Hr Hl] Ht. set (size := t_keys t * sizeof_FM_KEYDEF + foldr (λ k n, Z.of_nat (length (key_part k)) + n) 0 (key_info t) * sizeof_HA_KEYSEG).
  destruct (malloc_spec _ _ _ _ malloc_ok size _ _ _ Hr) as [(E & _ & Hn & Hr1)|(E & Hm & Hr1)].
  - destruct (prepare_run base_type HA_KEYTYPE_BINARY my_charset_bin max_heap_table_size (my_malloc malloc_ok) sizeof_FM_KEYDEF
      sizeof_HA_KEYSEG t internal_table r _ _ (tf_ok _ Ht) E) as (ci & Hrun & Hp).
    eapply wp_run; [exact Hrun|]. split; [done|]. split; [done|]. rewrite (pr_block _ _ _ _ _ _ _ _ Hp).
    destruct (prepared_ok _ _ _ _ Ht Hp) as [Hci Hk]. split; [by split|]. split.
    { intros Hb. apply Hn. by eapply inv_base_live. }
    split; [done|]. split; [done|]. split; [apply Hp|]. split; [exact (pr_keydef _ _ _ _ _ _ _ _ Hp)|apply Hp].
  - eapply wp_run; [by apply prepare_fails; [apply Ht|]|]. split; [done|]. split; [done|]. split; [by eexists _, _|]. by split.
Qed.

(** Freeing the description. *)
Lemma free_description base pend r b : reg_inv (base ∪ {[ b ]}) pend r → b ∉ base → ∃ r', my_free b r = Ret (tt, r') ∧
  reg_inv base pend r' ∧ same_tables r r' ∧ THR_LOCK_fastmem r' = THR_LOCK_fastmem r.
Proof.
  intros Hr Hb. destruct (free_base_spec _ _ _ _ b _ _ _ Hr) as [E Hr']; [set_solver|]. eexists. split; [exact E|].
  replace ((base ∪ {[ b ]}) ∖ {[ b ]}) with base in Hr' by set_solver. done.
Qed.

(** The listed tables called [name]. *)
Definition named (r : registry) (name : bytes) (p : nat) : Prop :=
  p ∈ fm_share_list r ∧ ∃ sh, shares r !! p = Some sh ∧ snd <$> fs_name sh = Some name.

Lemma same_named r r' name p : same_tables r r' → named r' name p ↔ named r name p.
Proof. intros (Es & _ & El). unfold named. by rewrite Es, El. Qed.

(** CREATE TABLE *)
Lemma ha_create_spec base r name t auto_value : reg_ok base r → table_fits t → core_memory r t →
  wp (ha_create name t false auto_value) (λ rc r', reg_ok base r' ∧ handles r' = handles r ∧
    (∀ q sh, shares r !! q = Some sh → snd <$> fs_name sh ≠ Some name → shares r' !! q = Some sh) ∧
    (rc = 0 → ∃ p, named r' name p)) r.
Proof.
  intros Hr Ht Hm. unfold Registry.ha_create. wp_use (prepare_spec base r t false Hr Ht). intros e r1 (Hst & Hcalls & He).
  pose proof Hst as (Es & Eh & El). destruct e as [e|ci].
  { apply wp_ret. rewrite Eh, Es. destruct He. by split_and!. }
  destruct He as (Hr1 & Hb & Hci & Hk & Hint & Hkd & Hrl). cbv zeta. set (ci' := mkCI _ _ _ _ _ _ _ _ _ _ _ _).
  assert (Hci' : ci_ok ci') by (destruct Hci; by constructor).
  wp_use (create_spec malloc_ok sizeof_FM_SHARE sizeof_FM_KEYDEF sizeof_HA_KEYSEG now my_hasher_mysql5x MY_HASH_ADD_MARIADB get_rec_bits uint2korr
    (base ∪ {[ ci_block ci ]}) r1 name ci' false Hr1 Hci').
  { change (ci_keys ci') with (ci_keys ci). rewrite Hk. intros Hk0 n size Hn. apply Hm; [done|]. rewrite Hcalls in Hn. lia. }
  intros [[rc o] new] r2 (Hl2 & Eh2 & Hfr & Hres).
  assert (Hr2 : reg_inv (base ∪ {[ ci_block ci ]}) None r2 ∧ (rc = 0 → ∃ p, named r2 name p)).
  { destruct o as [p|]; [|by destruct Hres as (-> & _ & ?)]. destruct Hres as (-> & Hr2 & sh & Hsh & Hi & Hn & _ & _). unfold pin_of in Hr2.
    change (ci_internal_table ci') with (ci_internal_table ci) in *. rewrite Hint in Hr2, Hi. split; [done|]. intros _. exists p.
    split; [|by exists sh]. destruct Hr2 as [Ht2 _]. apply (to_list _ _ _ _ _ _ Ht2 : _ ∧ _). by exists sh. }
  destruct Hr2 as [Hr2 Hnm]. destruct (free_description _ _ _ _ Hr2 Hb) as (r3 & E3 & Hr3 & Hst3 & Hl3).
  change (ci_block ci') with (ci_block ci). wp_step E3. apply wp_ret. pose proof Hst3 as (Es3 & Eh3 & El3).
  split; [split; [done|congruence]|]. split; [congruence|]. split.
  - intros q sh Hq Hne. rewrite Es3. apply Hfr; [by rewrite Es|done].
  - intros Hrc. destruct (Hnm Hrc) as [p Hp]. exists p. by apply (same_named r2).
Qed.

(** The end of every successful open: the keys are wired. *)
Lemma opened_wire base r p sh mode reg h r1 : shares r !! p = Some sh → opened my_hasher_mysql5x MY_HASH_ADD_MARIADB get_rec_bits uint2korr dbug base r p sh mode reg h r1 →
  ∃ r2 sh2, wire_keys p r1 = Ret (tt, r2) ∧ reg_ok base r2 ∧ handles r2 = <[h := mkFH p (FM_INFO_new dbug sh) mode reg]> (handles r) ∧
    shares r2 = <[p := sh2]> (shares r) ∧ fs_name sh2 = fs_name sh ∧ table (fs_core sh2) = table (fs_core sh) ∧
    ∀ kds n b, new_table kds n b sh → new_table kds n b sh2.
Proof.
  intros Hsh (Hr1 & Hh & Eh & Es & Hl). set (sh1 := with_open _ _ _) in Es.
  assert (Hsh1 : shares r1 !! p = Some sh1) by (rewrite Es; apply lookup_insert_eq).
  assert (Hu : (0 < users p (handles r1))%nat) by (rewrite Eh, users_insert, decide_True by done; lia).
  destruct (wire_spec _ _ _ _ _ _ _ _ Hr1 Hsh1 Hu) as [E Hr2]. eexists _, _. split; [exact E|]. split; [done|]. split; [done|].
  split; [simpl; by rewrite Es, insert_insert_eq|done].
Qed.

(** What OPEN makes: a handle of a table; and what becomes of the others. *)
Record open_result (base : gset nat) (r : registry) (name : bytes) (t : TABLE) (internal_table : bool) (h : nat) (r' : registry) : Prop := {
  or_ok : reg_ok base r';
  or_fresh : handles r !! h = None;
  or_handle : ∃ fh sh, handles r' = <[h := fh]> (handles r) ∧ shares r' !! oh_share fh = Some sh ∧ snd <$> fs_name sh = Some name ∧
    ((internal_table = false ∧ named r name (oh_share fh) ∧ ∃ sh0, shares r !! oh_share fh = Some sh0 ∧ table (fs_core sh) = table (fs_core sh0)) ∨
     ((internal_table = true ∨ ∀ p, ¬ named r name p) ∧ users (oh_share fh) (handles r) = O ∧
        new_table (keydefs_of t) (t_reclength t) internal_table sh));
  or_others q sh : shares r !! q = Some sh → snd <$> fs_name sh ≠ Some name → shares r' !! q = Some sh;
  or_no_more q sh fh : handles r' !! h = Some fh → shares r' !! q = Some sh → q = oh_share fh ∨ shares r !! q = Some sh
}.

(** The table exists already. *)
Lemma ha_open_known base r name mode t p sh h r1 : named r name p → shares r !! p = Some sh → snd <$> fs_name sh = Some name →
  opened my_hasher_mysql5x MY_HASH_ADD_MARIADB get_rec_bits uint2korr dbug base r p sh mode true h r1 →
  wp (fh ← deref_handle h; wire_keys (oh_share fh);; mret (Some h)) (λ res r', ∃ h, res = Some h ∧ open_result base r name t false h r') r1.
Proof.
  intros Hn Hsh Hnm Ho. pose proof Ho as (_ & Hh & Eh & _). destruct (opened_wire _ _ _ _ _ _ _ _ Hsh Ho) as (r2 & sh2 & E & Hr2 & Eh2 & Es2 & Hn2 & Ht2 & _).
  wp_step deref_handle_run; [rewrite Eh; apply lookup_insert_eq|]. cbn [oh_share]. wp_step E. apply wp_ret. exists h. split; [done|].
  split; [done|done| | |].
  - eexists _, sh2. split; [done|]. cbn [oh_share]. rewrite Es2, lookup_insert_eq. split; [done|]. split; [by rewrite Hn2|]. left.
    split; [done|]. split; [done|]. by exists sh.
  - intros q shq Hq Hne. rewrite Es2. rewrite lookup_insert_ne; [done|]. intros <-. congruence.
  - intros q shq fh. rewrite Eh2, lookup_insert_eq, Es2. intros [= <-] [[<- _]|[_ ?]]%lookup_insert_Some; auto.
Qed.

(** What [fm_create] with [pin_share] hands to the open. *)
Definition pinned (base : gset nat) (r : registry) (name : bytes) (t : TABLE) (internal_table : bool) (p : nat) (r' : registry) : Prop :=
  reg_inv base (Some (p, if internal_table then 0 else 1)) r' ∧ THR_LOCK_fastmem r' = false ∧ handles r' = handles r ∧
  (∀ q sh, shares r !! q = Some sh → snd <$> fs_name sh ≠ Some name → shares r' !! q = Some sh) ∧
  (∀ q sh, shares r' !! q = Some sh → q = p ∨ shares r !! q = Some sh) ∧
  ∃ sh, shares r' !! p = Some sh ∧ users p (handles r') = O ∧ snd <$> fs_name sh = Some name ∧ new_table (keydefs_of t) (t_reclength t) internal_table sh.

(** The open of a table that has just been created for it. *)
Lemma ha_open_new base r name mode t internal_table p r1 : pinned base r name t internal_table p r1 →
  (internal_table = true ∨ ∀ p, ¬ named r name p) → Z.of_nat (size (handles r)) + 3 < 2 ^ 32 →
  (∀ sh, shares r !! p = Some sh → snd <$> fs_name sh = Some name) →
  wp (file ← (if internal_table then fm_open_from_share malloc_ok sizeof_FM_INFO dbug p mode
              else fm_open_from_share_and_register malloc_ok sizeof_FM_INFO dbug p mode);
      match file with
      | None => fm_release_share p internal_table;; mret None
      | Some h => wire_keys p;; mret (Some h)
      end)
    (λ res r', match res with
               | Some h => open_result base r name t internal_table h r'
               | None => no_memory malloc_ok ∧ reg_ok base r' ∧ handles r' = handles r
               end) r1.
Proof.
  intros (Hr1 & Hl & Eh & Hfr & Hbk & sh & Hsh & Hu & Hnm & Hnt) Hnew Hsz Hold. rewrite <-Eh in Hsz.
  assert (Hopen : wp (if internal_table then fm_open_from_share malloc_ok sizeof_FM_INFO dbug p mode
      else fm_open_from_share_and_register malloc_ok sizeof_FM_INFO dbug p mode) (λ res r', match res with
      | Some h => ∃ reg, opened my_hasher_mysql5x MY_HASH_ADD_MARIADB get_rec_bits uint2korr dbug base r1 p sh mode reg h r'
      | None => no_memory malloc_ok ∧ reg_inv base (Some (p, if internal_table then 0 else 1)) r' ∧ same_tables r1 r' ∧ THR_LOCK_fastmem r' = false end) r1).
  { destruct internal_table; (eapply wp_mono; [first [by apply internal_open_spec|by apply and_register_spec]|]); intros [h|] r'; eauto. }
  wp_use Hopen. intros [h|] r2.
  - intros [reg Ho]. destruct (opened_wire _ _ _ _ _ _ _ _ Hsh Ho) as (r3 & sh3 & E & Hr3 & Eh3 & Es3 & Hn3 & _ & Hnt3). pose proof Ho as (_ & Hh & _).
    wp_step E. apply wp_ret. split; [done|by rewrite <-Eh| | |].
    + eexists _, sh3. split; [by rewrite <-Eh|]. cbn [oh_share]. rewrite Es3, lookup_insert_eq. split; [done|]. split; [by rewrite Hn3|]. right.
      split; [done|]. split; [by rewrite <-Eh|by apply Hnt3].
    + intros q shq Hq Hne. rewrite Es3. rewrite lookup_insert_ne; [by apply Hfr|]. intros <-. by destruct Hne; apply Hold.
    + intros q shq fh. rewrite Eh3, lookup_insert_eq, Es3. intros [= <-] [[<- _]|[_ ?]]%lookup_insert_Some; auto.
  - intros (Hmem & Hr2 & (Es2 & Eh2 & _) & Hl2). wp_use (release_spec _ _ _ _ base _ r2 p sh internal_table Hr2 Hl2).
    + by rewrite Es2.
    + rewrite Eh2. by destruct internal_table.
    + intros _ r3 (Hr3 & Eh3 & _). apply wp_ret. split; [done|]. split; [done|congruence].
Qed.

(** The open of a table that has to be created first. *)
Lemma ha_open_create base r name mode t internal_table : reg_ok base r → table_fits t → core_memory r t →
  (internal_table = true ∨ ∀ p, ¬ named r name p) → Z.of_nat (size (handles r)) + 3 < 2 ^ 32 →
  wp (e ← prepare t internal_table;
      match e with
      | inl _ => mret None
      | inr ci =>
          '(rc, share, _) ← fm_create name ci true;
          my_free (ci_block ci);;
          match share with
          | None => mret None
          | Some p =>
              file ← (if internal_table then fm_open_from_share malloc_ok sizeof_FM_INFO dbug p mode
                      else fm_open_from_share_and_register malloc_ok sizeof_FM_INFO dbug p mode);
              match file with
              | None => fm_release_share p internal_table;; mret None
              | Some h => wire_keys p;; mret (Some h)
              end
          end
      end)
    (λ res r', match res with
               | Some h => open_result base r name t internal_table h r'
               | None => no_memory malloc_ok ∧ reg_ok base r' ∧ handles r' = handles r
               end) r.
Proof.
  intros Hr Ht Hm Hnew Hsz. wp_use (prepare_spec base r t internal_table Hr Ht). intros e r1 (Hst & Hcalls & He).
  pose proof Hst as (Es & Eh & El). destruct e as [e|ci]; [destruct He; by apply wp_ret|].
  destruct He as (Hr1 & Hb & Hci & Hk & Hint & Hkd & Hrl).
  wp_use (create_spec malloc_ok sizeof_FM_SHARE sizeof_FM_KEYDEF sizeof_HA_KEYSEG now my_hasher_mysql5x MY_HASH_ADD_MARIADB get_rec_bits uint2korr
    (base ∪ {[ ci_block ci ]}) r1 name ci true Hr1 Hci).
  { rewrite Hk. intros Hk0 n size Hn. apply Hm; [done|]. rewrite Hcalls in Hn. lia. }
  intros [[rc o] new] r2 (Hl2 & Eh2 & Hfr & Hres). destruct o as [p|].
  - destruct Hres as (-> & Hr2 & sh & Hsh & Hi & Hn & Hbk & Hc).
    assert (Hr2' : reg_inv (base ∪ {[ ci_block ci ]}) (Some (p, if internal_table then 0 else 1)) r2).
    { unfold pin_of in Hr2. rewrite Hint in Hr2. by destruct internal_table. }
    destruct (free_description _ _ _ _ Hr2' Hb) as (r3 & E3 & Hr3 & (Es3 & Eh3 & _) & Hl3). wp_step E3.
    assert (Hnw : new = true).
    { destruct new; [done|]. destruct Hc as (Hci' & sh0 & Hin & Hs0 & Hn0). destruct Hnew as [->|Hnew].
      - congruence.
      - destruct (Hnew p). apply (same_named r r1); [done|]. split; [done|]. by exists sh0. }
    subst new. destruct Hc as (Hu & Hnt & Hold). rewrite Hkd, Hint, Hrl in Hnt. eapply ha_open_new; [|done|done|by rewrite <-Es].
    split; [done|]. split; [congruence|]. split; [congruence|]. split.
    + intros q shq Hq Hne. rewrite Es3. apply Hfr; [by rewrite Es|done].
    + split; [by rewrite Es3, <-Es|]. exists sh. by rewrite Es3, Eh3, Eh2.
  - destruct Hres as (-> & Hmem & Hr2). destruct (free_description _ _ _ _ Hr2 Hb) as (r3 & E3 & Hr3 & (Es3 & Eh3 & _) & Hl3). wp_step E3.
    apply wp_ret. split; [done|]. split; [split; [done|congruence]|congruence].
Qed.

(** The memory that OPEN cannot do without: the allocations of the core, and the handle of a table
    that exists (when it fails, the null handle is dereferenced). *)
Definition open_memory (r : registry) (name : bytes) (t : TABLE) (internal_table : bool) : Prop :=
  core_memory r t ∧ ∀ p size, internal_table = false → named r name p → malloc_ok (calls (rheap r)) size = true.

(** OPEN *)
Lemma ha_open_spec base r name mode t internal_table : reg_ok base r → table_fits t → open_memory r name t internal_table →
  Z.of_nat (size (handles r)) + 3 < 2 ^ 32 →
  wp (ha_open name mode t internal_table) (λ res r',
    match res with
    | Some h => open_result base r name t internal_table h r'
    | None => no_memory malloc_ok ∧ reg_ok base r' ∧ handles r' = handles r
    end) r.
Proof.
  intros Hr Ht [Hm Hinfo] Hsz. unfold Registry.ha_open. destruct internal_table.
  { wp_step @ret_run. wp_step (@get_run registry). cbn [orb]. apply (ha_open_create base r name mode t true); try done. by left. }
  wp_use (fm_open_spec _ _ _ _ malloc_ok sizeof_FM_INFO dbug base r name mode Hr Hsz). intros [h|] r1.
  - intros (p & sh & Hin & Hsh & Hn & Ho). wp_step (@get_run registry). rewrite bool_decide_false by done. cbn [orb andb unwrap].
    wp_step @ret_run. eapply wp_mono; [eapply ha_open_known; try done; split; [done|by exists sh]|]. intros res r2 (h' & -> & H). done.
  - intros (Hr1 & Hst & [(Ee & Ec & Hno)|[(p & sh & Hin & Hsh & Hn) [size Hf]]]).
    + wp_step (@get_run registry). rewrite Ee, !bool_decide_true by done. cbn [orb andb]. pose proof Hst as (Es & Eh & El).
      eapply wp_mono; [apply (ha_open_create base r1 name mode t false); try done|].
      * intros Hk n size Hn. apply Hm; [done|]. by rewrite Ec in Hn.
      * right. intros p Hp%(same_named r r1); [|done]. destruct Hp as (Hin & sh & Hsh & Hn). by eapply Hno.
      * by rewrite Eh.
      * intros [h|] r2; [|by rewrite Eh]. intros [H1 H2 (fh & sh & E1 & E2 & E3 & E4) H4 H5]. rewrite Eh in *. split; [done|done| | |].
        -- exists fh, sh. split_and!; try done. rewrite Es in E4. setoid_rewrite (same_named r r1) in E4; [|done|done]. done.
        -- intros q shq Hq. apply H4. by rewrite Es.
        -- intros q shq f. rewrite <-Es. apply H5.
    + exfalso. assert (Hp : named r name p) by (split; [done|by exists sh]). by rewrite (Hinfo p size) in Hf.
Qed.

(** CLONE is an OPEN by the name of the share. *)
Lemma clone_run r h fh sh n mode t Q : handles r !! h = Some fh → shares r !! oh_share fh = Some sh → fs_name sh = Some n →
  wp (ha_open n.2 mode t false) Q r → wp (ha_clone h mode t true) Q r.
Proof.
  intros Hh Hsh Hn H. unfold Registry.ha_clone. wp_step deref_handle_run; [exact Hh|]. wp_step deref_share_run; [exact Hsh|]. rewrite Hn. wp_step @unwrap_run; [done|]. exact H.
Qed.

(** * Clients *)

(** The operations of clients; [TRow] runs a row command through an open handle. *)
Inductive top :=
| TOpen (name : bytes) (mode : Z) (t : TABLE) (internal_table : bool)
| TClone (h : nat) (mode : Z) (t : TABLE) (got : bool)
| TClose (h : nat)
| TCreate (name : bytes) (t : TABLE) (auto_increment_value : Z)
| TDelete (name : bytes)
| TDrop (h : nat)
| TRename (from to : bytes)
| TRow (h : nat) (c : cmd).

Inductive tresp :=
| THandle (h : option nat)
| TCode (rc : Z)
| TStatus (e : option create_err)
| TData (res : resp).

Definition run_top (op : top) : RM tresp :=
  match op with
  | TOpen name mode t internal_table => h ← ha_open name mode t internal_table; mret (THandle h)
  | TClone h mode t got => h' ← ha_clone h mode t got; mret (THandle h')
  | TClose h => rc ← ha_close h; mret (TCode rc)
  | TCreate name t v => rc ← ha_create name t false v; mret (TCode rc)
  | TDelete name => rc ← ha_delete_table name; mret (TCode rc)
  | TDrop h => ha_drop_table h;; mret (TCode 0)
  | TRename from to => e ← ha_rename_table malloc_ok from to; mret (TStatus e)
  | TRow h c => fh ← deref_handle h; res ← on_share (oh_share fh) (run_cmd c); mret (TData res)
  end.

(** The operation respects the interface: handles that are open, tables that the engine can hold,
    commands that fit the table, and the memory that the code does not check for. *)
Definition top_ok (r : registry) (op : top) : Prop :=
  match op with
  | TOpen name _ t internal_table => table_fits t ∧ open_memory r name t internal_table ∧ Z.of_nat (size (handles r)) + 3 < 2 ^ 32
  | TClone h _ t _ => ∃ fh sh n, handles r !! h = Some fh ∧ shares r !! oh_share fh = Some sh ∧ fs_name sh = Some n ∧
      table_fits t ∧ open_memory r n.2 t false ∧ Z.of_nat (size (handles r)) + 3 < 2 ^ 32
  | TClose h | TDrop h => is_Some (handles r !! h)
  | TCreate _ t _ => table_fits t ∧ core_memory r t
  | TDelete _ | TRename _ _ => True
  | TRow h c => ∃ fh sh, handles r !! h = Some fh ∧ shares r !! oh_share fh = Some sh ∧ cmd_ok (fs_core sh) c
  end.

Lemma ha_close_spec base r h fh sh : reg_ok base r → handles r !! h = Some fh → shares r !! oh_share fh = Some sh →
  wp (ha_close h) (λ rc r', rc = 0 ∧ reg_ok base r' ∧ handles r' = delete h (handles r) ∧
    shares r' = closed_shares (oh_share fh) h sh (shares r)) r.
Proof.
  intros Hr Hh Hsh. unfold ha_close. wp_use (close_spec _ _ _ _ base r h fh sh Hr Hh Hsh). intros rc r' (-> & H). by apply wp_ret.
Qed.

Lemma top_spec base r op : reg_ok base r → top_ok r op → wp (run_top op) (λ _ r', reg_ok base r') r.
Proof.
  intros Hr Hok. destruct op as [name mode t internal|h mode t got|h|name t v|name|h|from to|h c]; cbn [run_top top_ok] in *.
  - destruct Hok as (Ht & Hm & Hsz). wp_use (ha_open_spec base r name mode t internal Hr Ht Hm Hsz).
    intros [h|] r' H; apply wp_ret; [apply H|by destruct H as (_ & ? & _)].
  - destruct Hok as (fh & sh & n & Hh & Hsh & Hn & Ht & Hm & Hsz). destruct got; [|apply wp_bind, wp_ret, wp_ret; done].
    wp_use (clone_run r h fh sh n mode t _ Hh Hsh Hn (ha_open_spec base r n.2 mode t false Hr Ht Hm Hsz)).
    intros [h'|] r' H; apply wp_ret; [apply H|by destruct H as (_ & ? & _)].
  - destruct Hok as [fh Hh]. destruct (handle_share _ _ _ _ _ _ _ _ (proj1 Hr) Hh) as [sh Hsh].
    wp_use (ha_close_spec base r h fh sh Hr Hh Hsh). intros rc r' H. apply wp_ret, H.
  - destruct Hok as [Ht Hm]. wp_use (ha_create_spec base r name t v Hr Ht Hm). intros rc r' H. apply wp_ret, H.
  - unfold ha_delete_table. apply wp_bind. wp_use (delete_table_spec _ _ _ _ base r name Hr). intros e r' H. apply wp_ret, wp_ret, H.
  - destruct Hok as [fh Hh]. destruct (handle_share _ _ _ _ _ _ _ _ (proj1 Hr) Hh) as [sh Hsh].
    wp_use (drop_spec _ _ _ _ base r h fh sh Hr Hh Hsh). intros rc r' H. apply wp_ret, H.
  - wp_use (rename_spec _ _ _ _ malloc_ok base r from to Hr). intros e r' H. apply wp_ret, H.
  - destruct Hok as (fh & sh & Hh & Hsh & Hc). wp_step deref_handle_run; [exact Hh|].
    wp_use (row_spec base r h fh sh c Hr Hh Hsh Hc). intros res r' H. apply wp_ret, H.
Qed.

(** [texec r tr r']: the operations of [tr], one after the other, lead from [r] to [r'] with these
    results. *)
Inductive texec : registry → list (top * tresp) → registry → Prop :=
| texec_nil r : texec r [] r
| texec_cons r op res r1 tr r2 : top_ok r op → run_top op r = Ret (res, r1) → texec r1 tr r2 → texec r ((op, res) :: tr) r2.

Lemma texec_ok base r tr r' : reg_ok base r → texec r tr r' → reg_ok base r'.
Proof.
  intros Hr He. induction He as [|r op res r1 tr r2 Hok Hrun He IH]; [done|]. apply IH. exact (wp_inv _ _ _ _ _ (top_spec base r op Hr Hok) Hrun).
Qed.

Lemma named_iff base pend r name p : reg_inv base pend r →
  named r name p ↔ ∃ sh, shares r !! p = Some sh ∧ fs_internal sh = false ∧ snd <$> fs_name sh = Some name.
Proof.
  intros [Ht _]. unfold named. split.
  - intros (Hin & sh & Hsh & Hn). apply (to_list _ _ _ _ _ _ Ht : _ ∧ _) in Hin as (sh' & Hsh' & Hi). exists sh. split_and!; try done. congruence.
  - intros (sh & Hsh & Hi & Hn). split; [|by exists sh]. apply (to_list _ _ _ _ _ _ Ht : _ ∧ _). by exists sh.
Qed.

(** Memory is never short. *)
Definition ample_memory : Prop := ∀ n size, malloc_ok n size = true.

(** OPEN by name with ample memory, when the table is there and when it is not. *)
Lemma reopen base r name mode t : ample_memory → reg_ok base r → table_fits t → Z.of_nat (size (handles r)) + 3 < 2 ^ 32 →
  wp (ha_open name mode t false) (λ res r', ∃ h fh sh, res = Some h ∧ handles r' !! h = Some fh ∧ shares r' !! oh_share fh = Some sh ∧
    ((named r name (oh_share fh) ∧ ∃ sh0, shares r !! oh_share fh = Some sh0 ∧ table (fs_core sh) = table (fs_core sh0)) ∨
     ((∀ p, ¬ named r name p) ∧ new_table (keydefs_of t) (t_reclength t) false sh))) r.
Proof.
  intros Hm Hr Ht Hsz. eapply wp_mono; [apply (ha_open_spec base); try done|].
  { split; [by intros _ ? ? _|by intros ? ? _ _]. }
  intros [h|] r'; [|by intros ((n & size & Hf) & _); rewrite Hm in Hf].
  intros [_ _ (fh & sh & Eh & Hsh & _ & Hcase) _ _]. exists h, fh, sh. rewrite Eh, lookup_insert_eq. split_and!; try done.
  destruct Hcase as [(_ & ? & ?)|([?|?] & _ & ?)]; [by left|done|by right].
Qed.

(** C8: No sequence of table operations goes wrong.  From the moment the plugin is loaded, clients
    open tables (internal or not, known or new), clone and close handles, create, drop (by name or by
    handle) and rename tables and run row commands on open ones, in any order and with allocations
    failing.  The tables are those the engine supports ([table_fits]): keys that are not BTREE (for one
    that is, [fm_prepare_create_info] frees through a pointer into a freed block, [prepare_btree]), at most
    64 of them, with packed lengths within 32 bits and odd bits only in the last part, and a row limit
    within 31 bits.  Two kinds of allocations succeed, since the code does not survive their failure
    ([top_ok]): those of the core of a new table that has keys (a missing chunk array sends
    [fm_core_free_share] through a null pointer, [init_failure_undefined], and the others are not checked),
    and the handle of a table that exists.  All others, the chunk array of a table without keys included,
    may fail.
    Then every open handle refers to a share that is there, whose reference count is the number of
    its handles and whose rows satisfy the invariant of the row store; every further operation
    returns (no use after free, no double free, no null pointer, no mutex taken twice); and once
    all handles are closed and no table is listed, exactly the memory from before is allocated. *)
Theorem registry_safe h0 tr r : fresh h0 → texec (boot h0) tr r →
  (∀ h fh, handles r !! h = Some fh → ∃ sh, shares r !! oh_share fh = Some sh ∧ open_count sh = Z.of_nat (users (oh_share fh) (handles r)) ∧
     wf ∅ (with_heap (rheap r) (fs_core sh))) ∧
  (∀ op, top_ok r op → ∃ res r', run_top op r = Ret (res, r')) ∧
  (handles r = ∅ → fm_share_list r = [] → live (rheap r) = live h0).
Proof.
  intros Hf He. pose proof (texec_ok _ _ _ _ (boot_ok h0 Hf) He) as Hr. split_and!.
  - intros h fh Hh. destruct (handle_share _ _ _ _ _ _ _ _ (proj1 Hr) Hh) as [sh Hsh]. exists sh. split; [done|].
    split; [|by eapply open_core_wf; [apply Hr| |]]. rewrite (si_count _ _ _ _ _ _ _ _ (inv_share _ _ _ _ _ _ _ _ _ (proj1 Hr) Hsh)). apply Z.add_0_r.
  - intros op Hop. destruct (top_spec _ r op Hr Hop) as (res & r' & E & _). by exists res, r'.
  - intros Eh El. by apply (nothing_left (live h0)).
Qed.

(** C26: Tables outlive their handles, and dropped tables do not.  In any state that clients can
    reach, with ample memory: closing a handle of a table that is neither internal nor marked for
    deletion, of which no other listed table has the name, and opening the table by name again gives a
    handle of a table with the same rows - also when it was the last handle; and dropping such a table
    through its only handle and opening the name again gives a new, empty table with the keys and the
    record length of the new definition. *)
Theorem close_open_rows h0 tr r h fh sh name mode t : ample_memory → fresh h0 → texec (boot h0) tr r →
  handles r !! h = Some fh → shares r !! oh_share fh = Some sh → fs_internal sh = false → snd <$> fs_name sh = Some name →
  (∀ q, named r name q → q = oh_share fh) → table_fits t →
  (delete_on_close sh = false →
   wp (ha_close h;; ha_open name mode t false) (λ res r', ∃ h' fh' sh', res = Some h' ∧ handles r' !! h' = Some fh' ∧
     shares r' !! oh_share fh' = Some sh' ∧ table (fs_core sh') = table (fs_core sh)) r) ∧
  (open_count sh = 1 →
   wp (ha_drop_table h;; ha_open name mode t false) (λ res r', ∃ h' fh' sh', res = Some h' ∧ handles r' !! h' = Some fh' ∧
     shares r' !! oh_share fh' = Some sh' ∧ new_table (keydefs_of t) (t_reclength t) false sh') r).
Proof.
  intros Hm Hf He Hh Hsh Hi Hn Huniq Ht. pose proof (texec_ok _ _ _ _ (boot_ok h0 Hf) He) as Hr. set (p := oh_share fh) in *.
  assert (Hsz : ∀ m, m = delete h (handles r) → Z.of_nat (size m) + 3 < 2 ^ 32).
  { intros m ->. destruct Hr as [[Htab _] _]. pose proof (to_size _ _ _ _ _ _ Htab). rewrite map_size_delete, Hh. pose proof (map_size_ne_0_lookup_2 (handles r) h ltac:(by eexists)). lia. }
  split.
  - intros Hd. wp_use (ha_close_spec _ r h fh sh Hr Hh Hsh). intros _ r1 (_ & Hr1 & Eh & Es).
    unfold closed_shares in Es. rewrite Hd, andb_false_r in Es.
    eapply wp_mono; [apply (reopen (live h0)); [done|done|done|by apply Hsz]|]. intros res r2 (h' & fh' & sh' & -> & Hh' & Hsh' & Hcase).
    exists h', fh', sh'. split_and!; try done. pose proof (λ q, named_iff _ _ _ name q (proj1 Hr1)) as Hni. destruct Hcase as [[Hnm (s0 & Hs0 & Hst)]|[Hno _]].
    + apply Hni in Hnm as (s1 & Hs1 & Hi1 & Hn1). rewrite Hst. rewrite Es in Hs0, Hs1. fold p in Hs0, Hs1.
      destruct (decide (p = oh_share fh')) as [E|E]; [rewrite <-E, lookup_insert_eq in Hs0; by injection Hs0 as <-|].
      rewrite lookup_insert_ne in Hs1 by done. destruct E. symmetry. apply Huniq, (named_iff _ _ _ name _ (proj1 Hr)). by exists s1.
    + destruct (Hno p). apply Hni. rewrite Es. fold p. rewrite lookup_insert_eq. by eexists.
  - intros Hc. wp_use (drop_spec _ _ _ _ _ r h fh sh Hr Hh Hsh). intros _ r1 (Hr1 & Eh & Es).
    unfold closed_shares in Es. simpl in Es. rewrite Hc, bool_decide_true in Es by done. simpl in Es.
    eapply wp_mono; [apply (reopen (live h0)); [done|done|done|by apply Hsz]|]. intros res r2 (h' & fh' & sh' & -> & Hh' & Hsh' & Hcase).
    exists h', fh', sh'. do 3 (split; [done|]). destruct Hcase as [[Hnm _]|[Hno Hnt]]; [exfalso|done].
    apply (named_iff _ _ _ name _ (proj1 Hr1)) in Hnm as (s1 & Hs1 & Hi1 & Hn1); rewrite Es in Hs1; apply lookup_delete_Some in Hs1 as [Hne Hs1].
    destruct Hne; symmetry; apply Huniq, (named_iff _ _ _ name _ (proj1 Hr)); by exists s1.
Qed.

(** C27: The clone of a handle is what its name gives.  [ha_fastmem::clone] opens, as a table that is
    not internal, the name of the handle's share: the new handle belongs to a listed table of that name,
    with the rows it had, or, if none is listed, to a new, empty table with the keys and the record length
    of the definition.  So it is a second handle of the same table when that table is not internal and no
    other listed table has its name; and the clone of a handle of an internal table never belongs to the
    same table.  Memory is ample, and the number of handles stays within 32 bits. *)
Theorem clone_table h0 tr r h fh sh n mode t : ample_memory → fresh h0 → texec (boot h0) tr r →
  handles r !! h = Some fh → shares r !! oh_share fh = Some sh → fs_name sh = Some n → table_fits t → Z.of_nat (size (handles r)) + 3 < 2 ^ 32 →
  wp (ha_clone h mode t true) (λ res r', ∃ h' fh' sh', res = Some h' ∧ handles r !! h' = None ∧ handles r' = <[h' := fh']> (handles r) ∧
    shares r' !! oh_share fh' = Some sh' ∧ snd <$> fs_name sh' = Some n.2 ∧
    ((named r n.2 (oh_share fh') ∧ ∃ sh0, shares r !! oh_share fh' = Some sh0 ∧ table (fs_core sh') = table (fs_core sh0)) ∨
     ((∀ q, ¬ named r n.2 q) ∧ new_table (keydefs_of t) (t_reclength t) false sh')) ∧
    (fs_internal sh = true → oh_share fh' ≠ oh_share fh) ∧
    (fs_internal sh = false → (∀ q, named r n.2 q → q = oh_share fh) →
       oh_share fh' = oh_share fh ∧ table (fs_core sh') = table (fs_core sh))) r.
Proof.
  intros Hm Hf He Hh Hsh Hn Ht Hsz. pose proof (texec_ok _ _ _ _ (boot_ok h0 Hf) He) as Hr. eapply clone_run; [done..|].
  eapply wp_mono; [apply (ha_open_spec (live h0)); try done|].
  { split; [by intros _ ? ? _|by intros ? ? _ _]. }
  intros [h'|] r'; [|by intros ((n' & size & Hx) & _); rewrite Hm in Hx].
  intros [_ Hfresh (fh' & sh' & Eh & Hsh' & Hn' & Hcase) _ _]. exists h', fh', sh'. do 5 (split; [done|]).
  pose proof (λ q, named_iff _ _ _ n.2 q (proj1 Hr)) as Hni. split_and!.
  - destruct Hcase as [(_ & ? & ?)|([?|?] & _ & ?)]; [by left|done|by right].
  - intros Hi E. destruct Hcase as [(_ & (s1 & Hs1 & Hi1 & _)%Hni & _)|(_ & Hu & _)]; [congruence|]. by destruct (users_none _ _ _ _ Hu Hh).
  - intros Hi Hu. destruct Hcase as [(_ & Hx & sh0 & Hsh0 & Et)|([?|Hno] & _)]; [|done|].
    + pose proof (Hu _ Hx) as E. split; [done|]. rewrite E, Hsh in Hsh0. by injection Hsh0 as <-.
    + destruct (Hno (oh_share fh)). apply Hni. exists sh. by rewrite Hn.
Qed.
End tables.
