(* ===== verification/Handler.v ===== *)
(** The handler (src/ha_fastmem.cc, src/ha_fastmem.h): an open handle with the sticky row lock
    that a write statement carries from the read of a row to its update or delete. *)

From S2P Require Import Prelude CoreState CoreOps RowOps Shape Inv Chains Reads Alloc Freelist Steps Insert Delete Lockset Update Clear Lifecycle Spec AutoInc Hash Data DataSpec.

(** * Data *)

(** [ha_fastmem] between open and close: [file] is not null. *)
Record ha_fastmem := mkHandler {
  file : dstate;
  write_stmt : bool;
  row_locked : bool;
  locked_slot : Z
}.

Definition h_file (d : dstate) (h : ha_fastmem) : ha_fastmem :=
  mkHandler d (write_stmt h) (row_locked h) (locked_slot h).
Definition h_write_stmt (b : bool) (h : ha_fastmem) : ha_fastmem :=
  mkHandler (file h) b (row_locked h) (locked_slot h).
Definition h_lock (b : bool) (i : Z) (h : ha_fastmem) : ha_fastmem :=
  mkHandler (file h) (write_stmt h) b i.
Abbreviation HM := (M ha_fastmem).

(** Call an operation of fm_data.cc on the handle. *)
Definition on_file {A} (m : DM A) : HM A := λ h,
  match m (file h) with
  | Ret (a, d) => Ret (a, h_file d h)
  | Ub => Ub
  | Hang => Hang
  end.

(** [return my_errno= e] *)
Definition h_fail (e : ha_err) : HM ha_err := on_file (fail e).

Definition cur_slot (h : ha_fastmem) : Z := current_slot (info (file h)).

(** * The sticky row lock *)

Definition unlock_current_row : HM () :=
  h ← get;
  if row_locked h then
    on_file (on_core (wlock_unlock (locked_slot h)));; modify (h_lock false (-1))
  else mret tt.

Definition lock_current_row : HM () :=
  h ← get;
  if decide (cur_slot h < 0) then mret tt
  else if row_locked h && bool_decide (locked_slot h = cur_slot h) then mret tt
  else
    (if row_locked h then unlock_current_row else mret tt);;
    on_file (on_core (wlock_lock (cur_slot h)));;
    modify (h_lock true (cur_slot h)).

(** The row is locked for the write statement and is the current one. *)
Definition holds_row (h : ha_fastmem) : bool := row_locked h && bool_decide (locked_slot h = cur_slot h).

(** The tail of the read operations in a write statement: lock the row, read it again, and
    give [gone] when it is not there any more. *)
Definition lock_and_reread (gone : ha_err) (r : ha_err * bytes) : HM (ha_err * bytes) :=
  h ← get;
  if bool_decide (r.1 = HA_OK) && write_stmt h then
    lock_current_row;;
    '(rc, rec) ← on_file (fm_reread_locked r.2);
    if decide (rc ≠ FM_ERR_OK) then unlock_current_row;; e ← h_fail gone; mret (e, rec)
    else mret (r.1, rec)
  else mret r.

(** The guard of [update_row] and [delete_row]: the lock is held on the current row, taking it
    now when that is possible; [false] when the operation is refused. *)
Definition ensure_locked : HM bool :=
  h ← get;
  if write_stmt h && holds_row h then mret true
  else
    (if write_stmt h && bool_decide (0 ≤ cur_slot h) && negb (row_locked h) then lock_current_row else mret tt);;
    h ← get;
    if holds_row h then mret true
    else unlock_current_row;; _ ← h_fail HA_ERR_RECORD_CHANGED; mret false.

Section server.
Context (uint_korr sint_korr float_korr : Z → bytes → Z) (ha_keytype : Z → auto_type).
Context (get_rec_bits : bytes → Z → Z → Z).
(** The server's [handler::update_auto_increment], which may store a generated value in the
    record, and whether the statement asks for it. *)
Context (update_auto_increment : bytes → HM (ha_err * bytes)).

Definition write_row (next_number_field : bool) (buf : bytes) : HM ha_err :=
  '(e, buf) ← (if next_number_field then update_auto_increment buf else mret (HA_OK, buf));
  if decide (e ≠ HA_OK) then mret e
  else on_file (fm_write uint_korr sint_korr float_korr ha_keytype buf).

Definition update_row (old_data new_data : bytes) : HM ha_err :=
  ok ← ensure_locked;
  if ok : bool then
    rc ← on_file (fm_update_locked uint_korr sint_korr float_korr ha_keytype old_data new_data);
    unlock_current_row;;
    mret rc
  else mret HA_ERR_RECORD_CHANGED.

Definition delete_row (buf : bytes) : HM ha_err :=
  ok ← ensure_locked;
  if ok : bool then
    rc ← on_file (fm_delete_locked buf);
    unlock_current_row;;
    mret rc
  else mret HA_ERR_RECORD_CHANGED.

(** * Index reads *)

Definition index_read_idx_map (buf : bytes) (index : Z) (key : bytes) : HM (ha_err * bytes) :=
  r ← on_file (fm_find_key index key buf);
  lock_and_reread HA_ERR_KEY_NOT_FOUND r.

(** [active_index] is the index the server has opened. *)
Definition index_read_map (active_index : Z) (buf key : bytes) : HM (ha_err * bytes) :=
  index_read_idx_map buf active_index key.
Definition index_read_last_map (active_index : Z) (buf key : bytes) : HM (ha_err * bytes) :=
  index_read_idx_map buf active_index key.

Definition index_next (buf : bytes) : HM (ha_err * bytes) :=
  h ← get;
  let i := info (file h) in
  if decide (lastinx i < 0) then e ← h_fail HA_ERR_WRONG_INDEX; mret (e, buf)
  else
    r ← on_file (fm_find_next_key (lastinx i) (lastkey i) (current_slot i) buf);
    h ← get;
    if bool_decide (r.1 = HA_ERR_KEY_NOT_FOUND) && bool_decide (HA_STATE_NO_KEY ∉ update (info (file h))) then
      e ← h_fail HA_ERR_END_OF_FILE; mret (e, r.2)
    else lock_and_reread HA_ERR_KEY_NOT_FOUND r.

Definition index_prev : HM ha_err := h_fail HA_ERR_WRONG_COMMAND.
Definition index_first : HM ha_err := h_fail HA_ERR_WRONG_COMMAND.
Definition index_last : HM ha_err := h_fail HA_ERR_WRONG_COMMAND.

(** * Scans and positions *)

Definition rnd_init (scan : bool) : HM ha_err :=
  if scan then unlock_current_row;; on_file fm_scan_init else mret HA_OK.

Definition rnd_next (buf : bytes) : HM (ha_err * bytes) :=
  r ← on_file (fm_scan buf);
  if decide (r.1 = HA_ERR_END_OF_FILE) then mret (HA_ERR_END_OF_FILE, r.2)
  else lock_and_reread HA_ERR_RECORD_DELETED r.

Definition rnd_pos (buf pos : bytes) : HM (ha_err * bytes) :=
  r ← on_file (fm_rrnd buf pos);
  lock_and_reread HA_ERR_RECORD_DELETED r.

Definition position : HM bytes := on_file fm_set_position.

(** * Statement boundaries *)

Inductive lock_mode := F_RDLCK | F_WRLCK | F_UNLCK.

Definition external_lock (lock_type : lock_mode) : HM ha_err :=
  (match lock_type with
   | F_WRLCK => modify (h_write_stmt true)
   | F_UNLCK => modify (h_write_stmt false);; unlock_current_row
   | F_RDLCK => mret tt
   end);;
  mret HA_OK.

Definition reset : HM ha_err :=
  unlock_current_row;; on_file fm_reset.

(** [fm_clear] of src/fm_create.cc. *)
Definition fm_clear : DM () :=
  on_core fm_core_clear;;
  upd_info (λ i, in_update [] (in_lastinx (-1) (in_hash_slot (-1) (in_slot (-1) i)))).

Definition delete_all_rows : HM ha_err := on_file fm_clear;; mret HA_OK.

Definition reset_auto_increment (value : Z) : HM ha_err :=
  on_file (on_core (fm_set_auto_increment value));; mret HA_OK.

(** The first value and [*nb_reserved_values]. *)
Definition get_auto_increment (offset increment nb_desired_values : Z) : HM (Z * Z) :=
  r ← on_file (on_core (fm_get_auto_increment offset increment nb_desired_values));
  (if decide (r.1 = u64 (Z.lnot 0)) then _ ← h_fail HA_ERR_AUTOINC_READ_FAILED; mret tt else mret tt);;
  mret r.

Definition find_unique_row (record : bytes) (unique_idx : Z) : HM (Z * bytes) :=
  h ← get;
  kd ← unwrap (arr_get (keydefs (file h)) unique_idx);
  if negb (flag_nosame kd) then mret (1, record) else
  on_file (upd_info (λ i, in_lastkey (fm_make_key get_rec_bits kd record) (lastkey_len i) i));;
  h ← get;
  '(rc, idx, scr) ← on_file (on_core (fm_core_find unique_idx (lastkey (info (file h))) (scratch (info (file h))) (-1)));
  on_file (upd_info (in_scratch scr));;
  if decide (rc ≠ FM_ERR_OK) then mret (1, record) else
  g ← on_file (on_core (fm_slot_gen idx));
  on_file (upd_info (λ i, in_update [HA_STATE_AKTIV] (in_lastinx unique_idx (in_current idx g i))));;
  rec ← unwrap (memcpy (reclength (core (file h))) scr);
  if write_stmt h then
    lock_current_row;;
    '(rc, rec) ← on_file (fm_reread_locked rec);
    if decide (rc ≠ FM_ERR_OK) then unlock_current_row;; mret (1, rec) else mret (0, rec)
  else mret (0, rec).
End server.
