(* ===== verification/HandlerSpec.v ===== *)
(** The discipline of the sticky row lock (src/ha_fastmem.cc): a write statement reads a row
    under its slot lock, updates exactly that row, and holds no lock afterwards. *)

From S2P Require Import Prelude CoreState CoreOps RowOps Shape Inv Chains Reads Alloc Freelist Steps Insert Delete Lockset Update Clear Lifecycle Spec AutoInc Hash Data DataSpec Handler.

(** * Slot locks and the invariant of the share *)

(** [same_rows s s']: nothing but slot locks differs. *)
Record same_rows (s s' : FM_SHARE_CORE) : Prop := {
  sr_config : same_config s s';
  sr_total : total_slots s' = total_slots s;
  sr_table : table s' = table s;
  sr_row i : row_at s' i = row_at s i;
  sr_gen i : gen_at s' i = gen_at s i;
  sr_key k : key_at s' k = key_at s k;
  sr_next k i : fm_key_next s' k i = fm_key_next s k i;
  sr_fuel : walk_fuel s' = walk_fuel s
}.

#[export] Instance same_rows_refl : Reflexive same_rows.
Proof. intros s. by constructor. Qed.

#[export] Instance same_rows_trans : Transitive same_rows.
Proof. intros s1 s2 s3 [] []. constructor; [by etrans|intros; congruence..]. Qed.

Lemma fm_slot_wlock v i s j : fm_slot (upd_slot (sl_with_wlock v) i s) j =
  if decide (j = i) then sl_with_wlock v <$> fm_slot s j else fm_slot s j.
Proof.
  case_decide as Hj; [subst; apply fm_slot_upd_eq|]. by apply fm_slot_upd_ne.
Qed.

Lemma row_at_wlock v i s j : row_at (upd_slot (sl_with_wlock v) i s) j = row_at s j.
Proof. unfold row_at. rewrite fm_slot_wlock. case_decide; [|done]. by destruct (fm_slot s j). Qed.

Lemma gen_at_wlock v i s j : gen_at (upd_slot (sl_with_wlock v) i s) j = gen_at s j.
Proof. unfold gen_at. rewrite fm_slot_wlock. case_decide; [|done]. by destruct (fm_slot s j). Qed.

(** Taking or releasing the lock of slot [i] changes the set of locks held, and nothing else. *)
Lemma wf_wlock held held' v i s : wf held s →
  (∀ j, (if decide (j = i) then v else if decide (j ∈ held) then 1 else 0) = if decide (j ∈ held') then 1 else 0) →
  wf held' (upd_slot (sl_with_wlock v) i s) ∧ same_rows s (upd_slot (sl_with_wlock v) i s).
Proof.
  intros Hwf Hv. set (s' := upd_slot _ i s). assert (E : erase s' = erase s) by apply erase_upd_slot.
  pose proof (static_ok_erase _ _ E (wf_static _ _ Hwf)) as Hst. pose proof (same_config_erase _ _ E) as Hcfg.
  assert (Hrow : ∀ j, row_at s' j = row_at s j) by (intros; apply row_at_wlock).
  assert (Ht : table s' = table s) by (apply table_ext; [apply Hwf|done|done]).
  destruct (wf_locks _ _ Hwf) as (Hm & Hlk & Hw). split.
  - constructor; rewrite ?Ht.
    + done.
    + eapply heap_ok_erase; [done|apply Hwf].
    + split_and!; [unfold s'; by fm_frame|intros k b; unfold s'; fm_frame; apply Hlk|].
      intros j sl. unfold s'. rewrite fm_slot_wlock, <-Hv. case_decide; [|apply Hw].
      intros (sl' & _ & ->)%fmap_Some. done.
    + intros j sl. unfold s'. rewrite fm_slot_wlock. case_decide.
      * intros (sl' & Hsl & ->)%fmap_Some. destruct (wf_slots _ _ Hwf _ _ Hsl).
        by constructor; cbn; rewrite ?(erase_reclength _ _ E).
      * intros Hsl. eapply slot_ok_reclength; [|by eapply Hwf]. by apply erase_reclength.
    + rewrite (sc_keys _ _ Hcfg). intros k Hk. eapply key_rep_ext; [..|by apply (wf_keys _ _ Hwf)]; try (intros; unfold s'; by fm_frame).
      intros b j. apply indexed_ext; [done|]. intros. by apply bucket_of_erase.
    + eapply free_rep_ext; [..|apply (wf_free _ _ Hwf)]; [by apply total_slots_erase|apply Hcfg|unfold s'; by fm_frame|..].
      * intros j. unfold free_next_at, s'. rewrite fm_slot_wlock. case_decide; [|done]. by destruct (fm_slot s j).
      * intros j _. by rewrite Hrow.
    + unfold s'. fm_frame. apply Hwf.
    + eapply unique_ok_ext; [apply Hcfg|apply Hcfg|apply Hwf].
  - constructor; try done; intros; [apply gen_at_wlock|unfold s'; by fm_frame].
Qed.

(** The chain of a key does not depend on slot locks. *)
Lemma chain_matches_rows s s' k kc pk ms : same_rows s s' → chain_matches s k kc pk ms → chain_matches s' k kc pk ms.
Proof.
  intros R (h & l & Hh & Hl & Hnd & Hin & Hf & -> & Hall). exists h, l. rewrite (sr_fuel _ _ R), (sr_total _ _ R).
  assert (Hm : ∀ i, row_matches s' (ops kc) pk i ↔ row_matches s (ops kc) pk i).
  { intros i. unfold row_matches. by rewrite (sr_row _ _ R). }
  split_and!; [| |done|done|done| |].
  - unfold head_at in *. by rewrite (sr_key _ _ R).
  - eapply linked_ext; [|done]. intros. apply R.
  - apply list_filter_iff. intros i. by rewrite Hm.
  - intros i. rewrite Hm. apply Hall.
Qed.

(** * The invariant of a handler *)

(** The slot locks a handler holds. *)
Definition held_of (h : ha_fastmem) : gset Z := if row_locked h then {[ locked_slot h ]} else ∅.

Record handler_ok (h : ha_fastmem) : Prop := {
  hk_file : handle_ok (held_of h) (file h);
  hk_locked : row_locked h = true → 0 ≤ locked_slot h < total_slots (core (file h))
}.

(** What lock moves leave alone. *)
Record lock_step (h h' : ha_fastmem) : Prop := {
  ls_rows : same_rows (core (file h)) (core (file h'));
  ls_info : info (file h') = info (file h);
  ls_keydefs : keydefs (file h') = keydefs (file h);
  ls_write : write_stmt h' = write_stmt h
}.

#[export] Instance lock_step_refl : Reflexive lock_step.
Proof. intros h. by constructor. Qed.

#[export] Instance lock_step_trans : Transitive lock_step.
Proof. intros h1 h2 h3 [] []. constructor; [by etrans|congruence..]. Qed.

Lemma on_file_run {A} (m : DM A) h a d : m (file h) = Ret (a, d) → on_file m h = Ret (a, h_file d h).
Proof. unfold on_file. by intros ->. Qed.

Lemma wp_on_file {A} (m : DM A) (Q : A → dstate → Prop) h :
  wp m Q (file h) → wp (on_file m) (λ a h', ∃ d, h' = h_file d h ∧ Q a d) h.
Proof. intros (a & d & H & HQ). exists a, (h_file d h). unfold on_file. rewrite H. eauto. Qed.

Ltac wp_file H := apply wp_bind; eapply wp_mono; [eapply wp_on_file, H|cbv beta].

(** A handle keeps its invariant when only slot locks change. *)
Lemma handle_ok_rows held held' d c : handle_ok held d → wf held' c → same_rows (core d) c → handle_ok held' (d_core c d).
Proof.
  intros H Hwf R. pose proof (sr_config _ _ R) as C. eapply (handle_ok_core held held' d); cbn; try done.
  apply kept_config; [done|]. by rewrite (sr_total _ _ R).
Qed.

Lemma slot_of_handler h i : handler_ok h → 0 ≤ i < total_slots (core (file h)) → ∃ sl, fm_slot (core (file h)) i = Some sl ∧
  wlock sl = if decide (i ∈ held_of h) then 1 else 0.
Proof.
  intros H Hi. pose proof (ho_wf _ _ (hk_file _ H)) as Hwf. destruct (proj2 (so_slot _ (wf_static _ _ Hwf) i) Hi) as [sl Hsl].
  exists sl. split; [done|]. destruct (wf_locks _ _ Hwf) as (_ & _ & Hw). by apply Hw.
Qed.

Lemma unlock_spec h : handler_ok h → wp unlock_current_row (λ _ h', handler_ok h' ∧ row_locked h' = false ∧ lock_step h h') h.
Proof.
  intros H. unfold unlock_current_row. wp_get. destruct (row_locked h) eqn:Hr; [|apply wp_ret; by split_and!].
  pose proof (hk_locked _ H Hr) as Hi. destruct (slot_of_handler h _ H Hi) as (sl & Hsl & Hw).
  wp_step @on_file_run; [apply on_core_run, wlock_unlock_run; by eexists|].
  eapply wp_run; [apply modify_run|]. cbn.
  destruct (wf_wlock (held_of h) ∅ 0 (locked_slot h) (core (file h))) as [Hwf R]; [apply H| |].
  { intros j. unfold held_of. rewrite Hr. clear. repeat case_decide; set_solver. }
  split_and!; [|done|by constructor]. constructor; [|done]. by eapply handle_ok_rows; [apply H|..].
Qed.

Lemma lock_spec h : handler_ok h → 0 ≤ cur_slot h →
  wp lock_current_row (λ _ h', handler_ok h' ∧ holds_row h' = true ∧ row_locked h' = true ∧ lock_step h h') h.
Proof.
  intros H H0. unfold lock_current_row. wp_get. rewrite decide_False by lia.
  destruct (row_locked h && bool_decide (locked_slot h = cur_slot h)) eqn:Hh.
  { apply wp_ret. split; [done|]. split; [exact Hh|]. apply andb_true_iff in Hh as [Hr _]. by split. }
  eapply wp_bind, (wp_mono _ (λ _ h1, handler_ok h1 ∧ row_locked h1 = false ∧ lock_step h h1)).
  { destruct (row_locked h) eqn:Hr; [by apply unlock_spec|]. apply wp_ret. by split. }
  intros _ h1 (H1 & Hr1 & L). pose proof (ho_slot _ _ (hk_file _ H1)) as Hs. rewrite (ls_info _ _ L) in Hs. fold (cur_slot h) in Hs.
  destruct (slot_of_handler h1 (cur_slot h) H1 ltac:(lia)) as (sl & Hsl & Hw).
  unfold held_of in Hw. rewrite Hr1, decide_False in Hw by set_solver.
  wp_step @on_file_run; [by eapply on_core_run, wlock_lock_run|]. eapply wp_run; [apply modify_run|].
  destruct (wf_wlock (held_of h1) {[cur_slot h]} 1 (cur_slot h) (core (file h1))) as [Hwf R]; [apply H1| |].
  { intros j. unfold held_of. rewrite Hr1. clear. repeat case_decide; set_solver. }
  split; [|split; [|split; [done|etrans; [exact L|by constructor]]]].
  - constructor; cbn; [by eapply handle_ok_rows; [apply H1|..]|]. intros _. rewrite (sr_total _ _ R). lia.
  - unfold holds_row, cur_slot. cbn. by rewrite (ls_info _ _ L), bool_decide_eq_true_2.
Qed.

(** * Reads in a write statement *)

Lemma row_ref_rows s s' i g rec : same_rows s s' → row_ref s' i g rec ↔ row_ref s i g rec.
Proof. intros R. unfold row_ref. by rewrite (sr_table _ _ R), (sr_gen _ _ R). Qed.

Lemma h_file_id h : h_file (file h) h = h.
Proof. by destruct h. Qed.

(** The row [rec] is current for the handler, and locked if the statement writes. *)
Definition at_row (h : ha_fastmem) (rec : bytes) : Prop :=
  0 ≤ cur_slot h ∧ row_ref (core (file h)) (cur_slot h) (current_gen (info (file h))) rec ∧
  (write_stmt h = true → holds_row h = true).

Lemma lock_and_reread_spec h gone rec : handler_ok h → 0 ≤ cur_slot h →
  row_ref (core (file h)) (cur_slot h) (current_gen (info (file h))) rec →
  wp (lock_and_reread gone (HA_OK, rec)) (λ r h', r = (HA_OK, rec) ∧ handler_ok h' ∧ lock_step h h' ∧ at_row h' rec) h.
Proof.
  intros H H0 Hrow. unfold lock_and_reread. wp_get. rewrite bool_decide_eq_true_2 by done. cbn [andb].
  destruct (write_stmt h) eqn:Hw.
  2: { apply wp_ret. split_and!; [done..|]. split_and!; [done..|]. by rewrite Hw. }
  wp_use (lock_spec h H H0). intros _ h1 (H1 & Hh & _ & L).
  assert (Hrow1 : row_ref (core (file h1)) (current_slot (info (file h1))) (current_gen (info (file h1))) rec).
  { rewrite (ls_info _ _ L). by apply (row_ref_rows _ _ _ _ _ (ls_rows _ _ L)). }
  assert (H1' : 0 ≤ current_slot (info (file h1))) by by rewrite (ls_info _ _ L).
  wp_step @on_file_run; [exact (reread_current _ _ _ _ (hk_file _ H1) H1' Hrow1)|]. rewrite h_file_id, decide_False by naive_solver.
  apply wp_ret. split_and!; [done..|]. split_and!; [done|done|by intros].
Qed.

(** An index read finds the first match of the chain and holds it, or reports that there is none. *)
Lemma index_read_spec h buf inx pk kc kd ms : handler_ok h → 0 ≤ inx < keys (core (file h)) →
  key_at (core (file h)) inx = Some kc → arr_get (keydefs (file h)) inx = Some kd →
  chain_matches (core (file h)) inx kc pk ms →
  wp (index_read_idx_map buf inx pk) (λ r h', handler_ok h' ∧ same_rows (core (file h)) (core (file h')) ∧
    write_stmt h' = write_stmt h ∧ keydefs (file h') = keydefs (file h) ∧
    match ms with
    | [] => r.1 = HA_ERR_KEY_NOT_FOUND
    | i :: _ => r.1 = HA_OK ∧ cur_slot h' = i ∧ lastinx (info (file h')) = inx ∧ at_row h' r.2 ∧
        (keeps_key kd = true → lastkey (info (file h')) = take (Z.to_nat (kd_length kd)) pk)
    end) h.
Proof.
  intros H Hk Hkc Hkd Hms. unfold index_read_idx_map.
  wp_file (find_key_spec (held_of h) (file h) inx kc kd pk buf ms (hk_file _ H) Hk Hkc Hkd Hms).
  intros [e rec] h1 (d & -> & Hd & Ec & Ek & Hf & Hkeep). unfold found in Hf. cbn [fst snd] in *.
  assert (H1 : handler_ok (h_file d h)).
  { constructor; [done|]. cbn. rewrite Ec. apply H. }
  destruct ms as [|i ms].
  - destruct Hf as (-> & _). unfold lock_and_reread. wp_get. rewrite bool_decide_eq_false_2 by done. cbn [andb].
    apply wp_ret. split_and!; try done. cbn. by rewrite Ec.
  - destruct Hf as (-> & Hi & Hl & Hr). rewrite <-Ec in Hr.
    eapply wp_mono; [apply lock_and_reread_spec; [done|..]|].
    + cbn. unfold cur_slot. cbn. rewrite Hi. destruct Hr as [Ht _]. rewrite Ec, table_lookup in Ht by apply (ho_wf _ _ (hk_file _ H)).
      pose proof (row_at_range _ _ _ (wf_static _ _ (ho_wf _ _ (hk_file _ H))) Ht). lia.
    + unfold cur_slot. cbn. by rewrite Hi.
    + intros r h' (-> & H' & L & Hat). pose proof (ls_rows _ _ L) as R. cbn in R. rewrite Ec in R.
      split_and!; [done|done|by rewrite (ls_write _ _ L)|by rewrite (ls_keydefs _ _ L)|done|..|done|].
      * unfold cur_slot. by rewrite (ls_info _ _ L).
      * by rewrite (ls_info _ _ L).
      * rewrite (ls_info _ _ L). intros Hkk. by apply Hkeep.
Qed.

(** From a match, [index_next] goes to the next match of the chain, or reports the end. *)
Lemma index_next_spec h buf inx pk kc kd l1 l2 : handler_ok h → 0 ≤ inx < keys (core (file h)) →
  key_at (core (file h)) inx = Some kc → arr_get (keydefs (file h)) inx = Some kd →
  chain_matches (core (file h)) inx kc pk (l1 ++ cur_slot h :: l2) →
  lastinx (info (file h)) = inx → lastkey (info (file h)) = pk → Z.of_nat (length pk) = kd_length kd →
  wp (index_next buf) (λ r h', handler_ok h' ∧ same_rows (core (file h)) (core (file h')) ∧
    write_stmt h' = write_stmt h ∧ keydefs (file h') = keydefs (file h) ∧
    match l2 with
    | [] => r.1 = HA_ERR_END_OF_FILE
    | i :: _ => r.1 = HA_OK ∧ cur_slot h' = i ∧ lastinx (info (file h')) = inx ∧ at_row h' r.2 ∧ lastkey (info (file h')) = pk
    end) h.
Proof.
  intros H Hk Hkc Hkd Hms Hinx Hpk Hlen. unfold index_next. wp_get. cbv zeta. rewrite Hinx, Hpk, decide_False by lia.
  fold (cur_slot h). wp_file (find_next_key_spec (held_of h) (file h) inx kc kd pk (cur_slot h) buf l1 l2 (hk_file _ H) Hk Hkc Hkd Hms).
  intros [e rec] h1 (d & -> & Hd & Ec & Ek & Hf & Hup & Hkeep). unfold found in Hf. cbn [fst snd] in *.
  assert (H1 : handler_ok (h_file d h)).
  { constructor; [done|]. cbn. rewrite Ec. apply H. }
  wp_get. cbn [file h_file]. destruct l2 as [|i l2].
  - destruct Hf as (-> & _). rewrite Hup by done. rewrite bool_decide_eq_true_2 by done.
    rewrite bool_decide_eq_true_2 by (intros Hx; by apply list_elem_of_singleton in Hx). cbn [andb].
    wp_step @eq_refl. apply wp_ret. split_and!; try done; [|by cbn; rewrite Ec].
    destruct H1 as [H1 H2]. constructor; [|done]. by eapply handle_ok_same; [exact H1|..].
  - destruct Hf as (-> & Hi & Hl & Hr). rewrite <-Ec in Hr. rewrite bool_decide_eq_false_2 by done. cbn [andb].
    eapply wp_mono; [apply lock_and_reread_spec; [done|..]|].
    + unfold cur_slot. cbn. rewrite Hi. destruct Hr as [Ht _]. rewrite Ec, table_lookup in Ht by apply (ho_wf _ _ (hk_file _ H)).
      pose proof (row_at_range _ _ _ (wf_static _ _ (ho_wf _ _ (hk_file _ H))) Ht). lia.
    + unfold cur_slot. cbn. by rewrite Hi.
    + intros r h' (-> & H' & L & Hat). pose proof (ls_rows _ _ L) as R. cbn in R. rewrite Ec in R.
      split_and!; [done|done|by rewrite (ls_write _ _ L)|by rewrite (ls_keydefs _ _ L)|done|..|done|].
      * unfold cur_slot. by rewrite (ls_info _ _ L).
      * by rewrite (ls_info _ _ L).
      * rewrite (ls_info _ _ L). by apply Hkeep.
Qed.

(** A client that reads all the rows of a key: the slot and the record of each. *)
Fixpoint index_rest (fuel : nat) (buf : bytes) : HM (list (Z * bytes)) :=
  match fuel with
  | O => hang
  | S fuel' =>
      '(e, rec) ← index_next buf;
      if decide (e = HA_OK) then
        h ← get; rest ← index_rest fuel' rec; mret ((cur_slot h, rec) :: rest)
      else mret []
  end.

Definition index_all (fuel : nat) (inx : Z) (buf pk : bytes) : HM (list (Z * bytes)) :=
  '(e, rec) ← index_read_map inx buf pk;
  if decide (e = HA_OK) then
    h ← get; rest ← index_rest fuel rec; mret ((cur_slot h, rec) :: rest)
  else mret [].

(** The rows of the slots [l]. *)
Definition rows_of (s : FM_SHARE_CORE) (l : list Z) : list (Z * bytes) := omap (λ i, (i,.) <$> table s !! i) l.

Lemma rows_of_cons s i rec l : table s !! i = Some rec → rows_of s (i :: l) = (i, rec) :: rows_of s l.
Proof. intros H. unfold rows_of. simpl. by rewrite H. Qed.

Lemma rows_of_rows s s' l : same_rows s s' → rows_of s' l = rows_of s l.
Proof. intros R. unfold rows_of. by rewrite (sr_table _ _ R). Qed.

Lemma index_rest_spec inx pk kc kd fuel : ∀ h buf l1 l2, handler_ok h → 0 ≤ inx < keys (core (file h)) →
  key_at (core (file h)) inx = Some kc → arr_get (keydefs (file h)) inx = Some kd →
  chain_matches (core (file h)) inx kc pk (l1 ++ cur_slot h :: l2) →
  lastinx (info (file h)) = inx → lastkey (info (file h)) = pk → Z.of_nat (length pk) = kd_length kd → (length l2 < fuel)%nat →
  wp (index_rest fuel buf) (λ rows h', handler_ok h' ∧ same_rows (core (file h)) (core (file h')) ∧
    rows = rows_of (core (file h)) l2) h.
Proof.
  induction fuel as [|fuel IH]; intros h buf l1 l2 H Hk Hkc Hkd Hms Hinx Hpk Hlen Hf; [lia|]. cbn [index_rest].
  wp_use (index_next_spec h buf inx pk kc kd l1 l2); [done..|].
  intros [e rec] h1 (H1 & R & _ & Ekd & Hcase). cbn [fst snd] in *. destruct l2 as [|i l2].
  - subst e. rewrite decide_False by done. apply wp_ret. by split_and!.
  - destruct Hcase as (-> & Hi & Hl & (H0 & [Ht _] & _) & Hlk). rewrite decide_True by done. wp_get.
    pose proof (chain_matches_rows _ _ _ _ _ _ R Hms) as Hms1.
    wp_use (IH h1 rec (l1 ++ [cur_slot h]) l2); [done|by rewrite (sc_keys _ _ (sr_config _ _ R))|by rewrite (sr_key _ _ R)
      |by rewrite Ekd| |done|done|done|cbn in Hf; lia|].
    { by rewrite Hi, <-app_assoc. }
    intros rows h2 (H2 & R2 & ->). apply wp_ret. split_and!; [done|by etrans|].
    rewrite (rows_of_rows _ _ _ R), (rows_of_cons _ i rec); [by rewrite Hi|]. by rewrite <-(sr_table _ _ R), <-Hi.
Qed.

Lemma index_all_spec h inx pk kc kd ms buf fuel : handler_ok h → 0 ≤ inx < keys (core (file h)) →
  key_at (core (file h)) inx = Some kc → arr_get (keydefs (file h)) inx = Some kd →
  chain_matches (core (file h)) inx kc pk ms → keeps_key kd = true → Z.of_nat (length pk) = kd_length kd → (length ms < fuel)%nat →
  wp (index_all fuel inx buf pk) (λ rows h', handler_ok h' ∧ same_rows (core (file h)) (core (file h')) ∧
    rows = rows_of (core (file h)) ms) h.
Proof.
  intros H Hk Hkc Hkd Hms Hkeep Hlen Hf. unfold index_all, index_read_map.
  wp_use (index_read_spec h buf inx pk kc kd ms); [done..|].
  intros [e rec] h1 (H1 & R & _ & Ekd & Hcase). cbn [fst snd] in *. destruct ms as [|i ms].
  - subst e. rewrite decide_False by done. apply wp_ret. by split_and!.
  - destruct Hcase as (-> & Hi & Hl & (H0 & [Ht _] & _) & Hlk). specialize (Hlk Hkeep). rewrite take_ge in Hlk by lia.
    rewrite decide_True by done. wp_get. pose proof (chain_matches_rows _ _ _ _ _ _ R Hms) as Hms1.
    wp_use (index_rest_spec inx pk kc kd fuel h1 rec [] ms); [done|by rewrite (sc_keys _ _ (sr_config _ _ R))|by rewrite (sr_key _ _ R)
      |by rewrite Ekd|by rewrite Hi|done|done|done|cbn in Hf; lia|].
    intros rows h2 (H2 & R2 & ->). apply wp_ret. split_and!; [done|by etrans|].
    rewrite (rows_of_rows _ _ _ R), (rows_of_cons _ i rec); [by rewrite Hi|]. by rewrite <-(sr_table _ _ R), <-Hi.
Qed.

Lemma elem_of_rows_of s l i rec : (i, rec) ∈ rows_of s l ↔ i ∈ l ∧ table s !! i = Some rec.
Proof.
  unfold rows_of. rewrite list_elem_of_omap. split.
  - intros (j & Hj & Hx). destruct (table s !! j) eqn:Ht; simplify_eq/=. done.
  - intros [Hi Ht]. exists i. by rewrite Ht.
Qed.

Lemma rows_of_NoDup s l : NoDup l → NoDup (rows_of s l).*1.
Proof.
  induction 1 as [|x l Hx Hl IH]; [constructor|]. unfold rows_of in *. simpl. destruct (table s !! x); simpl; [|done].
  constructor; [|done]. intros ([y r] & -> & Hy)%list_elem_of_fmap. apply list_elem_of_omap in Hy as (z & Hz & Heq).
  destruct (table s !! z); simplify_eq/=. done.
Qed.

(** A walk of the chain has fuel for the matches. *)
Lemma chain_matches_fuel s k kc pk ms : chain_matches s k kc pk ms → (length ms < walk_fuel s)%nat.
Proof.
  intros (h & l & _ & _ & _ & _ & Hf & -> & _). eapply Nat.le_lt_trans; [apply length_filter|done].
Qed.

(** * Writes under the row lock *)

Lemma holds_row_slot h : handler_ok h → holds_row h = true →
  row_locked h = true ∧ locked_slot h = cur_slot h ∧ 0 ≤ cur_slot h ∧ held_of h = {[cur_slot h]}.
Proof.
  intros H [Hr Hb%bool_decide_eq_true]%andb_true_iff. pose proof (hk_locked _ H Hr) as Hl. rewrite Hb in Hl.
  split_and!; [done|done|lia|]. unfold held_of. by rewrite Hr, Hb.
Qed.

Lemma ensure_locked_spec h : handler_ok h → wp ensure_locked (λ ok h', handler_ok h' ∧ lock_step h h' ∧
    if ok : bool then holds_row h' = true
    else row_locked h' = false ∧ my_errno (file h') = HA_ERR_RECORD_CHANGED ∧ ¬ (write_stmt h = true ∧ 0 ≤ cur_slot h ∧ row_locked h = false)) h.
Proof.
  intros H. unfold ensure_locked. wp_get. destruct (write_stmt h && holds_row h) eqn:Hh.
  { apply wp_ret. apply andb_true_iff in Hh as [_ Hh]. by split_and!. }
  eapply wp_bind, (wp_mono _ (λ _ h1, handler_ok h1 ∧ lock_step h h1 ∧
    (write_stmt h = true ∧ 0 ≤ cur_slot h ∧ row_locked h = false → holds_row h1 = true))).
  { destruct (write_stmt h && bool_decide (0 ≤ cur_slot h) && negb (row_locked h)) eqn:Hc.
    - apply andb_true_iff in Hc as [[_ Hs%bool_decide_eq_true]%andb_true_iff _].
      eapply wp_mono; [by apply lock_spec|]. intros _ h1 (? & ? & _ & ?). by split_and!.
    - apply wp_ret. split_and!; [done..|]. intros (Hw & Hs & Hr). by rewrite Hw, Hr, bool_decide_eq_true_2 in Hc. }
  intros _ h1 (H1 & L & Hl). wp_get. destruct (holds_row h1) eqn:Hh1; [apply wp_ret; by split_and!|].
  wp_use (unlock_spec h1 H1). intros _ h2 (H2 & Hr & L2). wp_step @eq_refl. apply wp_ret. cbn. split_and!.
  - destruct H2 as [H2 H3]. constructor; [|done]. by eapply handle_ok_same; [exact H2|..].
  - etrans; [exact L|]. etrans; [exact L2|]. by constructor.
  - done.
  - done.
  - intros Hc. by specialize (Hl Hc).
Qed.

Lemma unlock_after h d : handler_ok h → handle_ok (held_of h) d → kept (core (file h)) (core d) →
  wp unlock_current_row (λ _ h', handler_ok h' ∧ row_locked h' = false ∧ lock_step (h_file d h) h') (h_file d h).
Proof.
  intros H Hd K. apply unlock_spec. constructor; [done|]. cbn. intros Hr. pose proof (hk_locked _ H Hr). pose proof (kp_total _ _ K). lia.
Qed.

Lemma ensure_locked_held h : write_stmt h = true → holds_row h = true → ensure_locked h = Ret (true, h).
Proof. intros Hw Hh. unfold ensure_locked. rewrite (bind_Ret _ _ _ _ _ (get_run _)). by rewrite Hw, Hh. Qed.

(** The read-modify-write cycle: the update of the row that the statement has read and locked
    finds it there, and changes it unless the new values repeat a unique key. *)
Lemma handler_update_spec uint_korr sint_korr float_korr ha_keytype h old new : handler_ok h → write_stmt h = true → at_row h old →
  Z.of_nat (length new) = reclength (core (file h)) →
  wp (update_row uint_korr sint_korr float_korr ha_keytype old new) (λ e h', handler_ok h' ∧ row_locked h' = false ∧
    ((e = HA_OK ∧ table (core (file h')) = <[cur_slot h := new]> (table (core (file h))) ∧
        row_ref (core (file h')) (cur_slot h) (current_gen (info (file h))) new) ∨
     (e = HA_ERR_FOUND_DUPP_KEY ∧ table (core (file h')) = table (core (file h)) ∧
        ∃ k, 0 ≤ k < keys (core (file h)) ∧ conflict (core (file h)) k new))) h.
Proof.
  intros H Hw (H0 & Hrow & Hhold) Hlen. specialize (Hhold Hw). unfold update_row.
  wp_step (ensure_locked_held h Hw Hhold). pose proof (ho_wf _ _ (hk_file _ H)) as Hwf.
  assert (Ho : old_image (file h) (cur_slot h) (current_gen (info (file h))) old).
  { destruct Hrow as [Ht _]. split; [|right; intros r [Hr _]; congruence].
    rewrite table_lookup in Ht by apply Hwf. apply row_at_Some in Ht as (sl & Hsl & Ha & <-).
    by apply (sk_data _ _ (wf_slots _ _ Hwf _ _ Hsl)). }
  wp_file (update_locked_spec uint_korr sint_korr float_korr ha_keytype (held_of h) (file h) (cur_slot h) (current_gen (info (file h))) old new);
    [apply H|done|done|done|done|].
  intros e h1 (d & -> & Hd & K & _ & Hout). wp_use (unlock_after h d H Hd K). intros _ h2 (H2 & Hr2 & L). apply wp_ret.
  split_and!; [done|done|]. pose proof (ls_rows _ _ L) as R. cbn in R. rewrite (sr_table _ _ R), (row_ref_rows _ _ _ _ _ R).
  unfold handle_update in Hout. destruct e; try done.
  - left. by destruct Hout as (_ & ? & ? & _).
  - by destruct Hout as [_ Hn], (Hn old).
  - right. destruct Hout as (? & k & _ & ? & _ & ?). split_and!; [done..|]. by exists k.
  - destruct Hout as (_ & _ & r & [Hr _] & Hne). destruct Hrow as [Ht _]. congruence.
Qed.

(** The same for a delete, which always succeeds. *)
Lemma handler_delete_spec h buf : handler_ok h → write_stmt h = true → at_row h buf →
  wp (delete_row buf) (λ e h', e = HA_OK ∧ handler_ok h' ∧ row_locked h' = false ∧
    table (core (file h')) = delete (cur_slot h) (table (core (file h))) ∧
    gen_at (core (file h')) (cur_slot h) = Some (u32 (current_gen (info (file h)) + 1)) ∧
    scan_pos (info (file h')) = scan_pos (info (file h)) ∧ write_stmt h' = true ∧
    total_slots (core (file h)) ≤ total_slots (core (file h'))) h.
Proof.
  intros H Hw (H0 & Hrow & Hhold). specialize (Hhold Hw). unfold delete_row.
  wp_step (ensure_locked_held h Hw Hhold). pose proof (ho_wf _ _ (hk_file _ H)) as Hwf.
  wp_file (delete_locked_spec (held_of h) (file h) (cur_slot h) (current_gen (info (file h))) buf); [apply H|done|done| |].
  { destruct Hrow as [Ht _]. rewrite table_lookup in Ht by apply Hwf. apply row_at_Some in Ht as (sl & Hsl & Ha & <-).
    by apply (sk_data _ _ (wf_slots _ _ Hwf _ _ Hsl)). }
  intros e h1 (d & -> & Hd & K & _ & Hout). wp_use (unlock_after h d H Hd K). intros _ h2 (H2 & Hr2 & L). apply wp_ret.
  pose proof (ls_rows _ _ L) as R. cbn in R. rewrite (sr_table _ _ R), (sr_gen _ _ R).
  unfold handle_delete in Hout. destruct e; try done.
  - destruct Hout as (_ & Ht & Hg & _ & Hsc). rewrite (ls_info _ _ L), (ls_write _ _ L), (sr_total _ _ R). cbn.
    split_and!; try done. apply K.
  - by destruct Hout as [_ Hn], (Hn buf).
  - destruct Hout as (_ & _ & r & [Hr _] & Hne). destruct Hrow as [Ht _]. congruence.
Qed.

(** Any update: whatever the state of the handler, it keeps the invariant, leaves no row lock,
    and a failure leaves the rows as they were. *)
Lemma update_row_safe uint_korr sint_korr float_korr ha_keytype h old new : handler_ok h →
  old_image (file h) (cur_slot h) (current_gen (info (file h))) old → Z.of_nat (length new) = reclength (core (file h)) →
  wp (update_row uint_korr sint_korr float_korr ha_keytype old new) (λ e h', handler_ok h' ∧ row_locked h' = false ∧
    (table (core (file h')) = table (core (file h)) ∨
     e = HA_OK ∧ row_ref (core (file h)) (cur_slot h) (current_gen (info (file h))) old ∧
       table (core (file h')) = <[cur_slot h := new]> (table (core (file h))))) h.
Proof.
  intros H [Hol Ho] Hlen. unfold update_row. wp_use (ensure_locked_spec h H). intros [] h1 (H1 & L & Hok).
  2: { apply wp_ret. destruct Hok as (? & ? & _). split_and!; [done..|]. left. apply (sr_table _ _ (ls_rows _ _ L)). }
  destruct (holds_row_slot h1 H1 Hok) as (_ & _ & H0 & _). pose proof (ls_rows _ _ L) as R.
  assert (Hc : cur_slot h1 = cur_slot h) by (unfold cur_slot; by rewrite (ls_info _ _ L)).
  assert (Hl : reclength (core (file h1)) = reclength (core (file h))) by apply R.
  wp_file (update_locked_spec uint_korr sint_korr float_korr ha_keytype (held_of h1) (file h1) (cur_slot h1) (current_gen (info (file h1))) old new);
    [apply H1|done|done| |by rewrite Hl|].
  { rewrite (ls_info _ _ L). split; [by rewrite Hl|]. rewrite Hc, (ls_info _ _ L). destruct Ho as [?|Ho]; [by left|right].
    intros r Hr. apply Ho. by apply (row_ref_rows _ _ _ _ _ R). }
  intros e h2 (d & -> & Hd & K & _ & Hout). wp_use (unlock_after h1 d H1 Hd K). intros _ h3 (H3 & Hr3 & L3). apply wp_ret.
  pose proof (ls_rows _ _ L3) as R3. cbn in R3. split_and!; [done|done|]. rewrite (sr_table _ _ R3), <-(sr_table _ _ R), <-Hc.
  rewrite <-(row_ref_rows _ _ _ _ _ R), <-(ls_info _ _ L). unfold handle_update in Hout. destruct e; try done.
  - right. by destruct Hout as (? & ? & _).
  - left. by destruct Hout.
  - left. by destruct Hout.
  - left. destruct Hout as [E _]. by rewrite E.
Qed.

(** * A whole statement *)

(** [rnd_next]: the next row at or after the scan cursor, held if the statement writes. *)
Lemma rnd_next_spec h buf : handler_ok h →
  wp (rnd_next buf) (λ r h', handler_ok h' ∧ same_rows (core (file h)) (core (file h')) ∧ write_stmt h' = write_stmt h ∧
    let pos := scan_pos (info (file h)) in let pos' := scan_pos (info (file h')) in
    ((r.1 = HA_OK ∧ pos < pos' ≤ total_slots (core (file h)) ∧ cur_slot h' = pos' - 1 ∧ at_row h' r.2 ∧
        ∀ j, pos ≤ j < pos' - 1 → row_at (core (file h)) j = None) ∨
     (r.1 = HA_ERR_END_OF_FILE ∧ ∀ j, pos ≤ j < total_slots (core (file h)) → row_at (core (file h)) j = None))) h.
Proof.
  intros H. unfold rnd_next. wp_file (scan_spec (held_of h) (file h) buf (hk_file _ H)).
  intros [e rec] h1 (d & -> & Hd & Ec & _ & Hcase). cbn [fst snd] in *. cbv zeta.
  assert (H1 : handler_ok (h_file d h)).
  { constructor; [done|]. cbn. rewrite Ec. apply H. }
  destruct Hcase as [(-> & Hpos & Hcur & Hrow & Hskip)|(-> & _ & Hskip)].
  - rewrite decide_False by done. pose proof (ho_scan _ _ (hk_file _ H)) as Hsc.
    eapply wp_mono; [apply lock_and_reread_spec; [done|unfold cur_slot; cbn; lia|cbn; by rewrite Ec]|].
    intros r h' (-> & H' & L & Hat). pose proof (ls_rows _ _ L) as R. cbn in R. rewrite Ec in R.
    split; [done|]. split; [done|]. split; [by rewrite (ls_write _ _ L)|]. left. unfold cur_slot. rewrite (ls_info _ _ L).
    split; [done|]. split; [done|]. split; [done|]. split; [done|]. done.
  - rewrite decide_True by done. apply wp_ret. split; [done|]. split; [cbn; by rewrite Ec|]. split; [done|]. by right.
Qed.

(** How the server runs a DELETE of every row: it reads the rows of a scan and deletes each;
    the number of rows deleted. *)
Fixpoint delete_rest (fuel : nat) (buf : bytes) : HM nat :=
  match fuel with
  | O => hang
  | S fuel' =>
      '(e, rec) ← rnd_next buf;
      if decide (e = HA_OK) then
        e ← delete_row rec;
        if decide (e = HA_OK) then n ← delete_rest fuel' rec; mret (S n) else mret O
      else mret O
  end.

Definition delete_statement (fuel : nat) (buf : bytes) : HM nat :=
  _ ← external_lock F_WRLCK;
  _ ← rnd_init true;
  n ← delete_rest fuel buf;
  _ ← external_lock F_UNLCK;
  mret n.

(** All rows are at or after the scan cursor. *)
Definition rows_ahead (h : ha_fastmem) : Prop :=
  ∀ j, j < scan_pos (info (file h)) → row_at (core (file h)) j = None.

Lemma no_rows_empty s : static_ok s → (∀ j, row_at s j = None) → table s = ∅.
Proof. intros Hs Hn. apply map_eq. intros j. by rewrite table_lookup, lookup_empty. Qed.

Lemma delete_rest_spec fuel : ∀ h buf, handler_ok h → write_stmt h = true → rows_ahead h →
  (size (table (core (file h))) < fuel)%nat →
  wp (delete_rest fuel buf) (λ n h', handler_ok h' ∧ table (core (file h')) = ∅ ∧ n = size (table (core (file h)))) h.
Proof.
  induction fuel as [|fuel IH]; intros h buf H Hw Ha Hf; [lia|]. cbn [delete_rest].
  pose proof (wf_static _ _ (ho_wf _ _ (hk_file _ H))) as Hs.
  wp_use (rnd_next_spec h buf H). intros [e rec] h1 (H1 & R & Hw1 & Hcase). cbn [fst snd] in *. cbv zeta in Hcase.
  destruct Hcase as [(-> & Hpos & Hcur & Hat & Hskip)|(-> & Hskip)].
  - rewrite decide_True by done. destruct (id Hat) as (_ & [Hrow _] & _).
    wp_use (handler_delete_spec h1 rec H1); [congruence|done|]. intros _ h2 (-> & H2 & Hr2 & Ht & _ & Hsc & Hw2 & Htot).
    rewrite decide_True by done. rewrite (sr_table _ _ R) in *.
    assert (Hsz : S (size (table (core (file h2)))) = size (table (core (file h)))).
    { rewrite Ht, map_size_delete, Hrow. assert (size (table (core (file h))) ≠ 0%nat); [|cbn; lia].
      intros Hz%map_size_empty_inv. by rewrite Hz in Hrow. }
    wp_use (IH h2 rec H2 Hw2); [|lia|].
    + intros j Hj. rewrite Hsc in Hj. rewrite <-table_lookup by apply (ho_wf _ _ (hk_file _ H2)). rewrite Ht, Hcur.
      destruct (decide (j = scan_pos (info (file h1)) - 1)) as [->|]; [apply lookup_delete_eq|].
      rewrite lookup_delete_ne, table_lookup by done.
      destruct (decide (j < scan_pos (info (file h)))); [by apply Ha|apply Hskip; lia].
    + intros n h3 (H3 & Ht3 & ->). apply wp_ret. by split_and!.
  - rewrite decide_False by done. apply wp_ret.
    assert (Hn : table (core (file h)) = ∅).
    { apply no_rows_empty; [done|]. intros j. destruct (decide (j < scan_pos (info (file h)))); [by apply Ha|].
      destruct (decide (j < total_slots (core (file h)))); [apply Hskip; lia|]. apply row_at_out; [done|lia]. }
    rewrite (sr_table _ _ R), Hn. by split_and!.
Qed.

Lemma delete_statement_spec h buf fuel : handler_ok h → (size (table (core (file h))) < fuel)%nat →
  wp (delete_statement fuel buf) (λ n h', handler_ok h' ∧ row_locked h' = false ∧ write_stmt h' = false ∧
    table (core (file h')) = ∅ ∧ n = size (table (core (file h)))) h.
Proof.
  intros H Hf. unfold delete_statement, external_lock, rnd_init. wp_step @eq_refl. apply wp_bind.
  wp_use unlock_spec; [destruct H as [H1 H2]; by constructor|]. intros _ h1 (H1 & Hr1 & L1).
  eapply wp_run; [by apply on_file_run|]. pose proof (ls_rows _ _ L1) as R1. cbn in R1.
  set (h2 := h_file _ h1).
  assert (H2 : handler_ok h2).
  { destruct H1 as [H1 Hl]. constructor; [|done]. pose proof (total_bound _ (wf_static _ _ (ho_wf _ _ H1))).
    eapply (handle_ok_step _ _ (file h1)); cbn; [exact H1|apply H1|by constructor|done|unfold FM_NULL_SLOT; lia|lia]. }
  wp_use (delete_rest_spec fuel h2 buf H2); [cbn; by rewrite (ls_write _ _ L1)| | |].
  - intros j Hj. cbn in *. apply row_at_out; [apply (ho_wf _ _ (hk_file _ H1))|lia].
  - cbn. by rewrite (sr_table _ _ R1).
  - intros n h3 (H3 & Ht3 & ->). apply wp_bind. apply wp_bind. wp_mod.
    eapply wp_mono; [apply unlock_spec; destruct H3 as [H3 H4]; by constructor|].
    intros _ h4 (H4 & Hr4 & L4). apply wp_ret, wp_ret. pose proof (ls_rows _ _ L4) as R4. cbn in R4.
    split_and!; [done|done|by rewrite (ls_write _ _ L4)|by rewrite (sr_table _ _ R4)|]. cbn. by rewrite (sr_table _ _ R1).
Qed.

(** * Properties *)

(** The read-modify-write cycle of UPDATE.  In a write statement, on a row that the handler
    has read (and so locked), [update_row] never reports the row changed or deleted: it stores
    the new image under the same position, or refuses a repeated unique key and stores nothing;
    either way the row lock is released. *)
Theorem update_row_rmw uint_korr sint_korr float_korr ha_keytype h old new :
  handler_ok h → write_stmt h = true → at_row h old → Z.of_nat (length new) = reclength (core (file h)) →
  wp (update_row uint_korr sint_korr float_korr ha_keytype old new) (λ e h', handler_ok h' ∧ row_locked h' = false ∧
    (e = HA_OK ∧ table (core (file h')) = <[cur_slot h := new]> (table (core (file h))) ∨
     e = HA_ERR_FOUND_DUPP_KEY ∧ table (core (file h')) = table (core (file h)) ∧
       ∃ k, 0 ≤ k < keys (core (file h)) ∧ conflict (core (file h)) k new)) h.
Proof.
  intros. eapply wp_mono; [by apply handler_update_spec|]. intros e h' (? & ? & [(? & ? & _)|(? & ? & ?)]); split_and!; try done;
    [by left|by right].
Qed.

(** The read-modify-write cycle of DELETE.  In a write statement, on a row that the handler
    has read (and so locked), [delete_row] succeeds: the row is gone, its slot's generation has
    moved, and the row lock is released. *)
Theorem delete_row_rmw h buf : handler_ok h → write_stmt h = true → at_row h buf →
  wp (delete_row buf) (λ e h', e = HA_OK ∧ handler_ok h' ∧ row_locked h' = false ∧
    table (core (file h')) = delete (cur_slot h) (table (core (file h))) ∧
    gen_at (core (file h')) (cur_slot h) = Some (u32 (current_gen (info (file h)) + 1))) h.
Proof. intros. eapply wp_mono; [by apply handler_delete_spec|]. intros e h' (? & ? & ? & ? & ? & _). done. Qed.

(** C28: DELETE FROM t.  The statement that takes the write lock, scans, deletes every row it
    reads and unlocks leaves an empty table, having deleted exactly the rows that were there,
    with no row lock held. *)
Theorem delete_statement_empties h buf : handler_ok h →
  wp (delete_statement (S (size (table (core (file h))))) buf) (λ n h', handler_ok h' ∧ row_locked h' = false ∧
    write_stmt h' = false ∧ table (core (file h')) = ∅ ∧ n = size (table (core (file h)))) h.
Proof. intros H. apply delete_statement_spec; [done|lia]. Qed.

(** C29: Index access.  [index_read_map] followed by [index_next] until it stops returns, for a
    key that is not unique, every row whose key equals the packed key, each exactly once and
    with its current image, whether the statement writes (and locks row by row) or not. *)
Theorem index_access_complete h inx pk buf kc kd : handler_ok h → 0 ≤ inx < keys (core (file h)) →
  key_at (core (file h)) inx = Some kc → arr_get (keydefs (file h)) inx = Some kd →
  keeps_key kd = true → Z.of_nat (length pk) = kd_length kd →
  wp (index_all (walk_fuel (core (file h))) inx buf pk) (λ rows h', handler_ok h' ∧ same_rows (core (file h)) (core (file h')) ∧
    NoDup rows.*1 ∧ ∀ i rec, (i, rec) ∈ rows ↔ table (core (file h)) !! i = Some rec ∧ matches_key (ops kc) rec pk) h.
Proof.
  intros H Hk Hkc Hkd Hkeep Hlen. pose proof (ho_wf _ _ (hk_file _ H)) as Hwf.
  destruct (chain_matches_ex _ _ inx kc pk Hwf Hk Hkc) as [ms Hms].
  destruct (chain_matches_spec _ _ _ _ _ (wf_static _ _ Hwf) Hms) as [Hnd Hin].
  eapply wp_mono; [apply (index_all_spec h inx pk kc kd ms); try done; by apply (chain_matches_fuel _ _ _ _ _ Hms)|].
  intros rows h' (H' & R & ->). split_and!; [done|done|by apply rows_of_NoDup|]. intros i rec. rewrite elem_of_rows_of, Hin.
  split; [intros [(r & ? & ?) Ht]; simplify_eq; done|]. intros [Ht Hm]. split; [by exists rec|done].
Qed.

(** Updates leave no lock and do no harm.  From any state of an open handler - in a write
    statement or not, with the current row locked, another row locked, or none, on a row or not -
    [update_row] returns with the invariant kept and no row lock held, and changes the table
    only by storing the new image over the caller's old image at the current position. *)
Theorem update_row_total uint_korr sint_korr float_korr ha_keytype h old new : handler_ok h →
  old_image (file h) (cur_slot h) (current_gen (info (file h))) old → Z.of_nat (length new) = reclength (core (file h)) →
  wp (update_row uint_korr sint_korr float_korr ha_keytype old new) (λ e h', handler_ok h' ∧ row_locked h' = false ∧
    (table (core (file h')) = table (core (file h)) ∨
     e = HA_OK ∧ row_ref (core (file h)) (cur_slot h) (current_gen (info (file h))) old ∧
       table (core (file h')) = <[cur_slot h := new]> (table (core (file h))))) h.
Proof. apply update_row_safe. Qed.
