(* ===== verification/HandlerInfo.v ===== *)
(** What the handler tells the optimizer and the server about a table (src/ha_fastmem.cc
    [info], [extra], [records_in_range], [update_create_info], [check_if_incompatible_data]
    and the index switches; [cmp_ref] of src/ha_fastmem.h). *)

From S2P Require Import Prelude CoreState CoreOps RowOps Shape Inv Chains Reads Alloc Freelist Steps Insert Delete Lockset Update Clear Lifecycle Spec AutoInc Hash Create Data DataSpec Handler HandlerSpec.

(** * Data *)

(** The fields of the server's [ha_statistics] that the engine fills. *)
Record ha_statistics := mkStats {
  st_records : Z;
  st_deleted : Z;
  mean_rec_length : Z;
  data_file_length : Z;
  index_file_length : Z;
  max_data_file_length : Z;
  delete_length : Z;
  st_create_time : Z;
  auto_increment_value : Z
}.

(** A handler with the members it inherits and the estimate arrays of the keys of its table
    ([rec_per_key], [None] for a null pointer). *)
Record handler_obj := mkObj {
  ha : ha_fastmem;
  stats : ha_statistics;
  h_errkey : Z;
  rec_per_key : list (option (list Z))
}.

Abbreviation OM := (M handler_obj).

Definition o_ha (h : ha_fastmem) (o : handler_obj) : handler_obj := mkObj h (stats o) (h_errkey o) (rec_per_key o).
Definition o_stats (st : ha_statistics) (e : Z) (o : handler_obj) : handler_obj := mkObj (ha o) st e (rec_per_key o).
Definition o_rec_per_key (r : list (option (list Z))) (o : handler_obj) : handler_obj := mkObj (ha o) (stats o) (h_errkey o) r.

Definition on_ha {A} (m : HM A) : OM A := λ o,
  match m (ha o) with
  | Ret (a, h) => Ret (a, o_ha h o)
  | Ub => Ub
  | Hang => Hang
  end.

(** [key->rec_per_key[i]= v] *)
Definition store_estimate (key : Z) (i v : Z) : OM () :=
  o ← get;
  arr ← unwrap (arr_get (rec_per_key o) key ≫= id);
  _ ← unwrap (arr_get arr i);
  modify (o_rec_per_key (arr_upd (fmap (arr_upd (λ _, v) i)) key (rec_per_key o))).

(** Unsigned division; by zero it is undefined. *)
Definition udiv {S} (a b : Z) : M S Z := if decide (b = 0) then ub else mret (a / b).

Section server.
Context (create_time : Z) (table : TABLE).

(** [n] keys from key [i] on. *)
Fixpoint info_keys (n : nat) (i : Z) : OM () :=
  match n with
  | O => mret tt
  | S n' =>
      key ← unwrap (arr_get (key_info table) i);
      o ← get;
      ptr ← unwrap (arr_get (rec_per_key o) i);
      match ptr with
      | None => mret tt
      | Some _ =>
          let last := Z.of_nat (length (key_part key)) - 1 in
          if k_nosame key then store_estimate i last 1
          else
            per_bucket ← (if decide (1 < st_records (stats o)) then
                            kc ← on_ha (on_file (on_core (deref_key i)));
                            udiv (st_records (stats o)) (nbuckets kc)
                          else mret 2);
            store_estimate i last (if decide (per_bucket < 2) then 2 else per_bucket)
      end;;
      info_keys n' (i + 1)
  end.

(** [status_auto] is [flag & HA_STATUS_AUTO]. *)
Definition ha_info (status_auto : bool) : OM Z :=
  fm ← on_ha (on_file (fm_info create_time));
  modify (λ o, o_stats
    {| st_records := x_records fm; st_deleted := x_deleted fm; mean_rec_length := x_reclength fm;
       data_file_length := x_data_length fm; index_file_length := x_index_length fm;
       max_data_file_length := u64 (x_max_records fm * x_reclength fm);
       delete_length := u64 (x_deleted fm * x_reclength fm); st_create_time := x_create_time fm;
       auto_increment_value := if status_auto then x_auto_increment fm else auto_increment_value (stats o) |}
    (x_errkey fm) o);;
  info_keys (length (key_info table)) 0;;
  mret 0.

(** A bound of a range: the length of its key and whether its flag is [HA_READ_KEY_EXACT]
    (of a lower bound) or [HA_READ_AFTER_KEY] (of an upper one). *)
Record key_range := mkRange { kr_length : Z; kr_exact : bool }.

(** [None] is [HA_POS_ERROR]: no estimate.  [key_length] is the packed length of the key. *)
Definition records_in_range (key_length : Z → Z) (inx : Z) (min_key max_key : option key_range) : OM (option Z) :=
  key ← unwrap (arr_get (key_info table) inx);
  match min_key, max_key with
  | Some lo, Some hi =>
      if decide (kr_length lo ≠ kr_length hi) then mret None
      else if decide (kr_length lo ≠ key_length inx) then mret None
      else if negb (kr_exact lo) then mret None
      else if negb (kr_exact hi) then mret None
      else
        o ← get;
        if decide (st_records (stats o) ≤ 1) then mret (Some (st_records (stats o)))
        else
          arr ← unwrap (arr_get (rec_per_key o) inx ≫= id);
          v ← unwrap (arr_get arr (Z.of_nat (length (key_part key)) - 1));
          mret (Some v)
  | _, _ => mret None
  end.

(** [HA_CREATE_INFO]: whether the statement gives an AUTO_INCREMENT value, and the value. *)
Record HA_CREATE_INFO := mkHCI { used_auto : bool; hc_auto_value : Z }.

(** The table's handler is this one. *)
Definition update_create_info (ci : HA_CREATE_INFO) : OM HA_CREATE_INFO :=
  _ ← ha_info true;
  o ← get;
  mret (if used_auto ci then ci else mkHCI (used_auto ci) (auto_increment_value (stats o))).

End server.

Definition ha_extra (operation : ha_extra_function) : OM ha_err := on_ha (on_file (fm_extra operation)).

Inductive compatible_data := COMPATIBLE_DATA_YES | COMPATIBLE_DATA_NO.

(** [is_equal_no], [is_equal_pack_length]: the server's constants of [table_changes]. *)
Definition check_if_incompatible_data (is_equal_no is_equal_pack_length : Z) (ci : HA_CREATE_INFO) (table_changes : Z) : compatible_data :=
  if (used_auto ci && negb (bool_decide (hc_auto_value ci = 0))) || bool_decide (table_changes = is_equal_no)
     || negb (bool_decide (Z.land table_changes is_equal_pack_length = 0))
  then COMPATIBLE_DATA_NO else COMPATIBLE_DATA_YES.

Definition disable_indexes : OM ha_err := mret HA_ERR_WRONG_COMMAND.
Definition enable_indexes : OM ha_err := mret HA_ERR_WRONG_COMMAND.
Definition indexes_are_disabled : OM Z := mret 0.

(** The C library's [memcmp] over [n] bytes; only its sign is used. *)
Fixpoint memcmp (n : nat) (a b : bytes) : option Z :=
  match n with
  | O => Some 0
  | S n' =>
      match a, b with
      | x :: a', y :: b' => if decide (x = y) then memcmp n' a' b' else Some (if decide (x < y) then -1 else 1)
      | _, _ => None
      end
  end.

Definition FM_REF_LENGTH : nat := 8.
Definition cmp_ref (ref1 ref2 : bytes) : option Z := memcmp FM_REF_LENGTH ref1 ref2.

(** * Lemmas *)

Lemma on_ha_run {A} (m : HM A) o a h : m (ha o) = Ret (a, h) → on_ha m o = Ret (a, o_ha h o).
Proof. unfold on_ha. by intros ->. Qed.

(** Reading a key of the share changes nothing. *)
Lemma obj_deref_run o i kc : key_at (core (file (ha o))) i = Some kc → on_ha (on_file (on_core (deref_key i))) o = Ret (kc, o).
Proof.
  intros H. erewrite on_ha_run by (apply on_file_run, on_core_run, deref_key_run, H).
  by destruct o as [[[] ? ? ?] ? ? ?].
Qed.

(** The server's arrays fit its keys: one per key, each with room for the parts of the key. *)
Definition estimates_fit (t : TABLE) (r : list (option (list Z))) : Prop :=
  length r = length (key_info t) ∧
  ∀ i key arr, arr_get (key_info t) i = Some key → arr_get r i = Some (Some arr) →
    key_part key ≠ [] ∧ (length (key_part key) ≤ length arr)%nat.

(** The estimate of a key with [nb] buckets in a table of [n] rows. *)
Definition estimate (nosame : bool) (n nb : Z) : Z :=
  if nosame then 1 else if decide (1 < n) then Z.max 2 (n / nb) else 2.

(** The array of key [i] after [info], from the array [p] before. *)
Definition estimated (t : TABLE) (c : FM_SHARE_CORE) (n i : Z) (p : option (list Z)) : option (list Z) :=
  match arr_get (key_info t) i, key_at c i with
  | Some key, Some kc =>
      arr_upd (λ _, estimate (k_nosame key) n (nbuckets kc)) (Z.of_nat (length (key_part key)) - 1) <$> p
  | _, _ => p
  end.

Lemma store_estimate_run o i j v arr x : arr_get (rec_per_key o) i = Some (Some arr) → arr_get arr j = Some x →
  store_estimate i j v o = Ret (tt, o_rec_per_key (arr_upd (fmap (arr_upd (λ _, v) j)) i (rec_per_key o)) o).
Proof.
  intros H1 H2. unfold store_estimate, get, unwrap, modify, mbind, M_bind. rewrite H1. cbn. by rewrite H2.
Qed.

Lemma estimates_fit_upd t r i f : (∀ arr, length (f arr) = length arr) → estimates_fit t r → estimates_fit t (arr_upd (fmap f) i r).
Proof.
  intros Hf [Hl Hr]. split; [by rewrite length_arr_upd|].
  intros j key arr Hj. destruct (decide (j = i)) as [->|Hne]; [|rewrite arr_get_upd_ne by done; by apply Hr].
  rewrite arr_get_upd_eq. intros (p & Ha & Hp)%fmap_Some. destruct p as [arr'|]; [|done]. injection Hp as ->.
  rewrite Hf. by eapply Hr.
Qed.

Section keys.
Context (t : TABLE) (c : FM_SHARE_CORE) (Hc : static_ok c) (Hk : keys c = t_keys t).

Lemma info_key_at i : 0 ≤ i < t_keys t → ∃ key kc, arr_get (key_info t) i = Some key ∧ key_at c i = Some kc ∧ 0 < nbuckets kc < 2 ^ 32.
Proof.
  intros Hi. destruct (arr_get_Some_range (key_info t) i) as [key Hkey]; [by unfold t_keys in Hi|].
  destruct (so_key _ Hc i) as (o & u & n & Hcfg & Hn & _); [by rewrite Hk|].
  unfold key_cfg in Hcfg. apply fmap_Some in Hcfg as (kc & Hkc & [= _ _ Hb]). exists key, kc.
  split; [done|]. split; [done|]. rewrite <-Hb. split; [apply Z.pow_pos_nonneg; lia|apply Z.pow_lt_mono_r; lia].
Qed.

(** What the loop over the keys has done from key [i] on. *)
Record keys_done (o : handler_obj) (lo hi : Z) (o' : handler_obj) : Prop := {
  kd_ha : ha o' = ha o;
  kd_stats : stats o' = stats o;
  kd_errkey : h_errkey o' = h_errkey o;
  kd_fit : estimates_fit t (rec_per_key o');
  kd_est j p : arr_get (rec_per_key o) j = Some p →
    arr_get (rec_per_key o') j = Some (if decide (lo ≤ j < hi) then estimated t c (st_records (stats o)) j p else p)
}.

Lemma store_done o i key kc arr : arr_get (key_info t) i = Some key → key_at c i = Some kc → estimates_fit t (rec_per_key o) →
  arr_get (rec_per_key o) i = Some (Some arr) →
  wp (store_estimate i (Z.of_nat (length (key_part key)) - 1) (estimate (k_nosame key) (st_records (stats o)) (nbuckets kc)))
    (λ _ o', keys_done o i (i + 1) o') o.
Proof.
  intros Hkey Hkc Hfit Harr. destruct (proj2 Hfit _ _ _ Hkey Harr) as [Hne Hlen].
  destruct (arr_get_Some_range arr (Z.of_nat (length (key_part key)) - 1)) as [x Hx].
  { destruct (key_part key); [done|]. cbn in *. lia. }
  eapply wp_run; [by eapply store_estimate_run|]. constructor; try done.
  - apply estimates_fit_upd; [|done]. intros. apply length_arr_upd.
  - intros j p Hj. cbn. destruct (decide (j = i)) as [->|Hji].
    + rewrite decide_True by lia. rewrite arr_get_upd_eq, Hj. unfold estimated. by rewrite Hkey, Hkc.
    + rewrite decide_False by lia. by rewrite arr_get_upd_ne.
Qed.

Lemma keys_done_none o i : estimates_fit t (rec_per_key o) → arr_get (rec_per_key o) i = Some None → keys_done o i (i + 1) o.
Proof.
  intros Hfit Hn. constructor; try done. intros j p Hj. case_decide; [|done]. assert (j = i) as -> by lia.
  rewrite Hj in Hn. simplify_eq. rewrite Hj. unfold estimated. by repeat case_match.
Qed.

Lemma keys_done_trans o1 o2 o3 a b e : a ≤ b ≤ e → keys_done o1 a b o2 → keys_done o2 b e o3 → keys_done o1 a e o3.
Proof.
  intros Hab D1 D2. constructor; [by rewrite (kd_ha _ _ _ _ D2), (kd_ha _ _ _ _ D1)|by rewrite (kd_stats _ _ _ _ D2), (kd_stats _ _ _ _ D1)
    |by rewrite (kd_errkey _ _ _ _ D2), (kd_errkey _ _ _ _ D1)|apply D2|].
  intros j p Hj. rewrite (kd_est _ _ _ _ D2 _ _ (kd_est _ _ _ _ D1 _ _ Hj)), (kd_stats _ _ _ _ D1).
  repeat case_decide; try done; lia.
Qed.

Lemma info_keys_spec n : ∀ i o, 0 ≤ i → i + Z.of_nat n = t_keys t → core (file (ha o)) = c → 0 ≤ st_records (stats o) →
  estimates_fit t (rec_per_key o) → wp (info_keys t n i) (λ _ o', keys_done o i (i + Z.of_nat n) o') o.
Proof.
  induction n as [|n IH]; intros i o Hi Hn Hco Hrec Hfit.
  { apply wp_ret. constructor; try done. intros j p Hj. rewrite decide_False by lia. done. }
  destruct (info_key_at i) as (key & kc & Hkey & Hkc & Hnb); [lia|].
  destruct (arr_get_Some_range (rec_per_key o) i) as [ptr Hptr]; [rewrite (proj1 Hfit); unfold t_keys in Hn; lia|].
  cbn [info_keys]. wp_step (unwrap_run _ _ o Hkey). wp_get. wp_step (unwrap_run _ _ o Hptr).
  apply wp_bind. apply (wp_mono _ (λ _ o', keys_done o i (i + 1) o')).
  - destruct ptr as [arr|]; [|apply wp_ret; by apply keys_done_none].
    pose proof (store_done o i key kc arr Hkey Hkc Hfit Hptr) as Hst. unfold estimate in Hst.
    destruct (k_nosame key); [exact Hst|].
    case_decide as H1; [|apply wp_bind, wp_ret; exact Hst].
    apply wp_bind. wp_step obj_deref_run; [by rewrite Hco|]. unfold udiv. rewrite decide_False by lia. apply wp_ret.
    replace (if decide (st_records (stats o) / nbuckets kc < 2) then 2 else st_records (stats o) / nbuckets kc)
      with (Z.max 2 (st_records (stats o) / nbuckets kc)) by (case_decide; lia). exact Hst.
  - intros _ o1 D1. eapply wp_mono; [apply IH|]; [lia|lia|by rewrite (kd_ha _ _ _ _ D1)|by rewrite (kd_stats _ _ _ _ D1)|apply D1|].
    intros [] o2 D2. cbv beta in D2. replace (i + Z.of_nat (S n)) with (i + 1 + Z.of_nat n) by lia. eapply keys_done_trans; [|done|done]. lia.
Qed.
End keys.

(** The bytes of the bucket arrays of the keys [k], ..., [k + n - 1]. *)
Fixpoint bucket_bytes (c : FM_SHARE_CORE) (n : nat) (k : Z) : Z :=
  match n with
  | O => 0
  | S n' => match key_at c k with Some kc => nbuckets kc * (sizeof_fm_i32 + sizeof_FM_SPIN) | None => 0 end + bucket_bytes c n' (k + 1)
  end.

Lemma index_bytes_spec c n : ∀ k, static_ok c → 0 ≤ k → k + Z.of_nat n ≤ keys c →
  index_bytes n k c = Ret (bucket_bytes c n k, c) ∧ 0 ≤ bucket_bytes c n k ≤ Z.of_nat n * 2 ^ 36.
Proof.
  induction n as [|n IH]; intros k Hc Hk Hn; [by split|].
  destruct (so_key _ Hc k) as (o & u & m & Hcfg & Hm & _); [lia|].
  unfold key_cfg in Hcfg. apply fmap_Some in Hcfg as (kc & Hkc & [= _ _ Hb]).
  assert (0 < nbuckets kc < 2 ^ 32). { rewrite <-Hb. split; [apply Z.pow_pos_nonneg; lia|apply Z.pow_lt_mono_r; lia]. }
  destruct (IH (k + 1) Hc ltac:(lia) ltac:(lia)) as [Hrun Hbd]. pose proof (so_keys _ Hc). cbn [index_bytes bucket_bytes].
  rewrite (bind_Ret _ _ _ _ _ (deref_key_run _ _ _ Hkc)), (bind_Ret _ _ _ _ _ Hrun), Hkc.
  unfold sizeof_fm_i32, sizeof_FM_SPIN. split; [|lia]. unfold mret, M_ret. by rewrite u64_small by lia.
Qed.

Lemma fm_info_run ct held d : handle_ok held d → 0 ≤ keys (core d) →
  fm_info ct d = Ret ({| x_records := Z.of_nat (size (table (core d))); x_deleted := 0; x_max_records := max_records (core d);
    x_data_length := u64 (total_slots (core d) * slot_size (core d) + total_slots (core d) * keys (core d) * 4);
    x_index_length := bucket_bytes (core d) (Z.to_nat (keys (core d))) 0; x_reclength := reclength (core d);
    x_errkey := errkey (info d); x_auto_increment := u64 (auto_inc (core d) + 1); x_create_time := ct |},
    d_info (in_errkey 0 (info d)) d).
Proof.
  intros H Hk. pose proof (ho_wf _ _ H) as Hwf. pose proof (wf_static _ _ Hwf) as Hs.
  destruct (index_bytes_spec (core d) (Z.to_nat (keys (core d))) 0 Hs ltac:(lia) ltac:(lia)) as [Hib _].
  unfold fm_info. rewrite (bind_Ret _ _ _ _ _ (get_run _)). cbv zeta. rewrite (bind_Ret _ _ _ _ _ (on_core_run _ _ _ _ Hib)).
  unfold upd_info. rewrite (bind_Ret _ _ _ _ _ (modify_run _ _)), d_core_id. rewrite slot_count_total by done.
  rewrite (wf_records _ _ Hwf). pose proof (table_size_slots _ Hs) as Hsz. pose proof (so_cnt _ Hs). pose proof (so_cap _ Hs).
  unfold total_slots in Hsz. rewrite u64_small by lia.
  unfold mret, M_ret. do 3 f_equal. unfold u64.
  rewrite (Z.mul_mod_idemp_l (total_slots (core d) * keys (core d)) 4), <-Z.add_mod by done. done.
Qed.

(** * Estimates of unique keys *)

(** Under a unique key at most one row has the key of a record without NULL. *)
Lemma unique_key_rows held c k o nb rec : wf held c → 0 ≤ k < keys c → key_cfg c k = Some (o, true, nb) → ¬ null_key o rec →
  (size (filter (λ p : Z * bytes, same_key o p.2 rec) (table c)) ≤ 1)%nat.
Proof.
  intros H Hk Hcfg Hnull.
  destruct (so_key _ (wf_static _ _ H) k Hk) as (o' & u & n & Hcfg' & _ & L & _). rewrite Hcfg in Hcfg'. simplify_eq.
  set (m := filter _ _). assert (Hone : ∀ i j a b, m !! i = Some a → m !! j = Some b → i = j).
  { intros i j a b [Ha Sa]%map_lookup_filter_Some [Hb Sb]%map_lookup_filter_Some. destruct (decide (i = j)) as [|Hij]; [done|].
    cbn in *. exfalso. eapply (wf_unique _ _ H k); [done|done|exact Hij|done|done| |].
    - intros Hn. apply Hnull. exact (laws_null _ _ Sa Hn).
    - pose proof (laws_equiv (o := o')). by etrans. }
  destruct (decide (m = ∅)) as [->|Hne]; [by rewrite map_size_empty; lia|]. apply map_choose in Hne as (i & a & Hi).
  replace m with ({[ i := a ]} : gmap Z bytes); [by rewrite map_size_singleton|].
  apply map_eq. intros j. destruct (decide (j = i)) as [->|Hj]; [by rewrite lookup_singleton_eq|].
  rewrite lookup_singleton_ne by done. destruct (m !! j) as [b|] eqn:Hb; [|done]. exfalso. apply Hj. by eapply Hone.
Qed.

(** [told t c o]: the handler has the statistics of the share [c] as it is now. *)
Definition told (t : TABLE) (c : FM_SHARE_CORE) (o : handler_obj) : Prop :=
  st_records (stats o) = Z.of_nat (size (table c)) ∧
  ∀ k key arr, arr_get (key_info t) k = Some key → arr_get (rec_per_key o) k = Some (Some arr) →
    ∃ kc, key_at c k = Some kc ∧
      arr_get arr (Z.of_nat (length (key_part key)) - 1) = Some (estimate (k_nosame key) (Z.of_nat (size (table c))) (nbuckets kc)).

Lemma told_estimated t c o o' : static_ok c → keys c = t_keys t → estimates_fit t (rec_per_key o) →
  st_records (stats o') = Z.of_nat (size (table c)) → length (rec_per_key o') = length (rec_per_key o) →
  (∀ j p, arr_get (rec_per_key o) j = Some p → arr_get (rec_per_key o') j = Some (estimated t c (Z.of_nat (size (table c))) j p)) →
  told t c o'.
Proof.
  intros Hs Hk Hfit Hst Hlen Hest. split; [done|]. intros k key arr' Hkey Harr'.
  destruct (arr_get_Some_range (rec_per_key o) k) as [p Hp]; [rewrite <-Hlen; by eapply arr_get_range|].
  destruct (info_key_at t c Hs Hk k) as (key' & kc & Hkey' & Hkc & _); [by apply arr_get_range in Hkey|]. exists kc. split; [done|].
  rewrite (Hest _ _ Hp) in Harr'. unfold estimated in Harr'. rewrite Hkey, Hkc in Harr'. destruct p as [arr|]; [|done].
  injection Harr' as <-. destruct (proj2 Hfit _ _ _ Hkey Hp) as [Hne Hl].
  destruct (arr_get_Some_range arr (Z.of_nat (length (key_part key)) - 1)) as [x Hx]; [destruct (key_part key); [done|cbn in *; lia]|].
  by rewrite arr_get_upd_eq, Hx.
Qed.

(** The estimate of an exact range over a whole unique key bounds the rows in it. *)
Lemma records_in_range_spec t held c o key_length k key arr op nb rec : wf held c → keys c = t_keys t → told t c o →
  arr_get (key_info t) k = Some key → k_nosame key = true → key_cfg c k = Some (op, true, nb) →
  arr_get (rec_per_key o) k = Some (Some arr) → ¬ null_key op rec →
  wp (records_in_range t key_length k (Some (mkRange (key_length k) true)) (Some (mkRange (key_length k) true)))
    (λ r o', o' = o ∧ ∃ v, r = Some v ∧ Z.of_nat (size (filter (λ p : Z * bytes, same_key op p.2 rec) (table c))) ≤ v) o.
Proof.
  intros Hwf Hk [Hst Hest] Hkey Hnosame Hcfg Harr Hnull. pose proof (arr_get_range _ _ _ Hkey) as Hr.
  pose proof (unique_key_rows held c k op nb rec Hwf ltac:(by rewrite Hk) Hcfg Hnull) as Hone.
  unfold records_in_range. wp_step (unwrap_run _ _ o Hkey). cbn. rewrite 2 decide_False by (intros ?; done). wp_get.
  rewrite Hst. case_decide as Hle.
  - apply wp_ret. split; [done|]. eexists. split; [done|]. apply inj_le, map_size_filter.
  - destruct (Hest _ _ _ Hkey Harr) as (kc & _ & Hv). rewrite Hnosame in Hv. cbn in Hv.
    wp_step (unwrap_run (arr_get (rec_per_key o) k ≫= id) arr o); [by rewrite Harr|]. wp_step (unwrap_run _ _ o Hv).
    apply wp_ret. split; [done|]. exists 1. split; [done|]. lia.
Qed.

(** * Properties *)

(** C33: Statistics.  [info] returns whatever the estimates and flags are (no division by an
    empty bucket count, no write outside the arrays of the server): it reports exactly the
    number of rows and the bytes of the buckets, the sizes do not wrap for 32-bit slot and
    record lengths, the last duplicate key is handed over and reset, every [rec_per_key] gets 1
    under a unique key and the rows per bucket, at least 2, otherwise; the share does not
    change and the invariant is kept.  For an exact range over a unique key and a
    value without NULL parts [records_in_range] then answers with a bound on the rows that have the
    key; of a nullable unique key several rows may have NULL, and the answer is 1 for them too. *)
Theorem info_exact ct t auto o : handler_ok (ha o) → keys (core (file (ha o))) = t_keys t → estimates_fit t (rec_per_key o) →
  wp (ha_info ct t auto) (λ r o', let c := core (file (ha o)) in
    r = 0 ∧ handler_ok (ha o') ∧ core (file (ha o')) = c ∧ estimates_fit t (rec_per_key o') ∧
    st_records (stats o') = Z.of_nat (size (table c)) ∧ h_errkey o' = errkey (info (file (ha o))) ∧ errkey (info (file (ha o'))) = 0 ∧
    index_file_length (stats o') = bucket_bytes c (Z.to_nat (keys c)) 0 ∧
    (0 ≤ slot_size c < 2 ^ 32 → data_file_length (stats o') = total_slots c * (slot_size c + 4 * keys c)) ∧
    (reclength c < 2 ^ 32 → max_data_file_length (stats o') = max_records c * reclength c) ∧
    auto_increment_value (stats o') = (if auto then u64 (auto_inc c + 1) else auto_increment_value (stats o)) ∧
    (∀ j p, arr_get (rec_per_key o) j = Some p → arr_get (rec_per_key o') j = Some (estimated t c (Z.of_nat (size (table c))) j p)) ∧
    ∀ key_length k key arr op nb rec, arr_get (key_info t) k = Some key → k_nosame key = true → key_cfg c k = Some (op, true, nb) →
      arr_get (rec_per_key o) k = Some (Some arr) → ¬ null_key op rec →
      wp (records_in_range t key_length k (Some (mkRange (key_length k) true)) (Some (mkRange (key_length k) true)))
        (λ v o2, o2 = o' ∧ ∃ n, v = Some n ∧ Z.of_nat (size (filter (λ p : Z * bytes, same_key op p.2 rec) (table c))) ≤ n) o') o.
Proof.
  intros H Hk Hfit. set (c := core (file (ha o))) in *. pose proof (ho_wf _ _ (hk_file _ H)) as Hwf. fold c in Hwf.
  pose proof (wf_static _ _ Hwf) as Hs. pose proof (so_keys _ Hs) as Hkeys. pose proof (so_cnt _ Hs). pose proof (so_cap _ Hs).
  pose proof (so_cap_max _ Hs). pose proof (so_max _ Hs). pose proof (so_reclength _ Hs). unfold ha_info.
  wp_step @on_ha_run; [eapply on_file_run, fm_info_run; [apply H|fold c; lia]|]. fold c. wp_mod.
  wp_use (info_keys_spec t c Hs Hk); [lia|by unfold t_keys|done|cbn; lia|done|].
  intros _ o' D. apply wp_ret. pose proof (kd_ha _ _ _ _ _ _ D) as Eh. pose proof (kd_stats _ _ _ _ _ _ D) as Es. cbn in Eh, Es.
  assert (Hest : ∀ j p, arr_get (rec_per_key o) j = Some p →
    arr_get (rec_per_key o') j = Some (estimated t c (Z.of_nat (size (table c))) j p)).
  { intros j p Hj. pose proof (kd_est _ _ _ _ _ _ D j p Hj) as E. cbn in E. rewrite E. apply arr_get_range in Hj.
    rewrite (proj1 Hfit) in Hj. by rewrite decide_True. }
  rewrite Eh, Es. split_and!; try done; cbn.
  - constructor; [|apply H]. cbn. eapply handle_ok_core; [apply (hk_file _ H)|..]; done.
  - apply D.
  - apply D.
  - intros. unfold total_slots. rewrite u64_small; [lia|]. split; [nia|]. nia.
  - intros. apply u64_small. nia.
  - intros key_length k key arr op nb rec Hkey Hn Hcfg Harr Hnull. pose proof Hcfg as (kc & Hkc & _)%fmap_Some.
    eapply (records_in_range_spec t (held_of (ha o)) c); try done.
    + apply (told_estimated t c o); [done|done|done|by rewrite Es| |done]. rewrite (proj1 (kd_fit _ _ _ _ _ _ D)). by rewrite (proj1 Hfit).
    + rewrite (Hest _ _ Harr). unfold estimated. rewrite Hkey, Hkc. reflexivity.
Qed.

(** Comparing references compares positions: [cmp_ref] is 0 exactly for the same slot and
    generation. *)
Lemma memcmp_eq a : ∀ b, length b = length a → memcmp (length a) a b = Some 0 ↔ a = b.
Proof.
  induction a as [|x a IH]; intros [|y b]; cbn; try done. intros [= Hl]. case_decide as Hxy.
  - subst y. rewrite (IH b Hl). split; [by intros ->|by intros [= ->]].
  - split; [by case_decide|]. intros [= -> _]. done.
Qed.

Lemma cmp_ref_positions slot g slot' g' : - 2 ^ 31 ≤ slot < 2 ^ 31 → 0 ≤ g < 2 ^ 32 → - 2 ^ 31 ≤ slot' < 2 ^ 31 → 0 ≤ g' < 2 ^ 32 →
  cmp_ref (encode_ref slot g) (encode_ref slot' g') = Some 0 ↔ (slot, g) = (slot', g').
Proof.
  intros H1 H2 H3 H4. unfold cmp_ref, FM_REF_LENGTH. rewrite (memcmp_eq (encode_ref slot g)) by done. split; [|by intros [= -> ->]].
  intros E. by rewrite <-(decode_encode_ref slot g), <-(decode_encode_ref slot' g'), E.
Qed.
