(* ===== verification/Sessions.v ===== *)
(** Several handlers on one table (src/ha_fastmem.cc): each session has its own cursor and row
    lock, all of them share the rows, and the server interleaves their calls in any order.  A call
    that meets the row lock of another session waits. *)

From S2P Require Import Prelude CoreState CoreOps RowOps Shape Inv Chains Reads Alloc Freelist Steps Insert Delete Lockset Update Clear Lifecycle Spec AutoInc Hash Data DataSpec Handler HandlerSpec.

(** * Sessions *)

(** The private part of a handler. *)
Record session := mkSession {
  se_info : FM_INFO;
  se_errno : ha_err;
  se_write : bool;
  se_locked : bool;
  se_slot : Z
}.

Record db := mkDb { share : FM_SHARE_CORE; db_keydefs : list FM_KEYDEF; sessions : gmap nat session }.

(** The handler of a session, and the session of a handler. *)
Definition as_handler (s : db) (x : session) : ha_fastmem :=
  mkHandler (mkD (share s) (db_keydefs s) (se_info x) (se_errno x)) (se_write x) (se_locked x) (se_slot x).
Definition as_session (h : ha_fastmem) : session :=
  mkSession (info (file h)) (my_errno (file h)) (write_stmt h) (row_locked h) (locked_slot h).

(** The calls of the server, with their buffers. *)
Inductive call :=
| SLock (mode : lock_mode)
| SScan (scan : bool)
| SNext (buf : bytes)
| SPos (buf pos : bytes)
| SRead (index : Z) (buf key : bytes)
| SReadNext (buf : bytes)
| SWrite (rec : bytes)
| SUpdate (old_data new_data : bytes)
| SDelete (buf : bytes)
| SReset
| SUnique (record : bytes) (unique_idx : Z)
| SClear
| SGetAuto (offset increment nb_desired_values : Z)
| SSetAuto (value : Z).

Section server.
Context (uint_korr sint_korr float_korr : Z → bytes → Z) (ha_keytype : Z → auto_type).
Context (update_auto_increment : bytes → HM (ha_err * bytes)) (get_rec_bits : bytes → Z → Z → Z).

Definition run_call (c : call) : HM (ha_err * bytes) :=
  match c with
  | SLock mode => e ← external_lock mode; mret (e, [])
  | SScan scan => e ← rnd_init scan; mret (e, [])
  | SNext buf => rnd_next buf
  | SPos buf pos => rnd_pos buf pos
  | SRead index buf key => index_read_map index buf key
  | SReadNext buf => index_next buf
  | SWrite rec => e ← write_row uint_korr sint_korr float_korr ha_keytype update_auto_increment false rec; mret (e, [])
  | SUpdate old_data new_data => e ← update_row uint_korr sint_korr float_korr ha_keytype old_data new_data; mret (e, [])
  | SDelete buf => e ← delete_row buf; mret (e, [])
  | SReset => e ← reset; mret (e, [])
  | SUnique record unique_idx => '(rc, rec) ← find_unique_row get_rec_bits record unique_idx; mret (if decide (rc = 0) then HA_OK else HA_ERR_KEY_NOT_FOUND, rec)
  | SClear => e ← delete_all_rows; mret (e, [])
  | SGetAuto offset increment nb_desired_values => _ ← get_auto_increment offset increment nb_desired_values; mret (HA_OK, [])
  | SSetAuto value => e ← reset_auto_increment value; mret (e, [])
  end.

(** Session [i] makes a call: [Hang] is a wait for a row lock. *)
Definition db_call (i : nat) (c : call) (s : db) : outcome ((ha_err * bytes) * db) :=
  match sessions s !! i with
  | None => Ub
  | Some x =>
      match run_call c (as_handler s x) with
      | Ret (r, h) => Ret (r, mkDb (core (file h)) (keydefs (file h)) (<[i := as_session h]> (sessions s)))
      | Ub => Ub
      | Hang => Hang
      end
  end.

(** What the server may ask for: positions and indexes of the table, records of its length, and as
    old image of an update the row (unless the engine checks it, [old_image]).  All rows are deleted
    at once while no session has a row lock. *)
Definition call_ok (s : db) (x : session) (c : call) : Prop :=
  match c with
  | SPos _ pos => FM_NULL_SLOT ≤ (decode_ref pos).1 < total_slots (share s)
  | SRead index _ _ => 0 ≤ index < keys (share s)
  | SWrite rec => Z.of_nat (length rec) = reclength (share s)
  | SUpdate old_data new_data =>
      old_image (file (as_handler s x)) (current_slot (se_info x)) (current_gen (se_info x)) old_data ∧
      Z.of_nat (length new_data) = reclength (share s)
  | SDelete buf => Z.of_nat (length buf) = reclength (share s)
  | SUnique _ unique_idx => 0 ≤ unique_idx < keys (share s)
  | SClear => ∀ j y, sessions s !! j = Some y → se_locked y = false
  | _ => True
  end.

(** An interleaving: who calls what, and what it returns. *)
Inductive db_exec : db → list (nat * call * (ha_err * bytes)) → db → Prop :=
| db_nil s : db_exec s [] s
| db_cons s i x c r s1 tr s2 : sessions s !! i = Some x → call_ok s x c → db_call i c s = Ret (r, s1) →
    db_exec s1 tr s2 → db_exec s ((i, c, r) :: tr) s2.

End server.

Lemma safe_file {A} B (m : DM A) (Q : A → dstate → Prop) h : safe B m Q (file h) → safe B (on_file m) (λ a h', ∃ d, h' = h_file d h ∧ Q a d) h.
Proof. unfold safe, on_file. destruct (m (file h)) as [[a d]| |]; eauto. Qed.

(** * Reads *)

Definition inx_ok (d : dstate) : Prop := -1 ≤ lastinx (info d) < keys (core d).

(** What a read does to a handle: the rows stay, and a success is the row at the new position. *)
Record read_step (held : gset Z) (d : dstate) (r : ha_err * bytes) (d' : dstate) : Prop := {
  rs_ok : handle_ok held d';
  rs_core : core d' = core d;
  rs_keydefs : keydefs d' = keydefs d;
  rs_inx : inx_ok d';
  rs_found : r.1 = HA_OK → 0 ≤ current_slot (info d') ∧ row_ref (core d) (current_slot (info d')) (current_gen (info d')) r.2
}.

Section reads.
Context (held : gset Z) (d : dstate) (H : handle_ok held d) (Hinx : inx_ok d).

(** A handle on the same share with the cursor in range. *)
Lemma read_step_intro r d' : core d' = core d → keydefs d' = keydefs d → -1 ≤ lastinx (info d') < keys (core d) →
  FM_NULL_SLOT ≤ current_slot (info d') < total_slots (core d) → 0 ≤ scan_pos (info d') ≤ total_slots (core d) →
  (r.1 = HA_OK → 0 ≤ current_slot (info d') ∧ row_ref (core d) (current_slot (info d')) (current_gen (info d')) r.2) →
  read_step held d r d'.
Proof.
  intros E Ek Hi Hs Hp Hf. constructor; [|done|done|unfold inx_ok; by rewrite E|done].
  eapply (handle_ok_step held held d); rewrite ?E; [done|apply H|by constructor|done..].
Qed.

Lemma found_row i rec : row_at (core d) i = Some rec → ∃ g, gen_at (core d) i = Some g ∧ 0 ≤ i < total_slots (core d) ∧ row_ref (core d) i g rec.
Proof.
  intros Hrow. pose proof (wf_static _ _ (ho_wf _ _ H)) as Hs. pose proof (row_at_range _ _ _ Hs Hrow) as Hi.
  destruct (gen_at_is_Some _ _ Hs Hi) as [g Hg]. exists g. split; [done|]. split; [lia|]. split; [by rewrite table_lookup|done].
Qed.

#[local] Ltac rd := apply read_step_intro; cbn; try done; try (unfold inx_ok, FM_NULL_SLOT in *; lia).

Lemma scan_any buf : wp (fm_scan buf) (λ r d', read_step held d r d') d.
Proof.
  pose proof (ho_wf _ _ H) as Hwf. pose proof (ho_scan _ _ H) as Hsc. pose proof (ho_slot _ _ H) as Hsl.
  destruct (scan_next_run held (core d) Hwf (scan_pos (info d)) buf Hsc) as (rc & pos & rec & Hrun & Hpos & Hcase).
  pose proof (total_bound _ (wf_static _ _ Hwf)) as Hb.
  unfold fm_scan. wp_get. wp_step @on_core_run; [exact Hrun|]. rewrite d_core_id. unfold upd_info, fail. wp_mod.
  destruct Hcase as [(-> & Hlt & Hrow & _)|(-> & -> & _)].
  - rewrite decide_False by naive_solver. cbv zeta. rewrite u32_small, i32_small by lia.
    destruct (found_row _ _ Hrow) as (g & Hg & Hi & Hr).
    wp_step @on_core_run; [by apply slot_gen_run|]. wp_mod. apply wp_ret. apply read_step_intro; cbn; try done; [unfold FM_NULL_SLOT; lia|lia|].
    intros _. split; [lia|done].
  - rewrite decide_True by done. wp_mod. wp_step @eq_refl. apply wp_ret. apply read_step_intro; cbn; try done. lia.
Qed.

Lemma rrnd_safe buf pos : FM_NULL_SLOT ≤ (decode_ref pos).1 < total_slots (core d) →
  wp (fm_rrnd buf pos) (λ r d', read_step held d r d') d.
Proof.
  intros Hs. pose proof (ho_scan _ _ H). pose proof (so_keys _ (wf_static _ _ (ho_wf _ _ H))). pose proof (ho_slot _ _ H) as Hc. unfold fm_rrnd. destruct (decode_ref pos) as [slot g]. cbn [fst] in Hs.
  unfold upd_info, fail. wp_mod. case_decide as Hn.
  { wp_mod. wp_step @eq_refl. apply wp_ret. rd. }
  destruct (read_row_ref held (core d) slot g buf (ho_wf _ _ H)) as (rc & rec & Hrun & Hcase); [unfold FM_NULL_SLOT in *; lia|].
  wp_step @on_core_run; [exact Hrun|]. destruct Hcase as [[-> Hr]|[-> _]].
  - rewrite decide_False by naive_solver. wp_mod. apply wp_ret. rd. intros _. split; [unfold FM_NULL_SLOT in *; lia|done].
  - rewrite decide_True by done. wp_mod. wp_step @eq_refl. apply wp_ret. rd.
Qed.

Lemma find_any inx pk buf : 0 ≤ inx < keys (core d) → wp (fm_find_key inx pk buf) (λ r d', read_step held d r d') d.
Proof.
  intros Hk. pose proof (ho_wf _ _ H) as Hwf. pose proof (ho_scan _ _ H). pose proof (so_keys _ (wf_static _ _ (ho_wf _ _ H))). pose proof (ho_slot _ _ H).
  destruct (key_at_is_Some _ _ (wf_static _ _ Hwf) Hk) as (kc & ? & Hkc & _). destruct (ho_keys _ _ H inx Hk) as [kd Hkd].
  destruct (lookup_chain held (core d) Hwf inx Hk kc Hkc pk) as (h & l & Hh & Hl & Hnd & Hin & Hf & _).
  destruct (fm_core_find_run held (core d) Hwf inx Hk kc Hkc pk buf (-1) l ltac:(eauto) Hin Hf) as (buf' & Hrun & Hrow).
  unfold fm_find_key. wp_step @on_core_run; [by apply deref_key_run|]. rewrite d_core_id. wp_step @on_core_run; [exact Hrun|].
  rewrite d_core_id. destruct (list_find _ l) as [[n i]|] eqn:Hfind.
  - destruct (found_row _ _ (Hrow n i eq_refl)) as (g & Hg & Hi & Hr). rewrite decide_False by naive_solver. wp_get. wp_step @unwrap_run; [exact Hkd|].
    unfold keep_key, upd_info.
    apply wp_bind. apply (wp_mono _ (λ _ d1, ∃ lk ln, d1 = d_info (in_lastkey lk ln (info d)) d)).
    { destruct (hash_rec (ops kc)); [destruct (flag_nosame kd && negb (flag_null_part kd))|]; [apply wp_ret|eapply wp_run; [apply modify_run|]|apply wp_ret];
        try (exists (lastkey (info d)), (lastkey_len (info d)); by destruct d as [? ? []]). by eexists _, _. }
    intros _ d1 (lk & ln & ->). wp_step @on_core_run; [by apply slot_gen_run|]. wp_mod. apply wp_ret.
    rd. intros _. split; [lia|done].
  - rewrite decide_True by done. unfold upd_info, fail. wp_mod. wp_step @eq_refl. apply wp_ret. rd.
Qed.

Lemma find_next_any inx pk cur buf : 0 ≤ inx < keys (core d) → wp (fm_find_next_key inx pk cur buf) (λ r d', read_step held d r d') d.
Proof.
  intros Hk. pose proof (ho_wf _ _ H) as Hwf. pose proof (ho_scan _ _ H). pose proof (ho_slot _ _ H).
  destruct (key_at_is_Some _ _ (wf_static _ _ Hwf) Hk) as (kc & ? & Hkc & _). destruct (ho_keys _ _ H inx Hk) as [kd Hkd].
  destruct (lookup_chain held (core d) Hwf inx Hk kc Hkc pk) as (h & l & Hh & Hl & Hnd & Hin & Hf & _).
  destruct (fm_core_find_next_run held (core d) Hwf inx Hk kc Hkc pk cur buf (-1) l ltac:(eauto) Hnd Hin Hf) as (buf' & Hrun & Hrow).
  unfold fm_find_next_key. wp_step @on_core_run; [exact Hrun|]. rewrite d_core_id. destruct (list_find _ _) as [[n i]|] eqn:Hfind.
  - destruct (found_row _ _ (Hrow n i eq_refl)) as (g & Hg & Hi & Hr). rewrite decide_False by naive_solver. wp_get. wp_step @unwrap_run; [exact Hkd|].
    unfold keep_key, upd_info.
    apply wp_bind. apply (wp_mono _ (λ _ d1, ∃ lk ln, d1 = d_info (in_lastkey lk ln (info d)) d)).
    { case_match; [eapply wp_run; [apply modify_run|]; by eexists _, _|].
      apply wp_ret. exists (lastkey (info d)), (lastkey_len (info d)). by destruct d as [? ? []]. }
    intros _ d1 (lk & ln & ->). wp_step @on_core_run; [by apply slot_gen_run|]. wp_mod. apply wp_ret. rd. intros _. split; [lia|done].
  - rewrite decide_True by done. unfold upd_info, fail. wp_mod. wp_step @eq_refl. apply wp_ret. rd.
Qed.
End reads.

(** * The invariant of a session among others *)

(** [others] are the slots that other sessions have locked. *)
Record among (others : gset Z) (h : ha_fastmem) : Prop := {
  am_handle : handle_ok (held_of h ∪ others) (file h);
  am_range i : i ∈ held_of h ∪ others → 0 ≤ i < total_slots (core (file h));
  am_disj : held_of h ## others;
  am_inx : inx_ok (file h)
}.

(** The records that a call stores. *)
Definition stored (c : call) : list bytes :=
  match c with SWrite rec => [rec] | SUpdate _ new_data => [new_data] | _ => [] end.

Section calls.
(** The records that the call under consideration may store. *)
Context (W : bytes → Prop).

(** What others may count on when a session makes a call: the table keeps its shape, the rows
    they have locked stay as they are, and every row was there before or is one of [W]. *)
Record fair (others : gset Z) (s s' : FM_SHARE_CORE) : Prop := {
  fa_kept : kept s s';
  fa_rows i g rec : i ∈ others → row_ref s i g rec → row_ref s' i g rec;
  fa_from i rec : table s' !! i = Some rec → table s !! i = Some rec ∨ W rec
}.

#[export] Instance fair_refl others : Reflexive (fair others).
Proof. intros s. constructor; [done|done|by left]. Qed.

#[export] Instance fair_trans others : Transitive (fair others).
Proof. intros s1 s2 s3 [K1 R1 F1] [K2 R2 F2]. constructor; [by etrans|auto|]. intros i rec [H|]%F2; [by apply F1|by right]. Qed.

Lemma same_rows_fair others s s' : same_rows s s' → fair others s s'.
Proof.
  intros R. constructor; [apply kept_config; [apply R|by rewrite (sr_total _ _ R)]|intros i g rec _; by apply row_ref_rows|].
  intros i rec. rewrite (sr_table _ _ R). by left.
Qed.

Lemma handle_ok_held held held' d : handle_ok held d → held = held' → handle_ok held' d.
Proof. by intros ? <-. Qed.

(** A call of the data layer that keeps the locks. *)
Lemma among_file others h d : among others h → handle_ok (held_of h ∪ others) d → kept (core (file h)) (core d) → inx_ok d →
  among others (h_file d h).
Proof.
  intros A Hd K Hi. constructor; try done; [|apply A]. intros i Hi'. pose proof (am_range _ _ A i Hi'). pose proof (kp_total _ _ K). cbn. lia.
Qed.

Lemma among_errno others h e : among others h → among others (h_file (d_errno e (file h)) h).
Proof.
  intros A. apply among_file; [done| |by constructor|apply A]. eapply handle_ok_same; [apply (am_handle _ _ A)|done..].
Qed.

Lemma slot_among others h i : among others h → 0 ≤ i < total_slots (core (file h)) → ∃ sl, fm_slot (core (file h)) i = Some sl ∧
  wlock sl = if decide (i ∈ held_of h ∪ others) then 1 else 0.
Proof.
  intros A Hi. pose proof (ho_wf _ _ (am_handle _ _ A)) as Hwf. destruct (proj2 (so_slot _ (wf_static _ _ Hwf) i) Hi) as [sl Hsl].
  exists sl. split; [done|]. destruct (wf_locks _ _ Hwf) as (_ & _ & Hw). by apply Hw.
Qed.

Lemma inx_rows h h' : lock_step h h' → inx_ok (file h) → inx_ok (file h').
Proof. intros L. unfold inx_ok. by rewrite (ls_info _ _ L), (sc_keys _ _ (sr_config _ _ (ls_rows _ _ L))). Qed.

Lemma unlock_among others h : among others h →
  wp unlock_current_row (λ _ h', among others h' ∧ row_locked h' = false ∧ lock_step h h') h.
Proof.
  intros A. unfold unlock_current_row. wp_get. destruct (row_locked h) eqn:Hr; [|apply wp_ret; by split_and!].
  assert (Hown : held_of h = {[ locked_slot h ]}) by (unfold held_of; by rewrite Hr).
  assert (Hi : 0 ≤ locked_slot h < total_slots (core (file h))) by (apply (am_range _ _ A); rewrite Hown; set_solver).
  destruct (slot_among others h _ A Hi) as (sl & Hsl & Hw).
  wp_step @on_file_run; [apply on_core_run, wlock_unlock_run; by eexists|]. eapply wp_run; [apply modify_run|]. cbn.
  pose proof (am_disj _ _ A) as Hd. rewrite Hown in Hd.
  destruct (wf_wlock (held_of h ∪ others) others 0 (locked_slot h) (core (file h))) as [Hwf R]; [apply (am_handle _ _ A)| |].
  { intros j. rewrite Hown. clear -Hd. repeat case_decide; set_solver. }
  assert (L : lock_step h (h_lock false (-1) (h_file (d_core (upd_slot (sl_with_wlock 0) (locked_slot h) (core (file h))) (file h)) h))) by by constructor.
  split; [|done]. constructor; cbn.
  - rewrite union_empty_l_L. by eapply handle_ok_rows; [apply A|..].
  - intros i Hi'. rewrite (sr_total _ _ R). apply (am_range _ _ A). set_solver.
  - set_solver.
  - exact (inx_rows _ _ L (am_inx _ _ A)).
Qed.

Lemma wlock_lock_hang s i sl : fm_slot s i = Some sl → wlock sl ≠ 0 → wlock_lock i s = Hang.
Proof. intros H Hw. unfold wlock_lock. rewrite (bind_Ret _ _ _ _ _ (deref_slot_run _ _ _ H)). by rewrite decide_False. Qed.

(** Taking the lock of the current row: it waits when another session has it. *)
Lemma lock_among others h : among others h → 0 ≤ cur_slot h →
  safe (others ≠ ∅) lock_current_row (λ _ h', among others h' ∧ holds_row h' = true ∧ lock_step h h') h.
Proof.
  intros A H0. unfold lock_current_row. safe_step @get_run. rewrite decide_False by lia.
  destruct (row_locked h && bool_decide (locked_slot h = cur_slot h)) eqn:Hh; [by apply safe_ret|].
  apply safe_bind, (safe_mono _ _ (λ _ h1, among others h1 ∧ row_locked h1 = false ∧ lock_step h h1)).
  { apply safe_wp. destruct (row_locked h) eqn:Hr; [by apply unlock_among|]. apply wp_ret. by split. }
  intros _ h1 (A1 & Hr1 & L). pose proof (ho_slot _ _ (am_handle _ _ A1)) as Hs. rewrite (ls_info _ _ L) in Hs. fold (cur_slot h) in Hs.
  assert (Hown : held_of h1 = ∅) by (unfold held_of; by rewrite Hr1).
  destruct (slot_among others h1 (cur_slot h) A1 ltac:(lia)) as (sl & Hsl & Hw). rewrite Hown, union_empty_l_L in Hw.
  destruct (decide (cur_slot h ∈ others)) as [Hin|Hin].
  { unfold safe, mbind, M_bind, on_file, on_core. rewrite (wlock_lock_hang _ _ _ Hsl) by lia. set_solver. }
  safe_step @on_file_run; [by eapply on_core_run, wlock_lock_run|]. eapply safe_run; [apply modify_run|].
  destruct (wf_wlock (held_of h1 ∪ others) ({[cur_slot h]} ∪ others) 1 (cur_slot h) (core (file h1))) as [Hwf R]; [apply (am_handle _ _ A1)| |].
  { intros j. rewrite Hown. clear. repeat case_decide; set_solver. }
  assert (L2 : lock_step h1 (h_lock true (cur_slot h) (h_file (d_core (upd_slot (sl_with_wlock 1) (cur_slot h) (core (file h1))) (file h1)) h1))) by by constructor.
  split; [|split; [|by etrans; [exact L|]]].
  - constructor; cbn.
    + by eapply handle_ok_rows; [apply A1|..].
    + intros i [->%elem_of_singleton|Hi]%elem_of_union; rewrite (sr_total _ _ R); [lia|]. apply (am_range _ _ A1). set_solver.
    + set_solver.
    + exact (inx_rows _ _ L2 (am_inx _ _ A1)).
  - unfold holds_row, cur_slot. cbn. by rewrite (ls_info _ _ L), bool_decide_eq_true_2.
Qed.

(** * The calls of a session among others *)

(** A read of a row: a success is the row at the new position, and locked in a write statement. *)
Record read_post (others : gset Z) (h : ha_fastmem) (r : ha_err * bytes) (h' : ha_fastmem) : Prop := {
  rp_among : among others h';
  rp_fair : fair others (core (file h)) (core (file h'));
  rp_keydefs : keydefs (file h') = keydefs (file h);
  rp_row : r.1 = HA_OK → at_row h' r.2
}.

Lemma read_file others h (m : DM (ha_err * bytes)) : among others h →
  wp m (λ r d', read_step (held_of h ∪ others) (file h) r d') (file h) →
  safe (others ≠ ∅) (on_file m) (λ r h1, among others h1 ∧ fair others (core (file h)) (core (file h1)) ∧ keydefs (file h1) = keydefs (file h) ∧
    (r.1 = HA_OK → 0 ≤ cur_slot h1 ∧ row_ref (core (file h1)) (cur_slot h1) (current_gen (info (file h1))) r.2)) h.
Proof.
  intros A Hm. eapply safe_mono; [apply safe_file, safe_wp, Hm|]. intros r h1 (d & -> & [Hd Ec Ek Hi Hf]).
  split; [|split; [|split; [done|]]].
  - apply among_file; try done. rewrite Ec. by constructor.
  - cbn. by rewrite Ec.
  - intros Hr. cbn. rewrite Ec. by apply Hf.
Qed.

(** Locking the current row and reading it again. *)
Lemma lock_read_among others h buf : among others h → 0 ≤ cur_slot h →
  safe (others ≠ ∅) (lock_current_row;; on_file (fm_reread_locked buf)) (λ r h2, among others h2 ∧ fair others (core (file h)) (core (file h2)) ∧
    keydefs (file h2) = keydefs (file h) ∧ (r.1 = FM_ERR_OK ∧ at_row h2 r.2 ∨ r.1 = FM_ERR_DELETED)) h.
Proof.
  intros A H0. safe_use (lock_among others h A H0). intros _ h1 (A1 & Hh1 & L1).
  assert (H1 : 0 ≤ current_slot (info (file h1))) by (rewrite (ls_info _ _ L1); exact H0).
  eapply safe_mono; [apply safe_file, safe_wp, (reread_spec _ _ buf (am_handle _ _ A1) H1)|].
  intros [rc rec] h2 (d & -> & Hd & Ec & Ek & Es & Erc & Elk & Eli & Hcase). cbn [fst snd] in *. split; [|split; [|split]].
  - apply among_file; try done; [rewrite Ec; by constructor|]. unfold inx_ok. rewrite Ec, Eli. apply A1.
  - cbn. rewrite Ec. apply same_rows_fair, L1.
  - cbn. rewrite Ek. apply L1.
  - destruct Hcase as [[-> Hrow]|[-> _]]; [left|by right]. split; [done|]. unfold at_row, holds_row, cur_slot in *. cbn. by rewrite Es, Ec.
Qed.

Lemma reread_among others h gone r : gone ≠ HA_OK → among others h → (r.1 = HA_OK → 0 ≤ cur_slot h ∧ row_ref (core (file h)) (cur_slot h) (current_gen (info (file h))) r.2) →
  safe (others ≠ ∅) (lock_and_reread gone r) (read_post others h) h.
Proof.
  intros Hgone A Hr. unfold lock_and_reread. safe_step @get_run. destruct (bool_decide (r.1 = HA_OK) && write_stmt h) eqn:Hb.
  2: { apply safe_ret. constructor; try done. intros Hok. rewrite bool_decide_eq_true_2 in Hb by done. cbn in Hb. destruct (Hr Hok). split; [done|].
       split; [done|]. by rewrite Hb. }
  apply andb_true_iff in Hb as [Hok%bool_decide_eq_true Hw]. destruct (Hr Hok) as [H0 _].
  eapply safe_bind_then; [by apply lock_read_among|]. intros [rc rec] h2 (A2 & F2 & K2 & Hcase). cbn [fst snd] in Hcase. destruct Hcase as [[-> Hrow]| ->].
  - rewrite decide_False by naive_solver. apply safe_ret. by constructor.
  - rewrite decide_True by done. apply safe_bind. eapply safe_mono; [apply safe_wp, unlock_among, A2|]. intros _ h3 (A3 & Hr3 & L3).
    unfold h_fail, fail. safe_step @on_file_run; [reflexivity|]. apply safe_ret.
    constructor; cbn; [by apply among_errno|etrans; [exact F2|apply same_rows_fair, L3]|rewrite (ls_keydefs _ _ L3); done|done].
Qed.

Lemma read_post_after others h h1 r h2 : fair others (core (file h)) (core (file h1)) → keydefs (file h1) = keydefs (file h) →
  read_post others h1 r h2 → read_post others h r h2.
Proof. intros F K [A F2 K2 R]. constructor; [done|by etrans|congruence|done]. Qed.

(** A read of the data layer, then the lock of the row in a write statement. *)
Lemma read_locked others h gone (m : DM (ha_err * bytes)) : gone ≠ HA_OK → among others h →
  wp m (λ r d', read_step (held_of h ∪ others) (file h) r d') (file h) →
  safe (others ≠ ∅) (r ← on_file m; lock_and_reread gone r) (read_post others h) h.
Proof.
  intros Hg A Hm. safe_use (read_file others h m A Hm). intros r h1 (A1 & F1 & K1 & Hr).
  eapply safe_mono; [by apply reread_among|]. intros r2 h2. by apply read_post_after.
Qed.

Lemma index_read_among others h inx buf pk : among others h → 0 ≤ inx < keys (core (file h)) →
  safe (others ≠ ∅) (index_read_map inx buf pk) (read_post others h) h.
Proof. intros A Hk. apply read_locked; [done..|]. by apply find_any; [apply A|apply A|]. Qed.

Lemma rnd_pos_among others h buf pos : among others h → FM_NULL_SLOT ≤ (decode_ref pos).1 < total_slots (core (file h)) →
  safe (others ≠ ∅) (rnd_pos buf pos) (read_post others h) h.
Proof. intros A Hp. apply read_locked; [done..|]. by apply rrnd_safe; [apply A|]. Qed.

Lemma rnd_next_among others h buf : among others h → safe (others ≠ ∅) (rnd_next buf) (read_post others h) h.
Proof.
  intros A. unfold rnd_next. safe_use (read_file others h (fm_scan buf) A); [apply scan_any; apply A|]. intros r h1 (A1 & F1 & K1 & Hr).
  case_decide as He; [apply safe_ret; by constructor|].
  eapply safe_mono; [by apply reread_among|]. intros r2 h2. by apply read_post_after.
Qed.

Lemma index_next_among others h buf : among others h → safe (others ≠ ∅) (index_next buf) (read_post others h) h.
Proof.
  intros A. pose proof (am_inx _ _ A) as Hi. unfold inx_ok in Hi. unfold index_next. safe_step @get_run. cbv zeta. case_decide as Hneg.
  { unfold h_fail, fail. safe_step @on_file_run; [reflexivity|]. apply safe_ret. constructor; [by apply among_errno|done..]. }
  safe_use (read_file others h (fm_find_next_key (lastinx (info (file h))) (lastkey (info (file h))) (current_slot (info (file h))) buf) A).
  { apply find_next_any; [apply A|apply A|lia]. }
  intros r h1 (A1 & F1 & K1 & Hr). safe_step @get_run. case_match eqn:Hc.
  - unfold h_fail, fail. safe_step @on_file_run; [reflexivity|]. apply safe_ret. constructor; [by apply among_errno|done|done|done].
  - eapply safe_mono; [by apply reread_among|]. intros r2 h2. by apply read_post_after.
Qed.

(** ** Updates, deletes and inserts *)

(** A call that changes rows, or only locks. *)
Record call_post (others : gset Z) (h h' : ha_fastmem) : Prop := {
  cp_among : among others h';
  cp_fair : fair others (core (file h)) (core (file h'));
  cp_keydefs : keydefs (file h') = keydefs (file h)
}.

Lemma lock_step_post others h h' : among others h' → lock_step h h' → call_post others h h'.
Proof. intros A L. constructor; [done|apply same_rows_fair, L|apply L]. Qed.

Lemma call_post_trans others h1 h2 h3 : call_post others h1 h2 → call_post others h2 h3 → call_post others h1 h3.
Proof. intros [A1 F1 K1] [A2 F2 K2]. constructor; [done|by etrans|congruence]. Qed.

Lemma ensure_among others h : among others h →
  safe (others ≠ ∅) ensure_locked (λ ok h', call_post others h h' ∧ info (file h') = info (file h) ∧ same_rows (core (file h)) (core (file h')) ∧
    (ok = true → holds_row h' = true) ∧ (ok = false → row_locked h' = false)) h.
Proof.
  intros A. unfold ensure_locked. safe_step @get_run. destruct (write_stmt h && holds_row h) eqn:Hh.
  { apply andb_true_iff in Hh as [_ Hh]. apply safe_ret. split; [by constructor|]. by split_and!. }
  apply safe_bind, (safe_mono _ _ (λ _ h1, among others h1 ∧ lock_step h h1)).
  { destruct (write_stmt h && bool_decide (0 ≤ cur_slot h) && negb (row_locked h)) eqn:Hl; [|by apply safe_ret].
    apply andb_true_iff in Hl as [[_ H0%bool_decide_eq_true]%andb_true_iff _].
    eapply safe_mono; [by apply lock_among|]. by intros _ h1 (? & _ & ?). }
  intros _ h1 [A1 L1]. safe_step @get_run. destruct (holds_row h1) eqn:Hh1.
  { apply safe_ret. split; [by apply lock_step_post|]. split; [apply L1|]. split; [apply L1|]. by split. }
  apply safe_bind. eapply safe_mono; [apply safe_wp, (unlock_among others h1 A1)|]. intros _ h2 (A2 & Hr2 & L2).
  unfold h_fail, fail. safe_step @on_file_run; [reflexivity|]. apply safe_ret. assert (L : lock_step h h2) by by etrans.
  split; [|split; [apply L|split; [apply L|by split]]].
  constructor; [by apply among_errno|apply same_rows_fair, L|apply L].
Qed.

Lemma inx_step d d' : inx_ok d → keys (core d') = keys (core d) → 0 ≤ keys (core d) → inx_kept d d' → inx_ok d'.
Proof. unfold inx_ok. intros H -> ? [->| ->]; lia. Qed.

Lemma table_length held s i rec : wf held s → table s !! i = Some rec → Z.of_nat (length rec) = reclength s.
Proof.
  intros Hwf Ht. rewrite table_lookup in Ht by apply Hwf. unfold row_at, row_of in Ht. destruct (fm_slot s i) as [sl|] eqn:Hsl; [|done].
  cbn in Ht. case_decide; [|done]. injection Ht as <-. by apply (sk_data _ _ (wf_slots _ _ Hwf _ _ Hsl)).
Qed.

(** The row that a session holds is no other's. *)
Lemma holds_among others h : among others h → holds_row h = true → 0 ≤ cur_slot h ∧ cur_slot h ∉ others.
Proof.
  intros A [Hr Hb%bool_decide_eq_true]%andb_true_iff. pose proof (am_range _ _ A) as Hg. pose proof (am_disj _ _ A) as Hd.
  unfold held_of in *. rewrite Hr, Hb in *. split; [apply Hg; set_solver|set_solver].
Qed.

(** A change of row [idx] alone. *)
Lemma fair_one others s s' idx : kept s s' → gens_but idx s s' → idx ∉ others → (∀ i, i ≠ idx → table s' !! i = table s !! i) →
  (∀ rec, table s' !! idx = Some rec → table s !! idx = Some rec ∨ W rec) → fair others s s'.
Proof.
  intros K G Hi Ht Hw. constructor; [done| |intros i rec; destruct (decide (i = idx)) as [->|Hne]; [apply Hw|rewrite Ht by done; by left]]. intros i g rec Hin [H1 H2]. assert (i ≠ idx) by (intros ->; done).
  split; [by rewrite Ht|by rewrite G].
Qed.

Section changes.
Context (uint_korr sint_korr float_korr : Z → bytes → Z) (ha_keytype : Z → auto_type).
Context (update_auto_increment : bytes → HM (ha_err * bytes)).

Lemma among_keys others h : among others h → 0 ≤ keys (core (file h)).
Proof. intros A. apply (so_keys _ (wf_static _ _ (ho_wf _ _ (am_handle _ _ A)))). Qed.

Lemma unlock_post others h0 h (e : ha_err) : call_post others h0 h →
  safe (others ≠ ∅) (unlock_current_row;; mret e) (λ r h', (call_post others h0 h' ∧ row_locked h' = false) ∧ r = e) h.
Proof.
  intros C. apply safe_bind. eapply safe_mono; [apply safe_wp, unlock_among, C|]. intros _ h' (A & Hr & L). apply safe_ret.
  split; [|done]. split; [|done]. eapply call_post_trans; [exact C|by apply lock_step_post].
Qed.

Lemma update_among others h old new : W new → among others h →
  old_image (file h) (cur_slot h) (current_gen (info (file h))) old → Z.of_nat (length new) = reclength (core (file h)) →
  safe (others ≠ ∅) (update_row uint_korr sint_korr float_korr ha_keytype old new) (λ _ h', call_post others h h' ∧ row_locked h' = false) h.
Proof.
  intros HW A [Hlo Hold] Hln. unfold update_row. safe_use (ensure_among others h A). intros ok h1 (C1 & Ei & R1 & Hh & Hn).
  destruct ok; [|apply safe_ret; split; [done|by apply Hn]]. specialize (Hh eq_refl). pose proof (cp_among _ _ _ C1) as A1.
  destruct (holds_among others h1 A1 Hh) as [H0 Ho].
  assert (Hi : old_image (file h1) (cur_slot h1) (current_gen (info (file h1))) old).
  { unfold old_image, cur_slot. rewrite Ei, (sc_reclength _ _ (sr_config _ _ R1)). split; [done|].
    destruct Hold as [?|Hold]; [by left|right]. intros r Hr. apply Hold. by rewrite <-(row_ref_rows _ _ _ _ _ R1). }
  apply safe_bind. eapply safe_mono; [apply safe_file, safe_wp, (update_locked_frame uint_korr sint_korr float_korr ha_keytype _ (file h1) (cur_slot h1)
    (current_gen (info (file h1))) old new (am_handle _ _ A1)); [by split|done|done|by rewrite (sc_reclength _ _ (sr_config _ _ R1))]|].
  intros e h2 (d & -> & (Hd & K & _ & Hu) & Ek & Ex & G). eapply safe_mono; [apply (unlock_post others h)|by intros ? ? [? _]].
  eapply call_post_trans; [exact C1|]. constructor; cbn; [|eapply fair_one; [done|done|done|..]|done].
  - apply among_file; try done. eapply inx_step; [apply A1|apply K|by eapply among_keys|done].
  - intros i Hne. destruct e; try done; cbn in Hu.
    + destruct Hu as (_ & -> & _). by rewrite lookup_insert_ne.
    + by destruct Hu as (-> & _).
    + by destruct Hu as (-> & _).
    + by destruct Hu as (-> & _).
  - intros rec. destruct e; try done; cbn in Hu; [destruct Hu as (_ & -> & _)|destruct Hu as (-> & _); by left..].
    rewrite lookup_insert_eq. intros [= <-]. by right.
Qed.

Lemma delete_among others h buf : among others h → Z.of_nat (length buf) = reclength (core (file h)) →
  safe (others ≠ ∅) (delete_row buf) (λ _ h', call_post others h h' ∧ row_locked h' = false) h.
Proof.
  intros A Hlb. unfold delete_row. safe_use (ensure_among others h A). intros ok h1 (C1 & Ei & R1 & Hh & Hn).
  destruct ok; [|apply safe_ret; split; [done|by apply Hn]]. specialize (Hh eq_refl). pose proof (cp_among _ _ _ C1) as A1.
  destruct (holds_among others h1 A1 Hh) as [H0 Ho].
  apply safe_bind. eapply safe_mono; [apply safe_file, safe_wp, (delete_locked_frame _ (file h1) (cur_slot h1)
    (current_gen (info (file h1))) buf (am_handle _ _ A1)); [by split|done|by rewrite (sc_reclength _ _ (sr_config _ _ R1))]|].
  intros e h2 (d & -> & (Hd & K & _ & Hu) & Ek & Ex & G). eapply safe_mono; [apply (unlock_post others h)|by intros ? ? [? _]].
  eapply call_post_trans; [exact C1|]. constructor; cbn; [|eapply fair_one; [done|done|done|..]|done].
  - apply among_file; try done. eapply inx_step; [apply A1|apply K|by eapply among_keys|done].
  - intros i Hne. destruct e; try done; cbn in Hu.
    + destruct Hu as (_ & -> & _). by rewrite lookup_delete_ne.
    + by destruct Hu as (-> & _).
    + by destruct Hu as (-> & _).
  - intros rec. destruct e; try done; cbn in Hu; [destruct Hu as (_ & -> & _)|destruct Hu as (-> & _); by left..].
    by rewrite lookup_delete_eq.
Qed.

Lemma write_among others h rec : W rec → among others h → Z.of_nat (length rec) = reclength (core (file h)) →
  safe (others ≠ ∅) (write_row uint_korr sint_korr float_korr ha_keytype update_auto_increment false rec) (λ _ h', call_post others h h') h.
Proof.
  intros HW A Hl. unfold write_row. apply safe_bind, safe_ret. rewrite decide_False by naive_solver.
  eapply safe_mono; [apply safe_file, safe_wp, (write_frame uint_korr sint_korr float_korr ha_keytype _ _ rec (am_handle _ _ A)); [|done]|].
  { intros i Hi. by apply (am_range _ _ A). }
  intros e h2 (d & -> & (Hd & K & Ek & Hw) & Ex & G). constructor; cbn; [|constructor; [done|..]|done].
  - apply among_file; try done. eapply inx_step; [apply A|apply K|by eapply among_keys|done].
  - intros i g r Hi [Ht Hg]. assert (Hr : 0 ≤ i < total_slots (core (file h))) by (apply (am_range _ _ A); set_solver).
    split; [|by rewrite G]. destruct e; try done; cbn in Hw.
    + destruct Hw as (idx & gi & _ & Hnone & -> & _). rewrite lookup_insert_ne; [done|]. intros ->. congruence.
    + by destruct Hw as (-> & _).
    + by destruct Hw as (-> & _).
    + by destruct Hw as (-> & _).
  - intros i r. destruct e; try done; cbn in Hw; [destruct Hw as (idx & gi & _ & _ & -> & _)|destruct Hw as (-> & _); by left..].
    intros [[_ <-]|[_ ?]]%lookup_insert_Some; [by right|by left].
Qed.
End changes.

(** ** The other calls *)

(** A look at the rows that keeps them. *)
Lemma look_post others h h' : among others h → core (file h') = core (file h) → keydefs (file h') = keydefs (file h) → held_of h' = held_of h →
  -1 ≤ lastinx (info (file h')) < keys (core (file h)) → FM_NULL_SLOT ≤ current_slot (info (file h')) < total_slots (core (file h)) →
  0 ≤ scan_pos (info (file h')) ≤ total_slots (core (file h)) → call_post others h h'.
Proof.
  intros A Ec Ek Eh Hi Hs Hp. constructor; [|by rewrite Ec|done]. constructor; rewrite ?Eh, ?Ec; [|apply A..|unfold inx_ok; by rewrite Ec].
  eapply (handle_ok_step _ _ (file h)); rewrite ?Ec; [apply A|apply (am_handle _ _ A)|by constructor|done..].
Qed.

(** A change of the auto-increment counter alone. *)
Lemma auto_post others h v : among others h → call_post others h (h_file (d_core (with_auto_inc v (core (file h))) (file h)) h).
Proof.
  intros A. assert (K : kept (core (file h)) (with_auto_inc v (core (file h)))) by by constructor. constructor; cbn; [|constructor; [done|done|by left]|done].
  apply among_file; [done| |done|apply A]. eapply (handle_ok_step _ _ (file h)); cbn; [apply A|apply wf_auto_inc, (am_handle _ _ A)|done|done|apply (am_handle _ _ A)..].
Qed.

Lemma set_auto_any value s : wp (fm_set_auto_increment value) (λ _ s', ∃ v, s' = with_auto_inc v s) s.
Proof.
  unfold fm_set_auto_increment. cbv zeta. wp_step @get_run. case_match; [eapply wp_run; [apply modify_run|]; by eexists|].
  apply wp_ret. exists (auto_inc s). by destruct s.
Qed.

Lemma get_auto_any offset inc nb s : wp (fm_get_auto_increment offset inc nb) (λ _ s', ∃ v, s' = with_auto_inc v s) s.
Proof.
  unfold fm_get_auto_increment. apply wp_bind. apply (wp_mono _ (λ _ s', ∃ v, s' = with_auto_inc v s)).
  - unfold fm_core_auto_inc_reserve. wp_step @get_run. destruct (reserve_pass _ _ _ _) as [[v last]|].
    + wp_step @modify_run. apply wp_ret. by eexists.
    + apply wp_ret. exists (auto_inc s). by destruct s.
  - intros r s' Hv. case_decide; by apply wp_ret.
Qed.

Lemma on_auto {A} others h (m : SM A) : among others h → wp m (λ _ s', ∃ v, s' = with_auto_inc v (core (file h))) (core (file h)) →
  safe (others ≠ ∅) (on_file (on_core m)) (λ _ h', call_post others h h') h.
Proof.
  intros A0 Hm. eapply safe_mono; [apply safe_wp, wp_on_file, wp_on_core, Hm|]. intros a h' (d & -> & c & -> & v & ->). by apply auto_post.
Qed.

Lemma set_auto_among others h value : among others h → safe (others ≠ ∅) (reset_auto_increment value) (λ _ h', call_post others h h') h.
Proof. intros A. unfold reset_auto_increment. safe_use (on_auto others h (fm_set_auto_increment value) A (set_auto_any _ _)). intros _ h' C. by apply safe_ret. Qed.

Lemma get_auto_among others h offset inc nb : among others h → safe (others ≠ ∅) (get_auto_increment offset inc nb) (λ _ h', call_post others h h') h.
Proof.
  intros A. unfold get_auto_increment. safe_use (on_auto others h (fm_get_auto_increment offset inc nb) A (get_auto_any _ _ _ _)). intros r h' C. apply safe_bind.
  apply (safe_mono _ _ (λ _ h2, call_post others h h2)); [|intros _ h2 C2; by apply safe_ret]. case_decide; [|by apply safe_ret].
  unfold h_fail, fail. safe_step @on_file_run; [reflexivity|]. apply safe_ret. eapply call_post_trans; [exact C|]. constructor; [apply among_errno, C|done|done].
Qed.

(** The lookup of the row with the unique key of a record. *)
Lemma unique_among get_rec_bits others h record idx : among others h → 0 ≤ idx < keys (core (file h)) →
  safe (others ≠ ∅) (find_unique_row get_rec_bits record idx) (λ r h', call_post others h h' ∧ (r.1 = 0 → at_row h' r.2)) h.
Proof.
  intros A Hk. pose proof (am_handle _ _ A) as H. pose proof (ho_wf _ _ H) as Hwf. pose proof (ho_scan _ _ H). pose proof (ho_slot _ _ H). pose proof (am_inx _ _ A) as Hx.
  destruct (key_at_is_Some _ _ (wf_static _ _ Hwf) Hk) as (kc & ? & Hkc & _). destruct (ho_keys _ _ H idx Hk) as [kd Hkd].
  unfold find_unique_row. safe_step @get_run. safe_step @unwrap_run; [exact Hkd|]. destruct (flag_nosame kd); cbn [negb]; [|apply safe_ret; split; [by constructor|done]].
  unfold upd_info. safe_step @on_file_run; [apply modify_run|]. safe_step @get_run. cbn [file h_file info d_info lastkey in_lastkey scratch]. set (pk := fm_make_key _ _ _).
  destruct (lookup_chain _ (core (file h)) Hwf idx Hk kc Hkc pk) as (hd & l & Hh & Hl & Hnd & Hin & Hf & _).
  destruct (fm_core_find_run _ (core (file h)) Hwf idx Hk kc Hkc pk (scratch (info (file h))) (-1) l ltac:(eauto) Hin Hf) as (buf' & Hrun & Hrow).
  safe_step @on_file_run; [apply on_core_run; exact Hrun|]. destruct (list_find _ l) as [[n i]|] eqn:Hfind; cbn [fst snd].
  2: { safe_step @on_file_run; [apply modify_run|]. rewrite decide_True by done. apply safe_ret. split; [|done]. by apply look_post. }
  destruct (found_row _ _ H _ _ (Hrow n i eq_refl)) as (g & Hg & Hi & Hr).
  safe_step @on_file_run; [apply modify_run|]. rewrite decide_False by naive_solver.
  safe_step @on_file_run; [by apply on_core_run, slot_gen_run|]. safe_step @on_file_run; [apply modify_run|].
  safe_step @unwrap_run; [apply memcpy_all; cbn; by eapply table_length, Hr|].
  match goal with |- safe _ _ _ ?x => set (h1 := x) end. assert (C1 : call_post others h h1) by (apply look_post; cbn; unfold FM_NULL_SLOT; try done; lia).
  destruct (write_stmt _) eqn:Hw; [|apply safe_ret; split; [done|]; intros _; split; [cbn; lia|]; split; [exact Hr|]; cbn in *; congruence].
  eapply safe_bind_then; [apply (lock_read_among others h1 buf'); [apply C1|cbn; lia]|]. intros [rc rec] h2 (A2 & F2 & K2 & Hcase). cbn [fst snd] in Hcase.
  assert (C2 : call_post others h h2) by (eapply call_post_trans; [exact C1|by constructor]). destruct Hcase as [[-> Hat]| ->].
  - rewrite decide_False by naive_solver. by apply safe_ret.
  - rewrite decide_True by done. apply safe_bind. eapply safe_mono; [apply safe_wp, unlock_among, A2|]. intros _ h3 (A3 & _ & L). apply safe_ret.
    split; [|done]. eapply call_post_trans; [exact C2|by apply lock_step_post].
Qed.

Lemma clear_among h : among ∅ h → held_of h = ∅ → wp delete_all_rows (λ _ h', call_post ∅ h h' ∧ table (core (file h')) = ∅) h.
Proof.
  intros A Hh. pose proof (am_handle _ _ A) as H. rewrite Hh, union_empty_l_L in H. pose proof (among_keys _ _ A).
  unfold delete_all_rows, fm_clear, upd_info. apply wp_bind. eapply wp_mono; [apply wp_on_file|].
  - wp_core (clear_spec _ (ho_wf _ _ H)). intros _ d1 (c & -> & Hc). eapply wp_run; [apply modify_run|].
    instantiate (1 := λ _ d, ∃ i c, d = d_info i (d_core c (file h)) ∧ clear_post (core (file h)) c ∧ current_slot i = -1 ∧ lastinx i = -1 ∧ scan_pos i = scan_pos (info (file h))).
    by eexists _, c.
  - intros _ h' (d & -> & i & c & -> & [Hwf Hcf Ht Htab _] & Es & Ex & Ep). apply wp_ret. split; [|exact Htab]. pose proof (ho_scan _ _ H). pose proof (ho_slot _ _ H).
    assert (K : kept (core (file h)) c) by (apply kept_config; [done|lia]). constructor; cbn; [|constructor; [done|set_solver|rewrite Htab; done]|done].
    apply among_file; cbn; [done| |done|unfold inx_ok; cbn; rewrite Ex, (kp_keys _ _ K); lia]. rewrite Hh, union_empty_l_L.
    eapply (handle_ok_step ∅ ∅ (file h)); cbn; [done|done|done|done|rewrite Es, Ht; unfold FM_NULL_SLOT in *; lia|rewrite Ep, Ht; lia].
Qed.

(** * All sessions *)

Definition session_held (x : session) : gset Z := if se_locked x then {[ se_slot x ]} else ∅.

(** The slots that some sessions have locked. *)
Definition locks_of (m : gmap nat session) : gset Z := map_fold (λ _ x acc, session_held x ∪ acc) ∅ m.

Lemma elem_of_locks m k : k ∈ locks_of m ↔ ∃ i x, m !! i = Some x ∧ k ∈ session_held x.
Proof.
  unfold locks_of. induction m as [|i x m Hi IH] using map_ind.
  - rewrite map_fold_empty. split; [set_solver|]. intros (i & x & Hx & _). by rewrite lookup_empty in Hx.
  - rewrite map_fold_insert_L; [|intros; set_solver|done]. rewrite elem_of_union, IH. split.
    + intros [Hk|(j & y & Hj & Hk)]; [exists i, x; by rewrite lookup_insert_eq|]. exists j, y. rewrite lookup_insert_ne; [done|]. intros ->. congruence.
    + intros (j & y & [[-> ->]|[Hne Hj]]%lookup_insert_Some & Hk); [by left|right; eauto].
Qed.

(** The slots that sessions other than [i] have locked. *)
Definition others (i : nat) (s : db) : gset Z := locks_of (delete i (sessions s)).

Definition db_ok (s : db) : Prop := ∀ i x, sessions s !! i = Some x → among (others i s) (as_handler s x).

Lemma as_handler_session h m : as_handler (mkDb (core (file h)) (keydefs (file h)) m) (as_session h) = h.
Proof. by destruct h as [[] ? ? ?]. Qed.

Lemma held_session s x : held_of (as_handler s x) = session_held x.
Proof. done. Qed.

Lemma others_spec i s k : k ∈ others i s ↔ ∃ j x, j ≠ i ∧ sessions s !! j = Some x ∧ k ∈ session_held x.
Proof.
  unfold others. rewrite elem_of_locks. setoid_rewrite lookup_delete_Some. split; intros (j & x & H); exists j, x; naive_solver.
Qed.

Section safety.
Context (uint_korr sint_korr float_korr : Z → bytes → Z) (ha_keytype : Z → auto_type).
Context (update_auto_increment : bytes → HM (ha_err * bytes)) (get_rec_bits : bytes → Z → Z → Z).

Abbreviation run_call := (run_call uint_korr sint_korr float_korr ha_keytype update_auto_increment get_rec_bits).
Abbreviation db_call := (db_call uint_korr sint_korr float_korr ha_keytype update_auto_increment get_rec_bits).
Abbreviation db_exec := (db_exec uint_korr sint_korr float_korr ha_keytype update_auto_increment get_rec_bits).

Lemma read_call others h r h' : read_post others h r h' → call_post others h h'.
Proof. intros []. by constructor. Qed.

Lemma reset_among others h : among others h → safe (others ≠ ∅) reset (λ _ h', call_post others h h') h.
Proof.
  intros A. unfold reset. apply safe_bind. eapply safe_mono; [apply safe_wp, (unlock_among others h A)|]. intros _ h1 (A1 & Hr & L).
  eapply safe_run; [apply on_file_run; unfold fm_reset, upd_info; reflexivity|]. eapply call_post_trans; [by apply lock_step_post|].
  pose proof (ho_slot _ _ (am_handle _ _ A1)). pose proof (ho_scan _ _ (am_handle _ _ A1)). pose proof (among_keys _ _ A1).
  constructor; cbn; [|done|done]. apply among_file; cbn; [done| |by constructor|unfold inx_ok; cbn; lia].
  eapply (handle_ok_step _ _ (file h1)); cbn; [apply A1|apply (am_handle _ _ A1)|by constructor|done|unfold FM_NULL_SLOT; lia|lia].
Qed.

Lemma call_among (s : db) x c others : Forall W (stored c) → among others (as_handler s x) → call_ok s x c → (c = SClear → others = ∅ ∧ held_of (as_handler s x) = ∅) →
  safe (others ≠ ∅) (run_call c) (λ _ h', call_post others (as_handler s x) h') (as_handler s x).
Proof.
  intros HW A Hok Hclear. set (h := as_handler s x) in *.
  assert (Hret : ∀ (m : HM ha_err), safe (others ≠ ∅) m (λ _ h', call_post others h h') h →
    safe (others ≠ ∅) (e ← m; mret (e, [] : bytes)) (λ _ h', call_post others h h') h).
  { intros m Hm. apply safe_bind. eapply safe_mono; [exact Hm|]. intros e h' C. by apply safe_ret. }
  destruct c as [mode|scan|buf|buf pos|index buf key|buf|rec|old new|buf| |record idx| |offset inc nb|value]; cbn [Sessions.run_call].
  - apply Hret. unfold external_lock. destruct mode.
    + apply safe_bind, safe_ret, safe_ret. by constructor.
    + safe_step @modify_run. apply safe_ret. constructor; [|done|done]. by destruct A.
    + apply safe_bind. safe_step @modify_run.
      eapply safe_mono; [apply safe_wp, (unlock_among others (h_write_stmt false h)); by destruct A|]. intros _ h' (A' & _ & L). apply safe_ret.
      eapply (call_post_trans _ _ (h_write_stmt false h)); [constructor; [|done|done]; by destruct A|by apply lock_step_post].
  - apply Hret. unfold rnd_init. destruct scan; [|apply safe_ret; by constructor].
    apply (reset_among others h A).
  - eapply safe_mono; [by apply rnd_next_among|]. intros r h'. apply read_call.
  - eapply safe_mono; [by apply rnd_pos_among|]. intros r h'. apply read_call.
  - eapply safe_mono; [by apply index_read_among|]. intros r h'. apply read_call.
  - eapply safe_mono; [by apply index_next_among|]. intros r h'. apply read_call.
  - apply Hret. apply Forall_cons in HW as [HW _]. by apply write_among.
  - apply Hret. destruct Hok. apply Forall_cons in HW as [HW _]. eapply safe_mono; [by apply update_among|]. by intros ? ? [? _].
  - apply Hret. eapply safe_mono; [by apply delete_among|]. by intros ? ? [? _].
  - apply Hret. by apply reset_among.
  - apply safe_bind. eapply safe_mono; [by apply unique_among|]. intros [rc rec] h' [C _]. by apply safe_ret.
  - apply Hret. destruct (Hclear eq_refl) as [-> Hh]. eapply safe_mono; [by apply safe_wp, clear_among|]. by intros ? ? [? _].
  - apply safe_bind. eapply safe_mono; [by apply get_auto_among|]. intros r h' C. by apply safe_ret.
  - apply Hret. by apply set_auto_among.
Qed.

(** One session has moved on; the others see rows of theirs unchanged. *)
Lemma db_step_ok i x h' s : db_ok s → sessions s !! i = Some x → call_post (others i s) (as_handler s x) h' →
  db_ok (mkDb (core (file h')) (keydefs (file h')) (<[i := as_session h']> (sessions s))).
Proof.
  intros Hok Hi [A' F' K'] j y Hj. set (s' := mkDb _ _ _) in *. cbn in Hj. destruct (decide (j = i)) as [->|Hne].
  - rewrite lookup_insert_eq in Hj. injection Hj as <-.
    replace (others i s') with (others i s); [unfold s'; by rewrite as_handler_session|]. unfold others, s'. cbn. by rewrite delete_insert_eq.
  - rewrite lookup_insert_ne in Hj by done. pose proof (Hok j y Hj) as A. pose proof (fa_kept _ _ _ F') as K. cbn in K.
    assert (Ho : ∀ k, k ∈ others j s' ↔ k ∈ held_of h' ∨ ∃ j2 z, j2 ≠ j ∧ j2 ≠ i ∧ sessions s !! j2 = Some z ∧ k ∈ session_held z).
    { intros k. rewrite others_spec. change (sessions s') with (<[i := as_session h']> (sessions s)). split.
      - intros (j2 & z & Hne2 & [[<- <-]|[Hne3 Hz]]%lookup_insert_Some & Hk); [by left|right; by exists j2, z].
      - intros [Hk|(j2 & z & Hne2 & Hne3 & Hz & Hk)].
        + exists i, (as_session h'). split; [done|]. split; [apply lookup_insert_eq|done].
        + exists j2, z. split; [done|]. by rewrite lookup_insert_ne. }
    assert (Hset : session_held y ∪ others j s' = held_of h' ∪ others i s).
    { apply set_eq. intros k. rewrite !elem_of_union, Ho, others_spec. split.
      - intros [Hk|[Hk|(j2 & z & Hne2 & Hne3 & Hz & Hk)]]; [right; by exists j, y|by left|right; by exists j2, z].
      - intros [Hk|(j2 & z & Hne2 & Hz & Hk)]; [by right; left|].
        destruct (decide (j2 = j)) as [->|]; [left; by simplify_eq|]. right; right. by exists j2, z. }
    pose proof (ho_slot _ _ (am_handle _ _ A)) as Hs. pose proof (ho_scan _ _ (am_handle _ _ A)) as Hp. pose proof (kp_total _ _ K). constructor.
    + rewrite held_session, Hset. eapply (handle_ok_step _ _ (file (as_handler s y))); cbn in *; [apply A|apply (am_handle _ _ A')|done|done|lia|lia].
    + rewrite held_session, Hset. apply (am_range _ _ A').
    + rewrite held_session. intros k Hk [Hk2|(j2 & z & Hne2 & Hne3 & Hz & Hk2)]%Ho.
      * apply (am_disj _ _ A' k); [exact Hk2|]. apply others_spec. by exists j, y.
      * apply (am_disj _ _ A k); [exact Hk|]. apply others_spec. by exists j2, z.
    + pose proof (am_inx _ _ A) as Hx. unfold inx_ok in *. cbn in *. by rewrite (kp_keys _ _ K).
Qed.

(** A session that deletes all rows meets no row lock. *)
Lemma clear_free i x c s : sessions s !! i = Some x → call_ok s x c → c = SClear → others i s = ∅ ∧ held_of (as_handler s x) = ∅.
Proof.
  intros Hi Hc ->. cbn in Hc. split; [|rewrite held_session; unfold session_held; by rewrite (Hc i x Hi)].
  apply set_eq. intros k. rewrite others_spec. split; [|set_solver]. intros (j & y & _ & Hj & Hk). unfold session_held in Hk. by rewrite (Hc j y Hj) in Hk.
Qed.

Lemma db_call_ok i x c s : Forall W (stored c) → db_ok s → sessions s !! i = Some x → call_ok s x c →
  match db_call i c s with
  | Ret (r, s') => db_ok s' ∧ fair (others i s) (share s) (share s') ∧ db_keydefs s' = db_keydefs s ∧ ∀ j, j ≠ i → sessions s' !! j = sessions s !! j
  | Hang => ∃ j y, j ≠ i ∧ sessions s !! j = Some y ∧ se_locked y = true
  | Ub => False
  end.
Proof.
  intros HW Hok Hi Hc. unfold Sessions.db_call. rewrite Hi. pose proof (call_among s x c (others i s) HW (Hok i x Hi) Hc (clear_free i x c s Hi Hc)) as Hs. unfold safe in Hs.
  destruct (run_call c (as_handler s x)) as [[r h']| |]; [|done|].
  - split; [by eapply db_step_ok|]. split; [apply Hs|]. split; [apply Hs|]. intros j Hj. cbn. by rewrite lookup_insert_ne.
  - apply set_choose_L in Hs as [k (j & y & Hj & Hy & Hk)%others_spec]. exists j, y. unfold session_held in Hk. destruct (se_locked y); [done|set_solver].
Qed.

End safety.
End calls.

(** * Interleavings *)

Section interleavings.
Context (uint_korr sint_korr float_korr : Z → bytes → Z) (ha_keytype : Z → auto_type).
Context (update_auto_increment : bytes → HM (ha_err * bytes)) (get_rec_bits : bytes → Z → Z → Z).

Abbreviation db_call := (db_call uint_korr sint_korr float_korr ha_keytype update_auto_increment get_rec_bits).
Abbreviation db_exec := (db_exec uint_korr sint_korr float_korr ha_keytype update_auto_increment get_rec_bits).
Abbreviation any_record := (λ _ : bytes, True).

Lemma all_stored c : Forall any_record (stored c).
Proof. by apply Forall_forall. Qed.

Lemma db_exec_ok s tr s' : db_ok s → db_exec s tr s' → db_ok s'.
Proof.
  intros Hok He. induction He as [|s i x c r s1 tr s2 Hi Hc E He IH]; [done|]. apply IH.
  pose proof (db_call_ok any_record uint_korr sint_korr float_korr ha_keytype update_auto_increment get_rec_bits i x c s (all_stored c) Hok Hi Hc) as H. rewrite E in H. apply H.
Qed.

(** The row that a session holds stays while the others make calls. *)
Lemma db_exec_row i x s tr s' rec : db_ok s → sessions s !! i = Some x → se_write x = true → at_row (as_handler s x) rec →
  db_exec s tr s' → Forall (λ t : nat * call * (ha_err * bytes), t.1.1 ≠ i) tr →
  sessions s' !! i = Some x ∧ at_row (as_handler s' x) rec.
Proof.
  intros Hok Hi Hw Hrow He Htr. induction He as [|s j y c r s1 tr s2 Hj Hc E He IH]; [done|].
  inversion Htr as [|? ? Hne Htr']; subst. cbn in Hne. pose proof (db_call_ok any_record uint_korr sint_korr float_korr ha_keytype update_auto_increment get_rec_bits j y c s (all_stored c) Hok Hj Hc) as H. rewrite E in H.
  destruct H as (Hok1 & F & _ & Hs). apply IH; [done|by rewrite Hs| |done].
  destruct Hrow as (H0 & Hr & Hh). split; [done|]. split; [|done]. apply (fa_rows _ _ _ _ F); [|done]. apply others_spec. exists i, x.
  split; [done|]. split; [done|]. specialize (Hh Hw). apply andb_true_iff in Hh as [Hl Hb%bool_decide_eq_true]. unfold session_held.
  cbn in Hl, Hb. rewrite Hl, Hb. by apply elem_of_singleton.
Qed.

(** An insert always returns: it takes no row lock of another session. *)
Lemma write_returns i x rec s : db_ok s → sessions s !! i = Some x → Z.of_nat (length rec) = reclength (share s) →
  ∃ e s', db_call i (SWrite rec) s = Ret ((e, []), s') ∧ kept (share s) (share s').
Proof.
  intros Hok Hi Hl. pose proof (Hok i x Hi) as A.
  destruct (write_frame uint_korr sint_korr float_korr ha_keytype _ (file (as_handler s x)) rec (am_handle _ _ A)
    (λ i Hi, proj2 (am_range _ _ A i Hi)) Hl) as (e & d' & Hw & (_ & K & _) & _).
  exists e. eexists. unfold Sessions.db_call. rewrite Hi. cbn [Sessions.run_call].
  unfold write_row, on_file, mbind, M_bind, mret, M_ret. rewrite decide_False by naive_solver. rewrite Hw. split; [done|exact K].
Qed.

(** The update of a row that the session holds returns. *)
Lemma update_held others h old new : among others h → write_stmt h = true → at_row h old → Z.of_nat (length new) = reclength (core (file h)) →
  wp (update_row uint_korr sint_korr float_korr ha_keytype old new) (λ e h', call_post any_record others h h' ∧ row_locked h' = false ∧
    (e = HA_OK ∧ table (core (file h')) = <[cur_slot h := new]> (table (core (file h))) ∨
     e = HA_ERR_FOUND_DUPP_KEY ∧ table (core (file h')) = table (core (file h)) ∧ ∃ k, 0 ≤ k < keys (core (file h)) ∧
       changed_key (core (file h)) old new k ∧ conflict (core (file h)) k new)) h.
Proof.
  intros A Hw (H0 & Hrow & Hh) Hln. specialize (Hh Hw). destruct (holds_among others h A Hh) as [_ Ho]. unfold update_row.
  wp_step (ensure_locked_held h Hw Hh).
  assert (Hlo : Z.of_nat (length old) = reclength (core (file h))).
  { destruct Hrow as [Ht _]. by eapply table_length; [apply (am_handle _ _ A)|]. }
  apply wp_bind. eapply wp_mono; [apply wp_on_file, (update_locked_frame uint_korr sint_korr float_korr ha_keytype _ (file h) (cur_slot h)
    (current_gen (info (file h))) old new (am_handle _ _ A)); [by split|done| |done]|].
  { split; [done|right]. intros r Hr. destruct Hrow, Hr. congruence. }
  intros e h2 (d & -> & (Hd & K & _ & Hu) & Ek & Ex & G).
  assert (A2 : among others (h_file d h)). { apply among_file; try done. eapply inx_step; [apply A|apply K|by eapply among_keys|done]. }
  apply wp_bind. eapply wp_mono; [apply (unlock_among others _ A2)|]. intros _ h3 (A3 & Hr3 & L3). apply wp_ret.
  pose proof (sr_table _ _ (ls_rows _ _ L3)) as Et. cbn in Et. rewrite Et.
  assert (Ht : ∀ i, i ≠ cur_slot h → table (core d) !! i = table (core (file h)) !! i).
  { intros i Hne. destruct e; try done; cbn in Hu; [destruct Hu as (_ & -> & _); by rewrite lookup_insert_ne|by destruct Hu as (-> & _)..]. }
  split; [|split; [done|]].
  - constructor; [done| |rewrite (ls_keydefs _ _ L3); exact Ek]. etrans; [eapply fair_one; [done..|by right]|apply same_rows_fair, L3].
  - destruct e; try done; cbn in Hu.
    + left. by destruct Hu as (_ & -> & _).
    + destruct Hu as [_ Hn]. by destruct (Hn old).
    + right. destruct Hu as (-> & k & _ & Hk & Hch & Hc). split; [done|]. split; [done|]. by exists k.
    + destruct Hu as (_ & _ & r & Hr & Hne). destruct Hrow, Hr. congruence.
Qed.
End interleavings.

(** * Opening sessions *)

(** A session that has just been opened. *)
Definition new_session (x : session) : Prop :=
  se_locked x = false ∧ current_slot (se_info x) = -1 ∧ scan_pos (se_info x) = 0 ∧ lastinx (se_info x) = -1.

Lemma db_ok_single i h : handler_ok h → inx_ok (file h) →
  db_ok (mkDb (core (file h)) (keydefs (file h)) {[ i := as_session h ]}).
Proof.
  intros [H Hl] Hx j y Hj. cbn in Hj. apply lookup_singleton_Some in Hj as [<- <-]. rewrite as_handler_session.
  assert (E : others i (mkDb (core (file h)) (keydefs (file h)) {[ i := as_session h ]}) = ∅).
  { apply set_eq. intros k. rewrite others_spec. cbn. split; [|set_solver]. intros (j & y & Hne & [-> _]%lookup_singleton_Some & _). done. }
  rewrite E. constructor; [by rewrite union_empty_r_L| |set_solver|done]. intros k. rewrite union_empty_r_L. unfold held_of.
  destruct (row_locked h); [|set_solver]. intros ->%elem_of_singleton. by apply Hl.
Qed.

(** A session can be opened at any time. *)
Lemma db_ok_open i j x y s : db_ok s → sessions s !! j = Some y → sessions s !! i = None → new_session x →
  db_ok (mkDb (share s) (db_keydefs s) (<[i := x]> (sessions s))).
Proof.
  intros Hok Hj Hi (Hl & Hc & Hp & Hx). set (s' := mkDb _ _ _).
  assert (Hh : session_held x = ∅) by (unfold session_held; by rewrite Hl).
  assert (Ho : ∀ k m, m ∈ others k s' ↔ m ∈ others k s).
  { intros k m. rewrite !others_spec. change (sessions s') with (<[i := x]> (sessions s)). split.
    - intros (j2 & z & Hne & [[<- <-]|[Hne2 Hz]]%lookup_insert_Some & Hm); [rewrite Hh in Hm; set_solver|by exists j2, z].
    - intros (j2 & z & Hne & Hz & Hm). exists j2, z. split; [done|]. rewrite lookup_insert_ne; [done|]. intros ->. congruence. }
  assert (Ho' : ∀ k, others k s' = others k s) by (intros k; apply set_eq; intros m; apply Ho).
  intros k z Hk. cbn in Hk. apply lookup_insert_Some in Hk as [[<- <-]|[Hne Hz]]; rewrite Ho'; [|exact (Hok k z Hz)].
  pose proof (Hok j y Hj) as A. pose proof (ho_slot _ _ (am_handle _ _ A)). pose proof (ho_scan _ _ (am_handle _ _ A)). pose proof (among_keys _ _ A).
  assert (E : session_held y ∪ others j s = others i s).
  { apply set_eq. intros m. rewrite elem_of_union, !others_spec. split.
    - intros [Hm|(j2 & z & Hne & Hz & Hm)]; [exists j, y|exists j2, z]; (split; [|done]); intros ->; congruence.
    - intros (j2 & z & Hne & Hz & Hm). destruct (decide (j2 = j)) as [->|]; [left; by simplify_eq|right; by exists j2, z]. }
  constructor; rewrite ?held_session, ?Hh, ?union_empty_l_L, <-?E.
  - eapply (handle_ok_step _ _ (file (as_handler s y))); cbn in *; [apply A|apply (am_handle _ _ A)|by constructor|done|rewrite Hc; unfold FM_NULL_SLOT in *; lia|rewrite Hp; lia].
  - apply (am_range _ _ A).
  - set_solver.
  - unfold inx_ok. cbn in *. rewrite Hx. lia.
Qed.

(** * Properties *)

(** C12: Read-modify-write is atomic.  A session has read a row in a write statement.  Whatever calls
    the other sessions make then, the row is still there with the image it read; and its update of
    the row returns - it does not wait - and replaces exactly that image, or refuses new values
    that repeat a unique key and changes nothing. *)
Theorem session_rmw uint_korr sint_korr float_korr ha_keytype update_auto_increment get_rec_bits i x s tr s' old new :
  db_ok s → sessions s !! i = Some x → se_write x = true → at_row (as_handler s x) old →
  db_exec uint_korr sint_korr float_korr ha_keytype update_auto_increment get_rec_bits s tr s' →
  Forall (λ t : nat * call * (ha_err * bytes), t.1.1 ≠ i) tr → Z.of_nat (length new) = reclength (share s') →
  table (share s') !! current_slot (se_info x) = Some old ∧
  ∃ e s'', db_call uint_korr sint_korr float_korr ha_keytype update_auto_increment get_rec_bits i (SUpdate old new) s' = Ret ((e, []), s'') ∧ db_ok s'' ∧
    (e = HA_OK ∧ table (share s'') = <[current_slot (se_info x) := new]> (table (share s')) ∨
     e = HA_ERR_FOUND_DUPP_KEY ∧ table (share s'') = table (share s') ∧ ∃ k, 0 ≤ k < keys (share s') ∧
       changed_key (share s') old new k ∧ conflict (share s') k new).
Proof.
  intros Hok Hi Hw Hrow He Htr Hln. pose proof (db_exec_ok _ _ _ _ _ _ _ _ _ Hok He) as Hok'.
  destruct (db_exec_row _ _ _ _ _ _ _ _ _ _ _ _ Hok Hi Hw Hrow He Htr) as [Hi' Hrow'].
  split; [by destruct Hrow' as (_ & [? _] & _)|].
  destruct (update_held uint_korr sint_korr float_korr ha_keytype _ _ old new (Hok' i x Hi') Hw Hrow' Hln) as (e & h' & Hrun & C & _ & Hcase).
  exists e. eexists. split; [|split; [by eapply db_step_ok|exact Hcase]].
  unfold db_call. rewrite Hi'. cbn [run_call]. by rewrite (bind_Ret _ _ _ _ _ Hrun).
Qed.
