(* ===== verification/Buffers.v ===== *)
(** The buffers behind the calls of a session: which bytes of keys and records the routines of
    src/fm_hash.cc and src/fm_data.cc touch.  The routines get bare pointers; here every access is
    a range of a buffer, a call whose accesses leave a buffer is undefined, and sessions that keep
    to the format of the server's keys and records never make one. *)

From S2P Require Import Prelude CoreState CoreOps RowOps Shape Inv Chains Reads Alloc Freelist Steps Insert Delete Lockset Update Clear Lifecycle Spec AutoInc Hash Create Data DataSpec Handler HandlerSpec Sessions.

(** * Ranges *)

(** [n] bytes from [off] on, written [(off, n)], lie inside a buffer of [size] bytes. *)
Definition inside (size : Z) (r : Z * Z) : bool := bool_decide (r.2 ≤ 0 ∨ 0 ≤ r.1 ∧ r.1 + r.2 ≤ size).
Definition within (b : bytes) (rs : list (Z * Z)) : bool := forallb (inside (Z.of_nat (length b))) rs.

#[export] Instance has_bits_dec sg : Decision (has_bits sg).
Proof. unfold has_bits. apply _. Defined.

(** The bytes of a segment in a packed key. *)
Definition key_step (sg : HA_KEYSEG) : Z :=
  seg_length sg + (if decide (null_bit sg ≠ 0) then 1 else 0) + (if is_var sg then 2 else 0).

(** How many bytes [auto_value] loads. *)
Definition auto_width (t : auto_type) : Z :=
  match t with
  | AT_INT8 | AT_BINARY => 1
  | AT_SHORT_INT | AT_USHORT_INT => 2
  | AT_INT24 | AT_UINT24 => 3
  | AT_LONG_INT | AT_ULONG_INT | AT_FLOAT => 4
  | AT_DOUBLE | AT_LONGLONG | AT_ULONGLONG => 8
  | AT_OTHER => 0
  end.

Section touches.
(** [bits_bytes bit_start bit_length] is how many bytes the server's [get_rec_bits] loads. *)
Context (uint2korr : bytes → Z) (bits_bytes : Z → Z → Z).

(** ** Packed keys *)

(** What [fm_hashnr] reads of a segment that is not NULL, [pos] being its first byte, at [off]. *)
Definition hash_body_reads (sg : HA_KEYSEG) (off : Z) (pos : bytes) : list (Z * Z) :=
  match seg_type sg with
  | HA_KEYTYPE_VARTEXT1 => [(off, 2); (off + 2, uint2korr pos)]
  | _ => [(off, seg_length sg)]
  end.

(** What [fm_hashnr] reads of a packed key, [key] being what is left of it at [off]. *)
Fixpoint hash_key_reads (segs : list HA_KEYSEG) (off : Z) (key : bytes) : list (Z * Z) :=
  match segs with
  | [] => []
  | sg :: segs' =>
      (if decide (null_bit sg ≠ 0) then
         (off, 1) :: (if decide (byte_at key 0 ≠ 0) then [] else hash_body_reads sg (off + 1) (from 1 key))
       else hash_body_reads sg off key) ++
      hash_key_reads segs' (off + key_step sg) (from (key_step sg) key)
  end.

(** What [fm_key_cmp] reads of a segment of the key, and how far it steps: one byte too many
    behind odd bits. *)
Definition cmp_body_reads (sg : HA_KEYSEG) (off : Z) (pos : bytes) : list (Z * Z) :=
  match seg_type sg with
  | HA_KEYTYPE_VARTEXT1 => [(off, 2); (off + 2, uint2korr pos)]
  | _ => if decide (has_bits sg) then [(off, 1); (off + 1, seg_length sg - 1)] else [(off, seg_length sg)]
  end.
Definition cmp_step (sg : HA_KEYSEG) (null : bool) : Z :=
  key_step sg + (if decide (has_bits sg ∧ null = false) then 1 else 0).

(** What [fm_key_cmp] reads of a packed key when no segment differs (else it stops earlier). *)
Fixpoint cmp_key_reads (segs : list HA_KEYSEG) (off : Z) (key : bytes) : list (Z * Z) :=
  match segs with
  | [] => []
  | sg :: segs' =>
      let null := bool_decide (null_bit sg ≠ 0 ∧ byte_at key 0 ≠ 0) in
      (if decide (null_bit sg ≠ 0) then
         (off, 1) :: (if null then [] else cmp_body_reads sg (off + 1) (from 1 key))
       else cmp_body_reads sg off key) ++
      cmp_key_reads segs' (off + cmp_step sg null) (from (cmp_step sg null) key)
  end.

(** ** Records *)

(** What [fm_rec_hashnr], [fm_rec_key_cmp], [fm_key_cmp] and [fm_if_null_in_key] read of the
    record for a segment (the comparisons may stop earlier). *)
Definition rec_reads (sg : HA_KEYSEG) (rec : bytes) : list (Z * Z) :=
  (if decide (null_bit sg ≠ 0) then [(null_pos sg, 1)] else []) ++
  (if seg_null sg rec then [] else
   match seg_type sg with
   | HA_KEYTYPE_VARTEXT1 =>
       [(start sg, if decide (bit_start sg = 1) then 1 else 2);
        (start sg + bit_start sg, var_length uint2korr sg (from (start sg) rec))]
   | _ =>
       if decide (has_bits sg) then [(bit_pos sg, bits_bytes (bit_start sg) (bit_length sg)); (start sg, seg_length sg - 1)]
       else [(start sg, seg_length sg)]
   end).

(** What [fm_make_key] reads of the record for a segment, NULL or not. *)
Definition make_reads (sg : HA_KEYSEG) : list (Z * Z) :=
  (if decide (null_bit sg ≠ 0) then [(null_pos sg, 1)] else []) ++
  (if decide (1 < mbmaxlen (charset sg)) then [(start sg, seg_length sg)] else []) ++
  match seg_type sg with
  | HA_KEYTYPE_VARTEXT1 => [(start sg, seg_length sg + bit_start sg)]
  | _ =>
      if decide (has_bits sg) then [(bit_pos sg, bits_bytes (bit_start sg) (bit_length sg)); (start sg, seg_length sg - 1)]
      else [(start sg, seg_length sg)]
  end.

Definition key_of_rec_inside (kd : FM_KEYDEF) (rec : bytes) : bool :=
  within rec (flat_map (λ sg, rec_reads sg rec) (seg kd)).
Definition rec_inside (kds : list FM_KEYDEF) (rec : bytes) : bool := forallb (λ kd, key_of_rec_inside kd rec) kds.

(** A packed key that is hashed, compared with rows, and copied when it is kept. *)
Definition key_inside (kd : FM_KEYDEF) (key : bytes) : bool :=
  within key (hash_key_reads (seg kd) 0 key) && within key (cmp_key_reads (seg kd) 0 key) &&
  (if flag_nosame kd && negb (flag_null_part kd) then true else within key [(0, kd_length kd)]).
End touches.

(** * Calls with their buffers *)

Section server.
Context (uint_korr sint_korr float_korr : Z → bytes → Z) (ha_keytype : Z → auto_type).
Context (update_auto_increment : bytes → HM (ha_err * bytes)) (get_rec_bits : bytes → Z → Z → Z).
Context (bits_bytes : Z → Z → Z).

Definition rows_inside (s : db) : bool :=
  bool_decide (map_Forall (λ _ rec, rec_inside (uint_korr 2) bits_bytes (db_keydefs s) rec = true) (table (share s))).

(** A buffer of one record, to be filled or copied from. *)
Definition whole_record (s : db) (b : bytes) : bool := within b [(0, reclength (share s))].

(** What [fm_update_auto_increment] loads. *)
Definition auto_inside (s : db) (rec : bytes) : bool :=
  if decide (auto_key (share s) = 0) then true else
  match arr_get (db_keydefs s) (auto_key (share s) - 1) ≫= (λ kd, seg kd !! 0%nat) with
  | Some sg => within rec [(start sg, auto_width (ha_keytype (auto_key_type (share s))))]
  | None => false
  end.

(** All that a call may touch of its buffers, of the kept key and of the rows is there. *)
Definition call_inside (s : db) (x : session) (c : call) : bool :=
  let record rec := whole_record s rec && rec_inside (uint_korr 2) bits_bytes (db_keydefs s) rec && auto_inside s rec in
  match c with
  | SNext buf => whole_record s buf
  | SPos buf pos => whole_record s buf && within pos [(0, 8)]
  | SRead index buf key =>
      whole_record s buf && rows_inside s &&
      match arr_get (db_keydefs s) index with Some kd => key_inside (uint_korr 2) kd key | None => false end
  | SReadNext buf =>
      if decide (lastinx (se_info x) < 0) then true else
      whole_record s buf && rows_inside s &&
      match arr_get (db_keydefs s) (lastinx (se_info x)) with
      | Some kd => key_inside (uint_korr 2) kd (lastkey (se_info x)) && within (lastkey (se_info x)) [(0, kd_length kd)]
      | None => false
      end
  | SWrite rec => record rec && rows_inside s
  | SUpdate old_data new_data => record old_data && record new_data && rows_inside s
  | SDelete buf => whole_record s buf && rows_inside s
  | SUnique rec unique_idx =>
      match arr_get (db_keydefs s) unique_idx with
      | Some kd =>
          if flag_nosame kd then
            whole_record s rec && rows_inside s && within rec (flat_map (make_reads bits_bytes) (seg kd)) &&
            key_inside (uint_korr 2) kd (fm_make_key get_rec_bits kd rec)
          else true
      | None => false
      end
  | SLock _ | SScan _ | SReset | SClear | SGetAuto _ _ _ | SSetAuto _ => true
  end.

(** A call, undefined also when it would leave a buffer. *)
Definition checked_call (i : nat) (c : call) (s : db) : outcome ((ha_err * bytes) * db) :=
  match sessions s !! i with
  | None => Ub
  | Some x =>
      if call_inside s x c
      then db_call uint_korr sint_korr float_korr ha_keytype update_auto_increment get_rec_bits i c s else Ub
  end.

(** * What the server's buffers look like *)

(** A packed key: every segment in its place, VARCHAR lengths within the segment. *)
Fixpoint key_fits (segs : list HA_KEYSEG) (key : bytes) : Prop :=
  match segs with
  | [] => True
  | sg :: segs' =>
      key_step sg ≤ Z.of_nat (length key) ∧
      (is_var sg = true → ¬ (null_bit sg ≠ 0 ∧ byte_at key 0 ≠ 0) →
       uint_korr 2 (if decide (null_bit sg ≠ 0) then from 1 key else key) ≤ seg_length sg) ∧
      key_fits segs' (from (key_step sg) key)
  end.

(** A record: as long as the table says, VARCHAR values within it. *)
Definition rec_fits (n : Z) (kds : list FM_KEYDEF) (rec : bytes) : Prop :=
  Z.of_nat (length rec) = n ∧
  ∀ kd sg, kd ∈ kds → sg ∈ seg kd → is_var sg = true → seg_null sg rec = false →
    start sg + bit_start sg + var_length (uint_korr 2) sg (from (start sg) rec) ≤ n.

(** A segment inside records of [n] bytes. *)
Record seg_inside (n : Z) (sg : HA_KEYSEG) : Prop := {
  si_len : 1 ≤ seg_length sg;
  si_start : 0 ≤ start sg;
  si_null : null_bit sg ≠ 0 → 0 ≤ null_pos sg < n;
  si_var : is_var sg = true → (bit_start sg = 1 ∨ bit_start sg = 2) ∧ start sg + bit_start sg + seg_length sg ≤ n;
  si_bits : has_bits sg → 0 ≤ bit_pos sg ∧ bit_pos sg + bits_bytes (bit_start sg) (bit_length sg) ≤ n ∧ start sg + seg_length sg - 1 ≤ n;
  si_plain : is_var sg = false → ¬ has_bits sg → start sg + seg_length sg ≤ n
}.

Record keydef_inside (n : Z) (kd : FM_KEYDEF) : Prop := {
  ki_segs : Forall (seg_inside n) (seg kd);
  ki_bits : bits_last (seg kd);
  ki_length : kd_length kd = foldr (λ sg m, key_step sg + m) 0 (seg kd)
}.

(** A segment of fixed width that [fm_make_key] packs the way [fm_hashnr] reads it. *)
Definition fixed_seg (sg : HA_KEYSEG) : Prop := is_var sg = false ∧ ¬ has_bits sg ∧ mbmaxlen (charset sg) ≤ 1.

(** What the server passes.  [kept] is the index whose packed key the session keeps, if any:
    the next row of an index is asked for only after a lookup that keeps its key. *)
Definition call_fits (s : db) (kept : option Z) (x : session) (c : call) : Prop :=
  let n := reclength (share s) in
  let full b := Z.of_nat (length b) = n in
  match c with
  | SNext buf => full buf
  | SPos buf pos => full buf ∧ length pos = 8%nat
  | SRead index buf key => full buf ∧ ∀ kd, arr_get (db_keydefs s) index = Some kd → key_fits (seg kd) key
  | SReadNext buf => full buf ∧ (0 ≤ lastinx (se_info x) → kept = Some (lastinx (se_info x)))
  | SWrite rec => rec_fits n (db_keydefs s) rec
  | SUpdate old_data new_data => rec_fits n (db_keydefs s) old_data ∧ rec_fits n (db_keydefs s) new_data
  | SUnique rec unique_idx => full rec ∧ ∀ kd, arr_get (db_keydefs s) unique_idx = Some kd → Forall fixed_seg (seg kd)
  | _ => True
  end.

(** The key that a session keeps after a call: a lookup through a key that is not unique, or that
    may be NULL, keeps it; the search for a unique row packs its own. *)
Definition kept_after (s : db) (c : call) (r : ha_err * bytes) (kept : option Z) : option Z :=
  match c with
  | SRead index _ _ =>
      match arr_get (db_keydefs s) index with
      | Some kd =>
          if decide (r.1 ≠ HA_OK) then None else
          if flag_nosame kd && negb (flag_null_part kd) then kept else Some index
      | None => None
      end
  | SUnique _ unique_idx =>
      match arr_get (db_keydefs s) unique_idx with
      | Some kd => if flag_nosame kd then Some unique_idx else kept
      | None => kept
      end
  | _ => kept
  end.

(** An interleaving of checked calls, with the index of every kept key. *)
Inductive checked_exec : db → (nat → option Z) → list (nat * call * (ha_err * bytes)) → db → (nat → option Z) → Prop :=
| checked_nil s K : checked_exec s K [] s K
| checked_cons s K i x c r s1 tr s2 K2 : sessions s !! i = Some x → call_ok s x c → call_fits s (K i) x c →
    checked_call i c s = Ret (r, s1) → checked_exec s1 (λ j, if decide (j = i) then kept_after s c r (K i) else K j) tr s2 K2 →
    checked_exec s K ((i, c, r) :: tr) s2 K2.
End server.

(** * Accesses that stay inside *)

Lemma inside_intro n r : (0 < r.2 → 0 ≤ r.1 ∧ r.1 + r.2 ≤ n) → inside n r = true.
Proof. intros H. apply bool_decide_eq_true. destruct (decide (r.2 ≤ 0)); [by left|right; apply H; lia]. Qed.

Lemma within_cons b r rs : within b (r :: rs) = inside (Z.of_nat (length b)) r && within b rs.
Proof. done. Qed.

Lemma forallb_flat {A B} (p : B → bool) (f : A → list B) l : (∀ a, a ∈ l → forallb p (f a) = true) → forallb p (flat_map f l) = true.
Proof.
  induction l as [|a l IH]; intros H; [done|]. cbn. rewrite forallb_app, H, IH; [done| |left]. intros b Hb. apply H. by right.
Qed.

Lemma length_from i b : 0 ≤ i ≤ Z.of_nat (length b) → Z.of_nat (length (from i b)) = Z.of_nat (length b) - i.
Proof. intros H. unfold from. rewrite length_drop. lia. Qed.

Lemma whole_inside n (b : bytes) : Z.of_nat (length b) = n → within b [(0, n)] = true.
Proof. intros H. rewrite within_cons. rewrite inside_intro; [done|]. cbn. lia. Qed.

#[local] Ltac in_range := repeat (cbn [forallb]; rewrite inside_intro by (cbn; lia)); cbn.

Section fits.
Context (uint_korr : Z → bytes → Z) (bits_bytes : Z → Z → Z).

Lemma key_step_pos n sg : seg_inside bits_bytes n sg → 1 ≤ key_step sg.
Proof. intros H. pose proof (si_len _ _ _ H). unfold key_step. case_decide; destruct (is_var sg); lia. Qed.

Lemma is_var_type sg : is_var sg = true ↔ seg_type sg = HA_KEYTYPE_VARTEXT1.
Proof. apply bool_decide_eq_true. Qed.

Lemma hash_key_reads_fit n m segs : Forall (seg_inside bits_bytes m) segs → ∀ off key, key_fits uint_korr segs key → 0 ≤ off →
  off + Z.of_nat (length key) ≤ n → forallb (inside n) (hash_key_reads (uint_korr 2) segs off key) = true.
Proof.
  induction 1 as [|sg segs Hsg _ IH]; intros off key Hk Ho Hn; [done|]. cbn [key_fits hash_key_reads] in *. destruct Hk as (Hl & Hv & Hk).
  pose proof (key_step_pos _ _ Hsg). rewrite forallb_app, IH; [|done|lia|rewrite length_from; lia]. rewrite andb_true_r.
  unfold key_step in Hl. unfold hash_body_reads. destruct (is_var sg) eqn:Ev.
  - rewrite (proj1 (is_var_type sg) Ev). pose proof (si_len _ _ _ Hsg). specialize (Hv eq_refl).
    destruct (decide (null_bit sg ≠ 0)); [destruct (decide (byte_at key 0 ≠ 0)); [by in_range|]|]; specialize (Hv ltac:(tauto)); by in_range.
  - assert (seg_type sg ≠ HA_KEYTYPE_VARTEXT1) by (rewrite <-is_var_type; congruence). pose proof (si_len _ _ _ Hsg).
    destruct (decide (null_bit sg ≠ 0)); [destruct (decide (byte_at key 0 ≠ 0)); [by in_range|]|]; destruct (seg_type sg); try done; by in_range.
Qed.

Lemma cmp_key_reads_fit n m segs : Forall (seg_inside bits_bytes m) segs → bits_last segs → ∀ off key, key_fits uint_korr segs key → 0 ≤ off →
  off + Z.of_nat (length key) ≤ n → forallb (inside n) (cmp_key_reads (uint_korr 2) segs off key) = true.
Proof.
  induction 1 as [|sg segs Hsg _ IH]; intros Hb off key Hk Ho Hn; [done|]. cbn [key_fits cmp_key_reads] in *. cbv zeta. destruct Hk as (Hl & Hv & Hk).
  pose proof (key_step_pos _ _ Hsg). pose proof (si_len _ _ _ Hsg). rewrite forallb_app. apply andb_true_iff. split.
  - unfold key_step in Hl. unfold cmp_body_reads. destruct (is_var sg) eqn:Ev.
    + rewrite (proj1 (is_var_type sg) Ev). specialize (Hv eq_refl).
      case_bool_decide as Hn0; [rewrite decide_True by tauto; rewrite decide_True in Hl by tauto; by in_range|]. specialize (Hv Hn0).
      destruct (decide (null_bit sg ≠ 0)); by in_range.
    + assert (seg_type sg ≠ HA_KEYTYPE_VARTEXT1) by (rewrite <-is_var_type; congruence).
      case_bool_decide as Hn0; [rewrite decide_True by tauto; rewrite decide_True in Hl by tauto; by in_range|].
      destruct (decide (null_bit sg ≠ 0)), (seg_type sg), (decide (has_bits sg)); try done; by in_range.
  - destruct segs as [|sg' segs']; [done|]. destruct Hb as [Hnb Hb]. unfold cmp_step. rewrite (decide_False (P := has_bits sg ∧ _)) by tauto.
    rewrite Z.add_0_r. apply IH; [done|done|lia|rewrite length_from; lia].
Qed.

Lemma rec_reads_fit n kds kd sg rec : rec_fits uint_korr n kds rec → kd ∈ kds → sg ∈ seg kd → seg_inside bits_bytes n sg →
  forallb (inside n) (rec_reads (uint_korr 2) bits_bytes sg rec) = true.
Proof.
  intros [Hl Hv] Hkd Hsg Hs. unfold rec_reads. rewrite forallb_app. apply andb_true_iff. split.
  { case_decide as Hn; [|done]. pose proof (si_null _ _ _ Hs Hn). by in_range. }
  destruct (seg_null sg rec) eqn:En; [done|]. destruct (is_var sg) eqn:Ev.
  - specialize (Hv kd sg Hkd Hsg Ev En). destruct (si_var _ _ _ Hs Ev) as [Hb Hf]. pose proof (si_len _ _ _ Hs). pose proof (si_start _ _ _ Hs).
    rewrite (proj1 (is_var_type sg) Ev). case_decide; by in_range.
  - assert (seg_type sg ≠ HA_KEYTYPE_VARTEXT1) by (rewrite <-is_var_type; congruence). pose proof (si_start _ _ _ Hs).
    destruct (decide (has_bits sg)) as [Hb|Hb].
    + destruct (si_bits _ _ _ Hs Hb) as (? & ? & ?). destruct (seg_type sg); try done; by in_range.
    + pose proof (si_plain _ _ _ Hs Ev Hb). destruct (seg_type sg); try done; by in_range.
Qed.

Lemma make_reads_fit n sg : fixed_seg sg → seg_inside bits_bytes n sg → forallb (inside n) (make_reads bits_bytes sg) = true.
Proof.
  intros (Ev & Hb & Hm) Hs. assert (seg_type sg ≠ HA_KEYTYPE_VARTEXT1) by (rewrite <-is_var_type; congruence).
  pose proof (si_start _ _ _ Hs). pose proof (si_plain _ _ _ Hs Ev Hb).
  unfold make_reads. rewrite (decide_False (P := 1 < _)) by lia. rewrite forallb_app. apply andb_true_iff. split.
  - case_decide as Hn; [|done]. pose proof (si_null _ _ _ Hs Hn). by in_range.
  - cbn [app]. rewrite decide_False by done. destruct (seg_type sg); try done; by in_range.
Qed.

(** ** Keys that are kept *)

Abbreviation key_size segs := (foldr (λ sg m, key_step sg + m) 0 segs).

Lemma key_size_pos m segs : Forall (seg_inside bits_bytes m) segs → 0 ≤ key_size segs.
Proof. induction 1 as [|sg segs Hsg _ IH]; [done|]. pose proof (key_step_pos _ _ Hsg). cbn. lia. Qed.

Lemma key_fits_length m segs : Forall (seg_inside bits_bytes m) segs → ∀ key, key_fits uint_korr segs key → key_size segs ≤ Z.of_nat (length key).
Proof.
  induction 1 as [|sg segs Hsg Hs IH]; intros key Hk; [cbn; lia|]. destruct Hk as (Hl & _ & Hk). pose proof (key_step_pos _ _ Hsg).
  specialize (IH _ Hk). rewrite length_from in IH by lia. cbn. lia.
Qed.

(** The server's 2-byte load depends on two bytes. *)
Context (Hkorr : ∀ a b, take 2 a = take 2 b → uint_korr 2 a = uint_korr 2 b).

Lemma from_take i n (b : bytes) : 0 ≤ i → from i (take n b) = take (n - Z.to_nat i) (from i b).
Proof. intros _. unfold from. apply skipn_firstn_comm. Qed.

Lemma byte_at_take n b : (0 < n)%nat → byte_at (take n b) 0 = byte_at b 0.
Proof. intros H. unfold byte_at. by rewrite lookup_take_lt by lia. Qed.

(** The copy of the packed key is as good as the key. *)
Lemma key_fits_take m segs : Forall (seg_inside bits_bytes m) segs → ∀ n key, key_fits uint_korr segs key → key_size segs ≤ Z.of_nat n →
  key_fits uint_korr segs (take n key).
Proof.
  induction 1 as [|sg segs Hsg Hs IH]; intros n key Hk Hn; [done|]. destruct Hk as (Hl & Hv & Hk). pose proof (key_step_pos _ _ Hsg).
  pose proof (key_size_pos _ _ Hs). pose proof (si_len _ _ _ Hsg). cbn in Hn. cbn [key_fits]. split; [rewrite length_take; lia|]. split.
  - intros Ev. rewrite byte_at_take by lia. intros Hn0. specialize (Hv Ev Hn0). unfold key_step in *. rewrite Ev in *.
    etrans; [|exact Hv]. apply Z.eq_le_incl, Hkorr. destruct (decide (null_bit sg ≠ 0)); [rewrite from_take by lia|]; rewrite take_take; f_equal; lia.
  - rewrite from_take by lia. apply IH; [done|lia].
Qed.

(** A key of fixed width that the engine packs itself. *)
Lemma make_key_fits m get_rec_bits segs rec : Forall (seg_inside bits_bytes m) segs → Forall fixed_seg segs → ∀ rest,
  key_fits uint_korr segs (flat_map (λ sg, make_key_seg get_rec_bits sg rec) segs ++ rest).
Proof.
  induction 1 as [|sg segs Hsg Hs IH]; intros Hf rest; [done|]. apply Forall_cons in Hf as [(Ev & Hb & Hm) Hf].
  pose proof (si_len _ _ _ Hsg). cbn [flat_map key_fits]. rewrite <-app_assoc.
  assert (Hlen : Z.of_nat (length (make_key_seg get_rec_bits sg rec)) = key_step sg).
  { assert (seg_type sg ≠ HA_KEYTYPE_VARTEXT1) by (rewrite <-is_var_type; congruence).
    unfold make_key_seg, key_step. cbv zeta. rewrite Ev, (decide_False (P := 1 < _)) by lia. rewrite (decide_False (P := seg_type sg = HA_KEYTYPE_BIT ∧ _)) by exact Hb.
    destruct (seg_type sg); try done; rewrite length_app, Nat2Z.inj_add, length_span by lia; case_decide; cbn; lia. }
  split; [rewrite length_app; lia|]. split; [congruence|]. unfold from. rewrite drop_app_length' by lia. by apply IH.
Qed.
End fits.

(** ** The ranges are all that the routines depend on *)

Section complete.
Context (my_hasher_mysql5x : my_hasher_st) (MY_HASH_ADD_MARIADB : my_hasher_st → Z → my_hasher_st).
Context (get_rec_bits : bytes → Z → Z → Z) (uint2korr : bytes → Z).
Context (Hkorr : ∀ a b, take 2 a = take 2 b → uint2korr a = uint2korr b).

Lemma byte_at_app b rest i : 0 ≤ i < Z.of_nat (length b) → byte_at (b ++ rest) i = byte_at b i.
Proof. intros H. unfold byte_at. by rewrite lookup_app_l by lia. Qed.

Lemma span_app i n b rest : (0 < n → 0 ≤ i ∧ i + n ≤ Z.of_nat (length b)) → span i n (b ++ rest) = span i n b.
Proof.
  intros H. unfold span. apply list_fmap_ext. intros k j Hj. apply lookup_seqZ in Hj as [-> Hk]. apply byte_at_app. lia.
Qed.

Lemma from_app i b rest : 0 ≤ i ≤ Z.of_nat (length b) → from i (b ++ rest) = from i b ++ rest.
Proof. intros H. unfold from. apply drop_app_le. lia. Qed.

Lemma korr_app b rest : 2 ≤ Z.of_nat (length b) → uint2korr (b ++ rest) = uint2korr b.
Proof. intros H. apply Hkorr. apply take_app_le. lia. Qed.

Lemma inside_inv n r : inside n r = true → 0 < r.2 → 0 ≤ r.1 ∧ r.1 + r.2 ≤ n.
Proof. intros H%bool_decide_eq_true ?. destruct H; [lia|done]. Qed.

Lemma from_from i j b : 0 ≤ i → 0 ≤ j → from i (from j b) = from (i + j) b.
Proof. intros. unfold from. rewrite drop_drop. f_equal. lia. Qed.

Lemma hash_body_app sg pos next next' rest h off : 1 ≤ seg_length sg → 0 ≤ off →
  forallb (inside (off + Z.of_nat (length pos))) (hash_body_reads uint2korr sg off pos) = true →
  (hash_key_body MY_HASH_ADD_MARIADB uint2korr sg (pos ++ rest) next h).1 = (hash_key_body MY_HASH_ADD_MARIADB uint2korr sg pos next' h).1.
Proof.
  intros Hl Ho. unfold hash_body_reads, hash_key_body. destruct (seg_type sg); cbn [forallb fst]; cbv zeta; intros H; repeat (apply andb_true_iff in H as [?Hr H]; pose proof (inside_inv _ _ Hr); clear Hr); cbn [fst snd] in *.
  - rewrite !(span_app 0 (seg_length sg)) by lia. f_equal. apply span_app. case_decide; lia.
  - rewrite korr_app by lia. rewrite !(span_app 2 (uint2korr pos)) by lia. f_equal. apply span_app. case_decide; lia.
  - by rewrite span_app by lia.
  - by rewrite span_app by lia.
Qed.

Lemma hash_seg_next sg key h : 0 ≤ seg_length sg →
  (hash_key_seg MY_HASH_ADD_MARIADB uint2korr sg key h).2 = from (key_step sg) key.
Proof.
  intros Hl. unfold hash_key_seg, key_step, hash_key_body, is_var. cbv zeta.
  case_bool_decide as Hv; repeat case_decide; cbn [snd]; rewrite ?from_from by lia; try (f_equal; lia).
  all: destruct (seg_type sg); try done; cbn [snd]; rewrite ?from_from by lia; f_equal; lia.
Qed.

(** A read at [off] of at least one byte. *)
Lemma hash_reads_first n sg segs off key : 1 ≤ seg_length sg → forallb (inside n) (hash_key_reads uint2korr (sg :: segs) off key) = true → 0 ≤ off ∧ off + 1 ≤ n.
Proof.
  intros Hl. cbn [hash_key_reads]. unfold hash_body_reads.
  case_decide; [|destruct (seg_type sg)]; cbn [app forallb]; intros [Hr _]%andb_true_iff; apply inside_inv in Hr; cbn in *; lia.
Qed.

Lemma hash_seg_app sg segs off key rest h : 1 ≤ seg_length sg → 0 ≤ off →
  forallb (inside (off + Z.of_nat (length key))) (hash_key_reads uint2korr (sg :: segs) off key) = true →
  (hash_key_seg MY_HASH_ADD_MARIADB uint2korr sg (key ++ rest) h).1 = (hash_key_seg MY_HASH_ADD_MARIADB uint2korr sg key h).1.
Proof.
  intros Hl Ho Hr. pose proof (hash_reads_first _ _ _ _ _ Hl Hr) as [_ Hf]. cbn [hash_key_reads] in Hr. rewrite forallb_app in Hr. apply andb_true_iff in Hr as [Hr _].
  unfold hash_key_seg. cbv zeta. rewrite byte_at_app by lia. destruct (decide (null_bit sg ≠ 0)).
  - destruct (decide (byte_at key 0 ≠ 0)); [done|]. rewrite (from_app 1) by lia. cbn [forallb] in Hr. apply andb_true_iff in Hr as [_ Hr].
    apply (hash_body_app _ _ _ _ _ _ (off + 1)); [done|lia|]. rewrite length_from by lia.
    replace (off + 1 + (Z.of_nat (length key) - 1)) with (off + Z.of_nat (length key)) by lia. exact Hr.
  - by eapply hash_body_app.
Qed.

(** The hash of a packed key depends on the ranges of [hash_key_reads] only: bytes behind a buffer
    that holds them do not matter. *)
Lemma hashnr_app segs : Forall (λ sg, 1 ≤ seg_length sg) segs → ∀ off key rest h, 0 ≤ off →
  forallb (inside (off + Z.of_nat (length key))) (hash_key_reads uint2korr segs off key) = true →
  hashnr_loop MY_HASH_ADD_MARIADB uint2korr segs (key ++ rest) h = hashnr_loop MY_HASH_ADD_MARIADB uint2korr segs key h.
Proof.
  induction 1 as [|sg segs Hl Hls IH]; intros off key rest h Ho Hr; [done|]. cbn [hashnr_loop].
  pose proof (hash_seg_app sg segs off key rest h Hl Ho Hr) as H1. pose proof (hash_seg_next sg (key ++ rest) h) as H2. pose proof (hash_seg_next sg key h) as H3.
  destruct (hash_key_seg _ _ sg (key ++ rest) h) as [h1 k1], (hash_key_seg _ _ sg key h) as [h2 k2]. cbn in H1, H2, H3. rewrite H1, H2, H3 by lia.
  destruct segs as [|sg' segs']; [done|]. cbn [hash_key_reads] in Hr. rewrite forallb_app in Hr. apply andb_true_iff in Hr as [_ Hr]. fold (hash_key_reads uint2korr) in Hr.
  assert (Hl' : 1 ≤ seg_length sg') by by inversion Hls. assert (0 ≤ key_step sg) by (unfold key_step; repeat case_match; lia).
  pose proof (hash_reads_first _ _ _ _ _ Hl' Hr) as [_ Hf]. rewrite from_app by lia. apply (IH (off + key_step sg)); [lia|]. rewrite length_from by lia.
  replace (off + key_step sg + (Z.of_nat (length key) - key_step sg)) with (off + Z.of_nat (length key)) by lia. exact Hr.
Qed.

(** ** The same for the comparison with a packed key *)

Lemma cmp_reads_first n sg segs off key : 1 ≤ seg_length sg → forallb (inside n) (cmp_key_reads uint2korr (sg :: segs) off key) = true → 0 ≤ off ∧ off + 1 ≤ n.
Proof.
  intros Hl. cbn [cmp_key_reads]. cbv zeta. unfold cmp_body_reads.
  case_decide; [|destruct (seg_type sg); try case_decide]; cbn [app forallb]; intros [Hr _]%andb_true_iff; apply inside_inv in Hr; cbn in *; lia.
Qed.

(** A segment compares alike, and the walk goes on at the same place. *)
Lemma key_seg_cmp_app sg rec pos rest off : 1 ≤ seg_length sg → 0 ≤ off →
  forallb (inside (off + Z.of_nat (length pos))) (cmp_body_reads uint2korr sg off pos) = true →
  match key_seg_cmp get_rec_bits uint2korr sg rec (pos ++ rest), key_seg_cmp get_rec_bits uint2korr sg rec pos with
  | Some k1, Some k2 =>
      let d := (if is_var sg then 2 else 0) + (if decide (has_bits sg) then 1 else 0) in k1 = from d (pos ++ rest) ∧ k2 = from d pos
  | None, None => True
  | _, _ => False
  end.
Proof.
  intros Hl Ho. unfold cmp_body_reads, key_seg_cmp, is_var.
  destruct (seg_type sg) eqn:Ety; cbn [forallb]; cbv zeta.
  - rewrite (decide_False (P := has_bits sg)) by (intros [? _]; congruence). cbn [forallb]. intros Hr. apply andb_true_iff in Hr as [Hr%inside_inv _]; [|cbn; lia]. cbn [fst snd] in Hr.
    assert (E : text_part sg (pos ++ rest) = text_part sg pos). { unfold text_part. cbv zeta. rewrite (span_app 0 (seg_length sg)) by lia. apply span_app. case_decide; lia. }
    rewrite E. case_decide; [done|]. rewrite bool_decide_eq_false_2 by done. rewrite (decide_False (P := has_bits sg)) by (intros [? _]; congruence). by split.
  - intros Hr. apply andb_true_iff in Hr as [H1 Hr]. apply andb_true_iff in Hr as [H2 _]. pose proof (inside_inv _ _ H1) as H3. pose proof (inside_inv _ _ H2) as H4. cbn [fst snd] in *.
    rewrite korr_app, (from_app 2) by lia. assert (Hlen : Z.of_nat (length (from 2 pos)) = Z.of_nat (length pos) - 2) by (apply length_from; lia).
    rewrite (span_app 0 (uint2korr pos)) by lia. rewrite bool_decide_eq_true_2 by done. rewrite (decide_False (P := has_bits sg)) by (intros [? _]; congruence).
    destruct (decide (1 < mbmaxlen (charset sg))); cbv beta iota; rewrite span_app by lia; case_decide; try done; (split; [rewrite <-from_app by lia|]); f_equal; lia.
  - rewrite bool_decide_eq_false_2 by done. destruct (decide (has_bits sg)) as [Hb|Hb]; cbn [forallb]; intros Hr.
    + rewrite !(decide_True (P := HA_KEYTYPE_BIT = HA_KEYTYPE_BIT ∧ _)) by (split; [done|apply Hb]). apply andb_true_iff in Hr as [H1%inside_inv Hr]; [|cbn; lia]. apply andb_true_iff in Hr as [H2 _]. pose proof (inside_inv _ _ H2) as H4. cbn [fst snd] in *.
      rewrite byte_at_app by lia. case_decide; [done|]. rewrite (from_app 1) by lia. rewrite span_app by (rewrite length_from; lia).
      case_decide; [done|]. split; [|done]. by rewrite <-from_app by lia.
    + rewrite !(decide_False (P := HA_KEYTYPE_BIT = HA_KEYTYPE_BIT ∧ _)) by (intros [_ ?]; apply Hb; by split). apply andb_true_iff in Hr as [H1%inside_inv _]; [|cbn; lia]. cbn [fst snd] in *. rewrite span_app by lia. case_decide; [done|]. by split.
  - rewrite bool_decide_eq_false_2 by done. rewrite (decide_False (P := has_bits sg)) by (intros [? _]; congruence). rewrite decide_False by (intros [? _]; congruence). cbn [forallb]. intros Hr.
    apply andb_true_iff in Hr as [H1%inside_inv _]; [|cbn; lia]. cbn [fst snd] in *. rewrite span_app by lia. case_decide; [done|]. rewrite (decide_False (P := has_bits sg)) by (intros [? _]; congruence). by split.
Qed.

(** The comparison of a record with a packed key depends on the ranges of [cmp_key_reads] only. *)
Lemma key_cmp_app segs rec : Forall (λ sg, 1 ≤ seg_length sg) segs → ∀ off key rest, 0 ≤ off →
  forallb (inside (off + Z.of_nat (length key))) (cmp_key_reads uint2korr segs off key) = true →
  key_cmp_loop get_rec_bits uint2korr segs rec (key ++ rest) = key_cmp_loop get_rec_bits uint2korr segs rec key.
Proof.
  induction 1 as [|sg segs Hl Hls IH]; intros off key rest Ho Hr; [done|]. pose proof (cmp_reads_first _ _ _ _ _ Hl Hr) as [_ Hf].
  cbn [cmp_key_reads key_cmp_loop] in *. cbv zeta in *. rewrite forallb_app in Hr. apply andb_true_iff in Hr as [Hb Hr].
  set (null := bool_decide (null_bit sg ≠ 0 ∧ byte_at key 0 ≠ 0)) in *.
  assert (Hnext : key_cmp_loop get_rec_bits uint2korr segs rec (from (cmp_step sg null) (key ++ rest)) =
                  key_cmp_loop get_rec_bits uint2korr segs rec (from (cmp_step sg null) key)).
  { destruct segs as [|sg' segs']; [done|]. assert (Hl' : 1 ≤ seg_length sg') by by inversion Hls.
    assert (0 ≤ cmp_step sg null) by (unfold cmp_step, key_step; repeat case_match; lia).
    pose proof (cmp_reads_first _ _ _ _ _ Hl' Hr) as [_ Hf']. rewrite from_app by lia. apply (IH (off + cmp_step sg null)); [lia|]. rewrite length_from by lia.
    replace (off + cmp_step sg null + (Z.of_nat (length key) - cmp_step sg null)) with (off + Z.of_nat (length key)) by lia. exact Hr. }
  rewrite byte_at_app by lia. set (d := (if is_var sg then 2 else 0) + (if decide (has_bits sg) then 1 else 0)).
  assert (Hd : 0 ≤ d) by (unfold d; repeat case_match; lia).
  assert (Hvb : is_var sg = true → ¬ has_bits sg) by (rewrite is_var_type; intros E [E' _]; congruence).
  destruct (decide (null_bit sg ≠ 0)) as [Hn|Hn].
  - destruct (decide ((if seg_null sg rec then 1 else 0) ≠ byte_at key 0)) as [|He]; [done|]. apply dec_stable in He. rewrite (from_app 1) by lia.
    destruct (decide ((if seg_null sg rec then 1 else 0) ≠ 0)) as [Hnz|Hz].
    + assert (null = true) as En by (apply bool_decide_eq_true; split; [done|congruence]). rewrite En in Hnext.
      unfold cmp_step, key_step in Hnext. rewrite decide_True in Hnext by done. rewrite (decide_False (P := has_bits sg ∧ _)) in Hnext by naive_solver.
      destruct (is_var sg); rewrite ?from_from by lia; rewrite <-?from_app, ?from_from by lia.
      * by replace (seg_length sg + 2 + 1) with (seg_length sg + 1 + 2 + 0) by lia.
      * by replace (seg_length sg + 1) with (seg_length sg + 1 + 0 + 0) by lia.
    + apply dec_stable in Hz. assert (null = false) as En by (apply bool_decide_eq_false; intros [_ ?]; congruence). rewrite En in *.
      cbn [forallb] in Hb. apply andb_true_iff in Hb as [_ Hb].
      pose proof (key_seg_cmp_app sg rec (from 1 key) rest (off + 1) Hl ltac:(lia)) as Hs. rewrite length_from in Hs by lia.
      replace (off + 1 + (Z.of_nat (length key) - 1)) with (off + Z.of_nat (length key)) in Hs by lia. specialize (Hs Hb).
      destruct (key_seg_cmp _ _ sg rec (from 1 key ++ rest)) as [k1|], (key_seg_cmp _ _ sg rec (from 1 key)) as [k2|]; try done. cbv zeta in Hs. fold d in Hs. destruct Hs as [-> ->].
      rewrite <-(from_app 1) by lia. rewrite !from_from, <-?Z.add_assoc by lia. replace (seg_length sg + (d + 1)) with (cmp_step sg false); [done|].
      unfold cmp_step, key_step, d. rewrite (decide_True (P := null_bit sg ≠ 0)) by done. destruct (decide (has_bits sg)); [rewrite decide_True by done|rewrite decide_False by naive_solver]; lia.
  - assert (null = false) as En by (apply bool_decide_eq_false; intros [? _]; done). rewrite En in *.
    pose proof (key_seg_cmp_app sg rec key rest off Hl Ho Hb) as Hs.
    destruct (key_seg_cmp _ _ sg rec (key ++ rest)) as [k1|], (key_seg_cmp _ _ sg rec key) as [k2|]; try done. cbv zeta in Hs. fold d in Hs. destruct Hs as [-> ->].
    rewrite !from_from by lia. replace (seg_length sg + d) with (cmp_step sg false); [done|].
    unfold cmp_step, key_step, d. rewrite (decide_False (P := null_bit sg ≠ 0)) by done. destruct (decide (has_bits sg)); [rewrite decide_True by done|rewrite decide_False by naive_solver]; lia.
Qed.
End complete.

(** * The kept key along a call *)

(** [keeps f m]: when [m] returns, what [f] sees is as before. *)
Definition keeps {S T A} (f : S → T) (m : M S A) : Prop := ∀ s a s', m s = Ret (a, s') → f s' = f s.

Section keeping.
Context {S T : Type} (f : S → T).

Lemma keeps_ret {A} (a : A) : keeps f (mret a).
Proof. by intros s a' s' [= _ <-]. Qed.

Lemma keeps_get : keeps f get.
Proof. by intros s a s' [= _ <-]. Qed.

Lemma keeps_unwrap {A} (o : option A) : keeps f (unwrap o).
Proof. intros s a s'. destruct o; [by intros [= _ <-]|done]. Qed.

Lemma keeps_modify g : (∀ s, f (g s) = f s) → keeps f (modify g).
Proof. intros Hg s a s' [= _ <-]. apply Hg. Qed.

Lemma keeps_bind {A B} (m : M S A) (k : A → M S B) : keeps f m → (∀ a, keeps f (k a)) → keeps f (m ≫= k).
Proof.
  intros Hm Hk s b s2. unfold mbind, M_bind. destruct (m s) as [[a s1]| |] eqn:E; try done. intros E2.
  rewrite (Hk _ _ _ _ E2). by eapply Hm.
Qed.
End keeping.

Abbreviation d_key := (λ d : dstate, lastkey (info d)).
Abbreviation h_key := (λ h : ha_fastmem, lastkey (info (file h))).

Lemma keeps_on_core {A} (m : SM A) : keeps d_key (on_core m).
Proof. intros d a d'. unfold on_core. destruct (m (core d)) as [[? ?]| |]; try done. by intros [= _ <-]. Qed.

Lemma keeps_on_file {A} (m : DM A) : keeps d_key m → keeps h_key (on_file m).
Proof. intros Hm h a h'. unfold on_file. destruct (m (file h)) as [[? d]| |] eqn:E; try done. intros [= _ <-]. by apply (Hm _ _ _ E). Qed.

Create HintDb keeps.
#[export] Hint Resolve keeps_ret keeps_get keeps_unwrap keeps_on_core : keeps.

Ltac keeps_step :=
  match goal with
  | |- keeps _ (mbind _ _) => apply keeps_bind; [|intros ?; cbv beta]
  | |- keeps _ (modify _) => apply keeps_modify; done
  | |- keeps _ (let _ := _ in _) => cbv zeta
  | |- keeps _ (if decide ?P then _ else _) => destruct (decide P)
  | |- keeps _ (match ?x with _ => _ end) => destruct x
  | |- keeps _ (on_file _) => apply keeps_on_file
  | |- keeps _ _ => solve [eauto 3 with keeps]
  end.
Ltac keeps_auto := repeat keeps_step.

Lemma keeps_upd g : (∀ i, lastkey (g i) = lastkey i) → keeps d_key (upd_info g).
Proof. intros Hg. apply keeps_modify. intros d. apply Hg. Qed.
#[export] Hint Extern 1 (keeps _ (upd_info _)) => (apply keeps_upd; intros []; done) : keeps.

Lemma keeps_fail e : keeps d_key (fail e).
Proof. unfold fail. keeps_auto. Qed.
#[export] Hint Resolve keeps_fail : keeps.

Lemma keeps_reset : keeps d_key fm_reset.
Proof. unfold fm_reset. keeps_auto. Qed.

Lemma keeps_reread buf : keeps d_key (fm_reread_locked buf).
Proof. unfold fm_reread_locked. keeps_auto. Qed.

Lemma keeps_verify old : keeps d_key (verify_image old).
Proof. unfold verify_image, fm_core_error_to_ha. keeps_auto. Qed.

Lemma keeps_h_fail e : keeps h_key (h_fail e).
Proof. unfold h_fail. keeps_auto. Qed.

Lemma keeps_unlock : keeps h_key unlock_current_row.
Proof. unfold unlock_current_row. keeps_auto. Qed.
#[export] Hint Resolve keeps_reset keeps_reread keeps_verify keeps_h_fail keeps_unlock : keeps.

Lemma keeps_lock : keeps h_key lock_current_row.
Proof. unfold lock_current_row. keeps_auto. Qed.
#[export] Hint Resolve keeps_lock : keeps.

Lemma keeps_lock_and_reread gone r : keeps h_key (lock_and_reread gone r).
Proof. unfold lock_and_reread. keeps_auto. Qed.

Lemma keeps_ensure : keeps h_key ensure_locked.
Proof. unfold ensure_locked. keeps_auto. Qed.
#[export] Hint Resolve keeps_lock_and_reread keeps_ensure : keeps.

Section calls_keep.
Context (uint_korr sint_korr float_korr : Z → bytes → Z) (ha_keytype : Z → auto_type).
Context (update_auto_increment : bytes → HM (ha_err * bytes)) (get_rec_bits : bytes → Z → Z → Z).

Lemma keeps_auto_increment rec : keeps d_key (fm_update_auto_increment uint_korr sint_korr float_korr ha_keytype rec).
Proof. unfold fm_update_auto_increment. keeps_auto. Qed.
#[local] Hint Resolve keeps_auto_increment : keeps.

Lemma keeps_finish_update new r : keeps d_key (finish_update uint_korr sint_korr float_korr ha_keytype new r).
Proof. unfold finish_update, fm_core_error_to_ha. keeps_auto. Qed.
#[local] Hint Resolve keeps_finish_update : keeps.

(** Only lookups by key change the kept key. *)
Lemma call_keeps c : (∀ index buf key, c ≠ SRead index buf key) → (∀ buf, c ≠ SReadNext buf) → (∀ rec idx, c ≠ SUnique rec idx) →
  keeps h_key (run_call uint_korr sint_korr float_korr ha_keytype update_auto_increment get_rec_bits c).
Proof.
  intros H1 H2 H3. destruct c; try by destruct (H1 _ _ _ eq_refl). all: try by destruct (H2 _ eq_refl). all: try by destruct (H3 _ _ eq_refl). all: cbn [run_call].
  - unfold external_lock. keeps_auto.
  - unfold rnd_init, fm_scan_init. keeps_auto.
  - unfold rnd_next, fm_scan. keeps_auto.
  - unfold rnd_pos, fm_rrnd. destruct (decode_ref pos). keeps_auto.
  - unfold write_row, fm_write, fm_core_error_to_ha. keeps_auto.
  - unfold update_row, fm_update_locked. keeps_auto.
  - unfold delete_row, fm_delete_locked, finish_delete, fm_core_error_to_ha. keeps_auto.
  - unfold reset. keeps_auto.
  - unfold delete_all_rows, fm_clear. keeps_auto.
  - unfold get_auto_increment. keeps_auto.
  - unfold reset_auto_increment. keeps_auto.
Qed.
End calls_keep.

(** ** Lookups by key *)

Lemma on_core_inv {A} (m : SM A) d a d' : on_core m d = Ret (a, d') → ∃ c, m (core d) = Ret (a, c) ∧ d' = d_core c d.
Proof. unfold on_core. destruct (m (core d)) as [[b c]| |]; try done. intros [= -> <-]. by exists c. Qed.

Lemma on_file_inv {A} (m : DM A) h a h' : on_file m h = Ret (a, h') → ∃ d, m (file h) = Ret (a, d) ∧ h' = h_file d h.
Proof. unfold on_file. destruct (m (file h)) as [[b d]| |]; try done. intros [= -> <-]. by exists d. Qed.

Lemma deref_key_inv k s kc s' : deref_key k s = Ret (kc, s') → key_at s k = Some kc ∧ s' = s.
Proof. unfold deref_key, mbind, M_bind, get, unwrap. cbn. destruct (key_at s k); [|done]. by intros [= -> <-]. Qed.

Lemma unwrap_inv {S A} (o : option A) (s : S) a s' : unwrap o s = Ret (a, s') → o = Some a ∧ s' = s.
Proof. destruct o; [|done]. by intros [= -> <-]. Qed.

Lemma reread_success gone r h r' h' : lock_and_reread gone r h = Ret (r', h') → r'.1 = HA_OK → r.1 = HA_OK.
Proof.
  unfold lock_and_reread. intros E Hr. destruct (decide (r.1 = HA_OK)) as [|Hne]; [done|].
  apply bind_inv in E as (h0 & h1 & _ & E). rewrite bool_decide_eq_false_2 in E by done. by injection E as <- _.
Qed.

(** A lookup that succeeds keeps its key, unless the key is unique and has no NULL. *)
Lemma find_key_kept inx pk buf d kd r d' : arr_get (keydefs d) inx = Some kd →
  (∀ kc, key_at (core d) inx = Some kc → is_Some (hash_rec (ops kc))) →
  fm_find_key inx pk buf d = Ret (r, d') → r.1 = HA_OK →
  lastkey (info d') = if flag_nosame kd && negb (flag_null_part kd) then lastkey (info d) else take (Z.to_nat (kd_length kd)) pk.
Proof.
  intros Hkd Hops E Hr. unfold fm_find_key in E. apply bind_inv in E as (kc & d1 & (c1 & [Hkc ->]%deref_key_inv & ->)%on_core_inv & E).
  destruct (Hops _ Hkc) as [f Hf]. apply bind_inv in E as ([[rc idx] rec] & d2 & (c2 & _ & ->)%on_core_inv & E). cbv beta iota in E. case_decide as Hrc.
  { apply bind_inv in E as (? & d3 & _ & E). apply bind_inv in E as (e & d4 & He & E). injection E as <- _. cbn in Hr. subst e.
    unfold fail in He. apply bind_inv in He as (? & ? & _ & He). discriminate He. }
  apply bind_inv in E as (d3 & d4 & [= <- <-] & E). apply bind_inv in E as (kd' & d5 & [Hkd' ->]%unwrap_inv & E). cbn in Hkd'. rewrite Hkd in Hkd'. injection Hkd' as <-.
  rewrite Hf in E. apply bind_inv in E as (? & d6 & E6 & E).
  assert (Hk : lastkey (info d') = lastkey (info d6)).
  { revert E. generalize (HA_OK, rec). intros q E. assert (keeps d_key (g ← on_core (fm_slot_gen idx);
      upd_info (λ i, in_update [HA_STATE_AKTIV] (in_current idx g (in_lastinx inx i)));; mret q)) as Hk by keeps_auto. exact (Hk _ _ _ E). }
  rewrite Hk. destruct (flag_nosame kd && negb (flag_null_part kd)); by injection E6 as _ <-.
Qed.

(** The next row of an index finds the same key, or keeps it again. *)
Lemma find_next_kept inx cur buf d kd r d' : arr_get (keydefs d) inx = Some kd →
  fm_find_next_key inx (lastkey (info d)) cur buf d = Ret (r, d') →
  lastkey (info d') = lastkey (info d) ∨ lastkey (info d') = take (Z.to_nat (kd_length kd)) (lastkey (info d)).
Proof.
  intros Hkd E. unfold fm_find_next_key in E. apply bind_inv in E as ([[rc idx] rec] & d2 & (c2 & _ & ->)%on_core_inv & E). cbv beta iota in E. case_decide as Hrc.
  { left. assert (keeps d_key (upd_info (in_update [HA_STATE_NEXT_FOUND]);; e ← fail HA_ERR_KEY_NOT_FOUND; mret (e, rec))) as Hk by keeps_auto. exact (Hk _ _ _ E). }
  apply bind_inv in E as (d3 & d4 & [= <- <-] & E). apply bind_inv in E as (kd' & d5 & [Hkd' ->]%unwrap_inv & E). cbn in Hkd'. rewrite Hkd in Hkd'. injection Hkd' as <-.
  apply bind_inv in E as (? & d6 & E6 & E).
  assert (Hk : lastkey (info d') = lastkey (info d6)).
  { revert E. generalize (HA_OK, rec). intros q E. assert (keeps d_key (g ← on_core (fm_slot_gen idx);
      upd_info (λ i, in_update [HA_STATE_AKTIV; HA_STATE_NEXT_FOUND] (in_current idx g (in_lastinx inx i)));; mret q)) as Hk by keeps_auto. exact (Hk _ _ _ E). }
  rewrite Hk. destruct (bool_decide _ || _); injection E6 as _ <-; [by right|by left].
Qed.

Lemma index_read_kept inx buf pk h kd r h' : arr_get (keydefs (file h)) inx = Some kd →
  (∀ kc, key_at (core (file h)) inx = Some kc → is_Some (hash_rec (ops kc))) →
  index_read_map inx buf pk h = Ret (r, h') → r.1 = HA_OK →
  lastkey (info (file h')) = if flag_nosame kd && negb (flag_null_part kd) then lastkey (info (file h)) else take (Z.to_nat (kd_length kd)) pk.
Proof.
  intros Hkd Hops E Hr. apply bind_inv in E as (r1 & h1 & (d & Hf & ->)%on_file_inv & E).
  rewrite (keeps_lock_and_reread _ _ _ _ _ E). by eapply find_key_kept; [..|eapply reread_success].
Qed.

Lemma index_next_kept buf h kd r h' : arr_get (keydefs (file h)) (lastinx (info (file h))) = Some kd → index_next buf h = Ret (r, h') →
  lastkey (info (file h')) = lastkey (info (file h)) ∨ lastkey (info (file h')) = take (Z.to_nat (kd_length kd)) (lastkey (info (file h))).
Proof.
  intros Hkd E. unfold index_next in E. apply bind_inv in E as (h0 & h1 & [= <- <-] & E). cbv zeta in E. rewrite decide_False in E by (pose proof (arr_get_range _ _ _ Hkd); lia).
  apply bind_inv in E as (r1 & h2 & (d & Hf & ->)%on_file_inv & E).
  match type of E with ?m _ = _ => assert (keeps h_key m) as Hk by keeps_auto end. rewrite (Hk _ _ _ E). by eapply find_next_kept.
Qed.

Lemma unique_kept get_rec_bits rec idx h kd r h' : arr_get (keydefs (file h)) idx = Some kd → find_unique_row get_rec_bits rec idx h = Ret (r, h') →
  lastkey (info (file h')) = if flag_nosame kd then fm_make_key get_rec_bits kd rec else lastkey (info (file h)).
Proof.
  intros Hkd E. unfold find_unique_row in E. apply bind_inv in E as (h0 & h1 & [= <- <-] & E). apply bind_inv in E as (kd' & h2 & [Hkd' ->]%unwrap_inv & E).
  rewrite Hkd in Hkd'. injection Hkd' as <-. destruct (flag_nosame kd); cbn [negb] in E; [|by injection E as _ <-].
  apply bind_inv in E as (? & h3 & (d & [= _ <-] & ->)%on_file_inv & E).
  match type of E with ?m _ = _ => assert (keeps h_key m) as Hk by keeps_auto end. by rewrite (Hk _ _ _ E).
Qed.

(** * Sessions whose buffers fit *)

Section sessions.
Context (my_hasher_mysql5x : my_hasher_st) (MY_HASH_ADD_MARIADB : my_hasher_st → Z → my_hasher_st).
Context (uint_korr sint_korr float_korr : Z → bytes → Z) (ha_keytype : Z → auto_type).
Context (update_auto_increment : bytes → HM (ha_err * bytes)) (get_rec_bits : bytes → Z → Z → Z).
Context (bits_bytes : Z → Z → Z).
Context (Hkorr : ∀ a b, take 2 a = take 2 b → uint_korr 2 a = uint_korr 2 b).

(** The table uses the callbacks of fm_hash.cc; its key definitions lie inside its records, every
    row is a record of the server, and a kept key is a packed key of its index. *)
Record db_fits (s : db) (K : nat → option Z) : Prop := {
  df_ops k kd : arr_get (db_keydefs s) k = Some kd →
    ∃ u n, key_cfg (share s) k = Some (fm_ops my_hasher_mysql5x MY_HASH_ADD_MARIADB get_rec_bits (uint_korr 2) kd, u, n);
  df_keydefs : Forall (keydef_inside bits_bytes (reclength (share s))) (db_keydefs s);
  df_auto kd sg : arr_get (db_keydefs s) (auto_key (share s) - 1) = Some kd → seg kd !! 0%nat = Some sg →
    start sg + auto_width (ha_keytype (auto_key_type (share s))) ≤ reclength (share s);
  df_rows i rec : table (share s) !! i = Some rec → rec_fits uint_korr (reclength (share s)) (db_keydefs s) rec;
  df_kept i x k : sessions s !! i = Some x → K i = Some k →
    ∃ kd, arr_get (db_keydefs s) k = Some kd ∧ key_fits uint_korr (seg kd) (lastkey (se_info x))
}.

Section state.
Context (s : db) (K : nat → option Z) (F : db_fits s K).

Lemma keydef_of_index k kd : arr_get (db_keydefs s) k = Some kd → keydef_inside bits_bytes (reclength (share s)) kd.
Proof. unfold arr_get. case_decide; [|done]. intros Hl. exact (Forall_lookup_1 _ _ _ _ (df_keydefs _ _ F) Hl). Qed.

Lemma rec_inside_fits rec : rec_fits uint_korr (reclength (share s)) (db_keydefs s) rec → rec_inside (uint_korr 2) bits_bytes (db_keydefs s) rec = true.
Proof.
  intros Hr. apply forallb_forall. intros kd Hkd%list_elem_of_In. unfold key_of_rec_inside, within. destruct Hr as [Hl Hv]. rewrite Hl.
  apply forallb_flat. intros sg Hsg. apply (rec_reads_fit _ _ _ (db_keydefs s) kd); [by split|done|done|].
  pose proof (df_keydefs _ _ F) as HF. rewrite Forall_forall in HF. pose proof (ki_segs _ _ _ (HF kd Hkd)) as Hs. rewrite Forall_forall in Hs. by apply Hs.
Qed.

Lemma rows_inside_fits : rows_inside uint_korr bits_bytes s = true.
Proof. apply bool_decide_eq_true. intros i rec Hi. apply rec_inside_fits. by eapply df_rows. Qed.

Lemma key_inside_fits k kd key : arr_get (db_keydefs s) k = Some kd → key_fits uint_korr (seg kd) key →
  key_inside (uint_korr 2) kd key = true ∧ within key [(0, kd_length kd)] = true.
Proof.
  intros Hkd Hk. destruct (keydef_of_index _ _ Hkd) as [Hs Hb Hl]. pose proof (key_fits_length _ _ _ _ Hs _ Hk) as Hlen.
  assert (Hw : within key [(0, kd_length kd)] = true) by (rewrite within_cons, inside_intro; [done|cbn; lia]).
  split; [|done]. unfold key_inside. rewrite Hw. unfold within at 1 2.
  rewrite (hash_key_reads_fit _ bits_bytes _ _ _ Hs 0 key Hk), (cmp_key_reads_fit _ bits_bytes _ _ _ Hs Hb 0 key Hk) by lia. by destruct (flag_nosame kd), (flag_null_part kd).
Qed.

Lemma make_key_inside k kd rec : arr_get (db_keydefs s) k = Some kd → Forall fixed_seg (seg kd) → key_fits uint_korr (seg kd) (fm_make_key get_rec_bits kd rec).
Proof.
  intros Hkd Hf. destruct (keydef_of_index _ _ Hkd) as [Hs _ _]. unfold fm_make_key. rewrite <-(app_nil_r (flat_map _ _)). by eapply make_key_fits.
Qed.

Lemma auto_inside_fits i x rec : db_ok s → sessions s !! i = Some x → Z.of_nat (length rec) = reclength (share s) → auto_inside ha_keytype s rec = true.
Proof.
  intros Hok Hi Hl. unfold auto_inside. case_decide as Ha; [done|]. destruct (ho_auto _ _ (am_handle _ _ (Hok i x Hi)) Ha) as (kd & sg & Hkd & Hsg). cbn in Hkd.
  assert (E : arr_get (db_keydefs s) (auto_key (share s) - 1) ≫= (λ kd, seg kd !! 0%nat) = Some sg) by by rewrite Hkd.
  rewrite E. pose proof (df_auto _ _ F kd sg Hkd Hsg). rewrite within_cons, inside_intro; [done|]. cbn.
  pose proof (Forall_lookup_1 _ _ _ _ (ki_segs _ _ _ (keydef_of_index _ _ Hkd)) Hsg) as Hs. pose proof (si_start _ _ _ Hs). lia.
Qed.

(** A call with buffers that fit stays inside them. *)
Lemma call_inside_fits i x c : db_ok s → sessions s !! i = Some x → call_ok s x c → call_fits uint_korr s (K i) x c →
  call_inside uint_korr ha_keytype get_rec_bits bits_bytes s x c = true.
Proof.
  intros Hok Hi Hc Hf. pose proof rows_inside_fits as Hrows. pose proof (am_handle _ _ (Hok i x Hi)) as Hh.
  assert (Hrec : ∀ rec, rec_fits uint_korr (reclength (share s)) (db_keydefs s) rec →
    whole_record s rec && rec_inside (uint_korr 2) bits_bytes (db_keydefs s) rec && auto_inside ha_keytype s rec = true).
  { intros rec Hr. unfold whole_record. rewrite (whole_inside _ _ (proj1 Hr)), (rec_inside_fits _ Hr). by apply (auto_inside_fits i x), Hr. }
  destruct c as [mode|scan|buf|buf pos|index buf key|buf|rec|old new|buf| |record idx| |offset inc nb|value]; cbn [call_inside]; cbv zeta; try done; cbn in Hc, Hf.
  - by apply whole_inside.
  - destruct Hf as [Hb Hp]. unfold whole_record. rewrite (whole_inside _ _ Hb). apply whole_inside. by rewrite Hp.
  - destruct Hf as [Hb Hk]. destruct (ho_keys _ _ Hh index Hc) as [kd Hkd]. cbn in Hkd. unfold whole_record. rewrite (whole_inside _ _ Hb), Hrows, Hkd.
    by apply (key_inside_fits index), Hk.
  - destruct Hf as [Hb Hk]. case_decide; [done|]. specialize (Hk ltac:(lia)). destruct (df_kept _ _ F i x _ Hi Hk) as (kd & Hkd & Hkf).
    unfold whole_record. rewrite (whole_inside _ _ Hb), Hrows, Hkd. destruct (key_inside_fits _ _ _ Hkd Hkf) as [-> ->]. done.
  - by rewrite Hrec, Hrows.
  - destruct Hf. by rewrite !Hrec, Hrows.
  - unfold whole_record. by rewrite (whole_inside _ _ Hc), Hrows.
  - destruct Hf as [Hb Hk]. destruct (ho_keys _ _ Hh idx Hc) as [kd Hkd]. cbn in Hkd. rewrite Hkd. destruct (flag_nosame kd); [|done]. specialize (Hk _ Hkd).
    unfold whole_record. rewrite (whole_inside _ _ Hb), Hrows. destruct (key_inside_fits _ _ _ Hkd (make_key_inside _ _ record Hkd Hk)) as [-> _]. rewrite andb_true_r.
    cbn [andb]. unfold within. rewrite Hb. apply forallb_flat. intros sg Hsg. apply make_reads_fit.
    + rewrite Forall_forall in Hk. by apply Hk.
    + pose proof (ki_segs _ _ _ (keydef_of_index _ _ Hkd)) as Hs. rewrite Forall_forall in Hs. by apply Hs.
Qed.
End state.

Abbreviation db_call := (db_call uint_korr sint_korr float_korr ha_keytype update_auto_increment get_rec_bits).
Abbreviation checked_call := (checked_call uint_korr sint_korr float_korr ha_keytype update_auto_increment get_rec_bits bits_bytes).
Abbreviation checked_exec := (checked_exec uint_korr sint_korr float_korr ha_keytype update_auto_increment get_rec_bits bits_bytes).

(** The kept key of the session that makes a call. *)
Lemma kept_call s K i x c r h' k : db_ok s → db_fits s K → sessions s !! i = Some x → call_ok s x c → call_fits uint_korr s (K i) x c →
  run_call uint_korr sint_korr float_korr ha_keytype update_auto_increment get_rec_bits c (as_handler s x) = Ret (r, h') →
  kept_after s c r (K i) = Some k → ∃ kd, arr_get (db_keydefs s) k = Some kd ∧ key_fits uint_korr (seg kd) (lastkey (info (file h'))).
Proof.
  intros Hok F Hi Hc Hf E Hk. pose proof (am_handle _ _ (Hok i x Hi)) as Hh.
  assert (Hsame : lastkey (info (file h')) = lastkey (se_info x) → K i = Some k → ∃ kd, arr_get (db_keydefs s) k = Some kd ∧ key_fits uint_korr (seg kd) (lastkey (info (file h')))).
  { intros -> HK. by eapply df_kept. }
  destruct c as [mode|scan|buf|buf pos|index buf key|buf|rec|old new|buf| |record idx| |offset inc nb|value]; cbn in Hc, Hf;
    try (apply Hsame; [by apply (λ H1 H2 H3, call_keeps _ _ _ _ _ _ _ H1 H2 H3 _ _ _ E)|exact Hk]).
  - destruct (ho_keys _ _ Hh index Hc) as [kd Hkd]. cbn in Hkd, Hk. rewrite Hkd in Hk. case_decide as Hr; [done|].
    assert (Hlk := index_read_kept index buf key (as_handler s x) kd r h' Hkd). cbn in Hlk, E. rewrite Hlk; [|..|exact E|exact Hr].
    2: { intros kc Hkc. destruct (df_ops _ _ F _ _ Hkd) as (u & n & Hcfg). unfold key_cfg in Hcfg. rewrite Hkc in Hcfg. cbn in Hcfg. injection Hcfg as -> _ _. by eexists. }
    destruct (flag_nosame kd && negb (flag_null_part kd)); [by eapply df_kept|]. injection Hk as <-. exists kd. split; [done|].
    destruct (keydef_of_index _ _ F _ _ Hkd) as [Hs _ Hl]. eapply key_fits_take; [exact Hkorr|exact Hs|by apply Hf|].
    pose proof (key_size_pos _ _ _ Hs). lia.
  - cbn in Hk, E. destruct (decide (lastinx (se_info x) < 0)) as [Hneg|Hpos].
    { apply Hsame; [|done]. unfold index_next in E. apply bind_inv in E as (h0 & h1 & [= <- <-] & E). cbv zeta in E. rewrite decide_True in E by exact Hneg.
      match type of E with ?m _ = _ => assert (keeps h_key m) as Hkp by keeps_auto end. exact (Hkp _ _ _ E). }
    destruct Hf as [_ Hf]. rewrite (Hf ltac:(lia)) in Hk. injection Hk as <-. destruct (df_kept _ _ F i x _ Hi (Hf ltac:(lia))) as (kd & Hkd & Hkf).
    exists kd. split; [done|]. destruct (index_next_kept buf (as_handler s x) kd r h' Hkd E) as [-> | ->]; cbn; [done|].
    destruct (keydef_of_index _ _ F _ _ Hkd) as [Hs _ Hl]. eapply key_fits_take; [exact Hkorr|exact Hs|done|]. pose proof (key_size_pos _ _ _ Hs). lia.
  - destruct (ho_keys _ _ Hh idx Hc) as [kd Hkd]. cbn in Hkd, Hk, E. rewrite Hkd in Hk. apply bind_inv in E as ([rc rec] & h1 & E1 & E). injection E as _ <-.
    rewrite (unique_kept _ _ _ (as_handler s x) kd _ _ Hkd E1). destruct (flag_nosame kd); [|by eapply df_kept]. injection Hk as <-. exists kd.
    split; [done|]. eapply make_key_inside; [done|exact Hkd|]. by apply Hf.
Qed.

(** One call of a session whose buffers fit. *)
Lemma checked_step s K i x c : db_ok s → db_fits s K → sessions s !! i = Some x → call_ok s x c → call_fits uint_korr s (K i) x c →
  checked_call i c s = db_call i c s ∧
  ∀ r s1, db_call i c s = Ret (r, s1) → db_ok s1 ∧ db_fits s1 (λ j, if decide (j = i) then kept_after s c r (K i) else K j).
Proof.
  intros Hok F Hi Hc Hf. split.
  { unfold Buffers.checked_call. rewrite Hi. by rewrite (call_inside_fits s K F i x c Hok Hi Hc Hf). }
  intros r s1 E. set (W := rec_fits uint_korr (reclength (share s)) (db_keydefs s)).
  assert (HW : Forall W (stored c)) by (destruct c; cbn in Hf; try constructor; try done; apply Hf).
  pose proof (db_call_ok W uint_korr sint_korr float_korr ha_keytype update_auto_increment get_rec_bits i x c s HW Hok Hi Hc) as H. rewrite E in H.
  destruct H as (Hok1 & [Kp _ Hfrom] & Ek & Hs1). split; [done|]. constructor; rewrite ?Ek, ?(kp_reclength _ _ Kp), ?(kp_auto _ _ Kp), ?(kp_auto_type _ _ Kp).
  - intros k kd Hkd. rewrite (kp_cfg _ _ Kp). by eapply df_ops.
  - apply F.
  - apply F.
  - intros j rec [Hj|Hj]%Hfrom; [by eapply df_rows|exact Hj].
  - intros j y k Hj Hk. destruct (decide (j = i)) as [->|Hne]; [|rewrite Hs1 in Hj by done; by eapply df_kept].
    unfold Sessions.db_call in E. rewrite Hi in E. destruct (run_call _ _ _ _ _ _ c (as_handler s x)) as [[r' h']| |] eqn:Er; try done. injection E as -> <-.
    cbn in Hj. rewrite lookup_insert_eq in Hj. injection Hj as <-. cbn. by eapply kept_call.
Qed.

Lemma checked_exec_fits s K tr s' K' : db_ok s → db_fits s K → checked_exec s K tr s' K' → db_ok s' ∧ db_fits s' K'.
Proof.
  intros Hok F He. induction He as [|s K i x c r s1 tr s2 K2 Hi Hc Hf E He IH]; [done|].
  destruct (checked_step s K i x c Hok F Hi Hc Hf) as [Ec Hstep]. rewrite Ec in E. destruct (Hstep _ _ E) as [Hok1 F1]. by apply IH.
Qed.
End sessions.

(** * Properties *)

(** C11: Sessions do not disturb each other and stay inside their buffers.  Any number of handlers
    work on one table - they scan, look rows up, insert, update and delete, reserve and set
    auto-increment values, begin and end statements, and delete all rows while no session has a row
    lock - and the server interleaves their calls in any order.  The server passes buffers in its
    format: whole records with VARCHAR values inside them, whole packed keys with VARCHAR lengths
    within their segments; it asks for the next row of an index only after a lookup that kept its
    key, and for a unique row only through a key of fixed width; key definitions lie inside the
    records, odd bits in the last segment.  Then no call is undefined: none touches a byte outside
    the key and record buffers, the kept key or the rows, follows a null pointer or leaves the
    arrays of the share.  The table stays well formed with exactly the row locks that sessions hold, no row
    being locked by two; and every further call returns, unless another session holds a row lock,
    which is all it ever waits for. *)
Theorem sessions_safe my_hasher_mysql5x MY_HASH_ADD_MARIADB uint_korr sint_korr float_korr ha_keytype update_auto_increment get_rec_bits bits_bytes s K tr s' K' :
  (∀ a b, take 2 a = take 2 b → uint_korr 2 a = uint_korr 2 b) →
  db_ok s → db_fits my_hasher_mysql5x MY_HASH_ADD_MARIADB uint_korr ha_keytype get_rec_bits bits_bytes s K →
  checked_exec uint_korr sint_korr float_korr ha_keytype update_auto_increment get_rec_bits bits_bytes s K tr s' K' →
  (∀ i x, sessions s' !! i = Some x → wf (session_held x ∪ others i s') (share s') ∧ session_held x ## others i s') ∧
  ∀ i x c, sessions s' !! i = Some x → call_ok s' x c → call_fits uint_korr s' (K' i) x c →
    (∃ r s'', checked_call uint_korr sint_korr float_korr ha_keytype update_auto_increment get_rec_bits bits_bytes i c s' = Ret (r, s'')) ∨
    (checked_call uint_korr sint_korr float_korr ha_keytype update_auto_increment get_rec_bits bits_bytes i c s' = Hang ∧
     ∃ j y, j ≠ i ∧ sessions s' !! j = Some y ∧ se_locked y = true).
Proof.
  intros Hkorr Hok F He. destruct (checked_exec_fits _ _ _ _ _ _ _ _ _ Hkorr _ _ _ _ _ Hok F He) as [Hok' F']. split.
  - intros i x Hi. pose proof (Hok' i x Hi) as A. split; [apply (ho_wf _ _ (am_handle _ _ A))|apply A].
  - intros i x c Hi Hc Hf. destruct (checked_step _ _ _ sint_korr float_korr _ update_auto_increment _ _ Hkorr _ _ i x c Hok' F' Hi Hc Hf) as [-> _].
    pose proof (db_call_ok (λ _, True) uint_korr sint_korr float_korr ha_keytype update_auto_increment get_rec_bits i x c s' (all_stored c) Hok' Hi Hc) as H.
    destruct (db_call _ _ _ _ _ _ i c s') as [[r s'']| |]; [left; eauto|done|by right].
Qed.
