(* ===== verification/Standalone.v ===== *)
(** The standalone test of the core (src/standalone-test/main.cpp): its two key definitions, which
    are a second instance of [KeyOpsLaws], and its tests as programs over the operations of the
    core. *)

From S2P Require Import Prelude CoreState CoreOps RowOps Shape Inv Chains Reads Alloc Freelist Steps Insert Delete Lockset Update Clear Lifecycle Spec Hash.

(** * Records *)

Definition u8 (x : Z) : Z := x mod 2 ^ 8.
Definition i64 (x : Z) : Z := (x + 2 ^ 63) mod 2 ^ 64 - 2 ^ 63.

(** The eight bytes of an int64, least significant first, and the int64 at [off]. *)
Definition store64 (v : Z) : bytes := (λ i, u8 (Z.shiftr v (8 * i))) <$> seqZ 0 8.
Definition bytes64 (p : bytes) (off : Z) : bytes := (λ i, u8 (byte_at p (off + i))) <$> seqZ 0 8.
Definition word (l : bytes) : Z := foldr (λ b acc, b + 256 * acc) 0 l.
Definition load64 (p : bytes) (off : Z) : Z := i64 (word (bytes64 p off)).

Record Rec := mkRec { rec_k : Z; rec_v : Z }.
Definition sizeof_Rec : Z := 16.
(** [(fm_u8 * )&r] and [*(Rec * )buf] *)
Definition Rec_bytes (r : Rec) : bytes := store64 (rec_k r) ++ store64 (rec_v r).
Definition Rec_at (buf : bytes) : Rec := mkRec (load64 buf 0) (load64 buf 8).

(** * Key callbacks *)

Definition fnv (l : bytes) : Z :=
  let h := fold_left (λ h x, u64 (Z.lxor h x * 1099511628211)) l 1469598103934665603 in
  u32 (Z.lxor h (Z.shiftr h 32)).

Definition hk0_hash_rec (rec : bytes) : Z := fnv (store64 (load64 rec 0)).
Definition hk0_hash_key (pk : bytes) : Z := fnv (bytes64 pk 0).
Definition hk0_cmp_rec_rec (a b : bytes) : Z := if decide (load64 a 0 = load64 b 0) then 0 else 1.
Definition hk0_cmp_rec_key (rec pk : bytes) : Z := if decide (load64 rec 0 = load64 pk 0) then 0 else 1.
Definition hk0_null (_ : bytes) : Z := 0.

Definition hk1_hash_rec (rec : bytes) : Z := u32 (Z.land (load64 rec 0) 3).
Definition hk1_hash_key (pk : bytes) : Z := u32 (Z.land (load64 pk 0) 3).
Definition hk1_cmp_rec_rec (a b : bytes) : Z := if decide (Z.land (load64 a 0) 3 = Z.land (load64 b 0) 3) then 0 else 1.
Definition hk1_cmp_rec_key (rec pk : bytes) : Z := if decide (Z.land (load64 rec 0) 3 = Z.land (load64 pk 0) 3) then 0 else 1.
Definition hk1_null (_ : bytes) : Z := 0.

Definition hk0_ops : FM_KEY_OPS := mkOps (Some hk0_hash_rec) (Some hk0_hash_key) (Some hk0_cmp_rec_rec) (Some hk0_cmp_rec_key) (Some hk0_null).
Definition hk1_ops : FM_KEY_OPS := mkOps (Some hk1_hash_rec) (Some hk1_hash_key) (Some hk1_cmp_rec_rec) (Some hk1_cmp_rec_key) (Some hk1_null).

(** * Tests *)

(** The local share of a test and the counter of failures. *)
Record tstate := mkT { t_core : FM_SHARE_CORE; g_failures : Z }.
Abbreviation TM := (M tstate).

Definition in_test {A} (m : SM A) : TM A := λ t,
  match m (t_core t) with
  | Ret (a, s) => Ret (a, mkT s (g_failures t))
  | Ub => Ub
  | Hang => Hang
  end.

Definition test_fail : TM () := modify (λ t, mkT (t_core t) (g_failures t + 1)).
Definition CHECK (c : bool) : TM () := if c then mret tt else test_fail.
Definition gen_of (idx : Z) : TM Z := in_test (sl ← deref_slot idx; mret (gen sl)).

Definition is_rc (rc want : fm_err) : bool := bool_decide (rc = want).

(** Test C.  The allocator is [malloc] ([alloc]); the record buffers start with [junk]. *)
Definition test_stale_pos (alloc : nat → Z → bool) (junk : bytes) : TM () :=
  in_test (fm_core_init_share sizeof_Rec 0 (Z.shiftl 1 20) 64 alloc);;
  let a := Rec_bytes (mkRec 1 10) in
  let b := Rec_bytes (mkRec 2 20) in
  ra ← in_test (fm_core_insert_row a (-1) 0 junk);
  CHECK (is_rc (ins_rc ra) FM_ERR_OK);;
  rb ← in_test (fm_core_insert_row b (-1) (ins_errkey ra) junk);
  CHECK (is_rc (ins_rc rb) FM_ERR_OK);;
  let ia := ins_idx ra in
  ga ← gen_of ia;
  rc ← in_test (fm_core_delete_row ia ga);
  CHECK (is_rc rc FM_ERR_OK);;
  let c := Rec_bytes (mkRec 3 30) in
  rcc ← in_test (fm_core_insert_row c (-1) (ins_errkey rb) junk);
  CHECK (is_rc (ins_rc rcc) FM_ERR_OK);;
  let ic := ins_idx rcc in
  CHECK (bool_decide (ic = ia));;
  '(rc, buf) ← in_test (fm_core_read_row ia true ga junk);
  CHECK (is_rc rc FM_ERR_DELETED);;
  let d := Rec_bytes (mkRec 3 31) in
  '(rc, _) ← in_test (fm_core_update_row ia ga c d (ins_errkey rcc) junk);
  CHECK (is_rc rc FM_ERR_DELETED);;
  rc ← in_test (fm_core_delete_row ia ga);
  CHECK (is_rc rc FM_ERR_DELETED);;
  gc ← gen_of ic;
  '(rc, buf) ← in_test (fm_core_read_row ic true gc buf);
  CHECK (is_rc rc FM_ERR_OK);;
  CHECK (bool_decide (rec_k (Rec_at buf) = 3 ∧ rec_v (Rec_at buf) = 30));;
  in_test fm_core_free_share.

(** Test D: the rows [0 .. n-1], the lookups by the second key, and the moves of a key. *)
Definition test_keys (k : Z) : FM_KEY_OPS * bool := if decide (k = 0) then (hk0_ops, true) else (hk1_ops, false).

Fixpoint insert_rows (n : nat) (i : Z) (junk : bytes) : TM () :=
  match n with
  | O => mret tt
  | S n' =>
      r ← in_test (fm_core_insert_row (Rec_bytes (mkRec i (i * 2))) (-1) 0 junk);
      CHECK (is_rc (ins_rc r) FM_ERR_OK);;
      insert_rows n' (i + 1) junk
  end.

Fixpoint count_next (fuel : nat) (pk : bytes) (cur seen : Z) (buf : bytes) : TM Z :=
  match fuel with
  | O => hang
  | S fuel' =>
      '(rc, idx, buf) ← in_test (fm_core_find_next 1 pk cur buf cur);
      if is_rc rc FM_ERR_OK then count_next fuel' pk idx (seen + 1) buf else mret seen
  end.

(** [for (int i= bucket; i < N; i+= 4) expect++;] *)
Fixpoint expect_loop (fuel : nat) (i n expect : Z) : Z :=
  match fuel with
  | O => expect
  | S fuel' => if decide (i < n) then expect_loop fuel' (i + 4) n (expect + 1) else expect
  end.

Definition count_key (pk1 junk : bytes) : TM Z :=
  '(rc, idx, buf) ← in_test (fm_core_find 1 pk1 junk (-1));
  if is_rc rc FM_ERR_OK then t ← get; count_next (walk_fuel (t_core t)) pk1 idx 1 buf else mret 0.

Fixpoint count_buckets (m : nat) (n bucket : Z) (junk : bytes) : TM () :=
  match m with
  | O => mret tt
  | S m' =>
      seen ← count_key (store64 bucket) junk;
      CHECK (bool_decide (seen = expect_loop (Z.to_nat n) bucket n 0));;
      count_buckets m' n (bucket + 1) junk
  end.

Fixpoint move_keys (m : nat) (n i : Z) (junk : bytes) : TM () :=
  match m with
  | O => mret tt
  | S m' =>
      let pk0 := store64 i in
      '(rc, idx, buf) ← in_test (fm_core_find 0 pk0 junk (-1));
      CHECK (is_rc rc FM_ERR_OK);;
      let nrc := mkRec (i + n) (i64 (rec_v (Rec_at buf) + 1)) in
      g ← gen_of idx;
      '(rc, _) ← in_test (fm_core_update_row idx g buf (Rec_bytes nrc) 0 junk);
      CHECK (is_rc rc FM_ERR_OK);;
      '(rc, _, _) ← in_test (fm_core_find 0 pk0 buf idx);
      CHECK (is_rc rc FM_ERR_NOT_FOUND);;
      move_keys m' n (i + 1) junk
  end.

Fixpoint find_moved (m : nat) (n i : Z) (junk : bytes) : TM () :=
  match m with
  | O => mret tt
  | S m' =>
      '(rc, _, buf) ← in_test (fm_core_find 0 (store64 (i + n)) junk (-1));
      CHECK (is_rc rc FM_ERR_OK);;
      CHECK (bool_decide (rec_v (Rec_at buf) = i * 2 + 1));;
      find_moved m' n (i + 1) junk
  end.

(** Test D with [n] rows, the first [m] of them moved; the source has 1000 and 200. *)
Definition test_multikey (n m : nat) (alloc : nat → Z → bool) (junk : bytes) : TM () :=
  in_test (fm_core_init_share sizeof_Rec 2 (Z.shiftl 1 16) 64 alloc;; fm_key_ops_init test_keys);;
  insert_rows n 0 junk;;
  count_buckets 4 (Z.of_nat n) 0 junk;;
  move_keys m (Z.of_nat n) 0 junk;;
  find_moved m (Z.of_nat n) 0 junk;;
  in_test fm_core_free_share.

(** * Words and bytes *)

(** The digits of a number in base 256. *)
Fixpoint digits (n : nat) (v : Z) : bytes := match n with O => [] | S n' => v mod 256 :: digits n' (v / 256) end.

Lemma store64_digits v : store64 v = digits 8 v.
Proof.
  unfold store64, u8. change (seqZ 0 8) with [0;1;2;3;4;5;6;7]. cbn [fmap list_fmap digits Z.mul Z.add Pos.mul Pos.add].
  rewrite !Z.shiftr_div_pow2 by lia. rewrite !Z.div_div by lia. rewrite Z.pow_0_r, Z.div_1_r. reflexivity.
Qed.

Lemma word_digits n v : word (digits n v) = v mod 256 ^ Z.of_nat n.
Proof.
  revert v. induction n as [|n IH]; intros v; [simpl; by rewrite Z.mod_1_r|]. cbn [digits word foldr]. fold (word (digits n (v / 256))). rewrite IH.
  rewrite Nat2Z.inj_succ, Z.pow_succ_r by lia. by rewrite (Z.rem_mul_r v 256) by lia.
Qed.
Lemma digits_word l v : Forall (λ b, 0 ≤ b < 256) l → v mod 256 ^ Z.of_nat (length l) = word l → digits (length l) v = l.
Proof.
  intros Hl. revert v. induction Hl as [|b l Hb Hl IH]; intros v Hv; [done|]. cbn [length digits word foldr] in *. fold (word l) in Hv.
  rewrite Nat2Z.inj_succ, Z.pow_succ_r, (Z.rem_mul_r v 256) in Hv by lia.
  pose proof (Z.mod_pos_bound v 256 ltac:(lia)). f_equal; [lia|]. apply IH. lia.
Qed.

Lemma i64_mod x : i64 x mod 2 ^ 64 = x mod 2 ^ 64.
Proof. unfold i64. rewrite Zminus_mod_idemp_l. f_equal. lia. Qed.

Lemma i64_small x : - 2 ^ 63 ≤ x < 2 ^ 63 → i64 x = x.
Proof. intros. unfold i64. rewrite Z.mod_small; lia. Qed.

Lemma i64_ext x y : x mod 2 ^ 64 = y mod 2 ^ 64 → i64 x = i64 y.
Proof. intros E. unfold i64. by rewrite (Z.add_mod x), (Z.add_mod y), E by done. Qed.

Lemma u8_byte x : 0 ≤ u8 x < 256.
Proof. apply Z.mod_pos_bound. done. Qed.

(** The bytes of the int64 loaded are those of the memory. *)
Lemma store_load64 p off : store64 (load64 p off) = bytes64 p off.
Proof.
  rewrite store64_digits. unfold load64. apply (digits_word (bytes64 p off)).
  - apply Forall_fmap, Forall_true. intros i. apply u8_byte.
  - change (256 ^ Z.of_nat (length (bytes64 p off))) with (2 ^ 64). rewrite i64_mod. apply Z.mod_small.
    unfold bytes64. change (seqZ 0 8) with [0;1;2;3;4;5;6;7]. cbn [fmap list_fmap word foldr].
    assert (∀ j, 0 ≤ u8 (byte_at p (off + j)) < 256) as B by (intros; apply u8_byte).
    pose proof (B 0); pose proof (B 1); pose proof (B 2); pose proof (B 3); pose proof (B 4); pose proof (B 5); pose proof (B 6); pose proof (B 7). lia.
Qed.

Lemma byte_at_digits v off pre post (i : Z) : Z.of_nat (length pre) = off → 0 ≤ i < 8 →
  byte_at (pre ++ store64 v ++ post) (off + i) = u8 (Z.shiftr v (8 * i)).
Proof.
  intros <- Hi. unfold byte_at. rewrite lookup_app_r by lia. rewrite lookup_app_l; [|unfold store64; rewrite length_fmap, length_seqZ; lia].
  unfold store64. rewrite list_lookup_fmap, (lookup_seqZ_lt 0 8); [|lia]. simpl. do 3 f_equal. lia.
Qed.

(** An int64 stored is loaded back. *)
Lemma load_store64 v pre post : - 2 ^ 63 ≤ v < 2 ^ 63 → load64 (pre ++ store64 v ++ post) (Z.of_nat (length pre)) = v.
Proof.
  intros Hv. unfold load64.
  assert (bytes64 (pre ++ store64 v ++ post) (Z.of_nat (length pre)) = store64 v) as ->.
  { unfold bytes64. unfold store64 at 2. apply list_fmap_ext. intros j i [-> Hi]%lookup_seqZ.
    rewrite byte_at_digits by lia. unfold u8. by rewrite Z.mod_mod by done. }
  rewrite store64_digits, word_digits. rewrite <-(i64_small v Hv) at 2. apply i64_ext. by rewrite Z.mod_mod.
Qed.


(** * The callbacks are lawful *)

Lemma hk0_cmp a b : hk0_cmp_rec_rec a b = 0 ↔ load64 a 0 = load64 b 0.
Proof. unfold hk0_cmp_rec_rec. by case_decide. Qed.
Lemma hk0_cmp_key a pk : hk0_cmp_rec_key a pk = 0 ↔ load64 a 0 = load64 pk 0.
Proof. unfold hk0_cmp_rec_key. by case_decide. Qed.
Lemma hk1_cmp a b : hk1_cmp_rec_rec a b = 0 ↔ Z.land (load64 a 0) 3 = Z.land (load64 b 0) 3.
Proof. unfold hk1_cmp_rec_rec. by case_decide. Qed.
Lemma hk1_cmp_key a pk : hk1_cmp_rec_key a pk = 0 ↔ Z.land (load64 a 0) 3 = Z.land (load64 pk 0) 3.
Proof. unfold hk1_cmp_rec_key. by case_decide. Qed.

Lemma hk0_laws : KeyOpsLaws hk0_ops.
Proof.
  split; try by eexists.
  - split; unfold same_key; cbn; intros ?; [|intros ?|intros ? ?]; rewrite !hk0_cmp; congruence.
  - unfold same_key, hash_of. cbn. intros a b E%hk0_cmp. unfold hk0_hash_rec. by rewrite E.
  - done.
  - unfold matches_key, hash_of, key_hash_of. cbn. intros a pk E%hk0_cmp_key. unfold hk0_hash_rec, hk0_hash_key.
    by rewrite E, store_load64.
Qed.

Lemma hk1_laws : KeyOpsLaws hk1_ops.
Proof.
  split; try by eexists.
  - split; unfold same_key; cbn; intros ?; [|intros ?|intros ? ?]; rewrite !hk1_cmp; congruence.
  - unfold same_key, hash_of. cbn. intros a b E%hk1_cmp. unfold hk1_hash_rec. by rewrite E.
  - done.
  - unfold matches_key, hash_of, key_hash_of. cbn. intros a pk E%hk1_cmp_key. unfold hk1_hash_rec, hk1_hash_key. by rewrite E.
Qed.

Lemma test_keys_lawful k : KeyOpsLaws (test_keys k).1.
Proof. unfold test_keys. case_decide; [apply hk0_laws|apply hk1_laws]. Qed.

(** * Records in bytes *)

Definition in64 (x : Z) : Prop := - 2 ^ 63 ≤ x < 2 ^ 63.
(** The image of the record with key [p.1] and value [p.2]. *)
Definition kv_bytes (p : Z * Z) : bytes := Rec_bytes (mkRec p.1 p.2).

Lemma length_store64 v : length (store64 v) = 8%nat.
Proof. done. Qed.
Lemma kv_length p : Z.of_nat (length (kv_bytes p)) = 16.
Proof. done. Qed.

Lemma load_key k v : in64 k → load64 (kv_bytes (k, v)) 0 = k.
Proof. apply (load_store64 k [] (store64 v)). Qed.

Lemma load_value k v : in64 v → load64 (kv_bytes (k, v)) 8 = v.
Proof.
  intros Hv. pose proof (load_store64 v (store64 k) [] Hv) as E. rewrite app_nil_r, length_store64 in E. exact E.
Qed.

Lemma load_pk k : in64 k → load64 (store64 k) 0 = k.
Proof. intros Hk. pose proof (load_store64 k [] [] Hk) as E. by rewrite app_nil_r in E. Qed.

Lemma Rec_roundtrip k v : in64 k → in64 v → Rec_at (kv_bytes (k, v)) = mkRec k v.
Proof. intros. unfold Rec_at. by rewrite load_key, load_value. Qed.

Lemma kv_inj k v k' v' : in64 k → in64 v → in64 k' → in64 v' → kv_bytes (k, v) = kv_bytes (k', v') → k = k' ∧ v = v'.
Proof. intros ? ? ? ? E. apply (f_equal Rec_at) in E. rewrite !Rec_roundtrip in E by done. by injection E. Qed.

(** * A share that holds a map *)

(** A record type with an int64 key at offset 0: its size, and the image of a key with a value. *)
Class RecordLayout (size : Z) (enc : Z * Z → bytes) : Prop := {
  lay_size : 0 < size < 2 ^ 16;
  lay_length p : Z.of_nat (length (enc p)) = size;
  lay_key k v : in64 k → load64 (enc (k, v)) 0 = k
}.
#[export] Instance Rec_layout : RecordLayout sizeof_Rec kv_bytes.
Proof. split; [done|done|apply load_key]. Qed.

(** [holds_in size enc n mx fr s m]: the share has the first [n] keys of the tests and room for [mx]
    rows, and its rows are the images of the entries of [m]. *)
Record holds_in (size : Z) (enc : Z * Z → bytes) (n mx : Z) (fr : gset nat) (s : FM_SHARE_CORE) (m : gmap Z Z) : Prop := {
  hd_wf : wf ∅ s;
  hd_length : reclength s = size;
  hd_keys : keys s = n;
  hd_cfg k : 0 ≤ k < n → key_cfg s k = Some (test_keys k, 64);
  hd_max : max_records s = mx;
  hd_alloc c sz : ops_alloc s c sz = true;
  hd_foreign : foreign s = fr;
  hd_rows : (map_to_list (table s)).*2 ≡ₚ enc <$> map_to_list m;
  hd_fit k v : m !! k = Some v → in64 k ∧ in64 v
}.
Arguments hd_wf {size enc} _ _ _ _ _ _.
Arguments hd_length {size enc} _ _ _ _ _ _.
Arguments hd_keys {size enc} _ _ _ _ _ _.
Arguments hd_cfg {size enc} _ _ _ _ _ _ _ _.
Arguments hd_max {size enc} _ _ _ _ _ _.
Arguments hd_alloc {size enc} _ _ _ _ _ _ _ _.
Arguments hd_foreign {size enc} _ _ _ _ _ _.
Arguments hd_rows {size enc} _ _ _ _ _ _.
Arguments hd_fit {size enc} _ _ _ _ _ _ _ _ _.
(** The records of tests B, C and D. *)
Abbreviation holds := (holds_in sizeof_Rec kv_bytes).

Lemma holds_config {size enc} n mx fr s s' m m' : holds_in size enc n mx fr s m → wf ∅ s' → same_config s s' →
  (map_to_list (table s')).*2 ≡ₚ enc <$> map_to_list m' → (∀ k v, m' !! k = Some v → in64 k ∧ in64 v) → holds_in size enc n mx fr s' m'.
Proof.
  intros H Hwf C Hr Hf. constructor; try done.
  - rewrite (sc_reclength _ _ C). apply H.
  - rewrite (sc_keys _ _ C). apply H.
  - intros k Hk. rewrite (sc_cfg _ _ C). by apply H.
  - rewrite (sc_max _ _ C). apply H.
  - intros. rewrite (sc_alloc _ _ C). apply H.
  - rewrite (sc_foreign _ _ C). apply H.
Qed.

(** Slots that have a row keep it and their generation. *)
Definition rows_kept (s s' : FM_SHARE_CORE) : Prop :=
  total_slots s ≤ total_slots s' ∧ ∀ i b, table s !! i = Some b → table s' !! i = Some b ∧ gen_at s' i = gen_at s i.

Section holds.
Context {size : Z} {enc : Z * Z → bytes} `{!RecordLayout size enc}.
#[local] Abbreviation holds := (holds_in size enc).
Context {n mx : Z} {fr : gset nat} {s : FM_SHARE_CORE} {m : gmap Z Z} (H : holds n mx fr s m).

Lemma holds_row idx b : table s !! idx = Some b → ∃ k v, m !! k = Some v ∧ b = enc (k, v).
Proof.
  intros Hb. assert (b ∈ (map_to_list (table s)).*2) as Hin.
  { apply list_elem_of_fmap. exists (idx, b). split; [done|]. by apply elem_of_map_to_list. }
  rewrite (hd_rows _ _ _ _ _ H) in Hin. apply list_elem_of_fmap in Hin as ([k v] & -> & Hkv%elem_of_map_to_list). eauto.
Qed.

Lemma holds_slot k v : m !! k = Some v → ∃ idx, table s !! idx = Some (enc (k, v)).
Proof.
  intros Hk. assert (enc (k, v) ∈ enc <$> map_to_list m) as Hin.
  { apply list_elem_of_fmap. exists (k, v). split; [done|]. by apply elem_of_map_to_list. }
  rewrite <-(hd_rows _ _ _ _ _ H) in Hin. apply list_elem_of_fmap in Hin as ([i b] & -> & Hib%elem_of_map_to_list). eauto.
Qed.

Lemma holds_range idx b : table s !! idx = Some b → 0 ≤ idx < total_slots s.
Proof. pose proof (wf_static _ _ (hd_wf _ _ _ _ _ H)) as Hs. rewrite table_lookup by done. by apply row_at_range. Qed.

Lemma holds_size : base.size (table s) = base.size m.
Proof.
  rewrite <-!length_map_to_list, <-(length_fmap snd), (hd_rows _ _ _ _ _ H). apply length_fmap.
Qed.

Lemma holds_conflict k v j : in64 k → 0 ≤ j < n → conflict s j (enc (k, v)) → is_Some (m !! k).
Proof.
  intros Hk Hj (o & nb & i & b & Hc & _ & Hb & Hsame)%conflict_table; [|apply H]. rewrite (hd_cfg _ _ _ _ _ H) in Hc by done.
  unfold test_keys in Hc. case_decide; simplify_eq. destruct (holds_row i b Hb) as (k' & v' & Hk' & ->).
  destruct (hd_fit _ _ _ _ _ H _ _ Hk'). unfold same_key in Hsame. cbn in Hsame. apply hk0_cmp in Hsame. rewrite !lay_key in Hsame by done.
  subst. by eexists.
Qed.

Lemma holds_no_conflict k v : in64 k → 0 < n → (∀ j, 0 ≤ j < n → ¬ conflict s j (enc (k, v))) → m !! k = None.
Proof.
  intros Hk Hn Hno. destruct (m !! k) as [w|] eqn:E; [|done]. destruct (holds_slot k w E) as [i Hi].
  destruct (Hno 0 ltac:(lia)). apply conflict_table; [apply H|]. exists hk0_ops, 64, i, (enc (k, w)).
  rewrite (hd_cfg _ _ _ _ _ H) by lia. split; [done|]. split; [by intros []|]. split; [done|]. unfold same_key. cbn. apply hk0_cmp. by rewrite !lay_key.
Qed.

Lemma holds_insert k v out ek scratch : in64 k → in64 v → 0 < n → Z.of_nat (base.size m) < mx →
  wp (fm_core_insert_row (enc (k, v)) out ek scratch) (λ r s', rows_kept s s' ∧
    (ins_rc r = FM_ERR_OK ∧ m !! k = None ∧ holds n mx fr s' (<[k := v]> m) ∨
     ins_rc r = FM_ERR_DUP_KEY ∧ is_Some (m !! k) ∧ holds n mx fr s' m)) s.
Proof.
  intros Hk Hv Hn Hsz. pose proof (hd_wf _ _ _ _ _ H) as Hwf. eapply wp_mono; [apply (insert_row_spec ∅ s); [done|apply held_in_empty|by rewrite (hd_length _ _ _ _ _ H), lay_length]|].
  intros r s' [Hwf' C Ht Hg Hout]. unfold insert_outcome in Hout. rewrite (hd_keys _ _ _ _ _ H) in Hout.
  assert (Hsame : table s' = table s → rows_kept s s' ∧ holds n mx fr s' m).
  { intros E. split; [split; [done|]|].
    - intros i b Hb. rewrite E. split; [done|]. apply Hg. by eapply holds_range.
    - eapply holds_config; [done..|by rewrite E; apply H|by apply H]. }
  destruct (ins_rc r); try done.
  - destruct Hout as (_ & Hnone & Et & _ & Hno). pose proof (holds_no_conflict k v Hk Hn Hno) as Hm. split; [split; [done|]|left; split_and!; [done..|]].
    + intros i b Hb. rewrite Et, lookup_insert_ne by congruence. split; [done|]. apply Hg. by eapply holds_range.
    + eapply holds_config; [done..| |].
      * rewrite Et, !map_to_list_insert by done. cbn. by rewrite (hd_rows _ _ _ _ _ H).
      * intros k' v' [[<- <-]|[_ ?]]%lookup_insert_Some; [done|by apply H].
  - destruct Hout as (Et & _ & _ & j & Hj & Hx). destruct (Hsame Et). split; [done|]. right. split_and!; try done. by eapply holds_conflict.
  - exfalso. destruct Hout as (_ & _ & _ & Hx). rewrite (wf_records _ _ Hwf), holds_size, (hd_max _ _ _ _ _ H) in Hx. lia.
  - exfalso. destruct Hout as (_ & _ & _ & c & sz & _ & Hx). by rewrite (hd_alloc _ _ _ _ _ H) in Hx.
Qed.

Lemma holds_find k buf out : in64 k → 0 < n →
  wp (fm_core_find 0 (store64 k) buf out) (λ r s', s' = s ∧ match m !! k with
    | Some v => r.1.1 = FM_ERR_OK ∧ table s !! r.1.2 = Some (enc (k, v)) ∧ r.2 = enc (k, v)
    | None => r.1.1 = FM_ERR_NOT_FOUND ∧ r.1.2 = out
    end) s.
Proof.
  intros Hk Hn. assert (Hc : key_cfg s 0 = Some (hk0_ops, true, 64)) by (by rewrite (hd_cfg _ _ _ _ _ H) by lia).
  eapply wp_mono; [apply (core_find_spec ∅ s 0 (store64 k) buf out hk0_ops true 64 (hd_wf _ _ _ _ _ H)); [rewrite (hd_keys _ _ _ _ _ H); lia|exact Hc]|].
  intros [[rc idx] rec] s' [-> Hcase]. split; [done|]. unfold matches_key in Hcase. cbn in Hcase |- *. destruct Hcase as [(-> & Hrow & Hm)|(-> & -> & Hno)].
  - destruct (holds_row _ _ Hrow) as (k' & v' & Hk' & ->). destruct (hd_fit _ _ _ _ _ H _ _ Hk') as [? _].
    apply hk0_cmp_key in Hm. rewrite lay_key, load_pk in Hm by done. subst k'. by rewrite Hk'.
  - destruct (m !! k) as [v|] eqn:E; [|done]. destruct (holds_slot _ _ E) as [i Hi]. destruct (Hno _ _ Hi).
    apply hk0_cmp_key. by rewrite lay_key, load_pk.
Qed.

(** Replacing the row at [idx]. *)
Lemma holds_delete_rows idx k v : table s !! idx = Some (enc (k, v)) → m !! k = Some v →
  (map_to_list (delete idx (table s))).*2 ≡ₚ enc <$> map_to_list (delete k m).
Proof.
  intros Hi Hk. pose proof (hd_rows _ _ _ _ _ H) as P. rewrite <-(map_to_list_delete _ _ _ Hi), <-(map_to_list_delete _ _ _ Hk) in P.
  by apply Permutation_cons_inv in P.
Qed.

Lemma holds_update idx k v g k' v' ek scratch : table s !! idx = Some (enc (k, v)) → gen_at s idx = Some g → m !! k = Some v →
  in64 k' → in64 v' → k' = k ∨ m !! k' = None →
  wp (fm_core_update_row idx g (enc (k, v)) (enc (k', v')) ek scratch) (λ r s', r.1 = FM_ERR_OK ∧
    holds n mx fr s' (<[k' := v']> (delete k m)) ∧ table s' = <[idx := enc (k', v')]> (table s)) s.
Proof.
  intros Hi Hg Hk Hk' Hv' Hfree. pose proof (hd_wf _ _ _ _ _ H) as Hwf.
  eapply wp_mono; [apply (update_row_spec ∅ s); [done|set_solver|by eapply holds_range|by rewrite (hd_length _ _ _ _ _ H), lay_length|]|].
  { intros r Hr _. congruence. }
  intros r s' Hout. unfold update_outcome in Hout. destruct (r.1); try done.
  - destruct Hout as (_ & _ & _ & [Hwf' C _ Et _] & _). split; [done|]. split; [|done]. eapply holds_config; [done..| |].
    + rewrite Et, <-(insert_delete_eq (table s)). assert (Hn1 : delete k m !! k' = None).
      { destruct (decide (k' = k)) as [->|]; [apply lookup_delete_eq|]. rewrite lookup_delete_ne by done. by destruct Hfree. }
      rewrite !map_to_list_insert by (done || apply lookup_delete_eq). cbn. by rewrite (holds_delete_rows idx k v).
    + intros a b [[<- <-]|[_ [_ ?]%lookup_delete_Some]]%lookup_insert_Some; [done|by apply H].
  - exfalso. destruct Hout as (_ & [Hx|Hx] & _); congruence.
  - exfalso. destruct Hout as [(j & _ & Hj & Hch & Hx) _]. rewrite (hd_keys _ _ _ _ _ H) in Hj.
    destruct (hd_fit _ _ _ _ _ H _ _ Hk). destruct (holds_conflict _ _ _ Hk' Hj Hx) as [w Hw]. destruct Hfree as [->|?]; [|congruence].
    unfold changed_key in Hch. rewrite (hd_cfg _ _ _ _ _ H) in Hch by done. unfold test_keys in Hch.
    case_decide; apply Hch; unfold same_key; cbn; [apply hk0_cmp|apply hk1_cmp]; by rewrite !lay_key.
Qed.

(** The old image that is passed along does not matter if it has the key of the row, and the new
    image has that key, too. *)
Lemma holds_replace idx k v g old v' ek scratch : table s !! idx = Some (enc (k, v)) → gen_at s idx = Some g → m !! k = Some v →
  load64 old 0 = k → in64 v' →
  wp (fm_core_update_row idx g old (enc (k, v')) ek scratch) (λ r s', r.1 = FM_ERR_OK ∧
    holds n mx fr s' (<[k := v']> m) ∧ table s' = <[idx := enc (k, v')]> (table s) ∧ total_slots s' = total_slots s ∧ ∀ i, gen_at s' i = gen_at s i) s.
Proof.
  intros Hi Hg Hk Hold Hv'. destruct (hd_fit _ _ _ _ _ H _ _ Hk) as [Hk64 Hv64]. pose proof (hd_wf _ _ _ _ _ H) as Hwf.
  assert (Hno : ∀ b, load64 b 0 = k → changed_keys s b (enc (k, v')) = []).
  { intros b Hb. apply elem_of_nil_inv. intros j [Hch Hj]%elem_of_changed_keys. rewrite (hd_keys _ _ _ _ _ H) in Hj. unfold changed_key in Hch.
    rewrite (hd_cfg _ _ _ _ _ H) in Hch by lia. unfold test_keys in Hch. case_decide; apply Hch; unfold same_key; cbn; [apply hk0_cmp|apply hk1_cmp]; by rewrite Hb, lay_key. }
  eapply wp_same; [apply (update_row_old ∅ s Hwf idx g old (enc (k, v))); [by apply Hno|by apply Hno, lay_key]|].
  eapply wp_mono; [apply (update_row_spec ∅ s); [done|set_solver|by eapply holds_range|by rewrite (hd_length _ _ _ _ _ H), lay_length|intros r Hr _; congruence]|].
  intros r s' Hout. pose proof (update_outcome_cases _ _ _ _ _ _ _ _ _ Hwf Hout) as (_ & Hgen & _).
  unfold update_outcome in Hout. destruct (r.1); try done.
  - destruct Hout as (_ & _ & _ & [Hwf' C Htot Et _] & _). split; [done|]. split; [|by split_and!]. eapply holds_config; [done..| |].
    + rewrite Et, <-(insert_delete_eq (table s)), <-(insert_delete_eq m). rewrite !map_to_list_insert by apply lookup_delete_eq. cbn. by rewrite (holds_delete_rows idx k v).
    + intros a b [[<- <-]|[_ ?]]%lookup_insert_Some; [done|by apply H].
  - exfalso. destruct Hout as (_ & [Hx|Hx] & _); congruence.
  - exfalso. destruct Hout as [(j & _ & Hj & Hch & Hx) _]. specialize (Hno (enc (k, v)) (lay_key k v Hk64)).
    assert (Hin : j ∈ changed_keys s (enc (k, v)) (enc (k, v'))) by by apply elem_of_changed_keys. rewrite Hno in Hin. by apply elem_of_nil in Hin.
Qed.

Lemma holds_delete idx k v g : table s !! idx = Some (enc (k, v)) → gen_at s idx = Some g → m !! k = Some v →
  wp (fm_core_delete_row idx g) (λ rc s', rc = FM_ERR_OK ∧ holds n mx fr s' (delete k m) ∧ table s' = delete idx (table s)) s.
Proof.
  intros Hi Hg Hk. eapply wp_mono; [apply (delete_row_spec ∅ s); [apply H|by eapply holds_range|set_solver]|].
  intros rc s' [(-> & _ & _ & [Hwf' C _ Et _])|(_ & [Hx|Hx] & _)]; [|congruence..]. split; [done|]. split; [|done].
  eapply holds_config; [done..| |].
  - rewrite Et. by apply holds_delete_rows with v.
  - intros a b [_ ?]%lookup_delete_Some. by apply H.
Qed.

Lemma holds_gen idx b : table s !! idx = Some b → ∃ g, gen_at s idx = Some g.
Proof. intros Hb. apply gen_at_is_Some; [apply H|by eapply holds_range]. Qed.
End holds.

(** * Runs of the tests *)

Lemma wp_in_test {A} (m : SM A) Q t : wp m Q (t_core t) → wp (in_test m) (λ a t', ∃ s, t' = mkT s (g_failures t) ∧ Q a s) t.
Proof. intros (a & s & E & HQ). exists a, (mkT s (g_failures t)). unfold in_test. rewrite E. eauto. Qed.

Ltac wp_test H := apply wp_bind; eapply wp_mono; [eapply wp_in_test, H|cbv beta].

Lemma check_run c t : c = true → CHECK c t = Ret (tt, t).
Proof. by intros ->. Qed.

Lemma is_rc_true rc want : rc = want → is_rc rc want = true.
Proof. intros ->. by apply bool_decide_true. Qed.

Lemma gen_of_run idx g t : gen_at (t_core t) idx = Some g → gen_of idx t = Ret (g, t).
Proof.
  unfold gen_at. intros (sl & Hsl & ->)%fmap_Some. unfold gen_of, in_test.
  rewrite (bind_Ret _ _ _ _ _ (deref_slot_run _ _ _ Hsl)). by destruct t.
Qed.

(** The test state after a step: no new failure and the map [m]. *)
Definition ok_with (f n mx : Z) (fr : gset nat) (m : gmap Z Z) (t : tstate) : Prop := g_failures t = f ∧ holds n mx fr (t_core t) m.

Section multikey.
Context (f n mx : Z) (fr : gset nat) (junk : bytes).
Context (Hn : 0 < n).

(** ** Insert *)

(** [fill c i m]: the rows [i .. i + c - 1] added to [m]. *)
Fixpoint fill (c : nat) (i : Z) (m : gmap Z Z) : gmap Z Z :=
  match c with O => m | S c' => fill c' (i + 1) (<[i := i * 2]> m) end.

Lemma fill_lookup c : ∀ i m k, fill c i m !! k = if decide (i ≤ k < i + Z.of_nat c) then Some (k * 2) else m !! k.
Proof.
  induction c as [|c IH]; intros i m k; simpl; [by rewrite decide_False by lia|]. rewrite IH.
  destruct (decide (k = i)) as [->|]; [rewrite decide_False, decide_True by lia; apply lookup_insert_eq|].
  rewrite lookup_insert_ne by done. repeat case_decide; (done || lia).
Qed.

Lemma insert_rows_spec c : ∀ i m t, ok_with f n mx fr m t → (∀ k, i ≤ k → m !! k = None) → 0 ≤ i → i + Z.of_nat c ≤ 2 ^ 20 →
  Z.of_nat (size m) + Z.of_nat c ≤ mx →
  wp (insert_rows c i junk) (λ _, ok_with f n mx fr (fill c i m)) t.
Proof.
  induction c as [|c IH]; intros i m t [Hf H] Hnew Hi Hb Hsz; [by apply wp_ret|]. cbn [insert_rows fill].
  wp_test (holds_insert H i (i * 2)); [unfold in64; lia|unfold in64; lia|done|lia|].
  intros r t1 (s1 & -> & _ & [(Hrc & _ & H1)|(_ & [x Hx] & _)]); [|by rewrite Hnew in Hx].
  wp_step check_run; [by apply is_rc_true|]. apply IH; [by split| |lia|lia|].
  - intros k Hk. rewrite lookup_insert_ne by lia. apply Hnew. lia.
  - rewrite map_size_insert_None by (apply Hnew; lia). lia.
Qed.

(** ** Lookups by the second key *)

(** The numbers [i, i + 4, ...] below [n]. *)
Lemma expect_loop_eq fuel : ∀ i c e, 0 ≤ c → c - i ≤ 4 * Z.of_nat fuel → expect_loop fuel i c e = e + Z.max 0 ((c - i + 3) / 4).
Proof using Type.
  induction fuel as [|fuel IH]; intros i c e Hc Hf; simpl.
  - assert ((c - i + 3) / 4 ≤ 0); [|lia]. pose proof (Z.div_lt_upper_bound (c - i + 3) 4 1 ltac:(lia) ltac:(lia)). lia.
  - case_decide.
    + rewrite IH by lia. replace (c - i + 3) with (c - (i + 4) + 3 + 1 * 4) by lia. rewrite Z.div_add by lia.
      assert (0 ≤ (c - (i + 4) + 3) / 4); [apply Z.div_pos; lia|lia].
    + pose proof (Z.div_lt_upper_bound (c - i + 3) 4 1 ltac:(lia) ltac:(lia)). lia.
Qed.

Definition in_bucket (b k : Z) : Prop := Z.land k 3 = b.
#[local] Instance in_bucket_dec b k : Decision (in_bucket b k).
Proof using Type. apply Z.eq_dec. Defined.

Lemma count_seq (c : nat) b : 0 ≤ b < 4 → Z.of_nat (length (filter (in_bucket b) (seqZ 0 (Z.of_nat c)))) = (Z.of_nat c - b + 3) / 4.
Proof using Type.
  intros Hb. induction c as [|c IH]; [simpl; symmetry; apply Z.div_small; lia|].
  rewrite seqZ_S, filter_app, length_app, Nat2Z.inj_add, IH, filter_cons, filter_nil, Nat2Z.inj_succ.
  change (0 + Z.of_nat c) with (Z.of_nat c). generalize (Z.of_nat c). clear IH. intros x. unfold Z.succ.
  assert (E : Z.land x 3 = x mod 4) by (apply (Z.land_ones _ 2); lia).
  case_decide as Hx; unfold in_bucket in Hx; rewrite E in Hx; cbn [length]; Z.div_mod_to_equations; lia.
Qed.

Lemma filter_fmap_length {A B} (g : A → B) (P : B → Prop) `{∀ x, Decision (P x)} l :
  length (filter P (g <$> l)) = length (filter (λ x, P (g x)) l).
Proof using Type. induction l as [|x l IH]; [done|]. rewrite fmap_cons, !filter_cons. case_decide; cbn [length]; by rewrite IH. Qed.

Lemma filter_length_ext {A} (P Q : A → Prop) `{∀ x, Decision (P x), ∀ x, Decision (Q x)} l :
  (∀ x, x ∈ l → P x ↔ Q x) → length (filter P l) = length (filter Q l).
Proof using Type.
  induction l as [|x l IH]; intros E; [done|]. rewrite !filter_cons, (decide_ext (P x) (Q x)) by (apply E; left).
  specialize (IH (λ y Hy, E y (list_elem_of_further _ _ _ Hy))). case_decide; cbn; by rewrite IH.
Qed.

(** The output index of a lookup that finds nothing does not matter. *)
Lemma find_next_out key pk cur buf out out' s0 :
  match fm_core_find_next key pk cur buf out s0 with
  | Ret ((rc, i, b), s1) => ∃ i', fm_core_find_next key pk cur buf out' s0 = Ret ((rc, i', b), s1) ∧ (rc = FM_ERR_OK → i' = i)
  | Ub => fm_core_find_next key pk cur buf out' s0 = Ub
  | Hang => fm_core_find_next key pk cur buf out' s0 = Hang
  end.
Proof using Type.
  unfold fm_core_find_next, mbind, M_bind, mret, M_ret.
  repeat match goal with |- context [match ?x with _ => _ end] => lazymatch x with context [match _ with _ => _ end] => fail | _ => destruct x eqn:? end end;
    simplify_eq/=; eauto. by exists out'.
Qed.

Lemma count_next_run fuel pk : ∀ cur buf seen s0 l s1, find_next_all fuel 1 pk cur buf s0 = Ret (l, s1) →
  count_next fuel pk cur seen buf (mkT s0 f) = Ret (seen + Z.of_nat (length l), mkT s1 f).
Proof using Type.
  induction fuel as [|fuel IH]; intros cur buf seen s0 l s1 E; [done|]. cbn [find_next_all count_next] in *.
  unfold mbind, M_bind, in_test in *. cbn [t_core g_failures]. pose proof (find_next_out 1 pk cur buf FM_NULL_SLOT cur s0) as Hout.
  destruct (fm_core_find_next 1 pk cur buf FM_NULL_SLOT s0) as [[[[rc i] b] s2]| |]; [|done|done]. destruct Hout as (i' & -> & Hi).
  unfold is_rc. case_decide as Hrc.
  - rewrite bool_decide_true by done. rewrite (Hi Hrc). destruct (find_next_all fuel 1 pk i b s2) as [[rest s3]| |] eqn:E2; [|done|done].
    injection E as <- <-. rewrite (IH _ _ _ _ _ _ E2). cbn [length]. do 2 f_equal. lia.
  - rewrite bool_decide_false by done. injection E as <- <-. cbn. by rewrite Z.add_0_r.
Qed.

Lemma count_key_run pk s0 l : find_all (walk_fuel s0) 1 pk junk s0 = Ret (l, s0) →
  (∀ r s1, fm_core_find 1 pk junk (-1) s0 = Ret (r, s1) → s1 = s0) →
  count_key pk junk (mkT s0 f) = Ret (Z.of_nat (length l), mkT s0 f).
Proof using Type.
  unfold find_all, count_key, mbind, M_bind, in_test, is_rc. cbn [t_core g_failures]. change FM_NULL_SLOT with (-1). intros E Hs.
  destruct (fm_core_find 1 pk junk (-1) s0) as [[[[rc i] b] s2]| |]; [|done|done]. rewrite (Hs _ _ eq_refl) in *. case_decide.
  - rewrite bool_decide_true by done. cbn. destruct (find_next_all _ 1 pk i b s0) as [[rest s3]| |] eqn:E2; [|done|done].
    injection E as <- ->. rewrite (count_next_run _ _ _ _ _ _ _ _ E2). cbn [length]. do 2 f_equal. lia.
  - rewrite bool_decide_false by done. by injection E as <-.
Qed.

(** As many slots match as the map has keys in the bucket. *)
Lemma holds_count s m b l : holds n mx fr s m → 0 ≤ b < 4 → NoDup l →
  (∀ i, i ∈ l ↔ ∃ rec, table s !! i = Some rec ∧ matches_key hk1_ops rec (store64 b)) →
  length l = length (filter (λ p : Z * Z, in_bucket b p.1) (map_to_list m)).
Proof using Type.
  intros H Hb Hnd Hl.
  assert (P : l ≡ₚ (filter (λ p : Z * bytes, matches_key hk1_ops p.2 (store64 b)) (map_to_list (table s))).*1).
  { apply NoDup_Permutation; [done| |].
    - apply (sublist_NoDup _ (map_to_list (table s)).*1); [apply NoDup_fst_map_to_list|apply fmap_sublist, sublist_filter].
    - intros i. rewrite Hl, list_elem_of_fmap. split.
      + intros (rec & Hi & Hm). exists (i, rec). split; [done|]. apply list_elem_of_filter. split; [done|]. by apply elem_of_map_to_list.
      + intros ([j rec] & -> & [Hm Hi]%list_elem_of_filter). exists rec. split; [by apply elem_of_map_to_list|done]. }
  rewrite P, length_fmap.
  etrans; [symmetry; exact (filter_fmap_length (@snd Z bytes) (λ rec, matches_key hk1_ops rec (store64 b)) (map_to_list (table s)))|].
  rewrite (hd_rows _ _ _ _ _ H), filter_fmap_length. apply filter_length_ext. intros [k v] [Hk _]%elem_of_map_to_list%(hd_fit _ _ _ _ _ H).
  unfold matches_key. cbn. rewrite hk1_cmp_key, load_key, load_pk by (done || unfold in64; lia). unfold in_bucket.
  change 3 with (Z.ones 2). rewrite (Z.land_ones b 2), Z.mod_small by lia. done.
Qed.

Lemma fill_list c : map_to_list (fill c 0 ∅) ≡ₚ (λ i, (i, i * 2)) <$> seqZ 0 (Z.of_nat c).
Proof using Type.
  apply NoDup_Permutation; [apply NoDup_map_to_list|apply NoDup_fmap; [by intros ? ? [=]|apply NoDup_seqZ]|].
  intros [k v]. rewrite elem_of_map_to_list, fill_lookup, list_elem_of_fmap, lookup_empty. split.
  - case_decide; intros [=]. subst. exists k. split; [done|]. apply elem_of_seqZ. lia.
  - intros (i & [= -> ->] & Hi%elem_of_seqZ). by rewrite decide_True by lia.
Qed.

Lemma count_buckets_spec (c : nat) k : ∀ b t, 2 ≤ n → ok_with f n mx fr (fill c 0 ∅) t → 0 ≤ b → b + Z.of_nat k ≤ 4 →
  wp (count_buckets k (Z.of_nat c) b junk) (λ _, ok_with f n mx fr (fill c 0 ∅)) t.
Proof using Hn.
  induction k as [|k IH]; intros b t Hn2 Hok Hb Hbk; [by apply wp_ret|]. destruct t as [s0 f0]. pose proof Hok as [Hf H]. cbn in Hf, H. subst f0.
  assert (Hc : key_cfg s0 1 = Some (hk1_ops, false, 64)) by (by rewrite (hd_cfg _ _ _ _ _ H) by lia).
  assert (Hk : 0 ≤ 1 < keys s0) by (rewrite (hd_keys _ _ _ _ _ H); lia).
  destruct (core_find_all_spec ∅ s0 1 (store64 b) junk _ _ _ (hd_wf _ _ _ _ _ H) Hk Hc) as (l & s1 & Hall & -> & Hnd & Hl).
  destruct (core_find_spec ∅ s0 1 (store64 b) junk (-1) _ _ _ (hd_wf _ _ _ _ _ H) Hk Hc) as (r & s1 & Hfind & -> & _).
  cbn [count_buckets]. wp_step (count_key_run (store64 b) s0 l Hall); [intros; congruence|].
  wp_step check_run; [|by apply IH; [done|done|lia|lia]].
  apply bool_decide_true. rewrite expect_loop_eq by lia. rewrite (holds_count s0 _ b l H) by (done || lia).
  rewrite fill_list, filter_fmap_length. pose proof (count_seq c b ltac:(lia)) as E.
  match goal with |- Z.of_nat ?a = _ => change a with (length (filter (in_bucket b) (seqZ 0 (Z.of_nat c)))) end. rewrite E.
  pose proof (Z.div_pos (Z.of_nat c - b + 3) 4). lia.
Qed.

(** ** Moves *)

(** The rows below [i] have been moved up by [c]. *)
Definition moved (c i : Z) (m : gmap Z Z) : Prop :=
  (∀ k, i ≤ k < c → m !! k = Some (k * 2)) ∧ (∀ j, 0 ≤ j < i → m !! (j + c) = Some (j * 2 + 1)) ∧ ∀ k, i + c ≤ k → m !! k = None.

Lemma moved_step c i m : 0 ≤ i < c → moved c i m → moved c (i + 1) (<[i + c := i * 2 + 1]> (delete i m)).
Proof using Type.
  intros Hi (H1 & H2 & H3). split; [|split].
  - intros k Hk. rewrite lookup_insert_ne, lookup_delete_ne by lia. apply H1. lia.
  - intros j Hj. destruct (decide (j = i)) as [->|]; [apply lookup_insert_eq|].
    rewrite lookup_insert_ne, lookup_delete_ne by lia. apply H2. lia.
  - intros k Hk. rewrite lookup_insert_ne, lookup_delete_ne by lia. apply H3. lia.
Qed.

Lemma move_keys_spec c k : ∀ i m t, ok_with f n mx fr m t → moved c i m → 0 ≤ i → i + Z.of_nat k ≤ c → c ≤ 2 ^ 20 →
  wp (move_keys k c i junk) (λ _ t', ∃ m', ok_with f n mx fr m' t' ∧ moved c (i + Z.of_nat k) m') t.
Proof using Hn.
  induction k as [|k IH]; intros i m t [Hf H] Hm Hi Hik Hc; [apply wp_ret; exists m; rewrite Z.add_0_r; by split|].
  assert (Hi64 : in64 i ∧ in64 (i + c) ∧ in64 (i * 2) ∧ in64 (i * 2 + 1)) by (unfold in64; lia). destruct Hi64 as (Ha & Hb & Hv & Hw).
  assert (Hmi : m !! i = Some (i * 2)) by (apply Hm; lia). cbn [move_keys].
  wp_test (holds_find H i junk (-1) Ha Hn). rewrite Hmi. intros [[rc idx] buf] t1 (s1 & -> & -> & Hrc & Hrow & Hbuf). cbn in Hrc, Hrow, Hbuf. subst buf.
  wp_step check_run; [by apply is_rc_true|]. cbv zeta. destruct (holds_gen H idx _ Hrow) as [g Hg].
  wp_step (gen_of_run idx g); [done|]. rewrite Rec_roundtrip by done. cbn [rec_v]. rewrite i64_small by done.
  wp_test (holds_update H idx i (i * 2) g (i + c) (i * 2 + 1) 0 junk Hrow Hg Hmi Hb Hw); [right; apply Hm; lia|].
  intros [rc2 ek] t2 (s2 & -> & Hrc2 & H2 & _). cbn in Hrc2. wp_step check_run; [by apply is_rc_true|].
  wp_test (holds_find H2 i (kv_bytes (i, i * 2)) idx Ha Hn). rewrite lookup_insert_ne, lookup_delete_eq by lia.
  intros [[rc3 i3] b3] t3 (s3 & -> & -> & Hrc3 & _). cbn in Hrc3. wp_step check_run; [by apply is_rc_true|].
  eapply wp_mono; [apply (IH (i + 1) (<[i + c := i * 2 + 1]> (delete i m)) (mkT s2 (g_failures t))); [by split|apply moved_step; [lia|done]|lia|lia|done]|].
  intros _ t4 (m' & Hok & Hm'). exists m'. split; [done|]. by replace (i + Z.of_nat (S k)) with (i + 1 + Z.of_nat k) by lia.
Qed.

Lemma find_moved_spec c e m k : ∀ i t, ok_with f n mx fr m t → moved c e m → 0 ≤ i → i + Z.of_nat k ≤ e → e ≤ c → c ≤ 2 ^ 20 →
  wp (find_moved k c i junk) (λ _, ok_with f n mx fr m) t.
Proof using Hn.
  induction k as [|k IH]; intros i t [Hf H] Hm Hi Hik He Hc; [by apply wp_ret|].
  assert (Hi64 : in64 (i + c) ∧ in64 (i * 2 + 1)) by (unfold in64; lia). destruct Hi64 as (Hb & Hw).
  assert (Hmi : m !! (i + c) = Some (i * 2 + 1)) by (apply Hm; lia). cbn [find_moved].
  wp_test (holds_find H (i + c) junk (-1) Hb Hn). rewrite Hmi. intros [[rc idx] buf] t1 (s1 & -> & -> & Hrc & Hrow & Hbuf). cbn in Hrc, Hrow, Hbuf. subst buf.
  wp_step check_run; [by apply is_rc_true|]. wp_step check_run; [by rewrite Rec_roundtrip by done; apply bool_decide_true|].
  apply IH; [by split|done|lia|lia|done|done].
Qed.
End multikey.

(** * Creation and release *)

Lemma init_holds_in size enc `{!RecordLayout size enc} alloc n mx s : (∀ c sz, alloc c sz = true) → fresh (heap s) → 0 < n ≤ 64 → 0 < mx ≤ 2 ^ 31 →
  wp (fm_core_init_share size n mx 64 alloc;; fm_key_ops_init test_keys) (λ _ s', holds_in size enc n mx (live (heap s)) s' ∅) s.
Proof.
  intros Ha Hfr Hn Hmx. pose proof lay_size. assert (Hio : init_ok alloc test_keys size n mx 64 s).
  { split; [lia|lia|lia|by exists 6|intros; apply test_keys_lawful|done|apply Ha|intros; apply Ha]. }
  destruct (init_correct _ _ _ _ _ _ _ Hio) as (a & s' & Hrun & Hwf & Ht & _ & Hl & Hk & Hm & Hf & Hc).
  destruct (init_spec _ _ _ _ _ _ _ Hio) as [Hrun' _]. rewrite Hrun in Hrun'. injection Hrun' as -> Es.
  eapply wp_run; [exact Hrun|]. constructor; try done.
  - lia.
  - intros. rewrite Es. unfold created. cbv zeta. by case_decide; cbn.
  - by rewrite Ht, !map_to_list_empty.
Qed.

Lemma init_holds alloc n mx s : (∀ c size, alloc c size = true) → fresh (heap s) → 0 < n ≤ 64 → 0 < mx ≤ 2 ^ 31 →
  wp (fm_core_init_share sizeof_Rec n mx 64 alloc;; fm_key_ops_init test_keys) (λ _ s', holds n mx (live (heap s)) s' ∅) s.
Proof. apply (init_holds_in sizeof_Rec kv_bytes). Qed.

Lemma free_holds {size enc} n mx fr s m : holds_in size enc n mx fr s m → wp fm_core_free_share (λ _ s', live (heap s') = fr) s.
Proof.
  intros H. destruct (free_share_run s (static_ok_fit _ (wf_static _ _ (hd_wf _ _ _ _ _ H))) (wf_heap _ _ (hd_wf _ _ _ _ _ H))) as (s' & Hrun & Hl & _).
  eapply wp_run; [exact Hrun|]. rewrite Hl, <-(hd_foreign _ _ _ _ _ H). done.
Qed.

(** * Properties *)

(** The share that a test declares, before it is initialised. *)
Definition local_share : FM_SHARE_CORE :=
  {| ops_alloc := λ _ _, true; heap := mkHeap 0 ∅; reclength := 0; slot_size := 0; keys := 0; max_records := 0;
     chunk_cap := 0; chunks := None; chunk_cnt := 0; free_head := 0; records := 0; struct_mutex := 0;
     keydef := None; auto_inc := 0; auto_key := 0; auto_key_type := 0 |}.

Definition passed (o : outcome (() * tstate)) : bool :=
  match o with
  | Ret (_, t) => bool_decide (g_failures t = 0) && bool_decide (live (heap (t_core t)) = ∅)
  | _ => false
  end.

(** Test C of the standalone test passes: with memory, every CHECK of [test_stale_pos] holds -
    the slot of the deleted row is recycled, the stale position is refused by read, update and
    delete, the current one reads the new row - and the share is released without a leak,
    whatever the buffers hold at the start. *)
Theorem stale_pos_passes junk : passed (test_stale_pos (λ _ _, true) junk (mkT local_share 0)) = true.
Proof. vm_compute. reflexivity. Qed.

(** C30: Test D of the standalone test passes for any number of rows: with memory, [test_multikey]
    inserts [c] rows, finds each of them once through the key that is not unique, moves the key of
    the first [k] rows and finds them under their new keys only; no CHECK fails, no lock is waited
    for, and all memory is returned.  The source has 1000 and 200. *)
Theorem multikey_passes (c k : nat) alloc junk t : (∀ n size, alloc n size = true) → fresh (heap (t_core t)) →
  (k ≤ c)%nat → Z.of_nat c ≤ 2 ^ 16 →
  wp (test_multikey c k alloc junk) (λ _ t', g_failures t' = g_failures t ∧ live (heap (t_core t')) = live (heap (t_core t))) t.
Proof.
  intros Ha Hfr Hkc Hc. unfold test_multikey. change (Z.shiftl 1 16) with (2 ^ 16).
  wp_test (init_holds alloc 2 (2 ^ 16) (t_core t) Ha Hfr); [lia|lia|]. intros _ t1 (s1 & -> & H1).
  set (f := g_failures t) in *. set (fr := live (heap (t_core t))) in *.
  wp_use (insert_rows_spec f 2 (2 ^ 16) fr junk ltac:(lia) c 0 ∅); [by split|intros; apply lookup_empty|lia|lia|rewrite map_size_empty; lia|].
  intros _ t2 Hok2. wp_use (count_buckets_spec f 2 (2 ^ 16) fr junk ltac:(lia) c 4 0); [lia|exact Hok2|lia|lia|]. intros _ t3 Hok3.
  wp_use (move_keys_spec f 2 (2 ^ 16) fr junk ltac:(lia) (Z.of_nat c) k 0); [exact Hok3| |lia|lia|lia|].
  { split; [|split]; [|lia|]; intros j Hj; rewrite fill_lookup; [by rewrite decide_True by lia|by rewrite decide_False by lia]. }
  intros _ t4 (m & Hok4 & Hm). wp_use (find_moved_spec f 2 (2 ^ 16) fr junk ltac:(lia) (Z.of_nat c) (Z.of_nat k) m k 0); [exact Hok4|exact Hm|lia..|].
  intros _ t5 [Hf5 H5]. eapply wp_mono; [apply wp_in_test, (free_holds _ _ _ _ _ H5)|]. by intros _ t6 (s6 & -> & Hl).
Qed.
