(* ===== verification/Stress.v ===== *)
(** Test B of the standalone test (src/standalone-test/main.cpp, [test_unique_key]): threads that
    insert, update and delete rows at random while a mutex-protected map records what the table
    should hold, and the comparison of the two at the end.  The threads interleave between the
    calls of the core. *)

From Stdlib Require Import Sorted.
From S2P Require Import Prelude CoreState CoreOps RowOps Shape Inv Chains Reads Alloc Freelist Steps Insert Delete Lockset Update Clear Lifecycle Spec Hash Standalone.

(** * Threads *)

Definition NSLOTS : Z := 200.

(** The values that [rng()] returns in one round. *)
Record choice := mkChoice { c_k : Z; c_v : Z; c_op : Z; c_move : Z }.

(** Where a thread is: between two calls of the core, or before the mutex. *)
Inductive pc :=
| Loop
| Inserted (k v : Z) (rc : fm_err)
| UFind (k v nk ov : Z)
| UGen (k v nk ov idx2 : Z)
| UCall (k v nk ov idx2 g : Z)
| DFind (k : Z)
| DGen (k idx2 : Z)
| DCall (k idx2 g : Z).

(** [mtx] is the thread that holds the mutex. *)
Record stress := mkStress {
  st_core : FM_SHARE_CORE;
  shadow : gmap Z Z;
  live_cnt : Z;
  dups : Z;
  failures : Z;
  mtx : option nat;
  threads : gmap nat pc
}.
Abbreviation XM := (M stress).

Definition x_core (c : FM_SHARE_CORE) (s : stress) : stress := mkStress c (shadow s) (live_cnt s) (dups s) (failures s) (mtx s) (threads s).
Definition x_shadow (m : gmap Z Z) (n : Z) (s : stress) : stress := mkStress (st_core s) m n (dups s) (failures s) (mtx s) (threads s).
Definition x_dups (n : Z) (s : stress) : stress := mkStress (st_core s) (shadow s) (live_cnt s) n (failures s) (mtx s) (threads s).
Definition x_fail (s : stress) : stress := mkStress (st_core s) (shadow s) (live_cnt s) (dups s) (failures s + 1) (mtx s) (threads s).
Definition x_mtx (o : option nat) (s : stress) : stress := mkStress (st_core s) (shadow s) (live_cnt s) (dups s) (failures s) o (threads s).
Definition x_pc (t : nat) (p : pc) (s : stress) : stress := mkStress (st_core s) (shadow s) (live_cnt s) (dups s) (failures s) (mtx s) (<[t := p]> (threads s)).

Definition x_call {A} (m : SM A) : XM A := λ s,
  match m (st_core s) with
  | Ret (a, c) => Ret (a, x_core c s)
  | Ub => Ub
  | Hang => Hang
  end.

Definition x_check (c : bool) : XM () := if c then mret tt else modify x_fail.
Definition mtx_lock (t : nat) : XM () := s ← get; match mtx s with None => modify (x_mtx (Some t)) | Some _ => hang end.
Definition mtx_unlock : XM () := modify (x_mtx None).
(** [shadow[k]= v; live++;] and [shadow.erase(k); live--;] *)
Definition shadow_add (k v : Z) : XM () := modify (λ s, x_shadow (<[k := v]> (shadow s)) (live_cnt s + 1) s).
Definition shadow_erase (k : Z) : XM () := modify (λ s, x_shadow (delete k (shadow s)) (live_cnt s - 1) s).
(** [shadow.erase(k); shadow[nk]= v;] *)
Definition shadow_move (k nk v : Z) : XM () := modify (λ s, x_shadow (<[nk := v]> (delete k (shadow s))) (live_cnt s) s).
Definition shadow_count (k : Z) (s : stress) : bool := bool_decide (is_Some (shadow s !! k)).

Section threads.
Context (scratch : bytes).

(** The end of a round: the mutex is released. *)
Definition round_done (t : nat) : XM () := mtx_unlock;; modify (x_pc t Loop).

(** The top of the loop: the random values, then an insert, or the mutex and a look at [shadow]. *)
Definition start_round (t : nat) (c : choice) : XM () :=
  let k := c_k c mod NSLOTS in
  let v := c_v c mod 1000000 in
  let op := c_op c mod 10 in
  if decide (op < 4) then
    r ← x_call (fm_core_insert_row (Rec_bytes (mkRec k v)) (-1) 0 scratch);
    modify (x_pc t (Inserted k v (ins_rc r)))
  else
    mtx_lock t;;
    s ← get;
    match shadow s !! k with
    | None => round_done t
    | Some ov =>
        if decide (op < 7) then
          let nk := if decide (c_move c mod 2 ≠ 0) then k else (k + 1000) mod NSLOTS in
          modify (x_pc t (UFind k v nk ov))
        else modify (x_pc t (DFind k))
    end.

(** After an insert. *)
Definition record_insert (t : nat) (k v : Z) (rc : fm_err) : XM () :=
  mtx_lock t;;
  s ← get;
  match rc with
  | FM_ERR_OK => x_check (negb (shadow_count k s));; shadow_add k v
  | FM_ERR_DUP_KEY => if shadow_count k s then mret tt else modify (λ s, x_dups (dups s + 1) s)
  | _ => x_check false
  end;;
  round_done t.

Definition update_find (t : nat) (k v nk ov : Z) : XM () :=
  '(rc, idx2, _) ← x_call (fm_core_find 0 (store64 k) scratch (-1));
  if decide (rc = FM_ERR_OK) then modify (x_pc t (UGen k v nk ov idx2))
  else shadow_erase k;; round_done t.

Definition update_call (t : nat) (k v nk ov idx2 g : Z) : XM () :=
  '(rcu, _) ← x_call (fm_core_update_row idx2 g (Rec_bytes (mkRec k ov)) (Rec_bytes (mkRec nk v)) 0 scratch);
  s ← get;
  match rcu with
  | FM_ERR_OK => x_check (negb (bool_decide (nk ≠ k) && shadow_count nk s));; shadow_move k nk v
  | FM_ERR_DUP_KEY => x_check (shadow_count k s)
  | FM_ERR_DELETED => shadow_erase k
  | _ => x_check false
  end;;
  round_done t.

Definition delete_find (t : nat) (k : Z) : XM () :=
  '(rc, idx2, _) ← x_call (fm_core_find 0 (store64 k) scratch (-1));
  x_check (is_rc rc FM_ERR_OK);;
  modify (x_pc t (DGen k idx2)).

Definition delete_call (t : nat) (k idx2 g : Z) : XM () :=
  rcd ← x_call (fm_core_delete_row idx2 g);
  (if decide (rcd = FM_ERR_OK) then shadow_erase k else mret tt);;
  x_check (is_rc rcd FM_ERR_OK || is_rc rcd FM_ERR_DELETED);;
  s ← get;
  x_check (bool_decide (0 ≤ live_cnt s));;
  round_done t.

Definition x_gen (idx : Z) : XM Z := x_call (sl ← deref_slot idx; mret (gen sl)).

(** Thread [t] goes on to its next call; [c] matters at the top of the loop only. *)
Definition thread_step (t : nat) (c : choice) : XM () :=
  s ← get;
  p ← unwrap (threads s !! t);
  match p with
  | Loop => start_round t c
  | Inserted k v rc => record_insert t k v rc
  | UFind k v nk ov => update_find t k v nk ov
  | UGen k v nk ov idx2 => g ← x_gen idx2; modify (x_pc t (UCall k v nk ov idx2 g))
  | UCall k v nk ov idx2 g => update_call t k v nk ov idx2 g
  | DFind k => delete_find t k
  | DGen k idx2 => g ← x_gen idx2; modify (x_pc t (DCall k idx2 g))
  | DCall k idx2 g => delete_call t k idx2 g
  end.

Fixpoint stress_run (sched : list (nat * choice)) : XM () :=
  match sched with
  | [] => mret tt
  | (t, c) :: sched' => thread_step t c;; stress_run sched'
  end.

(** ** The comparison at the end *)

Fixpoint verify_scan (fuel : nat) (pos : Z) (buf : bytes) (found : gmap Z Z) : XM (gmap Z Z) :=
  match fuel with
  | O => hang
  | S fuel' =>
      '(rc, pos, buf) ← x_call (fm_core_scan_next pos buf);
      if decide (rc = FM_ERR_OK) then
        x_check (negb (bool_decide (is_Some (found !! rec_k (Rec_at buf)))));;
        verify_scan fuel' pos buf (<[rec_k (Rec_at buf) := rec_v (Rec_at buf)]> found)
      else mret found
  end.

(** The loop over [shadow], left at the first difference. *)
Fixpoint verify_values (l : list (Z * Z)) (found : gmap Z Z) : XM () :=
  match l with
  | [] => mret tt
  | (k, v) :: l' => if bool_decide (found !! k = Some v) then verify_values l' found else x_check false
  end.

Definition verify : XM () :=
  s ← get;
  found ← verify_scan (S (Z.to_nat (fm_core_slot_count (st_core s)))) 0 scratch ∅;
  s ← get;
  if decide (size found ≠ size (shadow s)) then x_check false
  else verify_values (map_to_list (shadow s)) found.

(** The share of the test, with key 0 only. *)
Definition stress_init (alloc : nat → Z → bool) : XM () :=
  x_call (fm_core_init_share sizeof_Rec 1 (Z.shiftl 1 20) 64 alloc;; fm_key_ops_init test_keys).
End threads.

(** [n] threads at the top of their loops. *)
Definition stress_start (n : nat) (c : FM_SHARE_CORE) : stress :=
  mkStress c ∅ 0 0 0 None (list_to_map ((λ t, (t, Loop)) <$> List.seq 0 n)).

(** * The invariant *)

(** The thread is inside the mutex. *)
Definition holding (p : pc) : bool := match p with Loop | Inserted _ _ _ => false | _ => true end.

Definition room : Z := 2 ^ 20.

(** What a thread knows at each place; [idx2] stays the slot of its row as only inserts can come
    in between. *)
Definition pc_ok (s : stress) (p : pc) : Prop :=
  match p with
  | Loop => True
  | Inserted k v rc => (rc = FM_ERR_OK ∨ rc = FM_ERR_DUP_KEY) ∧ 0 ≤ k < NSLOTS ∧ 0 ≤ v < 1000000
  | UFind k v nk ov => 0 ≤ k < NSLOTS ∧ 0 ≤ v < 1000000 ∧ nk = k ∧ shadow s !! k = Some ov
  | UGen k v nk ov idx => 0 ≤ k < NSLOTS ∧ 0 ≤ v < 1000000 ∧ nk = k ∧ shadow s !! k = Some ov ∧ table (st_core s) !! idx = Some (kv_bytes (k, ov))
  | UCall k v nk ov idx g => 0 ≤ k < NSLOTS ∧ 0 ≤ v < 1000000 ∧ nk = k ∧ shadow s !! k = Some ov ∧
      table (st_core s) !! idx = Some (kv_bytes (k, ov)) ∧ gen_at (st_core s) idx = Some g
  | DFind k => 0 ≤ k < NSLOTS ∧ is_Some (shadow s !! k)
  | DGen k idx => 0 ≤ k < NSLOTS ∧ ∃ ov, shadow s !! k = Some ov ∧ table (st_core s) !! idx = Some (kv_bytes (k, ov))
  | DCall k idx g => 0 ≤ k < NSLOTS ∧ ∃ ov, shadow s !! k = Some ov ∧ table (st_core s) !! idx = Some (kv_bytes (k, ov)) ∧ gen_at (st_core s) idx = Some g
  end.

(** Thread [t] has inserted [(k, v)] and has not yet recorded it. *)
Definition pending (s : stress) (t : nat) (k v : Z) : Prop := threads s !! t = Some (Inserted k v FM_ERR_OK).

(** The table holds [m]: the recorded rows and those not yet recorded. *)
Record stress_inv (fr : gset nat) (s : stress) (m : gmap Z Z) : Prop := {
  si_holds : holds 1 room fr (st_core s) m;
  si_range k : is_Some (m !! k) → 0 ≤ k < NSLOTS;
  si_rows k v : m !! k = Some v ↔ shadow s !! k = Some v ∨ ∃ t, pending s t k v;
  si_new t k v : pending s t k v → shadow s !! k = None;
  si_one t t' k v v' : pending s t k v → pending s t' k v' → t = t';
  si_live : live_cnt s = Z.of_nat (size (shadow s));
  si_fail : failures s = 0;
  si_pc t p : threads s !! t = Some p → pc_ok s p;
  si_mtx t p : threads s !! t = Some p → holding p = bool_decide (mtx s = Some t);
  si_holder t : mtx s = Some t → is_Some (threads s !! t)
}.

Lemma value_in64 v : 0 ≤ v < 1000000 → in64 v.
Proof. unfold in64. lia. Qed.
Lemma key_in64 k : 0 ≤ k < NSLOTS → in64 k.
Proof. unfold in64, NSLOTS. lia. Qed.

(** A key that is moved stays where it is: 1000 is a multiple of the number of keys. *)
Lemma move_stays k : 0 ≤ k < NSLOTS → (k + 1000) mod NSLOTS = k.
Proof. unfold NSLOTS. intros Hk. replace (k + 1000) with (k + 5 * 200) by lia. rewrite Z.mod_add by lia. by apply Z.mod_small. Qed.

(** There is always room for a row. *)
Lemma inv_size fr s m : stress_inv fr s m → Z.of_nat (size m) < room.
Proof.
  intros I. assert (dom m ⊆ list_to_set (seqZ 0 NSLOTS)) as Hs.
  { intros k Hk%elem_of_dom. apply elem_of_list_to_set, elem_of_seqZ. pose proof (si_range _ _ _ I k Hk). lia. }
  apply subseteq_size in Hs. rewrite size_dom, size_list_to_set, length_seqZ in Hs by apply NoDup_seqZ. unfold room, NSLOTS in *. lia.
Qed.

(** A thread outside the mutex does not depend on the rows. *)
Lemma pc_ok_outside s s' p : holding p = false → pc_ok s p → pc_ok s' p.
Proof. by destruct p. Qed.

(** A thread inside keeps what it knows while rows are only added. *)
Lemma pc_ok_kept s s' p : shadow s' = shadow s → rows_kept (st_core s) (st_core s') → pc_ok s p → pc_ok s' p.
Proof.
  intros Es [_ K]. destruct p as [|k v rc|k v nk ov|k v nk ov idx|k v nk ov idx g|k|k idx|k idx g]; cbn; rewrite ?Es; try done.
  - intros (? & ? & ? & ? & Hr). by destruct (K _ _ Hr).
  - intros (? & ? & ? & ? & Hr & Hg). destruct (K _ _ Hr) as [? ->]. done.
  - intros (? & ov & ? & Hr). split; [done|]. exists ov. by destruct (K _ _ Hr).
  - intros (? & ov & ? & Hr & Hg). split; [done|]. exists ov. destruct (K _ _ Hr) as [? ->]. done.
Qed.

(** * Steps *)

Section steps.
Context (fr : gset nat) (t : nat) (s : stress) (m : gmap Z Z) (I : stress_inv fr s m).

(** The step of thread [t] from place [p] to place [q] on the states [s] and [s']. *)
Lemma stress_step_inv p q s' m' : threads s !! t = Some p → threads s' = <[t := q]> (threads s) →
  holds 1 room fr (st_core s') m' → (∀ k, is_Some (m' !! k) → 0 ≤ k < NSLOTS) →
  (∀ k v, m' !! k = Some v ↔ shadow s' !! k = Some v ∨ ∃ t, pending s' t k v) →
  (∀ t k v, pending s' t k v → shadow s' !! k = None) →
  (∀ t t' k v v', pending s' t k v → pending s' t' k v' → t = t') →
  live_cnt s' = Z.of_nat (size (shadow s')) → failures s' = 0 → pc_ok s' q →
  mtx s' = (if holding q then Some t else if holding p then None else mtx s) →
  (holding q = true → holding p = true ∨ mtx s = None) →
  (∀ t' p', t' ≠ t → threads s !! t' = Some p' → pc_ok s p' → pc_ok s' p') →
  stress_inv fr s' m'.
Proof.
  intros Hp Et H Hr Hrows Hnew Hone Hl Hf Hq Hm Hin Hother. pose proof (si_mtx _ _ _ I _ _ Hp) as Hpm.
  constructor; try done; rewrite Et; [intros t' p' [[<- <-]|[Hne Ht']]%lookup_insert_Some|intros t' p' [[<- <-]|[Hne Ht']]%lookup_insert_Some|].
  - done.
  - by eapply Hother; [| |apply (si_pc _ _ _ I t')].
  - rewrite Hm. destruct (holding q) eqn:E; [by rewrite bool_decide_true|]. symmetry. apply bool_decide_false.
    destruct (holding p); [done|]. symmetry in Hpm. by apply bool_decide_eq_false in Hpm.
  - rewrite (si_mtx _ _ _ I t' p' Ht'), Hm. apply bool_decide_ext. destruct (holding q).
    + split; [|congruence]. intros E. destruct (Hin eq_refl) as [Hh|]; [|congruence].
      rewrite Hh in Hpm. symmetry in Hpm. apply bool_decide_eq_true in Hpm. congruence.
    + destruct (holding p); [|done]. split; [|done]. symmetry in Hpm. apply bool_decide_eq_true in Hpm. congruence.
  - intros t' Ht'. destruct (decide (t' = t)) as [->|]; [rewrite lookup_insert_eq; by eexists|]. rewrite lookup_insert_ne by done.
    apply (si_holder _ _ _ I). rewrite Hm in Ht'. by destruct (holding q), (holding p); simplify_eq.
Qed.

(** [p] is not a row that waits to be recorded. *)
Definition settled (p : pc) : Prop := ∀ k v, p ≠ Inserted k v FM_ERR_OK.

Lemma pending_step p q s' : threads s !! t = Some p → threads s' = <[t := q]> (threads s) →
  ∀ t' k v, pending s' t' k v ↔ t' = t ∧ q = Inserted k v FM_ERR_OK ∨ t' ≠ t ∧ pending s t' k v.
Proof using Type.
  intros Hp Et t' k v. unfold pending. rewrite Et, lookup_insert_Some. naive_solver.
Qed.

Lemma pending_settled p q s' : threads s !! t = Some p → threads s' = <[t := q]> (threads s) → settled p → settled q →
  ∀ t' k v, pending s' t' k v ↔ pending s t' k v.
Proof using Type.
  intros Hp Et Sp Sq t' k v. rewrite (pending_step p q s' Hp Et). unfold pending. split.
  - intros [[_ E]|[_ ?]]; [by destruct (Sq k v)|done].
  - intros E. right. split; [|done]. intros ->. rewrite Hp in E. injection E as E. by destruct (Sp k v).
Qed.

Lemma rows_kept_refl c : rows_kept c c.
Proof using Type. by split. Qed.

(** A step that leaves the table and the records alone. *)
Lemma inv_quiet p q s' : threads s !! t = Some p → threads s' = <[t := q]> (threads s) → settled p → settled q →
  st_core s' = st_core s → shadow s' = shadow s → live_cnt s' = live_cnt s → failures s' = failures s → pc_ok s' q →
  mtx s' = (if holding q then Some t else if holding p then None else mtx s) →
  (holding q = true → holding p = true ∨ mtx s = None) → stress_inv fr s' m.
Proof using I.
  intros Hp Et Sp Sq Ec Es El Ef Hq Hm Hin. pose proof (pending_settled p q s' Hp Et Sp Sq) as P. destruct I.
  eapply (stress_step_inv p q s' m); try done; rewrite ?Ec, ?Es, ?El, ?Ef; try done.
  - intros k v. rewrite si_rows0. by setoid_rewrite P.
  - intros t' k v. rewrite P. by eauto.
  - intros t1 t2 k v v'. rewrite !P. eauto.
  - intros t' p' _ _. apply pc_ok_kept; [done|]. rewrite Ec. apply rows_kept_refl.
Qed.

(** Nobody else is inside the mutex while [t] is. *)
Lemma alone p t' p' : threads s !! t = Some p → holding p = true → t' ≠ t → threads s !! t' = Some p' → holding p' = false.
Proof using I.
  intros Hp Hh Hne Ht'. rewrite (si_mtx _ _ _ I _ _ Ht'). apply bool_decide_false.
  rewrite (si_mtx _ _ _ I _ _ Hp) in Hh. apply bool_decide_eq_true in Hh. congruence.
Qed.

Lemma outside_mtx p : threads s !! t = Some p → holding p = false → mtx s ≠ Some t.
Proof using I. intros Hp Hh. rewrite (si_mtx _ _ _ I _ _ Hp) in Hh. by apply bool_decide_eq_false in Hh. Qed.

Lemma inside_mtx p : threads s !! t = Some p → holding p = true → mtx s = Some t.
Proof using I. intros Hp Hh. rewrite (si_mtx _ _ _ I _ _ Hp) in Hh. by apply bool_decide_eq_true in Hh. Qed.

Definition blocked : Prop := ∃ t', t' ≠ t ∧ mtx s = Some t'.

(** The mutex is free, or another thread has it. *)
Lemma safe_mtx {A} p (f : () → XM A) Q : threads s !! t = Some p → holding p = false →
  (mtx s = None → safe blocked (f tt) Q (x_mtx (Some t) s)) → safe blocked (mtx_lock t ≫= f) Q s.
Proof using I.
  intros Hp Hh Hf. unfold safe, mtx_lock, mbind, M_bind, get, modify, hang. destruct (mtx s) as [t'|] eqn:E.
  - exists t'. split; [|done]. intros ->. by eapply outside_mtx.
  - by apply Hf.
Qed.

Lemma safe_call {A} (c : SM A) Q B : wp c Q (st_core s) → safe B (x_call c) (λ a s', ∃ k, s' = x_core k s ∧ Q a k) s.
Proof using Type. intros (a & k & E & HQ). unfold safe, x_call. rewrite E. eauto. Qed.

Lemma safe_gen {A} idx g (f : Z → XM A) B Q : gen_at (st_core s) idx = Some g → safe B (f g) Q s → safe B (x_gen idx ≫= f) Q s.
Proof using Type.
  unfold gen_at. intros (sl & Hsl & ->)%fmap_Some Hf. unfold safe, mbind, M_bind, x_gen, x_call.
  rewrite (bind_Ret _ _ _ _ _ (deref_slot_run _ _ _ Hsl)). clear I. cbn. by destruct s.
Qed.

Definition goes_on (s' : stress) : Prop := ∃ m', stress_inv fr s' m'.

Context (scratch : bytes).

(** An insert through the core. *)
Lemma insert_call_step k v : threads s !! t = Some Loop → 0 ≤ k < NSLOTS → 0 ≤ v < 1000000 →
  safe blocked (r ← x_call (fm_core_insert_row (Rec_bytes (mkRec k v)) (-1) 0 scratch); modify (x_pc t (Inserted k v (ins_rc r)))) (λ _, goes_on) s.
Proof using I.
  intros Hp Hk Hv. pose proof (si_holds _ _ _ I) as H. pose proof (inv_size _ _ _ I) as Hsz.
  safe_use (safe_call _ _ blocked (holds_insert H k v (-1) 0 scratch (key_in64 k Hk) (value_in64 v Hv) ltac:(lia) Hsz)).
  intros r s1 (c & -> & K & Hcase). eapply safe_run; [apply modify_run|].
  assert (Hoth : ∀ q t' p', t' ≠ t → threads s !! t' = Some p' → pc_ok s p' → pc_ok (x_pc t q (x_core c s)) p').
  { intros q t' p' _ _. by apply pc_ok_kept. }
  assert (Et : ∀ q, threads (x_pc t q (x_core c s)) = <[t := q]> (threads s)) by done.
  pose proof (λ q, pending_step Loop q (x_pc t q (x_core c s)) Hp (Et q)) as P.
  destruct Hcase as [(-> & Hnone & H1)|(-> & Hsome & H1)].
  - set (q := Inserted k v FM_ERR_OK). exists (<[k := v]> m). assert (Hs : shadow s !! k = None).
    { destruct (shadow s !! k) eqn:E; [|done]. assert (m !! k = Some z) by (apply (si_rows _ _ _ I); by left). congruence. }
    assert (Hpk : ∀ t' w, ¬ pending s t' k w).
    { intros t' w Hw. assert (m !! k = Some w) by (apply (si_rows _ _ _ I); right; by exists t'). congruence. }
    eapply (stress_step_inv Loop q _ _ Hp (Et q)); try done; try apply I.
    + intros j [w [[<- _]|[_ Hw]]%lookup_insert_Some]; [done|]. apply (si_range _ _ _ I). by eexists.
    + intros j w. setoid_rewrite (P q). cbn [shadow x_pc x_core]. rewrite lookup_insert_Some, (si_rows _ _ _ I). split.
      * intros [[<- <-]|[Hne [?|[t' Ht']]]]; [right; exists t; by left|by left|]. right. exists t'. right. split; [|done]. intros ->.
        unfold pending in Ht'. congruence.
      * intros [Hw|[t' [[-> [= <- <-]]|[Hne Hw]]]]; [right; split; [congruence|by left]|by left|]. right. split; [intros <-; by eapply Hpk|right; by exists t'].
    + intros t' j w. rewrite (P q). intros [[-> [= <- <-]]|[_ Hw]]; [done|by eapply I].
    + intros t1 t2 j w w'. rewrite !(P q). intros [[-> [= <- <-]]|[H1' Hw1]] [[-> E2]|[H2' Hw2]]; [done|by destruct (Hpk t2 w')| |by eapply (si_one _ _ _ I)].
      injection E2 as <- <-. by destruct (Hpk t1 w).
    + split; [by left|done].
    + apply Hoth.
  - exists m. set (q := Inserted k v FM_ERR_DUP_KEY).
    assert (P' : ∀ t' j w, pending (x_pc t q (x_core c s)) t' j w ↔ pending s t' j w) by by eapply pending_settled.
    eapply (stress_step_inv Loop q _ _ Hp (Et q)); try done; try apply I.
    + intros j w. rewrite (si_rows _ _ _ I). by setoid_rewrite P'.
    + intros t' j w. rewrite P'. apply I.
    + intros t1 t2 j w w'. rewrite !P'. apply I.
    + split; [by right|done].
    + apply Hoth.
Qed.

(** The end of a round in which nothing is recorded. *)
Lemma round_done_step p s' : threads s !! t = Some p → settled p → threads s' = threads s → st_core s' = st_core s → shadow s' = shadow s →
  live_cnt s' = live_cnt s → failures s' = failures s → holding p = true ∨ mtx s = None → wp (round_done t) (λ _, goes_on) s'.
Proof using I.
  intros Hp Sp Et Ec Es El Ef Hh. unfold round_done, mtx_unlock. wp_mod. eapply wp_run; [apply modify_run|]. exists m.
  eapply (inv_quiet p Loop); try done; [cbn; by rewrite Et|]. cbn. by destruct (holding p), Hh.
Qed.

Lemma start_round_step c : threads s !! t = Some Loop → safe blocked (start_round scratch t c) (λ _, goes_on) s.
Proof using I.
  intros Hp. unfold start_round. set (k := c_k c mod NSLOTS). set (v := c_v c mod 1000000).
  assert (Hk : 0 ≤ k < NSLOTS) by (by apply Z.mod_pos_bound). assert (Hv : 0 ≤ v < 1000000) by (by apply Z.mod_pos_bound).
  cbv zeta. case_decide as Hop; [by apply insert_call_step|]. eapply safe_mtx; [done..|]. intros Hm. safe_step @get_run.
  change (shadow (x_mtx (Some t) s)) with (shadow s). destruct (shadow s !! k) as [ov|] eqn:Eo.
  - case_decide as Hu.
    + assert (Hnk : (if decide (c_move c mod 2 ≠ 0) then k else (k + 1000) mod NSLOTS) = k) by (case_decide; [done|by apply move_stays]).
      rewrite Hnk. eapply safe_run; [apply modify_run|]. exists m. eapply (inv_quiet Loop (UFind k v k ov)); try done. by right.
    + eapply safe_run; [apply modify_run|]. exists m. eapply (inv_quiet Loop (DFind k)); try done; by right.
  - apply safe_wp. by eapply (round_done_step Loop); [| | | | | | |right].
Qed.

Lemma x_check_run (b : bool) s0 : b = true → x_check b s0 = Ret (tt, s0).
Proof using Type. by intros ->. Qed.

Lemma record_insert_step k v rc : threads s !! t = Some (Inserted k v rc) → safe blocked (record_insert t k v rc) (λ _, goes_on) s.
Proof using I.
  intros Hp. destruct (si_pc _ _ _ I _ _ Hp) as (Hrc & Hk & Hv). unfold record_insert. eapply safe_mtx; [done..|]. intros Hm.
  safe_step @get_run. apply safe_wp. unfold shadow_count. change (shadow (x_mtx (Some t) s)) with (shadow s). destruct Hrc as [->| ->].
  - assert (Hs : shadow s !! k = None) by by eapply (si_new _ _ _ I t k v). rewrite Hs. apply wp_bind, wp_bind.
    eapply wp_run; [by apply x_check_run|]. unfold shadow_add. eapply wp_run; [apply modify_run|]. unfold round_done, mtx_unlock. wp_mod.
    eapply wp_run; [apply modify_run|]. set (s' := x_pc _ _ _). exists m.
    pose proof (pending_step _ Loop s' Hp eq_refl) as P.
    assert (P' : ∀ t' j w, pending s' t' j w ↔ t' ≠ t ∧ pending s t' j w).
    { intros t' j w. rewrite P. split; [intros [[_ [=]]|?]; done|by right]. }
    assert (Hpt : ∀ t' w, pending s t' k w → t' = t) by (intros t' w Hw; by eapply (si_one _ _ _ I)).
    eapply (stress_step_inv _ Loop s' m Hp eq_refl); try done; try apply I.
    + intros j w. rewrite (si_rows _ _ _ I). setoid_rewrite P'. cbn [s' shadow x_pc x_mtx x_shadow]. rewrite lookup_insert_Some. split.
      * intros [Hw|[t' Hw]]; [left; right; split; [congruence|done]|]. destruct (decide (t' = t)) as [->|Hne]; [|right; by exists t'].
        unfold pending in Hw. rewrite Hp in Hw. injection Hw as -> ->. by left; left.
      * intros [[[<- <-]|[_ Hw]]|[t' [_ Hw]]]; [right; by exists t|by left|right; by exists t'].
    + intros t' j w. rewrite P'. intros [Hne Hw]. cbn [s' shadow x_pc x_mtx x_shadow]. rewrite lookup_insert_ne; [by eapply I|].
      intros <-. by apply Hne, (Hpt _ w).
    + intros t1 t2 j w w'. rewrite !P'. intros [_ H1] [_ H2]. by eapply I.
    + cbn. rewrite map_size_insert_None, (si_live _ _ _ I) by done. lia.
    + intros t' p' Hne Ht'. apply pc_ok_outside. rewrite (si_mtx _ _ _ I _ _ Ht'), Hm. done.
  - apply wp_bind. apply (wp_mono _ (λ _ s1, threads s1 = threads s ∧ st_core s1 = st_core s ∧ shadow s1 = shadow s ∧ live_cnt s1 = live_cnt s ∧ failures s1 = failures s)).
    { case_bool_decide; [by apply wp_ret|]. by eapply wp_run; [apply modify_run|]. }
    intros _ s1 (? & ? & ? & ? & ?). eapply (round_done_step _ s1 Hp); try done. by right.
Qed.

Lemma update_find_step k v nk ov : threads s !! t = Some (UFind k v nk ov) → safe blocked (update_find scratch t k v nk ov) (λ _, goes_on) s.
Proof using I.
  intros Hp. destruct (si_pc _ _ _ I _ _ Hp) as (Hk & Hv & -> & Hs). pose proof (si_holds _ _ _ I) as H.
  assert (Hm : m !! k = Some ov) by (apply (si_rows _ _ _ I); by left). unfold update_find.
  safe_use (safe_call _ _ blocked (holds_find H k scratch (-1) (key_in64 k Hk) ltac:(lia))). rewrite Hm.
  intros [[rc idx] b] s1 (c & -> & -> & Hrc & Hrow & _). cbn in Hrc, Hrow. rewrite decide_True by done. eapply safe_run; [apply modify_run|].
  exists m. eapply (inv_quiet _ (UGen k v k ov idx) _ Hp); try done; [|by left]. by eapply inside_mtx.
Qed.

Lemma delete_find_step k : threads s !! t = Some (DFind k) → safe blocked (delete_find scratch t k) (λ _, goes_on) s.
Proof using I.
  intros Hp. destruct (si_pc _ _ _ I _ _ Hp) as (Hk & ov & Hs). pose proof (si_holds _ _ _ I) as H.
  assert (Hm : m !! k = Some ov) by (apply (si_rows _ _ _ I); by left). unfold delete_find.
  safe_use (safe_call _ _ blocked (holds_find H k scratch (-1) (key_in64 k Hk) ltac:(lia))). rewrite Hm.
  intros [[rc idx] b] s1 (c & -> & -> & Hrc & Hrow & _). cbn in Hrc, Hrow. safe_step x_check_run; [by apply is_rc_true|].
  eapply safe_run; [apply modify_run|]. exists m. eapply (inv_quiet _ (DGen k idx) _ Hp); try done; [|by eapply inside_mtx|by left]. split; [done|]. by exists ov.
Qed.

(** The holder of the mutex changes the row of one key and its record alike. *)
Lemma inv_record p k s' m' : threads s !! t = Some p → holding p = true → is_Some (shadow s !! k) → 0 ≤ k < NSLOTS →
  threads s' = <[t := Loop]> (threads s) → mtx s' = None → holds 1 room fr (st_core s') m' →
  (∀ j, j ≠ k → m' !! j = m !! j ∧ shadow s' !! j = shadow s !! j) → m' !! k = shadow s' !! k →
  live_cnt s' = Z.of_nat (size (shadow s')) → failures s' = 0 → stress_inv fr s' m'.
Proof using I.
  intros Hp Hh Hk Hkr Et Hm H Hj Hmk Hl Hf.
  assert (P : ∀ t' j w, pending s' t' j w ↔ pending s t' j w) by (eapply pending_settled; try done; intros ? ? ->; done).
  assert (Hpk : ∀ t' w, ¬ pending s t' k w) by (intros t' w Hw; rewrite (si_new _ _ _ I _ _ _ Hw) in Hk; by destruct Hk).
  eapply (stress_step_inv p Loop s' m' Hp Et); try done.
  - intros j Hjs. destruct (decide (j = k)) as [->|Hne]; [done|]. destruct (Hj j Hne) as [E _]. rewrite E in Hjs. by apply I.
  - intros j w. setoid_rewrite P. destruct (decide (j = k)) as [->|Hne].
    + rewrite Hmk. split; [by left|]. intros [?|[t' Hw]]; [done|by destruct (Hpk t' w)].
    + destruct (Hj j Hne) as [-> ->]. apply I.
  - intros t' j w. rewrite P. intros Hw. destruct (decide (j = k)) as [->|Hne]; [by destruct (Hpk t' w)|].
    destruct (Hj j Hne) as [_ ->]. by eapply I.
  - intros t1 t2 j w w'. rewrite !P. apply I.
  - cbn. by rewrite Hh.
  - intros t' p' Hne Ht'. apply pc_ok_outside. by eapply alone.
Qed.

Lemma update_call_step k v nk ov idx g : threads s !! t = Some (UCall k v nk ov idx g) →
  safe blocked (update_call scratch t k v nk ov idx g) (λ _, goes_on) s.
Proof using I.
  intros Hp. destruct (si_pc _ _ _ I _ _ Hp) as (Hk & Hv & -> & Hs & Hrow & Hg). pose proof (si_holds _ _ _ I) as H.
  assert (Hm : m !! k = Some ov) by (apply (si_rows _ _ _ I); by left). unfold update_call.
  safe_use (safe_call _ _ blocked (holds_update H idx k ov g k v 0 scratch Hrow Hg Hm (key_in64 k Hk) (value_in64 v Hv) (or_introl eq_refl))).
  intros [rc ek] s1 (c & -> & Hrc & H1 & _). cbn in Hrc. subst rc. safe_step @get_run. apply safe_wp, wp_bind, wp_bind.
  eapply wp_run; [apply x_check_run; rewrite bool_decide_false by naive_solver; done|]. unfold shadow_move.
  eapply wp_run; [apply modify_run|]. unfold round_done, mtx_unlock. wp_mod. eapply wp_run; [apply modify_run|]. exists (<[k := v]> (delete k m)).
  eapply (inv_record _ k _ _ Hp); try done; cbn.
  - intros j Hne. by rewrite !lookup_insert_ne, !lookup_delete_ne.
  - by rewrite !lookup_insert_eq.
  - rewrite insert_delete_eq, map_size_insert_Some by by eexists. apply I.
  - apply I.
Qed.

Lemma delete_call_step k idx g : threads s !! t = Some (DCall k idx g) → safe blocked (delete_call t k idx g) (λ _, goes_on) s.
Proof using I.
  intros Hp. destruct (si_pc _ _ _ I _ _ Hp) as (Hk & ov & Hs & Hrow & Hg). pose proof (si_holds _ _ _ I) as H.
  assert (Hm : m !! k = Some ov) by (apply (si_rows _ _ _ I); by left). unfold delete_call.
  safe_use (safe_call _ _ blocked (holds_delete H idx k ov g Hrow Hg Hm)).
  intros rc s1 (c & -> & -> & H1 & _). rewrite decide_True by done. safe_step @modify_run. safe_step x_check_run; [done|]. safe_step @get_run.
  assert (Hsz : Z.of_nat (size (delete k (shadow s))) = live_cnt s - 1).
  { rewrite (si_live _ _ _ I), (map_size_delete_Some k) by by eexists. assert (size (shadow s) ≠ 0%nat); [|lia].
    intros E%map_size_empty_inv. by rewrite E, lookup_empty in Hs. }
  safe_step x_check_run; [apply bool_decide_true; cbn; lia|]. apply safe_wp. unfold round_done, mtx_unlock. wp_mod.
  eapply wp_run; [apply modify_run|]. exists (delete k m). eapply (inv_record _ k _ _ Hp); try done; cbn.
  - intros j Hne. by rewrite !lookup_delete_ne.
  - by rewrite !lookup_delete_eq.
  - apply I.
Qed.

(** A thread goes on with the invariant kept, or waits for the mutex of another. *)
Lemma thread_step_ok c p : threads s !! t = Some p → safe blocked (thread_step scratch t c) (λ _, goes_on) s.
Proof using I.
  intros Hp. unfold thread_step. safe_step @get_run. rewrite Hp. safe_step @unwrap_run; [done|]. pose proof (si_holds _ _ _ I) as H.
  destruct p as [|k v rc|k v nk ov|k v nk ov idx|k v nk ov idx g|k|k idx|k idx g].
  - by apply start_round_step.
  - by apply record_insert_step.
  - by apply update_find_step.
  - destruct (si_pc _ _ _ I _ _ Hp) as (Hk & Hv & -> & Hs & Hrow). destruct (holds_gen H idx _ Hrow) as [g Hg].
    eapply safe_gen; [exact Hg|]. eapply safe_run; [apply modify_run|]. exists m.
    eapply (inv_quiet _ (UCall k v k ov idx g) _ Hp); try done; [by eapply inside_mtx|by left].
  - by apply update_call_step.
  - by apply delete_find_step.
  - destruct (si_pc _ _ _ I _ _ Hp) as (Hk & ov & Hs & Hrow). destruct (holds_gen H idx _ Hrow) as [g Hg].
    eapply safe_gen; [exact Hg|]. eapply safe_run; [apply modify_run|]. exists m.
    eapply (inv_quiet _ (DCall k idx g) _ Hp); try done; [|by eapply inside_mtx|by left]. split; [done|]. by exists ov.
  - by apply delete_call_step.
Qed.
End steps.

Lemma stress_run_ok fr scratch sched : ∀ s s' m, stress_inv fr s m → stress_run scratch sched s = Ret (tt, s') → ∃ m', stress_inv fr s' m'.
Proof.
  induction sched as [|[t c] sched IH]; intros s s' m I E; [injection E as <-; by exists m|]. cbn [stress_run] in E.
  unfold mbind, M_bind in E. destruct (threads s !! t) as [p|] eqn:Hp.
  - pose proof (thread_step_ok fr t s m I scratch c p Hp) as Hs. unfold safe in Hs.
    destruct (thread_step scratch t c s) as [[[] s1]| |]; [|done|done]. destruct Hs as [m1 I1]. by eapply IH.
  - unfold thread_step, mbind, M_bind, get in E. by rewrite Hp in E.
Qed.

(** * The comparison *)

(** The map that the scan collects. *)
Definition collect (l : list (Z * Z)) (found : gmap Z Z) : gmap Z Z := fold_left (λ f p, <[p.1 := p.2]> f) l found.

Lemma verify_scan_run fuel : ∀ pos buf found s rows l, wf ∅ (st_core s) → 0 ≤ pos ≤ total_slots (st_core s) →
  scan_all fuel pos buf (st_core s) = Ret (rows, st_core s) → rows.*2 = kv_bytes <$> l → NoDup l.*1 →
  (∀ p, p ∈ l → in64 p.1 ∧ in64 p.2 ∧ found !! p.1 = None) →
  verify_scan fuel pos buf found s = Ret (collect l found, s).
Proof.
  induction fuel as [|fuel IH]; intros pos buf found s rows l Hwf Hpos E Hl Hnd Hin; [done|]. cbn [scan_all verify_scan] in *.
  destruct (scan_next_run ∅ (st_core s) Hwf pos buf Hpos) as (rc & pos' & buf' & Hrun & Hp & _).
  unfold mbind, M_bind, x_call in *. rewrite Hrun in *. assert (Hs : x_core (st_core s) s = s) by by destruct s. rewrite Hs. case_decide as Hrc.
  - destruct (scan_all fuel pos' buf' (st_core s)) as [[rest c']| |] eqn:E2; [|done|done]. injection E as <- ->.
    destruct l as [|[k v] l]; [done|]. rewrite !fmap_cons in Hl. injection Hl as Eb Hl. cbn in Eb. subst buf'. apply NoDup_cons in Hnd as [Hnk Hnd]. cbn in Hnk.
    destruct (Hin (k, v)) as (Hk & Hv & Hf); [left|]. cbn in Hk, Hv, Hf. rewrite Rec_roundtrip by done. cbn [rec_k rec_v].
    rewrite Hf, x_check_run by done. apply (IH pos' _ _ _ rest l Hwf ltac:(lia) E2 Hl Hnd). intros p Hpl. destruct (Hin p) as (? & ? & ?); [by right|].
    rewrite lookup_insert_ne; [done|]. intros ->. apply Hnk. apply list_elem_of_fmap. by exists p.
  - injection E as <-. by destruct l.
Qed.

Lemma found_lookup l : ∀ found k, NoDup l.*1 → collect l found !! k = match (list_to_map l : gmap Z Z) !! k with Some v => Some v | None => found !! k end.
Proof.
  unfold collect. induction l as [|[k v] l IH]; intros found j Hnd; [cbn; by rewrite lookup_empty|]. apply NoDup_cons in Hnd as [Hk Hnd]. cbn [fold_left fst snd].
  rewrite IH by done. cbn. destruct (decide (j = k)) as [->|Hne].
  - rewrite !lookup_insert_eq. by rewrite not_elem_of_list_to_map_1.
  - by rewrite !lookup_insert_ne.
Qed.

Lemma verify_values_run l found s : (∀ p, p ∈ l → found !! p.1 = Some p.2) → verify_values l found s = Ret (tt, s).
Proof.
  induction l as [|[k v] l IH]; intros H; [done|]. cbn. rewrite bool_decide_true by (apply (H (k, v)); left). apply IH. intros p Hp. apply H. by right.
Qed.

(** The rows of a scan are the entries of the map, in some order. *)
Lemma scan_entries n mx fr s m rows : holds n mx fr s m → StronglySorted Z.lt rows.*1 →
  (∀ i rec, (i, rec) ∈ rows ↔ table s !! i = Some rec) → ∃ l, rows.*2 = kv_bytes <$> l ∧ l ≡ₚ map_to_list m.
Proof.
  intros H Hs Hr. assert (P : rows ≡ₚ map_to_list (table s)).
  { apply NoDup_Permutation; [|apply NoDup_map_to_list|].
    - apply (NoDup_fmap_1 fst). clear -Hs. induction Hs as [|x l Hs IH Hx]; constructor; [|done]. intros Hin. rewrite Forall_forall in Hx. specialize (Hx x Hin). lia.
    - intros [i rec]. by rewrite Hr, elem_of_map_to_list. }
  apply (fmap_Permutation snd) in P. rewrite (hd_rows _ _ _ _ _ H) in P. apply Permutation_map_inv in P as (l & -> & Hl). by exists l.
Qed.

(** When no thread is in a round, the comparison finds no difference. *)
Lemma verify_ok fr s m scratch : stress_inv fr s m → (∀ t p, threads s !! t = Some p → p = Loop) → verify scratch s = Ret (tt, s).
Proof.
  intros I Hq. pose proof (si_holds _ _ _ I) as H. pose proof (hd_wf _ _ _ _ _ H) as Hwf.
  assert (Em : shadow s = m).
  { apply map_eq. intros k. apply option_eq. intros v. rewrite (si_rows _ _ _ I). split; [by left|]. intros [?|[t Ht]]; [done|]. by apply Hq in Ht. }
  destruct (core_scan_spec ∅ (st_core s) scratch Hwf) as (rows & c & Hrun & -> & Hs & Hr).
  destruct (scan_entries _ _ _ _ _ _ H Hs Hr) as (l & Hl & P).
  assert (Hnd : NoDup l.*1) by (rewrite P; apply NoDup_fst_map_to_list).
  assert (Hc : collect l ∅ = m).
  { apply map_eq. intros k. rewrite found_lookup by done. rewrite (list_to_map_proper l (map_to_list m)), list_to_map_to_list by done.
    destruct (m !! k); [done|apply lookup_empty]. }
  unfold verify. rewrite (bind_Ret _ _ _ _ _ (get_run _)). erewrite bind_Ret.
  2: { apply (verify_scan_run _ 0 scratch ∅ s rows l); try done.
       - pose proof (total_bound _ (wf_static _ _ Hwf)). lia.
       - intros [k v] Hp. rewrite P in Hp. apply elem_of_map_to_list in Hp. destruct (hd_fit _ _ _ _ _ H _ _ Hp). split; [done|]. split; [done|]. apply lookup_empty. }
  rewrite Hc. rewrite (bind_Ret _ _ _ _ _ (get_run _)), Em. rewrite decide_False by naive_solver.
  apply verify_values_run. intros [k v] Hp. by apply elem_of_map_to_list in Hp.
Qed.

(** * Property *)

Lemma stress_start_inv fr n c : holds 1 room fr c ∅ → stress_inv fr (stress_start n c) ∅.
Proof.
  intros H. assert (Hq : ∀ t p, threads (stress_start n c) !! t = Some p → p = Loop).
  { intros t p Hp. cbn in Hp. apply elem_of_list_to_map_2 in Hp. by apply list_elem_of_fmap in Hp as (? & [= _ ->] & _). }
  constructor; try done.
  - intros k [v Hv]. by rewrite lookup_empty in Hv.
  - intros k v. cbn. rewrite lookup_empty. split; [done|]. intros [?|[t Ht]]; [done|]. by apply Hq in Ht.
  - intros t t' k v v' Ht. by apply Hq in Ht.
  - intros t p ->%Hq. done.
  - intros t p ->%Hq. done.
Qed.

(** C18: Test B of the standalone test finds no failure in any run.  Any number of threads insert,
    update and delete rows of random keys, and interleave in any order between the calls of the
    core, with the random numbers whatever they are.  As long as memory lasts, no thread ever
    reports a failure; a thread that cannot go on waits for the mutex, which another thread holds
    and can go on with; and once all threads have finished their rounds, the table holds exactly
    the keys and values that were recorded, each once, so that the comparison succeeds, and
    releasing the share returns all memory. *)
Theorem unique_key_passes alloc scratch (n : nat) sched c0 s1 s :
  (∀ i size, alloc i size = true) → fresh (heap c0) → stress_init alloc (stress_start n c0) = Ret (tt, s1) →
  stress_run scratch sched s1 = Ret (tt, s) →
  failures s = 0 ∧
  (∀ t p c, threads s !! t = Some p → (∃ s', thread_step scratch t c s = Ret (tt, s')) ∨
     thread_step scratch t c s = Hang ∧ ∃ t', t' ≠ t ∧ mtx s = Some t' ∧ ∀ c', ∃ s', thread_step scratch t' c' s = Ret (tt, s')) ∧
  ((∀ t p, threads s !! t = Some p → p = Loop) →
     wp (verify scratch;; x_call fm_core_free_share) (λ _ s', failures s' = 0 ∧ live (heap (st_core s')) = live (heap c0)) s).
Proof.
  intros Ha Hfr Hinit Hrun.
  destruct (init_holds alloc 1 room c0 Ha Hfr ltac:(lia) ltac:(unfold room; lia)) as ([] & c1 & Hc1 & H1).
  unfold stress_init, x_call in Hinit. change (Z.shiftl 1 20) with room in Hinit. cbn [st_core stress_start] in Hinit. rewrite Hc1 in Hinit. injection Hinit as <-.
  destruct (stress_run_ok (live (heap c0)) scratch sched (stress_start n c1) s ∅ (stress_start_inv _ n c1 H1) Hrun) as [m I].
  assert (Hstep : ∀ t p c, threads s !! t = Some p → (∃ s', thread_step scratch t c s = Ret (tt, s')) ∨ thread_step scratch t c s = Hang ∧ blocked t s).
  { intros t p c Hp. pose proof (thread_step_ok _ t s m I scratch c p Hp) as Hs. unfold safe in Hs.
    destruct (thread_step scratch t c s) as [[[] s']| |]; [left; by eexists|done|by right]. }
  split; [apply I|split].
  - intros t p c Hp. destruct (Hstep t p c Hp) as [?|[Hh (t' & Hne & Hm)]]; [by left|right]. split; [done|]. exists t'. split; [done|]. split; [done|].
    intros c'. destruct (si_holder _ _ _ I t' Hm) as [p' Hp']. destruct (Hstep t' p' c' Hp') as [?|[_ (t2 & Hne2 & Hm2)]]; [done|congruence].
  - intros Hq. wp_step (verify_ok _ s m scratch I Hq). destruct (free_holds _ _ _ _ _ (si_holds _ _ _ I)) as ([] & c & Hfree & Hl).
    eapply (wp_run _ _ _ tt (x_core c s)); [unfold x_call; by rewrite Hfree|]. split; [apply I|exact Hl].
Qed.
