(* ===== verification/TornRead.v ===== *)
(** Test A of the standalone test (src/standalone-test/main.cpp, [test_torn_read]): writers update
    random rows, readers scan the table and look at every record for signs of a torn read.  The
    threads interleave between the calls of the core and their accesses to the shared array [rows],
    which are one step each.  The array is also the scratch buffer of the inserts at the start. *)

From S2P Require Import Prelude CoreState CoreOps RowOps Shape Inv Chains Reads Alloc Freelist Steps Insert Delete Lockset Update Clear Lifecycle Spec Hash Standalone.

(** * Records *)

Record Rec2 := mkRec2 { r2_k : Z; r2_magic : Z; r2_v : Z }.
#[export] Instance Rec2_eq_dec : EqDecision Rec2.
Proof. solve_decision. Defined.
Definition sizeof_Rec2 : Z := 24.
Definition Rec2_bytes (r : Rec2) : bytes := store64 (r2_k r) ++ store64 (r2_magic r) ++ store64 (r2_v r).
Definition Rec2_at (buf : bytes) : Rec2 := mkRec2 (load64 buf 0) (load64 buf 8) (load64 buf 16).

(** The literal [0xABCD000000000000LL] is unsigned; [magic] is what an int64 makes of it. *)
Definition MAGIC : Z := 0xABCD000000000000.
Definition magic : Z := i64 MAGIC.
Definition NROWS : Z := 64.

(** * The state of the test *)

Inductive tpc :=
| WTop (epoch : Z)
| WFind (epoch i : Z) (nr : Rec2)
| WGen (epoch i : Z) (nr : Rec2) (out : Z)
| WCall (epoch i : Z) (nr : Rec2) (out g : Z)
| WStore (epoch i : Z) (nr : Rec2)
| RTop
| RScan (pos : Z) (buf : bytes)
| TDone.

#[export] Instance tpc_eq_dec : EqDecision tpc.
Proof. solve_decision. Defined.

Record torn := mkTorn {
  tn_core : FM_SHARE_CORE;
  tn_rows : gmap Z Rec2;
  tn_stop : bool;
  tn_writes : Z;
  tn_reads : Z;
  tn_failures : Z;
  tn_threads : gmap nat tpc
}.
Abbreviation AM := (M torn).

Definition a_core (c : FM_SHARE_CORE) (s : torn) : torn := mkTorn c (tn_rows s) (tn_stop s) (tn_writes s) (tn_reads s) (tn_failures s) (tn_threads s).
Definition a_row (i : Z) (r : Rec2) (s : torn) : torn := mkTorn (tn_core s) (<[i := r]> (tn_rows s)) (tn_stop s) (tn_writes s) (tn_reads s) (tn_failures s) (tn_threads s).
Definition a_stop (s : torn) : torn := mkTorn (tn_core s) (tn_rows s) true (tn_writes s) (tn_reads s) (tn_failures s) (tn_threads s).
Definition a_write (s : torn) : torn := mkTorn (tn_core s) (tn_rows s) (tn_stop s) (tn_writes s + 1) (tn_reads s) (tn_failures s) (tn_threads s).
Definition a_read (s : torn) : torn := mkTorn (tn_core s) (tn_rows s) (tn_stop s) (tn_writes s) (tn_reads s + 1) (tn_failures s) (tn_threads s).
Definition a_fail (s : torn) : torn := mkTorn (tn_core s) (tn_rows s) (tn_stop s) (tn_writes s) (tn_reads s) (tn_failures s + 1) (tn_threads s).
Definition a_pc (t : nat) (p : tpc) (s : torn) : torn := mkTorn (tn_core s) (tn_rows s) (tn_stop s) (tn_writes s) (tn_reads s) (tn_failures s) (<[t := p]> (tn_threads s)).

Definition a_call {A} (m : SM A) : AM A := λ s,
  match m (tn_core s) with
  | Ret (a, c) => Ret (a, a_core c s)
  | Ub => Ub
  | Hang => Hang
  end.
Definition a_check (c : bool) : AM () := if c then mret tt else modify a_fail.
(** [rows[i]], which is not initialised before its first assignment. *)
Definition a_get (i : Z) : AM Rec2 := s ← get; unwrap (tn_rows s !! i).

(** * The start *)

(** What the walk of [fm_core_dup_check] leaves in the scratch buffer. *)
Fixpoint dup_scratch (fuel : nat) (kc : FM_KEY_CORE) (k : Z) (rec : bytes) (h : Z) (scratch : bytes) : SM bytes :=
  match fuel with
  | O => hang
  | S fuel' =>
      if decide (h = FM_NULL_SLOT) then mret scratch else
      '(rc, scratch) ← fm_core_read_row h false 0 scratch;
      same ← (if decide (rc = FM_ERR_OK) then
                f ← unwrap (cmp_rec_rec (ops kc)); mret (bool_decide (f scratch rec = 0))
              else mret false);
      if same : bool then mret scratch
      else n ← deref_next k h; dup_scratch fuel' kc k rec n scratch
  end.

Definition check_scratch (k : Z) (rec scratch : bytes) : SM bytes :=
  kc ← deref_key k;
  b ← fm_core_key_bucket kc rec;
  if unique kc && negb (has_null kc rec) then
    h ← deref_head k b;
    s ← get;
    dup_scratch (walk_fuel s) kc k rec h scratch
  else mret scratch.

(** A look at the share. *)
Definition peek {A} (m : SM A) : AM A := λ s,
  match m (tn_core s) with
  | Ret (a, _) => Ret (a, s)
  | Ub => Ub
  | Hang => Hang
  end.

(** The row is inserted with [rows[0]] as the scratch buffer of the duplicate check of key 0. *)
Fixpoint torn_rows (n : nat) (i : Z) : AM () :=
  match n with
  | O => mret tt
  | S n' =>
      modify (a_row i (mkRec2 i magic 0));;
      rec ← a_get i;
      row0 ← a_get 0;
      left ← peek (check_scratch 0 (Rec2_bytes rec) (Rec2_bytes row0));
      r ← a_call (fm_core_insert_row (Rec2_bytes rec) (-1) 0 (Rec2_bytes row0));
      modify (a_row 0 (Rec2_at left));;
      a_check (is_rc (ins_rc r) FM_ERR_OK);;
      a_check (bool_decide (ins_idx r = i));;
      torn_rows n' (i + 1)
  end.

Definition torn_init (alloc : nat → Z → bool) : AM () :=
  a_call (fm_core_init_share sizeof_Rec2 1 (Z.shiftl 1 20) 64 alloc;; fm_key_ops_init test_keys);;
  torn_rows (Z.to_nat NROWS) 0.

(** * Threads *)

Section threads.
Context (scratch : bytes).

(** The top of the loop of a writer; [c] is the random number. *)
Definition writer_top (t : nat) (epoch c : Z) : AM () :=
  s ← get;
  if tn_stop s then modify (a_pc t TDone)
  else
    let i := c mod NROWS in
    r ← a_get i;
    let nr := mkRec2 (r2_k r) (r2_magic r) (epoch + 1) in
    modify (a_pc t (WFind (epoch + 1) i nr)).

Definition writer_find (t : nat) (epoch i : Z) (nr : Rec2) : AM () :=
  '(rc, out, _) ← a_call (fm_core_find 0 (store64 i) scratch (-1));
  if decide (rc = FM_ERR_OK) then modify (a_pc t (WGen epoch i nr out))
  else modify a_write;; modify (a_pc t (WTop epoch)).

Definition writer_call (t : nat) (epoch i : Z) (nr : Rec2) (out g : Z) : AM () :=
  old ← a_get i;
  '(rc, _) ← a_call (fm_core_update_row out g (Rec2_bytes old) (Rec2_bytes nr) 0 scratch);
  a_check (is_rc rc FM_ERR_OK);;
  modify (a_pc t (WStore epoch i nr)).

Definition writer_store (t : nat) (epoch i : Z) (nr : Rec2) : AM () :=
  modify (a_row i nr);; modify a_write;; modify (a_pc t (WTop epoch)).

(** What a reader looks at: the magic number, then the sign of the value. *)
Definition magic_ok (buf : bytes) : bool := bool_decide (u64 (r2_magic (Rec2_at buf)) = MAGIC).
Definition value_ok (buf : bytes) : bool := bool_decide (0 ≤ r2_v (Rec2_at buf)).

Definition reader_scan (t : nat) (pos : Z) (buf : bytes) : AM () :=
  '(rc, pos, buf) ← a_call (fm_core_scan_next pos buf);
  if decide (rc = FM_ERR_OK) then
    if negb (magic_ok buf) then modify a_fail;; modify a_stop;; modify (a_pc t TDone)
    else if negb (value_ok buf) then modify a_fail;; modify a_stop;; modify (a_pc t TDone)
    else modify a_read;; modify (a_pc t (RScan pos buf))
  else modify (a_pc t RTop).

Definition torn_step (t : nat) (c : Z) : AM () :=
  s ← get;
  p ← unwrap (tn_threads s !! t);
  match p with
  | WTop epoch => writer_top t epoch c
  | WFind epoch i nr => writer_find t epoch i nr
  | WGen epoch i nr out => sl ← a_call (deref_slot out); modify (a_pc t (WCall epoch i nr out (gen sl)))
  | WCall epoch i nr out g => writer_call t epoch i nr out g
  | WStore epoch i nr => writer_store t epoch i nr
  | RTop => if tn_stop s then modify (a_pc t TDone) else modify (a_pc t (RScan 0 scratch))
  | RScan pos buf => reader_scan t pos buf
  | TDone => mret tt
  end.

(** The main thread sets [stop] at some time. *)
Inductive event := Go (t : nat) (c : Z) | Stop.

Fixpoint torn_run (evs : list event) : AM () :=
  match evs with
  | [] => mret tt
  | Go t c :: evs' => torn_step t c;; torn_run evs'
  | Stop :: evs' => modify a_stop;; torn_run evs'
  end.

(** After the threads have been joined. *)
Fixpoint re_verify (fuel : nat) (pos : Z) (buf : bytes) : AM () :=
  match fuel with
  | O => hang
  | S fuel' =>
      '(rc, pos, buf) ← a_call (fm_core_scan_next pos buf);
      if decide (rc = FM_ERR_OK) then a_check (magic_ok buf);; re_verify fuel' pos buf else mret tt
  end.

Definition torn_end : AM () :=
  s ← get;
  re_verify (S (Z.to_nat (fm_core_slot_count (tn_core s)))) 0 scratch;;
  a_call fm_core_free_share.
End threads.

(** Four writers and two readers. *)
Definition crew_A : gmap nat tpc :=
  {[ 0%nat := WTop 0; 1%nat := WTop 0; 2%nat := WTop 0; 3%nat := WTop 0; 4%nat := RTop; 5%nat := RTop ]}.

Definition torn_start : torn := mkTorn local_share ∅ false 0 0 0 crew_A.

(** * Records in bytes *)

(** The image of the record with key [p.1] and value [p.2]. *)
Definition kmv_bytes (p : Z * Z) : bytes := Rec2_bytes (mkRec2 p.1 magic p.2).

Lemma Rec2_roundtrip k m v : in64 k → in64 m → in64 v → Rec2_at (Rec2_bytes (mkRec2 k m v)) = mkRec2 k m v.
Proof.
  intros Hk Hm Hv. unfold Rec2_at, Rec2_bytes. cbn [r2_k r2_magic r2_v]. f_equal.
  - apply (load_store64 k [] (store64 m ++ store64 v) Hk).
  - apply (load_store64 m (store64 k) (store64 v) Hm).
  - pose proof (load_store64 v (store64 k ++ store64 m) [] Hv) as E. rewrite app_nil_r, <-app_assoc in E. exact E.
Qed.

Lemma magic_in64 : in64 magic.
Proof. done. Qed.

#[export] Instance Rec2_layout : RecordLayout sizeof_Rec2 kmv_bytes.
Proof.
  split; [done|done|]. intros k v Hk. apply (load_store64 k [] (store64 magic ++ store64 v) Hk).
Qed.

(** Such a record passes the tests of a reader. *)
Lemma row_looks_good k v : in64 k → 0 ≤ v → in64 v → magic_ok (kmv_bytes (k, v)) = true ∧ value_ok (kmv_bytes (k, v)) = true.
Proof.
  intros Hk Hv Hv64. unfold magic_ok, value_ok, kmv_bytes. rewrite Rec2_roundtrip by (done || apply magic_in64). cbn [r2_magic r2_v fst snd].
  split; [done|by apply bool_decide_true].
Qed.

(** * The start *)

Abbreviation holdsA := (holds_in sizeof_Rec2 kmv_bytes 1 (Z.shiftl 1 20)).

(** The rows [i .. i + c - 1] with value 0, added to [m]. *)
Fixpoint zeros (c : nat) (i : Z) (m : gmap Z Z) : gmap Z Z :=
  match c with O => m | S c' => zeros c' (i + 1) (<[i := 0]> m) end.

Lemma zeros_lookup c : ∀ i m k, zeros c i m !! k = if decide (i ≤ k < i + Z.of_nat c) then Some 0 else m !! k.
Proof.
  induction c as [|c IH]; intros i m k; simpl; [by rewrite decide_False by lia|]. rewrite IH.
  destruct (decide (k = i)) as [->|]; [rewrite decide_False, decide_True by lia; apply lookup_insert_eq|].
  rewrite lookup_insert_ne by done. repeat case_decide; (done || lia).
Qed.

Lemma a_get_inv i s r s' : a_get i s = Ret (r, s') → s' = s ∧ tn_rows s !! i = Some r.
Proof. unfold a_get, mbind, M_bind, get, unwrap. destruct (tn_rows s !! i); [|done]. by intros [= <- <-]. Qed.

Lemma a_check_core b s s' : a_check b s = Ret (tt, s') → tn_core s' = tn_core s.
Proof. destruct b; by intros [= <-]. Qed.

(** The inserts put the rows into the table, whatever becomes of [rows[0]]. *)
Lemma torn_rows_table fr n : ∀ i m s s', torn_rows n i s = Ret (tt, s') → holdsA fr (tn_core s) m → (∀ k, i ≤ k → m !! k = None) →
  0 ≤ i → i + Z.of_nat n ≤ NROWS → Z.of_nat (size m) + Z.of_nat n ≤ NROWS → holdsA fr (tn_core s') (zeros n i m).
Proof.
  induction n as [|n IH]; intros i m s s' E H Hnew Hi Hb Hsz; cbn [torn_rows zeros] in *; [by injection E as <-|].
  apply bind_inv in E as ([] & s1 & [= <-] & E). apply bind_inv in E as (rec & s2 & [-> Hrec]%a_get_inv & E). cbn in Hrec. rewrite lookup_insert_eq in Hrec. injection Hrec as <-.
  apply bind_inv in E as (row0 & s3 & [-> _]%a_get_inv & E). set (s3 := a_row _ _ s) in E. assert (tn_core s3 = tn_core s) as Ec by done.
  apply bind_inv in E as (lf & s4 & Hl & E). assert (s4 = s3) as -> by (unfold peek in Hl; destruct (check_scratch _ _ _ _) as [[]| |]; by simplify_eq).
  apply bind_inv in E as (r & s5 & Hins & E). unfold a_call in Hins. rewrite Ec in Hins. unfold NROWS in *.
  destruct (holds_insert H i 0 (-1) 0 (Rec2_bytes row0)) as (r' & c & Hrun & _ & [(_ & _ & Hc)|(_ & [x Hx] & _)]);
    [unfold in64; lia|done|lia|change (Z.shiftl 1 20) with 1048576; lia| |by rewrite Hnew in Hx].
  unfold kmv_bytes in Hrun. cbn [fst snd] in Hrun. rewrite Hrun in Hins. injection Hins as <- <-.
  apply bind_inv in E as ([] & s6 & [= <-] & E). apply bind_inv in E as ([] & s7 & H7%a_check_core & E).
  apply bind_inv in E as ([] & s8 & H8%a_check_core & E). rewrite H7 in H8. cbn in H8.
  apply (IH (i + 1) (<[i := 0]> m) s8 s' E); [by rewrite H8| |lia|lia|].
  - intros k Hk. rewrite lookup_insert_ne by lia. apply Hnew. lia.
  - rewrite map_size_insert_None by (apply Hnew; lia). lia.
Qed.

(** The start of the test, evaluated: no check fails, and [rows[0]] has become the image of row 43,
    which the last duplicate check that read a row has left there. *)
Definition started (s : torn) : bool :=
  bool_decide (tn_failures s = 0) && bool_decide (tn_stop s = false) && bool_decide (tn_threads s = crew_A) &&
  forallb (λ i, bool_decide (tn_rows s !! i = Some (mkRec2 (if decide (i = 0) then 43 else i) magic 0))) (seqZ 0 NROWS).

Definition started_by (o : outcome (() * torn)) : bool := match o with Ret (_, s) => started s | _ => false end.

Lemma torn_init_started : started_by (torn_init (λ _ _, true) torn_start) = true.
Proof. vm_compute. reflexivity. Qed.

(** * The invariant *)

(** A record that a writer is about to store in row [i] at its [epoch]. *)
Definition fresh_row (bound epoch i : Z) (nr : Rec2) : Prop := 0 < i < NROWS ∧ 0 ≤ epoch ≤ bound ∧ nr = mkRec2 i magic epoch.
(** The slot [out] has the row of key [i]. *)
Definition row_of (s : torn) (i out : Z) : Prop := ∃ v, table (tn_core s) !! out = Some (kmv_bytes (i, v)).

Definition tpc_ok (bound : Z) (s : torn) (p : tpc) : Prop :=
  match p with
  | WTop epoch => 0 ≤ epoch ≤ bound
  | WFind epoch i nr | WStore epoch i nr => fresh_row bound epoch i nr
  | WGen epoch i nr out => fresh_row bound epoch i nr ∧ row_of s i out
  | WCall epoch i nr out g => fresh_row bound epoch i nr ∧ row_of s i out ∧ gen_at (tn_core s) out = Some g
  | RTop | TDone => True
  | RScan pos buf => 0 ≤ pos ≤ total_slots (tn_core s)
  end.

(** [bound] is the number of steps so far; [m] gives the value of every key. *)
Record torn_inv (fr : gset nat) (bound : Z) (s : torn) (m : gmap Z Z) : Prop := {
  ti_holds : holdsA fr (tn_core s) m;
  ti_dom k : is_Some (m !! k) ↔ 0 ≤ k < NROWS;
  ti_val k v : m !! k = Some v → 0 ≤ v ≤ bound;
  ti_rows i : 0 < i < NROWS → ∃ v, tn_rows s !! i = Some (mkRec2 i magic v) ∧ in64 v;
  ti_fail : tn_failures s = 0;
  ti_crew t : (t < 6)%nat → is_Some (tn_threads s !! t);
  ti_pc t p : tn_threads s !! t = Some p → tpc_ok bound s p
}.

(** The slots keep their keys and generations. *)
Definition same_slots (c c' : FM_SHARE_CORE) : Prop :=
  total_slots c' = total_slots c ∧ (∀ i, gen_at c' i = gen_at c i) ∧
  ∀ out k v, in64 k → table c !! out = Some (kmv_bytes (k, v)) → ∃ v', table c' !! out = Some (kmv_bytes (k, v')).

Lemma same_slots_refl c : same_slots c c.
Proof. split; [done|split; [done|eauto]]. Qed.

Lemma tpc_ok_kept b b' s s' p : b ≤ b' → same_slots (tn_core s) (tn_core s') → tpc_ok b s p → tpc_ok b' s' p.
Proof.
  intros Hb (Et & Eg & Hr). assert (Hf : ∀ e i nr, fresh_row b e i nr → fresh_row b' e i nr) by (intros e i nr (? & ? & ?); split_and!; (done || lia)).
  assert (Hs : ∀ e i nr out, fresh_row b e i nr → row_of s i out → row_of s' i out).
  { intros e i nr out ([] & _) [v Hv]. eapply Hr; [|exact Hv]. unfold in64, NROWS in *. lia. }
  destruct p as [e|e i nr|e i nr out|e i nr out g|e i nr| |pos buf|]; cbn; try done; try (by apply Hf).
  - lia.
  - intros [H1 H2]. split; [by apply Hf|by eapply Hs].
  - intros (H1 & H2 & Hg). split; [by apply Hf|]. split; [by eapply Hs|by rewrite Eg].
  - by rewrite Et.
Qed.

Section steps.
Context (fr : gset nat) (bound : Z) (t : nat) (s : torn) (m : gmap Z Z) (I : torn_inv fr bound s m) (Hbound : bound + 1 < 2 ^ 63).

Definition goes_onA (s' : torn) : Prop := ∃ m', torn_inv fr (bound + 1) s' m'.

(** The step of thread [t] to place [q]. *)
Lemma torn_step_inv q s' m' : tn_threads s' = <[t := q]> (tn_threads s) → holdsA fr (tn_core s') m' → (∀ k, is_Some (m' !! k) ↔ is_Some (m !! k)) →
  (∀ k v, m' !! k = Some v → 0 ≤ v ≤ bound + 1) → (∀ i, 0 < i < NROWS → ∃ v, tn_rows s' !! i = Some (mkRec2 i magic v) ∧ in64 v) →
  tn_failures s' = tn_failures s → same_slots (tn_core s) (tn_core s') → tpc_ok (bound + 1) s' q → goes_onA s'.
Proof using I.
  intros Et H Hd Hv Hr Hf Hk Hq. exists m'. constructor; try done.
  - intros k. rewrite Hd. apply I.
  - rewrite Hf. apply I.
  - intros t2 H2. rewrite Et, lookup_insert_is_Some. destruct (decide (t = t2)); [by left|right; split; [done|by apply I]].
  - intros t2 p2. rewrite Et. intros [[<- <-]|[_ H2]]%lookup_insert_Some; [done|]. eapply tpc_ok_kept; [|done|by eapply I]. lia.
Qed.

(** A step that leaves the table and the array alone. *)
Lemma torn_quiet q s' : tn_threads s' = <[t := q]> (tn_threads s) → tn_core s' = tn_core s → tn_rows s' = tn_rows s → tn_failures s' = tn_failures s →
  tpc_ok (bound + 1) s' q → goes_onA s'.
Proof using I.
  intros Et Ec Er Ef Hq. eapply (torn_step_inv q s' m); try done; rewrite ?Ec, ?Er; try apply I; [|apply same_slots_refl].
  intros k v Hv. pose proof (ti_val _ _ _ _ I k v Hv). lia.
Qed.

Lemma wp_a_call {A} (c : SM A) Q : wp c Q (tn_core s) → wp (a_call c) (λ a s', ∃ k, s' = a_core k s ∧ Q a k) s.
Proof using Type. intros (a & k & E & HQ). exists a, (a_core k s). unfold a_call. rewrite E. eauto. Qed.

Context (scratch : bytes).

Lemma writer_top_step epoch c : tn_threads s !! t = Some (WTop epoch) → c mod NROWS ≠ 0 → wp (writer_top t epoch c) (λ _, goes_onA) s.
Proof using I.
  intros Ht Hc. pose proof (ti_pc _ _ _ _ I _ _ Ht) as He. cbn in He. unfold writer_top. wp_step @get_run. destruct (tn_stop s).
  { eapply wp_run; [apply modify_run|]. by eapply torn_quiet. }
  cbv zeta. pose proof (Z.mod_pos_bound c NROWS ltac:(done)) as Hi. destruct (ti_rows _ _ _ _ I (c mod NROWS)) as (v & Hr & _); [lia|].
  unfold a_get. apply wp_bind. wp_step @get_run. rewrite Hr. eapply wp_run; [by apply unwrap_run|]. eapply wp_run; [apply modify_run|].
  eapply torn_quiet; try done. cbn. split_and!; try done; lia.
Qed.

Lemma writer_find_step epoch i nr : tn_threads s !! t = Some (WFind epoch i nr) → wp (writer_find scratch t epoch i nr) (λ _, goes_onA) s.
Proof using I.
  intros Ht. pose proof (ti_pc _ _ _ _ I _ _ Ht) as (Hi & He & ->). unfold NROWS in Hi. destruct (proj2 (ti_dom _ _ _ _ I i)) as [v Hv]; [unfold NROWS; lia|].
  unfold writer_find. wp_use (wp_a_call _ _ (holds_find (ti_holds _ _ _ _ I) i scratch (-1) ltac:(unfold in64; lia) ltac:(lia))). rewrite Hv.
  intros [[rc out] b] s1 (c & -> & -> & Hrc & Hrow & _). cbn in Hrc, Hrow. rewrite decide_True by done. eapply wp_run; [apply modify_run|].
  eapply torn_quiet; try done. cbn. split; [split_and!; try done; unfold NROWS; lia|]. by exists v.
Qed.

Lemma writer_call_step epoch i nr out g : tn_threads s !! t = Some (WCall epoch i nr out g) → wp (writer_call scratch t epoch i nr out g) (λ _, goes_onA) s.
Proof using I Hbound.
  intros Ht. pose proof (ti_pc _ _ _ _ I _ _ Ht) as ((Hi & He & ->) & [v0 Hrow] & Hg). destruct (ti_rows _ _ _ _ I i Hi) as (w & Hw & Hw64).
  pose proof (ti_holds _ _ _ _ I) as H. assert (Hi64 : in64 i) by (unfold in64, NROWS in *; lia).
  assert (∃ v, table (tn_core s) !! out = Some (kmv_bytes (i, v)) ∧ m !! i = Some v) as (v & Hout & Hm).
  { destruct (holds_row H _ _ Hrow) as (k & v & Hk & E). destruct (hd_fit _ _ _ _ _ H _ _ Hk) as [Hk64 _].
    assert (i = k) as -> by (apply (f_equal (λ b, load64 b 0)) in E; by rewrite !lay_key in E). rewrite E in Hrow. eauto. }
  unfold writer_call, a_get. apply wp_bind. wp_step @get_run. rewrite Hw. eapply wp_run; [by apply unwrap_run|].
  wp_use (wp_a_call _ _ (holds_replace H out i v g (Rec2_bytes (mkRec2 i magic w)) epoch 0 scratch Hout Hg Hm (lay_key i w Hi64) ltac:(unfold in64; lia))).
  intros [rc ek] s1 (c & -> & Hrc & H1 & Et & Ett & Eg). cbn in Hrc. subst rc. apply wp_bind. eapply wp_run; [reflexivity|]. eapply wp_run; [apply modify_run|].
  eapply (torn_step_inv (WStore epoch i (mkRec2 i magic epoch)) _ (<[i := epoch]> m)); try done; try apply I.
  - intros k. destruct (decide (k = i)) as [->|]; [|by rewrite lookup_insert_ne]. rewrite lookup_insert_eq, Hm. split; by eexists.
  - intros k x [[<- <-]|[_ Hx]]%lookup_insert_Some; [lia|]. pose proof (ti_val _ _ _ _ I k x Hx). lia.
  - cbn. split_and!; [done|done|]. intros o k x Hk Ho. rewrite Et. destruct (decide (o = out)) as [->|]; [|rewrite lookup_insert_ne by done; eauto].
    rewrite lookup_insert_eq. rewrite Hout in Ho. apply (inj Some) in Ho as E. apply (f_equal (λ b, load64 b 0)) in E. rewrite !lay_key in E by done. subst k. eauto.
  - cbn. split_and!; (done || lia).
Qed.

Lemma writer_store_step epoch i nr : tn_threads s !! t = Some (WStore epoch i nr) → wp (writer_store t epoch i nr) (λ _, goes_onA) s.
Proof using I Hbound.
  intros Ht. pose proof (ti_pc _ _ _ _ I _ _ Ht) as (Hi & He & ->). unfold writer_store. wp_step @modify_run. wp_step @modify_run. eapply wp_run; [apply modify_run|].
  eapply (torn_step_inv (WTop epoch) _ m); try done; try apply I.
  - intros k v Hv. pose proof (ti_val _ _ _ _ I k v Hv). lia.
  - intros j Hj. cbn. destruct (decide (j = i)) as [->|]; [|rewrite lookup_insert_ne by done; by apply I].
    exists epoch. rewrite lookup_insert_eq. split; [done|]. unfold in64. lia.
  - apply same_slots_refl.
  - cbn. lia.
Qed.

Lemma reader_scan_step pos buf : tn_threads s !! t = Some (RScan pos buf) → wp (reader_scan t pos buf) (λ _, goes_onA) s.
Proof using I Hbound.
  intros Ht. pose proof (ti_pc _ _ _ _ I _ _ Ht) as Hp. cbn in Hp. pose proof (ti_holds _ _ _ _ I) as H. pose proof (hd_wf _ _ _ _ _ H) as Hwf.
  destruct (scan_next_run ∅ (tn_core s) Hwf pos buf Hp) as (rc & pos' & buf' & Hrun & Hp' & Hcase). unfold reader_scan.
  assert (Hs : a_core (tn_core s) s = s) by by destruct s. apply wp_bind. eapply wp_run; [unfold a_call; by rewrite Hrun, Hs|]. cbv beta.
  destruct Hcase as [(-> & _ & Hrow & _)|(-> & _)]; cbn [decide]; [|eapply wp_run; [apply modify_run|]; by eapply torn_quiet].
  rewrite <-table_lookup in Hrow by apply Hwf. destruct (holds_row H _ _ Hrow) as (k & v & Hk & ->). destruct (hd_fit _ _ _ _ _ H _ _ Hk) as [Hk64 Hv64].
  pose proof (ti_val _ _ _ _ I k v Hk). destruct (row_looks_good k v Hk64 ltac:(lia) Hv64) as [-> ->]. cbn [negb]. wp_step @modify_run.
  eapply wp_run; [apply modify_run|]. eapply torn_quiet; try done. cbn. lia.
Qed.

(** Every step returns, reports nothing and keeps the invariant. *)
Lemma torn_step_ok c p : tn_threads s !! t = Some p → c mod NROWS ≠ 0 → wp (torn_step scratch t c) (λ _, goes_onA) s.
Proof using I Hbound.
  intros Ht Hc. unfold torn_step. wp_step @get_run. rewrite Ht. wp_step @unwrap_run; [done|]. pose proof (ti_pc _ _ _ _ I _ _ Ht) as Hp.
  destruct p as [e|e i nr|e i nr out|e i nr out g|e i nr| |pos buf|].
  - by apply writer_top_step.
  - by apply writer_find_step.
  - destruct Hp as [Hf [v Hv]]. destruct (holds_gen (ti_holds _ _ _ _ I) _ _ Hv) as [g Hg]. pose proof Hg as Hg2. unfold gen_at in Hg. apply fmap_Some in Hg as (sl & Hsl & ->).
    assert (Hs : a_core (tn_core s) s = s) by by destruct s. apply wp_bind. eapply wp_run; [unfold a_call; by rewrite (deref_slot_run _ _ _ Hsl), Hs|]. cbv beta.
    eapply wp_run; [apply modify_run|]. eapply torn_quiet; try done. split_and!; [|by exists v|done]. destruct Hf as (? & ? & ?). split_and!; (done || lia).
  - by apply writer_call_step.
  - by apply writer_store_step.
  - destruct (tn_stop s); (eapply wp_run; [apply modify_run|]; eapply torn_quiet; try done). cbn. pose proof (total_bound _ (wf_static _ _ (hd_wf _ _ _ _ _ (ti_holds _ _ _ _ I)))). lia.
  - by apply reader_scan_step.
  - apply wp_ret. exists m. constructor; try apply I.
    + intros k v Hv. pose proof (ti_val _ _ _ _ I k v Hv). lia.
    + intros t2 p2 H2. eapply tpc_ok_kept; [|apply same_slots_refl|by eapply I]. lia.
Qed.
End steps.

Lemma torn_stop_inv fr bound s m : torn_inv fr bound s m → torn_inv fr (bound + 1) (a_stop s) m.
Proof.
  intros I. constructor; try apply I.
  - intros k v Hv. pose proof (ti_val _ _ _ _ I k v Hv). lia.
  - intros t p H. eapply tpc_ok_kept; [|apply same_slots_refl|by eapply I]. lia.
Qed.

(** The events of a run: the threads of the test, and no draw of row 0. *)
Definition event_ok (e : event) : Prop := match e with Go t c => (t < 6)%nat ∧ c mod NROWS ≠ 0 | Stop => True end.

Lemma torn_run_ok fr scratch evs : ∀ bound s m, Forall event_ok evs → torn_inv fr bound s m → bound + Z.of_nat (length evs) < 2 ^ 63 →
  wp (torn_run scratch evs) (λ _ s', ∃ m', torn_inv fr (bound + Z.of_nat (length evs)) s' m') s.
Proof.
  induction evs as [|e evs IH]; intros bound s m He I Hl; [apply wp_ret; exists m; by rewrite Z.add_0_r|]. apply Forall_cons in He as [He Hes]. cbn [length] in *.
  replace (bound + Z.of_nat (S (length evs))) with (bound + 1 + Z.of_nat (length evs)) by lia. destruct e as [t c|].
  - destruct He as [Ht Hc]. destruct (ti_crew _ _ _ _ I t Ht) as [p Hp]. cbn [torn_run].
    wp_use (torn_step_ok fr bound t s m I ltac:(lia) scratch c p Hp Hc). intros _ s1 [m1 I1]. apply (IH (bound + 1) s1 m1); [done|done|lia].
  - cbn [torn_run]. wp_step @modify_run. apply (IH (bound + 1) _ m); [done|by apply torn_stop_inv|lia].
Qed.

Lemma re_verify_ok fr bound s m fuel : ∀ pos buf, torn_inv fr bound s m → 0 ≤ pos ≤ total_slots (tn_core s) → (Z.to_nat (total_slots (tn_core s) - pos) < fuel)%nat →
  bound < 2 ^ 63 → re_verify fuel pos buf s = Ret (tt, s).
Proof.
  induction fuel as [|fuel IH]; intros pos buf I Hp Hf Hb; [lia|]. cbn [re_verify]. pose proof (ti_holds _ _ _ _ I) as H. pose proof (hd_wf _ _ _ _ _ H) as Hwf.
  destruct (scan_next_run ∅ (tn_core s) Hwf pos buf Hp) as (rc & pos' & buf' & Hrun & Hp' & Hcase).
  assert (Hs : a_core (tn_core s) s = s) by by destruct s. unfold mbind, M_bind, a_call. rewrite Hrun, Hs.
  destruct Hcase as [(-> & Hlt & Hrow & _)|(-> & _)]; cbn [decide]; [|done]. rewrite decide_True by done.
  rewrite <-table_lookup in Hrow by apply Hwf. destruct (holds_row H _ _ Hrow) as (k & v & Hk & ->). destruct (hd_fit _ _ _ _ _ H _ _ Hk) as [Hk64 Hv64].
  pose proof (ti_val _ _ _ _ I k v Hk). destruct (row_looks_good k v Hk64 ltac:(lia) Hv64) as [-> _]. apply IH; [done|lia|lia|done].
Qed.

Lemma torn_end_ok fr bound scratch s m : torn_inv fr bound s m → bound < 2 ^ 63 →
  wp (torn_end scratch) (λ _ s', tn_failures s' = 0 ∧ live (heap (tn_core s')) = fr) s.
Proof.
  intros I Hb. pose proof (ti_holds _ _ _ _ I) as H. pose proof (hd_wf _ _ _ _ _ H) as Hwf. pose proof (total_bound _ (wf_static _ _ Hwf)). unfold torn_end. wp_step @get_run.
  rewrite slot_count_total by apply Hwf. wp_step (re_verify_ok fr bound s m); [done|lia|lia|done|].
  eapply wp_mono; [apply wp_a_call, (free_holds _ _ _ _ _ H)|]. intros _ s' (c & -> & Hl). split; [apply I|done].
Qed.

(** ** The start *)

Lemma started_facts s : started s = true → tn_failures s = 0 ∧ tn_threads s = crew_A ∧
  ∀ i, 0 ≤ i < NROWS → tn_rows s !! i = Some (mkRec2 (if decide (i = 0) then 43 else i) magic 0).
Proof.
  unfold started. rewrite !andb_true_iff, !bool_decide_eq_true, forallb_forall. intros [[[Hf _] Ht] Hr]. split_and!; [done..|].
  intros i Hi. specialize (Hr i). rewrite bool_decide_eq_true in Hr. apply Hr, list_elem_of_In, elem_of_seqZ. lia.
Qed.

Lemma torn_init_table alloc st s : (∀ c sz, alloc c sz = true) → fresh (heap (tn_core st)) → torn_init alloc st = Ret (tt, s) →
  holdsA (live (heap (tn_core st))) (tn_core s) (zeros (Z.to_nat NROWS) 0 ∅).
Proof.
  intros Ha Hfr Hrun. unfold torn_init in Hrun. apply bind_inv in Hrun as ([] & s1 & H1 & Hrows).
  destruct (init_holds_in sizeof_Rec2 kmv_bytes alloc 1 (Z.shiftl 1 20) (tn_core st) Ha Hfr) as ([] & c & Hc & H); [lia|done|].
  unfold a_call in H1. rewrite Hc in H1. injection H1 as <-.
  apply (torn_rows_table (live (heap (tn_core st))) (Z.to_nat NROWS) 0 ∅ _ s Hrows H); [intros; apply lookup_empty|done|done|by rewrite map_size_empty].
Qed.

(** The first six threads are the writers and readers at the tops of their loops. *)
Lemma crew_A_ok : (∀ t, (t < 6)%nat → is_Some (crew_A !! t)) ∧ ∀ t p, crew_A !! t = Some p → p = WTop 0 ∨ p = RTop.
Proof.
  split.
  - intros t Ht. do 6 (destruct t as [|t]; [by eexists|]). lia.
  - intros t p. unfold crew_A. rewrite !lookup_insert_Some, lookup_singleton_Some. naive_solver.
Qed.

Lemma torn_inv_start fr s : holdsA fr (tn_core s) (zeros (Z.to_nat NROWS) 0 ∅) → started s = true → torn_inv fr 0 s (zeros (Z.to_nat NROWS) 0 ∅).
Proof.
  intros H (Hf & Ht & Hr)%started_facts. destruct crew_A_ok as [Hc Hp]. constructor; try done.
  - intros k. rewrite zeros_lookup, lookup_empty, Z2Nat.id by done. case_decide; (split; [|done || (intros; by eexists)]); [done|by intros [? ?]].
  - intros k v. rewrite zeros_lookup, lookup_empty. case_decide; [by intros [= <-]|done].
  - intros i Hi. exists 0. rewrite Hr, decide_False by lia. done.
  - by rewrite Ht.
  - intros t p. rewrite Ht. by intros [-> | ->]%Hp.
Qed.

Lemma init_cases o : started_by o = true → ∃ s, o = Ret (tt, s) ∧ started s = true.
Proof. destruct o as [[[] s]| |]; [by exists s|done|done]. Qed.

Lemma torn_init_ok : wp (torn_init (λ _ _, true)) (λ _ s, torn_inv ∅ 0 s (zeros (Z.to_nat NROWS) 0 ∅)) torn_start.
Proof.
  destruct (init_cases _ torn_init_started) as (s & Hrun & Hs). exists tt, s. split; [exact Hrun|]. apply torn_inv_start; [|exact Hs].
  exact (torn_init_table (λ _ _, true) torn_start s (λ _ _, eq_refl) (λ p (H : p ∈ (∅ : gset nat)), match not_elem_of_empty p H with end) Hrun).
Qed.

(** * Properties *)

(** C19: Test A of the standalone test passes in any run in which no writer draws row 0: four
    writers and two readers interleave in any order between the calls of the core and the accesses
    to the shared array, with any random numbers, and [stop] is set at any time; every step returns,
    no check fails, and at the end the serial scan finds every magic number and all memory is
    returned. *)
Theorem torn_read_passes scratch evs : Forall event_ok evs → Z.of_nat (length evs) < 2 ^ 63 →
  wp (torn_init (λ _ _, true);; torn_run scratch evs;; torn_end scratch) (λ _ s, tn_failures s = 0 ∧ live (heap (tn_core s)) = ∅) torn_start.
Proof.
  intros He Hl. wp_use torn_init_ok. intros _ s1 I1. wp_use (torn_run_ok ∅ scratch evs 0 s1 _ He I1 Hl). intros _ s2 [m I2].
  by apply (torn_end_ok ∅ (0 + Z.of_nat (length evs)) scratch s2 m).
Qed.

(** ** What a reader can notice *)

(** A record put together from bytes of several images. *)
Definition mixed (imgs : list bytes) (buf : bytes) : Prop := ∀ j : nat, (j < 24)%nat → ∃ img, img ∈ imgs ∧ buf !! j = img !! j.
(** The images that the test writes. *)
Definition test_image (img : bytes) : Prop := ∃ k v, img = kmv_bytes (k, v) ∧ 0 ≤ v < 2 ^ 63.

Lemma mixed_byte imgs buf off i : (∀ img, img ∈ imgs → test_image img) → mixed imgs buf → 0 ≤ off + i < 24 →
  ∃ k v, 0 ≤ v < 2 ^ 63 ∧ byte_at buf (off + i) = byte_at (kmv_bytes (k, v)) (off + i).
Proof.
  intros Hi Hm Hr. destruct (Hm (Z.to_nat (off + i))) as (img & Hin & E); [lia|]. destruct (Hi img Hin) as (k & v & -> & Hv). exists k, v.
  split; [done|]. unfold byte_at. by rewrite E.
Qed.

Lemma magic_byte k v i : 0 ≤ i < 8 → byte_at (kmv_bytes (k, v)) (8 + i) = u8 (Z.shiftr magic (8 * i)).
Proof. apply (byte_at_digits magic 8 (store64 k) (store64 v)). done. Qed.
Lemma value_byte k v i : 0 ≤ i < 8 → byte_at (kmv_bytes (k, v)) (16 + i) = u8 (Z.shiftr v (8 * i)).
Proof.
  intros Hi. pose proof (byte_at_digits v 16 (store64 k ++ store64 magic) [] i eq_refl Hi) as E. rewrite app_nil_r, <-app_assoc in E. exact E.
Qed.

Lemma u8_u8 x : u8 (u8 x) = u8 x.
Proof. apply Z.mod_mod. done. Qed.

(** C21: Test A cannot notice a torn read: any record put together byte by byte from images that the
    test writes passes the checks of its readers, since the magic number is the same in all images
    and the bytes of values that are not negative make up a value that is not negative. *)
Theorem torn_read_blind imgs buf : (∀ img, img ∈ imgs → test_image img) → mixed imgs buf → magic_ok buf = true ∧ value_ok buf = true.
Proof.
  intros Hi Hm. split.
  - assert (E : load64 buf 8 = load64 (kmv_bytes (0, 0)) 8).
    { unfold load64. do 2 f_equal. unfold bytes64. apply list_fmap_ext. intros j i [-> Hj]%lookup_seqZ.
      destruct (mixed_byte imgs buf 8 (0 + Z.of_nat j) Hi Hm) as (k & v & _ & ->); [lia|]. by rewrite !magic_byte by lia. }
    unfold magic_ok, Rec2_at. cbn [r2_magic]. rewrite E. vm_compute. reflexivity.
  - apply bool_decide_true. unfold Rec2_at. cbn [r2_v]. unfold load64.
    assert (B : ∀ j, 0 ≤ u8 (byte_at buf (16 + j)) < 256) by (intros; apply u8_byte).
    assert (B7 : u8 (byte_at buf (16 + 7)) < 128).
    { destruct (mixed_byte imgs buf 16 7 Hi Hm) as (k & v & Hv & ->); [lia|]. rewrite value_byte, u8_u8 by lia. unfold u8. rewrite Z.shiftr_div_pow2 by lia.
      rewrite Z.mod_small; [apply Z.div_lt_upper_bound; lia|]. split; [apply Z.div_pos; lia|apply Z.div_lt_upper_bound; lia]. }
    unfold bytes64. change (seqZ 0 8) with [0;1;2;3;4;5;6;7]. cbn [fmap list_fmap word foldr].
    pose proof (B 0); pose proof (B 1); pose proof (B 2); pose proof (B 3); pose proof (B 4); pose proof (B 5); pose proof (B 6); pose proof (B 7).
    rewrite i64_small; lia.
Qed.
