(* ===== verification/TornCorrupt.v ===== *)
(** Test A of the standalone test (src/standalone-test/main.cpp, [test_torn_read]) in all its runs, those
    in which a writer draws row 0 included: the writer then gives row 0 the key of row 43, in any
    interleaving, and no check of the test notices.  The share leaves its invariant - the chains do not
    agree with the rows any more -, so these proofs only use that the arrays and chains are still those
    from the start and that the slots are settled. *)

From S2P Require Import Prelude CoreState CoreOps RowOps Shape Inv Chains Reads Alloc Freelist Steps Insert Delete Lockset Update Clear Lifecycle Spec Hash Standalone TornRead.

(** * Row 0 *)

(** The key that [rows[i]] has: [rows[0]] has been the scratch buffer of the inserts. *)
Definition array_key (i : Z) : Z := if decide (i = 0) then 43 else i.
(** The key of the row in slot [i], before ([b = false]) and after a writer has stored row 0. *)
Definition slot_key (b : bool) (i : Z) : Z := if b then array_key i else i.

Definition row_key (c : FM_SHARE_CORE) (i : Z) : option Z := (λ b, load64 b 0) <$> row_at c i.

(** Slots 0 and 43 have rows with the same key, and a lookup of key 0 does not find a row. *)
Definition corrupt (c : FM_SHARE_CORE) : Prop :=
  row_key c 0 = Some 43 ∧ row_key c 43 = Some 43 ∧
  ∀ buf out, ∃ buf', fm_core_find 0 (store64 0) buf out c = Ret ((FM_ERR_NOT_FOUND, out, buf'), c).

(** * The share *)

(** [images c0 b bound c]: [c] is [c0] but for the images and sequence words of its slots. *)
Record images (c0 : FM_SHARE_CORE) (b : bool) (bound : Z) (c : FM_SHARE_CORE) : Prop := {
  im_erase : erase c = erase c0;
  im_next k i : fm_key_next c k i = fm_key_next c0 k i;
  im_head k n : head_at c k n = head_at c0 k n;
  im_lock k n : lock_at c k n = lock_at c0 k n;
  im_gen i : gen_at c i = gen_at c0 i;
  im_slot i sl : fm_slot c i = Some sl → slot_ok c sl ∧ wlock sl = 0;
  im_row i : 0 ≤ i < NROWS → ∃ v, row_at c i = Some (kmv_bytes (slot_key b i, v)) ∧ 0 ≤ v ≤ bound;
  im_none i : ¬ 0 ≤ i < NROWS → row_at c i = None
}.

Lemma images_bound c0 b n m c : n ≤ m → images c0 b n c → images c0 b m c.
Proof. intros Hn []. constructor; try done. intros i Hi. destruct (im_row0 i Hi) as (v & ? & ?). exists v. split; [done|lia]. Qed.

Lemma slot_key_range b i : 0 ≤ i < NROWS → 0 ≤ slot_key b i < NROWS ∧ in64 (slot_key b i).
Proof. unfold slot_key, array_key, in64, NROWS. intros Hi. destruct b; [case_decide; lia|lia]. Qed.

Lemma hash_kmv k v : in64 k → hash_of hk0_ops (kmv_bytes (k, v)) = fnv (store64 k).
Proof. intros Hk. change (fnv (store64 (load64 (kmv_bytes (k, v)) 0)) = fnv (store64 k)). by rewrite lay_key. Qed.

Lemma matches_kmv k v i : in64 k → in64 i → matches_key hk0_ops (kmv_bytes (k, v)) (store64 i) ↔ k = i.
Proof.
  intros Hk Hi. change (hk0_cmp_rec_key (kmv_bytes (k, v)) (store64 i) = 0 ↔ k = i). by rewrite hk0_cmp_key, lay_key, load_pk.
Qed.

Lemma hash_pk i : in64 i → key_hash_of hk0_ops (store64 i) = fnv (store64 i).
Proof. intros Hi. change (fnv (bytes64 (store64 i) 0) = fnv (store64 i)). by rewrite <-store_load64, load_pk. Qed.

Lemma row_in64 i : 0 ≤ i < NROWS → in64 i.
Proof. unfold in64, NROWS. lia. Qed.

Section share.
Context (c0 : FM_SHARE_CORE) (Hwf : wf ∅ c0) (Hlen : reclength c0 = sizeof_Rec2) (Hkeys : keys c0 = 1).
Context (Hcfg : key_cfg c0 0 = Some (hk0_ops, true, 64)) (Hstart : images c0 false 0 c0).
Context (b : bool) (bound : Z) (c : FM_SHARE_CORE) (I : images c0 b bound c) (Hbound : bound < 2 ^ 63).
#[local] Set Default Proof Using "Type*".

Lemma images_static : static_ok c.
Proof using Hwf I. eapply static_ok_erase; [apply I|apply Hwf]. Qed.

Lemma images_total : total_slots c = total_slots c0.
Proof using I. apply total_slots_erase, I. Qed.

Lemma images_slots i sl : fm_slot c i = Some sl → slot_ok c sl.
Proof using I. intros Hsl. by apply (im_slot _ _ _ _ I i sl). Qed.

(** The rows of bucket [n] at the start. *)
Lemma start_indexed n j : indexed c0 0 n j → 0 ≤ j < NROWS ∧ n = Z.land (fnv (store64 j)) 63.
Proof using Hcfg Hstart.
  intros (rec & Hr & Hb). destruct (decide (0 ≤ j < NROWS)) as [Hj|Hj]; [|by rewrite (im_none _ _ _ _ Hstart) in Hr].
  destruct (im_row _ _ _ _ Hstart j Hj) as (v & Hr' & _). rewrite Hr in Hr'. injection Hr' as ->. split; [done|].
  rewrite <-Hb. unfold bucket_of. rewrite Hcfg, hash_kmv; [done|by apply row_in64].
Qed.

Lemma matches_slot i j : 0 ≤ i < NROWS → row_matches c hk0_ops (store64 i) j ↔ 0 ≤ j < NROWS ∧ slot_key b j = i.
Proof using I.
  intros Hi. unfold row_matches. destruct (decide (0 ≤ j < NROWS)) as [Hj|Hj]; [|rewrite (im_none _ _ _ _ I) by done; tauto].
  destruct (im_row _ _ _ _ I j Hj) as (v & -> & _). rewrite matches_kmv; [naive_solver|by apply slot_key_range|by apply row_in64].
Qed.

(** A lookup of key [i] finds slot [i], unless row 0 has another key by now. *)
Lemma find_slot i buf out : 0 ≤ i < NROWS → ∃ buf', fm_core_find 0 (store64 i) buf out c =
  Ret (if decide (i = 0 ∧ b = true) then (FM_ERR_NOT_FOUND, out, buf') else (FM_ERR_OK, i, buf'), c).
Proof using Hwf Hkeys Hcfg Hstart I.
  intros Hi. pose proof images_static as Hs. pose proof (im_erase _ _ _ _ I) as E.
  assert (Hk : 0 ≤ 0 < keys c) by (rewrite (erase_keys _ _ E); lia).
  destruct (key_at_is_Some c 0 Hs Hk) as (kc & n & Hkc & _ & _ & Hlaws). pose proof (key_cfg_key_at _ _ _ Hkc) as Hc.
  rewrite (key_cfg_erase _ _ E), Hcfg in Hc. injection Hc as Ho _ Hnb. set (bkt := key_bucket kc (store64 i)).
  assert (Hbkt : bkt = Z.land (fnv (store64 i)) 63).
  { unfold bkt, key_bucket, fm_bucket. rewrite <-Ho, <-Hnb, hash_pk; [done|by apply row_in64]. }
  assert (Hrange : 0 ≤ bkt < 64) by (rewrite Hbkt; change 63 with (2 ^ 6 - 1); rewrite land_pow2_mask by lia; apply Z.mod_pos_bound; lia).
  destruct (so_key _ (wf_static _ _ Hwf) 0 ltac:(lia)) as (o' & u' & m & Hc' & _ & _ & Hb). rewrite Hcfg in Hc'. injection Hc' as _ _ Em.
  destruct (Hb bkt ltac:(rewrite <-Em; lia)) as [[h Hh] [w Hw]].
  destruct (key_rep_walk _ _ _ _ _ (wf_static _ _ Hwf) (wf_keys _ _ Hwf 0 ltac:(lia)) (λ b i, indexed_range c0 0 b i (wf_static _ _ Hwf)) Hh)
    as (l & Hl & _ & Hin & Hf).
  destruct (fm_core_find_settled c Hs images_slots 0 kc (store64 i) buf out l Hlaws Hkc) as (buf' & Hrun & _).
  - rewrite (im_lock _ _ _ _ I). destruct (wf_locks _ _ Hwf) as (_ & Hz & _). fold bkt. rewrite Hw. f_equal. by eapply Hz.
  - exists h. rewrite (im_head _ _ _ _ I). split; [done|]. eapply linked_ext; [|exact Hl]. intros j _. apply (im_next _ _ _ _ I).
  - intros j Hj%Hin. rewrite images_total. by eapply indexed_range, Hj; apply Hwf.
  - assert (Hw' : walk_fuel c = walk_fuel c0) by (unfold walk_fuel; rewrite !slot_count_total, images_total by (done || apply Hwf); reflexivity).
    by rewrite Hw'.
  - exists buf'. rewrite Hrun. f_equal. f_equal. rewrite <-Ho. clear Hrun.
    assert (Hsame : slot_key b i = i → i ∈ l ∧ row_matches c hk0_ops (store64 i) i).
    { intros Hki. split; [|by apply matches_slot]. apply Hin. destruct (im_row _ _ _ _ Hstart i Hi) as (v & Hr & _). eexists. split; [exact Hr|].
      unfold bucket_of. rewrite Hcfg, Hbkt, hash_kmv; [done|by apply row_in64]. }
    assert (Hone : ∀ j, j ∈ l → row_matches c hk0_ops (store64 i) j → j = i ∧ slot_key b i = i).
    { intros j [Hj Ej]%Hin%start_indexed [_ Hm]%matches_slot; [|done]. unfold slot_key, array_key in *. destruct b; [|by rewrite Hm].
      case_decide as H0; [|subst; by rewrite decide_False]. subst. rewrite Hbkt in Ej. vm_compute in Ej. done. }
    destruct (list_find _ l) as [[j x]|] eqn:Hfind.
    + apply list_find_Some in Hfind as (Hx & Hm & _). destruct (Hone x (list_elem_of_lookup_2 _ _ _ Hx) Hm) as [-> Hki].
      rewrite decide_False; [done|]. intros [-> ->]. by vm_compute in Hki.
    + rewrite decide_True; [done|]. apply dec_stable. intros Hn. destruct Hsame as [Hil Hm].
      { unfold slot_key, array_key. destruct b; [|done]. rewrite decide_False; [done|]. intros ->. exact (Hn (conj eq_refl eq_refl)). }
      apply list_find_None in Hfind. rewrite Forall_forall in Hfind. by eapply Hfind.
Qed.

(** The rows look good to a reader. *)
Lemma rows_look_good i rec : row_at c i = Some rec → magic_ok rec = true ∧ value_ok rec = true.
Proof using I Hbound.
  intros Hr. destruct (decide (0 ≤ i < NROWS)) as [Hi|Hi]; [|by rewrite (im_none _ _ _ _ I) in Hr].
  destruct (im_row _ _ _ _ I i Hi) as (v & Hr' & Hv). rewrite Hr in Hr'. injection Hr' as ->.
  apply row_looks_good; [by apply slot_key_range|lia|unfold in64; lia].
Qed.

(** Freeing returns everything. *)
Lemma free_images : wp fm_core_free_share (λ _ c', live (heap c') = foreign c0) c.
Proof using Hwf I.
  pose proof (im_erase _ _ _ _ I) as E.
  destruct (free_share_run c (static_ok_fit _ images_static) (heap_ok_erase _ _ E (wf_heap _ _ Hwf))) as (c' & Hrun & Hl & _).
  eapply wp_run; [done|]. rewrite Hl. exact (foreign_erase _ _ E).
Qed.

Lemma images_corrupt : b = true → corrupt c.
Proof using Hwf Hkeys Hcfg Hstart I.
  intros Hb. assert (Hk : ∀ i, 0 ≤ i < NROWS → row_key c i = Some (array_key i)).
  { intros i Hi. unfold row_key. destruct (im_row _ _ _ _ I i Hi) as (v & -> & _). cbn. rewrite lay_key by by apply slot_key_range. by rewrite Hb. }
  split; [by apply Hk|]. split; [by apply Hk|]. intros buf out. destruct (find_slot 0 buf out) as (buf' & Hrun); [done|].
  rewrite decide_True in Hrun by done. by exists buf'.
Qed.

Lemma corrupt_images : corrupt c → b = true.
Proof using I.
  intros [H0 _]. destruct b eqn:E; [done|]. unfold row_key in H0. destruct (im_row _ _ _ _ I 0) as (v & Hr & _); [done|].
  rewrite Hr in H0. cbn in H0. rewrite lay_key in H0 by done. discriminate H0.
Qed.
End share.

(** Writing the image of row [i] that a writer has taken from the array. *)
Lemma images_write c0 b bound c i e g old errkey scratch : wf ∅ c0 → reclength c0 = sizeof_Rec2 → keys c0 = 1 →
  key_cfg c0 0 = Some (hk0_ops, true, 64) → images c0 b bound c → 0 ≤ i < NROWS → 0 ≤ e ≤ bound → gen_at c0 i = Some g →
  load64 old 0 = array_key i → let b' := b || bool_decide (i = 0) in ∃ c',
  fm_core_update_row i g old (kmv_bytes (array_key i, e)) errkey scratch c = Ret ((FM_ERR_OK, errkey), c') ∧ images c0 b' bound c'.
Proof.
  intros Hwf Hlen Hkeys Hcfg I Hi He Hg Hold b'. pose proof (images_static c0 Hwf b bound c I) as Hs. pose proof (im_erase _ _ _ _ I) as E.
  assert (Hl : Z.of_nat (length (kmv_bytes (array_key i, e))) = reclength c) by (rewrite (erase_reclength _ _ E), Hlen; apply lay_length).
  destruct (im_row _ _ _ _ I i Hi) as (v & Hr & _). pose proof Hr as (sl & Hsl & Ha & _)%row_at_Some.
  destruct (im_slot _ _ _ _ I i sl Hsl) as [Hok Hw]. rewrite <-(im_gen _ _ _ _ I) in Hg. unfold gen_at in Hg. rewrite Hsl in Hg. injection Hg as Hg.
  eexists. split.
  - apply (update_row_fast c i sl); [done|done|done| |done|].
    + unfold slot_current. by rewrite !bool_decide_true.
    + intros k Hk. rewrite (erase_keys _ _ E), Hkeys in Hk. replace k with 0 by lia. unfold changed_key. rewrite (key_cfg_erase _ _ E), Hcfg.
      intros Hc. apply Hc. change (hk0_cmp_rec_rec old (kmv_bytes (array_key i, e)) = 0). rewrite hk0_cmp, Hold, lay_key; [done|].
      by apply (slot_key_range true).
  - assert (Hrow : ∀ j, row_at (upd_slot (write_slot (kmv_bytes (array_key i, e))) i c) j =
      if decide (j = i) then Some (kmv_bytes (array_key i, e)) else row_at c j).
    { intros j. unfold row_at. rewrite fm_slot_upd. destruct (decide (j = i)) as [->|Hj]; [|by rewrite decide_False].
      rewrite decide_True, Hsl by done. cbn. unfold Inv.row_of. cbn. by rewrite decide_True. }
    constructor; intros; fm_frame; try apply I.
    + rewrite <-(im_gen _ _ _ _ I). unfold gen_at. rewrite fm_slot_upd. case_decide; [|done].
      destruct (fm_slot c i0); reflexivity.
    + rewrite fm_slot_upd in H. case_decide as Hj; [|destruct (im_slot _ _ _ _ I _ _ H) as [[] ?]; by split; [constructor|]].
      subst. rewrite Hsl in H. injection H as <-. split; [|exact Hw]. destruct Hok as [Hq1 Hq2 Hq3 _].
      constructor; [by apply write_slot_seq|exact Hq2|exact Hq3|intros _; exact Hl].
    + rewrite Hrow. destruct (decide (i0 = i)) as [->|Hj].
      * exists e. split; [|done]. unfold b', slot_key, array_key. destruct (decide (i = 0)) as [->|Hi0]; [by rewrite orb_true_r|].
        by destruct (b || _).
      * destruct (im_row _ _ _ _ I i0 H) as (w & Hr' & Hw'). exists w. split; [|done]. rewrite Hr'. do 3 f_equal. unfold b', slot_key, array_key.
        case_bool_decide as Hi0; [|by rewrite orb_false_r]. rewrite orb_true_r, decide_False by congruence. by destruct b.
    + rewrite Hrow, decide_False by (intros ->; done). by apply I.
Qed.

(** * The test *)

(** What a writer at [epoch] is about to store in row [i]. *)
Definition taken_row (bound epoch i : Z) (nr : Rec2) : Prop := 0 ≤ i < NROWS ∧ 0 ≤ epoch ≤ bound ∧ nr = mkRec2 (array_key i) magic epoch.

Definition place_ok (c0 : FM_SHARE_CORE) (b : bool) (bound : Z) (p : tpc) : Prop :=
  match p with
  | WTop epoch => 0 ≤ epoch ≤ bound
  | WFind epoch i nr => taken_row bound epoch i nr
  | WGen epoch i nr out => taken_row bound epoch i nr ∧ out = i
  | WCall epoch i nr out g => taken_row bound epoch i nr ∧ out = i ∧ gen_at c0 i = Some g
  | WStore epoch i nr => taken_row bound epoch i nr ∧ (i = 0 → b = true)
  | RTop | TDone => True
  | RScan pos buf => 0 ≤ pos ≤ total_slots c0
  end.

Record run_inv (c0 : FM_SHARE_CORE) (b : bool) (bound : Z) (s : torn) : Prop := {
  rn_core : images c0 b bound (tn_core s);
  rn_rows i : 0 ≤ i < NROWS → ∃ v, tn_rows s !! i = Some (mkRec2 (array_key i) magic v) ∧ in64 v;
  rn_fail : tn_failures s = 0;
  rn_crew t : (t < 6)%nat → is_Some (tn_threads s !! t);
  rn_pc t p : tn_threads s !! t = Some p → place_ok c0 b bound p
}.

(** Later, a thread is where it was. *)
Lemma place_later c0 b b' n m p : (b = true → b' = true) → n ≤ m → place_ok c0 b n p → place_ok c0 b' m p.
Proof.
  intros Hb Hn. assert (Ht : ∀ e i nr, taken_row n e i nr → taken_row m e i nr) by (intros e i nr (? & ? & ?); split_and!; (done || lia)).
  destruct p; cbn; try done; [lia|apply Ht|intros [? ?]; split; [by apply Ht|done]|intros (? & ? & ?); split_and!; [by apply Ht|done|done]|].
  intros [? H0]. split; [by apply Ht|]. auto.
Qed.

(** How a writer gets on. *)
Definition gets_on (s : torn) (b : bool) (c : Z) (p q : tpc) : Prop :=
  match p with
  | WTop epoch => tn_stop s = true ∨ ∃ nr, q = WFind (epoch + 1) (c mod NROWS) nr
  | WFind epoch i nr => (i = 0 ∧ b = true) ∨ q = WGen epoch i nr i
  | WGen epoch i nr out => ∃ g, q = WCall epoch i nr out g
  | WCall epoch i nr out g => q = WStore epoch i nr
  | _ => True
  end.

Lemma core_same s : a_core (tn_core s) s = s.
Proof. by destruct s. Qed.

Section run.
Context (c0 : FM_SHARE_CORE) (Hwf : wf ∅ c0) (Hlen : reclength c0 = sizeof_Rec2) (Hkeys : keys c0 = 1).
Context (Hcfg : key_cfg c0 0 = Some (hk0_ops, true, 64)) (Hstart : images c0 false 0 c0).
Context (b : bool) (bound : Z) (t : nat) (s : torn) (I : run_inv c0 b bound s) (Hbound : bound + 1 < 2 ^ 63) (scratch : bytes).

(** The step of thread [t] from [p] with the random number [c]. *)
Definition stepped (c : Z) (p : tpc) (s' : torn) : Prop :=
  ∃ b' q, (b = true → b' = true) ∧ run_inv c0 b' (bound + 1) s' ∧ tn_threads s' !! t = Some q ∧ gets_on s b c p q.

(** It goes to [q], with the share and the array as they were, or as they have become. *)
Lemma stepped_to c p q b' s' : tn_threads s' = <[t := q]> (tn_threads s) → (b = true → b' = true) → images c0 b' (bound + 1) (tn_core s') →
  (∀ i, 0 ≤ i < NROWS → ∃ v, tn_rows s' !! i = Some (mkRec2 (array_key i) magic v) ∧ in64 v) → tn_failures s' = tn_failures s →
  place_ok c0 b' (bound + 1) q → gets_on s b c p q → stepped c p s'.
Proof using I.
  intros Et Hb Hc Hr Hf Hq Hg. exists b', q. split; [done|]. split; [|split; [rewrite Et; apply lookup_insert_eq|done]]. constructor; try done.
  - rewrite Hf. apply I.
  - intros t2 H2. rewrite Et, lookup_insert_is_Some. destruct (decide (t = t2)); [by left|right; split; [done|by apply I]].
  - intros t2 p2. rewrite Et. intros [[<- <-]|[_ H2]]%lookup_insert_Some; [done|]. eapply place_later; [exact Hb| |by eapply I]. lia.
Qed.

Lemma stepped_quiet c p q s' : tn_threads s' = <[t := q]> (tn_threads s) → tn_core s' = tn_core s → tn_rows s' = tn_rows s →
  tn_failures s' = tn_failures s → place_ok c0 b (bound + 1) q → gets_on s b c p q → stepped c p s'.
Proof using I.
  intros Et Ec Er Ef Hq Hg. eapply (stepped_to c p q b s'); try done; rewrite ?Ec, ?Er; [|apply I]. eapply images_bound; [|apply I]. lia.
Qed.

Lemma top_stepped epoch c : tn_threads s !! t = Some (WTop epoch) → wp (writer_top t epoch c) (λ _, stepped c (WTop epoch)) s.
Proof using I.
  intros Ht. pose proof (rn_pc _ _ _ _ I _ _ Ht) as He. cbn in He. unfold writer_top. wp_step @get_run. destruct (tn_stop s) eqn:Es.
  { eapply wp_run; [apply modify_run|]. eapply stepped_quiet; try done. by left. }
  cbv zeta. pose proof (Z.mod_pos_bound c NROWS ltac:(done)) as Hi. destruct (rn_rows _ _ _ _ I (c mod NROWS) Hi) as (v & Hr & _).
  unfold a_get. apply wp_bind. wp_step @get_run. rewrite Hr. eapply wp_run; [by apply unwrap_run|]. eapply wp_run; [apply modify_run|].
  eapply stepped_quiet; try done; [|right; by eexists]. cbn. split_and!; try done; lia.
Qed.

Lemma find_stepped epoch i nr c : tn_threads s !! t = Some (WFind epoch i nr) → wp (writer_find scratch t epoch i nr) (λ _, stepped c (WFind epoch i nr)) s.
Proof using I Hwf Hlen Hkeys Hcfg Hstart.
  intros Ht. pose proof (rn_pc _ _ _ _ I _ _ Ht) as Hp. cbn in Hp. pose proof Hp as (Hi & He & Hnr).
  destruct (find_slot c0 Hwf Hkeys Hcfg Hstart b bound _ (rn_core _ _ _ _ I) i scratch (-1) Hi) as (buf & Hrun).
  unfold writer_find. apply wp_bind. eapply wp_run; [unfold a_call; by rewrite Hrun, core_same|]. cbv beta. case_decide as Hd.
  - wp_step @modify_run. eapply wp_run; [apply modify_run|]. eapply stepped_quiet; try done; [cbn; lia|by left].
  - cbn [decide]. eapply wp_run; [apply modify_run|]. eapply stepped_quiet; try done; [|by right].
    split; [|done]. split_and!; (done || lia).
Qed.

Lemma gen_stepped epoch i nr out c : tn_threads s !! t = Some (WGen epoch i nr out) →
  wp (sl ← a_call (deref_slot out); modify (a_pc t (WCall epoch i nr out (gen sl)))) (λ _, stepped c (WGen epoch i nr out)) s.
Proof using I.
  intros Ht. pose proof (rn_pc _ _ _ _ I _ _ Ht) as Hp. cbn in Hp. destruct Hp as [(Hi & He & Hnr) ->].
  destruct (im_row _ _ _ _ (rn_core _ _ _ _ I) i Hi) as (v & (sl & Hsl & _)%row_at_Some & _).
  apply wp_bind. eapply wp_run; [unfold a_call; by rewrite (deref_slot_run _ _ _ Hsl), core_same|]. cbv beta. eapply wp_run; [apply modify_run|].
  eapply stepped_quiet; try done; [|by eexists]. split; [split_and!; (done || lia)|]. split; [done|].
  rewrite <-(im_gen _ _ _ _ (rn_core _ _ _ _ I)). unfold gen_at. by rewrite Hsl.
Qed.

Lemma call_stepped epoch i nr out g c : tn_threads s !! t = Some (WCall epoch i nr out g) →
  wp (writer_call scratch t epoch i nr out g) (λ _, stepped c (WCall epoch i nr out g)) s.
Proof using I Hwf Hlen Hkeys Hcfg Hbound.
  intros Ht. pose proof (rn_pc _ _ _ _ I _ _ Ht) as Hp. cbn in Hp. destruct Hp as ((Hi & He & ->) & -> & Hg).
  destruct (rn_rows _ _ _ _ I i Hi) as (w & Hw & Hw64).
  destruct (images_write c0 b bound (tn_core s) i epoch g (Rec2_bytes (mkRec2 (array_key i) magic w)) 0 scratch Hwf Hlen Hkeys Hcfg (rn_core _ _ _ _ I) Hi He Hg)
    as (c1 & Hrun & I1).
  { apply (lay_key (enc := kmv_bytes)). by apply (slot_key_range true). }
  unfold writer_call, a_get. apply wp_bind. wp_step @get_run. rewrite Hw. eapply wp_run; [by apply unwrap_run|].
  unfold kmv_bytes in Hrun. cbn [fst snd] in Hrun. apply wp_bind. eapply wp_run; [unfold a_call; by rewrite Hrun|]. cbv beta iota.
  apply wp_bind. eapply wp_run; [reflexivity|]. eapply wp_run; [apply modify_run|].
  eapply (stepped_to c _ (WStore epoch i (mkRec2 (array_key i) magic epoch)) (b || bool_decide (i = 0))); try done.
  - by intros ->.
  - eapply images_bound; [|exact I1]. lia.
  - apply I.
  - split; [split_and!; (done || lia)|]. intros ->. apply orb_true_r.
Qed.

Lemma store_stepped epoch i nr c : tn_threads s !! t = Some (WStore epoch i nr) → wp (writer_store t epoch i nr) (λ _, stepped c (WStore epoch i nr)) s.
Proof using I Hbound.
  intros Ht. pose proof (rn_pc _ _ _ _ I _ _ Ht) as Hp. cbn in Hp. destruct Hp as [(Hi & He & ->) _].
  unfold writer_store. wp_step @modify_run. wp_step @modify_run. eapply wp_run; [apply modify_run|].
  eapply (stepped_to c _ (WTop epoch) b); try done.
  - eapply images_bound; [|apply I]. lia.
  - intros j Hj. cbn. destruct (decide (j = i)) as [->|]; [|rewrite lookup_insert_ne by done; by apply I].
    exists epoch. rewrite lookup_insert_eq. split; [done|]. unfold in64. lia.
  - cbn. lia.
Qed.

Lemma scan_stepped pos buf c : tn_threads s !! t = Some (RScan pos buf) → wp (reader_scan t pos buf) (λ _, stepped c (RScan pos buf)) s.
Proof using I Hwf Hbound.
  intros Ht. pose proof (rn_pc _ _ _ _ I _ _ Ht) as Hp. cbn in Hp. pose proof (rn_core _ _ _ _ I) as Ic. pose proof (images_total c0 b bound _ Ic) as Et.
  destruct (scan_next_settled (tn_core s) (images_static c0 Hwf b bound _ Ic) (images_slots c0 b bound _ Ic) pos buf) as (rc & pos' & buf' & Hrun & Hp' & Hcase); [by rewrite Et|].
  unfold reader_scan. apply wp_bind. eapply wp_run; [unfold a_call; by rewrite Hrun, core_same|]. cbv beta.
  destruct Hcase as [(-> & _ & Hrow & _)|(-> & _)]; cbn [decide]; [|eapply wp_run; [apply modify_run|]; by eapply stepped_quiet].
  destruct (rows_look_good c0 b bound _ Ic ltac:(lia) _ _ Hrow) as [-> ->]. cbn [negb]. wp_step @modify_run.
  eapply wp_run; [apply modify_run|]. eapply stepped_quiet; try done. cbn. lia.
Qed.

(** Every step returns, reports nothing and keeps the invariant. *)
Lemma step_stepped c p : tn_threads s !! t = Some p → wp (torn_step scratch t c) (λ _, stepped c p) s.
Proof using I Hwf Hlen Hkeys Hcfg Hstart Hbound.
  intros Ht. unfold torn_step. wp_step @get_run. rewrite Ht. wp_step @unwrap_run; [done|].
  destruct p as [e|e i nr|e i nr out|e i nr out g|e i nr| |pos buf|].
  - by apply top_stepped.
  - by apply find_stepped.
  - by apply gen_stepped.
  - by apply call_stepped.
  - by apply store_stepped.
  - destruct (tn_stop s); (eapply wp_run; [apply modify_run|]; eapply stepped_quiet; try done).
    cbn. pose proof (total_bound _ (wf_static _ _ Hwf)). lia.
  - by apply scan_stepped.
  - apply wp_ret. eapply (stepped_quiet c TDone TDone); try done. by rewrite insert_id.
Qed.
End run.

(** ** Runs *)

(** The events of a run: the threads of the test, with any random numbers. *)
Definition in_crew (e : event) : Prop := match e with Go t _ => (t < 6)%nat | Stop => True end.

Section runs.
Context (c0 : FM_SHARE_CORE) (Hwf : wf ∅ c0) (Hlen : reclength c0 = sizeof_Rec2) (Hkeys : keys c0 = 1).
Context (Hcfg : key_cfg c0 0 = Some (hk0_ops, true, 64)) (Hstart : images c0 false 0 c0) (scratch : bytes).
#[local] Set Default Proof Using "Type*".

Lemma run_stop b bound s : run_inv c0 b bound s → run_inv c0 b (bound + 1) (a_stop s).
Proof using Type.
  intros I. constructor; try apply I.
  - eapply images_bound; [|apply I]. lia.
  - intros t p H. eapply place_later; [done| |by eapply I]. lia.
Qed.

Lemma run_keeps evs : ∀ b bound s, Forall in_crew evs → run_inv c0 b bound s → bound + Z.of_nat (length evs) < 2 ^ 63 →
  wp (torn_run scratch evs) (λ _ s', ∃ b', (b = true → b' = true) ∧ run_inv c0 b' (bound + Z.of_nat (length evs)) s') s.
Proof.
  induction evs as [|e evs IH]; intros b bound s He I Hl; [apply wp_ret; exists b; by rewrite Z.add_0_r|]. apply Forall_cons in He as [He Hes]. cbn [length] in *.
  replace (bound + Z.of_nat (S (length evs))) with (bound + 1 + Z.of_nat (length evs)) by lia. destruct e as [t c|]; cbn [torn_run].
  - destruct (rn_crew _ _ _ _ I t He) as [p Hp].
    wp_use (step_stepped c0 Hwf Hlen Hkeys Hcfg Hstart b bound t s I ltac:(lia) scratch c p Hp). intros _ s1 (b1 & q & Hb1 & I1 & _).
    eapply wp_mono; [apply (IH b1 (bound + 1) s1); [done|done|lia]|]. intros _ s2 (b2 & Hb2 & I2). exists b2. auto.
  - wp_step @modify_run. apply (IH b (bound + 1)); [done|by apply run_stop|lia].
Qed.

(** A writer that draws row 0 and gets on leaves the table corrupt. *)
Lemma run_draws b bound s t epoch c : run_inv c0 b bound s → bound + 4 < 2 ^ 63 → tn_threads s !! t = Some (WTop epoch) → tn_stop s = false →
  c mod NROWS = 0 → wp (torn_run scratch [Go t c; Go t 0; Go t 0; Go t 0]) (λ _ s', corrupt (tn_core s')) s.
Proof.
  intros I Hb Ht Hs Hc. cbn [torn_run].
  wp_use (step_stepped c0 Hwf Hlen Hkeys Hcfg Hstart b bound t s I ltac:(lia) scratch c _ Ht). intros _ s1 (b1 & q1 & Hb1 & I1 & H1 & [E|[nr ->]]); [congruence|].
  rewrite Hc in H1. wp_use (step_stepped c0 Hwf Hlen Hkeys Hcfg Hstart b1 _ t s1 I1 ltac:(lia) scratch 0 _ H1). intros _ s2 (b2 & q2 & Hb2 & I2 & H2 & Hg2).
  wp_use (step_stepped c0 Hwf Hlen Hkeys Hcfg Hstart b2 _ t s2 I2 ltac:(lia) scratch 0 _ H2). intros _ s3 (b3 & q3 & Hb3 & I3 & H3 & Hg3).
  wp_use (step_stepped c0 Hwf Hlen Hkeys Hcfg Hstart b3 _ t s3 I3 ltac:(lia) scratch 0 _ H3). intros _ s4 (b4 & q4 & Hb4 & I4 & H4 & Hg4).
  apply wp_ret. eapply images_corrupt; [exact Hwf|done|done|done|apply I4|]. destruct Hg2 as [[_ ->]| ->]; [auto|].
  destruct Hg3 as [g ->]. cbn in Hg4. subst q4. by apply (rn_pc _ _ _ _ I4 _ _ H4).
Qed.

Lemma verify_keeps b bound s fuel : ∀ pos buf, run_inv c0 b bound s → 0 ≤ pos ≤ total_slots c0 → (Z.to_nat (total_slots c0 - pos) < fuel)%nat →
  bound < 2 ^ 63 → re_verify fuel pos buf s = Ret (tt, s).
Proof.
  induction fuel as [|fuel IH]; intros pos buf I Hp Hf Hb; [lia|]. cbn [re_verify]. pose proof (rn_core _ _ _ _ I) as Ic. pose proof (images_total c0 b bound _ Ic) as Et.
  destruct (scan_next_settled (tn_core s) (images_static c0 Hwf b bound _ Ic) (images_slots c0 b bound _ Ic) pos buf) as (rc & pos' & buf' & Hrun & Hp' & Hcase); [by rewrite Et|].
  unfold mbind, M_bind, a_call. rewrite Hrun, core_same. rewrite Et in *.
  destruct Hcase as [(-> & Hlt & Hrow & _)|(-> & _)]; cbn [decide]; [|done]. rewrite decide_True by done.
  destruct (rows_look_good c0 b bound _ Ic Hb _ _ Hrow) as [-> _]. apply IH; [done|lia|lia|done].
Qed.

Lemma end_keeps b bound s : run_inv c0 b bound s → bound < 2 ^ 63 →
  wp (torn_end scratch) (λ _ s', tn_failures s' = 0 ∧ live (heap (tn_core s')) = foreign c0) s.
Proof.
  intros I Hb. pose proof (rn_core _ _ _ _ I) as Ic. pose proof (total_bound _ (wf_static _ _ Hwf)). unfold torn_end. wp_step @get_run.
  rewrite slot_count_total, (images_total c0 b bound _ Ic) by by apply (images_static c0 Hwf b bound).
  wp_step (verify_keeps b bound s); [done|lia|lia|done|].
  eapply wp_mono; [apply (wp_a_call s _ _ (free_images c0 Hwf b bound _ Ic))|]. intros _ s' (c & -> & Hl). split; [apply I|done].
Qed.
End runs.

(** ** The start *)

(** The rows after the inserts: key [i] in slot [i]. *)
Definition started_core (c : FM_SHARE_CORE) : bool :=
  bool_decide (total_slots c = 4096) &&
  forallb (λ i, bool_decide (row_at c i = if decide (i < NROWS) then Some (kmv_bytes (i, 0)) else None)) (seqZ 0 4096).

Definition started_core_by (o : outcome (() * torn)) : bool := match o with Ret (_, s) => started_core (tn_core s) | _ => false end.

Lemma torn_init_core : started_core_by (torn_init (λ _ _, true) torn_start) = true.
Proof. vm_compute. reflexivity. Qed.

Lemma started_core_rows c : static_ok c → started_core c = true → ∀ i, row_at c i = if decide (0 ≤ i < NROWS) then Some (kmv_bytes (i, 0)) else None.
Proof.
  intros Hs. unfold started_core. rewrite andb_true_iff, bool_decide_eq_true, forallb_forall. intros [Ht Hr] i.
  destruct (decide (0 ≤ i < 4096)) as [Hi|Hi].
  - specialize (Hr i). rewrite bool_decide_eq_true in Hr. rewrite Hr by (apply list_elem_of_In, elem_of_seqZ; lia).
    unfold NROWS. repeat case_decide; (done || lia).
  - rewrite row_at_out; [|done|lia]. rewrite decide_False; [done|]. unfold NROWS. lia.
Qed.

(** What the start of the test leaves. *)
Definition start_ok (s : torn) : Prop :=
  wf ∅ (tn_core s) ∧ reclength (tn_core s) = sizeof_Rec2 ∧ keys (tn_core s) = 1 ∧ key_cfg (tn_core s) 0 = Some (hk0_ops, true, 64) ∧
  foreign (tn_core s) = ∅ ∧ images (tn_core s) false 0 (tn_core s) ∧ run_inv (tn_core s) false 0 s.

Lemma start_holds s m : holdsA ∅ (tn_core s) m → started s = true → started_core (tn_core s) = true → start_ok s.
Proof.
  intros H Hs Hc. pose proof (hd_wf _ _ _ _ _ H) as Hwf. pose proof (started_core_rows _ (wf_static _ _ Hwf) Hc) as Hrow.
  assert (Him : images (tn_core s) false 0 (tn_core s)).
  { constructor; try done.
    - intros i sl Hsl. split; [by apply (wf_slots _ _ Hwf i)|]. destruct (wf_locks _ _ Hwf) as (_ & _ & Hw). by rewrite (Hw _ _ Hsl), decide_False by set_solver.
    - intros i Hi. exists 0. rewrite Hrow, decide_True by done. done.
    - intros i Hi. by rewrite Hrow, decide_False. }
  apply started_facts in Hs as (Hf & Ht & Hr). destruct crew_A_ok as [Hcr Hp].
  split; [done|]. split; [apply H|]. split; [apply H|]. split; [by apply (hd_cfg _ _ _ _ _ H)|]. split; [apply H|]. split; [done|].
  constructor; try done.
  - intros i Hi. exists 0. by rewrite Hr.
  - by rewrite Ht.
  - intros t p. rewrite Ht. by intros [-> | ->]%Hp.
Qed.

Lemma init_both o : started_by o = true → started_core_by o = true → ∃ s, o = Ret (tt, s) ∧ started s = true ∧ started_core (tn_core s) = true.
Proof. destruct o as [[[] s]| |]; [by exists s|done|done]. Qed.

Lemma torn_init_runs : wp (torn_init (λ _ _, true)) (λ _, start_ok) torn_start.
Proof.
  destruct (init_both _ torn_init_started torn_init_core) as (s & Hrun & Hs & Hc). exists tt, s. split; [exact Hrun|].
  exact (start_holds s _ (torn_init_table (λ _ _, true) torn_start s (λ _ _, eq_refl) (λ p (H : p ∈ (∅ : gset nat)), match not_elem_of_empty p H with end) Hrun) Hs Hc).
Qed.

(** * Properties *)

(** C20: Test A breaks its own table without noticing.  The inserts at the start use [rows[0]] as scratch
    buffer, which leaves the image of row 43 there.  In any run - four writers and two readers interleave
    in any order between the calls of the core and the accesses to the array, with any random numbers, and
    [stop] is set at any time - every step returns and no check fails, up to the final scan, after which all
    memory is returned.  But a writer that draws row 0 and makes its four steps leaves the table corrupt:
    slots 0 and 43 have rows with the unique key 43, and key 0 is not found any more; whenever a writer has
    just updated row 0 the table is corrupt, whatever the others did; and it stays so to the end. *)
Theorem torn_read_corrupts scratch pre post : Forall in_crew (pre ++ post) → Z.of_nat (length (pre ++ post)) + 4 < 2 ^ 63 →
  wp (torn_init (λ _ _, true);; torn_run scratch pre) (λ _ s1, tn_failures s1 = 0 ∧
    (∀ t epoch c, tn_threads s1 !! t = Some (WTop epoch) → tn_stop s1 = false → c mod NROWS = 0 →
       wp (torn_run scratch [Go t c; Go t 0; Go t 0; Go t 0]) (λ _ s2, corrupt (tn_core s2)) s1) ∧
    (∀ t epoch nr, tn_threads s1 !! t = Some (WStore epoch 0 nr) → corrupt (tn_core s1)) ∧
    (corrupt (tn_core s1) → wp (torn_run scratch post) (λ _ s2, corrupt (tn_core s2)) s1) ∧
    wp (torn_run scratch post;; torn_end scratch) (λ _ s3, tn_failures s3 = 0 ∧ live (heap (tn_core s3)) = ∅) s1) torn_start.
Proof.
  intros [Hpre Hpost]%Forall_app. rewrite length_app. intros Hl. wp_use torn_init_runs. intros _ s (Hwf & Hlen & Hk & Hcfg & Hfor & Him & I0). set (c0 := tn_core s) in *. clearbody c0. eapply wp_mono; [apply (run_keeps c0 Hwf Hlen Hk Hcfg Him scratch pre false 0 s Hpre I0); lia|].
  intros _ s1 (b & _ & I). rewrite Z.add_0_l in I. split; [apply I|].
  pose proof (run_keeps c0 Hwf Hlen Hk Hcfg Him scratch post b (Z.of_nat (length pre)) s1 Hpost I ltac:(lia)) as Hkeep. split_and!.
  - intros t epoch c Ht Hs Hc. by eapply (run_draws c0 Hwf Hlen Hk Hcfg Him scratch b); [exact I|lia|..].
  - intros t epoch nr Ht. eapply (images_corrupt c0 Hwf Hk Hcfg Him); [apply I|]. by apply (rn_pc _ _ _ _ I _ _ Ht).
  - intros Hcor. eapply wp_mono; [exact Hkeep|]. intros _ s2 (b2 & Hb2 & I2).
    eapply (images_corrupt c0 Hwf Hk Hcfg Him); [apply I2|]. eapply Hb2, corrupt_images; [apply I|done].
  - wp_use Hkeep. intros _ s2 (b2 & _ & I2). rewrite <-Hfor.
    eapply (end_keeps c0 Hwf Hlen Hk Hcfg Him scratch b2); [exact I2|lia].
Qed.
