(* ===== verification/Demo.v ===== *)
(** A small table, and each property at work on it: two keys over records of four bytes - the
    first two bytes unique, the last two not - through the callbacks of fm_hash.cc. *)

From Stdlib Require Import Sorted.
From S2P Require Import Prelude CoreState CoreOps Layout RowOps Shape Inv Chains Reads Alloc Freelist Steps Insert Delete Lockset Update Clear Lifecycle Spec Typed AutoInc Hash Data DataSpec Handler HandlerSpec.

(** * The server's side *)

(** A binary collation: equal strings compare equal, and the hash adds up the bytes. *)
Definition bin_add (h : my_hasher_st) (x : Z) : my_hasher_st := mkHasher (u64 (m_nr1 h * 31 + x)) (m_nr2 h).
Definition bin_charset : CHARSET_INFO :=
  mkCharset 1 (λ _ n, n) (λ h b, fold_left bin_add b h) (λ a b, if decide (a = b) then 0 else 1).
Definition hasher0 : my_hasher_st := mkHasher 1 4.
Definition rec_bits (_ : bytes) (_ _ : Z) : Z := 0.
Definition le16 (b : bytes) : Z := byte_at b 0 + byte_at b 1 * 256.

Definition word_seg (st : Z) : HA_KEYSEG := mkSeg (HA_KEYTYPE_OTHER 2) bin_charset st 2 0 0 0 0 0.
Definition kd_id : FM_KEYDEF := mkKeydef [word_seg 0] true false 2.
Definition kd_tag : FM_KEYDEF := mkKeydef [word_seg 2] false false 2.
Definition kds : list FM_KEYDEF := [kd_id; kd_tag].

Definition defs : Z → FM_KEY_OPS * bool := key_ops_of hasher0 bin_add rec_bits le16 kds.

Lemma bin_laws : CollationLaws bin_charset.
Proof.
  assert (He : ∀ a b, my_ci_strnncollsp bin_charset a b = 0 ↔ a = b) by (intros a b; simpl; by case_decide).
  split; [split|].
  - intros a. by apply He.
  - intros a b ->%He. by apply He.
  - intros a b c ->%He ->%He. by apply He.
  - by intros h a b ->%He.
Qed.

Lemma word_seg_ok st : 0 ≤ st → seg_ok (word_seg st).
Proof. intros H. split; [apply bin_laws|done|done|done]. Qed.

Lemma kd_id_ok : keydef_ok kd_id.
Proof. split; [|done]. constructor; [by apply word_seg_ok|constructor]. Qed.

Lemma kd_tag_ok : keydef_ok kd_tag.
Proof. split; [|done]. constructor; [by apply word_seg_ok|constructor]. Qed.

Lemma defs_lawful k : 0 ≤ k < 2 → KeyOpsLaws (defs k).1.
Proof.
  intros Hk. assert (k = 0 ∨ k = 1) as [-> | ->] by lia; [apply (fm_ops_laws _ _ _ _ kd_id), kd_id_ok|].
  apply (fm_ops_laws _ _ _ _ kd_tag), kd_tag_ok.
Qed.

(** * The share *)

(** Memory before the share is created: one block of somebody else is live. *)
Definition blank : FM_SHARE_CORE :=
  {| ops_alloc := λ _ _, true; heap := mkHeap 1 {[ 0%nat ]}; reclength := 0; slot_size := 0; keys := 0; max_records := 0;
     chunk_cap := 0; chunks := None; chunk_cnt := 0; free_head := FM_NULL_SLOT; records := 0; struct_mutex := 0;
     keydef := None; auto_inc := 0; auto_key := 0; auto_key_type := 0 |}.

Definition plenty (_ : nat) (_ : Z) : bool := true.
Definition s0 : FM_SHARE_CORE := created plenty defs 4 2 6 4 blank.

Lemma demo_init_ok : init_ok plenty defs 4 2 6 4 blank.
Proof.
  split; [lia|lia|lia|by exists 2|apply defs_lawful| |done|done]. intros p Hp. cbn in Hp |- *. apply elem_of_singleton in Hp as ->. lia.
Qed.

Lemma s0_run : (fm_core_init_share 4 2 6 4 plenty;; fm_key_ops_init defs) blank = Ret (tt, s0).
Proof. apply (init_spec _ _ _ _ _ _ _ demo_init_ok). Qed.

Lemma s0_wf : wf ∅ s0 ∧ table s0 = ∅ ∧ total_slots s0 = 0.
Proof. by destruct (init_spec _ _ _ _ _ _ _ demo_init_ok) as (_ & ? & ? & _ & ?). Qed.

(** * Runs *)

(** The state and the result of a run that returns. *)
Definition after {S A} (m : M S A) (s : S) : S := match m s with Ret (_, s') => s' | _ => s end.
Definition result {S A} (a : A) (m : M S A) (s : S) : A := match m s with Ret (x, _) => x | _ => a end.

Lemma run_of {S A} (a : A) (m : M S A) (Q : A → S → Prop) s : wp m Q s →
  m s = Ret (result a m s, after m s) ∧ Q (result a m s) (after m s).
Proof. intros (x & s' & H & HQ). unfold result, after. by rewrite H. Qed.

#[local] Opaque after result.

Definition r1 : bytes := [1; 0; 7; 7].
Definition r2 : bytes := [2; 0; 7; 7].

Definition insert_of (rec : bytes) : SM insert_result := fm_core_insert_row rec FM_NULL_SLOT 0 [].
Definition no_insert : insert_result := mkIns FM_ERR_NOMEM FM_NULL_SLOT 0.
Definition s1 : FM_SHARE_CORE := after (insert_of r1) s0.
Definition i1 : Z := ins_idx (result no_insert (insert_of r1) s0).
Definition g1 : Z := default 0 (gen_at s1 i1).

(** An insert with room, memory and no conflict succeeds. *)
Lemma insert_succeeds s rec : wf ∅ s → Z.of_nat (length rec) = reclength s → Z.of_nat (size (table s)) < max_records s →
  (∀ n size, ops_alloc s n size = true) → (∀ k, 0 ≤ k < keys s → ¬ conflict s k rec) →
  let r := result no_insert (insert_of rec) s in let s' := after (insert_of rec) s in
  insert_of rec s = Ret (r, s') ∧ ins_rc r = FM_ERR_OK ∧ wf ∅ s' ∧ same_config s s' ∧ 0 ≤ ins_idx r < total_slots s' ∧
  table s !! ins_idx r = None ∧ table s' = <[ins_idx r := rec]> (table s).
Proof.
  intros Hwf Hl Hsz Ha Hc. cbv zeta.
  destruct (run_of no_insert _ _ _ (insert_row_spec ∅ s rec FM_NULL_SLOT 0 [] Hwf (held_in_empty s) Hl)) as [Hrun [Hwf' C _ _ Hout]].
  fold (insert_of rec) in *. set (r := result _ _ _) in *. split; [done|]. unfold insert_outcome in Hout. destruct (ins_rc r); try done.
  - destruct Hout as (? & ? & ? & _). split_and!; try done; lia.
  - destruct Hout as (_ & _ & _ & k & Hk & Hx). by destruct (Hc k Hk).
  - destruct Hout as (_ & _ & _ & Hx). rewrite (wf_records _ _ Hwf) in Hx. lia.
  - destruct Hout as (_ & _ & _ & n & size & _ & Hx). by rewrite Ha in Hx.
Qed.

Lemma conflict_empty s k rec : static_ok s → table s = ∅ → ¬ conflict s k rec.
Proof. intros Hs Ht. rewrite conflict_table by done. intros (o & nb & i & r & _ & _ & Hx & _). by rewrite Ht in Hx. Qed.

Lemma s1_facts : insert_of r1 s0 = Ret (mkIns FM_ERR_OK i1 0, s1) ∧ wf ∅ s1 ∧ same_config s0 s1 ∧
  0 ≤ i1 < total_slots s1 ∧ table s1 = {[ i1 := r1 ]} ∧ gen_at s1 i1 = Some g1.
Proof.
  destruct s0_wf as (Hwf & Ht & _).
  destruct (run_of no_insert _ _ _ (insert_row_spec ∅ s0 r1 FM_NULL_SLOT 0 [] Hwf (held_in_empty s0) eq_refl)) as [_ [_ _ _ _ Hout]].
  destruct (insert_succeeds s0 r1 Hwf) as (Hrun & Hrc & Hwf1 & C & Hi & _ & Ht1);
    [done|by rewrite Ht|done|intros k _; apply conflict_empty; [apply Hwf|done]|].
  fold s1 i1 in *. unfold insert_outcome in Hout. fold (insert_of r1) in Hout. rewrite Hrc in Hout. destruct Hout as (_ & _ & _ & Hek & _).
  assert (Hg : is_Some (gen_at s1 i1)) by (apply gen_at_is_Some; [apply Hwf1|done]).
  assert (Hres : result no_insert (insert_of r1) s0 = mkIns FM_ERR_OK i1 0).
  { clear -Hrc Hek. unfold i1. revert Hrc Hek. generalize (result no_insert (insert_of r1) s0). intros [rc idx ek]. cbn. by intros -> ->. }
  rewrite Hres in Hrun. split; [exact Hrun|]. split; [exact Hwf1|]. split; [exact C|]. split; [exact Hi|].
  split; [rewrite Ht1, Ht; apply insert_empty|]. clear -Hg. unfold g1. by destruct Hg as [g ->].
Qed.

Lemma s0_config : reclength s0 = 4 ∧ keys s0 = 2 ∧ max_records s0 = 6 ∧ auto_key s0 = 0 ∧ auto_inc s0 = 0 ∧
  key_cfg s0 0 = Some (defs 0, 4) ∧ key_cfg s0 1 = Some (defs 1, 4) ∧ (∀ n size, ops_alloc s0 n size = true).
Proof. by split_and!. Qed.

Lemma insert_of_eq rec : insert_of rec = fm_core_insert_row rec FM_NULL_SLOT 0 [].
Proof. done. Qed.

Lemma r1_r2_differ : ¬ same_key (defs 0).1 r1 r2.
Proof. by vm_compute. Qed.

Lemma r1_r2_tag : same_key (defs 1).1 r1 r2.
Proof. done. Qed.

Lemma tag_not_unique : (defs 1).2 = false.
Proof. done. Qed.

#[local] Opaque s0 insert_of s1 i1 g1 fm_core_insert_row fm_core_update_row fm_core_update_row_locked fm_core_delete_row
  fm_core_delete_row_locked fm_core_clear fm_core_find fm_core_find_next fm_core_scan_next fm_core_read_row fm_core_dup_check
  fm_core_alloc_slot fm_core_free_share fm_core_init_share.

Lemma s1_wf : wf ∅ s1.
Proof. apply s1_facts. Qed.
Lemma s1_table : table s1 = {[ i1 := r1 ]}.
Proof. apply s1_facts. Qed.
Lemma s1_slot : 0 ≤ i1 < total_slots s1.
Proof. apply s1_facts. Qed.
Lemma s1_gen : gen_at s1 i1 = Some g1.
Proof. apply s1_facts. Qed.
Lemma s1_row : table s1 !! i1 = Some r1.
Proof. rewrite s1_table. apply lookup_singleton_eq. Qed.
Lemma s1_config : reclength s1 = 4 ∧ keys s1 = 2 ∧ max_records s1 = 6 ∧
  key_cfg s1 0 = Some (defs 0, 4) ∧ key_cfg s1 1 = Some (defs 1, 4).
Proof.
  destruct s1_facts as (_ & _ & C & _), s0_config as (H1 & H2 & H3 & _ & _ & H4 & H5 & _).
  rewrite (sc_reclength _ _ C), (sc_keys _ _ C), (sc_max _ _ C), !(sc_cfg _ _ C). by split_and!.
Qed.

(** The row is deleted again. *)
Definition s2 : FM_SHARE_CORE := after (fm_core_delete_row i1 g1) s1.

Lemma s2_facts : fm_core_delete_row i1 g1 s1 = Ret (FM_ERR_OK, s2) ∧ delete_post ∅ s1 i1 s2.
Proof.
  destruct (run_of FM_ERR_OK _ _ _ (delete_row_spec ∅ s1 i1 g1 s1_wf s1_slot (not_elem_of_empty _))) as [Hrun Hout].
  fold s2 in *. destruct Hout as [(Hrc & _ & _ & Hp)|(_ & Hn & _)]; [rewrite Hrc in Hrun; by split; [exact Hrun|exact Hp]|].
  exfalso. rewrite s1_row, s1_gen in Hn. destruct Hn as [Hn|Hn]; [discriminate Hn|by apply Hn].
Qed.

#[local] Opaque s2.

Lemma exec_insert : exec s0 [(CInsert r1, RSlot i1 g1)] s1.
Proof.
  destruct s1_facts as (Hrun & _ & _ & _ & _ & Hg). eapply exec_cons; [|shelve|constructor].
  - simpl. by destruct s0_config as (-> & _).
  Unshelve. cbn [run_cmd]. rewrite insert_of_eq in Hrun. rewrite (bind_Ret _ _ _ _ _ Hrun). cbn [ins_rc ins_idx].
  rewrite decide_True by done. by rewrite (bind_Ret _ _ _ _ _ (slot_gen_run _ _ _ Hg)).
Qed.

Lemma exec_delete : exec s1 [(CDelete i1 g1, RDone)] s2.
Proof.
  destruct s2_facts as [Hrun _]. eapply exec_cons; [|shelve|constructor].
  - apply s1_slot.
  Unshelve. cbn [run_cmd]. rewrite (bind_Ret _ _ _ _ _ Hrun). done.
Qed.

(** * Witnesses: the core *)

Lemma engine_refines_witness : spec_exec (config_of s0) (mkSpec ∅ ∅) [(CInsert r1, RSlot i1 g1)] (abs s1).
Proof. apply (engine_refines plenty defs 4 2 6 4 blank s0 _ s1 demo_init_ok s0_run exec_insert). Defined.

Lemma fields_fit_witness : fields_typed s1.
Proof.
  apply (fields_fit plenty defs 4 2 6 4 blank s0 _ s1 demo_init_ok ltac:(unfold is_u32; lia) s0_run exec_insert).
  constructor; [|constructor]. unfold cmd_typed, r1. repeat (constructor; [unfold is_u8; lia|]). constructor.
Defined.

Lemma insert_correct_witness : ∃ r s', fm_core_insert_row r1 FM_NULL_SLOT 0 [] s0 = Ret (r, s') ∧
  ins_rc r = FM_ERR_OK ∧ table s' = {[ ins_idx r := r1 ]}.
Proof.
  destruct s0_config as (H4 & H2 & H6 & _ & _ & _ & _ & Ha), s0_wf as (Hwf & Ht & _).
  destruct (insert_correct ∅ s0 r1 FM_NULL_SLOT 0 [] Hwf (held_in_empty s0) (eq_sym H4)) as (r & s' & Hrun & _ & _ & Hcase).
  exists r, s'. split; [exact Hrun|]. rewrite Ht in Hcase.
  destruct Hcase as [(? & _ & ? & _)|[(_ & _ & _ & k & _ & Hx)|[(_ & _ & _ & Hx)|(_ & _ & _ & n & sz & _ & Hx)]]].
  - by split.
  - destruct (conflict_empty s0 k r1 (wf_static _ _ Hwf) Ht Hx).
  - rewrite H6, map_size_empty in Hx. cbn in Hx. lia.
  - by rewrite Ha in Hx.
Defined.

(** The first key tells the two records apart; the second does not, and is not unique: a table
    that holds the first record takes the second. *)
Lemma r2_fits s i k : static_ok s → keys s = 2 → key_cfg s 0 = Some (defs 0, 4) → key_cfg s 1 = Some (defs 1, 4) →
  table s = {[ i := r1 ]} → 0 ≤ k < keys s → ¬ conflict s k r2.
Proof.
  intros Hs H2 Hk0 Hk1 Ht Hk. pose proof r1_r2_differ as Hd. pose proof tag_not_unique as Hu. revert Hd Hu Hk0 Hk1.
  generalize (defs 0), (defs 1). intros [o u] [o1 u1] Hd Hu Hk0 Hk1. cbn [fst snd] in *.
  rewrite conflict_table by done. intros (o' & nb & j & r & Hc & _ & Hr & Hsame). rewrite H2 in Hk.
  assert (k = 0 ∨ k = 1) as [-> | ->] by lia.
  - rewrite Hk0 in Hc. injection Hc as <- _ _. rewrite Ht in Hr. apply lookup_singleton_Some in Hr as [_ <-]. exact (Hd Hsame).
  - rewrite Hk1 in Hc. injection Hc as _ Hx _. congruence.
Qed.

Lemma r1_r2_changed : changed_key s1 r1 r2 0.
Proof.
  destruct s1_config as (_ & _ & _ & Hk0 & _). pose proof r1_r2_differ as Hd. unfold changed_key. rewrite Hk0.
  revert Hd. by destruct (defs 0) as [o u].
Qed.

Lemma r1_r2_keys : changed_keys s1 r1 r2 = [0].
Proof.
  destruct s1_config as (_ & Hk & _ & Hk0 & Hk1). unfold changed_keys. rewrite Hk. change (seqZ 0 2) with [0; 1].
  rewrite filter_cons_True, filter_cons_False, filter_nil; [done| |apply r1_r2_changed].
  unfold changed_key. rewrite Hk1. pose proof r1_r2_tag as Ht. revert Ht. destruct (defs 1) as [o u]. cbn [fst]. tauto.
Qed.

Lemma update_correct_witness : ∃ r s', fm_core_update_row i1 g1 r1 r2 0 [] s1 = Ret (r, s') ∧ wf ∅ s' ∧
  r.1 = FM_ERR_OK ∧ table s' = {[ i1 := r2 ]}.
Proof.
  destruct s1_config as (H4 & H2 & _ & Hc).
  destruct (update_correct ∅ s1 i1 g1 r1 r2 0 [] s1_wf (not_elem_of_empty _) s1_slot (eq_sym H4)) as (r & s' & Hrun & Hwf & _ & Hcase).
  { intros r Hr _. rewrite s1_row in Hr. congruence. }
  exists r, s'. split; [exact Hrun|]. split; [exact Hwf|]. destruct Hcase as [(? & _ & _ & Ht)|[(_ & _ & k & _ & Hk & _ & Hx)|(_ & _ & Hx)]].
  - split; [assumption|]. rewrite Ht, s1_table. apply insert_singleton_eq.
  - exfalso. destruct Hc as (Hk0 & Hk1). exact (r2_fits s1 i1 k (wf_static _ _ s1_wf) H2 Hk0 Hk1 s1_table Hk Hx).
  - exfalso. rewrite s1_row, s1_gen in Hx. destruct Hx as [Hx|Hx]; [discriminate Hx|by apply Hx].
Defined.

Lemma delete_correct_witness : ∃ s', fm_core_delete_row i1 g1 s1 = Ret (FM_ERR_OK, s') ∧ wf ∅ s' ∧ table s' = ∅ ∧
  gen_at s' i1 = Some (u32 (g1 + 1)).
Proof.
  destruct (delete_correct ∅ s1 i1 g1 s1_wf s1_slot (not_elem_of_empty _)) as (rc & s' & Hrun & Hwf & Hcase).
  exists s'. destruct Hcase as [(-> & _ & _ & Ht & Hg)|(_ & Hx & _)].
  - split; [exact Hrun|]. split; [exact Hwf|]. split; [rewrite Ht, s1_table; apply delete_singleton_eq|]. rewrite Hg. rewrite decide_True by reflexivity. reflexivity.
  - exfalso. rewrite s1_row, s1_gen in Hx. destruct Hx as [Hx|Hx]; [discriminate Hx|by apply Hx].
Defined.

Lemma stale_position_rejected_witness : (∃ s', run_cmd (CRead i1 g1) s2 = Ret (RErr FM_ERR_DELETED, s')) ∧
  (∃ s', run_cmd (CDelete i1 g1) s2 = Ret (RErr FM_ERR_DELETED, s')) ∧
  ∃ s', run_cmd (CUpdate i1 g1 r1 r1) s2 = Ret (RErr FM_ERR_DELETED, s').
Proof.
  destruct s2_facts as [_ P]. destruct s1_config as (H4 & _).
  destruct (stale_position_rejected (config_of s1) s1 [(CDelete i1 g1, RDone)] s2 i1 g1 s1_wf (config_of_conf s1) exec_delete s1_gen
    ltac:(cbn; rewrite bool_decide_eq_true_2 by done; lia) ltac:(cbn; rewrite bool_decide_eq_true_2 by done; lia))
    as ((r & s' & Hr & -> & _) & (rd & sd & Hd & -> & _) & Hu).
  split; [exists s'; exact Hr|]. split; [exists sd; exact Hd|].
  assert (Hl : Z.of_nat (length r1) = reclength s2) by (by rewrite (sc_reclength _ _ (dp_config _ _ _ _ P)), H4).
  destruct (Hu r1 r1 Hl Hl) as (ru & su & Hur & [[-> _]|(_ & _ & k & o & j & r' & _ & _ & _ & _ & Ht & _)]); [exists su; exact Hur|].
  exfalso. rewrite (dp_table _ _ _ _ P), s1_table, delete_singleton_eq in Ht. discriminate Ht.
Defined.

Lemma lifecycle_no_leak_witness : ∃ s', fm_core_free_share s1 = Ret (tt, s') ∧ live (heap s') = {[ 0%nat ]}.
Proof.
  destruct (lifecycle_no_leak plenty defs 4 2 6 4 blank s0 _ s1 demo_init_ok s0_run exec_insert) as ([] & s' & Hrun & Hl & _).
  exists s'. split; [exact Hrun|exact Hl].
Defined.

Lemma clear_correct_witness : ∃ s', fm_core_clear s1 = Ret (tt, s') ∧ wf ∅ s' ∧ table s1 !! i1 = Some r1 ∧ table s' = ∅.
Proof.
  destruct (clear_correct s1 s1_wf) as ([] & s' & Hrun & Hwf & Ht & _). exists s'.
  split; [exact Hrun|]. split; [exact Hwf|]. split; [exact s1_row|exact Ht].
Defined.

Lemma match_tag : matches_key (defs 1).1 r1 [7; 7].
Proof. reflexivity. Qed.
Lemma match_id : matches_key (defs 0).1 r1 [1; 0].
Proof. reflexivity. Qed.

Lemma s1_keys k : k = 0 ∨ k = 1 → 0 ≤ k < keys s1 ∧ key_cfg s1 k = Some ((defs k).1, (defs k).2, 4).
Proof.
  destruct s1_config as (_ & -> & _ & H0 & H1). intros [-> | ->]; (split; [lia|]).
  - rewrite H0. by destruct (defs 0).
  - rewrite H1. by destruct (defs 1).
Qed.

Lemma find_all_correct_witness : ∃ l, find_all (walk_fuel s1) 1 [7; 7] [] s1 = Ret (l, s1) ∧ i1 ∈ l ∧ NoDup l.
Proof.
  destruct (s1_keys 1 (or_intror eq_refl)) as [Hk Hc].
  destruct (find_all_correct ∅ s1 1 [7; 7] [] _ _ _ s1_wf Hk Hc) as (l & s' & Hrun & -> & Hnd & Hin).
  exists l. split; [exact Hrun|]. split; [|exact Hnd]. apply Hin. exists r1. split; [exact s1_row|exact match_tag].
Defined.

Lemma find_correct_witness : ∃ idx, fm_core_find 0 [1; 0] [] FM_NULL_SLOT s1 = Ret ((FM_ERR_OK, idx, r1), s1).
Proof.
  destruct (s1_keys 0 (or_introl eq_refl)) as [Hk Hc].
  destruct (find_correct ∅ s1 0 [1; 0] [] FM_NULL_SLOT _ _ _ s1_wf Hk Hc) as ([[rc idx] rec] & s' & Hrun & -> & Hcase).
  exists idx. destruct Hcase as [(-> & Ht & _)|(_ & _ & Hn)].
  - rewrite s1_table in Ht. apply lookup_singleton_Some in Ht as [_ <-]. exact Hrun.
  - destruct (Hn i1 r1 s1_row match_id).
Defined.

Lemma scan_correct_witness : ∃ rows, scan_all (S (Z.to_nat (fm_core_slot_count s1))) 0 [] s1 = Ret (rows, s1) ∧ (i1, r1) ∈ rows.
Proof.
  destruct (scan_correct ∅ s1 [] s1_wf) as (rows & s' & Hrun & -> & _ & Hin). exists rows. split; [exact Hrun|]. apply Hin, s1_row.
Defined.

Lemma read_row_correct_witness : fm_core_read_row i1 true g1 [] s1 = Ret ((FM_ERR_OK, r1), s1).
Proof.
  destruct (read_row_correct ∅ s1 i1 true g1 [] s1_wf s1_slot) as ([rc rec] & s' & Hrun & -> & Hcase).
  destruct Hcase as [(Hrc & Ht & _)|(_ & [Hx|[_ Hx]])].
  - cbn [fst snd] in Hrc, Ht. rewrite s1_row in Ht. injection Ht as <-. rewrite Hrc in Hrun. exact Hrun.
  - exfalso. rewrite s1_row in Hx. discriminate Hx.
  - exfalso. apply Hx, s1_gen.
Defined.

Lemma dup_check_correct_witness : fm_core_dup_check 0 (bucket_of s1 0 r1) r1 [] s1 = Ret (FM_ERR_DUP_KEY, s1).
Proof.
  destruct (s1_keys 0 (or_introl eq_refl)) as [Hk Hc].
  destruct (dup_check_correct ∅ s1 0 r1 [] s1_wf Hk) as (rc & s' & Hrun & -> & [[-> _]|[_ Hn]]); [exact Hrun|].
  exfalso. apply Hn. apply conflict_table; [apply s1_wf|]. exists (defs 0).1, 4, i1, r1.
  split; [exact Hc|]. split; [vm_compute; tauto|]. split; [exact s1_row|reflexivity].
Defined.

Lemma init_correct_witness : ∃ s', (fm_core_init_share 4 2 6 4 plenty;; fm_key_ops_init defs) blank = Ret (tt, s') ∧
  wf ∅ s' ∧ max_records s' = 6 ∧ keys s' = 2.
Proof.
  destruct (init_correct plenty defs 4 2 6 4 blank demo_init_ok) as ([] & s' & Hrun & Hwf & _ & _ & _ & Hk & Hm & _).
  exists s'. split; [exact Hrun|]. split; [exact Hwf|]. split; [exact Hm|exact Hk].
Defined.

Lemma alloc_slot_correct_witness : ∃ idx s', fm_core_alloc_slot s1 = Ret (idx, s') ∧ static_ok s' ∧ foreign s' = foreign s1.
Proof.
  destruct (alloc_slot_correct s1 (wf_static _ _ s1_wf) (wf_heap _ _ s1_wf) (wf_free _ _ s1_wf)) as (idx & s' & Hrun & Hs & _ & Hf & _).
  exists idx, s'. split; [exact Hrun|]. split; [exact Hs|exact Hf].
Defined.

Lemma slots_disjoint_witness : let s := init_fields plenty 4 2 6 blank in
  slot_size s = 24 ∧ fm_slot_offset s 1 = 24 ∧ fm_slot_offset s 2 = 48 ∧
  fm_slot_offset s 1 + FM_SLOT_DATA_OFFSET + 4 ≤ fm_slot_offset s 2.
Proof.
  cbv zeta. split; [reflexivity|]. split; [reflexivity|]. split; [reflexivity|].
  destruct (slots_disjoint plenty 4 2 6 blank 1 2 ltac:(lia) ltac:(lia)) as (_ & _ & _ & [H|H]); [done|exact H|].
  exfalso. apply H. reflexivity.
Defined.

Lemma lockset_correct_witness : ∃ ls, build_lockset [0] r1 r2 [] s1 = Ret (ls, s1) ∧ Z.of_nat (length ls) ≤ 128 ∧
  StronglySorted code_le (sort_lockset ls).
Proof.
  destruct (lockset_correct ∅ s1 r1 r2 s1_wf) as (changed & ls & Hc & Hb & Hl & _ & Hs & _).
  exists ls. assert (changed = [0]) as ->; [|split; [exact Hb|split; [exact Hl|exact Hs]]].
  rewrite (collect_run ∅ s1 s1_wf r1 r2) in Hc. rewrite <-r1_r2_keys. symmetry.
  exact (f_equal (λ o, match o with Ret (x, _) => x | _ => [] end) Hc).
Defined.

(** The share while a handler holds the lock of the row. *)
Definition s1_locked : FM_SHARE_CORE := upd_slot (sl_with_wlock 1) i1 s1.

Lemma s1_locked_facts : wf {[ i1 ]} s1_locked ∧ same_rows s1 s1_locked.
Proof.
  apply (wf_wlock ∅ {[ i1 ]} 1 i1 s1 s1_wf). generalize i1. intros i j. destruct (decide (j = i)) as [->|Hj].
  - by rewrite decide_True by set_solver.
  - by rewrite !decide_False by set_solver.
Qed.

#[local] Opaque s1_locked.

Lemma s1_locked_row : table s1_locked !! i1 = Some r1 ∧ gen_at s1_locked i1 = Some g1 ∧ 0 ≤ i1 < total_slots s1_locked ∧
  reclength s1_locked = 4.
Proof.
  destruct s1_locked_facts as [_ R]. rewrite (sr_table _ _ R), (sr_gen _ _ R), (sr_total _ _ R), (sc_reclength _ _ (sr_config _ _ R)).
  split; [exact s1_row|]. split; [exact s1_gen|]. split; [exact s1_slot|]. apply s1_config.
Qed.

Lemma update_locked_correct_witness : ∃ r s', fm_core_update_row_locked i1 g1 r1 r1 0 [] s1_locked = Ret (r, s') ∧ wf {[ i1 ]} s'.
Proof.
  destruct s1_locked_facts as [Hwf _], s1_locked_row as (Hr & _ & Hs & H4).
  destruct (update_locked_correct {[ i1 ]} s1_locked i1 g1 r1 r1 0 [] Hwf Hs (eq_sym H4)) as (r & s' & Hrun & Hwf' & _).
  { intros r Hr' _. congruence. }
  exists r, s'. split; [exact Hrun|exact Hwf'].
Defined.

Lemma delete_locked_correct_witness : ∃ s', fm_core_delete_row_locked i1 g1 s1_locked = Ret (FM_ERR_OK, s') ∧ wf {[ i1 ]} s' ∧
  table s' = ∅.
Proof.
  destruct s1_locked_facts as [Hwf R], s1_locked_row as (Hr & Hg & Hs & _).
  destruct (delete_locked_correct {[ i1 ]} s1_locked i1 g1 Hwf Hs) as (rc & s' & Hrun & Hwf' & [(-> & _ & _ & Ht & _)|(_ & Hx & _)]).
  - exists s'. split; [exact Hrun|]. split; [exact Hwf'|]. rewrite Ht, (sr_table _ _ R), s1_table. apply delete_singleton_eq.
  - exfalso. rewrite Hr, Hg in Hx. destruct Hx as [Hx|Hx]; [discriminate Hx|by apply Hx].
Defined.

(** * Witnesses: auto increment *)

Lemma req_demo : req_ok 3 10 5.
Proof. unfold req_ok, is_u64. lia. Qed.

Lemma reserve_correct_witness : ∃ s', fm_core_auto_inc_reserve 3 10 5 (with_auto_inc 8 blank) = Ret ((13, Some 5), s') ∧ auto_inc s' = 53.
Proof.
  assert (Hc : is_u64 (auto_inc (with_auto_inc 8 blank))) by (unfold is_u64; cbn; lia).
  destruct (reserve_correct (with_auto_inc 8 blank) 3 10 5 Hc req_demo) as ([v n] & s' & Hrun & _).
  exists s'. vm_compute in Hrun. injection Hrun as <- <- <-. split; [reflexivity|]. reflexivity.
Defined.

Lemma reserve_room_witness : ∃ r s', fm_get_auto_increment 1 1 10 (with_auto_inc 41 blank) = Ret (r, s') ∧ 41 < r.1 ∧ r.2 = 10.
Proof.
  destruct (reserve_room (with_auto_inc 41 blank) 1 1 10) as (r & s' & Hrun & [Hv _] & Hn & _);
    [unfold is_u64; cbn; lia..|vm_compute; reflexivity|].
  exists r, s'. split; [exact Hrun|]. split; [exact Hv|exact Hn].
Defined.

(** Two threads load the counter; the first takes its interval, the second has to retry. *)
Definition race_end : race := mkRace 20 ∅ [(11, 1, 10); (1, 1, 10)].

Lemma race_demo : rtc race_step (mkRace 0 ∅ []) race_end.
Proof.
  assert (Hq : req_ok 1 1 10) by (unfold req_ok, is_u64; lia).
  eapply rtc_l; [apply (race_load _ 1%nat 1 1 10 Hq)|]. eapply rtc_l; [apply (race_load _ 2%nat 1 1 10 Hq)|].
  eapply rtc_l; [eapply (race_exchange _ 1%nat); [reflexivity|vm_compute; reflexivity|reflexivity]|].
  eapply rtc_l; [eapply (race_retry _ 2%nat); reflexivity|].
  eapply rtc_l; [eapply (race_exchange _ 2%nat); [reflexivity|vm_compute; reflexivity|reflexivity]|].
  apply rtc_refl.
Qed.

Lemma grants_disjoint_witness : in_grant (1, 1, 10) 10 ∧ ¬ in_grant (11, 1, 10) 10.
Proof.
  assert (Hg : in_grant (1, 1, 10) 10) by (exists 9; lia). split; [exact Hg|].
  destruct (grants_disjoint 0 race_end ltac:(unfold is_u64; lia) race_demo) as (Hd & _ & Hall).
  intros Hh. apply (Hd 1%nat 0%nat (1, 1, 10) (11, 1, 10) 10 eq_refl eq_refl ltac:(lia)); apply Hall;
    [apply list_elem_of_further, list_elem_of_here|lia|exact Hg|apply list_elem_of_here|lia|exact Hh].
Defined.

Lemma counter_raised_witness : ∃ s', fm_set_auto_increment 5 (with_auto_inc 8 blank) = Ret (tt, s') ∧ auto_inc s' = 8.
Proof.
  destruct (counter_raised (with_auto_inc 8 blank) 5) as [_ ([] & s' & Hrun & ->)]; [unfold is_u64; cbn; lia..|].
  eexists. split; [exact Hrun|]. reflexivity.
Defined.

(** * Witnesses: keys and references *)

Lemma key_callbacks_lawful_witness : KeyOpsLaws (fm_ops hasher0 bin_add rec_bits le16 kd_id).
Proof. apply key_callbacks_lawful, kd_id_ok. Defined.


Lemma ref_roundtrip_witness : encode_ref (-1) 5 = [255; 255; 255; 255; 5; 0; 0; 0] ∧ decode_ref (encode_ref (-1) 5) = (-1, 5).
Proof. split; [reflexivity|]. apply (ref_roundtrip (-1) 5); lia. Defined.
