(* ===== verification/DemoHandler.v ===== *)
(** The properties of handles and handlers at work on the small table. *)

From S2P Require Import Prelude CoreState CoreOps RowOps Shape Inv Chains Reads Alloc Freelist Steps Insert Delete Lockset Update Clear Lifecycle Spec AutoInc Hash Data DataSpec Handler HandlerSpec Demo.

#[local] Opaque after result s0 fm_core_insert_row fm_core_update_row fm_core_update_row_locked fm_core_delete_row
  fm_core_delete_row_locked fm_core_clear fm_core_find fm_core_find_next fm_core_scan_next fm_core_read_row.

(** * A handle *)

(** The table has no auto-increment column: the loads of the server are not reached. *)
Definition no_korr (_ : Z) (_ : bytes) : Z := 0.
Definition no_keytype (_ : Z) : auto_type := AT_OTHER.
Definition write (rec : bytes) : DM ha_err := fm_write no_korr no_korr no_korr no_keytype rec.
Definition change (old new : bytes) : DM ha_err := fm_update no_korr no_korr no_korr no_keytype old new.
Definition buf0 : bytes := [0; 0; 0; 0].

Definition d0 : dstate := mkD s0 kds (mkInfo (-1) 0 (-1) (-1) (-1) [] true 0 [] 0 buf0) HA_OK.

Lemma d0_ok : handle_ok ∅ d0.
Proof.
  destruct s0_wf as (Hwf & _ & Ht), s0_config as (_ & H2 & _ & Ha & _). split; cbn.
  - exact Hwf.
  - rewrite H2. intros k Hk. assert (k = 0 ∨ k = 1) as [-> | ->] by lia; by eexists.
  - intros Hx. by rewrite Ha in Hx.
  - rewrite Ht. unfold FM_NULL_SLOT. lia.
  - rewrite Ht. lia.
Qed.

(** The handle after it has written the first record. *)
Definition d1 : dstate := after (write r1) d0.
Definition j1 : Z := current_slot (info d1).
Definition k1 : Z := current_gen (info d1).

Lemma d1_facts : write r1 d0 = Ret (HA_OK, d1) ∧ handle_ok ∅ d1 ∧ kept s0 (core d1) ∧ table (core d1) = {[ j1 := r1 ]} ∧
  row_ref (core d1) j1 k1 r1 ∧ keydefs d1 = kds.
Proof.
  destruct s0_config as (H4 & H2 & H6 & _ & _ & _ & _ & Ha), s0_wf as (Hwf & Ht & _).
  destruct (run_of HA_OK _ _ _ (write_spec no_korr no_korr no_korr no_keytype ∅ d0 r1 d0_ok (held_in_empty _) (eq_sym H4))) as [Hrun (Hok & K & Hkd & Hout)].
  fold (write r1) in *. fold d1 in *. revert Hrun Hout. generalize (result HA_OK (write r1) d0). intros e Hrun Hout.
  change (core d0) with s0 in *. unfold write_outcome in Hout. change (core d0) with s0 in *. rewrite Ht in Hout. destruct e; try contradiction.
  - destruct Hout as (idx & g & [Hi Hg] & _ & Ht1 & Hr). split; [exact Hrun|]. split; [exact Hok|]. split; [exact K|].
    unfold j1, k1. rewrite Hi, Hg. split; [rewrite Ht1; apply insert_empty|]. split; [exact Hr|exact Hkd].
  - exfalso. destruct Hout as (_ & _ & _ & Hx). rewrite H6, map_size_empty in Hx. cbn in Hx. lia.
  - exfalso. destruct Hout as (_ & _ & _ & n & sz & Hx). by rewrite Ha in Hx.
  - exfalso. destruct Hout as (_ & _ & _ & k & _ & Hx). exact (conflict_empty s0 k r1 (wf_static _ _ Hwf) Ht Hx).
Qed.

#[local] Opaque d1 j1 k1.

Lemma d1_ok : handle_ok ∅ d1.
Proof. apply d1_facts. Qed.
Lemma d1_pos : positioned d1 j1 k1.
Proof. by split. Qed.
Lemma d1_row : row_ref (core d1) j1 k1 r1.
Proof. apply d1_facts. Qed.
Lemma d1_reclength : reclength (core d1) = 4.
Proof. destruct d1_facts as (_ & _ & K & _). rewrite (kp_reclength _ _ K). apply s0_config. Qed.
Lemma d1_slot : 0 ≤ j1 < total_slots (core d1).
Proof.
  pose proof (wf_static _ _ (ho_wf _ _ d1_ok)) as Hs. destruct d1_row as [Ht _]. rewrite table_lookup in Ht by exact Hs.
  exact (row_at_range _ _ _ Hs Ht).
Qed.
Lemma d1_image : old_image d1 j1 k1 r1.
Proof.
  split; [by rewrite d1_reclength|]. right. intros r [Hr _]. destruct d1_row as [Ht _]. congruence.
Qed.
Lemma d1_fits k : 0 ≤ k < keys (core d1) → ¬ conflict (core d1) k r2.
Proof.
  destruct d1_facts as (_ & _ & K & Ht & _), s0_config as (_ & H2 & _ & _ & _ & H0 & H1 & _).
  apply (r2_fits (core d1) j1); [apply (ho_wf _ _ d1_ok)|by rewrite (kp_keys _ _ K)|by rewrite (kp_cfg _ _ K)|by rewrite (kp_cfg _ _ K)|exact Ht].
Qed.

Lemma d1_keydefs : keydefs d1 = kds.
Proof. apply d1_facts. Qed.

(** * Witnesses: handles *)

Lemma fm_write_correct_witness : ∃ e d', write r1 d0 = Ret (e, d') ∧ handle_ok ∅ d' ∧ write_outcome d0 r1 e d'.
Proof.
  destruct s0_config as (H4 & _).
  destruct (fm_write_correct no_korr no_korr no_korr no_keytype ∅ d0 r1 d0_ok (held_in_empty _) (eq_sym H4)) as (e & d' & Hrun & Hok & Hout).
  exists e, d'. split; [exact Hrun|]. split; [exact Hok|exact Hout].
Defined.

Lemma fm_update_correct_witness : ∃ d', change r1 r2 d1 = Ret (HA_OK, d') ∧ table (core d') = <[ j1 := r2 ]> (table (core d1)).
Proof.
  destruct (fm_update_correct no_korr no_korr no_korr no_keytype d1 j1 k1 r1 r2 d1_ok d1_pos (proj1 d1_slot) d1_image (eq_sym d1_reclength))
    as (e & d' & Hrun & _ & _ & Hout).
  exists d'. unfold handle_update in Hout. destruct e; try contradiction.
  - destruct Hout as (_ & Ht & _). split; [exact Hrun|exact Ht].
  - exfalso. destruct Hout as [_ Hx]. exact (Hx r1 d1_row).
  - exfalso. destruct Hout as (_ & k & _ & Hk & _ & Hx). exact (d1_fits k Hk Hx).
  - exfalso. destruct Hout as (_ & _ & r & [Hr _] & Hne). destruct d1_row as [Ht _]. congruence.
Defined.

Lemma fm_delete_correct_witness : ∃ d', fm_delete r1 d1 = Ret (HA_OK, d') ∧ table (core d') = ∅.
Proof.
  destruct (fm_delete_correct d1 j1 k1 r1 d1_ok d1_pos (proj1 d1_slot) (eq_sym d1_reclength)) as (e & d' & Hrun & _ & _ & Hout).
  exists d'. unfold handle_delete in Hout. destruct e; try contradiction.
  - destruct Hout as (_ & Ht & _). split; [exact Hrun|]. destruct d1_facts as (_ & _ & _ & Ht1 & _). rewrite Ht, Ht1. apply delete_singleton_eq.
  - exfalso. destruct Hout as [_ Hx]. exact (Hx r1 d1_row).
  - exfalso. destruct Hout as (_ & _ & r & [Hr _] & Hne). destruct d1_row as [Ht _]. congruence.
Defined.

Lemma write_position_read_witness : ∃ d', (e ← write r1; pos ← fm_set_position; r ← fm_rrnd buf0 pos; mret (e, r)) d0 =
  Ret ((HA_OK, (HA_OK, r1)), d').
Proof.
  destruct s0_config as (H4 & _).
  destruct (write_position_read no_korr no_korr no_korr no_keytype d0 r1 buf0 d0_ok (eq_sym H4)) as ([e r] & d' & Hrun & _ & Hr).
  exists d'. fold (write r1) in Hrun. destruct d1_facts as (Hw & _).
  assert (e = HA_OK) as ->; [|pose proof (Hr eq_refl) as Hx; cbn [snd] in Hx; rewrite Hx in Hrun; exact Hrun].
  rewrite (bind_Ret _ _ _ _ _ Hw) in Hrun. revert Hrun. unfold mbind, M_bind.
  destruct (fm_set_position d1) as [[p d2]| |]; [|discriminate..]. destruct (fm_rrnd buf0 p d2) as [[x d3]| |]; [|discriminate..].
  intros Heq. injection Heq as <- _ _. reflexivity.
Defined.

Lemma deleted_ref_rejected_witness : ∃ r d', (e ← fm_delete r1; r ← fm_rrnd buf0 (encode_ref j1 k1); mret (e, r)) d1 = Ret (r, d') ∧
  (r.1 = HA_OK → r.2.1 = HA_ERR_RECORD_DELETED).
Proof.
  destruct (deleted_ref_rejected d1 j1 k1 r1 buf0 d1_ok d1_pos (proj1 d1_slot) (eq_sym d1_reclength)) as (r & d' & Hrun & _ & Hr).
  exists r, d'. split; [exact Hrun|exact Hr].
Defined.

Lemma scan_references_witness : ∃ rows d', (_ ← fm_scan_init; scan_rest (S (Z.to_nat (total_slots (core d1)))) buf0) d1 = Ret (rows, d') ∧
  (encode_ref j1 k1, r1) ∈ rows.
Proof.
  destruct (scan_references ∅ d1 buf0 d1_ok) as (rows & d' & Hrun & _ & _ & -> & _). eexists _, d'. split; [exact Hrun|].
  apply list_elem_of_omap. exists j1. split; [apply elem_of_seqZ; pose proof d1_slot; lia|].
  destruct d1_row as [Ht Hg]. rewrite Ht. cbn. rewrite Hg. reflexivity.
Defined.

(** * A handler in a write statement *)

Definition h0 : ha_fastmem := mkHandler d1 true false (-1).

Lemma h0_ok : handler_ok h0.
Proof. split; [exact d1_ok|discriminate]. Qed.

(** The handler once it holds the row. *)
Definition h1 : ha_fastmem := after lock_current_row h0.

Lemma h1_facts : handler_ok h1 ∧ holds_row h1 = true ∧ lock_step h0 h1.
Proof.
  destruct (run_of tt _ _ _ (lock_spec h0 h0_ok (proj1 d1_slot))) as [_ (Hok & Hh & _ & L)]. fold h1 in *.
  split; [exact Hok|]. split; [exact Hh|exact L].
Qed.

#[local] Opaque h1.

Lemma h1_cur : cur_slot h1 = j1 ∧ current_gen (info (file h1)) = k1.
Proof. destruct h1_facts as (_ & _ & L). unfold cur_slot. rewrite (ls_info _ _ L). split; reflexivity. Qed.
Lemma h1_rows : same_rows (core d1) (core (file h1)).
Proof. destruct h1_facts as (_ & _ & L). exact (ls_rows _ _ L). Qed.
Lemma h1_write : write_stmt h1 = true.
Proof. destruct h1_facts as (_ & _ & L). exact (ls_write _ _ L). Qed.
Lemma h1_at : at_row h1 r1.
Proof.
  destruct h1_cur as [Hc Hg]. split; [rewrite Hc; apply d1_slot|]. split; [|intros _; exact (proj1 (proj2 h1_facts))].
  rewrite Hc, Hg. apply (row_ref_rows _ _ _ _ _ h1_rows), d1_row.
Qed.
Lemma h1_reclength : reclength (core (file h1)) = 4.
Proof. rewrite (sc_reclength _ _ (sr_config _ _ h1_rows)). exact d1_reclength. Qed.
Lemma h1_table : table (core (file h1)) = {[ j1 := r1 ]}.
Proof. rewrite (sr_table _ _ h1_rows). apply d1_facts. Qed.
Lemma h1_fits k : 0 ≤ k < keys (core (file h1)) → ¬ conflict (core (file h1)) k r2.
Proof.
  pose proof (sr_config _ _ h1_rows) as C. rewrite (sc_keys _ _ C). intros Hk Hx. apply (d1_fits k Hk).
  exact (proj1 (conflict_ext (core d1) (core (file h1)) k r2 (sr_row _ _ h1_rows) (sc_cfg _ _ C)) Hx).
Qed.

(** * Witnesses: handlers *)

Lemma update_row_rmw_witness : ∃ h', update_row no_korr no_korr no_korr no_keytype r1 r2 h1 = Ret (HA_OK, h') ∧
  row_locked h' = false ∧ table (core (file h')) = {[ j1 := r2 ]}.
Proof.
  destruct (update_row_rmw no_korr no_korr no_korr no_keytype h1 r1 r2 (proj1 h1_facts) h1_write h1_at (eq_sym h1_reclength))
    as (e & h' & Hrun & _ & Hl & [[-> Ht]|(_ & _ & k & Hk & Hx)]).
  - exists h'. split; [exact Hrun|]. split; [exact Hl|]. rewrite Ht, h1_table, (proj1 h1_cur). apply insert_singleton_eq.
  - exfalso. exact (h1_fits k Hk Hx).
Defined.

Lemma delete_row_rmw_witness : ∃ h', delete_row r1 h1 = Ret (HA_OK, h') ∧ row_locked h' = false ∧ table (core (file h')) = ∅.
Proof.
  destruct (delete_row_rmw h1 r1 (proj1 h1_facts) h1_write h1_at) as (e & h' & Hrun & -> & _ & Hl & Ht & _).
  exists h'. split; [exact Hrun|]. split; [exact Hl|]. rewrite Ht, h1_table, (proj1 h1_cur). apply delete_singleton_eq.
Defined.

Lemma delete_statement_empties_witness : ∃ h', delete_statement 2 buf0 h0 = Ret (1%nat, h') ∧ table (core (file h')) = ∅.
Proof.
  assert (Hsz : size (table (core (file h0))) = 1%nat).
  { destruct d1_facts as (_ & _ & _ & Ht & _). change (core (file h0)) with (core d1). rewrite Ht. apply map_size_singleton. }
  destruct (delete_statement_empties h0 buf0 h0_ok) as (n & h' & Hrun & _ & _ & _ & Ht & Hn). rewrite Hsz in Hrun, Hn. rewrite Hn in Hrun.
  exists h'. split; [exact Hrun|exact Ht].
Defined.

Lemma tag_keys : keeps_key kd_tag = true ∧ kd_length kd_tag = 2.
Proof. split; reflexivity. Qed.

Lemma index_access_complete_witness : ∃ rows h', index_all (walk_fuel (core (file h0))) 1 buf0 [7; 7] h0 = Ret (rows, h') ∧
  handler_ok h' ∧ (j1, r1) ∈ rows.
Proof.
  destruct d1_facts as (_ & _ & K & _), s0_config as (_ & H2 & _ & _ & _ & _ & H1 & _).
  assert (Hk : 0 ≤ 1 < keys (core (file h0))) by (change (core (file h0)) with (core d1); rewrite (kp_keys _ _ K), H2; lia).
  destruct (key_at_is_Some (core d1) 1 (wf_static _ _ (ho_wf _ _ d1_ok)) Hk) as (kc & n & Hkc & _).
  assert (Hkd : arr_get (keydefs (file h0)) 1 = Some kd_tag).
  { change (file h0) with d1. rewrite d1_keydefs. reflexivity. }
  destruct (index_access_complete h0 1 [7; 7] buf0 kc kd_tag h0_ok Hk Hkc Hkd (proj1 tag_keys) eq_refl) as (rows & h' & Hrun & Hok & _ & _ & Hin).
  exists rows, h'. split; [exact Hrun|]. split; [exact Hok|]. apply Hin. split; [exact (proj1 d1_row)|].
  pose proof (key_cfg_key_at _ _ _ Hkc) as Hc. rewrite (kp_cfg _ _ K), H1 in Hc. pose proof match_tag as Hm. revert Hm Hc.
  generalize (defs 1). intros [o u] Hm Hc. injection Hc as <- _ _. exact Hm.
Defined.

Lemma update_row_total_witness : ∃ e h', update_row no_korr no_korr no_korr no_keytype r1 r2 h0 = Ret (e, h') ∧ row_locked h' = false.
Proof.
  destruct (update_row_total no_korr no_korr no_korr no_keytype h0 r1 r2 h0_ok d1_image (eq_sym d1_reclength)) as (e & h' & Hrun & _ & Hl & _).
  exists e, h'. split; [exact Hrun|exact Hl].
Defined.
