(* ===== verification/DemoTables.v ===== *)
(** Tables at work: a table with one key is opened, filled, closed, opened again and dropped. *)

From S2P Require Import Prelude CoreState CoreOps RowOps Shape Inv Alloc Steps Lifecycle Spec Hash Create Data Registry RegistrySpec RegistrySafe Tables Demo.

(** * The server's side *)

Definition number_type (_ : Z) : base_keytype := KT_OTHER.
Definition binary_type : Z := 8.
Definition heap_size : Z := 16777216.

(** Records of four bytes, the first two of them the primary key; at most 100 rows. *)
Definition id_field : Field := mkField 2 false false bin_charset None (0, 0, 0).
Definition demo_table : TABLE := mkTABLE 1 [mkKEY HA_KEY_ALG_HASH true [mkPart id_field 0 2]] false 0 0 4 100.

Definition demo_name : bytes := [116].
Definition mem0 : Heap := mkHeap 1 {[ 0%nat ]}.

Definition run (op : top) : RM tresp :=
  run_top hasher0 bin_add rec_bits le16 plenty 400 40 64 200 true 7 number_type binary_type bin_charset heap_size op.

Lemma demo_table_ok : table_ok number_type binary_type bin_charset demo_table.
Proof.
  constructor; [done| |done|done|done]. constructor; [|constructor]. constructor; [done| |done|done].
  constructor; [|constructor]. constructor; [apply bin_laws|done|done].
Qed.

Lemma demo_table_fits : table_fits number_type binary_type bin_charset heap_size demo_table.
Proof. constructor; [apply demo_table_ok|done|by vm_compute]. Qed.

Lemma mem0_fresh : fresh mem0.
Proof. intros p Hp. cbn in Hp |- *. apply elem_of_singleton in Hp as ->. lia. Qed.

(** Preparing the table. *)
Lemma prepare_correct_witness : ∃ ci r', prepare plenty 40 64 number_type binary_type bin_charset heap_size demo_table false (boot mem0) = Ret (inr ci, r') ∧
  ci_keys ci = 1 ∧ ci_max_records ci ≤ 100 ∧ ∀ kd, kd ∈ ci_keydef ci → keydef_ok kd.
Proof.
  destruct (prepare_correct number_type binary_type bin_charset heap_size (my_malloc plenty) 40 64 demo_table false rec_bits (boot mem0)
    (r_heap (mkHeap 2 ({[ 1%nat ]} ∪ {[ 0%nat ]})) (boot mem0)) 1%nat bin_laws demo_table_ok) as (x & r' & E & -> & ci & -> & _ & Hk & _ & Hkd & _ & Hm & _).
  - intros size. reflexivity.
  - exists ci, (r_heap (mkHeap 2 ({[ 1%nat ]} ∪ {[ 0%nat ]})) (boot mem0)). split; [exact E|]. split; [done|]. split.
    + destruct Hm as [Hm|Hm]; [done|exact Hm|rewrite Hm; done].
    + intros kd Hin. by destruct (Hkd kd Hin).
Defined.

(** * A session *)

#[local] Opaque after result.

Definition demo_open : top := TOpen demo_name 2 demo_table false.
Definition q0 : registry := boot mem0.
Definition q1 : registry := after (run demo_open) q0.

Abbreviation demo_ok := (reg_ok hasher0 bin_add rec_bits le16 (live mem0)).
Abbreviation demo_exec := (texec hasher0 bin_add rec_bits le16 plenty 400 40 64 200 true 7 number_type binary_type bin_charset heap_size).
Abbreviation demo_top_ok := (top_ok plenty number_type binary_type bin_charset heap_size).
Abbreviation demo_new := (new_table (keydefs_of number_type binary_type bin_charset demo_table) 4 false).

#[local] Existing Instance bin_laws.

(** The process [r] has one table, which has one handle. *)
Record one_table (h : nat) (fh : FM_HANDLE) (sh : FM_SHARE) (r : registry) : Prop := {
  ot_ok : demo_ok r;
  ot_handle : handles r = {[ h := fh ]};
  ot_share : shares r = {[ oh_share fh := sh ]};
  ot_name : snd <$> fs_name sh = Some demo_name;
  ot_public : fs_internal sh = false;
  ot_reclength : reclength (fs_core sh) = 4
}.

Lemma demo_open_ok : demo_top_ok q0 demo_open.
Proof. split; [apply demo_table_fits|]. by split; [split|]. Qed.

Lemma q0_ok : demo_ok q0.
Proof. apply boot_ok, mem0_fresh. Qed.

Lemma q1_facts : ∃ h fh sh, run demo_open q0 = Ret (THandle (Some h), q1) ∧ one_table h fh sh q1 ∧ demo_new sh.
Proof.
  assert (Hw : wp (run demo_open) (λ res r', ∃ h, res = THandle (Some h) ∧ open_result hasher0 bin_add rec_bits le16 number_type binary_type bin_charset
    (live mem0) q0 demo_name demo_table false h r') q0).
  { unfold run. cbn [run_top demo_open]. destruct demo_open_ok as (Hf & Hm & Hs).
    wp_use (ha_open_spec hasher0 bin_add rec_bits le16 plenty 400 40 64 200 true 7 number_type binary_type bin_charset heap_size
      (live mem0) q0 demo_name 2 demo_table false q0_ok Hf Hm Hs).
    intros [h|] r'; [intros H; apply wp_ret; by exists h|by intros ((? & ? & ?) & _)]. }
  destruct (run_of (THandle None) _ _ _ Hw) as [E (h & Er & [Hok Hh (fh & sh & Eh & Hsh & Hn & Hcase) _ Hmore])]. rewrite Er in E.
  fold q1 in E, Hok, Eh, Hsh, Hmore. destruct Hcase as [(_ & [Hin _] & _)|(_ & _ & Hnt)]; [destruct (proj1 (elem_of_nil _) Hin)|].
  exists h, fh, sh. split; [exact E|]. split; [|exact Hnt]. destruct Hnt as (_ & Hrl & Hi & _).
  split; [exact Hok|exact Eh| |exact Hn|exact Hi|exact Hrl]. apply map_eq. intros q.
  destruct (shares q1 !! q) as [shq|] eqn:Hq.
  - destruct (Hmore q shq fh ltac:(rewrite Eh; apply lookup_insert_eq) Hq) as [->|Hx]; [|cbn in Hx; rewrite lookup_empty in Hx; discriminate Hx]. rewrite lookup_singleton_eq. congruence.
  - rewrite lookup_singleton_ne; [done|]. intros <-. congruence.
Qed.

Lemma one_table_count h fh sh r : one_table h fh sh r → open_count sh = 1.
Proof.
  intros H. pose proof (inv_share _ _ _ _ _ _ _ _ _ (proj1 (ot_ok _ _ _ _ H)) (ltac:(rewrite (ot_share _ _ _ _ H); apply lookup_singleton_eq) : shares r !! oh_share fh = Some sh)) as HI.
  rewrite (si_count _ _ _ _ _ _ _ _ HI), (ot_handle _ _ _ _ H). rewrite <-(insert_empty h fh), users_insert, decide_True by done. done.
Qed.

(** A row goes into the table. *)
Definition demo_insert (h : nat) : top := TRow h (CInsert r1).

Lemma insert_step h fh sh r : one_table h fh sh r → demo_top_ok r (demo_insert h) ∧
  ∃ res r' sh', run (demo_insert h) r = Ret (res, r') ∧ one_table h fh sh' r' ∧ delete_on_close sh' = delete_on_close sh.
Proof.
  intros H. assert (Hh : handles r !! h = Some fh) by (rewrite (ot_handle _ _ _ _ H); apply lookup_singleton_eq).
  assert (Hs : shares r !! oh_share fh = Some sh) by (rewrite (ot_share _ _ _ _ H); apply lookup_singleton_eq).
  assert (Hc : cmd_ok (fs_core sh) (CInsert r1)) by (simpl; by rewrite (ot_reclength _ _ _ _ H)).
  split; [by exists fh, sh|].
  destruct (row_spec hasher0 bin_add rec_bits le16 (live mem0) r h fh sh (CInsert r1) (ot_ok _ _ _ _ H) Hh Hs Hc)
    as (res & r' & E & Hr' & Eh & core' & Es & Hwf & C & _).
  exists (TData res), r', (fs_with_core core' sh). split.
  { unfold run, demo_insert. cbn [run_top]. rewrite (bind_Ret _ _ _ _ _ (deref_handle_run _ _ _ Hh)), (bind_Ret _ _ _ _ _ E). done. }
  split; [|done]. destruct H as [_ Hh' Hs' Hn Hp Hrl]. split; try done.
  - by rewrite Eh.
  - rewrite Es, Hs'. apply insert_singleton_eq.
  - simpl. by rewrite (sc_reclength _ _ C).
Qed.

(** Dropping the table through its handle leaves nothing. *)
Lemma drop_step h fh sh r : one_table h fh sh r → demo_top_ok r (TDrop h) ∧
  ∃ r', run (TDrop h) r = Ret (TCode 0, r') ∧ handles r' = ∅ ∧ fm_share_list r' = [].
Proof.
  intros H. assert (Hh : handles r !! h = Some fh) by (rewrite (ot_handle _ _ _ _ H); apply lookup_singleton_eq).
  assert (Hs : shares r !! oh_share fh = Some sh) by (rewrite (ot_share _ _ _ _ H); apply lookup_singleton_eq).
  split; [by eexists|].
  destruct (drop_spec hasher0 bin_add rec_bits le16 (live mem0) r h fh sh (ot_ok _ _ _ _ H) Hh Hs) as ([] & r' & E & Hr' & Eh & Es).
  exists r'. split; [unfold run; cbn [run_top]; by rewrite (bind_Ret _ _ _ _ _ E)|].
  split; [by rewrite Eh, (ot_handle _ _ _ _ H), delete_singleton_eq|].
  unfold closed_shares in Es. simpl in Es. rewrite (one_table_count _ _ _ _ H), (ot_share _ _ _ _ H), delete_singleton_eq in Es. simpl in Es.
  destruct (fm_share_list r') as [|p l] eqn:El; [done|]. exfalso. destruct Hr' as [[Ht _] _]. destruct (to_list _ _ _ _ _ _ Ht) as [_ Hl].
  destruct (proj1 (Hl p)) as (? & Hp & _); [rewrite El; by left|]. rewrite Es in Hp. done.
Qed.

Lemma registry_safe_witness : ∃ tr r, length tr = 3%nat ∧ demo_exec (boot mem0) tr r ∧ live (rheap r) = live mem0.
Proof.
  destruct q1_facts as (h & fh & sh & E1 & H1 & _). destruct (insert_step h fh sh q1 H1) as (Ok2 & res & q2 & sh2 & E2 & H2 & _).
  destruct (drop_step h fh sh2 q2 H2) as (Ok3 & q3 & E3 & Hh & Hl).
  exists [(demo_open, THandle (Some h)); (demo_insert h, res); (TDrop h, TCode 0)], q3.
  assert (He : demo_exec (boot mem0) [(demo_open, THandle (Some h)); (demo_insert h, res); (TDrop h, TCode 0)] q3).
  { eapply texec_cons; [apply demo_open_ok|exact E1|]. eapply texec_cons; [exact Ok2|exact E2|]. eapply texec_cons; [exact Ok3|exact E3|]. constructor. }
  split; [done|]. split; [exact He|].
  destruct (registry_safe hasher0 bin_add rec_bits le16 plenty 400 40 64 200 true 7 number_type binary_type bin_charset heap_size mem0 _ q3 mem0_fresh He)
    as (_ & _ & Hend). by apply Hend.
Defined.

Lemma close_open_rows_witness : ∃ h r t, wp (ha_close h;;
    ha_open plenty 400 40 64 200 true 7 hasher0 bin_add rec_bits le16 number_type binary_type bin_charset heap_size demo_name 2 demo_table false)
  (λ res r', ∃ h' fh' sh', res = Some h' ∧ handles r' !! h' = Some fh' ∧ shares r' !! oh_share fh' = Some sh' ∧ table (fs_core sh') = t) r.
Proof.
  destruct q1_facts as (h & fh & sh & E1 & H1 & Hnt). destruct (insert_step h fh sh q1 H1) as (Ok2 & res & q2 & sh2 & E2 & H2 & Ed).
  exists h, q2, (table (fs_core sh2)). pose proof (ot_handle _ _ _ _ H2) as Hh.
  destruct (close_open_rows hasher0 bin_add rec_bits le16 plenty 400 40 64 200 true 7 number_type binary_type bin_charset heap_size mem0
    [(demo_open, THandle (Some h)); (demo_insert h, res)] q2 h fh sh2 demo_name 2 demo_table) as [Hclose _].
  - by intros n size.
  - apply mem0_fresh.
  - eapply texec_cons; [apply demo_open_ok|exact E1|]. eapply texec_cons; [exact Ok2|exact E2|]. constructor.
  - by rewrite Hh, lookup_singleton_eq.
  - rewrite (ot_share _ _ _ _ H2). apply lookup_singleton_eq.
  - apply H2.
  - apply H2.
  - intros q (_ & shq & Hq & _). rewrite (ot_share _ _ _ _ H2) in Hq. by apply lookup_singleton_Some in Hq as [-> _].
  - apply demo_table_fits.
  - apply Hclose. rewrite Ed. apply Hnt.
Defined.

(** A clone of the open handle: a second handle of the table. *)
Lemma clone_table_witness : ∃ h r t, wp (ha_clone plenty 400 40 64 200 true 7 hasher0 bin_add rec_bits le16 number_type binary_type bin_charset heap_size h 2 demo_table true)
  (λ res r', ∃ h' fh' sh', res = Some h' ∧ handles r !! h' = None ∧ handles r' = <[h' := fh']> (handles r) ∧ shares r' !! oh_share fh' = Some sh' ∧ table (fs_core sh') = t) r.
Proof.
  destruct q1_facts as (h & fh & sh & E1 & H1 & Hnt). destruct (insert_step h fh sh q1 H1) as (Ok2 & res & q2 & sh2 & E2 & H2 & Ed).
  exists h, q2, (table (fs_core sh2)). pose proof (ot_handle _ _ _ _ H2) as Hh. pose proof (ot_name _ _ _ _ H2) as Hn.
  destruct (fs_name sh2) as [n|] eqn:En; [|discriminate Hn]. pose proof (ot_public _ _ _ _ H2) as Hi.
  eapply wp_mono; [apply (clone_table hasher0 bin_add rec_bits le16 plenty 400 40 64 200 true 7 number_type binary_type bin_charset heap_size mem0
    [(demo_open, THandle (Some h)); (demo_insert h, res)] q2 h fh sh2 n 2 demo_table)|].
  - by intros n' size.
  - apply mem0_fresh.
  - eapply texec_cons; [apply demo_open_ok|exact E1|]. eapply texec_cons; [exact Ok2|exact E2|]. constructor.
  - by rewrite Hh, lookup_singleton_eq.
  - rewrite (ot_share _ _ _ _ H2). apply lookup_singleton_eq.
  - exact En.
  - apply demo_table_fits.
  - rewrite Hh, map_size_singleton. done.
  - intros res' r' (h' & fh' & sh' & A & B & C & D & _ & _ & _ & F). exists h', fh', sh'. refine (conj A (conj B (conj C (conj D (proj2 (F Hi _)))))).
    intros q (_ & shq & Hq & _). rewrite (ot_share _ _ _ _ H2) in Hq. by apply lookup_singleton_Some in Hq as [-> _].
Defined.
