(* ===== verification/DemoThreads.v ===== *)
(** Concrete interleavings: two writers and a reader on one row, two statements that cross in
    their locks, the statistics of a table with one row, and two sessions on it. *)

From S2P Require Import Prelude CoreState CoreOps RowOps Shape Inv Reads Insert Lockset Steps Lifecycle Spec Seqlock LockOrder Hash Create Data DataSpec Handler HandlerSpec HandlerInfo Sessions Buffers Demo DemoHandler.

(** * Two increments and a read *)

Definition incr (img : bytes) : bytes := (λ x, x + 1) <$> img.

Definition crew : gmap nat thread :=
  {[ 0%nat := Reader true 0 RState; 1%nat := Writer incr WLock; 2%nat := Writer incr WLock ]}.

(** The reader copies one byte, the first writer replaces the image and the reader has to start
    again; it finishes while the second writer is about to store. *)
Definition crew_schedule : list nat :=
  [0; 0; 0; 0; 1; 1; 1; 1; 1; 1; 1; 1; 1; 1; 0; 1; 1; 0; 1; 1; 0; 1; 1; 2; 2; 2; 2; 2; 2; 2; 2; 2; 2; 2; 0; 0; 0; 0; 0; 2; 2; 2; 2; 2]%nat.

Lemma crew_ok : threads_ok 2 crew.
Proof.
  assert (Hi : ∀ img, length img = 2%nat → length (incr img) = 2%nat) by (intros img <-; apply length_fmap).
  intros t th. unfold crew. rewrite lookup_insert_Some. intros [[_ <-]|[_ H]]; [done|].
  rewrite lookup_insert_Some in H. destruct H as [[_ <-]|[_ H]]; [by split|].
  apply lookup_singleton_Some in H as [_ <-]. by split.
Qed.

Definition crew_end : option sys := run_schedule 2 crew_schedule (Seqlock.start [1; 1] 0 crew).

(** The reader returns the image between the two updates. *)
Lemma read_never_torn_witness : ∃ s v, crew_end = Some s ∧ threads s !! 0%nat = Some (Reader true 0 (RReturn FM_ERR_OK [2; 2] true v)) ∧
  ∃ k, (sn_since v ≤ k ≤ length (hist s))%nat ∧ [2; 2] = replay (take k (hist s)) [1; 1].
Proof.
  destruct crew_end as [s|] eqn:E; [|vm_compute in E; discriminate E]. exists s, (mkSeen 0 0). split; [reflexivity|].
  assert (Hth : threads s !! 0%nat = Some (Reader true 0 (RReturn FM_ERR_OK [2; 2] true (mkSeen 0 0)))).
  { vm_compute in E. injection E as <-. vm_compute. reflexivity. }
  split; [exact Hth|]. exact (read_never_torn 2 [1; 1] 0 crew crew_schedule s 0%nat true 0 [2; 2] (mkSeen 0 0) eq_refl crew_ok E Hth).
Defined.

(** Both increments are in the row. *)
Lemma no_lost_update_witness : ∃ s, crew_end = Some s ∧ data (slot s) = [3; 3] ∧ data (slot s) = replay (hist s) [1; 1] ∧ updaters (hist s) = [1; 2]%nat.
Proof.
  destruct crew_end as [s|] eqn:E; [|vm_compute in E; discriminate E]. exists s. split; [reflexivity|].
  assert (Hs : wlock (slot s) = 0 ∧ state (slot s) = FM_SLOT_ACTIVE ∧ data (slot s) = [3; 3] ∧ updaters (hist s) = [1; 2]%nat).
  { vm_compute in E. injection E as <-. vm_compute. repeat split. }
  destruct Hs as (Hw & Hst & Hd & Hu). split; [exact Hd|]. split; [|exact Hu].
  exact (proj1 (no_lost_update 2 [1; 1] 0 crew crew_schedule s eq_refl crew_ok E Hw Hst)).
Defined.

(** * Crossing statements *)

(** Two statements update different rows and exchange the buckets of their keys; a third
    inserts and meets a duplicate. *)
Definition crossing : gmap nat (list piece) :=
  {[ 1%nat := [PRow 0 [RwUpdate [mkFMB 0 3; mkFMB 1 5]]]; 2%nat := [PRow 1 [RwUpdate [mkFMB 1 5; mkFMB 0 3]]];
     3%nat := [PInsert [mkFMB 0 3; mkFMB 1 5] (Some 1%nat)] ]}.

Lemma crossing_ok : map_Forall (λ _ cs, Forall piece_ok cs) crossing.
Proof.
  assert (H : fmb_ok (mkFMB 0 3) ∧ fmb_ok (mkFMB 1 5)) by (split; split; cbn; lia). destruct H.
  unfold crossing. apply map_Forall_insert_2; [by repeat constructor|]. apply map_Forall_insert_2; [by repeat constructor|].
  apply map_Forall_singleton. by repeat constructor.
Qed.

(** The threads are stopped with row locks, a bucket and the mutex taken; they finish. *)
Lemma statements_deadlock_free_witness : ∃ st, lock_run [1; 2; 3; 1; 1]%nat (launch (statement_locks <$> crossing)) = Some st ∧
  lock_move 2 st = None ∧ ∃ ts st', lock_run ts st = Some st' ∧ map_Forall (λ _ x, x = ([], [])) st'.
Proof.
  destruct (lock_run [1; 2; 3; 1; 1]%nat (launch (statement_locks <$> crossing))) as [st|] eqn:E; [|vm_compute in E; discriminate E].
  exists st. split; [reflexivity|]. split; [|exact (proj1 (proj2 (statements_deadlock_free crossing _ st crossing_ok E)))].
  vm_compute in E. injection E as <-. vm_compute. reflexivity.
Defined.

(** * Statistics of a table with one row *)

#[local] Opaque after result d1.

Definition plain_field : Field := mkField 2 false false bin_charset None (0, 0, 0).
Definition two_keys : TABLE :=
  mkTABLE 2 [mkKEY HA_KEY_ALG_HASH true [mkPart plain_field 0 2]; mkKEY HA_KEY_ALG_HASH false [mkPart plain_field 2 2]] false 0 0 4 6.
Definition no_stats : ha_statistics := mkStats 0 0 0 0 0 0 0 0 0.
Definition o0 : handler_obj := mkObj h0 no_stats 0 [Some [0]; Some [0]].

Lemma o0_fit : estimates_fit two_keys (rec_per_key o0).
Proof.
  split; [done|]. intros i key arr Hk Ha. pose proof (arr_get_range _ _ _ Ha) as Hi. cbn in Hi.
  assert (i = 0 ∨ i = 1) as [-> | ->] by lia.
  - change (Some (mkKEY HA_KEY_ALG_HASH true [mkPart plain_field 0 2]) = Some key) in Hk. change (Some (Some [0]) = Some (Some arr)) in Ha.
    injection Hk as <-. injection Ha as <-. done.
  - change (Some (mkKEY HA_KEY_ALG_HASH false [mkPart plain_field 2 2]) = Some key) in Hk. change (Some (Some [0]) = Some (Some arr)) in Ha.
    injection Hk as <-. injection Ha as <-. done.
Qed.

Lemma r1_not_null : ¬ null_key (defs 0).1 r1.
Proof. by vm_compute. Qed.

Lemma info_exact_witness : ∃ o', ha_info 7 two_keys true o0 = Ret (0, o') ∧ st_records (stats o') = 1 ∧ auto_increment_value (stats o') = u64 (auto_inc (core d1) + 1) ∧
  ∃ n, records_in_range two_keys (λ _, 2) 0 (Some (mkRange 2 true)) (Some (mkRange 2 true)) o' = Ret (Some n, o') ∧
    Z.of_nat (size (filter (λ p : Z * bytes, same_key (defs 0).1 p.2 r1) (table (core d1)))) ≤ n.
Proof.
  destruct d1_facts as (_ & _ & K & Ht & _). destruct s0_config as (_ & Hk & _ & _ & _ & H0 & _).
  destruct (info_exact 7 two_keys true o0 h0_ok) as (r & o' & Hrun & -> & _ & _ & _ & Hrec & _ & _ & _ & _ & _ & Hauto & _ & Hrange).
  - change (core (file (ha o0))) with (core d1). rewrite (kp_keys _ _ K), Hk. done.
  - exact o0_fit.
  - exists o'. split; [exact Hrun|]. change (core (file (ha o0))) with (core d1) in *.
    assert (Hsz : size (table (core d1)) = 1%nat) by (rewrite Ht; apply map_size_singleton). rewrite Hsz in Hrec. split; [exact Hrec|]. split; [exact Hauto|].
    destruct (Hrange (λ _, 2) 0 (mkKEY HA_KEY_ALG_HASH true [mkPart plain_field 0 2]) [0] (defs 0).1 4 r1) as (v & o2 & Hv & -> & n & -> & Hn);
      [reflexivity|reflexivity|rewrite (kp_cfg _ _ K), H0; reflexivity|reflexivity|exact r1_not_null|].
    exists n. split; [exact Hv|exact Hn].
Defined.

(** * Two sessions *)

#[local] Opaque h1 fm_write.

(** Session 0 holds the row of the table, session 1 has just been opened. *)
Definition opened : session := mkSession (mkInfo (-1) 0 (-1) (-1) (-1) [] true 0 [] 0 buf0) HA_OK false false (-1).
Definition two_sessions : db :=
  mkDb (core (file h1)) (keydefs (file h1)) (<[1%nat := opened]> {[ 0%nat := as_session h1 ]}).
Definition no_bits (_ : bytes) (_ _ : Z) : Z := 0.
Definition no_auto (rec : bytes) : HM (ha_err * bytes) := mret (HA_OK, rec).

Lemma h1_inx : inx_ok (file h1).
Proof.
  destruct h1_facts as (_ & _ & L), s0_config as (H4 & Hk & _), d1_facts as (Hrun & _ & K & _).
  apply (inx_rows h0 h1 L). unfold inx_ok. change (file h0) with d1. rewrite (kp_keys _ _ K), Hk.
  destruct (write_frame no_korr no_korr no_korr no_keytype ∅ d0 r1 d0_ok (held_in_empty _) (eq_sym H4)) as (e & d' & Hw & _ & Hx & _).
  fold (write r1) in Hw. rewrite Hrun in Hw. injection Hw as _ <-. unfold inx_kept in Hx. change (lastinx (info d0)) with (-1) in Hx. lia.
Qed.

Definition one_session : db := mkDb (core (file h1)) (keydefs (file h1)) {[ 0%nat := as_session h1 ]}.

Lemma two_sessions_ok : db_ok two_sessions.
Proof.
  assert (Hone : db_ok one_session) by exact (db_ok_single 0 h1 (proj1 h1_facts) h1_inx).
  assert (Hnew : new_session opened) by (split; [reflexivity|]; split; [reflexivity|]; split; reflexivity).
  exact (db_ok_open 1 0 opened (as_session h1) one_session Hone eq_refl eq_refl Hnew).
Qed.

Lemma r2_length : Z.of_nat (length r2) = reclength (share two_sessions).
Proof. cbn [two_sessions share]. rewrite h1_reclength. reflexivity. Qed.

(** Session 1 inserts a row. *)
Lemma two_sessions_run : ∃ r s', db_exec no_korr no_korr no_korr no_keytype no_auto no_bits two_sessions [(1%nat, SWrite r2, r)] s' ∧ reclength (share s') = 4.
Proof.
  destruct (write_returns no_korr no_korr no_korr no_keytype no_auto no_bits 1 opened r2 two_sessions two_sessions_ok eq_refl r2_length) as (e & s' & Hrun & K).
  exists (e, []), s'. split; [|rewrite (kp_reclength _ _ K); exact h1_reclength].
  exact (db_cons _ _ _ _ _ _ two_sessions 1 opened (SWrite r2) (e, []) s' [] s' eq_refl r2_length Hrun (db_nil _ _ _ _ _ _ s')).
Qed.

(** The loads of the server, and the key definitions of the table inside its records. *)
Definition korr16 (_ : Z) (b : bytes) : Z := le16 b.
Definition two_bytes (_ _ : Z) : Z := 2.
Definition no_key (_ : nat) : option Z := None.

Lemma korr16_two a b : take 2 a = take 2 b → korr16 2 a = korr16 2 b.
Proof.
  intros H. unfold korr16, le16. rewrite <-(byte_at_take 2 a), <-(byte_at_take 2 b), H by lia. f_equal.
  unfold byte_at. change (Z.to_nat 1) with 1%nat. rewrite <-(lookup_take_lt a 2 1), <-(lookup_take_lt b 2 1), H by lia. reflexivity.
Qed.

Lemma word_inside st : 0 ≤ st ≤ 2 → seg_inside two_bytes 4 (word_seg st).
Proof. intros H. split; cbn; try done; try lia. by intros [? _]. Qed.

Lemma kds_inside : Forall (keydef_inside two_bytes 4) kds.
Proof. repeat (constructor; [constructor; [constructor; [apply word_inside; lia|constructor]|done|done]|]). constructor. Qed.

Lemma record_fits rec : length rec = 4%nat → rec_fits korr16 4 kds rec.
Proof.
  intros H. split; [by rewrite H|]. intros kd sg Hkd Hsg Hv.
  assert (Hn : Forall (λ kd, Forall (λ sg, is_var sg = false) (seg kd)) kds) by by repeat constructor.
  rewrite Forall_forall in Hn. specialize (Hn kd Hkd). rewrite Forall_forall in Hn.
  by rewrite (Hn sg Hsg) in Hv.
Qed.

Lemma two_sessions_keydefs : db_keydefs two_sessions = kds.
Proof. destruct h1_facts as (_ & _ & L). cbn [two_sessions db_keydefs]. rewrite (ls_keydefs _ _ L). exact d1_keydefs. Qed.

Lemma two_sessions_fit : db_fits hasher0 bin_add korr16 no_keytype rec_bits two_bytes two_sessions no_key.
Proof.
  destruct d1_facts as (_ & _ & K & _), s0_config as (_ & _ & _ & Ha & _ & H0 & H1 & _).
  constructor; rewrite ?two_sessions_keydefs; cbn [two_sessions share]; rewrite ?h1_reclength.
  - intros k kd Hkd. rewrite (sc_cfg _ _ (sr_config _ _ h1_rows)). rewrite (kp_cfg _ _ K).
    pose proof (arr_get_range _ _ _ Hkd) as Hk. cbn in Hk. assert (k = 0 ∨ k = 1) as [-> | ->] by lia; injection Hkd as <-; [rewrite H0|rewrite H1]; by eexists _, _.
  - exact kds_inside.
  - intros kd sg Hkd. pose proof (arr_get_range _ _ _ Hkd) as Hk. exfalso. revert Hk. rewrite (sc_auto_key _ _ (sr_config _ _ h1_rows)).
    rewrite (kp_auto _ _ K), Ha. lia.
  - intros i rec. rewrite h1_table. intros [_ <-]%lookup_singleton_Some. by apply record_fits.
  - done.
Qed.

(** Session 1 inserts a row, and may then look rows up by the second key. *)
Lemma sessions_safe_witness : ∃ r s' K, checked_exec korr16 korr16 korr16 no_keytype no_auto rec_bits two_bytes two_sessions no_key [(1%nat, SWrite r2, r)] s' K ∧
  (∀ i x, sessions s' !! i = Some x → wf (session_held x ∪ others i s') (share s') ∧ session_held x ## others i s') ∧
  ∀ x, sessions s' !! 1%nat = Some x →
    (∃ q s'', checked_call korr16 korr16 korr16 no_keytype no_auto rec_bits two_bytes 1 (SRead 1 buf0 [7; 0]) s' = Ret (q, s'')) ∨
    (checked_call korr16 korr16 korr16 no_keytype no_auto rec_bits two_bytes 1 (SRead 1 buf0 [7; 0]) s' = Hang ∧ ∃ j y, j ≠ 1%nat ∧ sessions s' !! j = Some y ∧ se_locked y = true).
Proof.
  destruct (write_returns korr16 korr16 korr16 no_keytype no_auto rec_bits 1 opened r2 two_sessions two_sessions_ok eq_refl r2_length) as (e & s' & Hrun & K).
  pose proof (db_call_ok (λ _, True) korr16 korr16 korr16 no_keytype no_auto rec_bits 1 opened (SWrite r2) two_sessions (all_stored _) two_sessions_ok eq_refl r2_length) as Hc.
  rewrite Hrun in Hc. destruct Hc as (_ & _ & Ek & _). rewrite two_sessions_keydefs in Ek.
  assert (Hfit : call_fits korr16 two_sessions None opened (SWrite r2)).
  { cbn [call_fits]. rewrite two_sessions_keydefs. cbn [two_sessions share]. rewrite h1_reclength. by apply record_fits. }
  destruct (checked_step hasher0 bin_add korr16 korr16 korr16 no_keytype no_auto rec_bits two_bytes korr16_two two_sessions no_key 1%nat opened (SWrite r2)
    two_sessions_ok two_sessions_fit eq_refl r2_length Hfit) as [Hck _]. rewrite <-Hck in Hrun.
  assert (He : checked_exec korr16 korr16 korr16 no_keytype no_auto rec_bits two_bytes two_sessions no_key [(1%nat, SWrite r2, (e, []))] s' _)
    by exact (checked_cons _ _ _ _ _ _ _ two_sessions no_key 1 opened (SWrite r2) (e, []) s' [] s' _ eq_refl r2_length Hfit Hrun (checked_nil _ _ _ _ _ _ _ s' _)).
  exists (e, []), s'. eexists. split; [exact He|].
  destruct (sessions_safe hasher0 bin_add korr16 korr16 korr16 no_keytype no_auto rec_bits two_bytes two_sessions no_key _ s' _ korr16_two two_sessions_ok two_sessions_fit He) as [H1 H2].
  split; [exact H1|]. intros x Hx. apply (H2 1%nat x (SRead 1 buf0 [7; 0]) Hx).
  - cbn [call_ok]. rewrite (kp_keys _ _ K). cbn [two_sessions share]. rewrite (sc_keys _ _ (sr_config _ _ h1_rows)).
    destruct d1_facts as (_ & _ & Kd & _), s0_config as (_ & Hk & _). rewrite (kp_keys _ _ Kd), Hk. lia.
  - cbn [call_fits]. rewrite (kp_reclength _ _ K), Ek. cbn [two_sessions share]. rewrite h1_reclength. split; [reflexivity|]. intros kd [= <-].
    cbn [seg kd_tag key_fits]. split; [by vm_compute|]. split; [discriminate|exact I].
Defined.

(** The row that session 0 holds is still there, and its update does not wait. *)
Lemma session_rmw_witness : ∃ r s', db_exec no_korr no_korr no_korr no_keytype no_auto no_bits two_sessions [(1%nat, SWrite r2, r)] s' ∧
  table (share s') !! current_slot (se_info (as_session h1)) = Some r1 ∧
  ∃ e s'', db_call no_korr no_korr no_korr no_keytype no_auto no_bits 0 (SUpdate r1 r2) s' = Ret ((e, []), s'').
Proof.
  destruct two_sessions_run as (r & s' & He & Hl). exists r, s'. split; [exact He|].
  destruct (session_rmw no_korr no_korr no_korr no_keytype no_auto no_bits 0%nat (as_session h1) two_sessions [(1%nat, SWrite r2, r)] s' r1 r2) as (Ht & e & s'' & Hrun & _).
  - exact two_sessions_ok.
  - reflexivity.
  - exact h1_write.
  - unfold two_sessions. exact (eq_ind_r (λ h, at_row h r1) h1_at (as_handler_session _ _)).
  - exact He.
  - constructor; [discriminate|constructor].
  - rewrite Hl. reflexivity.
  - split; [exact Ht|]. exists e, s''. exact Hrun.
Defined.
