(* ===== verification/DemoTests.v ===== *)
(** The standalone tests on concrete inputs: a run of test B in which two threads meet at a key, and
    test D with three rows; a run of test A and a torn record. *)

From S2P Require Import Prelude CoreState CoreOps RowOps Shape Inv Reads Alloc Lifecycle Spec Standalone Stress TornRead TornCorrupt.

(** Both threads insert key 5, one wins; then thread 1 updates the row and thread 0 inserts another
    while thread 1 is inside the mutex. *)
Definition ins5 (v : Z) : choice := mkChoice 205 v 10 0.
Definition upd5 : choice := mkChoice 5 1000009 14 1.
Definition ins7 : choice := mkChoice 7 3 0 0.
Definition race : list (nat * choice) :=
  [(0%nat, ins5 1); (1%nat, ins5 2); (1%nat, upd5); (0%nat, upd5); (1%nat, upd5); (0%nat, ins7); (1%nat, upd5); (1%nat, upd5); (1%nat, upd5); (0%nat, ins7)].

Definition memory (_ : nat) (_ : Z) : bool := true.
Definition quiet_threads (s : stress) : bool := forallb (λ p : nat * pc, match p.2 with Loop => true | _ => false end) (map_to_list (threads s)).

(** A run that ends with [m] recorded, one duplicate and no thread in a round. *)
Definition ends (m : gmap Z Z) (sched : list (nat * choice)) (o : outcome (() * stress)) : bool :=
  match o with
  | Ret (_, s1) =>
      match stress_run [] sched s1 with
      | Ret (_, s) => bool_decide (shadow s = m) && bool_decide (dups s = 1) && quiet_threads s
      | _ => false
      end
  | _ => false
  end.

Lemma ends_spec m sched o : ends m sched o = true →
  ∃ s1 s, o = Ret (tt, s1) ∧ stress_run [] sched s1 = Ret (tt, s) ∧ shadow s = m ∧ dups s = 1 ∧ quiet_threads s = true.
Proof.
  unfold ends. destruct o as [[[] s1]| |]; [|done..]. destruct (stress_run [] sched s1) as [[[] s]| |] eqn:E; [|done..].
  intros [[H1%bool_decide_eq_true H2%bool_decide_eq_true]%andb_true_iff H3]%andb_true_iff. by exists s1, s.
Qed.

Lemma race_runs : ends {[ 5 := 9; 7 := 3 ]} race (stress_init memory (stress_start 2 local_share)) = true.
Proof. vm_compute. reflexivity. Qed.

Lemma quiet_spec s : quiet_threads s = true → ∀ t p, threads s !! t = Some p → p = Loop.
Proof.
  unfold quiet_threads. rewrite forallb_forall. intros H t p Hp. specialize (H (t, p)). cbn in H.
  destruct p; [done|exfalso..]; discriminate H; apply base.list_elem_of_In, elem_of_map_to_list, Hp.
Qed.

Lemma local_fresh : fresh (heap local_share).
Proof. intros p Hp. cbn in Hp. by apply elem_of_empty in Hp. Qed.

Lemma unique_key_passes_witness : ∃ s1 s, stress_init memory (stress_start 2 local_share) = Ret (tt, s1) ∧ stress_run [] race s1 = Ret (tt, s) ∧
  shadow s = {[ 5 := 9; 7 := 3 ]} ∧ ∃ s', (verify [];; x_call fm_core_free_share) s = Ret (tt, s') ∧ failures s' = 0 ∧ live (heap (st_core s')) = ∅.
Proof.
  destruct (ends_spec _ _ _ race_runs) as (s1 & s & E1 & E2 & Hs & _ & Hq). exists s1, s. split; [exact E1|]. split; [exact E2|]. split; [exact Hs|].
  destruct (unique_key_passes memory [] 2 race local_share s1 s (λ _ _, eq_refl) local_fresh E1 E2) as (_ & _ & Hv).
  destruct (Hv (quiet_spec s Hq)) as ([] & s' & Hrun & Hf & Hl). exists s'. split; [exact Hrun|]. split; [exact Hf|exact Hl].
Defined.

Lemma multikey_passes_witness : ∃ t', test_multikey 3 2 memory [] (mkT local_share 0) = Ret (tt, t') ∧ g_failures t' = 0 ∧ live (heap (t_core t')) = ∅.
Proof.
  destruct (multikey_passes 3 2 memory [] (mkT local_share 0) (λ _ _, eq_refl) local_fresh ltac:(lia) ltac:(lia)) as ([] & t' & Hrun & Hf & Hl).
  exists t'. split; [exact Hrun|]. split; [exact Hf|exact Hl].
Defined.

(** * Test A *)

(** Two writers on row 5, which pass each other between the read of [rows[5]] and its assignment, and
    a reader; then the end. *)
Definition torn_events : list event :=
  [Go 0 5; Go 1 69; Go 0 1; Go 1 1; Go 4 1; Go 0 1; Go 1 1; Go 1 1; Go 4 1; Go 0 1; Go 0 1; Go 4 1; Go 1 1; Stop; Go 0 1; Go 1 1] ++ replicate 70 (Go 4 1).

Lemma torn_events_ok : Forall event_ok torn_events.
Proof. unfold torn_events. apply Forall_app. split; [|apply Forall_replicate; split; [lia|discriminate]].
  repeat (apply Forall_cons_2; [first [exact Logic.I|split; [lia|discriminate]]|]). apply Forall_nil_2. Qed.

Lemma torn_read_passes_witness :
  wp (torn_init (λ _ _, true);; torn_run [] torn_events;; torn_end []) (λ _ s, tn_failures s = 0 ∧ live (heap (tn_core s)) = ∅) torn_start.
Proof. apply (torn_read_passes [] torn_events); [exact torn_events_ok|reflexivity]. Defined.

(** A reader begins its scan and then a writer draws row 0. *)
Definition draw_events : list event := [Go 4 0; Go 4 0] ++ replicate 4 (Go 1 0).

(** Writer 1 has just updated row 0. *)
Definition at_store (s : torn) : bool := match tn_threads s !! 1%nat with Some (WStore _ i _) => bool_decide (i = 0) | _ => false end.
Definition at_store_by (o : outcome (() * torn)) : bool := match o with Ret (_, s) => at_store s | _ => false end.

Lemma draw_at_store : at_store_by ((torn_init (λ _ _, true);; torn_run [] draw_events) torn_start) = true.
Proof. vm_compute. reflexivity. Qed.

Lemma at_store_place s : at_store s = true → ∃ epoch nr, tn_threads s !! 1%nat = Some (WStore epoch 0 nr).
Proof. unfold at_store. destruct (tn_threads s !! 1%nat) as [[]|]; try done. intros ->%bool_decide_eq_true. by eexists _, _. Qed.

Lemma draw_in_crew : Forall in_crew (draw_events ++ []).
Proof. unfold draw_events. repeat (constructor; [cbn; lia|]). constructor. Qed.

Lemma torn_read_corrupts_witness : ∃ s, (torn_init (λ _ _, true);; torn_run [] draw_events) torn_start = Ret (tt, s) ∧ tn_failures s = 0 ∧ corrupt (tn_core s).
Proof.
  destruct (torn_read_corrupts [] draw_events [] draw_in_crew) as ([] & s & Hrun & Hf & _ & Hst & _); [reflexivity|].
  pose proof draw_at_store as Ha. rewrite Hrun in Ha. destruct (at_store_place s Ha) as (epoch & nr & Hp).
  exists s. exact (conj Hrun (conj Hf (Hst _ _ _ Hp))).
Defined.

(** A record with the lower bytes of one value and the upper bytes of another. *)
Lemma torn_read_blind_witness : let a := kmv_bytes (1, 2 ^ 40 - 1) in let b := kmv_bytes (1, 2 ^ 40) in let buf := take 20 a ++ drop 20 b in
  (buf ≠ a ∧ buf ≠ b) ∧ magic_ok buf = true ∧ value_ok buf = true.
Proof.
  intros a b buf. split; [split; intros E; vm_compute in E; discriminate E|]. apply (torn_read_blind [a; b] buf).
  - intros img [->|[->|[]%elem_of_nil]%elem_of_cons]%elem_of_cons; [exists 1, (2 ^ 40 - 1)|exists 1, (2 ^ 40)]; split; (reflexivity || lia).
  - intros j Hj. destruct (decide (j < 20)%nat) as [H20|H20].
    + exists a. split; [left|]. unfold buf. rewrite lookup_app_l by (rewrite length_take; vm_compute length; lia). by apply lookup_take_lt.
    + exists b. split; [right; left|]. unfold buf. rewrite lookup_app_r by (rewrite length_take; vm_compute length; lia).
      rewrite lookup_drop, length_take. f_equal. vm_compute length. lia.
Defined.
