(* ===== verification/DemoUnique.v ===== *)
(** Concrete threads on a unique key: two key changes that race for one key while a third row is
    deleted, two inserts that race while another row is updated, and a lookup that passes the slot of
    a row before the row is published. *)

From S2P Require Import Prelude CoreState RowOps Shape Inv Unique UniqueSafe UniqueWins UniqueRace UniqueFind UniqueLive.

(** A run that ends with a state that passes a test. *)
Definition ends (sched : list nat) (s : ksys) (test : ksys → bool) : bool :=
  match krun byte_key sched s with Some s' => test s' | None => false end.

Lemma ends_run sched s test : ends sched s test = true → ∃ s', krun byte_key sched s = Some s' ∧ test s' = true.
Proof. unfold ends. destruct (krun byte_key sched s) as [s'|]; [by exists s'|done]. Qed.

(** * Two key changes and a delete *)

Definition movers : ksys :=
  mkK {[ 0 := mkRow FM_SLOT_ACTIVE [1]; 1 := mkRow FM_SLOT_ACTIVE [3]; 2 := mkRow FM_SLOT_ACTIVE [4]; 3 := mkRow FM_SLOT_ACTIVE [0] ]}
    {[ 0 := [3; 2]; 1 := [1; 0] ]} [] ∅ ∅ None
    {[ 1%nat := KUpd 0 (λ _, [2]) UpLock; 2%nat := KUpd 1 (λ _, [2]) UpLock; 3%nat := KDel 2 DeLock ]}.

(** Both have read their row before either locks a bucket, and the delete goes on between them. *)
Definition movers_schedule : list nat :=
  [1; 2; 1; 2; 1; 2; 3; 3; 3; 3; 1; 1; 1; 1; 1; 1; 1; 1; 1; 1; 1; 2; 2; 2; 2; 2; 3; 2; 3; 3; 3; 3; 3; 3; 3]%nat.

Definition movers_test (s : ksys) : bool :=
  bool_decide (active s 0 = Some [2]) && bool_decide (active s 1 = Some [3]) && bool_decide (active s 2 = None).

Lemma movers_end : ends movers_schedule movers movers_test = true.
Proof. vm_compute. reflexivity. Qed.

Lemma movers_start : kstart byte_key movers.
Proof. apply start_ok_start. vm_compute. reflexivity. Qed.

(** The first key change wins, the second is refused, and no two rows clash. *)
Lemma unique_concurrent_witness : ∃ s, krun byte_key movers_schedule movers = Some s ∧ movers_test s = true ∧
  ∀ i j a b, active s i = Some a → active s j = Some b → clash byte_key a b = true → i = j.
Proof.
  destruct (ends_run _ _ _ movers_end) as (s & E & T). exists s. split; [exact E|]. split; [exact T|]. intros i j a b.
  apply (unique_concurrent byte_key eq_refl movers movers_schedule s i j a b movers_start); [|exact E].
  left. intros t th H. unfold movers in H. cbn in H. rewrite !lookup_insert_Some, lookup_singleton_Some in H.
  destruct H as [[_ <-]|[_ [[_ <-]|[_ [_ <-]]]]]; exact id.
Defined.

(** * Two inserts and an update *)

Definition keep (img : bytes) : bytes := match img with x :: _ => [x; 7] | [] => [] end.

Definition inserters : ksys :=
  mkK {[ 0 := mkRow FM_SLOT_ACTIVE [1; 9]; 1 := mkRow FM_SLOT_FREE []; 2 := mkRow FM_SLOT_FREE [] ]} {[ 1 := [0] ]} [1; 2] ∅ ∅ None
    {[ 1%nat := KIns [2; 5] InMutex; 2%nat := KIns [2; 6] InMutex; 3%nat := KUpd 0 keep UpLock ]}.

Definition inserters_schedule : list nat := [1; 3; 1; 3; 1; 1; 3; 1; 1; 1; 1; 3; 1; 2; 2; 2; 3; 2; 2; 2; 2; 2]%nat.

(** What an insert has returned. *)
Definition returned (s : ksys) (t : nat) : option (bytes * fm_err) :=
  match k_crew s !! t with Some (KIns rec (InReturn rc)) => Some (rec, rc) | _ => None end.

Lemma returned_spec s t rec rc : returned s t = Some (rec, rc) → k_crew s !! t = Some (KIns rec (InReturn rc)).
Proof. unfold returned. destruct (k_crew s !! t) as [[r []| | |]|]; try done. by intros [= -> ->]. Qed.

Definition inserters_test (s : ksys) : bool :=
  bool_decide (returned s 1 = Some ([2; 5], FM_ERR_OK)) && bool_decide (returned s 2 = Some ([2; 6], FM_ERR_DUP_KEY)) &&
  bool_decide (active s 0 = Some [1; 7]).

Lemma inserters_end : ends inserters_schedule inserters inserters_test = true.
Proof. vm_compute. reflexivity. Qed.

Lemma inserters_start : kstart byte_key inserters.
Proof. apply start_ok_start. vm_compute. reflexivity. Qed.

Lemma inserters_gentle t th : k_crew inserters !! t = Some th → gentle byte_key th.
Proof.
  unfold inserters. cbn. rewrite !lookup_insert_Some, lookup_singleton_Some. intros [[_ <-]|[_ [[_ <-]|[_ [_ <-]]]]]; try done. cbn. intros img.
  apply bool_decide_eq_true. unfold same_key. cbn. destruct img; cbn; lia.
Qed.

Lemma inserters_new j a : active inserters j = Some a → key_same byte_key a [2; 6] = false.
Proof.
  intros (r & Hr & Hs & <-)%active_row. unfold inserters in Hr. cbn in Hr. rewrite !lookup_insert_Some, lookup_singleton_Some in Hr.
  destruct Hr as [[_ <-]|[_ [[_ <-]|[_ [_ <-]]]]]; [reflexivity|discriminate Hs..].
Qed.

(** The second insert is told of the duplicate, so another one has won. *)
Lemma one_insert_wins_witness : ∃ s, krun byte_key inserters_schedule inserters = Some s ∧ inserters_test s = true ∧
  ∃ t0 th0 rec0, k_crew s !! t0 = Some th0 ∧ verdict th0 = Some (rec0, FM_ERR_OK) ∧ key_same byte_key rec0 [2; 6] = true ∧
    ∀ t1 rec1 rc1, t1 ≠ t0 → k_crew s !! t1 = Some (KIns rec1 (InReturn rc1)) → key_same byte_key rec1 [2; 6] = true → rc1 = FM_ERR_DUP_KEY ∨ rc1 = FM_ERR_FULL.
Proof.
  destruct (ends_run _ _ _ inserters_end) as (s & E & T). exists s. split; [exact E|]. split; [exact T|].
  unfold inserters_test in T. rewrite !andb_true_iff, !bool_decide_eq_true in T. destruct T as [[_ T2] _].
  apply (one_insert_wins byte_key eq_refl inserters inserters_schedule s 2%nat [2; 6] FM_ERR_DUP_KEY inserters_start inserters_gentle E);
    [by apply returned_spec|discriminate|exact inserters_new|reflexivity].
Defined.

(** * A lookup and an insert *)

Definition seekers : ksys :=
  mkK {[ 0 := mkRow FM_SLOT_ACTIVE [4]; 1 := mkRow FM_SLOT_FREE [] ]} {[ 0 := [0] ]} [1] ∅ ∅ None
    {[ 1%nat := KIns [2] InMutex; 2%nat := KFind [2] FiLock ]}.

(** The insert links its row and leaves the bucket; the lookup passes the row; the insert publishes
    it; the lookup goes on to the end. *)
Definition seekers_schedule : list nat := replicate 8 1%nat ++ [2; 2; 1; 1; 2; 2; 2]%nat.

Definition looked_up (s : ksys) (t : nat) : option (bytes * option (Z * bytes)) :=
  match k_crew s !! t with Some (KFind pk (FiReturn res)) => Some (pk, res) | _ => None end.

Lemma looked_up_spec s t pk res : looked_up s t = Some (pk, res) → k_crew s !! t = Some (KFind pk (FiReturn res)).
Proof. unfold looked_up. destruct (k_crew s !! t) as [[| | |q []]|]; try done. by intros [= -> ->]. Qed.

Definition seekers_test (s : ksys) : bool :=
  bool_decide (returned s 1 = Some ([2], FM_ERR_OK)) && bool_decide (looked_up s 2 = Some ([2], None)) && bool_decide (active s 1 = Some [2]).

Lemma seekers_end : ends seekers_schedule seekers seekers_test = true.
Proof. vm_compute. reflexivity. Qed.

Lemma seekers_start : kstart byte_key seekers.
Proof. apply start_ok_start. vm_compute. reflexivity. Qed.

Lemma byte_packs k : packs byte_key [k] [k].
Proof. intros a. unfold matches_key, same_key. cbn. done. Qed.

(** The lookup finds no row, and there was a moment at which none had the key. *)
Lemma lookup_atomic_witness : ∃ s, krun byte_key seekers_schedule seekers = Some s ∧ seekers_test s = true ∧
  ∃ a b s1, seekers_schedule = a ++ b ∧ krun byte_key a seekers = Some s1 ∧ walking s1 2 [2] ∧ ∀ j img, active s1 j = Some img → key_same byte_key img [2] = false.
Proof.
  destruct (ends_run _ _ _ seekers_end) as (s & E & T). exists s. split; [exact E|]. split; [exact T|].
  unfold seekers_test in T. rewrite !andb_true_iff, !bool_decide_eq_true in T. destruct T as [[_ T2] _].
  apply (lookup_atomic byte_key eq_refl [2] [2] (byte_packs 2) eq_refl seekers seekers_schedule s 2%nat None seekers_start); [|exact E|by apply looked_up_spec].
  right. intros t th H. unfold seekers in H. cbn in H. rewrite lookup_insert_Some, lookup_singleton_Some in H.
  destruct H as [[_ <-]|[_ [_ <-]]]; exact Logic.I.
Defined.

(** After the first steps of the two key changes, one waits for a bucket and the other goes on. *)
Definition busy (s : ksys) : bool :=
  match k_crew s !! 2%nat with Some (KUpd _ _ (UpLock1 _ _)) => true | _ => false end && match kstep byte_key 2 s with None => true | Some _ => false end.

Lemma movers_busy : ends [1; 1; 1; 1; 2; 2; 2]%nat movers busy = true.
Proof. vm_compute. reflexivity. Qed.

Lemma busy_waits s : busy s = true → ∃ th, k_crew s !! 2%nat = Some th ∧ ¬ has_returned th ∧ kstep byte_key 2 s = None.
Proof.
  unfold busy. destruct (k_crew s !! 2%nat) as [[|? ? []| |]|]; try done. intros E. destruct (kstep byte_key 2 s) eqn:Ek; [done|].
  eexists. split; [reflexivity|]. split; [exact id|done].
Qed.

Lemma unique_no_deadlock_witness : ∃ s, krun byte_key [1; 1; 1; 1; 2; 2; 2]%nat movers = Some s ∧ kstep byte_key 2 s = None ∧ ∃ t s', kstep byte_key t s = Some s'.
Proof.
  destruct (ends_run _ _ _ movers_busy) as (s & E & T). destruct (busy_waits s T) as (th & Ht & Hr & Hw). exists s. split; [exact E|]. split; [exact Hw|].
  exact (unique_no_deadlock byte_key movers [1; 1; 1; 1; 2; 2; 2]%nat s 2%nat th movers_start E Ht Hr).
Defined.
